(* ===== verification/_CoqProject ===== *)
-Q . S2P
Prelude.v
Fips180.v
Crypto.v
Config.v
Cache.v
Security.v
Fs.v
CString.v
ConfigFile.v
Log.v
HttpText.v
StorageCodec.v
Storage.v
Persistence.v
HttpServer.v
ServiceAuth.v
ServiceWire.v
ServiceState.v
ServiceHandlers.v
ServiceBindings.v
Service.v
Runtime.v
Ctl.v
