(* ===== verification/Prelude.v ===== *)
(** * mp-cache: a verified model of the cache server

    mp-cache is a C17 program: a cache with expiring entries and bearer-token
    clients, served as HTTP over a Unix socket, kept on disk in an encrypted
    checkpoint and journal, and driven by a control program. This library models
    the whole of its own C code and proves what makes it correct. This file holds
    what every other file uses: machine integers, outcomes of C functions, state
    passing, C strings, the allocator, and the shared lemmas and tactics.

    ** The program and its model

    - [Crypto] (src/internal/crypto/crypto.c): SHA-256 with its streaming
      context, HMAC, comparison in constant time, random bytes, hex, Base64 and
      the keystream cipher. [Fips180] is the definition of SHA-256 from the
      standard, bit by bit, that the code is compared with.
    - [Config], [ConfigFile] (src/internal/config): the configuration struct as a
      record of its text and number fields, the defaults, the line parser, the
      table of keys, validation, the template and the listing.
    - [Cache] (src/internal/cache): the bounded hash table; chains as lists, a
      slot pointer as a bucket index with a position.
    - [Security] (src/internal/security): the client registry with its token
      hashes and roles, and the resolution of secrets.
    - [Fs] (src/internal/platform): directory and file helpers over a model of the
      operating system's files.
    - [CString]: the functions of the C library the parsers call.
    - [Log] (src/internal/observability): the log tail and the set-up of the
      external logger library, which is the class [Logger].
    - [StorageCodec], [Storage], [Persistence] (src/internal/storage): buffers and
      payload formats; packets, checkpoint, journal, export and import; and the
      theorems about them. [Storage] is written against the class
      [EnvelopeCrypto], the interface crypto.c provides, and [Crypto] supplies the
      instance.
    - [HttpText], [HttpServer] (src/internal/httpserver): request reading, the
      JSON, query and percent parsers; the server's state, rate limiter,
      authentication, one definition per handler, routing, framing, the accept
      loop, start and stop, and the socket client.
    - [ServiceAuth], [ServiceWire], [ServiceState], [ServiceHandlers],
      [ServiceBindings], [Service]: the theorems about that server: authorization
      and rate limits, the wire format, the invariant with one lemma per handler,
      what a request does to one binding of the table, and runs of connections.
    - [Runtime] (src/internal/runtime, src/cmd/mp-cache-server): the life of the
      process from its arguments to the cleanup.
    - [Ctl] (src/cmd/mp-cachectl): the control program.

    The components call each other as in the code: [Runtime] loads the
    configuration, makes the store, the registry and the storage, loads the disk
    and runs the server of [HttpServer]; a handler changes the store or the
    registry and then persists the change through [Storage]; [Ctl] writes what
    the server reads.

    ** How C is modelled

    A fallible function returns an [outcome]: [Ret], [Fail] with the error number,
    or [Stuck] for what C leaves undefined (an access outside an object, a second
    [fclose]) and for exhausted fuel; theorems about results show that [Stuck]
    does not happen. A function that changes state is a function of [ST] or [STE],
    which keep the state reached on error paths. Unsigned arithmetic wraps where
    the source wraps ([u32], [u64]). A C string is the list of its bytes before
    the NUL, and fixed buffers cut texts where [snprintf] does. What the
    environment decides is an explicit list of choices: every [malloc] takes the
    next element of the heap's plan, every system call on a file the next element
    of the disk's plan, [recv], [send], [poll] and [accept] the next event of a
    list; random bytes, the clock and the process id are part of [world]. A
    theorem for all plans therefore covers every pattern of failures, and a used-up
    plan means success. Handlers run one after the other, as in the single
    process; a run of the server is the inductive [serving] in [Service], whose
    steps are connections and arbitrary changes of clock, files, memory and
    entropy between them; [acknowledged] and [unwritten] there are the runs whose
    requests are answered without an internal error, and those that do not write
    a given key.

    ** What the theorems show

    - The table refines a finite map bounded by the memory limit, on every
      operation and every pattern of allocation failures (C4, C25).
    - Tokens: acceptance is exactly possession of an active credential;
      registration, revocation and the registry's invariant (C8, C24, C30, C31).
    - Storage: a checkpoint is atomic, recovery gives what was persisted, any bytes
      on disk are survived, packets are authentic, a torn journal is refused, an
      import is confined and all or nothing, a state written is read back, an
      export imports back (C5, C7, C9, C11, C20, C23, C29, C32, C37).
    - The server: its invariant over every run, that only entitled callers change
      anything, that a client reads what it wrote, that acknowledged changes
      survive a crash, and the rate limit with its recovery (C1, C2, C3, C6, C12,
      C13, C28).
    - The process: a clean shutdown saves everything, and a start that cannot load
      erases what it could not read (C10, C14).
    - Text: reading requests is memory-safe, the wire formats and documents round
      trip, from the control program into the table (C17, C18, C19, C26, C27, C33,
      C34, C35, C39, C40).
    - Configuration and logging: what loads is well typed and coherent, the template
      loads back, the log tail is right (C15, C16, C36).
    - Cryptography: SHA-256 is the function of FIPS 180-4, and HMAC that of RFC
      2104 over it (C21, C22).
    - The places where the code does less than it means to are theorems or examples
      as well (C14, C38, [base64_decode_capacity_gap], [import_accepts_sibling],
      [rename_failure_closes_twice], [rate_limit_double_burst], [negative_limit],
      [equal_sign_refused], [long_value_is_cut]).

    ** Fuel and bounds

    Loops over a list or a count are structural. The others take fuel that is shown
    to be enough: the block loops of SHA-256 and of the cipher and the parsers of
    [HttpText] get the length of their input, which every round shortens;
    [replay_journal] gets one more than the length of the journal, since a packet
    is not empty; [grow_loop] gets 64 doublings of a 64-bit size; the loops of
    [deserialize_state] get the length of the payload, since every record takes
    bytes. Theorems about whole services assume a memory limit of at most 2^31
    bytes and times below 2^62 seconds, which keep lengths and expiry times in
    their C types.

    ** Not modelled

    The text of log lines and of diagnostics of the server on the standard error,
    [free] (no theorem depends on memory being returned), permissions and the
    normalisation of repeated separators in paths, signals other than as the end of
    the event list, and the logger library, whose code is a submodule outside the
    repository. Secrecy of the cipher is not claimed: [packet_authentic] says that
    the MAC was checked, not that it cannot be forged. *)

From stdpp Require Import base numbers strings option pretty gmap list.
Local Open Scope Z_scope.

(** ** Machine integers *)

(** An unsigned C integer of [w] bits is a [Z] kept in range by wrapping. *)
Definition u8 (z : Z) : Z := z `mod` 2 ^ 8.
Definition u32 (z : Z) : Z := z `mod` 2 ^ 32.
Definition u64 (z : Z) : Z := z `mod` 2 ^ 64.

(** [(int64_t)x] for a [uint64_t] value [x]: two's complement. *)
Definition i64 (z : Z) : Z :=
  if decide (u64 z < 2 ^ 63) then u64 z else u64 z - 2 ^ 64.

Definition UINT32_MAX : Z := 2 ^ 32 - 1.
Definition SIZE_MAX : Z := 2 ^ 64 - 1.

Declare Scope mpc_scope.
Delimit Scope mpc_scope with mpc.
Infix "⊞" := (fun x y => u32 (x + y)) (at level 50, left associativity) : mpc_scope.
Infix "⊕" := Z.lxor (at level 45, left associativity) : mpc_scope.

(** ** Bytes and C strings *)

(** A byte is a [Z] in [0, 256); a buffer is a list of bytes, its length the
    C length argument that travels with the pointer. A C string is the list
    of its bytes before the terminating NUL. *)
Abbreviation bytes := (list Z).

Definition is_byte (b : Z) : Prop := 0 ≤ b < 256.
Definition bytes_wf (l : bytes) : Prop := Forall is_byte l.
#[export] Instance is_byte_dec b : Decision (is_byte b).
Proof. unfold is_byte. apply _. Defined.
#[export] Instance bytes_wf_dec l : Decision (bytes_wf l).
Proof. unfold bytes_wf. apply _. Defined.

(** The length of a buffer as the C [size_t] value. *)
Definition zlen {A} (l : list A) : Z := Z.of_nat (length l).

(** The bytes of a source-text literal. *)
Fixpoint cstr (s : string) : bytes :=
  match s with
  | EmptyString => []
  | String a s' => Z.of_N (Ascii.N_of_ascii a) :: cstr s'
  end.

(** ** Outcomes of C functions *)

(** [Ret] is a normal return, [Fail e] an error return with [errno] set to
    [e], and [Stuck] an execution the C standard gives no meaning to (a
    write outside the buffer). *)
Inductive errno :=
  EINVAL | ENOENT | EIO | ENOSPC | EACCES | EOVERFLOW | ENAMETOOLONG | ENOMEM | E2BIG
| EEXIST | ENOTDIR | EOTHER.

Inductive outcome (A : Type) :=
| Ret (a : A)
| Fail (e : errno)
| Stuck.
Arguments Ret {A} a.
Arguments Fail {A} e.
Arguments Stuck {A}.

#[export] Instance errno_eq_dec : EqDecision errno.
Proof. solve_decision. Defined.
#[export] Instance outcome_eq_dec {A} `{EqDecision A} : EqDecision (outcome A).
Proof. solve_decision. Defined.

#[export] Instance outcome_ret : MRet outcome := @Ret.
#[export] Instance outcome_bind : MBind outcome := fun A B f m =>
  match m with Ret a => f a | Fail e => Fail e | Stuck => Stuck end.

(** ** State-passing code *)

(** A C function that changes a state [S] and returns an [A]. *)
Definition ST (S A : Type) : Type := S → A * S.
#[export] Instance ST_ret S : MRet (ST S) := fun A a s => (a, s).
#[export] Instance ST_bind S : MBind (ST S) := fun A B f m s =>
  let '(a, s') := m s in f a s'.

(** A C function that changes a state and returns an error code: the state
    reached is kept on the error paths too. *)
Definition STE (S A : Type) : Type := S → outcome A * S.
#[export] Instance STE_ret S : MRet (STE S) := fun A a s => (Ret a, s).
#[export] Instance STE_bind S : MBind (STE S) := fun A B f m s =>
  match m s with
  | (Ret a, s') => f a s'
  | (Fail e, s') => (Fail e, s')
  | (Stuck, s') => (Stuck, s')
  end.

Definition fail {S A} (e : errno) : STE S A := fun s => (Fail e, s).
Definition lift {S A} (o : outcome A) : STE S A := fun s => (o, s).
Definition run {S A} (m : ST S A) : STE S A := fun s => let '(a, s') := m s in (Ret a, s').

(** [if (m != 0) ...]: the result as a value, whatever it is. *)
Definition attempt {S A} (m : STE S A) : STE S (outcome A) := fun s =>
  let '(o, s') := m s in (Ret o, s').

(** Code that works on a part of the state, found by [get] and [set]. *)
Definition zoom {S T A} (get : S → T) (set : S → T → S) (m : STE T A) : STE S A := fun s =>
  let '(o, t) := m (get s) in (o, set s t).

(** Code that uses only one part of a two-part state. *)
Definition on_fst {S T A} (m : ST S A) : ST (S * T) A := fun s =>
  let '(a, s1) := m s.1 in (a, (s1, s.2)).
Definition on_snd {S T A} (m : ST T A) : ST (S * T) A := fun s =>
  let '(a, s2) := m s.2 in (a, (s.1, s2)).

(** ** Characters and C strings *)

(** <ctype.h> in the C locale. *)
Definition isspace (c : Z) : bool := bool_decide (c = 32 ∨ 9 ≤ c ≤ 13).
Definition isdigit (c : Z) : bool := bool_decide (48 ≤ c ≤ 57).
Definition isalnum (c : Z) : bool :=
  bool_decide (48 ≤ c ≤ 57 ∨ 65 ≤ c ≤ 90 ∨ 97 ≤ c ≤ 122).

(** The C string at the start of a buffer: everything before the first NUL. *)
Fixpoint c_string (buf : bytes) : bytes :=
  match buf with
  | [] => []
  | c :: buf' => if decide (c = 0) then [] else c :: c_string buf'
  end.

(** [snprintf (out, cap, "%s", s)]: the text that ends up in [out]. *)
Definition snprintf_s (cap : nat) (s : bytes) : bytes := take (cap - 1) s.

(** [strncmp (s, prefix, strlen (prefix)) == 0] *)
Definition starts_with (prefix s : bytes) : bool := bool_decide (take (length prefix) s = prefix).

(** [fgets]: up to [cap - 1] bytes, ending after the first newline; [None]
    at end of file. The second component is what is left to read. *)
Fixpoint fgets_loop (n : nat) (content : bytes) : bytes * bytes :=
  match n, content with
  | S n', c :: content' =>
    if decide (c = 10) then ([10], content')
    else let '(line, rest) := fgets_loop n' content' in (c :: line, rest)
  | _, _ => ([], content)
  end.
Definition fgets (cap : nat) (content : bytes) : option (bytes * bytes) :=
  match cap, content with
  | O, _ => None
  | S O, _ => Some ([], content)
  | S _, [] => None
  | S n, _ => Some (fgets_loop n content)
  end.

(** [%ld], [%zu], [%lu]: decimal digits. *)
Definition dec (z : Z) : bytes := cstr (pretty z).

(** The trim loops shared by the parsers: leading, then trailing white space. *)
Fixpoint drop_space (s : bytes) : bytes :=
  match s with
  | c :: s' => if isspace c then drop_space s' else s
  | [] => []
  end.
Definition trim_space (s : bytes) : bytes := reverse (drop_space (reverse (drop_space s))).

(** ** The allocator *)

(** The outcomes of the allocation calls still to come, [true] for a block
    and [false] for [NULL]; once the list is used up every call succeeds.
    Theorems quantify over it, so they hold for every pattern of failures. *)
Abbreviation heap := (list bool).

(** [malloc], [calloc] and [realloc]: does the call return a block? *)
Definition alloc : ST heap bool := fun h =>
  match h with
  | [] => (true, [])
  | b :: h' => (b, h')
  end.

(** A heap on which no allocation fails. *)
Definition heap_ok (h : heap) : Prop := Forall (eq true) h.

(** ** Arrays *)

(** [memcpy (buf + off, src, |src|)] inside a buffer. *)
Definition buf_write (off : nat) (src buf : bytes) : bytes :=
  take off buf ++ src ++ drop (off + length src) buf.

(** [n] zero bytes, as [memset (buf, 0, n)] writes them. *)
Definition zeros (n : nat) : bytes := replicate n 0.

(** Big-endian bytes of an integer and the integer of big-endian bytes. *)
Fixpoint be_bytes (n : nat) (v : Z) : bytes :=
  match n with
  | O => []
  | S n' => u8 (v ≫ (8 * Z.of_nat n')) :: be_bytes n' v
  end.
Definition be_value (l : bytes) : Z := foldl (fun acc b => acc * 256 + b) 0 l.

(** Sum of a list of integers. *)
Definition sumZ (l : list Z) : Z := foldr Z.add 0 l.

(** ** Automation *)

Create HintDb mpc.
Create Rewrite HintDb mpc.

(** Arithmetic with division and modulo by constants. *)
Ltac zlia := Z.to_euclidean_division_equations; lia.

(** A decidable fact about constants. *)
Ltac decide_now := apply (bool_decide_unpack _); vm_compute; exact I.

(** Splits every [if decide], [match] and [if] of the goal and closes the
    cases that congruence or [lia] close. *)
Ltac split_cases := repeat (case_match || case_decide); simplify_eq/=; try done; try lia.

(** Equality of tuples, component by component. *)
Ltac tuple_eq := repeat apply (f_equal2 pair); try done; try lia.

(** ** Lemmas on machine integers *)

Lemma u8_range z : 0 ≤ u8 z < 256.
Proof. unfold u8. pose proof (Z.mod_pos_bound z (2 ^ 8)). lia. Qed.

Lemma u32_range z : 0 ≤ u32 z < 2 ^ 32.
Proof. unfold u32. apply Z.mod_pos_bound. lia. Qed.

Lemma u64_range z : 0 ≤ u64 z < 2 ^ 64.
Proof. unfold u64. apply Z.mod_pos_bound. lia. Qed.

Lemma u8_small z : 0 ≤ z < 256 → u8 z = z.
Proof. intros. unfold u8. apply Z.mod_small. lia. Qed.

Lemma u32_small z : 0 ≤ z < 2 ^ 32 → u32 z = z.
Proof. intros. unfold u32. by apply Z.mod_small. Qed.

Lemma u64_small z : 0 ≤ z < 2 ^ 64 → u64 z = z.
Proof. intros. unfold u64. by apply Z.mod_small. Qed.

Lemma u64_add_idemp a b : u64 (u64 a + b) = u64 (a + b).
Proof. unfold u64. by rewrite Zplus_mod_idemp_l. Qed.

Lemma i64_u64 z : - 2 ^ 63 ≤ z < 2 ^ 63 → i64 (u64 z) = z.
Proof.
  intros Hz. unfold i64.
  assert (u64 (u64 z) = u64 z) as -> by (apply u64_small, u64_range).
  unfold u64 in *. case_decide; zlia.
Qed.

#[export] Hint Resolve u8_range u32_range u64_range : mpc.

Lemma is_byte_u8 z : is_byte (u8 z).
Proof. apply u8_range. Qed.
#[export] Hint Resolve is_byte_u8 : mpc.

(** Bitwise or of disjoint parts is a sum. *)
Lemma lor_shiftl_add a b n :
  0 ≤ n → 0 ≤ b < 2 ^ n → Z.lor (a ≪ n) b = a * 2 ^ n + b.
Proof.
  intros Hn Hb. rewrite <-Z.add_nocarry_lor; [by rewrite Z.shiftl_mul_pow2|].
  apply Z.bits_inj'. intros i Hi. rewrite Z.land_spec, Z.bits_0.
  destruct (decide (i < n)).
  - by rewrite Z.shiftl_spec_low.
  - rewrite <-(Z.mod_small b (2 ^ n)) by done.
    rewrite Z.mod_pow2_bits_high by lia. by rewrite andb_false_r.
Qed.

Lemma lor_bound a b n : 0 ≤ n → 0 ≤ a < 2 ^ n → 0 ≤ b < 2 ^ n → 0 ≤ Z.lor a b < 2 ^ n.
Proof.
  intros Hn Ha Hb. split; [apply Z.lor_nonneg; lia|].
  destruct (decide (Z.lor a b = 0)) as [->|Hne]; [lia|].
  assert (0 ≤ Z.lor a b) by (apply Z.lor_nonneg; lia).
  apply Z.log2_lt_pow2; [lia|]. rewrite Z.log2_lor by lia.
  apply Z.max_lub_lt.
  - destruct (decide (a = 0)) as [->|]; [|apply Z.log2_lt_pow2; lia].
    destruct (decide (n = 0)); [subst; simpl in *|simpl; lia].
    assert (b = 0) by lia. subst. done.
  - destruct (decide (b = 0)) as [->|]; [|apply Z.log2_lt_pow2; lia].
    destruct (decide (n = 0)); [subst; simpl in *|simpl; lia].
    assert (a = 0) by lia. subst. done.
Qed.

Lemma lxor_byte a b : is_byte a → is_byte b → is_byte (Z.lxor a b).
Proof.
  intros [Ha0 Ha] [Hb0 Hb]. split; [apply Z.lxor_nonneg; lia|].
  destruct (decide (Z.lxor a b = 0)) as [->|Hne]; [lia|].
  assert (0 ≤ Z.lxor a b) by (apply Z.lxor_nonneg; lia).
  change 256 with (2 ^ 8). apply Z.log2_lt_pow2; [lia|].
  eapply Z.le_lt_trans; [by apply Z.log2_lxor|].
  apply Z.max_lub_lt.
  - destruct (decide (a = 0)) as [->|]; [simpl; lia|apply Z.log2_lt_pow2; lia].
  - destruct (decide (b = 0)) as [->|]; [simpl; lia|apply Z.log2_lt_pow2; lia].
Qed.
#[export] Hint Resolve lxor_byte : mpc.

Lemma lxor_cancel a b : Z.lxor (Z.lxor a b) b = a.
Proof. by rewrite Z.lxor_assoc, Z.lxor_nilpotent, Z.lxor_0_r. Qed.

(** ** Lemmas on lists *)

Lemma zlen_nonneg {A} (l : list A) : 0 ≤ zlen l.
Proof. unfold zlen. lia. Qed.

Lemma zlen_app {A} (l k : list A) : zlen (l ++ k) = zlen l + zlen k.
Proof. unfold zlen. rewrite length_app. lia. Qed.

Lemma zlen_cons {A} (x : A) l : zlen (x :: l) = 1 + zlen l.
Proof. unfold zlen. simpl. lia. Qed.

Lemma zlen_singleton {A} (x : A) : zlen [x] = 1.
Proof. done. Qed.

#[export] Hint Rewrite @zlen_app @zlen_singleton @zlen_cons : mpc.

(** Computes the length of explicit lists. *)
Ltac len_simpl :=
  autorewrite with mpc in *;
  repeat match goal with
  | |- context [zlen (@nil ?A)] => change (zlen (@nil A)) with 0
  | H : context [zlen (@nil ?A)] |- _ => change (zlen (@nil A)) with 0 in H
  end.

Lemma sumZ_cons x l : sumZ (x :: l) = x + sumZ l.
Proof. done. Qed.

Lemma sumZ_app l k : sumZ (l ++ k) = sumZ l + sumZ k.
Proof. induction l; simpl; [done|]. rewrite IHl. lia. Qed.

Lemma sumZ_perm l k : l ≡ₚ k → sumZ l = sumZ k.
Proof. induction 1; simpl; lia. Qed.

#[export] Instance sumZ_proper : Proper ((≡ₚ) ==> (=)) sumZ.
Proof. intros l k. apply sumZ_perm. Qed.

Lemma sumZ_nonneg l : Forall (Z.le 0) l → 0 ≤ sumZ l.
Proof. induction 1; simpl; lia. Qed.

(** Induction on lists three and four elements at a time. *)
Lemma list_ind3 {A} (P : list A → Prop) :
  P [] → (∀ a, P [a]) → (∀ a b, P [a; b]) → (∀ a b c l, P l → P (a :: b :: c :: l)) → ∀ l, P l.
Proof. intros H0 H1 H2 H3. fix F 1. intros [|a [|b [|c l]]]; [done|apply H1|apply H2|apply H3, F]. Qed.

Lemma list_ind4 {A} (P : list A → Prop) :
  P [] → (∀ a, P [a]) → (∀ a b, P [a; b]) → (∀ a b c, P [a; b; c]) →
  (∀ a b c d l, P l → P (a :: b :: c :: d :: l)) → ∀ l, P l.
Proof. intros H0 H1 H2 H3 H4. fix F 1. intros [|a [|b [|c [|d l]]]]; [done|apply H1|apply H2|apply H3|apply H4, F]. Qed.

(** A key that is not repeated identifies its element. *)
Lemma nodup_fmap_inj {A B} (f : A → B) l x y :
  NoDup (f <$> l) → x ∈ l → y ∈ l → f x = f y → x = y.
Proof.
  intros Hnd [i Hi]%list_elem_of_lookup [j Hj]%list_elem_of_lookup Hf.
  assert (i = j) as <-; [|congruence]. eapply NoDup_lookup; [exact Hnd|..].
  - rewrite list_lookup_fmap, Hi. done.
  - rewrite list_lookup_fmap, Hj. cbn. by rewrite Hf.
Qed.

Lemma length_zeros n : length (zeros n) = n.
Proof. apply length_replicate. Qed.

Lemma mjoin_cons (a : bytes) l : mjoin (a :: l) = a ++ mjoin l.
Proof. done. Qed.

Lemma mjoin_one (a : bytes) : mjoin [a] = a.
Proof. unfold mjoin. simpl. apply app_nil_r. Qed.

Lemma mjoin_two (a b : bytes) : mjoin [a; b] = a ++ b.
Proof. unfold mjoin. simpl. by rewrite app_nil_r. Qed.

Lemma zeros_add n m : zeros (n + m) = zeros n ++ zeros m.
Proof. apply replicate_add. Qed.

Lemma zeros_wf n : bytes_wf (zeros n).
Proof. apply Forall_replicate. unfold is_byte. lia. Qed.
#[export] Hint Resolve zeros_wf : mpc.

Lemma bytes_wf_app l k : bytes_wf (l ++ k) ↔ bytes_wf l ∧ bytes_wf k.
Proof. apply Forall_app. Qed.

Lemma length_buf_write off src buf :
  (off + length src ≤ length buf)%nat → length (buf_write off src buf) = length buf.
Proof.
  intros. unfold buf_write. rewrite !length_app, length_take, length_drop. lia.
Qed.

(** The part of a buffer in front of a write, then the written part. *)
Lemma take_buf_write off src buf :
  (off + length src ≤ length buf)%nat →
  take (off + length src) (buf_write off src buf) = take off buf ++ src.
Proof.
  intros. unfold buf_write. rewrite app_assoc, take_app_length'; [done|].
  rewrite length_app, length_take. lia.
Qed.

(** ** Big-endian integers *)

Lemma length_be_bytes n v : length (be_bytes n v) = n.
Proof. induction n; simpl; congruence. Qed.

Lemma zlen_be_bytes n v : zlen (be_bytes n v) = Z.of_nat n.
Proof. unfold zlen. by rewrite length_be_bytes. Qed.
#[export] Hint Rewrite zlen_be_bytes : mpc.

Lemma be_bytes_S n v : be_bytes (S n) v = u8 (v ≫ (8 * Z.of_nat n)) :: be_bytes n v.
Proof. done. Qed.

Lemma be_bytes_wf n v : bytes_wf (be_bytes n v).
Proof. induction n; constructor; auto with mpc. Qed.
#[export] Hint Resolve be_bytes_wf : mpc.

Lemma be_value_app l k :
  be_value (l ++ k) = be_value l * 256 ^ zlen k + be_value k.
Proof.
  induction k as [|b k IH] using rev_ind.
  - rewrite app_nil_r. unfold be_value, zlen. simpl. lia.
  - unfold be_value in *. rewrite app_assoc, !foldl_snoc, IH.
    rewrite zlen_app, zlen_singleton.
    rewrite Z.pow_add_r by (pose proof (zlen_nonneg k); lia). lia.
Qed.

Lemma be_value_bytes n v : be_value (be_bytes n v) = v `mod` 256 ^ Z.of_nat n.
Proof.
  induction n as [|n IH]; [by rewrite Z.mod_1_r|].
  change (be_bytes (S n) v) with ([u8 (v ≫ (8 * Z.of_nat n))] ++ be_bytes n v).
  rewrite be_value_app, IH. unfold zlen. rewrite length_be_bytes.
  unfold be_value, u8. simpl foldl. rewrite Z.shiftr_div_pow2 by lia.
  rewrite Z.pow_mul_r by lia. change (2 ^ 8) with 256.
  rewrite Nat2Z.inj_succ, Z.pow_succ_r by lia.
  rewrite (Z.mul_comm 256), Z.rem_mul_r by lia. lia.
Qed.

Lemma be_value_bound l : bytes_wf l → 0 ≤ be_value l < 256 ^ zlen l.
Proof.
  induction l as [|b l IH] using rev_ind; [done|].
  intros [Hl Hb]%bytes_wf_app. inversion_clear Hb as [|? ? Hb0 _]. unfold is_byte in Hb0.
  specialize (IH Hl). rewrite be_value_app, zlen_app, zlen_singleton.
  rewrite Z.pow_add_r, Z.pow_1_r by (pose proof (zlen_nonneg l); lia).
  change (be_value [b]) with b. lia.
Qed.

(** ** The allocator *)

Lemma alloc_heap_ok h b h' : alloc h = (b, h') → heap_ok h → b = true ∧ heap_ok h'.
Proof. intros Ha Hh. destruct Hh as [|? ? <- Hh]; simplify_eq/=; split; try done; constructor. Qed.

(** Runs the allocation at the head of the goal. *)
Ltac step_alloc b :=
  let h' := fresh "h" in let Ha := fresh "Ha" in
  match goal with |- context [alloc ?h] => destruct (alloc h) as [b h'] eqn:Ha end;
  simpl.

(** Closes [¬ heap_ok h] after a failed allocation. *)
Ltac solve_oom :=
  let Hh := fresh "Hh" in intros Hh;
  repeat match goal with H : alloc ?h = _, K : heap_ok ?h |- _ =>
    apply (alloc_heap_ok _ _ _ H) in K as [? ?]; clear H end;
  intuition congruence.

(** ** Running state-passing code *)

Lemma bind_ret {S A B} (m : STE S A) (f : A → STE S B) s a s' :
  m s = (Ret a, s') → (m ≫= f) s = f a s'.
Proof. intros Hm. unfold mbind, STE_bind. by rewrite Hm. Qed.

Lemma bind_fail {S A B} (m : STE S A) (f : A → STE S B) s e s' :
  m s = (Fail e, s') → (m ≫= f) s = (Fail e, s').
Proof. intros Hm. unfold mbind, STE_bind. by rewrite Hm. Qed.

Lemma bind_stuck {S A B} (m : STE S A) (f : A → STE S B) s s' :
  m s = (Stuck, s') → (m ≫= f) s = (Stuck, s').
Proof. intros Hm. unfold mbind, STE_bind. by rewrite Hm. Qed.

(** ** Invariants of state-passing code *)

(** [m] keeps [P] on every path, never gets stuck, and a normal result
    satisfies [Q]. *)
Definition keeps {S A} (P : S → Prop) (m : STE S A) (Q : A → Prop) : Prop := ∀ s, P s →
  P (m s).2 ∧ match (m s).1 with Ret a => Q a | Fail _ => True | Stuck => False end.

Section Keeps.
Context {S : Type} (P : S → Prop).

Lemma keeps_ret {A} (a : A) (Q : A → Prop) : Q a → keeps P (mret a) Q.
Proof. by intros Ha s Hs. Qed.

Lemma keeps_fail {A} e (Q : A → Prop) : keeps P (fail e) Q.
Proof. by intros s Hs. Qed.

Lemma keeps_lift {A} (o : outcome A) (Q : A → Prop) :
  match o with Ret a => Q a | Fail _ => True | Stuck => False end → keeps P (lift o) Q.
Proof. by intros Ho s Hs. Qed.

Lemma keeps_bind {A B} (m : STE S A) (f : A → STE S B) (Q : A → Prop) (R : B → Prop) :
  keeps P m Q → (∀ a, Q a → keeps P (f a) R) → keeps P (m ≫= f) R.
Proof.
  intros Hm Hf s Hs. destruct (Hm s Hs) as [Hs' Ho]. unfold mbind, STE_bind.
  destruct (m s) as [[a|e|] s']; cbn in *; [|done|done]. by apply Hf.
Qed.

Lemma keeps_weaken {A} (m : STE S A) (Q R : A → Prop) :
  keeps P m Q → (∀ a, Q a → R a) → keeps P m R.
Proof.
  intros Hm HQ s Hs. destruct (Hm s Hs) as [Hs' Ho]. split; [done|].
  destruct (m s).1; auto.
Qed.
End Keeps.
#[export] Hint Resolve keeps_ret keeps_fail : mpc.
