(* ===== verification/Fips180.v ===== *)
(** * Fips180: SHA-256 as the standard defines it

    A reference definition of SHA-256 written from FIPS 180-4 and sharing no
    definition with the model of crypto.c: the logical functions are given bit
    by bit, the round constants and the initial hash value are computed from
    the roots of the first primes, the message schedule and the eight working
    variables follow sections 5 and 6 of the standard. The file [Crypto] proves
    that internal/crypto/crypto.c computes this function. *)

From stdpp Require Import base numbers option list.
From S2P Require Import Prelude.
Local Open Scope Z_scope.

Module FIPS.

(** ** Words (section 2.2) *)

(** The number whose [n] low bits are [f 0], [f 1], ... *)
Fixpoint of_bits (n : nat) (f : nat → bool) : Z :=
  match n with
  | O => 0
  | S n' => Z.b2z (f O) + 2 * of_bits n' (fun i => f (S i))
  end.

Definition bit (x : Z) (i : nat) : bool := Z.testbit x (Z.of_nat i).

Definition word (f : nat → bool) : Z := of_bits 32 f.

Definition add (x y : Z) : Z := (x + y) mod 2 ^ 32.

Definition xor3 (x y z : Z) : Z := word (fun i => xorb (bit x i) (xorb (bit y i) (bit z i))).

(** ** Functions (sections 3.2 and 4.1.2) *)

(** Circular right shift: bit [i] of the result is bit [i + n] modulo 32. *)
Definition ROTR (n : nat) (x : Z) : Z := word (fun i => bit x ((i + n) mod 32)).

(** Right shift: zeros come in from the left. *)
Definition SHR (n : nat) (x : Z) : Z := word (fun i => (i + n <? 32)%nat && bit x (i + n)).

(** [x] chooses between [y] and [z]. *)
Definition Ch (x y z : Z) : Z := word (fun i => if bit x i then bit y i else bit z i).

(** The value at least two of the three have. *)
Definition Maj (x y z : Z) : Z :=
  word (fun i => (2 <=? Nat.b2n (bit x i) + Nat.b2n (bit y i) + Nat.b2n (bit z i))%nat).

Definition Sigma0 (x : Z) : Z := xor3 (ROTR 2 x) (ROTR 13 x) (ROTR 22 x).
Definition Sigma1 (x : Z) : Z := xor3 (ROTR 6 x) (ROTR 11 x) (ROTR 25 x).
Definition sigma0 (x : Z) : Z := xor3 (ROTR 7 x) (ROTR 18 x) (SHR 3 x).
Definition sigma1 (x : Z) : Z := xor3 (ROTR 17 x) (ROTR 19 x) (SHR 10 x).

(** ** Constants (sections 4.2.2 and 5.3.3) *)

Definition is_prime (n : nat) : bool :=
  (2 <=? n)%nat && forallb (fun d => negb (n mod d =? 0)%nat) (seq 2 (n - 2)).

(** The first [count] primes; the 64th is 311. *)
Definition primes (count : nat) : list nat := take count (List.filter is_prime (seq 0 312)).

(** The largest [r < 2 ^ 40] with [r ^ k ≤ n], bit by bit from the top. *)
Definition root (k n : Z) : Z :=
  foldl (fun r i => let r' := r + 2 ^ Z.of_nat i in if r' ^ k <=? n then r' else r) 0
    (reverse (seq 0 40)).

(** The first 32 bits of the fractional part of the [k]-th root of [p]. *)
Definition fractional_bits (k : Z) (p : nat) : Z := root k (Z.of_nat p * 2 ^ (32 * k)) mod 2 ^ 32.

Definition K : list Z := fractional_bits 3 <$> primes 64.

(** ** The hash computation (sections 5.1, 5.2 and 6.2) *)

Record hash_value := Hash { ha : Z; hb : Z; hc : Z; hd : Z; he : Z; hf : Z; hg : Z; hh : Z }.

Definition hash_of (l : list Z) : hash_value :=
  match l with
  | [a; b; c; d; e; f; g; h] => Hash a b c d e f g h
  | _ => Hash 0 0 0 0 0 0 0 0
  end.

Definition H0 : hash_value := hash_of (fractional_bits 2 <$> primes 8).

Definition T1 (v : hash_value) (k w : Z) : Z :=
  add (add (add (add (hh v) (Sigma1 (he v))) (Ch (he v) (hf v) (hg v))) k) w.

Definition T2 (v : hash_value) : Z := add (Sigma0 (ha v)) (Maj (ha v) (hb v) (hc v)).

Definition round (v : hash_value) (kw : Z * Z) : hash_value :=
  let t1 := T1 v kw.1 kw.2 in
  Hash (add t1 (T2 v)) (ha v) (hb v) (hc v) (add (hd v) t1) (he v) (hf v) (hg v).

(** The schedule with the newest word first: [W t] from the 16 words before it. *)
Definition next_word (ws : list Z) : list Z :=
  match ws with
  | _ :: w2 :: _ :: _ :: _ :: _ :: w7 :: _ :: _ :: _ :: _ :: _ :: _ :: _ :: w15 :: w16 :: _ =>
    add (add (add (sigma1 w2) w7) (sigma0 w15)) w16 :: ws
  | _ => ws
  end.

Definition W (block : list Z) : list Z := reverse (Nat.iter 48 next_word (reverse block)).

Definition compress (v : hash_value) (block : list Z) : hash_value :=
  let r := foldl round v (zip K (W block)) in
  Hash (add (ha v) (ha r)) (add (hb v) (hb r)) (add (hc v) (hc r)) (add (hd v) (hd r))
       (add (he v) (he r)) (add (hf v) (hf r)) (add (hg v) (hg r)) (add (hh v) (hh r)).

(** The big-endian words of a byte string. *)
Fixpoint words (l : bytes) : list Z :=
  match l with
  | a :: b :: c :: d :: rest => a * 2 ^ 24 + b * 2 ^ 16 + c * 2 ^ 8 + d :: words rest
  | _ => []
  end.

Definition byte_of (v : Z) (i : Z) : Z := v / 256 ^ i mod 256.

(** A one bit, then zeros up to 56 bytes modulo 64, then the length in bits
    as a 64-bit number. *)
Definition pad (m : bytes) : bytes :=
  m ++ 128 :: replicate (Z.to_nat ((55 - zlen m) mod 64)) 0
    ++ (byte_of (8 * zlen m) <$> [7; 6; 5; 4; 3; 2; 1; 0]).

(** The sixteen-word block number [i] of the padded message. *)
Definition block (padded : bytes) (i : nat) : list Z := words (take 64 (drop (64 * i) padded)).

Definition digest_words (v : hash_value) : list Z := [ha v; hb v; hc v; hd v; he v; hf v; hg v; hh v].

Definition sha256 (m : bytes) : bytes :=
  let padded := pad m in
  let H := foldl compress H0 (block padded <$> seq 0 (length padded / 64)) in
  mjoin ((fun w => byte_of w <$> [3; 2; 1; 0]) <$> digest_words H).

(** The digest of "abc" the standard prints in its examples. *)
Example sha256_example :
  sha256 [97; 98; 99] = byte_of 0xba7816bf8f01cfea414140de5dae2223b00361a396177a9cb410ff61f20015ad
                          <$> (Z.of_nat <$> reverse (seq 0 32)).
Proof. vm_compute. reflexivity. Qed.

End FIPS.

(** ** Bits of a word *)

Lemma testbit_of_bits n f i :
  Z.testbit (FIPS.of_bits n f) (Z.of_nat i) = (i <? n)%nat && f i.
Proof.
  revert f i. induction n as [|n IH]; intros f i.
  { simpl. by rewrite Z.bits_0. }
  cbn [FIPS.of_bits]. destruct i as [|i].
  - apply Z.add_b2z_double_bit0.
  - rewrite Nat2Z.inj_succ, <-Z.div2_bits, Z.add_b2z_double_div2 by lia. by rewrite IH.
Qed.

Definition is_word (x : Z) : Prop := 0 ≤ x < 2 ^ 32.

(** A word is determined by its 32 bits. *)
Lemma word_eq x f :
  is_word x → (∀ i, (i < 32)%nat → Z.testbit x (Z.of_nat i) = f i) → x = FIPS.word f.
Proof.
  intros Hx Hf. apply Z.bits_inj'. intros n Hn. rewrite <-(Z2Nat.id n) by done.
  unfold FIPS.word. rewrite testbit_of_bits.
  destruct (Nat.ltb_spec (Z.to_nat n) 32); simpl; [by apply Hf|].
  rewrite <-(Z.mod_small x (2 ^ 32)) by done. apply Z.mod_pow2_bits_high. lia.
Qed.

Lemma of_bits_range n f : 0 ≤ FIPS.of_bits n f < 2 ^ Z.of_nat n.
Proof.
  revert f. induction n as [|n IH]; intros f; [done|]. cbn [FIPS.of_bits].
  rewrite Nat2Z.inj_succ, Z.pow_succ_r by lia. specialize (IH (fun i => f (S i))).
  destruct (f O); cbn [Z.b2z]; lia.
Qed.

Lemma word_range f : is_word (FIPS.word f).
Proof. apply (of_bits_range 32). Qed.
#[export] Hint Resolve word_range : mpc.
