(* ===== verification/Crypto.v ===== *)
(** * Crypto: internal/crypto/crypto.c

    SHA-256 with its streaming context, HMAC-SHA-256, the constant-time
    comparison, the /dev/urandom reader, hex and base64 codecs and the
    keystream cipher. The C code writes through out-parameters; a function
    here returns what is written. A buffer read past its end is total
    lookup ([!!!]), and every theorem assumes or proves the lengths under
    which no such read happens. SHA-256 is compared with the definition of the
    standard in the file [Fips180]. *)

From stdpp Require Import base numbers strings option gmap list.
From S2P Require Import Prelude Fips180.
Local Open Scope Z_scope.
Local Open Scope mpc_scope.

(** ** SHA-256 *)

Definition MP_CACHE_SHA256_SIZE : nat := 32.
Definition MP_CACHE_SHA256_BLOCK_SIZE : nat := 64.
Definition MP_CACHE_NONCE_SIZE : nat := 16.

Record mp_cache_sha256_context_t := Sha256Context {
  ctx_state : list Z;
  ctx_bit_count : Z;
  ctx_block : bytes;
  ctx_block_length : nat;
}.

Definition mp_cache_sha256_constants : list Z := Eval cbv in
  [0x428a2f98; 0x71374491; 0xb5c0fbcf; 0xe9b5dba5; 0x3956c25b; 0x59f111f1; 0x923f82a4; 0xab1c5ed5] ++
  [0xd807aa98; 0x12835b01; 0x243185be; 0x550c7dc3; 0x72be5d74; 0x80deb1fe; 0x9bdc06a7; 0xc19bf174] ++
  [0xe49b69c1; 0xefbe4786; 0x0fc19dc6; 0x240ca1cc; 0x2de92c6f; 0x4a7484aa; 0x5cb0a9dc; 0x76f988da] ++
  [0x983e5152; 0xa831c66d; 0xb00327c8; 0xbf597fc7; 0xc6e00bf3; 0xd5a79147; 0x06ca6351; 0x14292967] ++
  [0x27b70a85; 0x2e1b2138; 0x4d2c6dfc; 0x53380d13; 0x650a7354; 0x766a0abb; 0x81c2c92e; 0x92722c85] ++
  [0xa2bfe8a1; 0xa81a664b; 0xc24b8b70; 0xc76c51a3; 0xd192e819; 0xd6990624; 0xf40e3585; 0x106aa070] ++
  [0x19a4c116; 0x1e376c08; 0x2748774c; 0x34b0bcb5; 0x391c0cb3; 0x4ed8aa4a; 0x5b9cca4f; 0x682e6ff3] ++
  [0x748f82ee; 0x78a5636f; 0x84c87814; 0x8cc70208; 0x90befffa; 0xa4506ceb; 0xbef9a3f7; 0xc67178f2].

Definition mp_cache_rotate_right (value count : Z) : Z :=
  u32 (Z.lor (value ≫ count) (value ≪ (32 - count))).

Definition mp_cache_sha256_big_sigma0 (value : Z) : Z :=
  mp_cache_rotate_right value 2 ⊕ mp_cache_rotate_right value 13 ⊕ mp_cache_rotate_right value 22.

Definition mp_cache_sha256_big_sigma1 (value : Z) : Z :=
  mp_cache_rotate_right value 6 ⊕ mp_cache_rotate_right value 11 ⊕ mp_cache_rotate_right value 25.

Definition mp_cache_sha256_small_sigma0 (value : Z) : Z :=
  mp_cache_rotate_right value 7 ⊕ mp_cache_rotate_right value 18 ⊕ (value ≫ 3).

Definition mp_cache_sha256_small_sigma1 (value : Z) : Z :=
  mp_cache_rotate_right value 17 ⊕ mp_cache_rotate_right value 19 ⊕ (value ≫ 10).

(** [schedule\[0..15\]]: the block's big-endian words. *)
Definition sha256_schedule_words (block : bytes) : list Z :=
  (fun i : nat =>
     Z.lor (Z.lor (Z.lor ((block !!! (i * 4)%nat) ≪ 24) ((block !!! (i * 4 + 1)%nat) ≪ 16))
                  ((block !!! (i * 4 + 2)%nat) ≪ 8)) (block !!! (i * 4 + 3)%nat)) <$> seq 0 16.

(** The loop that fills [schedule\[16..63\]]. *)
Definition sha256_schedule (block : bytes) : list Z :=
  foldl (fun (schedule : list Z) (i : nat) =>
    schedule ++ [mp_cache_sha256_small_sigma1 (schedule !!! (i - 2)%nat) ⊞ (schedule !!! (i - 7)%nat)
                 ⊞ mp_cache_sha256_small_sigma0 (schedule !!! (i - 15)%nat) ⊞ (schedule !!! (i - 16)%nat)])
    (sha256_schedule_words block) (seq 16 48).

(** One iteration of the 64-round loop over [working\[0..7\]]. *)
Definition sha256_round (schedule : list Z) (working : list Z) (index : nat) : list Z :=
  let w := fun i : nat => working !!! i in
  let choice := Z.land (w 4%nat) (w 5%nat) ⊕ Z.land (u32 (Z.lnot (w 4%nat))) (w 6%nat) in
  let majority := Z.land (w 0%nat) (w 1%nat) ⊕ Z.land (w 0%nat) (w 2%nat) ⊕ Z.land (w 1%nat) (w 2%nat) in
  let temp1 := w 7%nat ⊞ mp_cache_sha256_big_sigma1 (w 4%nat) ⊞ choice
               ⊞ (mp_cache_sha256_constants !!! index) ⊞ (schedule !!! index) in
  let temp2 := mp_cache_sha256_big_sigma0 (w 0%nat) ⊞ majority in
  [temp1 ⊞ temp2; w 0%nat; w 1%nat; w 2%nat; w 3%nat ⊞ temp1; w 4%nat; w 5%nat; w 6%nat].

(** The new [context->state] of [mp_cache_sha256_transform]. *)
Definition sha256_compress (state : list Z) (block : bytes) : list Z :=
  zip_with (fun a b => a ⊞ b) state (foldl (sha256_round (sha256_schedule block)) state (seq 0 64)).

Definition mp_cache_sha256_transform (context : mp_cache_sha256_context_t) (block : bytes)
    : mp_cache_sha256_context_t :=
  Sha256Context (sha256_compress (ctx_state context) block) (ctx_bit_count context)
    (ctx_block context) (ctx_block_length context).

Definition sha256_initial_state : list Z :=
  [0x6a09e667; 0xbb67ae85; 0x3c6ef372; 0xa54ff53a; 0x510e527f; 0x9b05688c; 0x1f83d9ab; 0x5be0cd19].

Definition mp_cache_sha256_init : mp_cache_sha256_context_t :=
  Sha256Context sha256_initial_state 0 (zeros MP_CACHE_SHA256_BLOCK_SIZE) 0.

(** The [while (index < length)] loop of [mp_cache_sha256_update]; [data] is
    what is left from [data + index] on. Each turn copies at least one byte,
    so [length data] turns are enough. *)
Fixpoint sha256_update_loop (fuel : nat) (context : mp_cache_sha256_context_t) (data : bytes)
    : mp_cache_sha256_context_t :=
  match fuel with
  | O => context
  | S fuel' =>
    if decide (data = []) then context else
    let room := (MP_CACHE_SHA256_BLOCK_SIZE - ctx_block_length context)%nat in
    let to_copy := if decide (length data < room)%nat then length data else room in
    let block := buf_write (ctx_block_length context) (take to_copy data) (ctx_block context) in
    let block_length := (ctx_block_length context + to_copy)%nat in
    let context' := Sha256Context (ctx_state context) (ctx_bit_count context) block block_length in
    if decide (block_length = MP_CACHE_SHA256_BLOCK_SIZE) then
      let t := mp_cache_sha256_transform context' block in
      sha256_update_loop fuel' (Sha256Context (ctx_state t) (ctx_bit_count t) (ctx_block t) 0)
        (drop to_copy data)
    else sha256_update_loop fuel' context' (drop to_copy data)
  end.

Definition mp_cache_sha256_update (context : mp_cache_sha256_context_t) (data : bytes)
    : mp_cache_sha256_context_t :=
  if decide (data = []) then context else
  sha256_update_loop (length data)
    (Sha256Context (ctx_state context) (u64 (ctx_bit_count context + zlen data * 8))
       (ctx_block context) (ctx_block_length context)) data.

(** The four output bytes of one state word. *)
Definition word_bytes (w : Z) : bytes := [u8 (w ≫ 24); u8 (w ≫ 16); u8 (w ≫ 8); u8 w].

Definition mp_cache_sha256_final (context : mp_cache_sha256_context_t) : bytes :=
  let c1 := Sha256Context (ctx_state context) (ctx_bit_count context)
              (buf_write (ctx_block_length context) [0x80] (ctx_block context))
              (ctx_block_length context + 1)%nat in
  let c2 :=
    if decide (56 < ctx_block_length c1)%nat then
      let block := buf_write (ctx_block_length c1)
                     (zeros (MP_CACHE_SHA256_BLOCK_SIZE - ctx_block_length c1)) (ctx_block c1) in
      Sha256Context (sha256_compress (ctx_state c1) block) (ctx_bit_count c1) block 0
    else c1 in
  let block := buf_write (ctx_block_length c2) (zeros (56 - ctx_block_length c2)) (ctx_block c2) in
  let length_block := (fun i : nat => u8 (ctx_bit_count c2 ≫ (Z.of_nat (7 - i) * 8))) <$> seq 0 8 in
  let c3 := mp_cache_sha256_transform c2 (buf_write 56 length_block block) in
  mjoin (word_bytes <$> ctx_state c3).

Definition mp_cache_sha256 (input_bytes : bytes) : bytes :=
  mp_cache_sha256_final (mp_cache_sha256_update mp_cache_sha256_init input_bytes).

(** *** HMAC and constant-time comparison *)

Definition hmac_normalized_key (secret_key : bytes) : bytes :=
  let normalized_key := zeros MP_CACHE_SHA256_BLOCK_SIZE in
  if decide (MP_CACHE_SHA256_BLOCK_SIZE < length secret_key)%nat
  then buf_write 0 (mp_cache_sha256 secret_key) normalized_key
  else buf_write 0 secret_key normalized_key.

Definition mp_cache_hmac_sha256 (secret_key message_bytes : bytes) : bytes :=
  let normalized_key := hmac_normalized_key secret_key in
  let inner_block := (fun k => k ⊕ 0x36) <$> normalized_key in
  let outer_block := (fun k => k ⊕ 0x5c) <$> normalized_key in
  let inner_digest :=
    mp_cache_sha256_final
      (mp_cache_sha256_update (mp_cache_sha256_update mp_cache_sha256_init inner_block) message_bytes) in
  mp_cache_sha256_final
    (mp_cache_sha256_update (mp_cache_sha256_update mp_cache_sha256_init outer_block) inner_digest).

Definition mp_cache_constant_time_equals (left_bytes right_bytes : bytes) (byte_length : nat) : bool :=
  let diff := foldl (fun diff (i : nat) => Z.lor diff (u8 ((left_bytes !!! i) ⊕ (right_bytes !!! i))))
                0 (seq 0 byte_length) in
  bool_decide (diff = 0).

(** *** Random bytes *)

(** What one [read (2)] on /dev/urandom does: [-1] with [errno] being EINTR
    or another error, or a positive number of bytes. *)
Inductive read_result := ReadError (is_eintr : bool) | ReadBytes (l : bytes).

(** The device as the process sees it: whether each [open] succeeds, and the
    results of the successive reads; a used-up list of reads returns 0. *)
Record entropy := Entropy { ent_opens : list bool; ent_reads : list read_result }.

Fixpoint random_read_loop (remaining : nat) (acc : bytes) (reads : list read_result)
    : outcome bytes * list read_result :=
  match remaining with
  | O => (Ret acc, reads)
  | _ =>
    match reads with
    | [] => (Fail EIO, [])
    | ReadError true :: reads' => random_read_loop remaining acc reads'
    | ReadError false :: reads' => (Fail EOTHER, reads')
    | ReadBytes l :: reads' =>
      let got := take remaining l in
      if decide (got = []) then (Fail EIO, reads')
      else random_read_loop (remaining - length got) (acc ++ got) reads'
    end
  end.

Definition mp_cache_random_bytes (byte_length : nat) : ST entropy (outcome bytes) := fun e =>
  match ent_opens e with
  | false :: opens => (Fail EOTHER, Entropy opens (ent_reads e))
  | opens =>
    let '(r, reads) := random_read_loop byte_length [] (ent_reads e) in
    (r, Entropy (tail opens) reads)
  end.

(** ** Hex *)

Definition mp_cache_hex_nibble (character : Z) : Z :=
  if decide (48 ≤ character ≤ 57) then character - 48
  else if decide (97 ≤ character ≤ 102) then character - 97 + 10
  else if decide (65 ≤ character ≤ 70) then character - 65 + 10
  else -1.

Definition hex_chars : bytes := Eval vm_compute in cstr "0123456789abcdef".

Definition mp_cache_hex_encode (input_bytes : bytes) (out_capacity : Z) : outcome bytes :=
  if decide (out_capacity < u64 (zlen input_bytes * 2 + 1)) then Fail ENOSPC
  else Ret (mjoin ((fun b => [hex_chars !!! Z.to_nat (b ≫ 4); hex_chars !!! Z.to_nat (Z.land b 0x0f)])
                   <$> input_bytes)).

Fixpoint hex_decode_loop (hex_text : bytes) : outcome bytes :=
  match hex_text with
  | h :: l :: rest =>
    let high := mp_cache_hex_nibble h in
    let low := mp_cache_hex_nibble l in
    if decide (high < 0 ∨ low < 0) then Fail EINVAL
    else tl ← hex_decode_loop rest; Ret (u8 (Z.lor (high ≪ 4) low) :: tl)
  | _ => Ret []
  end.

Definition mp_cache_hex_decode (hex_text : bytes) (out_capacity : Z) : outcome bytes :=
  if decide (zlen hex_text `mod` 2 ≠ 0 ∨ out_capacity < zlen hex_text `div` 2) then Fail EINVAL
  else hex_decode_loop hex_text.

(** ** Base64 *)

Definition base64_alphabet : bytes :=
  Eval vm_compute in cstr "ABCDEFGHIJKLMNOPQRSTUVWXYZabcdefghijklmnopqrstuvwxyz0123456789+/".

(** One turn of the encoding loop: a group of one to three input bytes. *)
Definition base64_encode_group (group : bytes) : bytes :=
  let chunk := foldl (fun chunk b => u32 (Z.lor (chunk ≪ 8) b)) 0 group in
  let chunk := Nat.iter (3 - length group) (fun chunk => u32 (chunk ≪ 8)) chunk in
  let digit := fun n : Z => base64_alphabet !!! Z.to_nat (Z.land n 0x3f) in
  [digit (chunk ≫ 18); digit (chunk ≫ 12);
   if decide (1 < length group)%nat then digit (chunk ≫ 6) else 61;
   if decide (2 < length group)%nat then digit chunk else 61].

Fixpoint base64_encode_loop (input_bytes : bytes) : bytes :=
  match input_bytes with
  | [] => []
  | a :: b :: c :: rest => base64_encode_group [a; b; c] ++ base64_encode_loop rest
  | group => base64_encode_group group
  end.

Definition mp_cache_base64_encode (input_bytes : bytes) (out_capacity : Z) : outcome bytes :=
  let required := u64 (u64 (zlen input_bytes + 2) `div` 3 * 4) in
  if decide (out_capacity < u64 (required + 1)) then Fail ENOSPC
  else Ret (base64_encode_loop input_bytes).

Definition mp_cache_base64_value (character : Z) : Z :=
  if decide (65 ≤ character ≤ 90) then character - 65
  else if decide (97 ≤ character ≤ 122) then character - 97 + 26
  else if decide (48 ≤ character ≤ 57) then character - 48 + 52
  else if decide (character = 43) then 62
  else if decide (character = 47) then 63
  else -1.

(** [values\[index\]]: 0 for the padding character. *)
Definition base64_digit (character : Z) : Z :=
  if decide (character = 61) then 0 else mp_cache_base64_value character.

(** [out_bytes\[out_index++\] = b] in a buffer of [cap] bytes. *)
Definition put_byte (cap : Z) (b : Z) (out : bytes) : outcome bytes :=
  if decide (zlen out < cap) then Ret (out ++ [b]) else Stuck.

(** One turn of the decoding loop; [out] holds the [out_index] bytes written
    so far. [decoded_count] is a [size_t] that starts at 3 and is decremented
    once per padding character, so four of them wrap it around. *)
Definition base64_decode_group (c0 c1 c2 c3 : Z) (cap : Z) (out : bytes) : outcome bytes :=
  let v0 := base64_digit c0 in
  let v1 := base64_digit c1 in
  let v2 := base64_digit c2 in
  let v3 := base64_digit c3 in
  if decide (v0 < 0 ∨ v1 < 0 ∨ v2 < 0 ∨ v3 < 0) then Fail EINVAL else
  let decoded_count := u64 (3 - zlen (filter (eq 61) [c0; c1; c2; c3])) in
  let chunk := Z.lor (Z.lor (Z.lor (v0 ≪ 18) (v1 ≪ 12)) (v2 ≪ 6)) v3 in
  if decide (cap < u64 (zlen out + decoded_count)) then Fail ENOSPC else
  out ← put_byte cap (u8 (chunk ≫ 16)) out;
  out ← (if decide (c2 = 61) then Ret out else put_byte cap (u8 (chunk ≫ 8)) out);
  if decide (c3 = 61) then Ret out else put_byte cap (u8 chunk) out.

Fixpoint base64_decode_loop (base64_text : bytes) (cap : Z) (out : bytes) : outcome bytes :=
  match base64_text with
  | c0 :: c1 :: c2 :: c3 :: rest =>
    out ← base64_decode_group c0 c1 c2 c3 cap out; base64_decode_loop rest cap out
  | _ => Ret out
  end.

Definition mp_cache_base64_decode (base64_text : bytes) (out_capacity : Z) : outcome bytes :=
  if decide (zlen base64_text `mod` 4 ≠ 0) then Fail EINVAL
  else base64_decode_loop base64_text out_capacity [].

(** ** The keystream cipher *)

(** [counter_block]: the nonce, then the counter in big-endian order. *)
Definition stream_counter_block (nonce : bytes) (counter : Z) : bytes :=
  take MP_CACHE_NONCE_SIZE nonce
  ++ ((fun i : nat => u8 (counter ≫ (Z.of_nat (7 - i) * 8))) <$> seq 0 8).

(** The [while (offset < byte_length)] loop, one 32-byte chunk per turn;
    [length data] turns are enough. *)
Fixpoint stream_xor_loop (fuel : nat) (stream_key nonce : bytes) (counter : Z) (data : bytes) : bytes :=
  match fuel with
  | O => data
  | S fuel' =>
    if decide (data = []) then [] else
    let keystream := mp_cache_hmac_sha256 stream_key (stream_counter_block nonce counter) in
    zip_with Z.lxor (take MP_CACHE_SHA256_SIZE data) keystream
    ++ stream_xor_loop fuel' stream_key nonce (u64 (counter + 1)) (drop MP_CACHE_SHA256_SIZE data)
  end.

Definition mp_cache_stream_xor (stream_key nonce inout_bytes : bytes) : bytes :=
  stream_xor_loop (length inout_bytes) stream_key nonce 0 inout_bytes.

(** ** Reference definitions *)

(** The one-shot form of the streaming code: pad the whole message, then
    compress its blocks in turn with the code's own compression function. The
    streaming operations are first reduced to it ([sha256_correct]), and it is
    then shown to be the function of the standard ([oneshot_fips], against
    the independent definition of the file [Fips180]). *)
Definition sha256_pad (m : bytes) : bytes :=
  m ++ [0x80] ++ zeros ((119 - length m `mod` 64) `mod` 64) ++ be_bytes 8 (8 * zlen m).

Fixpoint sha256_parse (n : nat) (l : bytes) : list bytes :=
  match n with
  | O => []
  | S n' => take 64 l :: sha256_parse n' (drop 64 l)
  end.

Definition sha256_oneshot (m : bytes) : bytes :=
  let padded := sha256_pad m in
  mjoin (word_bytes <$>
    foldl sha256_compress sha256_initial_state (sha256_parse (length padded `div` 64) padded)).

(** RFC 2104 over SHA-256. *)
Definition hmac_spec (key m : bytes) : bytes :=
  let k := if decide (64 < length key)%nat then sha256_oneshot key else key in
  let k0 := k ++ zeros (64 - length k) in
  sha256_oneshot ((Z.lxor 0x5c <$> k0) ++ sha256_oneshot ((Z.lxor 0x36 <$> k0) ++ m)).

(** Published test vectors (FIPS 180-4 and RFC 4231). *)
Example sha256_abc :
  mp_cache_sha256 (cstr "abc") =
  be_bytes 32 0xba7816bf8f01cfea414140de5dae2223b00361a396177a9cb410ff61f20015ad.
Proof. vm_compute. reflexivity. Qed.

Example sha256_two_blocks :
  mp_cache_sha256 (cstr "abcdbcdecdefdefgefghfghighijhijkijkljklmklmnlmnomnopnopq") =
  be_bytes 32 0x248d6a61d20638b8e5c026930c3e6039a33ce45964ff2167f6ecedd419db06c1.
Proof. vm_compute. reflexivity. Qed.

Example hmac_rfc4231_case2 :
  mp_cache_hmac_sha256 (cstr "Jefe") (cstr "what do ya want for nothing?") =
  be_bytes 32 0x5bdcc146bf60754e6a042426089575c75a003f089d2739839dec58b964ec3843.
Proof. vm_compute. reflexivity. Qed.

Example base64_hello :
  mp_cache_base64_encode (cstr "hello") 9 = Ret (cstr "aGVsbG8=") ∧
  mp_cache_base64_decode (cstr "aGVsbG8=") 9 = Ret (cstr "hello").
Proof. split; vm_compute; reflexivity. Qed.

(** Projections of an explicit context. *)
Ltac ctx_simpl := cbn [mp_cache_sha256_transform ctx_state ctx_bit_count ctx_block ctx_block_length] in *.

#[global] Arguments sha256_compress : simpl never.
#[global] Arguments mp_cache_sha256 : simpl never.
#[global] Arguments mp_cache_hmac_sha256 : simpl never.
#[global] Arguments zeros : simpl never.
#[global] Arguments be_bytes : simpl never.
#[global] Arguments u64 : simpl never.
#[global] Arguments u32 : simpl never.
#[global] Arguments u8 : simpl never.

(** ** SHA-256: the streaming code computes the specification *)

(** [absorbed c m]: the context [c] has been fed exactly the message [m]. *)
Definition absorbed (c : mp_cache_sha256_context_t) (m : bytes) : Prop :=
  ∃ bs : list bytes,
    Forall (fun b => length b = 64%nat) bs ∧
    m = mjoin bs ++ take (ctx_block_length c) (ctx_block c) ∧
    ctx_state c = foldl sha256_compress sha256_initial_state bs ∧
    (ctx_block_length c < 64)%nat ∧ length (ctx_block c) = 64%nat ∧
    ctx_bit_count c = u64 (8 * zlen m).

Lemma absorbed_init : absorbed mp_cache_sha256_init [].
Proof. exists []. split_and!; try done; simpl; lia. Qed.

(** The loop keeps the relation up to the bit count, which the caller has
    already advanced by the whole input. *)
Lemma sha256_update_loop_absorbed fuel c m data :
  (length data ≤ fuel)%nat →
  absorbed (Sha256Context (ctx_state c) (u64 (8 * zlen m)) (ctx_block c) (ctx_block_length c)) m →
  ctx_bit_count c = u64 (8 * zlen (m ++ data)) →
  absorbed (sha256_update_loop fuel c data) (m ++ data).
Proof.
  revert c m data. induction fuel as [|fuel IH]; intros c m data Hfuel Habs Hbits.
  - assert (data = []) as -> by (destruct data; simpl in *; [done|lia]).
    rewrite app_nil_r in *. destruct c; ctx_simpl. subst. exact Habs.
  - cbn [sha256_update_loop]. case_decide as Hd.
    { subst data. rewrite app_nil_r in *. destruct c; ctx_simpl. subst. exact Habs. }
    destruct Habs as (bs & Hbs & Hm & Hst & Hlt & Hlen & _). ctx_simpl.
    set (room := (MP_CACHE_SHA256_BLOCK_SIZE - ctx_block_length c)%nat).
    set (n := if decide (length data < room)%nat then length data else room).
    assert (0 < length data)%nat by (destruct data; simpl; [done|lia]).
    assert (n ≤ length data ∧ 0 < n ∧ ctx_block_length c + n ≤ 64)%nat as (Hn1 & Hn2 & Hn3).
    { subst n room. unfold MP_CACHE_SHA256_BLOCK_SIZE. case_decide; lia. }
    assert (length (take n data) = n) as Hln by (rewrite length_take; lia).
    pose proof (take_buf_write (ctx_block_length c) (take n data) (ctx_block c)) as Htw.
    rewrite Hln in Htw. specialize (Htw ltac:(lia)).
    assert (m ++ data = (m ++ take n data) ++ drop n data) as ->.
    { by rewrite <-app_assoc, take_drop. }
    case_decide as Hfull.
    + apply IH; ctx_simpl; [rewrite length_drop; lia| |].
      * exists (bs ++ [buf_write (ctx_block_length c) (take n data) (ctx_block c)]).
        unfold MP_CACHE_SHA256_BLOCK_SIZE in Hfull.
        rewrite Hfull, take_ge in Htw by (rewrite length_buf_write; lia).
        split_and!; ctx_simpl.
        -- apply Forall_app; split; [done|]. constructor; [|done].
           rewrite length_buf_write; lia.
        -- rewrite Hm, Htw. rewrite join_app. simpl. by rewrite !app_nil_r, <-!app_assoc.
        -- rewrite foldl_snoc. by rewrite <-Hst.
        -- lia.
        -- rewrite length_buf_write; lia.
        -- done.
      * rewrite Hbits. by rewrite <-app_assoc, take_drop.
    + unfold MP_CACHE_SHA256_BLOCK_SIZE in Hfull.
      apply IH; ctx_simpl; [rewrite length_drop; lia| |].
      * exists bs. split_and!; ctx_simpl; try done.
        -- by rewrite Hm, Htw, <-app_assoc.
        -- lia.
        -- rewrite length_buf_write; lia.
      * rewrite Hbits. by rewrite <-app_assoc, take_drop.
Qed.

Lemma sha256_update_absorbed c m data :
  absorbed c m → absorbed (mp_cache_sha256_update c data) (m ++ data).
Proof.
  intros Habs. unfold mp_cache_sha256_update. case_decide as Hd.
  { subst. by rewrite app_nil_r. }
  pose proof Habs as (bs & _ & _ & _ & _ & _ & Hbits).
  apply sha256_update_loop_absorbed; ctx_simpl; [lia| |].
  - rewrite <-Hbits. by destruct c.
  - rewrite Hbits, u64_add_idemp, zlen_app. f_equal. lia.
Qed.

Lemma sha256_parse_blocks bs k :
  Forall (fun b => length b = 64%nat) bs → sha256_parse (length bs) (mjoin bs ++ k) = bs.
Proof.
  induction 1 as [|b bs Hb _ IH]; simpl; [done|].
  rewrite <-app_assoc, take_app_length', drop_app_length' by done. by rewrite IH.
Qed.

Lemma length_mjoin_blocks bs :
  Forall (fun b : bytes => length b = 64%nat) bs → length (mjoin bs) = (64 * length bs)%nat.
Proof. induction 1; simpl; [done|]. rewrite length_app. lia. Qed.

Lemma sha256_parse_all bs :
  Forall (fun b => length b = 64%nat) bs →
  sha256_parse (length (mjoin bs) `div` 64) (mjoin bs) = bs.
Proof.
  intros Hbs. rewrite length_mjoin_blocks by done.
  rewrite Nat.mul_comm, Nat.div_mul by lia.
  pose proof (sha256_parse_blocks bs [] Hbs) as H. by rewrite app_nil_r in H.
Qed.

Lemma length_bits_bytes v :
  length ((fun i : nat => u8 (v ≫ (Z.of_nat (7 - i) * 8))) <$> seq 0 8) = 8%nat.
Proof. done. Qed.

Lemma bits_bytes_be v :
  (fun i : nat => u8 (v ≫ (Z.of_nat (7 - i) * 8))) <$> seq 0 8 = be_bytes 8 v.
Proof. done. Qed.

Lemma u8_u64_shiftr v k : 0 ≤ k ≤ 56 → u8 (u64 v ≫ k) = u8 (v ≫ k).
Proof.
  intros Hk. unfold u8, u64. apply Z.bits_inj'. intros i Hi.
  destruct (decide (i < 8)).
  - rewrite !Z.mod_pow2_bits_low by lia. rewrite !Z.shiftr_spec by lia.
    by rewrite Z.mod_pow2_bits_low by lia.
  - by rewrite !Z.mod_pow2_bits_high by lia.
Qed.

Lemma be_bytes_u64 v : be_bytes 8 (u64 v) = be_bytes 8 v.
Proof.
  cbv [be_bytes]. by rewrite !u8_u64_shiftr by lia.
Qed.

(** The bytes of the final one or two blocks, as [final] lays them out. *)
Lemma final_block_bytes n blk tailb :
  (n ≤ 55)%nat → length blk = 64%nat → length tailb = 8%nat →
  buf_write 56 tailb (buf_write (n + 1) (zeros (56 - (n + 1))) (buf_write n [0x80] blk)) =
  take n blk ++ [0x80] ++ zeros (55 - n) ++ tailb.
Proof.
  intros Hn Hb Ht.
  assert (length (buf_write n [0x80] blk) = 64%nat) as H1 by (rewrite length_buf_write; simpl; lia).
  pose proof (take_buf_write n [0x80] blk ltac:(simpl; lia)) as T1. simpl length in T1.
  pose proof (take_buf_write (n + 1) (zeros (56 - (n + 1))) (buf_write n [0x80] blk)) as T2.
  rewrite length_zeros in T2. specialize (T2 ltac:(lia)).
  replace (n + 1 + (56 - (n + 1)))%nat with 56%nat in T2 by lia.
  unfold buf_write at 1. rewrite T2, T1.
  rewrite drop_ge by (rewrite length_buf_write; rewrite ?length_zeros; lia).
  rewrite app_nil_r, <-!app_assoc. replace (56 - (n + 1))%nat with (55 - n)%nat by lia. done.
Qed.

Lemma zeros_block_bytes tailb : length tailb = 8%nat → ∀ blk, length blk = 64%nat →
  buf_write 56 tailb (buf_write 0 (zeros 56) blk) = zeros 56 ++ tailb.
Proof.
  intros Ht blk Hb. unfold buf_write at 1.
  pose proof (take_buf_write 0 (zeros 56) blk) as T. rewrite length_zeros in T.
  change (0 + 56)%nat with 56%nat in T. rewrite T by lia. rewrite take_0, app_nil_l. rewrite drop_ge; [by rewrite app_nil_r|].
  rewrite length_buf_write; rewrite ?length_zeros; lia.
Qed.

Lemma long_block_bytes n blk :
  (55 < n < 64)%nat → length blk = 64%nat →
  buf_write (n + 1) (zeros (64 - (n + 1))) (buf_write n [0x80] blk) =
  take n blk ++ [0x80] ++ zeros (63 - n).
Proof.
  intros Hn Hb. unfold buf_write at 1.
  pose proof (take_buf_write n [0x80] blk ltac:(simpl; lia)) as T1. simpl length in T1.
  rewrite T1, drop_ge by (rewrite length_zeros, length_buf_write; simpl; lia).
  rewrite app_nil_r, <-!app_assoc. replace (64 - (n + 1))%nat with (63 - n)%nat by lia. done.
Qed.

Lemma sha256_final_absorbed c m : absorbed c m → mp_cache_sha256_final c = sha256_oneshot m.
Proof.
  intros (bs & Hbs & Hm & Hst & Hlt & Hlen & Hbits).
  set (n := ctx_block_length c) in *. set (tailb := be_bytes 8 (8 * zlen m)).
  assert (length tailb = 8%nat) as Htl by apply length_be_bytes.
  assert (length m `mod` 64 = n)%nat as Hmod.
  { rewrite Hm, length_app, length_mjoin_blocks, length_take by done.
    rewrite Nat.add_comm, Nat.mul_comm, Nat.Div0.mod_add, Nat.mod_small; lia. }
  unfold mp_cache_sha256_final, sha256_oneshot. fold n. ctx_simpl.
  rewrite Hbits. f_equal. f_equal.
  case_decide as H56; ctx_simpl.
  - assert (sha256_pad m = mjoin (bs ++ [take n (ctx_block c) ++ [0x80] ++ zeros (63 - n);
                                         zeros 56 ++ tailb])) as ->.
    { unfold sha256_pad. rewrite Hmod, join_app. fold tailb. rewrite Hm at 1.
      replace ((119 - n) `mod` 64)%nat with ((63 - n) + 56)%nat.
      2:{ replace (119 - n)%nat with ((63 - n) + 56)%nat by lia.
          rewrite Nat.mod_small; lia. }
      by rewrite zeros_add, mjoin_two, <-!app_assoc. }
    rewrite sha256_parse_all.
    2:{ apply Forall_app; split; [done|]. constructor; [|constructor; [|done]].
        - rewrite !length_app, length_take, length_zeros. simpl. lia.
        - rewrite length_app, length_zeros. lia. }
    rewrite foldl_app. cbn [foldl]. rewrite <-Hst, bits_bytes_be, be_bytes_u64. fold tailb.
    change (56 - 0)%nat with 56%nat. rewrite zeros_block_bytes; [|done|].
    + unfold MP_CACHE_SHA256_BLOCK_SIZE. by rewrite long_block_bytes by lia.
    + rewrite !length_buf_write; rewrite ?length_zeros; simpl; unfold MP_CACHE_SHA256_BLOCK_SIZE;
        rewrite ?length_buf_write; simpl; lia.
  - assert (sha256_pad m = mjoin (bs ++ [take n (ctx_block c) ++ [0x80] ++ zeros (55 - n) ++ tailb])) as ->.
    { unfold sha256_pad. rewrite Hmod, join_app. fold tailb. rewrite Hm at 1.
      replace ((119 - n) `mod` 64)%nat with (55 - n)%nat.
      2:{ replace (119 - n)%nat with ((55 - n) + 1 * 64)%nat by lia.
          rewrite Nat.Div0.mod_add, Nat.mod_small; lia. }
      by rewrite mjoin_one, <-!app_assoc. }
    rewrite sha256_parse_all.
    2:{ apply Forall_app; split; [done|]. constructor; [|done].
        rewrite !length_app, length_take, length_zeros. simpl. lia. }
    rewrite foldl_app. cbn [foldl]. rewrite <-Hst, bits_bytes_be, be_bytes_u64. fold tailb.
    by rewrite final_block_bytes by lia.
Qed.

(** The digest of any message is the FIPS 180-4 digest. *)
Lemma sha256_correct m : mp_cache_sha256 m = sha256_oneshot m.
Proof.
  apply sha256_final_absorbed. change m with ([] ++ m) at 2.
  apply sha256_update_absorbed, absorbed_init.
Qed.

Lemma sha256_two_updates a b :
  mp_cache_sha256_final (mp_cache_sha256_update (mp_cache_sha256_update mp_cache_sha256_init a) b) =
  sha256_oneshot (a ++ b).
Proof.
  apply sha256_final_absorbed, sha256_update_absorbed.
  change a with ([] ++ a) at 2. apply sha256_update_absorbed, absorbed_init.
Qed.

Lemma length_sha256_round s w i : length (sha256_round s w i) = 8%nat.
Proof. done. Qed.

Lemma length_sha256_compress st b : length st = 8%nat → length (sha256_compress st b) = 8%nat.
Proof.
  intros Hst. unfold sha256_compress. rewrite length_zip_with.
  assert (∀ l w, length w = 8%nat →
    length (foldl (sha256_round (sha256_schedule b)) w l) = 8%nat) as H.
  { intros l. induction l; intros w Hw; cbn [foldl]; [done|]. apply IHl, length_sha256_round. }
  rewrite H by done. lia.
Qed.

Lemma length_word_bytes st : length (mjoin (word_bytes <$> st)) = (4 * length st)%nat.
Proof.
  induction st as [|w st IH]; [done|].
  rewrite fmap_cons, mjoin_cons, length_app, IH. simpl. lia.
Qed.

Lemma word_bytes_wf st : bytes_wf (mjoin (word_bytes <$> st)).
Proof.
  induction st as [|w st IH]; [constructor|].
  rewrite fmap_cons, mjoin_cons. apply bytes_wf_app. split; [|done].
  repeat constructor; apply u8_range.
Qed.

Lemma length_sha256_oneshot m : length (sha256_oneshot m) = 32%nat.
Proof.
  unfold sha256_oneshot. rewrite length_word_bytes.
  assert (∀ l st, length st = 8%nat → length (foldl sha256_compress st l) = 8%nat) as H.
  { intros l. induction l; intros st Hst; cbn [foldl]; [done|].
    by apply IHl, length_sha256_compress. }
  by rewrite H.
Qed.

Lemma sha256_oneshot_wf m : bytes_wf (sha256_oneshot m).
Proof. apply word_bytes_wf. Qed.

Lemma length_sha256 m : length (mp_cache_sha256 m) = 32%nat.
Proof. by rewrite sha256_correct, length_sha256_oneshot. Qed.

(** ** HMAC *)

Lemma buf_write_zeros k n : (length k ≤ n)%nat → buf_write 0 k (zeros n) = k ++ zeros (n - length k).
Proof.
  intros. unfold buf_write. rewrite take_0, app_nil_l. f_equal. unfold zeros.
  by rewrite drop_replicate.
Qed.

Lemma fmap_lxor_comm (c : Z) (l : bytes) : (fun k => Z.lxor k c) <$> l = Z.lxor c <$> l.
Proof. apply list_fmap_ext. intros. apply Z.lxor_comm. Qed.

Lemma hmac_normalized_key_eq key :
  hmac_normalized_key key =
  (let k := if decide (64 < length key)%nat then sha256_oneshot key else key in k ++ zeros (64 - length k)).
Proof.
  unfold hmac_normalized_key, MP_CACHE_SHA256_BLOCK_SIZE. cbv zeta. case_decide.
  - rewrite sha256_correct, buf_write_zeros; [done|]. rewrite length_sha256_oneshot. lia.
  - rewrite buf_write_zeros by lia. done.
Qed.

Lemma hmac_correct key m : mp_cache_hmac_sha256 key m = hmac_spec key m.
Proof.
  unfold mp_cache_hmac_sha256. rewrite !sha256_two_updates, !fmap_lxor_comm.
  by rewrite hmac_normalized_key_eq.
Qed.

Lemma length_hmac key m : length (mp_cache_hmac_sha256 key m) = 32%nat.
Proof. rewrite hmac_correct. apply length_sha256_oneshot. Qed.

Lemma hmac_wf key m : bytes_wf (mp_cache_hmac_sha256 key m).
Proof. rewrite hmac_correct. apply sha256_oneshot_wf. Qed.
#[export] Hint Resolve hmac_wf : mpc.

(** ** Constant-time comparison *)

Lemma ct_diff_zero (l r : bytes) idx acc :
  0 ≤ acc →
  Forall (fun i : nat => is_byte (l !!! i) ∧ is_byte (r !!! i)) idx →
  foldl (fun diff (i : nat) => Z.lor diff (u8 (Z.lxor (l !!! i) (r !!! i)))) acc idx = 0 ↔
  acc = 0 ∧ Forall (fun i : nat => l !!! i = r !!! i) idx.
Proof.
  intros Hacc Hidx. revert acc Hacc.
  induction Hidx as [|i idx [Hl Hr] _ IH]; intros acc Hacc; simpl.
  { split; [intros ->; split; [done|constructor]|intros []; done]. }
  rewrite u8_small by (apply lxor_byte; done).
  assert (0 ≤ Z.lxor (l !!! i) (r !!! i)) by (apply lxor_byte; done).
  rewrite IH by (apply Z.lor_nonneg; lia).
  rewrite Z.lor_eq_0_iff, Forall_cons, Z.lxor_eq_0_iff. tauto.
Qed.

(** On byte strings that hold [n] bytes, the comparison decides equality of
    their first [n] bytes. *)
Lemma constant_time_equals_spec l r n :
  bytes_wf l → bytes_wf r → (n ≤ length l)%nat → (n ≤ length r)%nat →
  mp_cache_constant_time_equals l r n = bool_decide (take n l = take n r).
Proof.
  intros Hl Hr Hnl Hnr. unfold mp_cache_constant_time_equals. apply bool_decide_ext.
  assert (∀ (k : bytes) i, bytes_wf k → (i < length k)%nat → is_byte (k !!! i)) as Hin.
  { intros k i Hk Hi. eapply (Forall_lookup_total_1 _ k); eauto. }
  rewrite ct_diff_zero; [|done|].
  2:{ apply Forall_forall. intros i Hi%elem_of_seq. split; apply Hin; try done; lia. }
  rewrite Forall_forall. split.
  - intros [_ H]. apply list_eq_same_length with n; rewrite ?length_take; try lia.
    intros i x y Hi Hx Hy. rewrite lookup_take_Some in Hx, Hy. destruct Hx as [Hx _], Hy as [Hy _].
    apply list_lookup_total_correct in Hx, Hy. rewrite <-Hx, <-Hy. apply H, elem_of_seq. lia.
  - intros Heq. split; [done|]. intros i Hi%elem_of_seq.
    apply (f_equal (lookup_total i)) in Heq. rewrite !lookup_total_take in Heq.
    by rewrite !decide_True in Heq by lia.
Qed.

(** ** The keystream cipher *)

Lemma length_stream_chunk key blk (data : bytes) :
  length (zip_with Z.lxor (take 32 data) (mp_cache_hmac_sha256 key blk)) = length (take 32 data).
Proof. rewrite length_zip_with, length_hmac, length_take. lia. Qed.

Lemma length_stream_xor_loop fuel key nonce c data :
  length (stream_xor_loop fuel key nonce c data) = length data.
Proof.
  revert c data. induction fuel as [|fuel IH]; intros c data; simpl; [done|].
  case_decide; [by subst|]. unfold MP_CACHE_SHA256_SIZE.
  rewrite length_app, length_stream_chunk, IH, <-length_app, take_drop. done.
Qed.

Lemma zip_with_lxor_wf (a k : bytes) : bytes_wf a → bytes_wf k → bytes_wf (zip_with Z.lxor a k).
Proof.
  intros Ha. revert k. induction Ha as [|x a Hx Ha IH]; intros k Hk; [constructor|].
  destruct Hk as [|y k Hy Hk]; [constructor|]. constructor; [by apply lxor_byte|by apply IH].
Qed.

Lemma stream_xor_wf key nonce data : bytes_wf data → bytes_wf (mp_cache_stream_xor key nonce data).
Proof.
  unfold mp_cache_stream_xor. generalize (length data), 0. intros fuel.
  revert data. induction fuel as [|fuel IH]; intros data c Hd; simpl; [done|].
  case_decide; [constructor|]. apply bytes_wf_app. split.
  - apply zip_with_lxor_wf; [by apply Forall_take|apply hmac_wf].
  - apply IH. by apply Forall_drop.
Qed.

Lemma stream_xor_loop_nil fuel key nonce c : stream_xor_loop fuel key nonce c [] = [].
Proof. by destruct fuel. Qed.

Lemma zip_with_lxor_cancel (a k : bytes) :
  (length a ≤ length k)%nat → zip_with Z.lxor (zip_with Z.lxor a k) k = a.
Proof.
  revert k. induction a as [|x a IH]; intros [|y k] H; simpl in *; [done|done|lia|].
  rewrite lxor_cancel, IH by lia. done.
Qed.

Lemma stream_xor_loop_involutive fuel key nonce c data :
  stream_xor_loop fuel key nonce c (stream_xor_loop fuel key nonce c data) = data.
Proof.
  revert c data. induction fuel as [|fuel IH]; intros c data; cbn [stream_xor_loop]; [done|].
  unfold MP_CACHE_SHA256_SIZE.
  destruct (decide (data = [])) as [->|Hne]; [done|].
  set (ks := mp_cache_hmac_sha256 key (stream_counter_block nonce c)).
  set (rest := stream_xor_loop fuel key nonce (u64 (c + 1)) (drop 32 data)).
  assert (length (zip_with Z.lxor (take 32 data) ks) = length (take 32 data)) as Hlen
    by apply length_stream_chunk.
  rewrite decide_False.
  2:{ intros Hnil%(f_equal length). rewrite length_app, Hlen, length_take in Hnil.
      destruct data; [done|]. simpl in Hnil. lia. }
  destruct (decide (32 ≤ length data)%nat) as [H32|H32].
  - rewrite take_app_length', drop_app_length' by (rewrite Hlen, length_take; lia).
    rewrite zip_with_lxor_cancel by (subst ks; rewrite length_take, length_hmac; lia).
    subst rest. by rewrite IH, take_drop.
  - assert (rest = []) as Hr.
    { subst rest. rewrite drop_ge by lia. apply stream_xor_loop_nil. }
    rewrite Hr, !app_nil_r, (take_ge data) by lia. rewrite take_ge, drop_ge.
    + rewrite zip_with_lxor_cancel by (subst ks; rewrite length_hmac; lia).
      by rewrite stream_xor_loop_nil, app_nil_r.
    + rewrite (take_ge data) in Hlen by lia. lia.
    + rewrite (take_ge data) in Hlen by lia. lia.
Qed.

Lemma length_stream_xor key nonce data : length (mp_cache_stream_xor key nonce data) = length data.
Proof. apply length_stream_xor_loop. Qed.

Lemma stream_xor_involutive key nonce data :
  mp_cache_stream_xor key nonce (mp_cache_stream_xor key nonce data) = data.
Proof.
  unfold mp_cache_stream_xor. rewrite length_stream_xor_loop. apply stream_xor_loop_involutive.
Qed.

(** Byte [i] of the output is byte [i] of the input under byte [i mod 32] of
    the keystream block number [i / 32]. *)
Lemma stream_xor_loop_lookup fuel key nonce c data i :
  (length data ≤ fuel)%nat → (i < length data)%nat →
  stream_xor_loop fuel key nonce c data !!! i =
  Z.lxor (data !!! i)
    (mp_cache_hmac_sha256 key
       (stream_counter_block nonce (Nat.iter (i `div` 32) (fun c => u64 (c + 1)) c)) !!! (i `mod` 32)%nat).
Proof.
  revert c data i. induction fuel as [|fuel IH]; intros c data i Hf Hi; [lia|].
  cbn [stream_xor_loop]. unfold MP_CACHE_SHA256_SIZE.
  rewrite decide_False by (intros ->; simpl in Hi; lia).
  destruct (decide (i < 32)%nat) as [H32|H32].
  - rewrite lookup_total_app_l by (rewrite length_stream_chunk, length_take; lia).
    rewrite Nat.div_small, Nat.mod_small by done. cbn [Nat.iter nat_rect].
    apply list_lookup_total_correct. apply lookup_zip_with_Some.
    exists (data !!! i), (mp_cache_hmac_sha256 key (stream_counter_block nonce c) !!! i).
    split; [done|]. split.
    + rewrite lookup_take_lt by done. by apply list_lookup_lookup_total_lt.
    + apply list_lookup_lookup_total_lt. rewrite length_hmac. lia.
  - assert (i = 32 + (i - 32))%nat as E by lia.
    assert (length (take 32 data) = 32%nat) as Ht by (rewrite length_take; lia).
    rewrite lookup_total_app_r; rewrite length_stream_chunk, Ht; [|lia].
    rewrite IH by (rewrite length_drop; lia).
    rewrite lookup_total_drop. replace (32 + (i - 32))%nat with i by lia.
    assert (i `div` 32 = S ((i - 32) `div` 32))%nat as ->.
    { rewrite E at 1. rewrite (Nat.div_add_l 1 32). lia. lia. }
    assert (i `mod` 32 = (i - 32) `mod` 32)%nat as ->.
    { rewrite E at 1. rewrite <-(Nat.Div0.mod_add (i - 32) 1 32). f_equal. lia. }
    by rewrite Nat.iter_succ_r.
Qed.

(** ** Hex round trip *)

(** Every byte satisfies a decidable predicate that 0..255 satisfy. *)
Lemma byte_cases (P : Z → Prop) `{∀ b, Decision (P b)} :
  bool_decide (Forall P (seqZ 0 256)) = true → ∀ b, is_byte b → P b.
Proof.
  intros Hall%bool_decide_eq_true b Hb. rewrite Forall_forall in Hall.
  apply Hall, elem_of_seqZ. unfold is_byte in Hb. lia.
Qed.

Lemma hex_byte_roundtrip b : is_byte b →
  hex_decode_loop [hex_chars !!! Z.to_nat (b ≫ 4); hex_chars !!! Z.to_nat (Z.land b 0x0f)] = Ret [b].
Proof.
  apply (byte_cases (fun b => hex_decode_loop
    [hex_chars !!! Z.to_nat (b ≫ 4); hex_chars !!! Z.to_nat (Z.land b 0x0f)] = Ret [b])).
  vm_compute. reflexivity.
Qed.

Lemma hex_decode_loop_cons2 x y b l :
  hex_decode_loop [x; y] = Ret [b] →
  hex_decode_loop (x :: y :: l) = (tl ← hex_decode_loop l; Ret (b :: tl)).
Proof. simpl. case_decide; [done|]. intros H1. simpl in H1. by simplify_eq. Qed.

Lemma hex_encode_length l out cap : mp_cache_hex_encode l cap = Ret out → length out = (2 * length l)%nat.
Proof.
  unfold mp_cache_hex_encode. case_decide; [done|]. intros [= <-]. clear.
  induction l as [|b l IH]; [done|]. rewrite fmap_cons, mjoin_cons, length_app, IH. simpl. lia.
Qed.

Lemma hex_decode_encode l :
  bytes_wf l →
  hex_decode_loop (mjoin ((fun b => [hex_chars !!! Z.to_nat (b ≫ 4); hex_chars !!! Z.to_nat (Z.land b 0x0f)])
                   <$> l)) = Ret l.
Proof.
  induction 1 as [|b l Hb _ IH]; [done|].
  rewrite fmap_cons, mjoin_cons. cbn [app].
  erewrite hex_decode_loop_cons2 by (by apply hex_byte_roundtrip). by rewrite IH.
Qed.

(** ** Base64 round trip *)

Lemma base64_value_alphabet n : 0 ≤ n < 64 →
  mp_cache_base64_value (base64_alphabet !!! Z.to_nat n) = n ∧ base64_alphabet !!! Z.to_nat n ≠ 61.
Proof.
  intros Hn.
  assert (bool_decide (Forall (fun n =>
    mp_cache_base64_value (base64_alphabet !!! Z.to_nat n) = n ∧ base64_alphabet !!! Z.to_nat n ≠ 61)
    (seqZ 0 64)) = true) as Hall by (vm_compute; reflexivity).
  apply bool_decide_eq_true in Hall. rewrite Forall_forall in Hall.
  apply Hall, elem_of_seqZ. lia.
Qed.

Lemma base64_digit_alphabet n : 0 ≤ n →
  base64_digit (base64_alphabet !!! Z.to_nat (Z.land n 0x3f)) = n `mod` 64 ∧
  base64_alphabet !!! Z.to_nat (Z.land n 0x3f) ≠ 61.
Proof.
  intros Hn. change 0x3f with (Z.ones 6). rewrite Z.land_ones by lia.
  change (2 ^ 6) with 64. unfold base64_digit.
  destruct (base64_value_alphabet (n `mod` 64)) as [Hv Hne]; [zlia|].
  by rewrite decide_False.
Qed.

(** The four 6-bit digits of a 24-bit chunk recombine to it. *)
Lemma chunk_digits chunk : 0 ≤ chunk < 2 ^ 24 →
  Z.lor (Z.lor (Z.lor (((chunk ≫ 18) `mod` 64) ≪ 18) (((chunk ≫ 12) `mod` 64) ≪ 12))
               (((chunk ≫ 6) `mod` 64) ≪ 6)) (chunk `mod` 64) = chunk.
Proof.
  intros Hc. rewrite !Z.shiftr_div_pow2 by lia.
  replace (((chunk `div` 2 ^ 18) `mod` 64) ≪ 18) with ((((chunk `div` 2 ^ 18) `mod` 64) ≪ 6) ≪ 12)
    by (rewrite Z.shiftl_shiftl by lia; done).
  rewrite <-Z.shiftl_lor, (lor_shiftl_add _ _ 6) by zlia.
  replace (((chunk `div` 2 ^ 18) `mod` 64 * 2 ^ 6 + (chunk `div` 2 ^ 12) `mod` 64) ≪ 12)
    with ((((chunk `div` 2 ^ 18) `mod` 64 * 2 ^ 6 + (chunk `div` 2 ^ 12) `mod` 64) ≪ 6) ≪ 6)
    by (rewrite Z.shiftl_shiftl by lia; done).
  rewrite <-Z.shiftl_lor, (lor_shiftl_add _ _ 6) by zlia.
  rewrite (lor_shiftl_add _ _ 6) by zlia. zlia.
Qed.

Lemma be_value_3 a b c : be_value [a; b; c] = a * 2 ^ 16 + b * 2 ^ 8 + c.
Proof. unfold be_value. simpl foldl. lia. Qed.

(** The chunk of a group is the big-endian value of the group padded with
    zero bytes. *)
Lemma base64_group_chunk group :
  bytes_wf group → (1 ≤ length group ≤ 3)%nat →
  Nat.iter (3 - length group) (fun chunk => u32 (chunk ≪ 8))
    (foldl (fun chunk b => u32 (Z.lor (chunk ≪ 8) b)) 0 group) =
  be_value (group ++ zeros (3 - length group)).
Proof.
  intros Hwf Hlen.
  assert (∀ x b, 0 ≤ x < 2 ^ 16 → is_byte b → u32 (Z.lor (x ≪ 8) b) = x * 2 ^ 8 + b) as Hstep.
  { intros x b Hx Hb. unfold is_byte in Hb. rewrite lor_shiftl_add by lia. apply u32_small. lia. }
  assert (∀ x, 0 ≤ x < 2 ^ 16 → u32 (x ≪ 8) = x * 2 ^ 8) as Hpad.
  { intros x Hx. rewrite Z.shiftl_mul_pow2 by lia. apply u32_small. lia. }
  unfold bytes_wf in Hwf.
  destruct group as [|a [|b [|c [|? ?]]]]; simpl in Hlen; try lia; decompose_Forall_hyps;
    cbn [length Nat.sub Nat.iter nat_rect foldl app]; unfold is_byte in *; rewrite (Hstep 0 a) by lia.
  - rewrite (Hpad (0 * 2 ^ 8 + a)) by lia. rewrite Hpad by lia.
    change (be_value _) with (be_value [a; 0; 0]). rewrite be_value_3. lia.
  - rewrite (Hstep (0 * 2 ^ 8 + a) b) by lia. rewrite Hpad by lia.
    change (be_value _) with (be_value [a; b; 0]). rewrite be_value_3. lia.
  - rewrite (Hstep (0 * 2 ^ 8 + a) b) by lia. rewrite Hstep by lia.
    change (be_value _) with (be_value [a; b; c]). rewrite be_value_3. lia.
Qed.

Lemma digit_bytes a b c : is_byte a → is_byte b → is_byte c →
  u8 (be_value [a; b; c] ≫ 16) = a ∧ u8 (be_value [a; b; c] ≫ 8) = b ∧ u8 (be_value [a; b; c]) = c.
Proof.
  unfold is_byte. intros. rewrite be_value_3, !Z.shiftr_div_pow2 by lia. unfold u8. split_and!; zlia.
Qed.

(** A well-formed group of digits, with [pads] padding characters at its end,
    decodes to the first [3 - pads] bytes of its chunk. *)
Lemma base64_decode_group_digits c0 c1 c2 c3 chunk cap out :
  0 ≤ chunk < 2 ^ 24 → cap < 2 ^ 64 → c0 ≠ 61 → c1 ≠ 61 → (c2 = 61 → c3 = 61) →
  base64_digit c0 = (chunk ≫ 18) `mod` 64 → base64_digit c1 = (chunk ≫ 12) `mod` 64 →
  base64_digit c2 = (chunk ≫ 6) `mod` 64 → base64_digit c3 = chunk `mod` 64 →
  let got := if decide (c2 = 61) then [u8 (chunk ≫ 16)]
             else if decide (c3 = 61) then [u8 (chunk ≫ 16); u8 (chunk ≫ 8)]
             else [u8 (chunk ≫ 16); u8 (chunk ≫ 8); u8 chunk] in
  zlen out + zlen got ≤ cap →
  base64_decode_group c0 c1 c2 c3 cap out = Ret (out ++ got).
Proof.
  intros Hchunk Hcap H0 H1 H23 D0 D1 D2 D3 got Hroom. pose proof (zlen_nonneg out).
  unfold base64_decode_group. rewrite D0, D1, D2, D3, chunk_digits by done.
  rewrite decide_False by (intros H'; pose proof (Z.mod_pos_bound (chunk ≫ 18) 64);
    pose proof (Z.mod_pos_bound (chunk ≫ 12) 64); pose proof (Z.mod_pos_bound (chunk ≫ 6) 64);
    pose proof (Z.mod_pos_bound chunk 64); lia).
  assert (3 - zlen (filter (eq 61) [c0; c1; c2; c3]) = zlen got) as ->.
  { subst got. rewrite !filter_cons. repeat case_decide; subst; try congruence; try done.
    all: specialize (H23 eq_refl); congruence. }
  rewrite (u64_small (zlen got)) by (subst got; repeat case_decide; done).
  rewrite u64_small by (subst got; repeat case_decide; unfold zlen in *; simpl in *; lia).
  rewrite decide_False by lia. subst got. unfold put_byte.
  repeat case_decide; subst; try congruence; try (specialize (H23 eq_refl); congruence);
    len_simpl; try lia; cbn [mbind outcome_bind];
    repeat (rewrite decide_True by (len_simpl; lia); cbn [mbind outcome_bind]);
    by rewrite <-?app_assoc.
Qed.

(** The digits a padding character stands for are zero. *)
Lemma pad_digits a b :
  (be_value [a; 0; 0] ≫ 6) `mod` 64 = 0 ∧ be_value [a; b; 0] `mod` 64 = 0.
Proof. rewrite !be_value_3, Z.shiftr_div_pow2 by lia. split; zlia. Qed.

(** Decoding the text of one group appends the group. *)
Lemma base64_group_roundtrip group rest cap out :
  bytes_wf group → (1 ≤ length group ≤ 3)%nat → cap < 2 ^ 64 → zlen out + zlen group ≤ cap →
  base64_decode_loop (base64_encode_group group ++ rest) cap out =
  base64_decode_loop rest cap (out ++ group).
Proof.
  intros Hwf Hlen Hcap Hroom. unfold base64_encode_group.
  rewrite base64_group_chunk by done. set (padded := group ++ zeros (3 - length group)).
  assert (∃ a b c, padded = [a; b; c] ∧ is_byte a ∧ is_byte b ∧ is_byte c ∧
            group = take (length group) [a; b; c]) as (a & b & c & Hp & Ha & Hb & Hc & Hg).
  { subst padded. unfold bytes_wf in Hwf.
    destruct group as [|a [|b [|c [|? ?]]]]; simpl in Hlen; try lia; decompose_Forall_hyps;
      eexists _, _, _; (split; [reflexivity|]); split_and!; done. }
  rewrite Hp. destruct (digit_bytes a b c) as (Va & Vb & Vc); try done.
  set (chunk := be_value [a; b; c]) in *.
  assert (0 ≤ chunk < 2 ^ 24) as Hchunk.
  { subst chunk. rewrite be_value_3. unfold is_byte in *. lia. }
  cbv zeta. cbn [app base64_decode_loop].
  destruct (base64_digit_alphabet (chunk ≫ 18)) as [D0 N0]; [apply Z.shiftr_nonneg; lia|].
  destruct (base64_digit_alphabet (chunk ≫ 12)) as [D1 N1]; [apply Z.shiftr_nonneg; lia|].
  destruct (base64_digit_alphabet (chunk ≫ 6)) as [D2 N2]; [apply Z.shiftr_nonneg; lia|].
  destruct (base64_digit_alphabet chunk) as [D3 N3]; [lia|].
  assert (base64_digit 61 = 0) as Dpad by done. unfold is_byte in *.
  assert (padded = group ++ zeros (3 - length group)) as Hpad by done.
  destruct group as [|x [|y [|z [|? ?]]]]; simpl in Hlen; try lia;
    rewrite Hp in Hpad; unfold zeros in Hpad; simpl in Hpad; simplify_eq;
    cbn [length] in *; repeat ((rewrite decide_True by lia) || (rewrite decide_False by lia)).
  - rewrite (base64_decode_group_digits _ _ _ _ chunk); rewrite ?decide_True by done; try done.
    + by rewrite Va.
    + rewrite Dpad. symmetry. subst chunk. subst. apply (pad_digits a 0).
    + rewrite Dpad. symmetry. subst chunk. subst. apply (pad_digits a 0).
  - rewrite (base64_decode_group_digits _ _ _ _ chunk); try done;
      rewrite ?(decide_False (P := _ !!! _ = _)) by done; rewrite ?decide_True by done; try done.
    + by rewrite Va, Vb.
    + rewrite Dpad. symmetry. subst chunk. subst. apply (pad_digits a b).
  - rewrite (base64_decode_group_digits _ _ _ _ chunk); try done; rewrite ?decide_False by done; try done.
    by rewrite Va, Vb, Vc.
Qed.

Lemma base64_loop_roundtrip l cap out :
  bytes_wf l → cap < 2 ^ 64 → zlen out + zlen l ≤ cap →
  base64_decode_loop (base64_encode_loop l) cap out = Ret (out ++ l).
Proof.
  intros Hwf Hcap. revert out Hwf. induction l as [|a|a b|a b c l IH] using list_ind3; intros out Hwf Hroom.
  - by rewrite app_nil_r.
  - cbn [base64_encode_loop]. rewrite <-(app_nil_r (base64_encode_group _)).
    rewrite base64_group_roundtrip; simpl; try done; lia.
  - cbn [base64_encode_loop]. rewrite <-(app_nil_r (base64_encode_group _)).
    rewrite base64_group_roundtrip; simpl; try done; lia.
  - assert (bytes_wf [a; b; c] ∧ bytes_wf l) as [H1 H2] by (by apply bytes_wf_app).
    change (a :: b :: c :: l) with ([a; b; c] ++ l) in *. rewrite zlen_app in Hroom.
    pose proof (zlen_nonneg l). cbn [base64_encode_loop app].
    rewrite base64_group_roundtrip; simpl; try done; try lia.
    rewrite IH; [|done|rewrite zlen_app; lia]. by rewrite <-app_assoc.
Qed.

Lemma length_base64_encode_loop l :
  zlen (base64_encode_loop l) = (zlen l + 2) `div` 3 * 4.
Proof.
  induction l as [|a|a b|a b c l IH] using list_ind3; try done.
  cbn [base64_encode_loop]. rewrite zlen_app, IH, !zlen_cons.
  change (zlen (base64_encode_group _)) with 4. zlia.
Qed.

(** A group never writes outside a buffer with room for three more bytes,
    and writes at most three. *)
Lemma base64_decode_group_safe c0 c1 c2 c3 cap out :
  zlen out + 3 ≤ cap →
  match base64_decode_group c0 c1 c2 c3 cap out with
  | Ret out' => zlen out' ≤ zlen out + 3
  | Fail _ => True
  | Stuck => False
  end.
Proof.
  intros Hroom. unfold base64_decode_group, put_byte.
  repeat (case_decide; cbn [mbind outcome_bind]); try done; len_simpl; lia.
Qed.

Lemma base64_decode_loop_safe text cap out :
  zlen out + zlen text `div` 4 * 3 ≤ cap →
  match base64_decode_loop text cap out with
  | Ret out' => zlen out' ≤ zlen out + zlen text `div` 4 * 3
  | Fail _ => True
  | Stuck => False
  end.
Proof.
  assert (∀ c0 c1 c2 c3 (l : bytes), zlen (c0 :: c1 :: c2 :: c3 :: l) `div` 4 = 1 + zlen l `div` 4) as Hdiv.
  { intros. rewrite !zlen_cons. zlia. }
  revert out. induction text as [| | | |c0 c1 c2 c3 text IH] using list_ind4; intros out Hroom;
    try (cbn [base64_decode_loop]; rewrite ?zlen_cons; change (zlen (@nil Z)) with 0; zlia).
  rewrite Hdiv in *. cbn [base64_decode_loop].
  assert (0 ≤ zlen text `div` 4) by (pose proof (zlen_nonneg text); zlia).
  pose proof (base64_decode_group_safe c0 c1 c2 c3 cap out) as Hg.
  destruct (base64_decode_group c0 c1 c2 c3 cap out) as [out'| |] eqn:E;
    cbn [mbind outcome_bind]; [|done|apply Hg; lia].
  specialize (Hg ltac:(lia)). specialize (IH out' ltac:(lia)).
  destruct (base64_decode_loop text cap out'); try done. lia.
Qed.

(** ** Random bytes *)

Lemma random_read_loop_spec n acc reads :
  match random_read_loop n acc reads with
  | (Ret l, _) => ∃ k, l = acc ++ k ∧ length k = n
  | _ => True
  end.
Proof.
  revert n acc. induction reads as [|r reads IH]; intros n acc.
  - destruct n; simpl; [exists []; split; [by rewrite app_nil_r|done]|done].
  - destruct n as [|n]; [simpl; exists []; split; [by rewrite app_nil_r|done]|].
    destruct r as [[]|l]; cbn [random_read_loop]; [apply IH|done|].
    case_decide as Hgot; [done|].
    specialize (IH (S n - length (take (S n) l))%nat (acc ++ take (S n) l)).
    destruct (random_read_loop _ _ _) as [[] ?]; try done.
    destruct IH as (k & -> & Hk). exists (take (S n) l ++ k). split; [by rewrite app_assoc|].
    rewrite length_app, Hk, length_take. lia.
Qed.

Lemma random_bytes_length n e :
  match mp_cache_random_bytes n e with
  | (Ret l, _) => length l = n
  | (Fail _, _) => True
  | (Stuck, _) => False
  end.
Proof.
  unfold mp_cache_random_bytes.
  assert (∀ m acc reads, (random_read_loop m acc reads).1 ≠ Stuck) as Hns.
  { intros m acc reads. revert m acc. induction reads as [|[[]|] reads IH]; intros [|m] acc; simpl; try done.
    case_decide; [done|apply IH]. }
  pose proof (random_read_loop_spec n [] (ent_reads e)) as H.
  specialize (Hns n [] (ent_reads e)).
  destruct (ent_opens e) as [|[] ?]; try done; destruct (random_read_loop _ _ _) as [[] ?]; try done;
    by destruct H as (k & -> & Hk).
Qed.

(** ** The interface crypto offers to the persistence layer *)

(** What [storage.c] needs of [crypto.c]: a 32-byte MAC, a length-preserving
    cipher that is its own inverse, and a comparison that decides equality. *)
Class EnvelopeCrypto := {
  ec_mac : bytes → bytes → bytes;
  ec_xor : bytes → bytes → bytes → bytes;
  ec_equals : bytes → bytes → nat → bool;
  ec_mac_length k m : length (ec_mac k m) = 32%nat;
  ec_mac_wf k m : bytes_wf (ec_mac k m);
  ec_xor_length k nonce l : length (ec_xor k nonce l) = length l;
  ec_xor_wf k nonce l : bytes_wf l → bytes_wf (ec_xor k nonce l);
  ec_xor_involutive k nonce l : ec_xor k nonce (ec_xor k nonce l) = l;
  ec_equals_spec l r n :
    bytes_wf l → bytes_wf r → (n ≤ length l)%nat → (n ≤ length r)%nat →
    ec_equals l r n = bool_decide (take n l = take n r);
}.

#[export] Instance mp_cache_envelope_crypto : EnvelopeCrypto := {
  ec_mac := mp_cache_hmac_sha256;
  ec_xor := mp_cache_stream_xor;
  ec_equals := mp_cache_constant_time_equals;
  ec_mac_length := length_hmac;
  ec_mac_wf := hmac_wf;
  ec_xor_length := length_stream_xor;
  ec_xor_wf := stream_xor_wf;
  ec_xor_involutive := stream_xor_involutive;
  ec_equals_spec := constant_time_equals_spec;
}.

(** ** The compression function against the standard *)

Lemma u32_is_word x : is_word (u32 x).
Proof. unfold is_word, u32. apply Z.mod_pos_bound. lia. Qed.

#[local] Hint Resolve u32_is_word : mpc.

Lemma testbit_u32 x i : (i < 32)%nat → Z.testbit (u32 x) (Z.of_nat i) = Z.testbit x (Z.of_nat i).
Proof. intros. unfold u32. apply Z.mod_pow2_bits_low. lia. Qed.

Lemma testbit_word_high x i : is_word x → 32 ≤ i → Z.testbit x i = false.
Proof. intros Hx Hi. rewrite <-(Z.mod_small x (2 ^ 32)) by done. apply Z.mod_pow2_bits_high. lia. Qed.

(** A number all of whose bits from 32 up are clear is a word. *)
Lemma is_word_bits x : (∀ i, 32 ≤ i → Z.testbit x i = false) → is_word x.
Proof.
  intros H. assert (x = u32 x) as ->; [|apply u32_is_word]. apply Z.bits_inj'. intros i Hi.
  unfold u32. destruct (decide (i < 32)).
  - by rewrite Z.mod_pow2_bits_low by lia.
  - by rewrite Z.mod_pow2_bits_high, H by lia.
Qed.

Lemma lxor_is_word x y : is_word x → is_word y → is_word (x ⊕ y).
Proof. intros Hx Hy. apply is_word_bits. intros i Hi. by rewrite Z.lxor_spec, !testbit_word_high. Qed.

Lemma land_is_word x y : is_word x → is_word (Z.land x y).
Proof. intros Hx. apply is_word_bits. intros i Hi. by rewrite Z.land_spec, testbit_word_high. Qed.

Lemma shiftr_is_word x n : is_word x → 0 ≤ n → is_word (x ≫ n).
Proof. intros Hx Hn. apply is_word_bits. intros i Hi. rewrite Z.shiftr_spec by lia. apply testbit_word_high; [done|lia]. Qed.
#[local] Hint Resolve lxor_is_word land_is_word shiftr_is_word : mpc.

Lemma rotate_right_fips x (n : nat) :
  is_word x → (0 < n < 32)%nat → mp_cache_rotate_right x (Z.of_nat n) = FIPS.ROTR n x.
Proof.
  intros Hx Hn. apply word_eq; [apply u32_is_word|]. intros i Hi.
  unfold mp_cache_rotate_right, FIPS.bit. rewrite testbit_u32, Z.lor_spec, Z.shiftr_spec by lia.
  destruct (decide (i + n < 32)%nat).
  - rewrite Z.shiftl_spec_low, orb_false_r, Nat.mod_small by lia. f_equal. lia.
  - rewrite (testbit_word_high x (Z.of_nat i + Z.of_nat n)), Z.shiftl_spec by (done || lia).
    replace ((i + n) mod 32)%nat with (i + n - 32)%nat; [simpl; f_equal; lia|].
    replace (i + n)%nat with ((i + n - 32) + 1 * 32)%nat at 2 by lia.
    rewrite Nat.Div0.mod_add, Nat.mod_small; lia.
Qed.

Lemma shiftr_fips x (n : nat) : is_word x → x ≫ Z.of_nat n = FIPS.SHR n x.
Proof.
  intros Hx. apply word_eq; [by apply shiftr_is_word; [|lia]|]. intros i Hi.
  unfold FIPS.bit. rewrite Z.shiftr_spec, <-Nat2Z.inj_add by lia.
  destruct (Nat.ltb_spec (i + n) 32); simpl; [done|]. apply testbit_word_high; [done|lia].
Qed.

Lemma xor3_fips x y z : is_word x → is_word y → is_word z → x ⊕ y ⊕ z = FIPS.xor3 x y z.
Proof.
  intros. apply word_eq; [by auto with mpc|]. intros i Hi. unfold FIPS.bit.
  by rewrite !Z.lxor_spec, xorb_assoc.
Qed.

Ltac sigma_fips := intros Hx; rewrite <-!rotate_right_fips by (done || lia);
  rewrite <-?shiftr_fips by done; symmetry; apply xor3_fips; first [apply u32_is_word | apply shiftr_is_word; [done|lia]].

Lemma big_sigma0_fips x : is_word x → FIPS.Sigma0 x = mp_cache_sha256_big_sigma0 x.
Proof. unfold FIPS.Sigma0. sigma_fips. Qed.
Lemma big_sigma1_fips x : is_word x → FIPS.Sigma1 x = mp_cache_sha256_big_sigma1 x.
Proof. unfold FIPS.Sigma1. sigma_fips. Qed.
Lemma small_sigma0_fips x : is_word x → FIPS.sigma0 x = mp_cache_sha256_small_sigma0 x.
Proof. unfold FIPS.sigma0. sigma_fips. Qed.
Lemma small_sigma1_fips x : is_word x → FIPS.sigma1 x = mp_cache_sha256_small_sigma1 x.
Proof. unfold FIPS.sigma1. sigma_fips. Qed.

(** [choice] and [majority] of the round loop. *)
Lemma choice_fips x y z :
  is_word x → is_word y → is_word z →
  Z.land x y ⊕ Z.land (u32 (Z.lnot x)) z = FIPS.Ch x y z.
Proof.
  intros. apply word_eq; [by auto with mpc|]. intros i Hi. unfold FIPS.bit.
  rewrite Z.lxor_spec, !Z.land_spec, testbit_u32, Z.lnot_spec by lia.
  by destruct (Z.testbit x _), (Z.testbit y _), (Z.testbit z _).
Qed.

Lemma majority_fips x y z :
  is_word x → is_word y → is_word z →
  Z.land x y ⊕ Z.land x z ⊕ Z.land y z = FIPS.Maj x y z.
Proof.
  intros. apply word_eq; [by auto with mpc|]. intros i Hi. unfold FIPS.bit.
  rewrite !Z.lxor_spec, !Z.land_spec.
  by destruct (Z.testbit x _), (Z.testbit y _), (Z.testbit z _).
Qed.

(** The tables of crypto.c are the fractional bits of the roots of the primes. *)
Lemma constants_fips : FIPS.K = mp_cache_sha256_constants.
Proof. vm_compute. reflexivity. Qed.

Lemma initial_state_fips : FIPS.digest_words FIPS.H0 = sha256_initial_state.
Proof. vm_compute. reflexivity. Qed.

(** *** The message schedule *)

Lemma lor_word_sum a b c d :
  is_byte a → is_byte b → is_byte c → is_byte d →
  Z.lor (Z.lor (Z.lor (a ≪ 24) (b ≪ 16)) (c ≪ 8)) d = a * 2 ^ 24 + b * 2 ^ 16 + c * 2 ^ 8 + d.
Proof.
  unfold is_byte. intros.
  replace (a ≪ 24) with ((a ≪ 8) ≪ 16) by (rewrite Z.shiftl_shiftl by lia; done).
  rewrite <-Z.shiftl_lor, (lor_shiftl_add a b 8) by lia.
  replace ((a * 2 ^ 8 + b) ≪ 16) with (((a * 2 ^ 8 + b) ≪ 8) ≪ 8) by (rewrite Z.shiftl_shiftl by lia; done).
  rewrite <-Z.shiftl_lor, (lor_shiftl_add _ c 8), (lor_shiftl_add _ d 8) by lia. lia.
Qed.

(** A property of every list of [n] elements, from its [n] elements. *)
Ltac explode l H := repeat (destruct l as [|? l]; [discriminate H|]); destruct l; [clear H|discriminate H].

Lemma schedule_words_fips block :
  length block = 64%nat → bytes_wf block → sha256_schedule_words block = FIPS.words block.
Proof.
  intros Hlen Hwf. explode block Hlen. unfold bytes_wf in Hwf.
  repeat match goal with H : Forall is_byte (_ :: _) |- _ => apply Forall_cons_1 in H as [? H] end.
  unfold sha256_schedule_words.
  cbn [FIPS.words fmap list_fmap seq Nat.mul Nat.add lookup_total list_lookup_total].
  by rewrite !lor_word_sum by assumption.
Qed.

Lemma words_are_words l : bytes_wf l → Forall is_word (FIPS.words l).
Proof.
  revert l. fix IH 1. intros [|a [|b [|c [|d l]]]] Hwf; try constructor.
  - unfold bytes_wf, is_byte in Hwf. rewrite !Forall_cons in Hwf. unfold is_word. lia.
  - apply IH. unfold bytes_wf in *. rewrite !Forall_cons in Hwf. tauto.
Qed.

Lemma length_words l : length (FIPS.words l) = (length l / 4)%nat.
Proof.
  revert l. fix IH 1. intros [|a [|b [|c [|d l]]]]; [reflexivity..|]. cbn [FIPS.words length].
  rewrite IH. change (S (S (S (S (length l))))) with (1 * 4 + length l)%nat.
  rewrite Nat.div_add_l by lia. lia.
Qed.

Lemma reverse_lookup_total_end (r : list Z) k :
  (k < length r)%nat → reverse r !!! (length r - S k)%nat = r !!! k.
Proof.
  intros Hk. rewrite !list_lookup_total_alt. f_equal. rewrite reverse_lookup by lia. f_equal. lia.
Qed.

Lemma add_fips x y : FIPS.add x y = u32 (x + y).
Proof. done. Qed.

Lemma next_word_fips r :
  (16 ≤ length r)%nat → Forall is_word r →
  FIPS.next_word r =
    u32 (u32 (u32 (mp_cache_sha256_small_sigma1 (r !!! 1%nat) + r !!! 6%nat) + mp_cache_sha256_small_sigma0 (r !!! 14%nat))
         + r !!! 15%nat) :: r.
Proof.
  intros Hlen Hr.
  destruct r as [|w1 [|w2 [|w3 [|w4 [|w5 [|w6 [|w7 [|w8 [|w9 [|w10 [|w11 [|w12 [|w13 [|w14 [|w15 [|w16 r]]]]]]]]]]]]]]]];
    try (cbn [length] in Hlen; lia).
  assert (is_word w2 ∧ is_word w15) as [H2 H15].
  { split; [apply (proj1 (Forall_lookup _ _) Hr 1%nat)|apply (proj1 (Forall_lookup _ _) Hr 14%nat)]; reflexivity. }
  cbn [FIPS.next_word lookup_total list_lookup_total]. by rewrite !add_fips, small_sigma0_fips, small_sigma1_fips by done.
Qed.

(** One turn of the schedule loop appends the word of the standard's
    recurrence; the reference keeps the newest word first. *)
Lemma schedule_loop_fips n r :
  (16 ≤ length r)%nat → Forall is_word r →
  foldl (fun (schedule : list Z) (i : nat) =>
    schedule ++ [mp_cache_sha256_small_sigma1 (schedule !!! (i - 2)%nat) ⊞ (schedule !!! (i - 7)%nat)
                 ⊞ mp_cache_sha256_small_sigma0 (schedule !!! (i - 15)%nat) ⊞ (schedule !!! (i - 16)%nat)])
    (reverse r) (seq (length r) n) = reverse (Nat.iter n FIPS.next_word r) ∧
  Forall is_word (Nat.iter n FIPS.next_word r) ∧
  length (Nat.iter n FIPS.next_word r) = (length r + n)%nat.
Proof.
  revert r. induction n as [|n IH]; intros r Hlen Hr; [split_and!; [done|done|simpl; lia]|].
  rewrite Nat.iter_succ_r. cbn [seq foldl]. rewrite !reverse_lookup_total_end by lia.
  rewrite next_word_fips by done. set (x := u32 (_ + r !!! 15%nat)).
  assert (is_word x) as Hx by apply u32_is_word. clearbody x.
  rewrite <-reverse_cons. destruct (IH (x :: r)) as (E & HF & HL); [simpl; lia|by constructor|].
  cbn [length] in *. split_and!; [done|done|lia].
Qed.

Lemma schedule_fips block :
  length block = 64%nat → bytes_wf block →
  sha256_schedule block = FIPS.W (FIPS.words block) ∧
  Forall is_word (FIPS.W (FIPS.words block)) ∧ length (FIPS.W (FIPS.words block)) = 64%nat.
Proof.
  intros Hlen Hwf. pose proof (length_words block) as HL. rewrite Hlen in HL.
  destruct (schedule_loop_fips 48 (reverse (FIPS.words block))) as (E & HF & HL').
  - rewrite length_reverse, HL. done.
  - by apply Forall_reverse, words_are_words.
  - rewrite reverse_involutive, length_reverse, HL in E. unfold sha256_schedule, FIPS.W.
    rewrite schedule_words_fips, length_reverse by done.
    split_and!; [exact E|by apply Forall_reverse|]. rewrite HL', length_reverse, HL. done.
Qed.

(** *** The rounds *)

Definition is_hash (v : FIPS.hash_value) : Prop := Forall is_word (FIPS.digest_words v).

Lemma round_fips schedule v index :
  is_hash v →
  sha256_round schedule (FIPS.digest_words v) index =
  FIPS.digest_words (FIPS.round v (mp_cache_sha256_constants !!! index, schedule !!! index)).
Proof.
  destruct v as [a b c d e f g h]. unfold is_hash, FIPS.digest_words.
  cbn [FIPS.ha FIPS.hb FIPS.hc FIPS.hd FIPS.he FIPS.hf FIPS.hg FIPS.hh]. rewrite !Forall_cons.
  intros. destruct_and!. unfold FIPS.round, FIPS.T1, FIPS.T2, sha256_round.
  cbn [FIPS.ha FIPS.hb FIPS.hc FIPS.hd FIPS.he FIPS.hf FIPS.hg FIPS.hh lookup_total list_lookup_total fst snd].
  by rewrite choice_fips, majority_fips, big_sigma0_fips, big_sigma1_fips by done.
Qed.

Lemma round_is_hash v kw : is_hash v → is_hash (FIPS.round v kw).
Proof.
  unfold is_hash, FIPS.digest_words. rewrite !Forall_cons. intros. destruct_and!.
  unfold FIPS.round. cbn [FIPS.ha FIPS.hb FIPS.hc FIPS.hd FIPS.he FIPS.hf FIPS.hg FIPS.hh].
  split_and!; try done; apply u32_is_word.
Qed.

Lemma rounds_fips schedule v n i :
  is_hash v → (i + n ≤ length schedule)%nat → (i + n ≤ 64)%nat →
  foldl (sha256_round schedule) (FIPS.digest_words v) (seq i n) =
  FIPS.digest_words (foldl FIPS.round v
    (take n (drop i (zip mp_cache_sha256_constants schedule)))).
Proof.
  revert v i. induction n as [|n IH]; intros v i Hv Hs Hk; [done|].
  assert (length mp_cache_sha256_constants = 64%nat) as HK by done.
  destruct (lookup_lt_is_Some_2 mp_cache_sha256_constants i) as [k Hki]; [lia|].
  destruct (lookup_lt_is_Some_2 schedule i) as [w Hwi]; [lia|].
  rewrite (drop_S _ (k, w)) by (by apply lookup_zip_Some). cbn [seq foldl take].
  rewrite round_fips, (list_lookup_total_correct _ _ _ Hki), (list_lookup_total_correct _ _ _ Hwi) by done.
  apply IH; [by apply round_is_hash|lia|lia].
Qed.

Lemma compress_fips v block :
  is_hash v → length block = 64%nat → bytes_wf block →
  sha256_compress (FIPS.digest_words v) block =
  FIPS.digest_words (FIPS.compress v (FIPS.words block)).
Proof.
  intros Hv Hlen Hwf. destruct (schedule_fips block Hlen Hwf) as (E & HF & HL).
  unfold sha256_compress, FIPS.compress. rewrite E, rounds_fips by (done || lia).
  rewrite drop_0, take_ge by (rewrite length_zip_with, HL; done).
  by rewrite constants_fips.
Qed.

Lemma compress_is_hash v block : is_hash (FIPS.compress v block).
Proof. unfold is_hash, FIPS.digest_words. rewrite !Forall_cons. split_and!; try apply u32_is_word. constructor. Qed.

(** *** Padding, parsing and the digest *)

Lemma u8_byte_of v i : 0 ≤ i → u8 (v ≫ (8 * i)) = FIPS.byte_of v i.
Proof.
  intros Hi. unfold u8, FIPS.byte_of. rewrite Z.shiftr_div_pow2 by lia.
  by rewrite Z.pow_mul_r by lia.
Qed.

Lemma word_bytes_fips w : word_bytes w = FIPS.byte_of w <$> [3; 2; 1; 0].
Proof.
  unfold word_bytes. cbn [fmap list_fmap].
  by rewrite <-(u8_byte_of w 3), <-(u8_byte_of w 2), <-(u8_byte_of w 1), <-(u8_byte_of w 0), Z.shiftr_0_r by lia.
Qed.

Lemma be_bytes_8_fips v : be_bytes 8 v = FIPS.byte_of v <$> [7; 6; 5; 4; 3; 2; 1; 0].
Proof. cbn [fmap list_fmap]. rewrite <-!u8_byte_of by lia. done. Qed.

Lemma pad_fips m : sha256_pad m = FIPS.pad m.
Proof.
  unfold sha256_pad, FIPS.pad. rewrite be_bytes_8_fips. unfold zeros. f_equal. cbn [app].
  f_equal. f_equal. f_equal. apply Nat2Z.inj. rewrite Nat2Z.inj_mod, Nat2Z.inj_sub, Nat2Z.inj_mod.
  - rewrite Z2Nat.id by (apply Z.mod_pos_bound; lia). unfold zlen.
    rewrite Zminus_mod_idemp_r. change (Z.of_nat 119) with (55 + 1 * 64).
    replace (55 + 1 * 64 - Z.of_nat (length m)) with (55 - Z.of_nat (length m) + 1 * 64) by lia.
    apply Z_mod_plus_full.
  - pose proof (Nat.mod_upper_bound (length m) 64). lia.
Qed.

Lemma sha256_parse_blocks_at n k l :
  sha256_parse n (drop (64 * k) l) = (fun i => take 64 (drop (64 * i) l)) <$> seq k n.
Proof.
  revert k. induction n as [|n IH]; intros k; [done|]. cbn [sha256_parse seq]. rewrite fmap_cons.
  f_equal. rewrite drop_drop, <-IH. do 2 f_equal. lia.
Qed.

Lemma compress_blocks_fips bs v :
  is_hash v → Forall (fun b => length b = 64%nat ∧ bytes_wf b) bs →
  foldl sha256_compress (FIPS.digest_words v) bs =
  FIPS.digest_words (foldl FIPS.compress v (FIPS.words <$> bs)).
Proof.
  intros Hv Hbs. revert v Hv. induction Hbs as [|b bs [Hlen Hwf] _ IH]; intros v Hv; [done|].
  cbn [foldl fmap list_fmap]. rewrite compress_fips by done. apply IH, compress_is_hash.
Qed.

Lemma pad_wf m : bytes_wf m → bytes_wf (sha256_pad m).
Proof.
  intros Hm. unfold sha256_pad. rewrite !bytes_wf_app. split_and!; [done| |apply zeros_wf|apply be_bytes_wf].
  constructor; [|constructor]. unfold is_byte. lia.
Qed.

Lemma oneshot_fips m : bytes_wf m → sha256_oneshot m = FIPS.sha256 m.
Proof.
  intros Hm. pose proof (pad_wf m Hm) as Hwf. unfold sha256_oneshot, FIPS.sha256.
  rewrite <-pad_fips. set (p := sha256_pad m) in *.
  rewrite <-initial_state_fips. change p with (drop (64 * 0) p) at 2.
  rewrite sha256_parse_blocks_at, compress_blocks_fips.
  - rewrite <-list_fmap_compose. f_equal. apply list_fmap_ext. intros _ w _. apply word_bytes_fips.
  - unfold is_hash. rewrite initial_state_fips. unfold is_word. repeat constructor; lia.
  - apply Forall_fmap, Forall_forall. intros i [_ Hi]%elem_of_seq. cbn.
    pose proof (Nat.Div0.mul_div_le (length p) 64).
    split; [rewrite length_take, length_drop; lia|]. by apply Forall_take, Forall_drop.
Qed.

(** ** Properties *)

(** C21. The implementation of crypto.c (rotations by shifts, tables of
    constants, an in-place schedule and working array, a 64-byte staging block,
    an incremental bit counter, one- or two-block padding) computes, for every
    byte string of any length, the digest FIPS 180-4 defines: [FIPS.sha256] is
    written from the standard, bit by bit and with the constants computed from
    the roots of the primes, and shares no definition with the code. *)
Theorem sha256_matches_fips180 m : bytes_wf m → mp_cache_sha256 m = FIPS.sha256 m.
Proof. intros Hm. rewrite sha256_correct. by apply oneshot_fips. Qed.

Lemma sha256_matches_fips180_witness :
  mp_cache_sha256 [104; 101; 108; 108; 111] = FIPS.sha256 [104; 101; 108; 108; 111].
Proof. apply (sha256_matches_fips180 [104; 101; 108; 108; 111]). decide_now. Defined.

(** Feeding a message in two pieces, split anywhere, gives the digest of
    the whole: [mp_cache_sha256_update] is insensitive to how the input is cut. *)
Theorem sha256_update_split a b :
  mp_cache_sha256_final (mp_cache_sha256_update (mp_cache_sha256_update mp_cache_sha256_init a) b) =
  mp_cache_sha256 (a ++ b).
Proof. by rewrite sha256_two_updates, sha256_correct. Qed.

(** C22. [mp_cache_hmac_sha256] is HMAC of RFC 2104 over SHA-256 for keys of
    every length, long keys being hashed first. *)
Theorem hmac_matches_rfc2104 key m : mp_cache_hmac_sha256 key m = hmac_spec key m.
Proof. apply hmac_correct. Qed.

(** The constant-time comparison returns true exactly when the two
    fields agree on their first [n] bytes. *)
Theorem constant_time_equals_decides l r n :
  bytes_wf l → bytes_wf r → (n ≤ length l)%nat → (n ≤ length r)%nat →
  mp_cache_constant_time_equals l r n = true ↔ take n l = take n r.
Proof. intros. rewrite constant_time_equals_spec by done. apply bool_decide_eq_true. Qed.

Lemma constant_time_equals_decides_witness :
  mp_cache_constant_time_equals [1; 2] [1; 3] 2 = true ↔ take 2 [1; 2] = take 2 [1; 3].
Proof. apply (constant_time_equals_decides [1; 2] [1; 3] 2); vm_compute; try lia; repeat constructor; done. Defined.

(** The cipher xors byte [i] with byte [i mod 32] of the HMAC of the nonce
    and the 64-bit block counter [i / 32], over the whole buffer; applying it
    twice restores the buffer. *)
Theorem stream_xor_keystream key nonce data :
  length (mp_cache_stream_xor key nonce data) = length data ∧
  mp_cache_stream_xor key nonce (mp_cache_stream_xor key nonce data) = data ∧
  ∀ i, (i < length data)%nat →
    mp_cache_stream_xor key nonce data !!! i =
    Z.lxor (data !!! i)
      (mp_cache_hmac_sha256 key
         (stream_counter_block nonce (Nat.iter (i `div` 32) (fun c => u64 (c + 1)) 0)) !!! (i `mod` 32)%nat).
Proof.
  split_and!; [apply length_stream_xor|apply stream_xor_involutive|].
  intros i Hi. by apply stream_xor_loop_lookup.
Qed.

(** What is decoded are bytes. *)
Lemma put_byte_wf cap b out out' : put_byte cap (u8 b) out = Ret out' → bytes_wf out → bytes_wf out'.
Proof.
  unfold put_byte. case_decide; [|done]. intros [= <-] Hwf. apply bytes_wf_app. split; [done|].
  apply Forall_singleton, is_byte_u8.
Qed.

Lemma base64_decode_group_wf c0 c1 c2 c3 cap out out' :
  base64_decode_group c0 c1 c2 c3 cap out = Ret out' → bytes_wf out → bytes_wf out'.
Proof.
  unfold base64_decode_group, mbind, outcome_bind. case_decide; [done|]. case_decide; [done|].
  destruct (put_byte cap (u8 (_ ≫ 16)) out) as [o1|e|] eqn:H1; [|done..]. intros Hrest Hwf.
  pose proof (put_byte_wf _ _ _ _ H1 Hwf) as Hw1. destruct (decide (c2 = 61)).
  - destruct (decide (c3 = 61)); [by simplify_eq|by eapply put_byte_wf].
  - destruct (put_byte cap (u8 (_ ≫ 8)) o1) as [o2|e|] eqn:H2; [|done..].
    pose proof (put_byte_wf _ _ _ _ H2 Hw1) as Hw2. destruct (decide (c3 = 61)); [by simplify_eq|by eapply put_byte_wf].
Qed.

Lemma base64_decode_wf base64_text cap out : mp_cache_base64_decode base64_text cap = Ret out → bytes_wf out.
Proof.
  unfold mp_cache_base64_decode. case_decide; [done|]. assert (bytes_wf []) as Hnil by constructor. revert Hnil.
  generalize (@nil Z) as acc. clear H. induction base64_text as [[|c0 [|c1 [|c2 [|c3 rest]]]] IH] using (well_founded_ind (well_founded_ltof _ length));
    intros acc Hacc; cbn [base64_decode_loop]; [by intros [= <-]..|].
  unfold mbind, outcome_bind at 1. destruct (base64_decode_group c0 c1 c2 c3 cap acc) as [acc'|e|] eqn:Hg; [|done..].
  apply IH; [unfold ltof; cbn; lia|by eapply base64_decode_group_wf].
Qed.

(** The characters of an encoded text. *)
Definition base64_char (c : Z) : Prop := isalnum c = true ∨ c = 43 ∨ c = 47 ∨ c = 61.
#[export] Instance base64_char_dec c : Decision (base64_char c).
Proof. unfold base64_char. apply _. Defined.

Lemma base64_encode_group_chars group : Forall base64_char (base64_encode_group group).
Proof.
  assert (∀ n, base64_char (base64_alphabet !!! Z.to_nat (Z.land n 0x3f))) as Hd.
  { intros n. assert (Forall base64_char base64_alphabet) as Ha by (decide_now).
    apply (Forall_lookup_total_1 _ _ _ Ha). change (length base64_alphabet) with 64%nat.
    pose proof (Z.land_ones n 6 ltac:(lia)) as Hl. change (Z.ones 6) with 0x3f in Hl. rewrite Hl.
    pose proof (Z.mod_pos_bound n (2 ^ 6) ltac:(lia)). lia. }
  assert (base64_char 61) by (unfold base64_char; tauto).
  unfold base64_encode_group. repeat apply Forall_cons_2; [apply Hd..| | |constructor]; by case_decide.
Qed.

Lemma base64_encode_chars l : Forall base64_char (base64_encode_loop l).
Proof.
  remember (length l) as n eqn:Hn. assert (length l ≤ n)%nat as Hle by lia. clear Hn. revert l Hle.
  induction n as [|n IH]; intros [|a [|b [|c l]]] Hle; cbn [length] in Hle; [constructor|lia..|constructor| | |];
    [apply (base64_encode_group_chars [a])|apply (base64_encode_group_chars [a; b])|].
  change (base64_encode_loop (a :: b :: c :: l)) with (base64_encode_group [a; b; c] ++ base64_encode_loop l).
  apply Forall_app_2; [apply base64_encode_group_chars|apply IH; lia].
Qed.

Lemma base64_encode_fits l : zlen l < 2 ^ 60 →
  mp_cache_base64_encode l ((zlen l + 2) `div` 3 * 4 + 1) = Ret (base64_encode_loop l).
Proof.
  intros Hlen. pose proof (zlen_nonneg l). unfold mp_cache_base64_encode.
  rewrite (u64_small (zlen l + 2)) by lia. rewrite (u64_small (_ * 4)) by zlia.
  rewrite u64_small by zlia. by rewrite decide_False by lia.
Qed.

Lemma base64_decode_encoded l cap : bytes_wf l → zlen l ≤ cap < 2 ^ 64 →
  mp_cache_base64_decode (base64_encode_loop l) cap = Ret l.
Proof.
  intros Hwf Hcap. unfold mp_cache_base64_decode. rewrite length_base64_encode_loop, decide_False by zlia.
  apply (base64_loop_roundtrip l cap []); [done|lia|]. change (zlen (@nil Z)) with 0. lia.
Qed.

(** C39. Encoding a byte string as Base64 succeeds in the buffer the callers
    allocate, produces exactly the announced number of characters, and decoding
    the text into any buffer that can hold the bytes gives the bytes back. *)
Theorem base64_roundtrip l cap :
  bytes_wf l → zlen l < 2 ^ 60 → zlen l ≤ cap < 2 ^ 64 →
  ∃ text, mp_cache_base64_encode l ((zlen l + 2) `div` 3 * 4 + 1) = Ret text ∧
    zlen text = (zlen l + 2) `div` 3 * 4 ∧ mp_cache_base64_decode text cap = Ret l.
Proof.
  intros Hwf Hlen Hcap. exists (base64_encode_loop l). split; [by apply base64_encode_fits|].
  split; [apply length_base64_encode_loop|by apply base64_decode_encoded].
Qed.

Lemma base64_roundtrip_witness :
  ∃ text, mp_cache_base64_encode [1; 255] ((2 + 2) `div` 3 * 4 + 1) = Ret text ∧
    zlen text = (2 + 2) `div` 3 * 4 ∧ mp_cache_base64_decode text 2 = Ret [1; 255].
Proof.
  apply (base64_roundtrip [1; 255] 2); [repeat constructor; done|done|vm_compute; split; [discriminate|reflexivity]].
Defined.

(** C40. Decoding any text into a buffer with three bytes per four characters
    (the size the PUT handler allocates) never writes outside the buffer. *)
Theorem base64_decode_no_overrun text cap :
  zlen text `div` 4 * 3 ≤ cap →
  match mp_cache_base64_decode text cap with
  | Ret out => zlen out ≤ cap
  | Fail _ => True
  | Stuck => False
  end.
Proof.
  intros Hcap. unfold mp_cache_base64_decode. case_decide; [done|].
  pose proof (base64_decode_loop_safe text cap []) as Hs.
  change (zlen (@nil Z)) with 0 in Hs. specialize (Hs ltac:(lia)).
  destruct (base64_decode_loop text cap []); try done. lia.
Qed.

Lemma base64_decode_no_overrun_witness :
  match mp_cache_base64_decode (cstr "A===") 3 with Ret out => zlen out ≤ 3 | Fail _ => True | Stuck => False end.
Proof. apply (base64_decode_no_overrun (cstr "A===") 3). vm_compute. discriminate. Defined.

(** The decoder's own capacity check does not protect a smaller buffer:
    a group with three padding characters still writes one byte, here past the
    end of an empty buffer. *)
Theorem base64_decode_capacity_gap :
  mp_cache_base64_decode (cstr "A===") 0 = Stuck.
Proof. vm_compute. reflexivity. Qed.

(** Hex text of a byte string (as issued for tokens) has two characters
    per byte and decodes back to the bytes. *)
Theorem hex_roundtrip l cap :
  bytes_wf l → zlen l < 2 ^ 60 → zlen l ≤ cap →
  ∃ text, mp_cache_hex_encode l (zlen l * 2 + 1) = Ret text ∧
    zlen text = zlen l * 2 ∧ mp_cache_hex_decode text cap = Ret l.
Proof.
  intros Hwf Hlen Hcap. pose proof (zlen_nonneg l).
  destruct (mp_cache_hex_encode l (zlen l * 2 + 1)) as [text| |] eqn:E.
  2,3: unfold mp_cache_hex_encode in E; rewrite u64_small, decide_False in E by lia; done.
  exists text. split; [done|]. pose proof (hex_encode_length _ _ _ E) as Htl.
  assert (zlen text = zlen l * 2) as Hz by (unfold zlen; lia). split; [done|].
  unfold mp_cache_hex_encode in E. rewrite u64_small, decide_False in E by lia. injection E as <-.
  unfold mp_cache_hex_decode. rewrite Hz, decide_False by zlia. by apply hex_decode_encode.
Qed.

Lemma hex_roundtrip_witness :
  ∃ text, mp_cache_hex_encode [0; 171] (2 * 2 + 1) = Ret text ∧
    zlen text = 2 * 2 ∧ mp_cache_hex_decode text 2 = Ret [0; 171].
Proof. apply (hex_roundtrip [0; 171] 2); [repeat constructor; done|done|vm_compute; discriminate]. Defined.
