(* ===== verification/Config.v ===== *)
(** * Config: internal/config/config.h, internal/config/config.c

    The resolved bootstrap configuration. The C struct has 24 bounded text
    fields and 21 unsigned integer fields; the model names the fields by two
    enumerations and the struct is a record of the two families of values, so
    that assigning one field is one function update. *)

From stdpp Require Import base numbers strings option gmap list.
From S2P Require Import Prelude.
Local Open Scope Z_scope.

Inductive text_field :=
| service_name | environment_name | build_version | socket_path | pid_file_path
| data_directory | export_directory | checkpoint_path | journal_path | log_directory
| logger_bootstrap_path | logger_format | logger_file_name_prefix | logger_backup_file_name_prefix
| logger_active_streams | logger_stdout_min_level | logger_stdout_max_level
| logger_stderr_min_level | logger_stderr_max_level | logger_file_min_level | logger_file_max_level
| logger_udp_min_level | logger_udp_max_level | logger_udp_host
| bootstrap_admin_token_secret_ref | storage_key_secret_ref.

Inductive num_field :=
| memory_limit_bytes | default_ttl_seconds | min_ttl_seconds | max_ttl_seconds
| max_key_bytes | max_value_bytes | bucket_count | max_export_files | shutdown_timeout_millis
| sweep_interval_seconds | max_log_lines | logger_buffer_capacity | logger_message_capacity
| logger_context_capacity | logger_field_capacity | logger_field_key_capacity
| logger_field_value_capacity | logger_pretty_output | logger_udp_port
| rate_limit_requests | rate_limit_window_seconds.

#[export] Instance text_field_eq_dec : EqDecision text_field.
Proof. solve_decision. Defined.
#[export] Instance num_field_eq_dec : EqDecision num_field.
Proof. solve_decision. Defined.

Record mp_cache_config_t := Config {
  text : text_field → bytes;
  num : num_field → Z;
}.

(** The sizes of the text fields, from constants.h. *)
Definition MP_CACHE_TEXT_CAP : nat := 128.
Definition MP_CACHE_NAME_CAP : nat := 64.
Definition MP_CACHE_SECRET_REF_CAP : nat := 256.
Definition text_cap (f : text_field) : nat :=
  match f with
  | service_name | logger_file_name_prefix | logger_backup_file_name_prefix => MP_CACHE_NAME_CAP
  | socket_path | pid_file_path | data_directory | export_directory | checkpoint_path | journal_path
  | log_directory | logger_bootstrap_path => Z.to_nat 4096
  | bootstrap_admin_token_secret_ref | storage_key_secret_ref => MP_CACHE_SECRET_REF_CAP
  | _ => MP_CACHE_TEXT_CAP
  end.

(** The largest value of the integer type of a field. *)
Definition num_max (f : num_field) : Z :=
  match f with memory_limit_bytes => 2 ^ 64 - 1 | _ => 2 ^ 32 - 1 end.
