(* ===== verification/Cache.v ===== *)
(** * Cache: internal/cache/cache.h, internal/cache/cache.c

    The bounded chained hash table. A bucket is the list of its chain; a slot
    pointer ([mp_cache_entry_t **]) is a bucket index with a position in the
    chain, the position after the last entry being the terminating NULL. A key
    or value with its length is a list of bytes. [size_t] arithmetic wraps at
    64 bits. Struct pointers are never NULL (every caller passes the address
    of an object); a NULL key or value is [None].

    The refinement theorems relate the table to the finite map [store_map]
    from keys to (value, expiry) pairs. *)

From stdpp Require Import base numbers strings option gmap list.
From S2P Require Import Prelude Config.
Local Open Scope Z_scope.

(** ** Data *)

Record mp_cache_entry := Entry {
  entry_key : bytes;
  entry_value : bytes;
  expires_at_utc_seconds : Z;
}.

Record mp_cache_store_t := Store {
  buckets : list (list mp_cache_entry);
  store_bucket_count : Z;
  entry_count : Z;
  bytes_used : Z;
  store_memory_limit : Z;
  store_max_key : Z;
  store_max_value : Z;
}.

Record mp_cache_store_stats_t := StoreStats {
  stats_entry_count : Z;
  stats_bytes_used : Z;
  stats_memory_limit : Z;
}.

Inductive mp_cache_store_status_t :=
| MP_CACHE_STORE_STATUS_OK
| MP_CACHE_STORE_STATUS_NOT_FOUND
| MP_CACHE_STORE_STATUS_EXPIRED
| MP_CACHE_STORE_STATUS_INVALID_ARGUMENT
| MP_CACHE_STORE_STATUS_LIMIT_EXCEEDED
| MP_CACHE_STORE_STATUS_NO_MEMORY.

#[export] Instance mp_cache_entry_eq_dec : EqDecision mp_cache_entry.
Proof. solve_decision. Defined.
#[export] Instance mp_cache_store_status_eq_dec : EqDecision mp_cache_store_status_t.
Proof. solve_decision. Defined.

(** ** Operations *)

(** FNV-1a with 64-bit wrap-around. *)
Definition mp_cache_hash_bytes (key : bytes) : Z :=
  foldl (fun hash b => u64 (Z.lxor hash b * 1099511628211)) 1469598103934665603 key.

(** [sizeof (mp_cache_entry_t)] on LP64: six 8-byte fields. *)
Definition sizeof_entry : Z := 48.

Definition mp_cache_entry_cost (entry : option mp_cache_entry) : Z :=
  match entry with
  | None => 0
  | Some e => u64 (sizeof_entry + zlen (entry_key e) + 1 + zlen (entry_value e))
  end.

(** Position of the entry for [key] in a chain, or of the final NULL. *)
Fixpoint chain_position (chain : list mp_cache_entry) (key : bytes) : nat :=
  match chain with
  | [] => 0
  | e :: chain' => if decide (entry_key e = key) then 0 else S (chain_position chain' key)
  end.

Definition bucket_index (store : mp_cache_store_t) (key : bytes) : nat :=
  Z.to_nat (mp_cache_hash_bytes key `mod` store_bucket_count store).

Definition mp_cache_find_slot (store : mp_cache_store_t) (key : bytes) : nat * nat :=
  let i := bucket_index store key in (i, chain_position (buckets store !!! i) key).

(** [*slot] *)
Definition slot_read (store : mp_cache_store_t) (slot : nat * nat) : option mp_cache_entry :=
  (buckets store !!! slot.1) !! slot.2.

(** The store after the chain of the slot's bucket, the entry counter and the
    byte counter have been written. *)
Definition slot_update (store : mp_cache_store_t) (slot : nat * nat)
    (f : list mp_cache_entry → list mp_cache_entry) (count used : Z) : mp_cache_store_t :=
  Store (<[slot.1 := f (buckets store !!! slot.1)]> (buckets store)) (store_bucket_count store)
    count used (store_memory_limit store) (store_max_key store) (store_max_value store).

Definition mp_cache_store_write_entry (store : mp_cache_store_t) (cache_key cache_value : option bytes)
    (expires_at : Z) : ST heap (mp_cache_store_status_t * mp_cache_store_t) :=
  match cache_key, cache_value with
  | Some key, Some value =>
    if decide (zlen key = 0 ∨ store_max_key store < zlen key ∨ store_max_value store < zlen value)
    then mret (MP_CACHE_STORE_STATUS_LIMIT_EXCEEDED, store) else
    let slot := mp_cache_find_slot store key in
    let entry := slot_read store slot in
    let previous_cost := mp_cache_entry_cost entry in
    let next_cost := u64 (sizeof_entry + zlen key + 1 + zlen value) in
    let projected := u64 (u64 (bytes_used store - previous_cost) + next_cost) in
    if decide (store_memory_limit store < projected)
    then mret (MP_CACHE_STORE_STATUS_LIMIT_EXCEEDED, store) else
    key_copy ← alloc;
    value_copy ← alloc;
    if decide (key_copy = false ∨ value_copy = false)
    then mret (MP_CACHE_STORE_STATUS_NO_MEMORY, store) else
    match entry with
    | None =>
      node ← alloc;
      if (node : bool) then
        mret (MP_CACHE_STORE_STATUS_OK,
              slot_update store slot (fun chain => chain ++ [Entry key value expires_at])
                (u64 (entry_count store + 1)) projected)
      else mret (MP_CACHE_STORE_STATUS_NO_MEMORY, store)
    | Some _ =>
      mret (MP_CACHE_STORE_STATUS_OK,
            slot_update store slot (fun chain => <[slot.2 := Entry key value expires_at]> chain)
              (entry_count store) projected)
    end
  | _, _ => mret (MP_CACHE_STORE_STATUS_INVALID_ARGUMENT, store)
  end.

(** [calloc] of the buckets may fail; a failed init returns no store. *)
Definition mp_cache_store_init (config : mp_cache_config_t) : ST heap (option mp_cache_store_t) :=
  if decide (num config bucket_count = 0) then mret None else
  ok ← alloc;
  if (ok : bool) then
    mret (Some (Store (replicate (Z.to_nat (num config bucket_count)) []) (num config bucket_count)
                  0 0 (num config memory_limit_bytes) (num config max_key_bytes)
                  (num config max_value_bytes)))
  else mret None.

(** Every entry is freed and the struct is zeroed. *)
Definition mp_cache_store_destroy (store : mp_cache_store_t) : mp_cache_store_t :=
  Store [] 0 0 0 0 0 0.

(** The expiry time is a sum of an [int64_t] clock and a [uint32_t] lifetime; it
    is an integer here, and the theorems about the service keep the clock below
    2^62, where the sum fits its type ([svc_set_spec], [expiry_ok]). *)
Definition mp_cache_store_set (store : mp_cache_store_t) (cache_key cache_value : option bytes)
    (ttl_seconds now_utc_seconds : Z) : ST heap (mp_cache_store_status_t * mp_cache_store_t) :=
  match cache_key, cache_value with
  | Some key, Some value =>
    if decide (ttl_seconds = 0) then mret (MP_CACHE_STORE_STATUS_INVALID_ARGUMENT, store)
    else mp_cache_store_write_entry store cache_key cache_value (now_utc_seconds + ttl_seconds)
  | _, _ => mret (MP_CACHE_STORE_STATUS_INVALID_ARGUMENT, store)
  end.

(** [*slot = entry->next], with the counters reduced by the entry. *)
Definition slot_unlink (store : mp_cache_store_t) (slot : nat * nat) (entry : mp_cache_entry)
    : mp_cache_store_t :=
  slot_update store slot (delete slot.2) (u64 (entry_count store - 1))
    (u64 (bytes_used store - mp_cache_entry_cost (Some entry))).

(** On success the copied value and the expiry come with the status. *)
Definition mp_cache_store_get_copy (store : mp_cache_store_t) (cache_key : option bytes)
    (now_utc_seconds : Z)
    : ST heap (mp_cache_store_status_t * option (bytes * Z) * mp_cache_store_t) :=
  match cache_key with
  | None => mret (MP_CACHE_STORE_STATUS_INVALID_ARGUMENT, None, store)
  | Some key =>
    let slot := mp_cache_find_slot store key in
    match slot_read store slot with
    | None => mret (MP_CACHE_STORE_STATUS_NOT_FOUND, None, store)
    | Some entry =>
      if decide (expires_at_utc_seconds entry ≤ now_utc_seconds)
      then mret (MP_CACHE_STORE_STATUS_EXPIRED, None, slot_unlink store slot entry) else
      value_copy ← alloc;
      if (value_copy : bool) then
        mret (MP_CACHE_STORE_STATUS_OK,
              Some (entry_value entry, expires_at_utc_seconds entry), store)
      else mret (MP_CACHE_STORE_STATUS_NO_MEMORY, None, store)
    end
  end.

Definition mp_cache_store_delete (store : mp_cache_store_t) (cache_key : option bytes)
    : mp_cache_store_status_t * mp_cache_store_t :=
  match cache_key with
  | None => (MP_CACHE_STORE_STATUS_INVALID_ARGUMENT, store)
  | Some key =>
    let slot := mp_cache_find_slot store key in
    match slot_read store slot with
    | None => (MP_CACHE_STORE_STATUS_NOT_FOUND, store)
    | Some entry => (MP_CACHE_STORE_STATUS_OK, slot_unlink store slot entry)
    end
  end.

Definition mp_cache_store_restore_entry (store : mp_cache_store_t) (cache_key cache_value : option bytes)
    (expires_at : Z) : ST heap (mp_cache_store_status_t * mp_cache_store_t) :=
  if decide (expires_at ≤ 0) then mret (MP_CACHE_STORE_STATUS_INVALID_ARGUMENT, store)
  else mp_cache_store_write_entry store cache_key cache_value expires_at.

Definition mp_cache_store_clear (store : mp_cache_store_t) : mp_cache_store_t :=
  Store ((fun _ => []) <$> buckets store) (store_bucket_count store) 0 0
    (store_memory_limit store) (store_max_key store) (store_max_value store).

(** The inner loop of the purge over one chain: what stays, the byte and
    entry counters and the number removed. *)
Fixpoint purge_chain (now_utc_seconds : Z) (chain : list mp_cache_entry) (used count removed : Z)
    : list mp_cache_entry * Z * Z * Z :=
  match chain with
  | [] => ([], used, count, removed)
  | e :: chain' =>
    if decide (now_utc_seconds < expires_at_utc_seconds e) then
      let '(kept, used', count', removed') := purge_chain now_utc_seconds chain' used count removed in
      (e :: kept, used', count', removed')
    else purge_chain now_utc_seconds chain' (u64 (used - mp_cache_entry_cost (Some e)))
           (u64 (count - 1)) (u64 (removed + 1))
  end.

(** The outer loop over the buckets. *)
Fixpoint purge_buckets (now_utc_seconds : Z) (bs : list (list mp_cache_entry)) (used count removed : Z)
    : list (list mp_cache_entry) * Z * Z * Z :=
  match bs with
  | [] => ([], used, count, removed)
  | chain :: bs' =>
    let '(kept, used1, count1, removed1) := purge_chain now_utc_seconds chain used count removed in
    let '(bs2, used2, count2, removed2) := purge_buckets now_utc_seconds bs' used1 count1 removed1 in
    (kept :: bs2, used2, count2, removed2)
  end.

Definition mp_cache_store_purge_expired (store : mp_cache_store_t) (now_utc_seconds : Z)
    : Z * mp_cache_store_t :=
  let '(bs, used, count, removed) :=
    purge_buckets now_utc_seconds (buckets store) (bytes_used store) (entry_count store) 0 in
  (removed, Store bs (store_bucket_count store) count used (store_memory_limit store)
              (store_max_key store) (store_max_value store)).

(** The visitor threads its context [C] and stops the walk by returning
    non-zero; the walk then returns -1. *)
Fixpoint for_each_entries {C} (visit : mp_cache_entry → C → Z * C) (es : list mp_cache_entry) (c : C)
    : Z * C :=
  match es with
  | [] => (0, c)
  | e :: es' =>
    let '(r, c') := visit e c in
    if decide (r = 0) then for_each_entries visit es' c' else (-1, c')
  end.

Definition mp_cache_store_for_each {C} (store : mp_cache_store_t)
    (visit : mp_cache_entry → C → Z * C) (context : C) : Z * C :=
  for_each_entries visit (mjoin (buckets store)) context.

Definition mp_cache_store_get_stats (store : mp_cache_store_t) : mp_cache_store_stats_t :=
  StoreStats (entry_count store) (bytes_used store) (store_memory_limit store).

Definition mp_cache_store_status_name (status : mp_cache_store_status_t) : bytes :=
  match status with
  | MP_CACHE_STORE_STATUS_OK => cstr "OK"
  | MP_CACHE_STORE_STATUS_NOT_FOUND => cstr "NOT_FOUND"
  | MP_CACHE_STORE_STATUS_EXPIRED => cstr "EXPIRED"
  | MP_CACHE_STORE_STATUS_INVALID_ARGUMENT => cstr "INVALID_ARGUMENT"
  | MP_CACHE_STORE_STATUS_LIMIT_EXCEEDED => cstr "LIMIT_EXCEEDED"
  | MP_CACHE_STORE_STATUS_NO_MEMORY => cstr "NO_MEMORY"
  end.

(** ** The abstract cache and the representation invariant *)

(** The entries in the order the table is walked. *)
Definition entries (store : mp_cache_store_t) : list mp_cache_entry := mjoin (buckets store).

Definition entry_binding (e : mp_cache_entry) : bytes * (bytes * Z) :=
  (entry_key e, (entry_value e, expires_at_utc_seconds e)).

(** What the cache means to its clients: a finite map. *)
Definition store_map (store : mp_cache_store_t) : gmap bytes (bytes * Z) :=
  list_to_map (entry_binding <$> entries store).

(** The bytes charged to one binding, without wrap-around. *)
Definition binding_cost (kv : bytes * (bytes * Z)) : Z := sizeof_entry + zlen kv.1 + 1 + zlen kv.2.1.
Definition map_cost (m : gmap bytes (bytes * Z)) : Z := sumZ (binding_cost <$> map_to_list m).

Definition entry_sizes_ok (store : mp_cache_store_t) (e : mp_cache_entry) : Prop :=
  0 < zlen (entry_key e) ≤ store_max_key store ∧ zlen (entry_value e) ≤ store_max_value store.

(** The bounds a store is configured with: [uint32_t] sizes, and a memory
    limit that leaves room for one entry below the top of [size_t]. *)
Record limits_ok (store : mp_cache_store_t) : Prop := {
  lim_buckets : 0 < store_bucket_count store;
  lim_key : 0 ≤ store_max_key store < 2 ^ 32;
  lim_value : 0 ≤ store_max_value store < 2 ^ 32;
  lim_memory : 0 ≤ store_memory_limit store < 2 ^ 63;
}.

Record store_wf (store : mp_cache_store_t) : Prop := {
  wf_limits : limits_ok store;
  wf_length : length (buckets store) = Z.to_nat (store_bucket_count store);
  wf_hashed : ∀ i chain e, buckets store !! i = Some chain → e ∈ chain →
    bucket_index store (entry_key e) = i;
  wf_nodup : NoDup (entry_key <$> entries store);
  wf_sizes : Forall (entry_sizes_ok store) (entries store);
  wf_count : entry_count store = zlen (entries store);
  wf_used : bytes_used store = sumZ (binding_cost ∘ entry_binding <$> entries store);
  wf_limit : bytes_used store ≤ store_memory_limit store;
}.

(** ** The table as a list of entries *)

Lemma binding_cost_pos kv : sizeof_entry < binding_cost kv.
Proof.
  unfold binding_cost. pose proof (zlen_nonneg kv.1). pose proof (zlen_nonneg kv.2.1). lia.
Qed.

Lemma entry_cost_exact store e :
  limits_ok store → entry_sizes_ok store e →
  mp_cache_entry_cost (Some e) = binding_cost (entry_binding e).
Proof.
  intros [_ ? ? _] [? ?]. unfold mp_cache_entry_cost, binding_cost, entry_binding; simpl.
  unfold sizeof_entry. apply u64_small.
  pose proof (zlen_nonneg (entry_key e)). pose proof (zlen_nonneg (entry_value e)). lia.
Qed.

Lemma sum_costs_nonneg es : 0 ≤ sumZ (binding_cost ∘ entry_binding <$> es).
Proof.
  apply sumZ_nonneg, Forall_fmap, Forall_true. intros e. simpl.
  pose proof (binding_cost_pos (entry_binding e)). unfold sizeof_entry in *. lia.
Qed.

(** The number of entries is bounded by the bytes they are charged. *)
Lemma sum_costs_length es : sizeof_entry * zlen es ≤ sumZ (binding_cost ∘ entry_binding <$> es).
Proof.
  induction es as [|e es IH]; [done|]. rewrite zlen_cons, fmap_cons, sumZ_cons.
  pose proof (binding_cost_pos (entry_binding e)). unfold compose, sizeof_entry in *. lia.
Qed.

Lemma bucket_index_lt store key :
  store_wf store → (bucket_index store key < length (buckets store))%nat.
Proof.
  intros Hwf. destruct (wf_limits _ Hwf). rewrite (wf_length _ Hwf). unfold bucket_index.
  pose proof (Z.mod_pos_bound (mp_cache_hash_bytes key) (store_bucket_count store)). lia.
Qed.

Lemma mjoin_split {A} (bs : list (list A)) i c :
  bs !! i = Some c → mjoin bs = mjoin (take i bs) ++ c ++ mjoin (drop (S i) bs).
Proof.
  intros Hi. rewrite <-(take_drop_middle bs i c Hi) at 1.
  by rewrite join_app.
Qed.

Lemma mjoin_insert {A} (bs : list (list A)) i c d :
  bs !! i = Some c → mjoin (<[i := d]> bs) = mjoin (take i bs) ++ d ++ mjoin (drop (S i) bs).
Proof.
  intros Hi. pose proof (lookup_lt_Some _ _ _ Hi).
  rewrite (mjoin_split _ i d) by by rewrite list_lookup_insert_eq.
  by rewrite take_insert_ge, drop_insert_lt by lia.
Qed.

Lemma chain_position_spec chain key :
  match chain !! (chain_position chain key) with
  | Some e => entry_key e = key ∧
      ∃ l1 l2, chain = l1 ++ e :: l2 ∧ chain_position chain key = length l1
  | None => (key ∉ (entry_key <$> chain)) ∧ chain_position chain key = length chain
  end.
Proof.
  induction chain as [|e chain IH]; simpl; [split; [set_solver|done]|].
  case_decide as Hk; simpl; [by split; [|exists [], chain]|].
  destruct (chain !! _) as [e'|].
  - destruct IH as (? & l1 & l2 & -> & ->). split; [done|]. by exists (e :: l1), l2.
  - destruct IH as [? ->]. split; [|done]. rewrite not_elem_of_cons. by split; [congruence|].
Qed.

Lemma bucket_lookup store key :
  store_wf store →
  buckets store !! bucket_index store key = Some (buckets store !!! bucket_index store key).
Proof. intros. by apply list_lookup_lookup_total_lt, bucket_index_lt. Qed.

(** The walk of the table after the chain of [key]'s bucket has changed. *)
Lemma entries_slot_update store key f count used :
  store_wf store →
  let bs := buckets store in let i := bucket_index store key in
  entries store = mjoin (take i bs) ++ (bs !!! i) ++ mjoin (drop (S i) bs) ∧
  entries (slot_update store (mp_cache_find_slot store key) f count used) =
    mjoin (take i bs) ++ f (bs !!! i) ++ mjoin (drop (S i) bs).
Proof.
  intros Hwf bs i. pose proof (bucket_lookup store key Hwf) as Hi. split.
  - by apply mjoin_split.
  - by eapply mjoin_insert.
Qed.

(** An entry is only ever in the chain its key hashes to. *)
Lemma in_entries_chain store e :
  store_wf store → e ∈ entries store → e ∈ (buckets store !!! bucket_index store (entry_key e)).
Proof.
  intros Hwf (chain & He & [i Hi]%list_elem_of_lookup_1)%list_elem_of_join.
  pose proof (wf_hashed _ Hwf _ _ _ Hi He) as ->.
  by rewrite (list_lookup_total_correct _ _ _ Hi).
Qed.

Lemma find_slot_found store key e :
  store_wf store → slot_read store (mp_cache_find_slot store key) = Some e →
  entry_key e = key ∧ ∃ l1 l2, entries store = l1 ++ e :: l2 ∧
    (∀ e' count used, entries (slot_update store (mp_cache_find_slot store key)
       (<[(mp_cache_find_slot store key).2 := e']>) count used) = l1 ++ e' :: l2) ∧
    (∀ count used, entries (slot_update store (mp_cache_find_slot store key)
       (delete (mp_cache_find_slot store key).2) count used) = l1 ++ l2).
Proof.
  intros Hwf Hread. unfold slot_read, mp_cache_find_slot in Hread. simpl in Hread.
  pose proof (chain_position_spec (buckets store !!! bucket_index store key) key) as Hpos.
  rewrite Hread in Hpos. destruct Hpos as (Hk & c1 & c2 & Hc & Hn). split; [done|].
  destruct (entries_slot_update store key id 0 0 Hwf) as [He _].
  exists (mjoin (take (bucket_index store key) (buckets store)) ++ c1),
    (c2 ++ mjoin (drop (S (bucket_index store key)) (buckets store))). split; [|split].
  - rewrite He, Hc, <-!app_assoc. done.
  - intros e' count used. destruct (entries_slot_update store key
      (<[(mp_cache_find_slot store key).2:=e']>) count used Hwf) as [_ ->].
    simpl. rewrite Hn, Hc. rewrite insert_app_r_alt, Nat.sub_diag by lia. simpl.
    by rewrite <-!app_assoc.
  - intros count used. destruct (entries_slot_update store key
      (delete (mp_cache_find_slot store key).2) count used Hwf) as [_ ->].
    simpl. rewrite Hn, Hc, delete_middle. by rewrite <-!app_assoc.
Qed.

Lemma find_slot_missing store key :
  store_wf store → slot_read store (mp_cache_find_slot store key) = None →
  (key ∉ (entry_key <$> entries store)) ∧ ∃ l1 l2, entries store = l1 ++ l2 ∧
    (∀ e' count used, entries (slot_update store (mp_cache_find_slot store key)
       (fun chain => chain ++ [e']) count used) = l1 ++ e' :: l2).
Proof.
  intros Hwf Hread. unfold slot_read, mp_cache_find_slot in Hread. simpl in Hread.
  pose proof (chain_position_spec (buckets store !!! bucket_index store key) key) as Hpos.
  rewrite Hread in Hpos. destruct Hpos as [Hk _]. split.
  - intros (e & -> & He)%list_elem_of_fmap. apply Hk, list_elem_of_fmap.
    exists e. split; [done|]. by apply in_entries_chain.
  - destruct (entries_slot_update store key id 0 0 Hwf) as [He _]. rewrite app_assoc in He.
    eexists _, _. split; [exact He|]. intros e' count used.
    destruct (entries_slot_update store key (fun chain => chain ++ [e']) count used Hwf) as [_ ->].
    by rewrite <-!app_assoc.
Qed.

(** A new chain of entries of the old one or for [key], with exact counters,
    keeps the invariant. *)
Lemma slot_update_wf store key f count used :
  let store' := slot_update store (mp_cache_find_slot store key) f count used in
  store_wf store →
  (∀ e, e ∈ f (buckets store !!! bucket_index store key) →
     e ∈ (buckets store !!! bucket_index store key) ∨ entry_key e = key) →
  NoDup (entry_key <$> entries store') → Forall (entry_sizes_ok store) (entries store') →
  count = zlen (entries store') →
  used = sumZ (binding_cost ∘ entry_binding <$> entries store') →
  used ≤ store_memory_limit store → store_wf store'.
Proof.
  intros store' Hwf Hf Hnd Hsz Hc Hu Hl. split; try done.
  - by destruct (wf_limits _ Hwf).
  - simpl. rewrite length_insert. apply (wf_length _ Hwf).
  - intros i chain e Hi He. change (bucket_index store (entry_key e) = i).
    simpl in Hi. apply list_lookup_insert_Some in Hi as [(<- & <- & _)|[_ Hi]].
    + apply Hf in He as [He| ->]; [|done].
      eapply (wf_hashed _ Hwf); [|done]. by apply bucket_lookup.
    + by eapply (wf_hashed _ Hwf).
Qed.

(** ** The list of entries as a map *)

Lemma bindings_keys es : (entry_binding <$> es).*1 = entry_key <$> es.
Proof. rewrite <-list_fmap_compose. by apply list_fmap_ext. Qed.

(** The map of a list of entries with distinct keys, around one of them. *)
Lemma map_middle l1 e l2 :
  NoDup (entry_key <$> l1 ++ e :: l2) →
  list_to_map (entry_binding <$> l1 ++ e :: l2) =
    (<[entry_key e := (entry_value e, expires_at_utc_seconds e)]>
       (list_to_map (entry_binding <$> l1 ++ l2)) : gmap bytes (bytes * Z)).
Proof.
  intros Hnd. rewrite <-bindings_keys in Hnd.
  rewrite (list_to_map_proper _ (entry_binding <$> e :: l1 ++ l2)); [done|done|].
  apply fmap_Permutation. by rewrite Permutation_middle.
Qed.

Lemma map_absent (es : list mp_cache_entry) key :
  key ∉ (entry_key <$> es) →
  (list_to_map (entry_binding <$> es) : gmap bytes (bytes * Z)) !! key = None.
Proof. intros. apply not_elem_of_list_to_map_1. by rewrite bindings_keys. Qed.

(** Removing, adding and replacing one entry keep the keys distinct. *)
Lemma nodup_middle {A} (l1 : list A) x l2 : NoDup (l1 ++ x :: l2) ↔ (x ∉ l1 ++ l2) ∧ NoDup (l1 ++ l2).
Proof. by rewrite <-Permutation_middle, NoDup_cons. Qed.

Lemma nodup_keys_middle l1 e l2 :
  NoDup (entry_key <$> l1 ++ e :: l2) ↔
  (entry_key e ∉ (entry_key <$> l1 ++ l2)) ∧ NoDup (entry_key <$> l1 ++ l2).
Proof. rewrite !fmap_app, fmap_cons. apply nodup_middle. Qed.

Lemma map_cost_list (es : list mp_cache_entry) :
  NoDup (entry_key <$> es) →
  map_cost (list_to_map (entry_binding <$> es)) = sumZ (binding_cost ∘ entry_binding <$> es).
Proof.
  intros Hnd. unfold map_cost. rewrite list_fmap_compose. apply sumZ_perm, fmap_Permutation.
  apply map_to_list_to_map. by rewrite bindings_keys.
Qed.

Lemma sum_costs_middle l1 e l2 :
  sumZ (binding_cost ∘ entry_binding <$> l1 ++ e :: l2) =
  binding_cost (entry_binding e) + sumZ (binding_cost ∘ entry_binding <$> l1 ++ l2).
Proof. rewrite !fmap_app, fmap_cons, !sumZ_app, sumZ_cons. unfold compose. lia. Qed.

Lemma forall_middle {A} (P : A → Prop) l1 x l2 :
  Forall P (l1 ++ x :: l2) ↔ P x ∧ Forall P (l1 ++ l2).
Proof. rewrite !Forall_app, Forall_cons. tauto. Qed.

(** The byte counter is the cost of the abstract map. *)
Lemma bytes_used_map store : store_wf store → bytes_used store = map_cost (store_map store).
Proof. intros Hwf. unfold store_map. rewrite map_cost_list; apply Hwf. Qed.

(** ** Looking up *)

(** [find_slot] finds exactly the binding of the map. *)
Lemma slot_read_map store key :
  store_wf store →
  store_map store !! key =
    (fun e => (entry_value e, expires_at_utc_seconds e)) <$>
      slot_read store (mp_cache_find_slot store key).
Proof.
  intros Hwf. destruct (slot_read _ _) as [e|] eqn:Hread; simpl.
  - destruct (find_slot_found _ _ _ Hwf Hread) as (<- & l1 & l2 & He & _).
    pose proof (wf_nodup _ Hwf) as Hnd. unfold store_map. rewrite He in *.
    by rewrite map_middle, lookup_insert_eq.
  - destruct (find_slot_missing _ _ Hwf Hread) as [Hk _]. by apply map_absent.
Qed.

Lemma slot_read_none store key :
  store_wf store →
  slot_read store (mp_cache_find_slot store key) = None ↔ store_map store !! key = None.
Proof. intros Hwf. rewrite slot_read_map by done. by rewrite fmap_None. Qed.

Lemma slot_read_some store key v exp :
  store_wf store → store_map store !! key = Some (v, exp) →
  slot_read store (mp_cache_find_slot store key) = Some (Entry key v exp).
Proof.
  intros Hwf. rewrite slot_read_map by done. intros ([k w x] & Hread & Heq)%fmap_Some.
  injection Heq as -> ->. destruct (find_slot_found _ _ _ Hwf Hread) as [Hk _].
  simpl in *. by subst.
Qed.

(** ** Writing *)

(** The entry obeys the size limits and the map with it the memory limit. *)
Definition write_fits (store : mp_cache_store_t) (key value : bytes) : Prop :=
  0 < zlen key ≤ store_max_key store ∧ zlen value ≤ store_max_value store ∧
  map_cost (<[key := (value, 0)]> (store_map store)) ≤ store_memory_limit store.
#[export] Instance write_fits_dec store key value : Decision (write_fits store key value).
Proof. unfold write_fits. apply _. Defined.

(** Two states of one store: the configured limits never change. *)
Definition same_limits (s1 s2 : mp_cache_store_t) : Prop :=
  store_bucket_count s1 = store_bucket_count s2 ∧ store_memory_limit s1 = store_memory_limit s2 ∧
  store_max_key s1 = store_max_key s2 ∧ store_max_value s1 = store_max_value s2.

#[export] Instance same_limits_equiv : Equivalence same_limits.
Proof.
  unfold same_limits. split; [by intros ?|intros ?? (?&?&?&?)|intros ??? (?&?&?&?) (?&?&?&?)];
    repeat split; congruence.
Qed.

Lemma map_cost_expiry m key value x y :
  map_cost (<[key := (value, x)]> m) = map_cost (<[key := (value, y)]> m).
Proof.
  unfold map_cost. rewrite <-(insert_delete_eq m key (value, x)), <-(insert_delete_eq m key (value, y)).
  rewrite !map_to_list_insert by apply lookup_delete_eq. done.
Qed.

(** The entry list with [key] bound to a new entry: what replacing or
    appending does to the map, to its size and to its cost. *)
Lemma entries_written store key value exp :
  store_wf store →
  let slot := mp_cache_find_slot store key in
  let e' := Entry key value exp in
  let f := match slot_read store slot with
           | Some _ => <[slot.2 := e']>
           | None => fun chain => chain ++ [e']
           end in
  let previous := match slot_read store slot with
                  | Some e => binding_cost (entry_binding e) | None => 0 end in
  ∀ count used, let es := entries (slot_update store slot f count used) in
  NoDup (entry_key <$> es) ∧
  list_to_map (entry_binding <$> es) = <[key := (value, exp)]> (store_map store) ∧
  zlen es = entry_count store + (if slot_read store slot is Some _ then 0 else 1) ∧
  sumZ (binding_cost ∘ entry_binding <$> es) =
    bytes_used store - previous + binding_cost (entry_binding e') ∧
  (∀ P : mp_cache_entry → Prop, Forall P (entries store) → P e' → Forall P es).
Proof.
  intros Hwf slot e' f previous count used es.
  pose proof (wf_nodup _ Hwf) as Hnd. pose proof (wf_count _ Hwf) as Hc.
  pose proof (wf_used _ Hwf) as Hu. unfold store_map.
  destruct (slot_read store slot) as [e|] eqn:Hread; subst f previous.
  - destruct (find_slot_found _ _ _ Hwf Hread) as (Hk & l1 & l2 & He & Hins & _).
    subst es. rewrite Hins. rewrite He in *. rewrite sum_costs_middle in Hu.
    rewrite (map_middle l1 e l2) by done. rewrite nodup_keys_middle in Hnd. rewrite Hk in *.
    rewrite map_middle, nodup_keys_middle, sum_costs_middle by by apply nodup_keys_middle.
    rewrite insert_insert_eq. len_simpl. repeat split; try done; try tauto; try lia.
    intros P. rewrite !forall_middle. tauto.
  - destruct (find_slot_missing _ _ Hwf Hread) as (Hk & l1 & l2 & He & Hins).
    subst es. rewrite Hins. rewrite He in *.
    rewrite map_middle, nodup_keys_middle, sum_costs_middle by by apply nodup_keys_middle.
    len_simpl. repeat split; try done; try lia.
    intros P. rewrite !forall_middle. tauto.
Qed.

Lemma entry_count_bound store : store_wf store → 0 ≤ entry_count store < 2 ^ 63.
Proof.
  intros Hwf. pose proof (sum_costs_length (entries store)) as Hs.
  pose proof (zlen_nonneg (entries store)). destruct (wf_limits _ Hwf).
  pose proof (wf_limit _ Hwf). rewrite <-(wf_used _ Hwf), <-(wf_count _ Hwf) in *.
  unfold sizeof_entry in Hs. lia.
Qed.

Lemma slot_read_sizes store key e :
  store_wf store → slot_read store (mp_cache_find_slot store key) = Some e → entry_sizes_ok store e.
Proof.
  intros Hwf Hread. destruct (find_slot_found _ _ _ Hwf Hread) as (_ & l1 & l2 & He & _).
  pose proof (wf_sizes _ Hwf) as Hs. rewrite He, forall_middle in Hs. tauto.
Qed.

(** An entry's cost is part of the byte counter. *)
Lemma slot_read_cost store key e :
  store_wf store → slot_read store (mp_cache_find_slot store key) = Some e →
  0 ≤ mp_cache_entry_cost (Some e) ≤ bytes_used store.
Proof.
  intros Hwf Hread. pose proof (slot_read_sizes _ _ _ Hwf Hread).
  rewrite (entry_cost_exact store) by (done || apply Hwf).
  destruct (find_slot_found _ _ _ Hwf Hread) as (_ & l1 & l2 & He & _).
  rewrite (wf_used _ Hwf), He, sum_costs_middle.
  pose proof (sum_costs_nonneg (l1 ++ l2)). pose proof (binding_cost_pos (entry_binding e)).
  unfold sizeof_entry in *. lia.
Qed.

Lemma previous_cost store key :
  store_wf store →
  mp_cache_entry_cost (slot_read store (mp_cache_find_slot store key)) =
    match slot_read store (mp_cache_find_slot store key) with
    | Some e => binding_cost (entry_binding e) | None => 0 end.
Proof.
  intros Hwf. destruct (slot_read _ _) as [e|] eqn:Hread; [|done].
  eapply entry_cost_exact; [apply Hwf|by eapply slot_read_sizes].
Qed.

(** What [write_entry] compares with the memory limit is the cost of the map
    it would produce: the unsigned subtraction never wraps. *)
Lemma projected_cost store key value :
  store_wf store → 0 < zlen key ≤ store_max_key store → zlen value ≤ store_max_value store →
  u64 (u64 (bytes_used store -
    mp_cache_entry_cost (slot_read store (mp_cache_find_slot store key))) +
    u64 (sizeof_entry + zlen key + 1 + zlen value)) =
  map_cost (<[key := (value, 0)]> (store_map store)).
Proof.
  intros Hwf Hk Hv. destruct (wf_limits _ Hwf) as [_ ? ? ?]. pose proof (wf_limit _ Hwf).
  destruct (entries_written store key value 0 Hwf 0 0) as (Hnd & Hm & _ & Hs & _).
  rewrite <-Hm, map_cost_list, Hs by done.
  assert (0 ≤ mp_cache_entry_cost (slot_read store (mp_cache_find_slot store key)) ≤ bytes_used store).
  { destruct (slot_read _ _) as [e|] eqn:Hread; [by eapply slot_read_cost|].
    simpl. rewrite bytes_used_map by done. unfold store_map. rewrite map_cost_list by apply Hwf.
    pose proof (sum_costs_nonneg (entries store)). lia. }
  rewrite <-previous_cost by done. unfold binding_cost, entry_binding; simpl.
  pose proof (zlen_nonneg value). unfold sizeof_entry in *. rewrite (u64_small (48 + _ + _ + _)) by lia.
  rewrite u64_add_idemp. apply u64_small. lia.
Qed.

(** The outcome of writing [key] in terms of the map: success exactly when
    the write fits and memory lasts, and no change otherwise. *)
Definition write_outcome (store : mp_cache_store_t) (key value : bytes) (exp : Z) (h : heap)
    (status : mp_cache_store_status_t) (store' : mp_cache_store_t) : Prop :=
  store_wf store' ∧ same_limits store store' ∧
  match status with
  | MP_CACHE_STORE_STATUS_OK => write_fits store key value ∧
      store_map store' = <[key := (value, exp)]> (store_map store)
  | MP_CACHE_STORE_STATUS_LIMIT_EXCEEDED => ¬ write_fits store key value ∧ store' = store
  | MP_CACHE_STORE_STATUS_NO_MEMORY => write_fits store key value ∧ ¬ heap_ok h ∧ store' = store
  | _ => False
  end.

(** Success: replacing the entry in place or appending to the chain. *)
Lemma written_wf store key value exp :
  let slot := mp_cache_find_slot store key in
  let f := match slot_read store slot with
           | Some _ => <[slot.2 := Entry key value exp]>
           | None => fun chain => chain ++ [Entry key value exp]
           end in
  let store' := slot_update store slot f
    (u64 (entry_count store + if slot_read store slot is Some _ then 0 else 1))
    (map_cost (<[key := (value, 0)]> (store_map store))) in
  store_wf store → write_fits store key value →
  store_wf store' ∧ store_map store' = <[key := (value, exp)]> (store_map store).
Proof.
  intros slot f store' Hwf (Hk & Hv & Hfit).
  destruct (entries_written store key value exp Hwf
    (u64 (entry_count store + if slot_read store slot is Some _ then 0 else 1))
    (map_cost (<[key := (value, 0)]> (store_map store)))) as (Hnd & Hm & Hl & Hs & HP).
  fold slot f store' in Hnd, Hm, Hl, Hs, HP. split; [|exact Hm].
  apply slot_update_wf; fold slot store'; try done.
  - intros e He. subst f. destruct (slot_read store slot) as [e0|].
    + apply list_elem_of_lookup in He as [i Hi].
      apply list_lookup_insert_Some in Hi as [(_ & <- & _)|[_ Hi]]; [by right|left].
      by eapply list_elem_of_lookup_2.
    + rewrite elem_of_app, list_elem_of_singleton in He. destruct He as [He| ->]; auto.
  - apply HP; [apply Hwf|]. split; simpl; lia.
  - rewrite Hl. apply u64_small. pose proof (entry_count_bound store Hwf). case_match; lia.
  - rewrite (map_cost_expiry _ _ _ 0 exp), <-Hm. by apply map_cost_list.
Qed.

Lemma write_entry_outcome store key value exp h :
  store_wf store →
  ∃ status store' h',
    mp_cache_store_write_entry store (Some key) (Some value) exp h = (status, store', h') ∧
    write_outcome store key value exp h status store'.
Proof.
  intros Hwf. unfold mp_cache_store_write_entry, write_outcome.
  case_decide as Hsz.
  { eexists _, _, _. repeat split; try done; try apply Hwf. unfold write_fits.
    pose proof (zlen_nonneg key). lia. }
  assert (0 < zlen key ≤ store_max_key store ∧ zlen value ≤ store_max_value store) as [Hk Hv].
  { pose proof (zlen_nonneg key). lia. }
  cbv zeta. rewrite projected_cost by done. case_decide as Hlim.
  { eexists _, _, _. repeat split; try done; try apply Hwf. unfold write_fits. lia. }
  assert (write_fits store key value) as Hfits by (unfold write_fits; lia).
  destruct (written_wf store key value exp Hwf Hfits) as [Hwf' Hm'].
  pose proof (entry_count_bound store Hwf).
  unfold mbind, ST_bind. step_alloc b1. step_alloc b2. case_decide as Hb.
  { eexists _, _, _. split; [reflexivity|]. repeat split; try done; try apply Hwf; try apply Hfits.
    solve_oom. }
  destruct (slot_read store _) as [e|]; simpl.
  - rewrite Z.add_0_r, (u64_small (entry_count store)) in Hwf', Hm' by lia.
    eexists _, _, _. by split.
  - step_alloc b3. destruct b3; eexists _, _, _; (split; [reflexivity|]); [by split|].
    repeat split; try done; try apply Hwf; try apply Hfits. solve_oom.
Qed.

(** ** Removing one entry *)

Lemma slot_unlink_wf store key e :
  store_wf store → slot_read store (mp_cache_find_slot store key) = Some e →
  let store' := slot_unlink store (mp_cache_find_slot store key) e in
  store_wf store' ∧ same_limits store store' ∧ store_map store' = delete key (store_map store).
Proof.
  intros Hwf Hread store'. unfold store', slot_unlink.
  pose proof (slot_read_sizes _ _ _ Hwf Hread) as Hse.
  pose proof (slot_read_cost _ _ _ Hwf Hread) as Hce.
  destruct (find_slot_found _ _ _ Hwf Hread) as (Hk & l1 & l2 & He & _ & Hdel).
  pose proof (wf_nodup _ Hwf) as Hnd. rewrite He, nodup_keys_middle in Hnd. rewrite Hk in Hnd.
  pose proof (wf_sizes _ Hwf) as Hs. rewrite He, forall_middle in Hs.
  pose proof (wf_count _ Hwf) as Hc. rewrite He in Hc. len_simpl.
  pose proof (wf_used _ Hwf) as Hu. rewrite He, sum_costs_middle in Hu.
  pose proof (entry_count_bound _ Hwf). pose proof (wf_limit _ Hwf).
  destruct (wf_limits _ Hwf). split; [|split].
  - apply slot_update_wf; rewrite ?Hdel; try done; try apply Hs; try apply Hnd.
    + intros e'. simpl. intros He'. left.
      eapply elem_of_submseteq; [exact He'|apply sublist_submseteq, sublist_delete].
    + rewrite u64_small; len_simpl; pose proof (zlen_nonneg l1); pose proof (zlen_nonneg l2); lia.
    + rewrite u64_small by lia. rewrite Hu, (entry_cost_exact store) by done. lia.
    + rewrite u64_small by lia. lia.
  - done.
  - unfold store_map. rewrite Hdel, He, map_middle by (apply nodup_keys_middle; by rewrite Hk).
    rewrite Hk, delete_insert_id; [done|]. by apply map_absent, Hnd.
Qed.

(** ** Purging *)

Definition live (now : Z) (e : mp_cache_entry) : Prop := now < expires_at_utc_seconds e.
#[export] Instance live_dec now e : Decision (live now e).
Proof. unfold live. apply _. Defined.

(** The counters of the purge loop stay exact: each removed entry takes its
    own cost and one unit off. *)
Lemma purge_chain_spec now store chain used count removed :
  limits_ok store → Forall (entry_sizes_ok store) chain →
  0 ≤ removed → removed + zlen chain < 2 ^ 63 → zlen chain ≤ count < 2 ^ 63 →
  sumZ (binding_cost ∘ entry_binding <$> chain) ≤ used < 2 ^ 63 →
  let gone := filter (fun e => ¬ live now e) chain in
  purge_chain now chain used count removed =
    (filter (live now) chain, used - sumZ (binding_cost ∘ entry_binding <$> gone),
     count - zlen gone, removed + zlen gone).
Proof.
  intros Hlim Hs. revert used count removed.
  induction Hs as [|e chain Hse Hs IH]; intros used count removed Hr Hr' Hc Hu; cbn [purge_chain].
  { simpl. change (zlen (@nil mp_cache_entry)) with 0. by rewrite !Z.sub_0_r, Z.add_0_r. }
  rewrite fmap_cons, sumZ_cons in Hu. rewrite zlen_cons in Hc, Hr'.
  pose proof (zlen_nonneg chain). pose proof (binding_cost_pos (entry_binding e)) as Hp.
  pose proof (sum_costs_nonneg chain). unfold sizeof_entry, compose in *.
  rewrite !filter_cons. change (now < expires_at_utc_seconds e) with (live now e).
  destruct (decide (live now e)) as [Hl|Hl].
  - rewrite (decide_False (P := ¬ live now e)) by tauto.
    rewrite IH by lia. done.
  - rewrite (decide_True (P := ¬ live now e)) by done.
    rewrite (entry_cost_exact store) by done. rewrite !u64_small by lia.
    rewrite IH by lia. rewrite fmap_cons, sumZ_cons, zlen_cons. tuple_eq.
Qed.

Lemma sum_costs_filter (P : mp_cache_entry → Prop) `{∀ e, Decision (P e)} es :
  0 ≤ sumZ (binding_cost ∘ entry_binding <$> filter P es)
    ≤ sumZ (binding_cost ∘ entry_binding <$> es) ∧ zlen (filter P es) ≤ zlen es.
Proof.
  pose proof (sum_costs_nonneg (filter P es)).
  pose proof (sum_costs_nonneg (filter (fun e => ¬ P e) es)).
  split; [|unfold zlen; pose proof (length_filter P es); lia].
  rewrite <-(filter_app_complement P es) at 3. rewrite fmap_app, sumZ_app. lia.
Qed.

Lemma purge_buckets_spec now store bs used count removed :
  limits_ok store → Forall (entry_sizes_ok store) (mjoin bs) →
  0 ≤ removed → removed + zlen (mjoin bs) < 2 ^ 63 → zlen (mjoin bs) ≤ count < 2 ^ 63 →
  sumZ (binding_cost ∘ entry_binding <$> mjoin bs) ≤ used < 2 ^ 63 →
  let gone := filter (fun e => ¬ live now e) (mjoin bs) in
  purge_buckets now bs used count removed =
    (filter (live now) <$> bs, used - sumZ (binding_cost ∘ entry_binding <$> gone),
     count - zlen gone, removed + zlen gone).
Proof.
  intros Hlim. revert used count removed. induction bs as [|chain bs IH]; intros used count removed.
  { intros. simpl. change (zlen (@nil mp_cache_entry)) with 0. by rewrite !Z.sub_0_r, Z.add_0_r. }
  change (mjoin (chain :: bs)) with (chain ++ mjoin bs).
  rewrite fmap_app, sumZ_app, zlen_app, Forall_app, filter_app. intros [Hs1 Hs2] ? ? ? ?.
  pose proof (zlen_nonneg chain). pose proof (zlen_nonneg (mjoin bs)).
  pose proof (sum_costs_nonneg chain). pose proof (sum_costs_nonneg (mjoin bs)).
  cbn [purge_buckets]. rewrite (purge_chain_spec now store) by (done || lia).
  set (gone := filter (fun e => ¬ live now e) chain).
  assert (0 ≤ sumZ (binding_cost ∘ entry_binding <$> gone)
    ≤ sumZ (binding_cost ∘ entry_binding <$> chain) ∧ zlen gone ≤ zlen chain) as [Hg1 Hg2].
  { by apply sum_costs_filter. }
  pose proof (zlen_nonneg gone).
  rewrite IH by (done || lia). rewrite fmap_app, sumZ_app, zlen_app, fmap_cons.
  tuple_eq.
Qed.

Lemma mjoin_filter {A} (P : A → Prop) `{∀ x, Decision (P x)} (bs : list (list A)) :
  mjoin (filter P <$> bs) = filter P (mjoin bs).
Proof.
  induction bs as [|c bs IH]; [done|]. rewrite fmap_cons.
  change (mjoin (filter P c :: (filter P <$> bs))) with (filter P c ++ mjoin (filter P <$> bs)).
  change (mjoin (c :: bs)) with (c ++ mjoin bs). by rewrite IH, filter_app.
Qed.

Lemma nodup_filter_keys (P : mp_cache_entry → Prop) `{∀ e, Decision (P e)} es :
  NoDup (entry_key <$> es) → NoDup (entry_key <$> filter P es).
Proof. intros Hnd. eapply sublist_NoDup; [exact Hnd|]. apply fmap_sublist, sublist_filter. Qed.

Lemma map_filter_live now es :
  NoDup (entry_key <$> es) →
  list_to_map (entry_binding <$> filter (live now) es) =
    (filter (fun kv => now < kv.2.2) (list_to_map (entry_binding <$> es)) : gmap bytes (bytes * Z)).
Proof.
  induction es as [|e es IH]; [done|]. rewrite fmap_cons. intros [Hk Hnd]%NoDup_cons.
  rewrite fmap_cons. cbn [list_to_map foldr]. rewrite filter_cons.
  destruct (decide (live now e)) as [Hl|Hl].
  - rewrite fmap_cons. unfold entry_binding at 1 3. cbn.
    rewrite (map_filter_insert_True (M := gmap bytes)) by done. by rewrite <-IH.
  - unfold entry_binding at 2. cbn. rewrite (map_filter_insert_False (M := gmap bytes)) by done.
    rewrite delete_id by by apply map_absent. by apply IH.
Qed.

Lemma purge_expired_outcome store now :
  store_wf store →
  let '(removed, store') := mp_cache_store_purge_expired store now in
  store_wf store' ∧ same_limits store store' ∧
  store_map store' = filter (fun kv => now < kv.2.2) (store_map store) ∧
  removed = entry_count store - entry_count store'.
Proof.
  intros Hwf. unfold mp_cache_store_purge_expired.
  pose proof (entry_count_bound _ Hwf). pose proof (wf_limit _ Hwf).
  destruct (wf_limits _ Hwf) as [? ? ? ?].
  rewrite (purge_buckets_spec now store).
  2-7: try apply Hwf; fold (entries store); rewrite <-?(wf_count _ Hwf), <-?(wf_used _ Hwf); lia.
  fold (entries store). set (gone := filter (fun e => ¬ live now e) (entries store)).
  set (kept := filter (live now) (entries store)).
  assert (kept ++ gone ≡ₚ entries store) as Hperm by apply filter_app_complement.
  assert (zlen kept + zlen gone = zlen (entries store)).
  { rewrite <-zlen_app. unfold zlen. by rewrite Hperm. }
  assert (sumZ (binding_cost ∘ entry_binding <$> kept) + sumZ (binding_cost ∘ entry_binding <$> gone)
    = bytes_used store). { rewrite (wf_used _ Hwf), <-sumZ_app, <-fmap_app. by rewrite Hperm. }
  pose proof (wf_count _ Hwf). pose proof (sum_costs_nonneg gone).
  split; [|split; [done|split]].
  - split; try done; unfold entries; simpl; rewrite ?mjoin_filter; try (fold (entries store) kept; lia).
    + rewrite length_fmap. apply Hwf.
    + intros i chain e Hi He. rewrite list_lookup_fmap in Hi.
      apply fmap_Some in Hi as (c & Hi & ->). apply list_elem_of_filter in He as [_ He].
      by eapply (wf_hashed _ Hwf).
    + by apply nodup_filter_keys, Hwf.
    + pose proof (wf_sizes _ Hwf) as Hs. rewrite Forall_forall in Hs |- *.
      intros e [_ He]%list_elem_of_filter. by apply Hs.
  - unfold store_map. unfold entries at 1. simpl. rewrite mjoin_filter.
    apply map_filter_live, Hwf.
  - simpl. lia.
Qed.

(** ** Creating and clearing *)

Lemma mjoin_empty {A B} (bs : list B) : mjoin ((fun _ => []) <$> bs) = ([] : list A).
Proof. by induction bs. Qed.

(** A store with empty chains and zero counters is well formed. *)
Lemma empty_store_wf bs n memory key value :
  limits_ok (Store bs n 0 0 memory key value) → length bs = Z.to_nat n → Forall (eq []) bs →
  store_wf (Store bs n 0 0 memory key value) ∧ store_map (Store bs n 0 0 memory key value) = ∅.
Proof.
  intros Hlim Hlen Hbs.
  assert (entries (Store bs n 0 0 memory key value) = []) as He.
  { unfold entries; simpl. clear Hlim Hlen. by induction Hbs as [|? ? <- ? IH]. }
  split; [|unfold store_map; by rewrite He]. split; rewrite ?He; try done.
  - intros i chain e Hi. simpl in Hi. rewrite list.Forall_lookup in Hbs.
    apply Hbs in Hi as <-. by intros ?%not_elem_of_nil.
  - constructor.
  - apply Hlim.
Qed.

Lemma clear_outcome store :
  store_wf store →
  let store' := mp_cache_store_clear store in
  store_wf store' ∧ same_limits store store' ∧ store_map store' = ∅.
Proof.
  intros Hwf. destruct (wf_limits _ Hwf).
  destruct (empty_store_wf ((fun _ => []) <$> buckets store) (store_bucket_count store)
    (store_memory_limit store) (store_max_key store) (store_max_value store)) as [? ?]; [done| |by apply Forall_fmap, Forall_true|done].
  rewrite length_fmap. apply Hwf.
Qed.

(** The configuration values the table relies on, as the C types and the
    validation give them. *)
Definition cache_config_ok (config : mp_cache_config_t) : Prop :=
  0 < num config bucket_count ∧ 0 ≤ num config max_key_bytes < 2 ^ 32 ∧
  0 ≤ num config max_value_bytes < 2 ^ 32 ∧ 0 ≤ num config memory_limit_bytes < 2 ^ 63.
#[export] Instance cache_config_ok_dec config : Decision (cache_config_ok config).
Proof. unfold cache_config_ok. apply _. Defined.

Lemma init_outcome config h :
  cache_config_ok config →
  match mp_cache_store_init config h with
  | (Some store, _) => store_wf store ∧ store_map store = ∅ ∧
      store_memory_limit store = num config memory_limit_bytes
  | (None, _) => ¬ heap_ok h
  end.
Proof.
  intros (? & ? & ? & ?). unfold mp_cache_store_init. rewrite decide_False by lia.
  unfold mbind, ST_bind. step_alloc b. destruct b; simpl; [|solve_oom].
  match goal with |- store_wf ?s ∧ _ => assert (store_wf s ∧ store_map s = ∅) as [? ?]; [|done] end.
  apply empty_store_wf; [done|by rewrite length_replicate|].
  by apply Forall_replicate.
Qed.

(** ** Walking *)

(** A visitor that never stops sees every entry once, in table order. *)
Lemma for_each_entries_all {C} (visit : mp_cache_entry → C → Z * C) (g : C → mp_cache_entry → C) es c :
  (∀ e c, visit e c = (0, g c e)) → for_each_entries visit es c = (0, foldl g c es).
Proof.
  intros Hv. revert c. induction es as [|e es IH]; intros c; simpl; [done|].
  rewrite Hv. case_decide; [apply IH|done].
Qed.

Lemma entries_map_to_list store :
  store_wf store → (entry_binding <$> entries store) ≡ₚ map_to_list (store_map store).
Proof.
  intros Hwf. symmetry. apply map_to_list_to_map. rewrite bindings_keys. apply Hwf.
Qed.

(** ** The store as a state machine *)

(** The state-changing operations a client calls after [init]. *)
Inductive store_op :=
| OpSet (key value : bytes) (ttl now : Z)
| OpGet (key : bytes) (now : Z)
| OpDelete (key : bytes)
| OpRestore (key value : bytes) (exp : Z)
| OpClear
| OpPurge (now : Z).

Inductive store_reply :=
| RStatus (status : mp_cache_store_status_t)
| RValue (status : mp_cache_store_status_t) (value : option (bytes * Z))
| RDone
| RCount (removed : Z).

Definition run_op (store : mp_cache_store_t) (op : store_op) : ST heap (store_reply * mp_cache_store_t) :=
  match op with
  | OpSet key value ttl now =>
    '(status, store') ← mp_cache_store_set store (Some key) (Some value) ttl now;
    mret (RStatus status, store')
  | OpGet key now =>
    '(status, value, store') ← mp_cache_store_get_copy store (Some key) now;
    mret (RValue status value, store')
  | OpDelete key =>
    let '(status, store') := mp_cache_store_delete store (Some key) in mret (RStatus status, store')
  | OpRestore key value exp =>
    '(status, store') ← mp_cache_store_restore_entry store (Some key) (Some value) exp;
    mret (RStatus status, store')
  | OpClear => mret (RDone, mp_cache_store_clear store)
  | OpPurge now =>
    let '(removed, store') := mp_cache_store_purge_expired store now in mret (RCount removed, store')
  end.

(** The abstract machine on finite maps. [memory], [max_key] and [max_value]
    are the limits; [oom] says whether an allocation may fail. *)
Section AbstractCache.
Context (memory max_key max_value : Z) (oom : Prop).

Definition abs_fits (m : gmap bytes (bytes * Z)) (key value : bytes) : Prop :=
  0 < zlen key ≤ max_key ∧ zlen value ≤ max_value ∧ map_cost (<[key := (value, 0)]> m) ≤ memory.

Inductive abs_write (m : gmap bytes (bytes * Z)) (key value : bytes) (exp : Z)
    : mp_cache_store_status_t → gmap bytes (bytes * Z) → Prop :=
| abs_write_ok : abs_fits m key value →
    abs_write m key value exp MP_CACHE_STORE_STATUS_OK (<[key := (value, exp)]> m)
| abs_write_limit : ¬ abs_fits m key value →
    abs_write m key value exp MP_CACHE_STORE_STATUS_LIMIT_EXCEEDED m
| abs_write_oom : abs_fits m key value → oom →
    abs_write m key value exp MP_CACHE_STORE_STATUS_NO_MEMORY m.

Inductive abs_step (m : gmap bytes (bytes * Z)) : store_op → store_reply → gmap bytes (bytes * Z) → Prop :=
| abs_set_zero key value now :
    abs_step m (OpSet key value 0 now) (RStatus MP_CACHE_STORE_STATUS_INVALID_ARGUMENT) m
| abs_set key value ttl now status m' : ttl ≠ 0 → abs_write m key value (now + ttl) status m' →
    abs_step m (OpSet key value ttl now) (RStatus status) m'
| abs_get_missing key now : m !! key = None →
    abs_step m (OpGet key now) (RValue MP_CACHE_STORE_STATUS_NOT_FOUND None) m
| abs_get_expired key now value exp : m !! key = Some (value, exp) → exp ≤ now →
    abs_step m (OpGet key now) (RValue MP_CACHE_STORE_STATUS_EXPIRED None) (delete key m)
| abs_get_live key now value exp : m !! key = Some (value, exp) → now < exp →
    abs_step m (OpGet key now) (RValue MP_CACHE_STORE_STATUS_OK (Some (value, exp))) m
| abs_get_oom key now value exp : m !! key = Some (value, exp) → now < exp → oom →
    abs_step m (OpGet key now) (RValue MP_CACHE_STORE_STATUS_NO_MEMORY None) m
| abs_delete_missing key : m !! key = None →
    abs_step m (OpDelete key) (RStatus MP_CACHE_STORE_STATUS_NOT_FOUND) m
| abs_delete key value exp : m !! key = Some (value, exp) →
    abs_step m (OpDelete key) (RStatus MP_CACHE_STORE_STATUS_OK) (delete key m)
| abs_restore_invalid key value exp : exp ≤ 0 →
    abs_step m (OpRestore key value exp) (RStatus MP_CACHE_STORE_STATUS_INVALID_ARGUMENT) m
| abs_restore key value exp status m' : 0 < exp → abs_write m key value exp status m' →
    abs_step m (OpRestore key value exp) (RStatus status) m'
| abs_clear : abs_step m OpClear RDone ∅
| abs_purge now :
    abs_step m (OpPurge now)
      (RCount (Z.of_nat (size m) - Z.of_nat (size (filter (fun kv => now < kv.2.2) m))))
      (filter (fun kv => now < kv.2.2) m).
End AbstractCache.
#[export] Hint Constructors abs_step abs_write : mpc.

Lemma entry_count_size store : store_wf store → entry_count store = Z.of_nat (size (store_map store)).
Proof.
  intros Hwf. rewrite (wf_count _ Hwf). unfold zlen.
  rewrite <-length_map_to_list, <-entries_map_to_list by done. by rewrite length_fmap.
Qed.

(** [write_outcome] is a step of the abstract machine. *)
Lemma write_outcome_abs store key value exp h status store' :
  write_outcome store key value exp h status store' →
  store_wf store' ∧ same_limits store store' ∧
  abs_write (store_memory_limit store) (store_max_key store) (store_max_value store) (¬ heap_ok h)
    (store_map store) key value exp status (store_map store').
Proof.
  intros (Hwf & Hlim & Ho). split; [done|]. split; [done|].
  destruct status; try done.
  - destruct Ho as [? ->]. by constructor.
  - destruct Ho as [? ->]. by constructor.
  - destruct Ho as (? & ? & ->). by constructor.
Qed.

Lemma get_copy_outcome store key now h :
  store_wf store →
  ∃ status value store' h',
    mp_cache_store_get_copy store (Some key) now h = (status, value, store', h') ∧
    store_wf store' ∧ same_limits store store' ∧
    abs_step (store_memory_limit store) (store_max_key store) (store_max_value store) (¬ heap_ok h)
      (store_map store) (OpGet key now) (RValue status value) (store_map store').
Proof.
  intros Hwf. unfold mp_cache_store_get_copy.
  pose proof (slot_read_map store key Hwf) as Hm.
  destruct (slot_read _ _) as [e|] eqn:Hread; simpl in Hm.
  2:{ eexists _, _, _, _. repeat (split; [done|]). by constructor. }
  case_decide as Hexp.
  { destruct (slot_unlink_wf _ _ _ Hwf Hread) as (? & ? & Hm').
    eexists _, _, _, _. repeat (split; [done|]). rewrite Hm'. eauto with mpc. }
  unfold mbind, ST_bind. step_alloc b. destruct b; eexists _, _, _, _; repeat (split; [done|]).
  - eapply abs_get_live; [done|lia].
  - eapply abs_get_oom; [done|lia|solve_oom].
Qed.

Lemma delete_outcome store key :
  store_wf store →
  let '(status, store') := mp_cache_store_delete store (Some key) in
  store_wf store' ∧ same_limits store store' ∧
  store_map store' = delete key (store_map store) ∧
  (status = MP_CACHE_STORE_STATUS_OK ∧ is_Some (store_map store !! key) ∨
   status = MP_CACHE_STORE_STATUS_NOT_FOUND ∧ store_map store !! key = None).
Proof.
  intros Hwf. unfold mp_cache_store_delete. pose proof (slot_read_map store key Hwf) as Hm.
  destruct (slot_read _ _) as [e|] eqn:Hread; simpl in Hm.
  - destruct (slot_unlink_wf _ _ _ Hwf Hread) as (? & ? & Hm'). repeat (split; [done|]).
    left. rewrite Hm. eauto.
  - repeat (split; [done|]). rewrite delete_id by done. auto.
Qed.

Lemma run_op_outcome store op h :
  store_wf store →
  ∃ reply store' h',
    run_op store op h = (reply, store', h') ∧ store_wf store' ∧ same_limits store store' ∧
    abs_step (store_memory_limit store) (store_max_key store) (store_max_value store) (¬ heap_ok h)
      (store_map store) op reply (store_map store').
Proof.
  intros Hwf. destruct op as [key value ttl now|key now|key|key value exp| |now];
    unfold run_op, mbind, ST_bind.
  - unfold mp_cache_store_set. case_decide as Ht.
    { subst. eexists _, _, _. repeat (split; [done|]). constructor. }
    destruct (write_entry_outcome store key value (now + ttl) h Hwf) as (status & store' & h' & -> & Ho).
    apply write_outcome_abs in Ho as (? & ? & ?).
    eexists _, _, _. repeat (split; [done|]). by constructor.
  - destruct (get_copy_outcome store key now h Hwf) as (status & value & store' & h' & -> & Ho).
    eexists _, _, _. by split.
  - pose proof (delete_outcome store key Hwf) as Hd.
    destruct (mp_cache_store_delete store (Some key)) as [status store'].
    destruct Hd as (? & ? & Hm & Hs). eexists _, _, _. repeat (split; [done|]). rewrite Hm.
    destruct Hs as [(-> & [value exp] & Hk)|[-> Hk]]; [by econstructor|].
    rewrite delete_id by done. by constructor.
  - unfold mp_cache_store_restore_entry. case_decide as He.
    { eexists _, _, _. repeat (split; [done|]). by constructor. }
    destruct (write_entry_outcome store key value exp h Hwf) as (status & store' & h' & -> & Ho).
    apply write_outcome_abs in Ho as (? & ? & ?).
    eexists _, _, _. repeat (split; [done|]). constructor; [lia|done].
  - destruct (clear_outcome store Hwf) as (? & ? & Hm).
    eexists _, _, _. repeat (split; [done|]). rewrite Hm. constructor.
  - pose proof (purge_expired_outcome store now Hwf) as Hp.
    destruct (mp_cache_store_purge_expired store now) as [removed store'].
    destruct Hp as (Hwf' & ? & Hm & Hr). eexists _, _, _. repeat (split; [done|]).
    rewrite Hr, !entry_count_size, Hm by done. constructor.
Qed.

(** The stores a client can reach: [init], then any operations in any order,
    with any pattern of allocation failures. *)
Inductive reachable (config : mp_cache_config_t) : mp_cache_store_t → Prop :=
| reachable_init h store h' :
    mp_cache_store_init config h = (Some store, h') → reachable config store
| reachable_step store op h reply store' h' :
    reachable config store → run_op store op h = (reply, store', h') → reachable config store'.

Lemma reachable_inv config store :
  cache_config_ok config → reachable config store →
  store_wf store ∧ store_memory_limit store = num config memory_limit_bytes.
Proof.
  intros Hc. induction 1 as [h store h' Hi|store op h reply store' h' _ [Hwf Hl] Hop].
  - pose proof (init_outcome config h Hc) as Ho. rewrite Hi in Ho. tauto.
  - destruct (run_op_outcome store op h Hwf) as (r & s & k & Hop' & Hwf' & Hlim & _).
    rewrite Hop in Hop'. simplify_eq. split; [done|]. destruct Hlim as (_ & <- & _). done.
Qed.

(** ** Properties *)

(** C4. The hash table implements a bounded finite map. Every operation, run
    on a well-formed table with any pattern of allocation failures, ends, keeps
    the table well formed and its limits unchanged, and its reply and new
    contents are those of one step of the abstract map machine: a write
    succeeds exactly when the key and value sizes and the cost of the map with
    the new binding are within the limits (or fails for memory), a read removes
    an expired binding, a failed operation changes nothing. *)
Theorem cache_refines_map store op h :
  store_wf store →
  ∃ reply store' h',
    run_op store op h = (reply, store', h') ∧ store_wf store' ∧ same_limits store store' ∧
    abs_step (store_memory_limit store) (store_max_key store) (store_max_value store) (¬ heap_ok h)
      (store_map store) op reply (store_map store').
Proof. apply run_op_outcome. Qed.

(** C25. In every reachable table the byte counter is the exact cost of the
    entries and never exceeds the configured memory limit, the entry counter is
    the number of keys, no key is stored twice, every entry sits in the bucket
    its key hashes to, and the statistics report these numbers. *)
Theorem cache_memory_bounded config store :
  cache_config_ok config → reachable config store →
  bytes_used store = map_cost (store_map store) ∧
  bytes_used store ≤ num config memory_limit_bytes ∧
  NoDup (entry_key <$> entries store) ∧
  (∀ i chain e, buckets store !! i = Some chain → e ∈ chain →
     Z.of_nat i = mp_cache_hash_bytes (entry_key e) `mod` store_bucket_count store) ∧
  mp_cache_store_get_stats store =
    StoreStats (Z.of_nat (size (store_map store))) (map_cost (store_map store))
      (num config memory_limit_bytes).
Proof.
  intros Hc Hr. destruct (reachable_inv _ _ Hc Hr) as [Hwf Hl].
  rewrite <-bytes_used_map by done. split; [done|].
  split; [rewrite <-Hl; apply Hwf|]. split; [apply Hwf|]. split.
  - intros i chain e Hi He. rewrite <-(wf_hashed _ Hwf _ _ _ Hi He). unfold bucket_index.
    destruct (wf_limits _ Hwf). apply Z2Nat.id, Z.mod_pos_bound. lia.
  - unfold mp_cache_store_get_stats. by rewrite Hl, entry_count_size.
Qed.

(** What a successful [set] stores is read back unchanged until its time to
    live has passed, other keys are
    untouched, and from the expiry second on the read reports EXPIRED and the
    entry is gone. *)
Theorem set_then_get store key value ttl now store' h h' now' :
  store_wf store →
  mp_cache_store_set store (Some key) (Some value) ttl now h = (MP_CACHE_STORE_STATUS_OK, store', h') →
  (now' < now + ttl →
     (mp_cache_store_get_copy store' (Some key) now' []).1 =
       (MP_CACHE_STORE_STATUS_OK, Some (value, now + ttl), store')) ∧
  (now + ttl ≤ now' →
     ∃ store'', (mp_cache_store_get_copy store' (Some key) now' []).1 =
       (MP_CACHE_STORE_STATUS_EXPIRED, None, store'') ∧
       store_map store'' = delete key (store_map store)) ∧
  (∀ other, other ≠ key → store_map store' !! other = store_map store !! other).
Proof.
  intros Hwf Hset. unfold mp_cache_store_set in Hset. case_decide; [done|].
  destruct (write_entry_outcome store key value (now + ttl) h Hwf) as (? & ? & ? & Hw & Ho).
  rewrite Hset in Hw. injection Hw as <- <- <-. destruct Ho as (Hwf' & _ & _ & Hm).
  pose proof (slot_read_some store' key value (now + ttl) Hwf') as Hread.
  rewrite Hm, lookup_insert_eq in Hread. specialize (Hread eq_refl).
  split; [|split].
  - intros Hlt. unfold mp_cache_store_get_copy. rewrite Hread. simpl. by rewrite decide_False by lia.
  - intros Hge. unfold mp_cache_store_get_copy. rewrite Hread. simpl. rewrite decide_True by lia.
    eexists. split; [reflexivity|].
    destruct (slot_unlink_wf _ _ _ Hwf' Hread) as (_ & _ & ->). by rewrite Hm, delete_insert_eq.
  - intros other Hne. by rewrite Hm, lookup_insert_ne.
Qed.

(** The periodic purge removes exactly the entries that have expired,
    returns how many they were and keeps the counters exact. *)
Theorem purge_expired_exact store now :
  store_wf store →
  let '(removed, store') := mp_cache_store_purge_expired store now in
  store_wf store' ∧
  (∀ key value exp, store_map store' !! key = Some (value, exp) ↔
     store_map store !! key = Some (value, exp) ∧ now < exp) ∧
  removed = Z.of_nat (size (store_map store)) - Z.of_nat (size (store_map store')) ∧
  bytes_used store' = map_cost (store_map store').
Proof.
  intros Hwf. pose proof (purge_expired_outcome store now Hwf) as Hp.
  destruct (mp_cache_store_purge_expired store now) as [removed store'].
  destruct Hp as (Hwf' & _ & Hm & Hr). split; [done|]. split.
  - intros key value exp. rewrite Hm. apply (map_lookup_filter_Some (M := gmap bytes)).
  - rewrite Hr, !entry_count_size by done. split; [done|by apply bytes_used_map].
Qed.

(** A walk whose visitor never stops visits every binding of the map
    exactly once and returns 0. *)
Theorem for_each_visits_all store :
  store_wf store →
  ∃ visited,
    mp_cache_store_for_each store (fun e acc => (0, acc ++ [entry_binding e])) [] = (0, visited) ∧
    visited ≡ₚ map_to_list (store_map store).
Proof.
  intros Hwf. exists (entry_binding <$> entries store).
  split; [|by apply entries_map_to_list]. unfold mp_cache_store_for_each.
  rewrite (for_each_entries_all _ (fun acc e => acc ++ [entry_binding e])) by done.
  f_equal. fold (entries store). induction (entries store) as [|e es IH] using rev_ind; [done|].
  by rewrite foldl_snoc, IH, fmap_app.
Qed.

(** ** Witnesses *)

Definition sample_config : mp_cache_config_t :=
  Config (fun _ => []) (fun f => match f with
    | bucket_count => 4 | max_key_bytes => 16 | max_value_bytes => 64
    | memory_limit_bytes => 200 | _ => 0 end).
Definition sample_empty : mp_cache_store_t := Store [[]; []; []; []] 4 0 0 200 16 64.
Definition sample_store : mp_cache_store_t :=
  (mp_cache_store_set sample_empty (Some (cstr "user")) (Some (cstr "ada")) 30 100 []).1.2.

Lemma sample_empty_wf : store_wf sample_empty.
Proof. apply empty_store_wf; [done|done|by repeat constructor]. Qed.

Lemma cache_refines_map_witness :
  ∃ reply store' h', run_op sample_empty (OpGet (cstr "user") 5) [] = (reply, store', h') ∧
    store_wf store' ∧ same_limits sample_empty store' ∧
    abs_step 200 16 64 (¬ heap_ok []) (store_map sample_empty) (OpGet (cstr "user") 5) reply (store_map store').
Proof. apply (cache_refines_map sample_empty (OpGet (cstr "user") 5) []), sample_empty_wf. Defined.

Lemma sample_reachable : reachable sample_config sample_store.
Proof.
  eapply (reachable_step _ sample_empty (OpSet (cstr "user") (cstr "ada") 30 100) []); [|vm_compute; reflexivity].
  apply (reachable_init _ [] _ []). vm_compute. reflexivity.
Qed.

Lemma cache_memory_bounded_witness :
  bytes_used sample_store = map_cost (store_map sample_store) ∧
  bytes_used sample_store ≤ num sample_config memory_limit_bytes.
Proof.
  destruct (cache_memory_bounded sample_config sample_store) as (? & ? & _).
  - vm_compute. repeat split; congruence.
  - apply sample_reachable.
  - by split.
Defined.

Lemma set_then_get_witness :
  (mp_cache_store_get_copy sample_store (Some (cstr "user")) 129 []).1 =
    (MP_CACHE_STORE_STATUS_OK, Some (cstr "ada", 130), sample_store).
Proof.
  apply (set_then_get sample_empty (cstr "user") (cstr "ada") 30 100 sample_store [] [] 129);
    [apply sample_empty_wf|vm_compute; reflexivity|vm_compute; reflexivity].
Defined.

Lemma sample_store_wf : store_wf sample_store.
Proof.
  apply (reachable_inv sample_config); [vm_compute; repeat split; congruence|apply sample_reachable].
Qed.

Lemma purge_expired_exact_witness :
  mp_cache_store_purge_expired sample_store 130 = (1, sample_empty) ∧
  bytes_used sample_empty = map_cost (store_map sample_empty).
Proof.
  assert (mp_cache_store_purge_expired sample_store 130 = (1, sample_empty)) as He
    by (vm_compute; reflexivity).
  pose proof (purge_expired_exact sample_store 130 sample_store_wf) as Hp. rewrite He in Hp.
  split; [done|apply Hp].
Defined.

Lemma for_each_visits_all_witness :
  ∃ visited,
    mp_cache_store_for_each sample_store (fun e acc => (0, acc ++ [entry_binding e])) [] = (0, visited) ∧
    visited ≡ₚ map_to_list (store_map sample_store).
Proof. apply for_each_visits_all, sample_store_wf. Defined.
