(* ===== verification/Security.v ===== *)
(** * Security: internal/security/security.h, internal/security/security.c

    The client registry: bearer tokens are kept as SHA-256 hashes in an array
    of client records that doubles up to 1024 entries; the bootstrap
    administrator's hash is kept apart. The record array is the list of its
    first [count] elements with its capacity. A role is the integer of the C
    enumeration, since a restored registry may hold any 32-bit value. The
    environment variables and files that secrets come from are arguments. *)

From stdpp Require Import base numbers strings option gmap list.
From S2P Require Import Prelude Config Crypto.
Local Open Scope Z_scope.

(** ** Data *)

Definition MP_CACHE_ROLE_NONE : Z := 0.
Definition MP_CACHE_ROLE_CLIENT : Z := 1.
Definition MP_CACHE_ROLE_OPERATOR : Z := 2.
Definition MP_CACHE_ROLE_ADMIN : Z := 3.

Definition MP_CACHE_CLIENT_ID_CAP : nat := 64.
Definition MP_CACHE_TOKEN_HASH_SIZE : nat := 32.
Definition MP_CACHE_TOKEN_TEXT_CAP : Z := 65.
Definition MP_CACHE_TOKEN_RANDOM_BYTES : nat := 32.
Definition MP_CACHE_MAX_CLIENTS : Z := 1024.
Definition MP_CACHE_INITIAL_CLIENT_CAPACITY : Z := 8.
Definition MP_CACHE_BOOTSTRAP_ADMIN_ID : bytes := Eval vm_compute in cstr "bootstrap-admin".

Inductive mp_cache_security_status_t :=
| MP_CACHE_SECURITY_STATUS_OK
| MP_CACHE_SECURITY_STATUS_NOT_FOUND
| MP_CACHE_SECURITY_STATUS_CONFLICT
| MP_CACHE_SECURITY_STATUS_INVALID_ARGUMENT
| MP_CACHE_SECURITY_STATUS_SECRET_ERROR
| MP_CACHE_SECURITY_STATUS_NO_MEMORY
| MP_CACHE_SECURITY_STATUS_IO_ERROR
| MP_CACHE_SECURITY_STATUS_UNAUTHORIZED
| MP_CACHE_SECURITY_STATUS_LIMIT_EXCEEDED.

Record mp_cache_client_record_t := ClientRecord {
  client_id : bytes;
  role : Z;
  token_active : bool;
  token_hash : bytes;
}.

Record mp_cache_security_t := Security {
  records : list mp_cache_client_record_t;
  capacity : Z;
  bootstrap_admin_hash : bytes;
  bootstrap_admin_loaded : bool;
}.

Record mp_cache_principal_t := Principal {
  principal_role : Z;
  principal_client_id : bytes;
}.

#[export] Instance mp_cache_security_status_eq_dec : EqDecision mp_cache_security_status_t.
Proof. solve_decision. Defined.
#[export] Instance mp_cache_client_record_eq_dec : EqDecision mp_cache_client_record_t.
Proof. solve_decision. Defined.
#[export] Instance mp_cache_principal_eq_dec : EqDecision mp_cache_principal_t.
Proof. solve_decision. Defined.

(** ** Operations *)

(** The registry with its record array replaced. *)
Definition set_records (security : mp_cache_security_t) (rs : list mp_cache_client_record_t)
    : mp_cache_security_t :=
  Security rs (capacity security) (bootstrap_admin_hash security) (bootstrap_admin_loaded security).

Definition mp_cache_trim (value : bytes) : bytes := trim_space value.

Definition client_id_char (c : Z) : bool :=
  isalnum c || bool_decide (c = 45) || bool_decide (c = 95) || bool_decide (c = 46).

Definition mp_cache_client_id_is_valid (id : option bytes) : bool :=
  match id with
  | None => false
  | Some id =>
    if decide (id = [] ∨ (MP_CACHE_CLIENT_ID_CAP ≤ length id)%nat) then false
    else forallb client_id_char id
  end.

(** The record for an id with its index. *)
Fixpoint find_record_from (index : nat) (rs : list mp_cache_client_record_t) (id : bytes)
    : option (nat * mp_cache_client_record_t) :=
  match rs with
  | [] => None
  | r :: rs' => if decide (client_id r = id) then Some (index, r) else find_record_from (S index) rs' id
  end.

Definition mp_cache_security_find_record (security : mp_cache_security_t) (id : option bytes)
    : option (nat * mp_cache_client_record_t) :=
  match id with None => None | Some id => find_record_from 0 (records security) id end.

Definition mp_cache_security_ensure_capacity (security : mp_cache_security_t)
    : ST heap (mp_cache_security_status_t * mp_cache_security_t) :=
  if decide (zlen (records security) < capacity security)
  then mret (MP_CACHE_SECURITY_STATUS_OK, security)
  else if decide (MP_CACHE_MAX_CLIENTS ≤ capacity security)
  then mret (MP_CACHE_SECURITY_STATUS_LIMIT_EXCEEDED, security) else
  let next_capacity := if decide (capacity security = 0) then MP_CACHE_INITIAL_CLIENT_CAPACITY
                       else u64 (capacity security * 2) in
  let next_capacity := if decide (MP_CACHE_MAX_CLIENTS < next_capacity) then MP_CACHE_MAX_CLIENTS
                       else next_capacity in
  ok ← alloc;
  if (ok : bool) then
    mret (MP_CACHE_SECURITY_STATUS_OK,
          Security (records security) next_capacity (bootstrap_admin_hash security)
            (bootstrap_admin_loaded security))
  else mret (MP_CACHE_SECURITY_STATUS_NO_MEMORY, security).

Definition mp_cache_hash_token (auth_token : option bytes) : bytes :=
  mp_cache_sha256 (default [] auth_token).

(** The token text comes with the status. *)
Definition mp_cache_security_issue_token (out_client_token_capacity : Z)
    : ST entropy (mp_cache_security_status_t * bytes) :=
  if decide (out_client_token_capacity < MP_CACHE_TOKEN_TEXT_CAP)
  then mret (MP_CACHE_SECURITY_STATUS_INVALID_ARGUMENT, []) else
  random ← mp_cache_random_bytes MP_CACHE_TOKEN_RANDOM_BYTES;
  match random with
  | Ret random_bytes =>
    match mp_cache_hex_encode random_bytes out_client_token_capacity with
    | Ret token => mret (MP_CACHE_SECURITY_STATUS_OK, token)
    | _ => mret (MP_CACHE_SECURITY_STATUS_IO_ERROR, [])
    end
  | _ => mret (MP_CACHE_SECURITY_STATUS_IO_ERROR, [])
  end.

(** Environment variables, and the files that can be opened for reading. *)
Record secret_host := SecretHost {
  getenv : bytes → option bytes;
  fopen_read : bytes → option bytes;
}.

Definition SECRET_ENV_PREFIX : bytes := Eval vm_compute in cstr "env:".
Definition SECRET_FILE_PREFIX : bytes := Eval vm_compute in cstr "file:".

(** The file branch copies the trimmed text over itself with [snprintf];
    the model takes the text the call is meant to leave. *)
Definition mp_cache_secret_resolve (host : secret_host) (secret_ref : option bytes) (out_capacity : nat)
    : outcome bytes :=
  match secret_ref with
  | None => Fail EINVAL
  | Some ref =>
    if decide (out_capacity = 0%nat) then Fail EINVAL
    else if starts_with SECRET_ENV_PREFIX ref then
      match getenv host (drop 4 ref) with
      | None | Some [] => Fail ENOENT
      | Some value => Ret (snprintf_s out_capacity value)
      end
    else if starts_with SECRET_FILE_PREFIX ref then
      let path := drop 5 ref in
      if decide (head path ≠ Some 47) then Fail EINVAL else
      match fopen_read host path with
      | None => Fail EOTHER
      | Some content =>
        match fgets out_capacity content with
        | None => Fail EIO
        | Some (line, _) =>
          let secret := snprintf_s out_capacity (mp_cache_trim (c_string line)) in
          if decide (secret = []) then Fail EINVAL else Ret secret
        end
      end
    else Fail EINVAL
  end.

Definition mp_cache_secret_derive_key (secret : option bytes) : bytes :=
  mp_cache_sha256 (default [] secret).

Definition mp_cache_security_init (host : secret_host) (config : mp_cache_config_t)
    : outcome mp_cache_security_t :=
  token ← mp_cache_secret_resolve host (Some (text config bootstrap_admin_token_secret_ref))
            MP_CACHE_SECRET_REF_CAP;
  mret (Security [] 0 (mp_cache_hash_token (Some token)) true).

Definition mp_cache_security_destroy (security : mp_cache_security_t) : mp_cache_security_t :=
  Security [] 0 (zeros MP_CACHE_TOKEN_HASH_SIZE) false.

(** The loop over the client records. *)
Fixpoint authenticate_records (hash : bytes) (rs : list mp_cache_client_record_t)
    : mp_cache_security_status_t * option mp_cache_principal_t :=
  match rs with
  | [] => (MP_CACHE_SECURITY_STATUS_UNAUTHORIZED, None)
  | r :: rs' =>
    if token_active r && mp_cache_constant_time_equals hash (token_hash r) MP_CACHE_TOKEN_HASH_SIZE
    then (MP_CACHE_SECURITY_STATUS_OK, Some (Principal (role r) (client_id r)))
    else authenticate_records hash rs'
  end.

Definition mp_cache_security_authenticate (security : mp_cache_security_t) (auth_token : option bytes)
    : mp_cache_security_status_t * option mp_cache_principal_t :=
  match auth_token with
  | None | Some [] => (MP_CACHE_SECURITY_STATUS_INVALID_ARGUMENT, None)
  | Some _ =>
    let hash := mp_cache_hash_token auth_token in
    if bootstrap_admin_loaded security &&
       mp_cache_constant_time_equals hash (bootstrap_admin_hash security) MP_CACHE_TOKEN_HASH_SIZE
    then (MP_CACHE_SECURITY_STATUS_OK,
          Some (Principal MP_CACHE_ROLE_ADMIN MP_CACHE_BOOTSTRAP_ADMIN_ID))
    else authenticate_records hash (records security)
  end.

(** The status, the token text (meaningful on success) and the registry. *)
Definition mp_cache_security_register_client (security : mp_cache_security_t) (id : option bytes)
    (new_role out_client_token_capacity : Z)
    : ST (heap * entropy) (mp_cache_security_status_t * bytes * mp_cache_security_t) :=
  if decide (new_role = MP_CACHE_ROLE_NONE ∨ mp_cache_client_id_is_valid id = false)
  then mret (MP_CACHE_SECURITY_STATUS_INVALID_ARGUMENT, [], security) else
  match mp_cache_security_find_record security id with
  | Some _ => mret (MP_CACHE_SECURITY_STATUS_CONFLICT, [], security)
  | None =>
    '(status, security) ← on_fst (mp_cache_security_ensure_capacity security);
    if decide (status ≠ MP_CACHE_SECURITY_STATUS_OK) then mret (status, [], security) else
    '(status, token) ← on_snd (mp_cache_security_issue_token out_client_token_capacity);
    if decide (status ≠ MP_CACHE_SECURITY_STATUS_OK) then mret (status, token, security) else
    let record := ClientRecord (snprintf_s MP_CACHE_CLIENT_ID_CAP (default [] id)) new_role true
                    (mp_cache_hash_token (Some token)) in
    mret (MP_CACHE_SECURITY_STATUS_OK, token, set_records security (records security ++ [record]))
  end.

Definition mp_cache_security_rotate_client_token (security : mp_cache_security_t) (id : option bytes)
    (out_client_token_capacity : Z)
    : ST entropy (mp_cache_security_status_t * bytes * mp_cache_security_t) :=
  if decide (mp_cache_client_id_is_valid id = false)
  then mret (MP_CACHE_SECURITY_STATUS_INVALID_ARGUMENT, [], security) else
  match mp_cache_security_find_record security id with
  | None => mret (MP_CACHE_SECURITY_STATUS_NOT_FOUND, [], security)
  | Some (index, record) =>
    '(status, token) ← mp_cache_security_issue_token out_client_token_capacity;
    if decide (status ≠ MP_CACHE_SECURITY_STATUS_OK) then mret (status, token, security) else
    let record := ClientRecord (client_id record) (role record) true
                    (mp_cache_hash_token (Some token)) in
    mret (MP_CACHE_SECURITY_STATUS_OK, token, set_records security (<[index := record]> (records security)))
  end.

Definition mp_cache_security_invalidate_client_token (security : mp_cache_security_t) (id : option bytes)
    : mp_cache_security_status_t * mp_cache_security_t :=
  if decide (mp_cache_client_id_is_valid id = false)
  then (MP_CACHE_SECURITY_STATUS_INVALID_ARGUMENT, security) else
  match mp_cache_security_find_record security id with
  | None => (MP_CACHE_SECURITY_STATUS_NOT_FOUND, security)
  | Some (index, record) =>
    let record := ClientRecord (client_id record) (role record) false
                    (zeros MP_CACHE_TOKEN_HASH_SIZE) in
    (MP_CACHE_SECURITY_STATUS_OK, set_records security (<[index := record]> (records security)))
  end.

(** [hash] is the 32 bytes behind the pointer, or [None] for NULL. *)
Definition mp_cache_security_import_client_hash (security : mp_cache_security_t) (id : option bytes)
    (new_role : Z) (hash : option bytes) (is_token_active : bool)
    : ST heap (mp_cache_security_status_t * mp_cache_security_t) :=
  if decide (new_role = MP_CACHE_ROLE_NONE ∨ mp_cache_client_id_is_valid id = false)
  then mret (MP_CACHE_SECURITY_STATUS_INVALID_ARGUMENT, security)
  else if decide (is_token_active = true ∧ hash = None)
  then mret (MP_CACHE_SECURITY_STATUS_INVALID_ARGUMENT, security) else
  let new_hash := if is_token_active then default [] hash else zeros MP_CACHE_TOKEN_HASH_SIZE in
  match mp_cache_security_find_record security id with
  | Some (index, record) =>
    mret (MP_CACHE_SECURITY_STATUS_OK,
          set_records security
            (<[index := ClientRecord (client_id record) new_role is_token_active new_hash]>
               (records security)))
  | None =>
    '(status, security) ← mp_cache_security_ensure_capacity security;
    if decide (status ≠ MP_CACHE_SECURITY_STATUS_OK) then mret (status, security) else
    mret (MP_CACHE_SECURITY_STATUS_OK,
          set_records security
            (records security ++
               [ClientRecord (snprintf_s MP_CACHE_CLIENT_ID_CAP (default [] id)) new_role
                  is_token_active new_hash]))
  end.

Definition mp_cache_security_clear_clients (security : mp_cache_security_t) : mp_cache_security_t :=
  set_records security [].

Definition mp_cache_security_client_count (security : mp_cache_security_t) : Z :=
  zlen (records security).

(** The visitor threads its context and stops the walk by returning non-zero. *)
Fixpoint for_each_records {C} (visit : mp_cache_client_record_t → C → Z * C)
    (rs : list mp_cache_client_record_t) (c : C) : Z * C :=
  match rs with
  | [] => (0, c)
  | r :: rs' =>
    let '(ret, c') := visit r c in
    if decide (ret = 0) then for_each_records visit rs' c' else (-1, c')
  end.

Definition mp_cache_security_for_each_client {C} (security : mp_cache_security_t)
    (visit : mp_cache_client_record_t → C → Z * C) (context : C) : Z * C :=
  for_each_records visit (records security) context.

Definition mp_cache_security_find_client (security : mp_cache_security_t) (id : option bytes)
    : option mp_cache_client_record_t :=
  snd <$> mp_cache_security_find_record security id.

Definition mp_cache_role_allows (actual_role required_role : Z) : bool :=
  bool_decide (required_role ≤ actual_role).

Definition mp_cache_role_name (r : Z) : bytes :=
  if decide (r = MP_CACHE_ROLE_CLIENT) then cstr "client"
  else if decide (r = MP_CACHE_ROLE_OPERATOR) then cstr "operator"
  else if decide (r = MP_CACHE_ROLE_ADMIN) then cstr "admin"
  else cstr "none".

Definition mp_cache_role_from_string (role_text : option bytes) : Z :=
  match role_text with
  | None => MP_CACHE_ROLE_NONE
  | Some t =>
    if decide (t = cstr "client") then MP_CACHE_ROLE_CLIENT
    else if decide (t = cstr "operator") then MP_CACHE_ROLE_OPERATOR
    else if decide (t = cstr "admin") then MP_CACHE_ROLE_ADMIN
    else MP_CACHE_ROLE_NONE
  end.

Definition mp_cache_security_status_name (status : mp_cache_security_status_t) : bytes :=
  match status with
  | MP_CACHE_SECURITY_STATUS_OK => cstr "OK"
  | MP_CACHE_SECURITY_STATUS_NOT_FOUND => cstr "NOT_FOUND"
  | MP_CACHE_SECURITY_STATUS_CONFLICT => cstr "CONFLICT"
  | MP_CACHE_SECURITY_STATUS_INVALID_ARGUMENT => cstr "INVALID_ARGUMENT"
  | MP_CACHE_SECURITY_STATUS_SECRET_ERROR => cstr "SECRET_ERROR"
  | MP_CACHE_SECURITY_STATUS_NO_MEMORY => cstr "NO_MEMORY"
  | MP_CACHE_SECURITY_STATUS_IO_ERROR => cstr "IO_ERROR"
  | MP_CACHE_SECURITY_STATUS_UNAUTHORIZED => cstr "UNAUTHORIZED"
  | MP_CACHE_SECURITY_STATUS_LIMIT_EXCEEDED => cstr "LIMIT_EXCEEDED"
  end.

(** ** The registry invariant *)

Definition hash_ok (h : bytes) : Prop := length h = MP_CACHE_TOKEN_HASH_SIZE ∧ bytes_wf h.

(** A [mp_cache_role_t] argument is an unsigned 32-bit value. *)
Definition role_range (r : Z) : Prop := 0 ≤ r < 2 ^ 32.

(** A stored principal: a valid id, a role, and no usable hash once revoked. *)
Record record_ok (r : mp_cache_client_record_t) : Prop := {
  rec_id : mp_cache_client_id_is_valid (Some (client_id r)) = true;
  rec_role : MP_CACHE_ROLE_NONE < role r < 2 ^ 32;
  rec_hash : hash_ok (token_hash r);
  rec_inactive : token_active r = false → token_hash r = zeros MP_CACHE_TOKEN_HASH_SIZE;
}.

Record security_wf (security : mp_cache_security_t) : Prop := {
  sec_nodup : NoDup (client_id <$> records security);
  sec_records : Forall record_ok (records security);
  sec_count : zlen (records security) ≤ capacity security;
  sec_capacity : 0 ≤ capacity security ≤ MP_CACHE_MAX_CLIENTS;
  sec_bootstrap : hash_ok (bootstrap_admin_hash security);
}.

Lemma hash_ok_sha256 m : hash_ok (mp_cache_sha256 m).
Proof. split; [apply length_sha256|]. rewrite sha256_correct. apply sha256_oneshot_wf. Qed.

Lemma hash_ok_zeros : hash_ok (zeros MP_CACHE_TOKEN_HASH_SIZE).
Proof. split; [by rewrite length_zeros|apply zeros_wf]. Qed.
Lemma hash_ok_token t : hash_ok (mp_cache_hash_token t).
Proof. apply hash_ok_sha256. Qed.
#[export] Hint Resolve hash_ok_token hash_ok_zeros : mpc.

(** The constant-time comparison decides equality of hashes. *)
Lemma hash_equals h1 h2 :
  hash_ok h1 → hash_ok h2 →
  mp_cache_constant_time_equals h1 h2 MP_CACHE_TOKEN_HASH_SIZE = bool_decide (h1 = h2).
Proof.
  intros [Hl1 Hw1] [Hl2 Hw2]. rewrite constant_time_equals_spec by (done || lia).
  by rewrite !take_ge by lia.
Qed.

Lemma valid_id_length id : mp_cache_client_id_is_valid (Some id) = true → (0 < length id < 64)%nat.
Proof.
  simpl. case_decide as Hd; [done|]. intros _. unfold MP_CACHE_CLIENT_ID_CAP in Hd.
  destruct id; simpl in *; [naive_solver|]. split; [lia|]. destruct (decide (S (length id) < 64)%nat); [done|].
  exfalso. apply Hd. right. lia.
Qed.

Lemma snprintf_valid_id id :
  mp_cache_client_id_is_valid (Some id) = true → snprintf_s MP_CACHE_CLIENT_ID_CAP id = id.
Proof.
  intros Hv%valid_id_length. unfold snprintf_s, MP_CACHE_CLIENT_ID_CAP. apply take_ge. lia.
Qed.

(** ** Finding a record *)

Lemma find_record_from_spec n rs id :
  match find_record_from n rs id with
  | Some (i, r) => ∃ l1 l2, rs = l1 ++ r :: l2 ∧ client_id r = id ∧ i = (n + length l1)%nat
  | None => id ∉ (client_id <$> rs)
  end.
Proof.
  revert n. induction rs as [|r rs IH]; intros n; simpl; [apply not_elem_of_nil|].
  case_decide as Hid.
  - exists [], rs. by rewrite Nat.add_0_r.
  - specialize (IH (S n)). destruct (find_record_from (S n) rs id) as [[i r']|].
    + destruct IH as (l1 & l2 & -> & ? & ->). exists (r :: l1), l2. split; [done|].
      split; [done|]. simpl. lia.
    + rewrite not_elem_of_cons. split; [congruence|done].
Qed.

Lemma find_record_split security id i r :
  mp_cache_security_find_record security (Some id) = Some (i, r) →
  client_id r = id ∧ ∃ l1 l2, records security = l1 ++ r :: l2 ∧
    ∀ r', <[i := r']> (records security) = l1 ++ r' :: l2.
Proof.
  intros Hf. simpl in Hf. pose proof (find_record_from_spec 0 (records security) id) as Hs.
  rewrite Hf in Hs. destruct Hs as (l1 & l2 & Heq & ? & ->). split; [done|].
  exists l1, l2. split; [done|]. intros r'. rewrite Heq.
  by rewrite insert_app_r_alt, Nat.add_0_l, Nat.sub_diag by lia.
Qed.

Lemma find_record_none security id :
  mp_cache_security_find_record security (Some id) = None ↔ id ∉ (client_id <$> records security).
Proof.
  simpl. pose proof (find_record_from_spec 0 (records security) id) as Hs.
  destruct (find_record_from 0 (records security) id) as [[i r]|]; [|done].
  destruct Hs as (l1 & l2 & -> & <- & _). split; [done|]. intros []. rewrite fmap_app. set_solver.
Qed.

(** ** Keeping the invariant *)

(** Replacing a record by one with the same id. *)
Lemma replace_record_wf security id i r r' :
  security_wf security → mp_cache_security_find_record security (Some id) = Some (i, r) →
  client_id r' = client_id r → record_ok r' →
  security_wf (set_records security (<[i := r']> (records security))).
Proof.
  intros Hwf Hf Hid Hok. destruct (find_record_split _ _ _ _ Hf) as (_ & l1 & l2 & Heq & Hins).
  destruct Hwf as [Hnd Hr Hc Hcap Hb]. rewrite Heq in *. split; simpl; rewrite ?Hins; try done.
  - rewrite fmap_app, fmap_cons in Hnd |- *. by rewrite Hid.
  - apply Forall_app in Hr as [? [_ ?]%Forall_cons]. apply Forall_app. split; [done|].
    by apply Forall_cons.
  - by len_simpl.
Qed.

(** Appending a record for a new id. *)
Lemma append_record_wf security r :
  security_wf security → zlen (records security) < capacity security →
  client_id r ∉ (client_id <$> records security) → record_ok r →
  security_wf (set_records security (records security ++ [r])).
Proof.
  intros [Hnd Hr Hc Hcap Hb] Hlt Hid Hok. split; simpl; try done.
  - rewrite fmap_app. apply NoDup_app. split; [done|]. split; [|apply NoDup_singleton].
    intros x Hx ->%list_elem_of_singleton. done.
  - apply Forall_app. split; [done|]. by constructor.
  - len_simpl. lia.
Qed.

(** Growing keeps the records and makes room, or fails with a status. *)
Lemma ensure_capacity_spec security h :
  security_wf security →
  ∃ status security' h',
    mp_cache_security_ensure_capacity security h = (status, security', h') ∧
    security_wf security' ∧ records security' = records security ∧
    bootstrap_admin_hash security' = bootstrap_admin_hash security ∧
    bootstrap_admin_loaded security' = bootstrap_admin_loaded security ∧
    match status with
    | MP_CACHE_SECURITY_STATUS_OK => zlen (records security') < capacity security'
    | MP_CACHE_SECURITY_STATUS_LIMIT_EXCEEDED =>
        zlen (records security) = MP_CACHE_MAX_CLIENTS ∧ security' = security
    | MP_CACHE_SECURITY_STATUS_NO_MEMORY => ¬ heap_ok h ∧ security' = security
    | _ => False
    end.
Proof.
  intros Hwf. pose proof Hwf as [Hnd Hr Hc Hcap Hb]. unfold mp_cache_security_ensure_capacity.
  case_decide as Hlt; [by eexists _, _, _|]. case_decide as Hmax.
  { eexists _, _, _. repeat (split; [done|]). split; [unfold MP_CACHE_MAX_CLIENTS in *; lia|done]. }
  cbv zeta. unfold mbind, ST_bind. step_alloc b.
  unfold MP_CACHE_MAX_CLIENTS, MP_CACHE_INITIAL_CLIENT_CAPACITY in *.
  pose proof (zlen_nonneg (records security)).
  set (next := if decide (capacity security = 0) then 8 else u64 (capacity security * 2)).
  assert (zlen (records security) < next) as Hn.
  { unfold next. case_decide; [lia|]. rewrite u64_small; lia. }
  destruct b; eexists _, _, _; (split; [reflexivity|]); simpl.
  - split; [|repeat split; case_decide; lia]. split; try done; simpl; case_decide; unfold MP_CACHE_MAX_CLIENTS; lia.
  - repeat (split; [done|]). split; [solve_oom|done].
Qed.

Lemma issue_token_spec cap e :
  ∃ status token e',
    mp_cache_security_issue_token cap e = (status, token, e') ∧
    match status with
    | MP_CACHE_SECURITY_STATUS_OK => length token = 64%nat ∧
        ∃ raw, mp_cache_random_bytes MP_CACHE_TOKEN_RANDOM_BYTES e = (Ret raw, e') ∧
          length raw = 32%nat ∧ mp_cache_hex_encode raw cap = Ret token
    | MP_CACHE_SECURITY_STATUS_INVALID_ARGUMENT => cap < MP_CACHE_TOKEN_TEXT_CAP
    | MP_CACHE_SECURITY_STATUS_IO_ERROR => True
    | _ => False
    end.
Proof.
  unfold mp_cache_security_issue_token. case_decide; [by eexists _, _, _|].
  unfold mbind, ST_bind. destruct (mp_cache_random_bytes _ e) as [[raw|?|] e'] eqn:Hr; [|by eexists _, _, _..].
  assert (length raw = 32%nat) as Hl.
  { pose proof (random_bytes_length MP_CACHE_TOKEN_RANDOM_BYTES e) as Hlen. by rewrite Hr in Hlen. }
  destruct (mp_cache_hex_encode raw cap) as [token|?|] eqn:Hh; eexists _, _, _; split; try reflexivity; try done.
  split; [|by exists raw]. apply hex_encode_length in Hh. lia.
Qed.

Section InvariantPreserved.
Context (security : mp_cache_security_t) (Hwf : security_wf security).

Lemma find_record_ok id i r :
  mp_cache_security_find_record security (Some id) = Some (i, r) → record_ok r ∧ client_id r = id.
Proof.
  intros Hf. destruct (find_record_split _ _ _ _ Hf) as (? & l1 & l2 & Heq & _). split; [|done].
  pose proof (sec_records _ Hwf) as Hr. rewrite Heq in Hr.
  by apply Forall_app in Hr as [_ [? _]%Forall_cons].
Qed.

Lemma register_wf id new_role cap hs :
  role_range new_role →
  security_wf (mp_cache_security_register_client security id new_role cap hs).1.2.
Proof.
  intros Hrange. unfold mp_cache_security_register_client. case_decide as Ha; [done|].
  apply Decidable.not_or in Ha as [Hrole Hid%Bool.not_false_is_true].
  destruct id as [id|]; [|done].
  destruct (mp_cache_security_find_record security (Some id)) as [[]|] eqn:Hf; [done|].
  unfold mbind, ST_bind, on_fst, on_snd.
  destruct (ensure_capacity_spec security hs.1 Hwf) as (st & s' & h' & -> & Hwf' & Hr & _ & _ & Hst).
  case_decide as Hok; [done|].
  destruct (issue_token_spec cap hs.2) as (st2 & token & e' & He & Ht). simpl. rewrite He.
  case_decide as Hok2; [done|]. simpl.
  subst. apply append_record_wf; [done|done| |].
  - simpl. rewrite snprintf_valid_id by done. rewrite Hr. by apply find_record_none.
  - split; simpl; [by rewrite snprintf_valid_id| |apply hash_ok_token|done].
    unfold role_range, MP_CACHE_ROLE_NONE in *. lia.
Qed.

Lemma rotate_wf id cap e :
  security_wf (mp_cache_security_rotate_client_token security id cap e).1.2.
Proof.
  unfold mp_cache_security_rotate_client_token. case_decide as Hid; [done|].
  destruct id as [id|]; [|done].
  destruct (mp_cache_security_find_record security (Some id)) as [[i r]|] eqn:Hf; [|done].
  unfold mbind, ST_bind. destruct (issue_token_spec cap e) as (st & token & e' & -> & _).
  case_decide; [done|]. simpl.
  destruct (find_record_ok _ _ _ Hf) as [[] _].
  eapply replace_record_wf; [done|done|done|]. split; simpl; auto with mpc; done.
Qed.

Lemma invalidate_wf id : security_wf (mp_cache_security_invalidate_client_token security id).2.
Proof.
  unfold mp_cache_security_invalidate_client_token. case_decide as Hid; [done|].
  destruct id as [id|]; [|done].
  destruct (mp_cache_security_find_record security (Some id)) as [[i r]|] eqn:Hf; [|done].
  destruct (find_record_ok _ _ _ Hf) as [[] _].
  eapply replace_record_wf; [done|done|done|]. split; simpl; auto with mpc.
Qed.

Lemma import_wf id new_role hash active h :
  role_range new_role → (active = true → ∀ b, hash = Some b → hash_ok b) →
  security_wf (mp_cache_security_import_client_hash security id new_role hash active h).1.2.
Proof.
  intros Hrange Hhash. unfold mp_cache_security_import_client_hash. case_decide as Ha; [done|].
  apply Decidable.not_or in Ha as [Hrole Hid%Bool.not_false_is_true]. case_decide as Hb; [done|].
  destruct id as [id|]; [|done].
  assert (MP_CACHE_ROLE_NONE < new_role < 2 ^ 32) by (unfold role_range, MP_CACHE_ROLE_NONE in *; lia).
  assert (hash_ok (if active then default [] hash else zeros MP_CACHE_TOKEN_HASH_SIZE)).
  { destruct active; [|auto with mpc]. destruct hash; [by apply Hhash|]. exfalso. by apply Hb. }
  destruct (mp_cache_security_find_record security (Some id)) as [[i r]|] eqn:Hf.
  - destruct (find_record_ok _ _ _ Hf) as [[] _]. eapply replace_record_wf; [done|done|done|].
    split; simpl; try done. by intros ->.
  - unfold mbind, ST_bind.
    destruct (ensure_capacity_spec security h Hwf) as (st & s' & h' & -> & Hwf' & Hr & _ & _ & Hst).
    case_decide as Hok; [done|]. simpl. subst.
    apply append_record_wf; [done|done| |].
    + simpl. rewrite snprintf_valid_id by done. rewrite Hr. by apply find_record_none.
    + split; simpl; [by rewrite snprintf_valid_id|done|done|by intros ->].
Qed.

Lemma clear_clients_wf : security_wf (mp_cache_security_clear_clients security).
Proof.
  destruct Hwf. split; simpl; try done; [constructor|]. change (0 ≤ capacity security). lia.
Qed.
End InvariantPreserved.

(** ** Authentication *)

Definition token_matches (hash : bytes) (r : mp_cache_client_record_t) : Prop :=
  token_active r = true ∧ token_hash r = hash.
#[export] Instance token_matches_dec hash r : Decision (token_matches hash r).
Proof. unfold token_matches. apply _. Defined.

(** The loop returns the first active record with the hash. *)
Lemma authenticate_records_spec hash rs :
  hash_ok hash → Forall record_ok rs →
  authenticate_records hash rs =
    match head (filter (token_matches hash) rs) with
    | Some r => (MP_CACHE_SECURITY_STATUS_OK, Some (Principal (role r) (client_id r)))
    | None => (MP_CACHE_SECURITY_STATUS_UNAUTHORIZED, None)
    end.
Proof.
  intros Hh Hrs. induction Hrs as [|r rs Hr _ IH]; [done|]. cbn [authenticate_records].
  rewrite hash_equals by (done || apply Hr). rewrite filter_cons.
  destruct (decide (token_matches hash r)) as [[Ha He]|Hn].
  - by rewrite Ha, bool_decide_true.
  - rewrite <-IH. destruct (token_active r) eqn:Ha; [|done].
    rewrite bool_decide_false; [done|]. intros ->. by apply Hn.
Qed.

(** Who a token stands for: the bootstrap administrator, or a client whose
    active hash is the token's. *)
Inductive credential (security : mp_cache_security_t) (token : bytes) : mp_cache_principal_t → Prop :=
| cred_bootstrap :
    bootstrap_admin_loaded security = true → bootstrap_admin_hash security = sha256_oneshot token →
    credential security token (Principal MP_CACHE_ROLE_ADMIN MP_CACHE_BOOTSTRAP_ADMIN_ID)
| cred_client r :
    r ∈ records security → token_matches (sha256_oneshot token) r →
    credential security token (Principal (role r) (client_id r)).

(** [authenticate] as a decision on the hash. *)
Definition authenticate_hash (security : mp_cache_security_t) (hash : bytes)
    : mp_cache_security_status_t * option mp_cache_principal_t :=
  if decide (bootstrap_admin_loaded security = true ∧ bootstrap_admin_hash security = hash)
  then (MP_CACHE_SECURITY_STATUS_OK, Some (Principal MP_CACHE_ROLE_ADMIN MP_CACHE_BOOTSTRAP_ADMIN_ID))
  else match head (filter (token_matches hash) (records security)) with
       | Some r => (MP_CACHE_SECURITY_STATUS_OK, Some (Principal (role r) (client_id r)))
       | None => (MP_CACHE_SECURITY_STATUS_UNAUTHORIZED, None)
       end.

Lemma authenticate_spec security token :
  security_wf security → token ≠ [] →
  mp_cache_security_authenticate security (Some token) = authenticate_hash security (sha256_oneshot token).
Proof.
  intros Hwf Hne. unfold mp_cache_security_authenticate. destruct token as [|c token]; [done|].
  rewrite hash_equals by (apply Hwf || apply hash_ok_token).
  rewrite authenticate_records_spec by (apply Hwf || apply hash_ok_token).
  unfold authenticate_hash, mp_cache_hash_token. cbn [default]. rewrite sha256_correct.
  destruct (decide (bootstrap_admin_loaded security = true ∧
    bootstrap_admin_hash security = sha256_oneshot (c :: token))) as [[Hl He]|Hn].
  - by rewrite Hl, bool_decide_true.
  - destruct (bootstrap_admin_loaded security); [|done].
    rewrite bool_decide_false; [done|]. intros Heq. by apply Hn.
Qed.

(** ** Reachable registries *)

Inductive security_op :=
| OpRegister (id : bytes) (new_role cap : Z)
| OpRotate (id : bytes) (cap : Z)
| OpInvalidate (id : bytes)
| OpImport (id : bytes) (new_role : Z) (hash : bytes) (active : bool)
| OpClearClients.

(** Roles are 32-bit values; an imported hash is read from a 32-byte field. *)
Definition security_op_ok (op : security_op) : Prop :=
  match op with
  | OpRegister _ r _ => role_range r
  | OpImport _ r hash _ => role_range r ∧ hash_ok hash
  | _ => True
  end.

Definition run_security_op (security : mp_cache_security_t) (op : security_op)
    : ST (heap * entropy) (mp_cache_security_status_t * mp_cache_security_t) :=
  match op with
  | OpRegister id new_role cap =>
    '(status, _, security') ← mp_cache_security_register_client security (Some id) new_role cap;
    mret (status, security')
  | OpRotate id cap =>
    '(status, _, security') ← on_snd (mp_cache_security_rotate_client_token security (Some id) cap);
    mret (status, security')
  | OpInvalidate id => mret (mp_cache_security_invalidate_client_token security (Some id))
  | OpImport id new_role hash active =>
    on_fst (mp_cache_security_import_client_hash security (Some id) new_role (Some hash) active)
  | OpClearClients => mret (MP_CACHE_SECURITY_STATUS_OK, mp_cache_security_clear_clients security)
  end.

Inductive security_reachable (host : secret_host) (config : mp_cache_config_t)
    : mp_cache_security_t → Prop :=
| security_reachable_init security :
    mp_cache_security_init host config = Ret security → security_reachable host config security
| security_reachable_step security op hs status security' hs' :
    security_reachable host config security → security_op_ok op →
    run_security_op security op hs = (status, security', hs') →
    security_reachable host config security'.

Lemma run_security_op_wf security op hs :
  security_wf security → security_op_ok op → security_wf (run_security_op security op hs).1.2.
Proof.
  intros Hwf Hop. destruct op as [id r cap|id cap|id|id r hash active|];
    unfold run_security_op, mbind, ST_bind, on_fst, on_snd.
  - pose proof (register_wf security Hwf (Some id) r cap hs Hop) as H.
    by destruct (mp_cache_security_register_client _ _ _ _ _) as [[[] ?] ?].
  - pose proof (rotate_wf security Hwf (Some id) cap hs.2) as H.
    by destruct (mp_cache_security_rotate_client_token _ _ _ _) as [[[] ?] ?].
  - apply (invalidate_wf security Hwf (Some id)).
  - destruct Hop as [Hr Hh]. pose proof (import_wf security Hwf (Some id) r (Some hash) active hs.1 Hr) as H.
    destruct (mp_cache_security_import_client_hash _ _ _ _ _ _) as [[] ?].
    apply H. by intros _ b [= <-].
  - by apply clear_clients_wf.
Qed.

Lemma init_wf host config security :
  mp_cache_security_init host config = Ret security → security_wf security.
Proof.
  unfold mp_cache_security_init. destruct (mp_cache_secret_resolve _ _ _) as [t|?|]; cbn; try done.
  intros [= <-]. split; cbn; try done; [constructor|apply hash_ok_token].
Qed.

Lemma security_reachable_wf host config security :
  security_reachable host config security → security_wf security.
Proof.
  induction 1 as [security Hi|security op hs status security' hs' _ Hwf Hop Hrun].
  - by eapply init_wf.
  - pose proof (run_security_op_wf security op hs Hwf Hop) as H. by rewrite Hrun in H.
Qed.

(** ** Registration, branch by branch *)

Lemma register_spec security id new_role cap hs :
  security_wf security →
  ∃ status token security' hs',
    mp_cache_security_register_client security (Some id) new_role cap hs =
      (status, token, security', hs') ∧
    bootstrap_admin_hash security' = bootstrap_admin_hash security ∧
    bootstrap_admin_loaded security' = bootstrap_admin_loaded security ∧
    (status ≠ MP_CACHE_SECURITY_STATUS_OK → records security' = records security) ∧
    match status with
    | MP_CACHE_SECURITY_STATUS_OK =>
        mp_cache_client_id_is_valid (Some id) = true ∧ new_role ≠ MP_CACHE_ROLE_NONE ∧
        (id ∉ (client_id <$> records security)) ∧ length token = 64%nat ∧
        (∃ raw, mp_cache_random_bytes MP_CACHE_TOKEN_RANDOM_BYTES hs.2 = (Ret raw, hs'.2) ∧
           mp_cache_hex_encode raw cap = Ret token) ∧
        records security' = records security ++ [ClientRecord id new_role true (sha256_oneshot token)]
    | MP_CACHE_SECURITY_STATUS_CONFLICT => id ∈ (client_id <$> records security)
    | MP_CACHE_SECURITY_STATUS_INVALID_ARGUMENT =>
        mp_cache_client_id_is_valid (Some id) = false ∨ new_role = MP_CACHE_ROLE_NONE ∨
        cap < MP_CACHE_TOKEN_TEXT_CAP
    | MP_CACHE_SECURITY_STATUS_LIMIT_EXCEEDED => zlen (records security) = MP_CACHE_MAX_CLIENTS
    | MP_CACHE_SECURITY_STATUS_NO_MEMORY => ¬ heap_ok hs.1
    | MP_CACHE_SECURITY_STATUS_IO_ERROR => True
    | _ => False
    end.
Proof.
  intros Hwf. unfold mp_cache_security_register_client. case_decide as Ha.
  { eexists _, _, _, _. repeat (split; [done|]). tauto. }
  apply Decidable.not_or in Ha as [Hrole Hid%Bool.not_false_is_true].
  destruct (mp_cache_security_find_record security (Some id)) as [[i r]|] eqn:Hf.
  { eexists _, _, _, _. repeat (split; [done|]).
    destruct (find_record_split _ _ _ _ Hf) as (<- & l1 & l2 & -> & _). rewrite fmap_app. set_solver. }
  apply find_record_none in Hf. unfold mbind, ST_bind, on_fst, on_snd.
  destruct (ensure_capacity_spec security hs.1 Hwf) as (st & s' & h' & -> & _ & Hr & Hb1 & Hb2 & Hst).
  case_decide as Hok.
  { eexists _, _, _, _. repeat (split; [done|]). by destruct st; try tauto. }
  destruct (issue_token_spec cap hs.2) as (st2 & token & e' & He & Ht). cbn [fst snd]. rewrite He.
  case_decide as Hok2.
  { eexists _, _, _, _. repeat (split; [done|]). destruct st2; try done. auto. }
  subst. destruct Ht as (? & raw & ? & _ & ?). eexists _, _, _, _. repeat (split; [done|]).
  split; [by eauto|]. cbn [set_records records]. rewrite Hr, snprintf_valid_id by done.
  unfold mp_cache_hash_token. by rewrite sha256_correct.
Qed.

(** A registry whose record array is extended at the end authenticates every
    hash it authenticated before, with the same principal. *)
Lemma authenticate_hash_app security security' rs hash p :
  bootstrap_admin_hash security' = bootstrap_admin_hash security →
  bootstrap_admin_loaded security' = bootstrap_admin_loaded security →
  records security' = records security ++ rs →
  authenticate_hash security hash = (MP_CACHE_SECURITY_STATUS_OK, Some p) →
  authenticate_hash security' hash = (MP_CACHE_SECURITY_STATUS_OK, Some p).
Proof.
  intros Hb1 Hb2 Hr. unfold authenticate_hash. rewrite Hb1, Hb2, Hr, filter_app.
  case_decide; [done|]. by destruct (filter _ (records security)).
Qed.

Lemma credential_authenticate security token p :
  authenticate_hash security (sha256_oneshot token) = (MP_CACHE_SECURITY_STATUS_OK, Some p) →
  credential security token p.
Proof.
  unfold authenticate_hash. case_decide as Hb.
  - destruct Hb. intros [= <-]. by apply cred_bootstrap.
  - destruct (filter _ _) as [|r rs] eqn:Hf; [done|]. intros [= <-].
    assert (r ∈ filter (token_matches (sha256_oneshot token)) (records security)) as Hin
      by (rewrite Hf; constructor).
    apply list_elem_of_filter in Hin as [? ?]. by apply cred_client.
Qed.

Lemma authenticate_credential security token :
  (∃ p, credential security token p) →
  ∃ p, authenticate_hash security (sha256_oneshot token) = (MP_CACHE_SECURITY_STATUS_OK, Some p).
Proof.
  intros [p Hp]. unfold authenticate_hash. case_decide as Hb; [by eexists|].
  destruct Hp as [? ?|r Hr Hm]; [by destruct Hb|].
  destruct (filter _ _) as [|r' rs] eqn:Hf; [|by eexists].
  by apply filter_nil_not_elem_of with (x := r) in Hf.
Qed.

Lemma authenticate_hash_ok security hash :
  (∃ p, authenticate_hash security hash = (MP_CACHE_SECURITY_STATUS_OK, Some p)) ∨
  authenticate_hash security hash = (MP_CACHE_SECURITY_STATUS_UNAUTHORIZED, None).
Proof. unfold authenticate_hash. case_decide; [eauto|]. destruct (head _); eauto. Qed.

(** The invalidated and the rotated registry. *)
Lemma invalidate_spec security id :
  security_wf security →
  let '(status, security') := mp_cache_security_invalidate_client_token security (Some id) in
  (status ≠ MP_CACHE_SECURITY_STATUS_OK → security' = security) ∧
  (status = MP_CACHE_SECURITY_STATUS_OK ↔
     mp_cache_client_id_is_valid (Some id) = true ∧ id ∈ (client_id <$> records security)) ∧
  (status = MP_CACHE_SECURITY_STATUS_OK → ∃ l1 r l2,
     records security = l1 ++ r :: l2 ∧ client_id r = id ∧
     security' = set_records security (l1 ++ ClientRecord id (role r) false (zeros 32) :: l2)).
Proof.
  intros Hwf. unfold mp_cache_security_invalidate_client_token. case_decide as Hv.
  { split; [done|]. split; [|done]. rewrite Hv. split; [done|by intros [??]]. }
  apply Bool.not_false_is_true in Hv.
  destruct (mp_cache_security_find_record security (Some id)) as [[i r]|] eqn:Hf.
  - destruct (find_record_split _ _ _ _ Hf) as (Hid & l1 & l2 & Heq & Hins). split; [done|]. split.
    + split; [|done]. intros _. split; [done|]. rewrite Heq, fmap_app, fmap_cons, Hid. set_solver.
    + intros _. exists l1, r, l2. repeat (split; [done|]). by rewrite Hins, Hid.
  - apply find_record_none in Hf. split; [done|]. split; [|done].
    split; [done|by intros [_ ?]].
Qed.

Lemma rotate_spec security id cap e :
  security_wf security →
  ∃ status token security' e',
    mp_cache_security_rotate_client_token security (Some id) cap e = (status, token, security', e') ∧
    (status ≠ MP_CACHE_SECURITY_STATUS_OK → security' = security) ∧
    (status = MP_CACHE_SECURITY_STATUS_OK → token ≠ [] ∧ ∃ l1 r l2,
       records security = l1 ++ r :: l2 ∧ client_id r = id ∧
       security' = set_records security (l1 ++ ClientRecord id (role r) true (sha256_oneshot token) :: l2)).
Proof.
  intros Hwf. unfold mp_cache_security_rotate_client_token.
  case_decide as Hv; [by eexists _, _, _, _|].
  destruct (mp_cache_security_find_record security (Some id)) as [[i r]|] eqn:Hf; [|by eexists _, _, _, _].
  unfold mbind, ST_bind. destruct (issue_token_spec cap e) as (st & token & e' & -> & Ht).
  case_decide as Hok; [by eexists _, _, _, _|]. subst. destruct Ht as [Hl _].
  destruct (find_record_split _ _ _ _ Hf) as (Hid & l1 & l2 & Heq & Hins).
  eexists _, _, _, _. split; [reflexivity|]. split; [done|]. intros _. split; [by destruct token|].
  exists l1, r, l2. repeat (split; [done|]). rewrite Hins, Hid. unfold mp_cache_hash_token.
  by rewrite sha256_correct.
Qed.

(** No operation touches the bootstrap credential. *)
Lemma run_security_op_loaded security op hs :
  security_wf security →
  bootstrap_admin_loaded (run_security_op security op hs).1.2 = bootstrap_admin_loaded security.
Proof.
  intros Hwf. destruct op as [id r cap|id cap|id|id r hash active|];
    unfold run_security_op, mbind, ST_bind, on_fst, on_snd.
  - by destruct (register_spec security id r cap hs Hwf) as (? & ? & ? & ? & -> & _ & ? & _).
  - destruct (rotate_spec security id cap hs.2 Hwf) as (st & ? & ? & ? & -> & Hn & Ho). cbn.
    destruct (decide (st = MP_CACHE_SECURITY_STATUS_OK)) as [Hst|Hst]; [|by rewrite Hn].
    by destruct (Ho Hst) as (_ & ? & ? & ? & _ & _ & ->).
  - cbn. unfold mp_cache_security_invalidate_client_token. by repeat (case_decide || case_match).
  - unfold mp_cache_security_import_client_hash. repeat (case_decide; [done|]).
    destruct (mp_cache_security_find_record security (Some id)) as [[]|]; [done|].
    unfold mbind, ST_bind.
    destruct (ensure_capacity_spec security hs.1 Hwf) as (st & s' & h' & -> & _ & _ & _ & Hl & _).
    by case_decide.
  - done.
Qed.

Lemma security_reachable_loaded host config security :
  security_reachable host config security → bootstrap_admin_loaded security = true.
Proof.
  induction 1 as [security Hi|security op hs status security' hs' Hr IH Hop Hrun].
  - unfold mp_cache_security_init in Hi. destruct (mp_cache_secret_resolve _ _ _); try done.
    by injection Hi as <-.
  - pose proof (run_security_op_loaded security op hs (security_reachable_wf _ _ _ Hr)) as Hl.
    rewrite Hrun in Hl. cbn in Hl. congruence.
Qed.

Lemma file_ref_absolute ref :
  starts_with SECRET_FILE_PREFIX ref = true → head (drop 5 ref) = Some 47 →
  starts_with (cstr "file:/") ref = true.
Proof.
  unfold starts_with. rewrite !bool_decide_eq_true. intros Hp Hh.
  change (length SECRET_FILE_PREFIX) with 5%nat in Hp.
  rewrite <-(take_drop 5 ref), Hp. destruct (drop 5 ref); [done|]. by injection Hh as ->.
Qed.

(** ** Importing a record *)

(** Replace the record with the same id, or append. *)
Definition upsert_record (r : mp_cache_client_record_t) (rs : list mp_cache_client_record_t)
    : list mp_cache_client_record_t :=
  match find_record_from 0 rs (client_id r) with
  | Some (i, _) => <[i := r]> rs
  | None => rs ++ [r]
  end.

Lemma upsert_record_new r rs : client_id r ∉ (client_id <$> rs) → upsert_record r rs = rs ++ [r].
Proof.
  intros Hn. unfold upsert_record. pose proof (find_record_from_spec 0 rs (client_id r)) as Hs.
  destruct (find_record_from 0 rs (client_id r)) as [[i r']|]; [|done].
  destruct Hs as (l1 & l2 & -> & Hid & _). destruct Hn. rewrite fmap_app, fmap_cons, Hid. set_solver.
Qed.

Lemma ensure_capacity_heap_ok security h status security' h' :
  mp_cache_security_ensure_capacity security h = (status, security', h') → heap_ok h → heap_ok h'.
Proof.
  unfold mp_cache_security_ensure_capacity, mret, ST_ret. repeat (case_decide; [intros; by simplify_eq|]).
  unfold mbind, ST_bind. cbv zeta. destruct (alloc h) as [b h1] eqn:Ha. intros He Hh.
  destruct (alloc_heap_ok _ _ _ Ha Hh) as [_ ?]. destruct b; by simplify_eq.
Qed.

(** Importing a well-formed record stores it, unless the registry is full or
    memory runs out. *)
Lemma import_outcome security r h :
  security_wf security → record_ok r →
  ∃ status security' h',
    mp_cache_security_import_client_hash security (Some (client_id r)) (role r) (Some (token_hash r))
      (token_active r) h = (status, security', h') ∧
    security_wf security' ∧ (heap_ok h → heap_ok h') ∧
    bootstrap_admin_hash security' = bootstrap_admin_hash security ∧
    bootstrap_admin_loaded security' = bootstrap_admin_loaded security ∧
    match status with
    | MP_CACHE_SECURITY_STATUS_OK => records security' = upsert_record r (records security)
    | MP_CACHE_SECURITY_STATUS_LIMIT_EXCEEDED => security' = security ∧
        zlen (records security) = MP_CACHE_MAX_CLIENTS ∧ client_id r ∉ (client_id <$> records security)
    | MP_CACHE_SECURITY_STATUS_NO_MEMORY => security' = security ∧ ¬ heap_ok h
    | _ => False
    end.
Proof.
  intros Hwf Hr. pose proof Hr as [Hid Hrole Hhash Hina].
  assert (role_range (role r)) as Hrange by (unfold role_range, MP_CACHE_ROLE_NONE in *; lia).
  pose proof (import_wf security Hwf (Some (client_id r)) (role r) (Some (token_hash r)) (token_active r) h
    Hrange ltac:(by intros _ b [= <-])) as Hwf'.
  unfold mp_cache_security_import_client_hash in *.
  rewrite decide_False in * by (unfold MP_CACHE_ROLE_NONE in *; intros [?|?]; [lia|congruence]).
  rewrite decide_False in * by (by intros [_ ?]). cbv zeta in *.
  replace (if token_active r then default [] (Some (token_hash r)) else zeros MP_CACHE_TOKEN_HASH_SIZE)
    with (token_hash r) in * by (destruct (token_active r); [done|by apply Hina]).
  unfold upsert_record. change (find_record_from 0 (records security) (client_id r))
    with (mp_cache_security_find_record security (Some (client_id r))).
  destruct (mp_cache_security_find_record security (Some (client_id r))) as [[i r']|] eqn:Hf.
  - destruct (find_record_split _ _ _ _ Hf) as [Hid' _].
    eexists _, _, _. split; [reflexivity|]. split; [done|]. repeat (split; [done|]). cbn.
    rewrite Hid'. by destruct r.
  - apply find_record_none in Hf. unfold mbind, ST_bind in *.
    destruct (ensure_capacity_spec security h Hwf) as (st & s' & h' & He & Hwf2 & Hrs & Hb1 & Hb2 & Hst).
    pose proof (ensure_capacity_heap_ok _ _ _ _ _ He) as Hh. rewrite He in *.
    case_decide as Hok; eexists _, _, _; (split; [reflexivity|]); split; try done; split; try done.
    + split; [done|]. split; [done|]. destruct st; try done; [by destruct Hst|]. by destruct Hst.
    + repeat (split; [done|]). cbn [set_records records default].
      rewrite Hrs. cbn [id]. rewrite snprintf_valid_id by done. by destruct r.
Qed.

(** ** Properties *)

(** C8. Authentication accepts a non-empty token exactly when its SHA-256
    digest is the loaded bootstrap hash or the hash of an active client record,
    the principal it returns is one the token is a credential of, and every
    other token is answered UNAUTHORIZED; an empty or missing token is an
    invalid argument. *)
Theorem authenticate_sound_complete security token :
  security_wf security →
  mp_cache_security_authenticate security None = (MP_CACHE_SECURITY_STATUS_INVALID_ARGUMENT, None) ∧
  mp_cache_security_authenticate security (Some []) = (MP_CACHE_SECURITY_STATUS_INVALID_ARGUMENT, None) ∧
  (token ≠ [] →
    (∀ p, mp_cache_security_authenticate security (Some token) =
            (MP_CACHE_SECURITY_STATUS_OK, Some p) → credential security token p) ∧
    ((∃ p, credential security token p) →
       ∃ p, mp_cache_security_authenticate security (Some token) = (MP_CACHE_SECURITY_STATUS_OK, Some p)) ∧
    ((∀ p, ¬ credential security token p) →
       mp_cache_security_authenticate security (Some token) =
         (MP_CACHE_SECURITY_STATUS_UNAUTHORIZED, None))).
Proof.
  intros Hwf. split; [done|]. split; [done|]. intros Hne. rewrite authenticate_spec by done.
  split; [|split]; [intros p; apply credential_authenticate|apply authenticate_credential|].
  intros Hno. destruct (authenticate_hash_ok security (sha256_oneshot token)) as [[p Hp]|?]; [|done].
  by apply credential_authenticate, Hno in Hp.
Qed.

(** C30. A successful registration adds exactly one active record, for an id that
    was not registered, whose token is the hex text of 32 bytes of entropy. The
    new token authenticates as the new client unless its digest was already in
    use, and every token accepted before is accepted with the same principal. *)
Theorem register_grants_token security id new_role cap hs token security' hs' :
  security_wf security → role_range new_role →
  mp_cache_security_register_client security (Some id) new_role cap hs =
    (MP_CACHE_SECURITY_STATUS_OK, token, security', hs') →
  records security' = records security ++ [ClientRecord id new_role true (sha256_oneshot token)] ∧
  (id ∉ (client_id <$> records security)) ∧
  (∃ raw, mp_cache_random_bytes MP_CACHE_TOKEN_RANDOM_BYTES hs.2 = (Ret raw, hs'.2) ∧
     mp_cache_hex_encode raw cap = Ret token) ∧
  ((∀ p, ¬ credential security token p) →
     mp_cache_security_authenticate security' (Some token) =
       (MP_CACHE_SECURITY_STATUS_OK, Some (Principal new_role id))) ∧
  (∀ t p, mp_cache_security_authenticate security (Some t) = (MP_CACHE_SECURITY_STATUS_OK, Some p) →
     mp_cache_security_authenticate security' (Some t) = (MP_CACHE_SECURITY_STATUS_OK, Some p)).
Proof.
  intros Hwf Hrange Hreg. pose proof (register_wf security Hwf (Some id) new_role cap hs Hrange) as Hwf'.
  rewrite Hreg in Hwf'. cbn in Hwf'.
  destruct (register_spec security id new_role cap hs Hwf) as (? & ? & ? & ? & Hreg' & Hb1 & Hb2 & _ & Ho).
  rewrite Hreg in Hreg'. injection Hreg' as <- <- <- <-.
  destruct Ho as (_ & _ & Hid & Hlen & Hraw & Hrec). repeat (split; [done|]). split.
  - intros Hno. rewrite authenticate_spec by (done || by destruct token).
    unfold authenticate_hash. rewrite Hrec, filter_app, Hb1, Hb2. rewrite decide_False.
    2:{ intros [??]. by eapply Hno, cred_bootstrap. }
    destruct (filter _ (records security)) as [|r rs] eqn:Hf.
    + cbn. by rewrite decide_True.
    + assert (r ∈ filter (token_matches (sha256_oneshot token)) (records security)) as Hin
        by (rewrite Hf; constructor).
      apply list_elem_of_filter in Hin as [? ?]. exfalso. by eapply Hno, cred_client.
  - intros t p Ht. destruct t as [|c t]; [done|]. rewrite authenticate_spec in Ht |- * by done.
    by eapply authenticate_hash_app.
Qed.

(** C31. After a token has been invalidated no token at all authenticates as that
    client (the bootstrap administrator apart), the stored hash is wiped, the
    id stays registered with its role, and every other client authenticates as
    before. *)
Theorem invalidate_revokes security id security' :
  security_wf security →
  mp_cache_security_invalidate_client_token security (Some id) = (MP_CACHE_SECURITY_STATUS_OK, security') →
  (∀ t p, t ≠ [] → mp_cache_security_authenticate security' (Some t) =
     (MP_CACHE_SECURITY_STATUS_OK, Some p) →
     principal_client_id p ≠ id ∨ bootstrap_admin_hash security = sha256_oneshot t) ∧
  (∃ r, mp_cache_security_find_client security' (Some id) = Some r ∧
     token_active r = false ∧ token_hash r = zeros 32) ∧
  (client_id <$> records security') = (client_id <$> records security) ∧
  (∀ r, client_id r ≠ id → r ∈ records security' ↔ r ∈ records security).
Proof.
  intros Hwf Hinv. pose proof (invalidate_wf security Hwf (Some id)) as Hwf'.
  pose proof (invalidate_spec security id Hwf) as Hs. rewrite Hinv in Hwf', Hs. cbn in Hwf'.
  destruct Hs as (_ & _ & (l1 & r & l2 & Heq & Hid & ->)); [done|].
  set (gone := ClientRecord id (role r) false (zeros 32)) in *.
  assert (∀ r', r' ∈ l1 ++ gone :: l2 → client_id r' = id → r' = gone) as Huniq.
  { intros r' Hr' Hid'. eapply (nodup_fmap_inj client_id); [apply (sec_nodup _ Hwf')|done| |done].
    apply elem_of_app. right. constructor. }
  split; [|split; [|split]].
  - intros t p Ht. rewrite authenticate_spec by done. intros Hc%credential_authenticate.
    destruct Hc as [Hl Hb|r' Hr' [Ha _]]; [by right|left]. cbn. intros Hid'.
    by rewrite (Huniq r' Hr' Hid') in Ha.
  - unfold mp_cache_security_find_client.
    destruct (mp_cache_security_find_record _ (Some id)) as [[i r']|] eqn:Hf.
    + destruct (find_record_split _ _ _ _ Hf) as (Hid' & k1 & k2 & Heq' & _). exists r'. split; [done|].
      rewrite (Huniq r'); [done| |done]. cbn in Heq'. rewrite Heq'. apply elem_of_app. right. constructor.
    + apply find_record_none in Hf. destruct Hf. cbn. rewrite fmap_app, elem_of_app. right. constructor.
  - cbn. by rewrite Heq, !fmap_app, !fmap_cons, Hid.
  - intros r' Hne. cbn. rewrite Heq, !elem_of_app, !elem_of_cons. split; intros [?|[->|?]]; auto; done.
Qed.

(** Rotation replaces the client's hash by that of the issued token: the
    new token is a credential of the client with its old role, and a token with
    another digest is a credential of that client no longer, while the
    credentials of every other client are unchanged. *)
Theorem rotate_replaces_token security id cap e token security' e' :
  security_wf security →
  mp_cache_security_rotate_client_token security (Some id) cap e =
    (MP_CACHE_SECURITY_STATUS_OK, token, security', e') →
  (∃ r, mp_cache_security_find_client security (Some id) = Some r ∧
     credential security' token (Principal (role r) id)) ∧
  (∀ t p, credential security' t p → principal_client_id p = id → sha256_oneshot t ≠ sha256_oneshot token →
     bootstrap_admin_hash security = sha256_oneshot t) ∧
  (∀ t p, principal_client_id p ≠ id → credential security' t p ↔ credential security t p).
Proof.
  intros Hwf Hrot. pose proof (rotate_wf security Hwf (Some id) cap e) as Hwf'.
  destruct (rotate_spec security id cap e Hwf) as (? & ? & ? & ? & Hrot' & _ & Hok).
  rewrite Hrot in Hwf', Hrot'. injection Hrot' as <- <- <- <-. cbn in Hwf'.
  destruct Hok as (Hne & l1 & r & l2 & Heq & Hid & ->); [done|].
  set (new := ClientRecord id (role r) true (sha256_oneshot token)) in *.
  assert (new ∈ l1 ++ new :: l2) as Hnew by (apply elem_of_app; right; constructor).
  assert (r ∈ records security) as Hold by (rewrite Heq; apply elem_of_app; right; constructor).
  split; [|split].
  - exists r. split; [|by apply (cred_client _ token new)].
    unfold mp_cache_security_find_client.
    destruct (mp_cache_security_find_record security (Some id)) as [[i r']|] eqn:Hf.
    + destruct (find_record_split _ _ _ _ Hf) as (Hid' & k1 & k2 & Heq' & _). cbn. f_equal.
      eapply (nodup_fmap_inj client_id); [apply (sec_nodup _ Hwf)| |done|congruence].
      rewrite Heq'. apply elem_of_app. right. constructor.
    + apply find_record_none in Hf. destruct Hf. rewrite <-Hid. by apply list_elem_of_fmap_2.
  - intros t p [Hl Hb|r' Hr' [Ha Hh]] Hp Hne'; [done|exfalso]. cbn in Hp. apply Hne'.
    assert (r' = new) as ->; [|by rewrite <-Hh].
    eapply (nodup_fmap_inj client_id); [apply (sec_nodup _ Hwf')|done|done|done].
  - intros t p Hp. split; intros Hc; inversion Hc as [Hl Hb|r' Hr' Hm]; subst p;
      try (by apply cred_bootstrap); apply cred_client; try done.
    + cbn in Hr'. rewrite Heq. rewrite elem_of_app, elem_of_cons in Hr' |- *.
      destruct Hr' as [?|[->|?]]; auto. by destruct Hp.
    + cbn. rewrite Heq in Hr'. rewrite elem_of_app, elem_of_cons in Hr' |- *.
      destruct Hr' as [?|[->|?]]; auto. by destruct Hp.
Qed.

(** C24. In every registry the service can reach (initialisation, then any
    registrations, rotations, invalidations, imports and clears, with any
    allocation failures and any entropy) client ids are valid and distinct, the
    records fit the array allocated for them ([count] is at most [capacity],
    so no record is written past its end) and that array has at most 1024
    slots, every record has a role, and a revoked record holds no hash. *)
Theorem registry_invariant host config security :
  security_reachable host config security →
  NoDup (client_id <$> records security) ∧
  mp_cache_security_client_count security ≤ capacity security ∧
  capacity security ≤ MP_CACHE_MAX_CLIENTS ∧
  mp_cache_security_client_count security ≤ MP_CACHE_MAX_CLIENTS ∧
  bootstrap_admin_loaded security = true ∧
  ∀ r, r ∈ records security →
    mp_cache_client_id_is_valid (Some (client_id r)) = true ∧ role r ≠ MP_CACHE_ROLE_NONE ∧
    length (token_hash r) = 32%nat ∧
    (token_active r = false → token_hash r = zeros MP_CACHE_TOKEN_HASH_SIZE).
Proof.
  intros Hr. pose proof (security_reachable_wf _ _ _ Hr) as Hwf.
  pose proof (sec_count _ Hwf). pose proof (sec_capacity _ Hwf).
  unfold mp_cache_security_client_count. split; [apply Hwf|]. do 3 (split; [lia|]). split.
  - by eapply security_reachable_loaded.
  - intros r Hin. pose proof (sec_records _ Hwf) as Hrec. rewrite Forall_forall in Hrec.
    destruct (Hrec r Hin) as [? ? [? _] ?]. split; [done|]. split; [lia|done].
Qed.

(** Roles are ordered CLIENT < OPERATOR < ADMIN, a caller is allowed exactly
    what its own role or a lower one is allowed, and the names round-trip:
    parsing a role's name gives the role back, and only the three names parse. *)
Theorem role_order_and_names a b c t :
  (mp_cache_role_allows a b = true → mp_cache_role_allows b c = true → mp_cache_role_allows a c = true) ∧
  (mp_cache_role_allows a b = true ↔ b ≤ a) ∧
  (MP_CACHE_ROLE_CLIENT ≤ a ≤ MP_CACHE_ROLE_ADMIN →
     mp_cache_role_from_string (Some (mp_cache_role_name a)) = a) ∧
  (mp_cache_role_from_string (Some t) ≠ MP_CACHE_ROLE_NONE →
     mp_cache_role_name (mp_cache_role_from_string (Some t)) = t).
Proof.
  unfold mp_cache_role_allows. rewrite !bool_decide_eq_true. split; [lia|]. split; [done|]. split.
  - intros Ha. unfold MP_CACHE_ROLE_CLIENT, MP_CACHE_ROLE_ADMIN in Ha.
    assert (a = 1 ∨ a = 2 ∨ a = 3) as [->|[->| ->]] by lia; done.
  - unfold mp_cache_role_from_string. repeat case_decide; subst; done.
Qed.

(** A resolved secret is never empty and never longer than the buffer
    allows, whatever the environment and the files hold; a reference that is
    neither env: nor file: with an absolute path is refused with EINVAL. *)
Theorem secret_resolve_bounds host ref cap :
  (2 ≤ cap)%nat →
  match mp_cache_secret_resolve host (Some ref) cap with
  | Ret secret => secret ≠ [] ∧ (length secret < cap)%nat ∧
      (starts_with (cstr "env:") ref = true ∨ starts_with (cstr "file:/") ref = true)
  | Fail e => starts_with (cstr "env:") ref = false → starts_with (cstr "file:/") ref = false → e = EINVAL
  | Stuck => False
  end.
Proof.
  intros Hcap. unfold mp_cache_secret_resolve. rewrite decide_False by lia.
  change (cstr "env:") with SECRET_ENV_PREFIX. destruct (starts_with SECRET_ENV_PREFIX ref) eqn:He.
  { destruct (getenv host (drop 4 ref)) as [[|c v]|]; try done. unfold snprintf_s.
    rewrite length_take. destruct cap as [|[|cap]]; try lia. cbn. split; [done|]. split; [lia|auto]. }
  destruct (starts_with SECRET_FILE_PREFIX ref) eqn:Hf; [|done].
  case_decide as Hh; [done|].
  assert (starts_with (cstr "file:/") ref = true) as Habs.
  { by apply file_ref_absolute. }
  destruct (fopen_read host (drop 5 ref)) as [content|]; [|intros _; congruence].
  destruct (fgets cap content) as [[line rest]|]; [|intros _; congruence].
  case_decide; [intros _; congruence|]. split; [done|]. split; [|auto].
  unfold snprintf_s. rewrite length_take. lia.
Qed.

(** ** Witnesses *)

Definition sample_host : secret_host :=
  SecretHost (fun v => if decide (v = cstr "ADMIN") then Some (cstr "s3cret") else None)
    (fun _ => None).
Definition sample_security_config : mp_cache_config_t :=
  Config (fun f => match f with bootstrap_admin_token_secret_ref => cstr "env:ADMIN" | _ => [] end)
    (fun _ => 0).
Definition sample_entropy : entropy := Entropy [] [ReadBytes (zeros 20); ReadError true; ReadBytes (zeros 20)].
Definition sample_empty_registry : mp_cache_security_t := Eval vm_compute in
  Security [] 0 (mp_cache_sha256 (cstr "s3cret")) true.
Definition sample_registered :=
  mp_cache_security_register_client sample_empty_registry (Some (cstr "web-1")) MP_CACHE_ROLE_CLIENT 65
    ([], sample_entropy).
Definition sample_registry : mp_cache_security_t := Eval vm_compute in sample_registered.1.2.

Lemma sample_registered_registry : sample_registered.1.2 = sample_registry.
Proof. vm_compute. reflexivity. Qed.

Lemma sample_empty_registry_wf : security_wf sample_empty_registry.
Proof.
  apply (init_wf sample_host sample_security_config). vm_compute. reflexivity.
Qed.

Lemma sample_registry_wf : security_wf sample_registry.
Proof. rewrite <-sample_registered_registry. apply register_wf; [apply sample_empty_registry_wf|done]. Qed.

Lemma authenticate_sound_complete_witness :
  credential sample_registry (cstr "s3cret") (Principal MP_CACHE_ROLE_ADMIN MP_CACHE_BOOTSTRAP_ADMIN_ID).
Proof.
  destruct (authenticate_sound_complete sample_registry (cstr "s3cret") sample_registry_wf)
    as (_ & _ & Hs). destruct Hs as [Hs _]; [discriminate|]. apply Hs. vm_compute. reflexivity.
Defined.

Lemma register_grants_token_witness :
  cstr "web-1" ∉ (client_id <$> records sample_empty_registry).
Proof.
  pose proof (register_grants_token sample_empty_registry (cstr "web-1") MP_CACHE_ROLE_CLIENT 65
    ([], sample_entropy) sample_registered.1.1.2 sample_registry sample_registered.2
    sample_empty_registry_wf ltac:(done)) as Hr.
  apply Hr. vm_compute. reflexivity.
Defined.

Lemma invalidate_revokes_witness :
  ∃ security', mp_cache_security_invalidate_client_token sample_registry (Some (cstr "web-1")) =
    (MP_CACHE_SECURITY_STATUS_OK, security') ∧
    (client_id <$> records security') = [cstr "web-1"].
Proof.
  eexists. split; [vm_compute; reflexivity|].
  destruct (invalidate_revokes sample_registry (cstr "web-1")
    (mp_cache_security_invalidate_client_token sample_registry (Some (cstr "web-1"))).2
    sample_registry_wf) as (_ & _ & Hids & _); [vm_compute; reflexivity|].
  vm_compute. vm_compute in Hids. exact Hids.
Defined.

Lemma rotate_replaces_token_witness :
  ∃ token security' e',
    mp_cache_security_rotate_client_token sample_registry (Some (cstr "web-1")) 65 sample_entropy =
      (MP_CACHE_SECURITY_STATUS_OK, token, security', e') ∧
    ∃ r, mp_cache_security_find_client sample_registry (Some (cstr "web-1")) = Some r ∧
      credential security' token (Principal (role r) (cstr "web-1")).
Proof.
  destruct (mp_cache_security_rotate_client_token sample_registry (Some (cstr "web-1")) 65 sample_entropy)
    as [[[st token] security'] e'] eqn:Hrot.
  assert (st = MP_CACHE_SECURITY_STATUS_OK) as ->.
  { pose proof (f_equal (fun x => x.1.1.1) Hrot) as Hst. vm_compute in Hst. by symmetry. }
  exists token, security', e'. split; [done|].
  apply (rotate_replaces_token sample_registry (cstr "web-1") 65 sample_entropy token security' e'
    sample_registry_wf Hrot).
Defined.

Lemma registry_invariant_witness : bootstrap_admin_loaded sample_registry = true.
Proof.
  apply (registry_invariant sample_host sample_security_config sample_registry).
  eapply (security_reachable_step _ _ sample_empty_registry (OpRegister (cstr "web-1") MP_CACHE_ROLE_CLIENT 65)
    ([], sample_entropy)); [|done|vm_compute; reflexivity].
  apply security_reachable_init. vm_compute. reflexivity.
Defined.

Lemma secret_resolve_bounds_witness :
  mp_cache_secret_resolve sample_host (Some (cstr "env:ADMIN")) 256 = Ret (cstr "s3cret") ∧
  cstr "s3cret" ≠ [].
Proof.
  split; [vm_compute; reflexivity|].
  pose proof (secret_resolve_bounds sample_host (cstr "env:ADMIN") 256 ltac:(lia)) as Hb.
  vm_compute in Hb. destruct Hb as [Hb _]. exact Hb.
Defined.

Lemma role_order_and_names_witness :
  mp_cache_role_from_string (Some (mp_cache_role_name MP_CACHE_ROLE_OPERATOR)) = MP_CACHE_ROLE_OPERATOR.
Proof. apply (role_order_and_names MP_CACHE_ROLE_OPERATOR 0 0 []). vm_compute. split; discriminate. Defined.
