(* ===== verification/Fs.v ===== *)
(** * Fs: internal/platform/fs.h, internal/platform/fs.c

    The directory and file helpers over a model of the operating system's
    files: a finite map from path strings to regular files and directories.
    Every call that may fail for reasons outside the program takes the next
    choice of a plan, so a theorem about all plans covers all failures; an
    exhausted plan means success. Path strings are compared byte by byte: the
    system's own normalisation of repeated separators is not modelled. *)

From stdpp Require Import base numbers strings option gmap list.
From S2P Require Import Prelude.
Local Open Scope Z_scope.

(** ** The operating system *)

Inductive node := RegularFile (content : bytes) | Directory.

(** The call succeeds, fails with an error, or (a write or read of a stream)
    moves only the first [n] bytes. *)
Inductive io_choice := IoOk | IoFail (e : errno) | IoPartial (n : nat).

Record disk := Disk {
  disk_nodes : gmap bytes node;
  disk_plan : list io_choice;
}.

#[export] Instance node_eq_dec : EqDecision node.
Proof. solve_decision. Defined.

Definition next_choice : STE disk io_choice := fun d =>
  match disk_plan d with
  | [] => (Ret IoOk, d)
  | c :: plan => (Ret c, Disk (disk_nodes d) plan)
  end.

Definition get_nodes : STE disk (gmap bytes node) := fun d => (Ret (disk_nodes d), d).
Definition put_node (path : bytes) (n : node) : STE disk unit := fun d =>
  (Ret tt, Disk (<[path := n]> (disk_nodes d)) (disk_plan d)).
Definition drop_node (path : bytes) : STE disk unit := fun d =>
  (Ret tt, Disk (delete path (disk_nodes d)) (disk_plan d)).

(** A failure the plan asks for is never about a name existing or missing:
    that is decided by the nodes. *)
Definition io_error (e : errno) : errno :=
  match e with ENOENT | EEXIST => EIO | _ => e end.

(** [mkdir] *)
Definition sys_mkdir (path : bytes) : STE disk unit :=
  c ← next_choice;
  match c with
  | IoOk =>
    nodes ← get_nodes;
    if (nodes !! path : option node) is Some _ then fail EEXIST else put_node path Directory
  | IoFail e => fail (io_error e)
  | IoPartial _ => fail EIO
  end.

(** [unlink] *)
Definition sys_unlink (path : bytes) : STE disk unit :=
  c ← next_choice;
  match c with
  | IoOk =>
    nodes ← get_nodes;
    match (nodes !! path : option node) with
    | None => fail ENOENT
    | Some Directory => fail EOTHER
    | Some (RegularFile _) => drop_node path
    end
  | IoFail e => fail (io_error e)
  | IoPartial _ => fail EIO
  end.

(** [rename] of a regular file over a regular file or a free name. *)
Definition sys_rename (from to : bytes) : STE disk unit :=
  c ← next_choice;
  match c with
  | IoOk =>
    nodes ← get_nodes;
    match (nodes !! from : option node), (nodes !! to : option node) with
    | Some (RegularFile content), (None | Some (RegularFile _)) =>
      _ ← drop_node from; put_node to (RegularFile content)
    | None, _ => fail ENOENT
    | _, _ => fail EOTHER
    end
  | IoFail e => fail (io_error e)
  | IoPartial _ => fail EIO
  end.

(** [fopen] for reading gives the bytes that can be read before the end of
    the file or a read error, which the stream reports as EOF as well. A
    directory opens, and nothing can be read from it. *)
Definition fopen_rb (path : bytes) : STE disk bytes :=
  c ← next_choice;
  nodes ← get_nodes;
  match c, (nodes !! path : option node) with
  | IoFail e, _ => fail (io_error e)
  | _, None => fail ENOENT
  | _, Some Directory => mret []
  | IoOk, Some (RegularFile content) => mret content
  | IoPartial n, Some (RegularFile content) => mret (take n content)
  end.

(** [fopen] of a text file that is read to its end: the bytes and whether
    [ferror] is set after them. *)
Definition fopen_text (path : bytes) : STE disk (bytes * bool) :=
  c ← next_choice;
  nodes ← get_nodes;
  match c, (nodes !! path : option node) with
  | IoFail e, _ => fail (io_error e)
  | _, None => fail ENOENT
  | _, Some Directory => mret ([], true)
  | IoOk, Some (RegularFile content) => mret (content, false)
  | IoPartial n, Some (RegularFile content) => mret (take n content, true)
  end.

(** [fopen] with "wb" or "ab": the content the stream starts from. *)
Definition fopen_write (path : bytes) (keep : bool) : STE disk bytes :=
  c ← next_choice;
  nodes ← get_nodes;
  match c, (nodes !! path : option node) with
  | (IoFail e), _ => fail (io_error e)
  | (IoPartial _), _ => fail EIO
  | IoOk, Some Directory => fail EOTHER
  | IoOk, n =>
    let content := match n with Some (RegularFile content) => if keep then content else [] | _ => [] end in
    _ ← put_node path (RegularFile content); mret content
  end.

(** Writing [data] to the open stream and flushing it. When either fails, some
    prefix has reached the file. *)
Definition fwrite_flush (path : bytes) (old data : bytes) : STE disk unit :=
  c ← next_choice;
  match c with
  | IoOk => put_node path (RegularFile (old ++ data))
  | IoFail e => fail (io_error e)
  | IoPartial n => _ ← put_node path (RegularFile (old ++ take n data)); fail EIO
  end.

(** [fclose] of a flushed stream may still report an error. *)
Definition sys_fclose : STE disk unit :=
  c ← next_choice;
  match c with IoOk => mret tt | IoFail e => fail (io_error e) | IoPartial _ => fail EIO end.

(** ** Operations *)

Definition MP_CACHE_PATH_CAP : Z := 4096.

Definition mp_cache_fs_mkdir_single (directory_path : bytes) : STE disk unit :=
  if decide (directory_path = []) then fail EINVAL else
  nodes ← get_nodes;
  match (nodes !! directory_path : option node) with
  | Some Directory => mret tt
  | Some (RegularFile _) => fail ENOTDIR
  | None =>
    r ← attempt (sys_mkdir directory_path);
    match r with
    | Ret _ | Fail EEXIST => mret tt
    | o => lift o
    end
  end.

(** The walk over the separators after the first character: [prefix] is the
    part of the path already passed. *)
Fixpoint ensure_directory_loop (prefix rest : bytes) : STE disk unit :=
  match rest with
  | [] => mp_cache_fs_mkdir_single prefix
  | c :: rest' =>
    _ ← (if decide (c = 47) then mp_cache_fs_mkdir_single prefix else mret tt);
    ensure_directory_loop (prefix ++ [c]) rest'
  end.

Definition mp_cache_fs_ensure_directory (filesystem_path : option bytes) : STE disk unit :=
  match filesystem_path with
  | None | Some [] => fail EINVAL
  | Some (c :: rest) =>
    if decide (MP_CACHE_PATH_CAP ≤ zlen (c :: rest)) then fail ENAMETOOLONG
    else ensure_directory_loop [c] rest
  end.

(** The part of a path before its last separator, if it has one. *)
Fixpoint before_last_slash (path : bytes) : option bytes :=
  match path with
  | [] => None
  | c :: path' =>
    match before_last_slash path' with
    | Some p => Some (c :: p)
    | None => if decide (c = 47) then Some [] else None
    end
  end.

Definition mp_cache_fs_ensure_parent_directory (filesystem_path : option bytes) : STE disk unit :=
  match filesystem_path with
  | None | Some [] => fail EINVAL
  | Some path =>
    if decide (MP_CACHE_PATH_CAP ≤ zlen path) then fail ENAMETOOLONG else
    match before_last_slash path with
    | None | Some [] => mret tt
    | Some parent => mp_cache_fs_ensure_directory (Some parent)
    end
  end.

Definition mp_cache_fs_remove_path_if_exists (filesystem_path : option bytes) : STE disk unit :=
  match filesystem_path with
  | None | Some [] => fail EINVAL
  | Some path =>
    r ← attempt (sys_unlink path);
    match r with
    | Ret _ | Fail ENOENT => mret tt
    | o => lift o
    end
  end.

Definition mp_cache_fs_write_pid_file (pid_file_path : option bytes) (pid : Z) : STE disk unit :=
  match pid_file_path with
  | None | Some [] => fail EINVAL
  | Some path =>
    _ ← mp_cache_fs_ensure_parent_directory pid_file_path;
    old ← fopen_write path false;
    r ← attempt (fwrite_flush path old (dec pid ++ [10]));
    match r with
    | Ret _ => sys_fclose
    | o => _ ← attempt sys_fclose; lift o
    end
  end.

(** ** What the helpers change *)

(** [d'] has the nodes of [d], with new directories at prefixes of [path]. *)
Definition dirs_added (path : bytes) (d d' : disk) : Prop :=
  ∀ p, disk_nodes d' !! p = disk_nodes d !! p ∨
       disk_nodes d !! p = None ∧ disk_nodes d' !! p = Some Directory ∧
       p `prefix_of` path.

#[export] Instance dirs_added_preorder path : PreOrder (dirs_added path).
Proof.
  split; [intros d p; by left|]. intros d1 d2 d3 H12 H23 p.
  destruct (H12 p) as [E12|(N1 & D2 & Hp)], (H23 p) as [E23|(N2 & D3 & Hp')].
  - left. congruence.
  - right. by rewrite <-E12.
  - right. by rewrite E23.
  - congruence.
Qed.

Lemma dirs_added_prefix path path' d d' :
  path `prefix_of` path' → dirs_added path d d' → dirs_added path' d d'.
Proof.
  intros Hp Hd p. destruct (Hd p) as [?|(? & ? & ?)]; [auto|right].
  split; [done|]. split; [done|]. by etrans.
Qed.

(** Directories are only ever added, so no file changes. *)
Lemma dirs_added_file path d d' p content :
  dirs_added path d d' →
  disk_nodes d' !! p = Some (RegularFile content) ↔ disk_nodes d !! p = Some (RegularFile content).
Proof. intros Hd. destruct (Hd p) as [->|(-> & -> & _)]; done. Qed.

Lemma dirs_added_other path d d' p :
  dirs_added path d d' → ¬ p `prefix_of` path → disk_nodes d' !! p = disk_nodes d !! p.
Proof. intros Hd Hp. by destruct (Hd p) as [->|(_ & _ & ?)]. Qed.

Lemma mkdir_single_added path d : dirs_added path d (mp_cache_fs_mkdir_single path d).2.
Proof.
  unfold mp_cache_fs_mkdir_single. case_decide; [done|]. unfold mbind, STE_bind, get_nodes, attempt. cbn.
  destruct (disk_nodes d !! path) as [[]|] eqn:Hn; [done|done|].
  unfold sys_mkdir, mbind, STE_bind, next_choice.
  destruct (disk_plan d) as [|[|e|n] plan]; cbn; try done.
  - rewrite Hn. intros p. cbn. destruct (decide (p = path)) as [->|Hne].
    + rewrite lookup_insert_eq. right. auto.
    + rewrite lookup_insert_ne by done. by left.
  - rewrite Hn. intros p. cbn. destruct (decide (p = path)) as [->|Hne].
    + rewrite lookup_insert_eq. right. auto.
    + rewrite lookup_insert_ne by done. by left.
  - destruct e; intros p; by left.
  - intros p; by left.
Qed.

Lemma ensure_directory_loop_added prefix rest d :
  dirs_added (prefix ++ rest) d (ensure_directory_loop prefix rest d).2.
Proof.
  revert prefix d. induction rest as [|c rest IH]; intros prefix d.
  { rewrite app_nil_r. apply mkdir_single_added. }
  cbn [ensure_directory_loop]. unfold mbind, STE_bind.
  set (m := if decide (c = 47) then mp_cache_fs_mkdir_single prefix else mret tt).
  assert (dirs_added (prefix ++ c :: rest) d (m d).2) as Hm.
  { unfold m. case_decide; [|done]. eapply dirs_added_prefix; [|apply mkdir_single_added].
    by apply prefix_app_r. }
  destruct (m d) as [[] d']; try done. cbn in Hm. etrans; [exact Hm|].
  specialize (IH (prefix ++ [c]) d'). by rewrite <-app_assoc in IH.
Qed.

Lemma ensure_directory_added path d :
  dirs_added path d (mp_cache_fs_ensure_directory (Some path) d).2.
Proof.
  unfold mp_cache_fs_ensure_directory. destruct path as [|c rest]; [done|].
  case_decide; [done|]. apply (ensure_directory_loop_added [c] rest).
Qed.

Lemma before_last_slash_prefix path parent :
  before_last_slash path = Some parent → parent `prefix_of` path ∧ parent ≠ path.
Proof.
  revert parent. induction path as [|c path IH]; intros parent; [done|]. cbn.
  destruct (before_last_slash path) as [q|].
  - intros [= <-]. destruct (IH q eq_refl) as [? ?]. split; [by apply prefix_cons|congruence].
  - case_decide; [|done]. intros [= <-]. split; [apply prefix_nil|done].
Qed.

(** Making a file's parent directories leaves every file as it is, the file
    itself included. *)
Lemma ensure_parent_added path d :
  let d' := (mp_cache_fs_ensure_parent_directory (Some path) d).2 in
  dirs_added path d d' ∧ disk_nodes d' !! path = disk_nodes d !! path.
Proof.
  unfold mp_cache_fs_ensure_parent_directory. destruct path as [|c rest]; [done|].
  case_decide; [done|]. destruct (before_last_slash (c :: rest)) as [parent|] eqn:Hp; [|done].
  apply before_last_slash_prefix in Hp as [Hp Hne].
  destruct parent as [|c' parent]; [done|].
  pose proof (ensure_directory_added (c' :: parent) d) as Hd. split.
  - by eapply dirs_added_prefix.
  - eapply dirs_added_other; [exact Hd|]. intros Hp'. apply Hne.
    by apply (anti_symm prefix).
Qed.

(** ** Regular files *)

Definition file_at (d : disk) (p : bytes) : option bytes :=
  match disk_nodes d !! p with Some (RegularFile c) => Some c | _ => None end.

(** The files of two disks agree outside the listed paths. *)
Definition files_agree (except : list bytes) (d d' : disk) : Prop :=
  ∀ p, p ∉ except → file_at d' p = file_at d p.

#[export] Instance files_agree_preorder except : PreOrder (files_agree except).
Proof. split; [done|]. intros d1 d2 d3 H1 H2 p Hp. rewrite H2, H1; done. Qed.

Lemma files_agree_weaken e1 e2 d d' : (∀ p, p ∈ e1 → p ∈ e2) → files_agree e1 d d' → files_agree e2 d d'.
Proof. intros Hsub Ha p Hp. apply Ha. auto. Qed.


Lemma next_choice_spec d : ∃ c plan, next_choice d = (Ret c, Disk (disk_nodes d) plan).
Proof. unfold next_choice. destruct d as [nodes [|c plan]]; by eexists _, _. Qed.

Lemma same_nodes_agree d d' e : disk_nodes d' = disk_nodes d → files_agree e d d'.
Proof. intros Hn p _. unfold file_at. by rewrite Hn. Qed.

Lemma put_file_agree d path content plan :
  files_agree [path] d (Disk (<[path := RegularFile content]> (disk_nodes d)) plan).
Proof.
  intros p Hp. unfold file_at. cbn. rewrite lookup_insert_ne; [done|]. intros ->. apply Hp. constructor.
Qed.

Lemma put_file_at d path content plan :
  file_at (Disk (<[path := RegularFile content]> (disk_nodes d)) plan) path = Some content.
Proof. unfold file_at. cbn. by rewrite lookup_insert_eq. Qed.

(** Creating directories never gets stuck and leaves every file alone. *)
Lemma mkdir_single_not_stuck path d : (mp_cache_fs_mkdir_single path d).1 ≠ Stuck.
Proof.
  unfold mp_cache_fs_mkdir_single. case_decide; [done|]. unfold mbind, STE_bind, get_nodes, attempt. cbn.
  destruct (disk_nodes d !! path) as [[]|] eqn:Hn; [done|done|].
  unfold sys_mkdir, mbind, STE_bind, next_choice.
  destruct (disk_plan d) as [|[|e|n] plan]; cbn; rewrite ?Hn; try done. by destruct e.
Qed.

Lemma ensure_directory_loop_not_stuck prefix rest d : (ensure_directory_loop prefix rest d).1 ≠ Stuck.
Proof.
  revert prefix d. induction rest as [|c rest IH]; intros prefix d; [apply mkdir_single_not_stuck|].
  cbn [ensure_directory_loop]. unfold mbind, STE_bind. case_decide; [|apply IH].
  pose proof (mkdir_single_not_stuck prefix d). destruct (mp_cache_fs_mkdir_single prefix d) as [[] ?]; done.
Qed.

Lemma ensure_parent_spec path d :
  ∃ o d', mp_cache_fs_ensure_parent_directory (Some path) d = (o, d') ∧ o ≠ Stuck ∧ files_agree [] d d'.
Proof.
  destruct (mp_cache_fs_ensure_parent_directory (Some path) d) as [o d'] eqn:He.
  exists o, d'. split; [done|]. split.
  - intros ->. unfold mp_cache_fs_ensure_parent_directory in He. destruct path as [|c path]; [done|].
    case_decide; [done|]. destruct (before_last_slash _) as [[|c' parent]|]; [done| |done].
    unfold mp_cache_fs_ensure_directory in He. case_decide; [done|].
    pose proof (ensure_directory_loop_not_stuck [c'] parent d) as Hns. by rewrite He in Hns.
  - pose proof (ensure_parent_added path d) as [Ha _]. rewrite He in Ha. cbn in Ha.
    intros p _. unfold file_at. destruct (Ha p) as [->|(-> & -> & _)]; done.
Qed.

Lemma fopen_write_spec path keep d :
  ∃ o d', fopen_write path keep d = (o, d') ∧
  match o with
  | Ret old => old = (if keep then default [] (file_at d path) else []) ∧
      file_at d' path = Some old ∧ files_agree [path] d d'
  | Fail _ => disk_nodes d' = disk_nodes d
  | Stuck => False
  end.
Proof.
  unfold fopen_write, mbind, STE_bind. destruct (next_choice_spec d) as (c & plan & ->).
  destruct c as [|e|n]; cbn; [|by eexists _, _..].
  unfold file_at at 1. destruct (disk_nodes d !! path) as [[content|]|]; cbn; eexists _, _;
    (split; [reflexivity|]); try done; (split; [by destruct keep|split; [apply (put_file_at d)|apply (put_file_agree d)]]).
Qed.

Lemma fwrite_flush_spec path old data d :
  file_at d path = Some old →
  ∃ o d', fwrite_flush path old data d = (o, d') ∧ files_agree [path] d d' ∧
  match o with
  | Ret _ => file_at d' path = Some (old ++ data)
  | Fail _ => ∃ k, file_at d' path = Some (old ++ take k data)
  | Stuck => False
  end.
Proof.
  intros Hold. unfold fwrite_flush, mbind, STE_bind. destruct (next_choice_spec d) as (c & plan & ->).
  destruct c as [|e|n]; cbn; eexists _, _; (split; [reflexivity|]).
  - split; [apply (put_file_agree d)|apply (put_file_at d)].
  - split; [by apply same_nodes_agree|]. exists 0%nat. rewrite take_0, app_nil_r. exact Hold.
  - split; [apply (put_file_agree d)|]. exists n. apply (put_file_at d).
Qed.

Lemma fclose_spec d : ∃ o d', sys_fclose d = (o, d') ∧ o ≠ Stuck ∧ disk_nodes d' = disk_nodes d.
Proof.
  unfold sys_fclose, mbind, STE_bind. destruct (next_choice_spec d) as (c & plan & ->).
  destruct c; by eexists _, _.
Qed.

Lemma delete_file_agree d path plan : files_agree [path] d (Disk (delete path (disk_nodes d)) plan).
Proof.
  intros p Hp. unfold file_at. cbn. rewrite lookup_delete_ne; [done|]. intros ->. apply Hp. constructor.
Qed.

Lemma unlink_spec path d : ∃ o d', sys_unlink path d = (o, d') ∧ files_agree [path] d d' ∧
  match o with
  | Ret _ => disk_nodes d' !! path = None
  | Fail e => disk_nodes d' = disk_nodes d ∧ (e = ENOENT → disk_nodes d !! path = None)
  | Stuck => False
  end.
Proof.
  unfold sys_unlink, mbind, STE_bind. destruct (next_choice_spec d) as (c & plan & ->).
  destruct c as [|e|n]; cbn.
  - destruct (disk_nodes d !! path) as [[content|]|] eqn:Hp; cbn; eexists _, _; (split; [reflexivity|]);
      try (by split; [apply same_nodes_agree|]).
    split; [apply (delete_file_agree d)|]. cbn. by rewrite lookup_delete_eq.
  - eexists _, _. split; [reflexivity|]. split; [by apply same_nodes_agree|]. split; [done|]. by destruct e.
  - by eexists _, _; (split; [reflexivity|]); split; [apply same_nodes_agree|].
Qed.

Lemma rename_spec from to d c :
  file_at d from = Some c → from ≠ to →
  ∃ o d', sys_rename from to d = (o, d') ∧
  match o with
  | Ret _ => files_agree [from; to] d d' ∧ file_at d' to = Some c ∧ file_at d' from = None
  | Fail _ => disk_nodes d' = disk_nodes d
  | Stuck => False
  end.
Proof.
  intros Hc Hne. unfold sys_rename, mbind, STE_bind. destruct (next_choice_spec d) as (ch & plan & ->).
  destruct ch as [|e|n]; cbn; [|by eexists _, _..]. unfold file_at in Hc.
  destruct (disk_nodes d !! from) as [[c0|]|]; [|done|done]. injection Hc as ->.
  assert (∀ plan, files_agree [from; to] d
    (Disk (<[to := RegularFile c]> (delete from (disk_nodes d))) plan) ∧
    file_at (Disk (<[to := RegularFile c]> (delete from (disk_nodes d))) plan) to = Some c ∧
    file_at (Disk (<[to := RegularFile c]> (delete from (disk_nodes d))) plan) from = None) as Hput.
  { intros pl. unfold file_at; cbn. split; [|by rewrite lookup_insert_eq, lookup_insert_ne, lookup_delete_eq].
    intros p Hp. rewrite !not_elem_of_cons in Hp. unfold file_at; cbn.
    rewrite lookup_insert_ne, lookup_delete_ne by (intros ->; tauto). done. }
  destruct (disk_nodes d !! to) as [[c1|]|]; cbn; eexists _, _; (split; [reflexivity|]); try done; apply Hput.
Qed.

(** ** Disks without failures *)

(** No failure is planned, and none after the call. *)
Definition steady {A} (m : STE disk A) : Prop := ∀ d, disk_plan d = [] → disk_plan (m d).2 = [].

Lemma steady_mkdir_single path : steady (mp_cache_fs_mkdir_single path).
Proof.
  intros d Hd. unfold mp_cache_fs_mkdir_single. case_decide; [done|].
  unfold mbind, STE_bind, get_nodes, attempt, sys_mkdir, next_choice. cbn.
  destruct (disk_nodes d !! path) as [[]|] eqn:Hn; [done|done|]. unfold mbind, STE_bind. cbn. rewrite Hd. cbn. by rewrite Hn.
Qed.

Lemma steady_directory_loop prefix rest : steady (ensure_directory_loop prefix rest).
Proof.
  revert prefix. induction rest as [|c rest IH]; intros prefix d Hd; cbn [ensure_directory_loop]; [by apply steady_mkdir_single|].
  unfold mbind, STE_bind. set (m := if decide (c = 47) then _ else _).
  assert (disk_plan (m d).2 = []) as Hm by (unfold m; case_decide; [by apply steady_mkdir_single|done]).
  destruct (m d) as [[] d1]; [by apply IH|done|done].
Qed.

Lemma steady_ensure_parent path : steady (mp_cache_fs_ensure_parent_directory path).
Proof.
  intros d Hd. unfold mp_cache_fs_ensure_parent_directory. destruct path as [[|c path]|]; [done| |done].
  case_decide; [done|]. destruct (before_last_slash (c :: path)) as [[|c' parent]|]; [done| |done].
  unfold mp_cache_fs_ensure_directory. case_decide; [done|]. by apply steady_directory_loop.
Qed.

Lemma fopen_text_file path content nodes : nodes !! path = Some (RegularFile content) →
  fopen_text path (Disk nodes []) = (Ret (content, false), Disk nodes []).
Proof. intros Hf. unfold fopen_text, mbind, STE_bind, next_choice, get_nodes. cbn. by rewrite Hf. Qed.

(** A file written under its parent directories without a failure. *)
Lemma write_steady path content d d' : disk_plan d = [] →
  (_ ← mp_cache_fs_ensure_parent_directory (Some path);
   old ← fopen_write path false;
   _ ← attempt (fwrite_flush path old content);
   sys_fclose) d = (Ret tt, d') →
  disk_nodes d' !! path = Some (RegularFile content).
Proof.
  intros Hd. unfold mbind, STE_bind, attempt. pose proof (steady_ensure_parent (Some path) d Hd) as H1.
  destruct (mp_cache_fs_ensure_parent_directory (Some path) d) as [[] d1]; [|done..]. cbn in H1.
  unfold fopen_write, mbind, STE_bind, next_choice, get_nodes. cbn. rewrite H1. cbn.
  destruct (disk_nodes d1 !! path) as [[old|]|]; [|done|];
    (unfold fwrite_flush, sys_fclose, next_choice, mbind, STE_bind; cbn; rewrite H1; cbn; rewrite ?H1; cbn;
     intros [= <-]; cbn; by rewrite lookup_insert_eq).
Qed.
