(* ===== verification/CString.v ===== *)
(** * CString: the C string functions the parsers use

    <string.h>, <strings.h>, [strtoul], [strtok] and the [%s] conversion of
    [sscanf], on strings as lists of bytes, with the facts about them that the
    HTTP and configuration parsers share. *)

From stdpp Require Import base numbers strings option pretty gmap list.
From S2P Require Import Prelude.
Local Open Scope Z_scope.

(** ** Functions *)

(** [strchr], [strstr]: the suffix at the first match. *)
Fixpoint strchr (s : bytes) (c : Z) : option bytes :=
  match s with
  | [] => None
  | d :: s' => if decide (d = c) then Some s else strchr s' c
  end.
Fixpoint strstr (s needle : bytes) : option bytes :=
  if starts_with needle s then Some s else match s with [] => None | _ :: s' => strstr s' needle end.

Definition tolower (c : Z) : Z := if decide (65 ≤ c ≤ 90) then c + 32 else c.

(** [strncasecmp (s, prefix, strlen (prefix)) == 0] *)
Definition starts_with_nocase (prefix s : bytes) : bool :=
  bool_decide (tolower <$> take (length prefix) s = tolower <$> prefix).

(** The digits at the start of a string. *)
Fixpoint digits (s : bytes) : bytes :=
  match s with
  | c :: s' => if isdigit c then c :: digits s' else []
  | [] => []
  end.

(** [strtoul (s, &end, 10)] with 64-bit [unsigned long]: the value, whether
    [errno] becomes [ERANGE], and [end]; [None] when there are no digits, and
    then [end] is [s] and the value 0. *)
Definition digits_value (ds : bytes) : Z := foldl (fun acc c => acc * 10 + (c - 48)) 0 ds.
Definition strtoul (s : bytes) : option (Z * bool * bytes) :=
  let body := drop_space s in
  let '(negative, body) :=
    if decide (head body = Some 45) then (true, tail body)
    else if decide (head body = Some 43) then (false, tail body)
    else (false, body) in
  let ds := digits body in
  if decide (ds = []) then None
  else if decide (SIZE_MAX < digits_value ds) then Some (SIZE_MAX, true, drop (length ds) body)
  else Some (if (negative : bool) then u64 (- digits_value ds) else digits_value ds, false, drop (length ds) body).
Definition strtoul_value (s : bytes) : Z := match strtoul s with Some (v, _, _) => v | None => 0 end.

(** The tokens [strtok] gives one after the other. *)
Fixpoint strtok_loop (delims : bytes) (token s : bytes) : list bytes :=
  match s with
  | [] => if decide (token = []) then [] else [token]
  | c :: s' =>
    if decide (c ∈ delims) then (if decide (token = []) then [] else [token]) ++ strtok_loop delims [] s'
    else strtok_loop delims (token ++ [c]) s'
  end.
Definition strtok_all (s delims : bytes) : list bytes := strtok_loop delims [] s.

(** The [%<n>s] conversion of [sscanf]: white space is skipped, then at most
    [n] other characters are read; at least one must be there. *)
Fixpoint scan_word (n : nat) (s : bytes) : bytes * bytes :=
  match n, s with
  | S n', c :: s' => if isspace c then ([], s) else let '(w, rest) := scan_word n' s' in (c :: w, rest)
  | _, _ => ([], s)
  end.
Definition scan_s (n : nat) (s : bytes) : option (bytes * bytes) :=
  let '(w, rest) := scan_word n (drop_space s) in if decide (w = []) then None else Some (w, rest).

(** All the lines a [while (fgets (...))] loop gets: [line] is the part of the
    next one that was read already. *)
Fixpoint fgets_all (cap : nat) (line content : bytes) : list bytes :=
  match content with
  | [] => if decide (line = []) then [] else [line]
  | c :: content' =>
    if decide (c = 10 ∨ S (S (length line)) = cap) then (line ++ [c]) :: fgets_all cap [] content'
    else fgets_all cap (line ++ [c]) content'
  end.

(** ** Lemmas *)

(** The loop calls [fgets] until it gives [NULL]. *)
Lemma fgets_all_loop cap content : (2 ≤ cap)%nat →
  fgets_all cap [] content =
    match fgets cap content with None => [] | Some (line, rest) => line :: fgets_all cap [] rest end.
Proof.
  assert (∀ n line content, cap = S (length line + S n) → content ≠ [] →
    fgets_all cap line content = let '(l, rest) := fgets_loop (S n) content in (line ++ l) :: fgets_all cap [] rest) as Hloop.
  { intros n. induction n as [|n IH]; intros line [|c rest] Hn Hne; [done| |done|].
    - cbn. destruct (decide (c = 10)) as [->|]; [by rewrite decide_True by auto|].
      rewrite decide_True by (right; lia). by destruct rest.
    - cbn [fgets_all fgets_loop]. destruct (decide (c = 10)) as [->|]; [by rewrite decide_True by auto|].
      rewrite decide_False by (intros [?|?]; [done|lia]). destruct rest as [|d rest].
      + cbn. rewrite decide_False by (by destruct line). done.
      + rewrite IH by (rewrite ?length_app; cbn; (done || lia)).
        cbn [fgets_loop]. destruct (decide (d = 10)); [by rewrite <-app_assoc|].
        destruct (fgets_loop n rest) as [l rest']. by rewrite <-app_assoc. }
  intros Hcap. destruct cap as [|[|n]]; [lia..|]. destruct content as [|c content]; [done|].
  unfold fgets. rewrite (Hloop n []) by done. by destruct (fgets_loop (S n) (c :: content)).
Qed.

(** Whole lines are read one by one. *)
Lemma fgets_all_lines cap lines : Forall (fun l => (10 ∉ l) ∧ (S (S (length l)) ≤ cap)%nat) lines →
  fgets_all cap [] (mjoin ((fun l => l ++ [10]) <$> lines)) = (fun l => l ++ [10]) <$> lines.
Proof.
  assert (∀ l line rest, (10 ∉ l) → (S (S (length line + length l)) ≤ cap)%nat →
    fgets_all cap line (l ++ [10] ++ rest) = (line ++ l ++ [10]) :: fgets_all cap [] rest) as Hone.
  { intros l. induction l as [|c l IH]; intros line rest Hn Hlen; cbn.
    - by rewrite decide_True by auto.
    - apply not_elem_of_cons in Hn as [Hc Hn]. cbn in Hlen. rewrite decide_False by (intros [?|?]; [congruence|lia]).
      change (l ++ 10 :: rest) with (l ++ [10] ++ rest). rewrite IH; [by rewrite <-app_assoc|done|].
      rewrite length_app. cbn. lia. }
  induction 1 as [|l lines [Hn Hlen] _ IH]; [done|]. rewrite fmap_cons. cbn [mjoin list_join foldr].
  rewrite <-app_assoc, Hone by (cbn; (done || lia)). f_equal. exact IH.
Qed.

Lemma strchr_suffix s c r : strchr s c = Some r → ∃ pre, s = pre ++ r ∧ (c ∉ pre) ∧ ∃ r', r = c :: r'.
Proof.
  induction s as [|d s IH]; cbn; [done|]. case_decide as Hd; [intros [= <-]; subst d; exists []|].
  - split; [done|]. split; [apply not_elem_of_nil|]. by exists s.
  - intros (pre & -> & Hn & r' & ->)%IH. exists (d :: pre). split; [done|]. split; [|by exists r'].
    apply not_elem_of_cons. split; [congruence|done].
Qed.

Lemma strchr_first pre c r : c ∉ pre → strchr (pre ++ c :: r) c = Some (c :: r).
Proof.
  induction pre as [|d pre IH]; intros Hn; cbn; [by rewrite decide_True|].
  apply not_elem_of_cons in Hn as [? ?]. rewrite decide_False by congruence. by apply IH.
Qed.

Lemma strchr_none s c : c ∉ s → strchr s c = None.
Proof. induction s as [|d s IH]; [done|]. intros [Hd Hs]%not_elem_of_cons. cbn. rewrite decide_False by done. by apply IH. Qed.

Lemma strstr_suffix s needle r :
  strstr s needle = Some r → ∃ pre rest, s = pre ++ r ∧ r = needle ++ rest.
Proof.
  assert (∀ l, starts_with needle l = true → ∃ rest, l = needle ++ rest) as Hsw.
  { intros l Hl. unfold starts_with in Hl. apply bool_decide_eq_true in Hl.
    exists (drop (length needle) l). by rewrite <-Hl at 1; rewrite take_drop. }
  induction s as [|d s IH]; cbn [strstr]; destruct (starts_with needle _) eqn:E; intros Hr; simplify_eq.
  - destruct (Hsw _ E) as (rest & ?). by exists [], rest.
  - destruct (Hsw _ E) as (rest & ?). by exists [], rest.
  - destruct (IH Hr) as (pre & rest & -> & ->). by exists (d :: pre), rest.
Qed.

Lemma starts_with_app needle rest : starts_with needle (needle ++ rest) = true.
Proof. unfold starts_with. by rewrite bool_decide_eq_true, take_app_length. Qed.

Lemma length_c_string l : (length (c_string l) ≤ length l)%nat.
Proof. induction l as [|c l IH]; cbn; [done|]. case_decide; cbn; lia. Qed.

Lemma c_string_nul_free l : 0 ∉ c_string l.
Proof.
  induction l as [|c l IH]; cbn; [apply not_elem_of_nil|]. case_decide; [apply not_elem_of_nil|].
  apply not_elem_of_cons. by split; [congruence|].
Qed.

Lemma c_string_id l : 0 ∉ l → c_string l = l.
Proof.
  induction l as [|c l IH]; intros Hn; [done|]. apply not_elem_of_cons in Hn as [? ?]. cbn.
  rewrite decide_False by congruence. by rewrite IH.
Qed.

Lemma scan_word_length n s : (length (scan_word n s).1 ≤ n)%nat.
Proof.
  revert s. induction n as [|n IH]; intros [|c s]; cbn; try lia. destruct (isspace c); cbn; [lia|].
  specialize (IH s). destruct (scan_word n s) as [w rest]. cbn in *. lia.
Qed.

Lemma scan_s_length n s w rest : scan_s n s = Some (w, rest) → (0 < length w ≤ n)%nat.
Proof.
  unfold scan_s. pose proof (scan_word_length n (drop_space s)) as Hl.
  destruct (scan_word n (drop_space s)) as [w' rest']. case_decide as Hw; [done|]. intros [= -> ->].
  destruct w; [done|]. cbn in *. lia.
Qed.

Lemma length_snprintf cap s : (0 < cap → length (snprintf_s cap s) < cap)%nat.
Proof. intros. unfold snprintf_s. rewrite length_take. lia. Qed.

Lemma strtoul_range s : 0 ≤ strtoul_value s ≤ SIZE_MAX.
Proof.
  assert (∀ ds acc, Forall (fun c => isdigit c = true) ds → 0 ≤ acc →
    0 ≤ foldl (fun acc c => acc * 10 + (c - 48)) acc ds) as Hpos.
  { intros ds. induction ds as [|c ds IH]; intros acc Hd Hacc; [done|]. inversion_clear Hd as [|? ? Hc Hd'].
    unfold isdigit in Hc. apply bool_decide_eq_true in Hc. cbn. apply IH; [done|]. lia. }
  assert (∀ l, Forall (fun c => isdigit c = true) (digits l)) as Hdig.
  { induction l as [|c l IH]; cbn; [constructor|]. destruct (isdigit c) eqn:E; [by constructor|constructor]. }
  unfold strtoul_value, strtoul.
  match goal with |- context [let '(_, _) := ?x in _] => destruct x as [neg body] end.
  case_decide; [done|]. case_decide; [done|].
  pose proof (Hpos (digits body) 0 (Hdig body)) as Hp. fold (digits_value (digits body)) in Hp.
  destruct neg; [pose proof (u64_range (- digits_value (digits body)))|]; unfold SIZE_MAX in *; lia.
Qed.

(** A match stays the first one when more text follows. *)
Lemma strstr_app s t needle r : strstr s needle = Some r → strstr (s ++ t) needle = Some (r ++ t).
Proof.
  assert (∀ l, (length needle ≤ length l)%nat → starts_with needle (l ++ t) = starts_with needle l) as Hsw.
  { intros l Hl. unfold starts_with. by rewrite take_app_le. }
  induction s as [|d s IH]; intros Hr.
  - pose proof (strstr_suffix _ _ _ Hr) as (pre & rest & Hs & Hrr). destruct pre, r; try done.
    destruct needle; [|done]. cbn. destruct t; done.
  - pose proof (strstr_suffix _ _ _ Hr) as (pre & rest & Hs & Hrr).
    assert (length needle ≤ length (d :: s))%nat as Hlen.
    { rewrite Hs, Hrr, !length_app. lia. }
    cbn [strstr] in Hr. cbn [app strstr]. change (d :: s ++ t) with ((d :: s) ++ t). rewrite Hsw by done.
    destruct (starts_with needle (d :: s)); [by injection Hr as <-|by apply IH].
Qed.

Lemma c_string_app l t : ∃ t', c_string (l ++ t) = c_string l ++ t'.
Proof.
  induction l as [|c l [t' IH]]; cbn; [by eexists|]. case_decide; [by exists []|]. exists t'. by rewrite IH.
Qed.

Lemma strstr_here s n : strstr (n ++ s) n = Some (n ++ s).
Proof. destruct (n ++ s) eqn:E; cbn [strstr]; rewrite <-E, starts_with_app; done. Qed.

Lemma strstr_skip pre s n q : q ∉ pre → strstr (pre ++ (q :: n) ++ s) (q :: n) = Some ((q :: n) ++ s).
Proof.
  induction pre as [|d pre IH]; intros Hq; [exact (strstr_here s (q :: n))|].
  apply not_elem_of_cons in Hq as [Hd Hq]. cbn [app strstr].
  assert (starts_with (q :: n) (d :: pre ++ q :: n ++ s) = false) as ->.
  { unfold starts_with. apply bool_decide_eq_false. intros Heq. cbn in Heq. congruence. }
  by apply IH.
Qed.

Lemma strstr_nin pre s n q : q ∉ pre → strstr (pre ++ s) (q :: n) = strstr s (q :: n).
Proof.
  induction pre as [|d pre IH]; intros Hq; [done|]. apply not_elem_of_cons in Hq as [Hd Hq]. cbn [app strstr].
  assert (starts_with (q :: n) (d :: pre ++ s) = false) as ->.
  { unfold starts_with. apply bool_decide_eq_false. intros Heq. cbn in Heq. congruence. }
  by apply IH.
Qed.

Lemma length_drop_space s : (length (drop_space s) ≤ length s)%nat.
Proof. induction s as [|c s IH]; cbn; [lia|]. destruct (isspace c); cbn; lia. Qed.


(** ** Decimal numbers *)

Definition all_digits (l : bytes) : Prop := Forall (fun c => isdigit c = true) l.

Lemma digits_value_snoc l c : digits_value (l ++ [c]) = digits_value l * 10 + (c - 48).
Proof. unfold digits_value. by rewrite foldl_snoc. Qed.

Lemma digits_value_app l k : digits_value (l ++ k) = digits_value l * 10 ^ zlen k + digits_value k.
Proof.
  induction k as [|c k IH] using rev_ind.
  - rewrite app_nil_r. change (zlen (@nil Z)) with 0. unfold digits_value at 3. cbn. lia.
  - rewrite app_assoc, !digits_value_snoc, IH, zlen_app, zlen_singleton.
    rewrite Z.pow_add_r by (pose proof (zlen_nonneg k); lia). lia.
Qed.

Lemma pretty_char x :
  (x < 10)%N → Z.of_N (Ascii.N_of_ascii (pretty_N_char x)) = 48 + Z.of_N x.
Proof.
  intros Hx. destruct x as [|p]; [done|]. do 4 (destruct p as [p|p|]; try done; try lia).
Qed.

(** The digits of a positive number in front of a text. *)
Lemma pretty_go_digits x s :
  ∃ ds, cstr (pretty_N_go x s) = ds ++ cstr s ∧ all_digits ds ∧ digits_value ds = Z.of_N x ∧ ((0 < x)%N → ds ≠ []).
Proof.
  revert s. induction (N.lt_wf_0 x) as [x _ IH]; intros s.
  destruct (decide (x = 0)%N) as [->|Hx]. { exists []. rewrite pretty_N_go_0. split; [done|]. split; [constructor|]. done. }
  rewrite pretty_N_go_step by lia.
  destruct (IH (x `div` 10)%N ltac:(apply N.div_lt; lia) (String (pretty_N_char (x `mod` 10)) s)) as (ds & Hs & Hd & Hv & _).
  pose proof (N.mod_lt x 10 ltac:(lia)) as Hm. cbn [cstr] in Hs. rewrite pretty_char in Hs by done.
  pose proof (N.div_mod x 10 ltac:(lia)) as Hdm.
  set (q := (x `div` 10)%N) in *. set (m := (x `mod` 10)%N) in *. clearbody q m.
  exists (ds ++ [48 + Z.of_N m]). split; [by rewrite Hs, <-app_assoc|]. split; [|split].
  - apply Forall_app. split; [done|]. constructor; [|constructor]. apply bool_decide_eq_true. lia.
  - rewrite digits_value_snoc, Hv. lia.
  - intros _. by destruct ds.
Qed.

Lemma dec_digits n : 0 ≤ n → all_digits (dec n) ∧ digits_value (dec n) = n ∧ dec n ≠ [].
Proof.
  intros Hn. unfold dec. destruct n as [|p|p]; [| |lia].
  { split; [by repeat constructor|done]. }
  change (pretty (Z.pos p)) with (pretty_N_go (Npos p) EmptyString).
  destruct (pretty_go_digits (Npos p) EmptyString) as (ds & Hs & Hd & Hv & Hne). cbn [cstr] in Hs.
  rewrite app_nil_r in Hs. rewrite Hs. split; [done|]. split; [done|]. by apply Hne.
Qed.

Lemma digits_app ds rest :
  all_digits ds → (∀ c rest', rest = c :: rest' → isdigit c = false) → digits (ds ++ rest) = ds.
Proof.
  intros Hd Hr. induction Hd as [|c ds Hc Hd IH]; cbn.
  - destruct rest as [|c rest]; [done|]. cbn. by rewrite (Hr c rest eq_refl).
  - by rewrite Hc, IH.
Qed.

(** A printed number is parsed back. *)
Lemma strtoul_dec n rest :
  0 ≤ n ≤ SIZE_MAX → (∀ c rest', rest = c :: rest' → isdigit c = false) →
  strtoul (dec n ++ rest) = Some (n, false, rest).
Proof.
  intros Hn Hr. destruct (dec_digits n ltac:(lia)) as (Hd & Hv & Hne). unfold strtoul.
  destruct (dec n) as [|c ds] eqn:E; [done|]. pose proof Hd as Hd0. inversion_clear Hd0 as [|? ? Hc _].
  unfold isdigit in Hc. apply bool_decide_eq_true in Hc.
  assert (drop_space ((c :: ds) ++ rest) = (c :: ds) ++ rest) as ->.
  { cbn. unfold isspace. rewrite bool_decide_eq_false_2 by lia. done. }
  cbn [app head]. rewrite !decide_False by (intros [= ->]; lia).
  change (c :: ds ++ rest) with ((c :: ds) ++ rest). rewrite digits_app by done.
  rewrite decide_False by done. rewrite Hv, decide_False by lia. by rewrite drop_app_length.
Qed.

Lemma length_pretty_go (k : nat) x s : (x < 10 ^ N.of_nat k)%N →
  (length (cstr (pretty_N_go x s)) ≤ k + length (cstr s))%nat.
Proof.
  revert x s. induction k as [|k IH]; intros x s Hx.
  { assert (x = 0%N) as -> by (change (10 ^ N.of_nat 0)%N with 1%N in Hx; lia). by rewrite pretty_N_go_0. }
  destruct (decide (x = 0)%N) as [->|Hne]; [rewrite pretty_N_go_0; lia|].
  rewrite pretty_N_go_step by lia. etrans; [apply IH|cbn [cstr length]; lia].
  rewrite Nat2N.inj_succ, N.pow_succ_r' in Hx. apply N.Div0.div_lt_upper_bound; lia.
Qed.

Lemma length_dec n : 0 ≤ n < 10 ^ 20 → (length (dec n) ≤ 20)%nat.
Proof.
  intros Hn. unfold dec. destruct n as [|p|p]; [cbn; lia| |lia].
  change (pretty (Z.pos p)) with (pretty_N_go (Npos p) EmptyString).
  pose proof (length_pretty_go 20 (Npos p) EmptyString) as Hl. cbn [cstr length] in Hl. rewrite Nat.add_0_r in Hl.
  apply Hl. change (10 ^ N.of_nat 20)%N with 100000000000000000000%N. lia.
Qed.
