(* ===== verification/ConfigFile.v ===== *)
(** * ConfigFile: internal/config/config.c

    The bootstrap configuration file: the compiled defaults, the line parser of
    the YAML and INI subset, the table of keys, validation, the commented
    template the runtime writes on first start, and the diagnostic listing. A
    configuration that loads is well formed and coherent, and a template loads
    back as the configuration it was written from. *)

From stdpp Require Import base numbers strings option gmap list.
From S2P Require Import Prelude Config Fs CString.
Local Open Scope Z_scope.

Inductive mp_cache_config_status_t :=
| MP_CACHE_CONFIG_STATUS_OK
| MP_CACHE_CONFIG_STATUS_NOT_FOUND
| MP_CACHE_CONFIG_STATUS_IO_ERROR
| MP_CACHE_CONFIG_STATUS_PARSE_ERROR
| MP_CACHE_CONFIG_STATUS_VALIDATION_ERROR
| MP_CACHE_CONFIG_STATUS_INVALID_ARGUMENT.

#[export] Instance config_status_eq_dec : EqDecision mp_cache_config_status_t.
Proof. solve_decision. Defined.

(** ** Text helpers *)

Definition mp_cache_copy_string (destination_capacity : nat) (source : bytes) : bytes :=
  snprintf_s destination_capacity source.

Definition mp_cache_trim (value : bytes) : bytes := trim_space value.

Definition mp_cache_unquote (value : bytes) : bytes :=
  if decide ((2 ≤ length value)%nat ∧
             ((head value = Some 34 ∧ last value = Some 34) ∨ (head value = Some 39 ∧ last value = Some 39)))
  then take (length value - 2) (drop 1 value) else value.

(** [strtoul] and [strtoull] are the same function for a 64-bit [long]. *)
Definition parse_unsigned (limit : Z) (value : bytes) : option Z :=
  if decide (value = []) then None else
  match strtoul value with
  | Some (parsed, false, rest) => if decide (mp_cache_trim rest ≠ [] ∨ limit < parsed) then None else Some parsed
  | _ => None
  end.
Definition mp_cache_parse_u32 (value : bytes) : option Z := parse_unsigned (2 ^ 32 - 1) value.
Definition mp_cache_parse_u64 (value : bytes) : option Z := parse_unsigned (2 ^ 64 - 1) value.

Definition mp_cache_parse_bool_u32 (value : bytes) : option Z :=
  if decide (value = cstr "true" ∨ value = cstr "1" ∨ value = cstr "yes") then Some 1
  else if decide (value = cstr "false" ∨ value = cstr "0" ∨ value = cstr "no") then Some 0
  else None.

Fixpoint build_version_loop (value : bytes) (component_count : Z) (saw_digit : bool) : bool :=
  match value with
  | [] => saw_digit && bool_decide (component_count = 2)
  | c :: value' =>
    if isdigit c then build_version_loop value' component_count true
    else if decide (c = 46) then
      if saw_digit then build_version_loop value' (u32 (component_count + 1)) false else false
    else false
  end.
Definition mp_cache_is_build_version_valid (value : bytes) : bool :=
  if decide (value = []) then false else build_version_loop value 0 false.

(** ** Keys *)

Definition set_text (config : mp_cache_config_t) (f : text_field) (value : bytes) : mp_cache_config_t :=
  Config (fun g => if decide (g = f) then value else text config g) (num config).
Definition set_num (config : mp_cache_config_t) (f : num_field) (value : Z) : mp_cache_config_t :=
  Config (text config) (fun g => if decide (g = f) then value else num config g).

(** What a key assigns and how its value is read. *)
Inductive config_target :=
| ToText (f : text_field) | ToVersion | ToU32 (f : num_field) | ToU64 (f : num_field) | ToBool (f : num_field).

(** The keys of the two long sections. *)
Definition logger_keys : list (bytes * config_target) :=
  [(cstr "bootstrap_path", ToText logger_bootstrap_path);
   (cstr "buffer_capacity", ToU32 logger_buffer_capacity);
   (cstr "message_capacity", ToU32 logger_message_capacity);
   (cstr "context_capacity", ToU32 logger_context_capacity);
   (cstr "field_capacity", ToU32 logger_field_capacity);
   (cstr "field_key_capacity", ToU32 logger_field_key_capacity);
   (cstr "field_value_capacity", ToU32 logger_field_value_capacity);
   (cstr "format", ToText logger_format);
   (cstr "pretty_output", ToBool logger_pretty_output);
   (cstr "log_directory", ToText log_directory);
   (cstr "file_name_prefix", ToText logger_file_name_prefix);
   (cstr "backup_file_name_prefix", ToText logger_backup_file_name_prefix);
   (cstr "active_streams", ToText logger_active_streams);
   (cstr "stdout_min_level", ToText logger_stdout_min_level);
   (cstr "stdout_max_level", ToText logger_stdout_max_level);
   (cstr "stderr_min_level", ToText logger_stderr_min_level);
   (cstr "stderr_max_level", ToText logger_stderr_max_level);
   (cstr "file_min_level", ToText logger_file_min_level);
   (cstr "file_max_level", ToText logger_file_max_level);
   (cstr "udp_min_level", ToText logger_udp_min_level);
   (cstr "udp_max_level", ToText logger_udp_max_level);
   (cstr "udp_host", ToText logger_udp_host);
   (cstr "udp_port", ToU32 logger_udp_port)].

Definition security_keys : list (bytes * config_target) :=
  [(cstr "bootstrap_admin_token_secret_ref", ToText bootstrap_admin_token_secret_ref);
   (cstr "storage_key_secret_ref", ToText storage_key_secret_ref);
   (cstr "rate_limit_requests", ToU32 rate_limit_requests);
   (cstr "rate_limit_window_seconds", ToU32 rate_limit_window_seconds)].

(** The chain of comparisons, section by section. *)
Definition config_keys : list (bytes * list (bytes * config_target)) := [
  (cstr "service",
    [(cstr "environment_name", ToText environment_name);
     (cstr "service_name", ToText service_name);
     (cstr "build_version", ToVersion)]);
  (cstr "server",
    [(cstr "socket_path", ToText socket_path);
     (cstr "pid_file_path", ToText pid_file_path);
     (cstr "shutdown_timeout_millis", ToU32 shutdown_timeout_millis)]);
  (cstr "cache",
    [(cstr "memory_limit_bytes", ToU64 memory_limit_bytes);
     (cstr "default_ttl_seconds", ToU32 default_ttl_seconds);
     (cstr "min_ttl_seconds", ToU32 min_ttl_seconds);
     (cstr "max_ttl_seconds", ToU32 max_ttl_seconds);
     (cstr "max_key_bytes", ToU32 max_key_bytes);
     (cstr "max_value_bytes", ToU32 max_value_bytes);
     (cstr "bucket_count", ToU32 bucket_count);
     (cstr "sweep_interval_seconds", ToU32 sweep_interval_seconds)]);
  (cstr "storage",
    [(cstr "data_directory", ToText data_directory);
     (cstr "export_directory", ToText export_directory);
     (cstr "checkpoint_path", ToText checkpoint_path);
     (cstr "journal_path", ToText journal_path);
     (cstr "max_export_files", ToU32 max_export_files)]);
  (cstr "observability",
    [(cstr "log_directory", ToText log_directory);
     (cstr "max_log_lines", ToU32 max_log_lines)]);
  (cstr "mp_logger", logger_keys);
  (cstr "security", security_keys)].

(** The first pair with the key: [if (strcmp (...) == 0)] one after the other. *)
Fixpoint assoc {A} (key : bytes) (pairs : list (bytes * A)) : option A :=
  match pairs with
  | [] => None
  | (k, a) :: pairs' => if decide (key = k) then Some a else assoc key pairs'
  end.

Definition store_text (config : mp_cache_config_t) (f : text_field) (value : bytes) : mp_cache_config_t :=
  set_text config f (mp_cache_copy_string (text_cap f) value).

Definition apply_target (config : mp_cache_config_t) (target : config_target) (value : bytes) : option mp_cache_config_t :=
  match target with
  | ToText f => Some (store_text config f value)
  | ToVersion => if mp_cache_is_build_version_valid value then Some (store_text config build_version value) else None
  | ToU32 f => set_num config f <$> mp_cache_parse_u32 value
  | ToU64 f => set_num config f <$> mp_cache_parse_u64 value
  | ToBool f => set_num config f <$> mp_cache_parse_bool_u32 value
  end.

(** [None] is [false]: the configuration is then unchanged. *)
Definition mp_cache_apply_value (config : mp_cache_config_t) (section key value : bytes) : option mp_cache_config_t :=
  keys ← assoc section config_keys;
  target ← assoc key keys;
  apply_target config target value.

(** ** Validation *)

Definition required_texts : list text_field :=
  [service_name; environment_name; build_version; socket_path; pid_file_path; log_directory; data_directory;
   export_directory; checkpoint_path; journal_path; logger_bootstrap_path; bootstrap_admin_token_secret_ref;
   storage_key_secret_ref].
Definition positive_nums : list num_field :=
  [memory_limit_bytes; default_ttl_seconds; min_ttl_seconds; max_ttl_seconds; max_key_bytes; max_value_bytes;
   bucket_count; max_export_files; shutdown_timeout_millis; sweep_interval_seconds; max_log_lines;
   logger_buffer_capacity; logger_message_capacity; logger_context_capacity; logger_field_capacity;
   logger_field_key_capacity; logger_field_value_capacity; rate_limit_requests; rate_limit_window_seconds].

Definition mp_cache_validate (config : mp_cache_config_t) : mp_cache_config_status_t :=
  if decide (Exists (fun f => text config f = []) required_texts) then MP_CACHE_CONFIG_STATUS_VALIDATION_ERROR
  else if negb (mp_cache_is_build_version_valid (text config build_version)) then MP_CACHE_CONFIG_STATUS_VALIDATION_ERROR
  else if decide (Exists (fun f => num config f = 0) positive_nums ∨ 65535 < num config logger_udp_port)
  then MP_CACHE_CONFIG_STATUS_VALIDATION_ERROR
  else if decide (num config default_ttl_seconds < num config min_ttl_seconds ∨
                  num config max_ttl_seconds < num config default_ttl_seconds)
  then MP_CACHE_CONFIG_STATUS_VALIDATION_ERROR
  else if decide (num config max_ttl_seconds < num config min_ttl_seconds) then MP_CACHE_CONFIG_STATUS_VALIDATION_ERROR
  else MP_CACHE_CONFIG_STATUS_OK.

(** ** Defaults *)

Definition default_text (f : text_field) : bytes :=
  match f with
  | service_name => cstr "mp-cache"
  | environment_name => cstr "local"
  | build_version => cstr "0.0.0"
  | socket_path => cstr ".tmp/run/mp-cache.sock"
  | pid_file_path => cstr ".tmp/run/mp-cache.pid"
  | data_directory => cstr ".tmp/data"
  | export_directory => cstr ".tmp/exports"
  | checkpoint_path => cstr ".tmp/data/state.checkpoint"
  | journal_path => cstr ".tmp/data/state.journal"
  | log_directory => cstr "logging"
  | logger_bootstrap_path => cstr "native/mp_logger/configs/logger.bootstrap.yaml"
  | logger_format => cstr "json"
  | logger_file_name_prefix => cstr "mp-cache"
  | logger_backup_file_name_prefix => cstr "mp-cache-internal"
  | logger_active_streams => cstr "stdout,stderr,file"
  | logger_stdout_min_level => cstr "trace"
  | logger_stdout_max_level => cstr "info"
  | logger_stderr_min_level => cstr "warning"
  | logger_stderr_max_level => cstr "fatal"
  | logger_file_min_level => cstr "trace"
  | logger_file_max_level => cstr "fatal"
  | logger_udp_min_level => cstr "error"
  | logger_udp_max_level => cstr "fatal"
  | logger_udp_host => cstr "127.0.0.1"
  | bootstrap_admin_token_secret_ref => cstr "env:MP_SECRET_LOCAL_BOOTSTRAP_ADMIN_TOKEN"
  | storage_key_secret_ref => cstr "env:MP_SECRET_LOCAL_STORAGE_KEY"
  end.

Definition default_num (f : num_field) : Z :=
  match f with
  | memory_limit_bytes => 256 * 1024 * 1024
  | default_ttl_seconds => 172800
  | min_ttl_seconds => 1
  | max_ttl_seconds => 2592000
  | max_key_bytes => 256
  | max_value_bytes => 1024 * 1024
  | bucket_count => 4096
  | max_export_files => 16
  | shutdown_timeout_millis => 5000
  | sweep_interval_seconds => 5
  | max_log_lines => 200
  | logger_buffer_capacity => 4096
  | logger_message_capacity => 1024
  | logger_context_capacity => 512
  | logger_field_capacity => 8
  | logger_field_key_capacity => 32
  | logger_field_value_capacity => 128
  | logger_pretty_output => 0
  | logger_udp_port => 5514
  | rate_limit_requests => 240
  | rate_limit_window_seconds => 60
  end.

Definition mp_cache_config_init_defaults : mp_cache_config_t :=
  Config (fun f => mp_cache_copy_string (text_cap f) (default_text f)) default_num.

(** ** Loading *)

Definition MP_CACHE_LINE_CAPACITY : nat := Z.to_nat 2048.

(** One line: the section and the configuration afterwards, [None] for a parse
    error. The last test looks at the byte behind the separator, which is the
    first byte of the unquoted value unless white space was skipped. *)
Definition load_line (section : bytes) (config : mp_cache_config_t) (line_buffer : bytes)
    : option (bytes * mp_cache_config_t) :=
  let line := mp_cache_trim (c_string line_buffer) in
  match line with
  | [] => Some (section, config)
  | first :: _ =>
    if decide (first = 35 ∨ first = 59) then Some (section, config)
    else if decide (first = 91) then
      if decide ((length line < 3)%nat ∨ last line ≠ Some 93) then None
      else Some (mp_cache_copy_string MP_CACHE_TEXT_CAP (take (length line - 2) (drop 1 line)), config)
    else
      match (match strchr line 61 with Some s => Some s | None => strchr line 58 end) with
      | None =>
        if decide ((1 < length line)%nat ∧ last line = Some 58)
        then Some (mp_cache_copy_string MP_CACHE_TEXT_CAP (mp_cache_trim (take (length line - 1) line)), config)
        else None
      | Some separator =>
        let key := mp_cache_trim (take (length line - length separator) line) in
        let behind := drop 1 separator in
        let value := mp_cache_unquote (mp_cache_trim behind) in
        if bool_decide (value = []) && match behind with [] => true | c :: _ => negb (isspace c) end
        then Some (mp_cache_copy_string MP_CACHE_TEXT_CAP key, config)
        else if decide (section = [] ∨ key = []) then None
        else pair section <$> mp_cache_apply_value config section key value
      end
  end.

(** The loop over the lines; [false] when one was refused. *)
Fixpoint load_lines (section : bytes) (config : mp_cache_config_t) (lines : list bytes) : bool * mp_cache_config_t :=
  match lines with
  | [] => (true, config)
  | line_buffer :: lines' =>
    match load_line section config line_buffer with
    | None => (false, config)
    | Some (section', config') => load_lines section' config' lines'
    end
  end.

Definition mp_cache_config_load_file (config_path : option bytes) (config : mp_cache_config_t)
    : ST disk (mp_cache_config_status_t * mp_cache_config_t) := fun d =>
  match config_path with
  | None => ((MP_CACHE_CONFIG_STATUS_INVALID_ARGUMENT, config), d)
  | Some path =>
    match fopen_text path d with
    | (Ret (content, ferror), d') =>
      let '(parsed, config') := load_lines [] config (fgets_all MP_CACHE_LINE_CAPACITY [] content) in
      (if negb parsed then MP_CACHE_CONFIG_STATUS_PARSE_ERROR
       else if (ferror : bool) then MP_CACHE_CONFIG_STATUS_IO_ERROR
       else mp_cache_validate config', config', d')
    | (Fail ENOENT, d') => ((MP_CACHE_CONFIG_STATUS_NOT_FOUND, config), d')
    | (_, d') => ((MP_CACHE_CONFIG_STATUS_IO_ERROR, config), d')
    end
  end.

(** ** The template *)

Inductive template_item :=
| TComment (line : string) | TBlank | TSection (name : string)
| TText (key : string) (f : text_field) | TQuoted (key : string) (f : text_field)
| TNum (key : string) (f : num_field) | TBool (key : string) (f : num_field).

(** The format string, with the arguments in place. *)
Definition template : list template_item := [
  TComment "# mp-cache bootstrap configuration";
  TComment "# Generated automatically from compiled defaults.";
  TComment "# All TTL values are in seconds and all timestamps are UTC.";
  TBlank;
  TSection "service";
  TComment "# Valid values: local, development, qa, staging, production";
  TText "environment_name" environment_name;
  TText "service_name" service_name;
  TComment "# Build artifacts use MAJOR.MINOR.HOTFIX and local builds increment MINOR by default.";
  TQuoted "build_version" build_version;
  TBlank;
  TSection "server";
  TComment "# Use an absolute socket path in long-lived deployments.";
  TText "socket_path" socket_path;
  TText "pid_file_path" pid_file_path;
  TNum "shutdown_timeout_millis" shutdown_timeout_millis;
  TBlank;
  TSection "cache";
  TComment "# Maximum total in-memory cache footprint in bytes.";
  TNum "memory_limit_bytes" memory_limit_bytes;
  TComment "# Default TTL used when a write does not provide an explicit TTL.";
  TNum "default_ttl_seconds" default_ttl_seconds;
  TNum "min_ttl_seconds" min_ttl_seconds;
  TNum "max_ttl_seconds" max_ttl_seconds;
  TNum "max_key_bytes" max_key_bytes;
  TNum "max_value_bytes" max_value_bytes;
  TNum "bucket_count" bucket_count;
  TNum "sweep_interval_seconds" sweep_interval_seconds;
  TBlank;
  TSection "storage";
  TText "data_directory" data_directory;
  TText "export_directory" export_directory;
  TText "checkpoint_path" checkpoint_path;
  TText "journal_path" journal_path;
  TNum "max_export_files" max_export_files;
  TBlank;
  TSection "observability";
  TText "log_directory" log_directory;
  TNum "max_log_lines" max_log_lines;
  TBlank;
  TSection "mp_logger";
  TText "bootstrap_path" logger_bootstrap_path;
  TNum "buffer_capacity" logger_buffer_capacity;
  TNum "message_capacity" logger_message_capacity;
  TNum "context_capacity" logger_context_capacity;
  TNum "field_capacity" logger_field_capacity;
  TNum "field_key_capacity" logger_field_key_capacity;
  TNum "field_value_capacity" logger_field_value_capacity;
  TText "format" logger_format;
  TBool "pretty_output" logger_pretty_output;
  TText "file_name_prefix" logger_file_name_prefix;
  TText "backup_file_name_prefix" logger_backup_file_name_prefix;
  TText "active_streams" logger_active_streams;
  TText "stdout_min_level" logger_stdout_min_level;
  TText "stdout_max_level" logger_stdout_max_level;
  TText "stderr_min_level" logger_stderr_min_level;
  TText "stderr_max_level" logger_stderr_max_level;
  TText "file_min_level" logger_file_min_level;
  TText "file_max_level" logger_file_max_level;
  TText "udp_min_level" logger_udp_min_level;
  TText "udp_max_level" logger_udp_max_level;
  TText "udp_host" logger_udp_host;
  TNum "udp_port" logger_udp_port;
  TBlank;
  TSection "security";
  TComment "# Local development may use env refs. Non-local deployments should prefer file refs.";
  TText "bootstrap_admin_token_secret_ref" bootstrap_admin_token_secret_ref;
  TText "storage_key_secret_ref" storage_key_secret_ref;
  TNum "rate_limit_requests" rate_limit_requests;
  TNum "rate_limit_window_seconds" rate_limit_window_seconds].

Definition assignment (key : string) (value : bytes) : bytes := cstr "  " ++ cstr key ++ cstr ": " ++ value.
Definition item_line (config : mp_cache_config_t) (item : template_item) : bytes :=
  match item with
  | TComment line => cstr line
  | TBlank => []
  | TSection name => cstr name ++ [58]
  | TText key f => assignment key (text config f)
  | TQuoted key f => assignment key ([34] ++ text config f ++ [34])
  | TNum key f => assignment key (dec (num config f))
  | TBool key f => assignment key (if decide (num config f = 0) then cstr "false" else cstr "true")
  end.
Definition template_text (config : mp_cache_config_t) : bytes :=
  mjoin ((fun item => item_line config item ++ [10]) <$> template).

(** The result of [fprintf] is not looked at; only that of [fclose] is. *)
Definition mp_cache_config_write_template (template_path : option bytes) (config : mp_cache_config_t)
    : ST disk mp_cache_config_status_t := fun d =>
  match template_path with
  | None => (MP_CACHE_CONFIG_STATUS_INVALID_ARGUMENT, d)
  | Some path =>
    let '(o, d') := (
      _ ← mp_cache_fs_ensure_parent_directory (Some path);
      old ← fopen_write path false;
      _ ← attempt (fwrite_flush path old (template_text config));
      sys_fclose) d in
    (match o with Ret _ => MP_CACHE_CONFIG_STATUS_OK | _ => MP_CACHE_CONFIG_STATUS_IO_ERROR end, d')
  end.

(** ** Diagnostics *)

Definition printed : list (string * string * (text_field + num_field)) := [
  ("service", "environment_name", inl environment_name);
  ("service", "service_name", inl service_name);
  ("service", "build_version", inl build_version);
  ("server", "socket_path", inl socket_path);
  ("server", "pid_file_path", inl pid_file_path);
  ("server", "shutdown_timeout_millis", inr shutdown_timeout_millis);
  ("cache", "memory_limit_bytes", inr memory_limit_bytes);
  ("cache", "default_ttl_seconds", inr default_ttl_seconds);
  ("cache", "min_ttl_seconds", inr min_ttl_seconds);
  ("cache", "max_ttl_seconds", inr max_ttl_seconds);
  ("cache", "max_key_bytes", inr max_key_bytes);
  ("cache", "max_value_bytes", inr max_value_bytes);
  ("cache", "bucket_count", inr bucket_count);
  ("cache", "sweep_interval_seconds", inr sweep_interval_seconds);
  ("storage", "data_directory", inl data_directory);
  ("storage", "export_directory", inl export_directory);
  ("storage", "checkpoint_path", inl checkpoint_path);
  ("storage", "journal_path", inl journal_path);
  ("storage", "max_export_files", inr max_export_files);
  ("observability", "log_directory", inl log_directory);
  ("observability", "max_log_lines", inr max_log_lines);
  ("mp_logger", "bootstrap_path", inl logger_bootstrap_path);
  ("mp_logger", "buffer_capacity", inr logger_buffer_capacity);
  ("mp_logger", "format", inl logger_format);
  ("mp_logger", "log_directory", inl log_directory);
  ("mp_logger", "file_name_prefix", inl logger_file_name_prefix);
  ("mp_logger", "active_streams", inl logger_active_streams);
  ("security", "bootstrap_admin_token_secret_ref", inl bootstrap_admin_token_secret_ref);
  ("security", "storage_key_secret_ref", inl storage_key_secret_ref);
  ("security", "rate_limit_requests", inr rate_limit_requests);
  ("security", "rate_limit_window_seconds", inr rate_limit_window_seconds)].

Definition printed_value (config : mp_cache_config_t) (f : text_field + num_field) : bytes :=
  match f with inl f => text config f | inr f => dec (num config f) end.

(** The text written to the stream. *)
Definition mp_cache_config_print (config : mp_cache_config_t) (source_path : option bytes) : bytes :=
  cstr "config_source=" ++ default (cstr "(defaults)") source_path ++ [10] ++
  mjoin ((fun '(section, key, f) =>
    cstr section ++ cstr "." ++ cstr key ++ cstr "=" ++ printed_value config f ++ [10]) <$> printed).

Definition mp_cache_config_status_name (status : mp_cache_config_status_t) : bytes :=
  match status with
  | MP_CACHE_CONFIG_STATUS_OK => cstr "OK"
  | MP_CACHE_CONFIG_STATUS_NOT_FOUND => cstr "NOT_FOUND"
  | MP_CACHE_CONFIG_STATUS_IO_ERROR => cstr "IO_ERROR"
  | MP_CACHE_CONFIG_STATUS_PARSE_ERROR => cstr "PARSE_ERROR"
  | MP_CACHE_CONFIG_STATUS_VALIDATION_ERROR => cstr "VALIDATION_ERROR"
  | MP_CACHE_CONFIG_STATUS_INVALID_ARGUMENT => cstr "INVALID_ARGUMENT"
  end.

(** ** Trimming *)

Definition all_space (l : bytes) : Prop := Forall (fun c => isspace c = true) l.
(** No white space at either end. *)
Definition no_space (o : option Z) : bool := match o with Some c => negb (isspace c) | None => true end.
Definition tight (l : bytes) : Prop := no_space (head l) = true ∧ no_space (last l) = true.
#[export] Instance tight_dec l : Decision (tight l).
Proof. unfold tight. apply _. Defined.

Lemma drop_space_split l : ∃ pre, l = pre ++ drop_space l ∧ all_space pre.
Proof.
  assert (all_space []) as Hnil by constructor.
  induction l as [|c l (pre & Hl & Hp)]; [by exists []|]. cbn. destruct (isspace c) eqn:Hc; [|by exists []].
  exists (c :: pre). split; [cbn; by f_equal|by constructor].
Qed.

Lemma drop_space_all pre l : all_space pre → drop_space (pre ++ l) = drop_space l.
Proof. induction 1 as [|c pre Hc _ IH]; [done|]. cbn. by rewrite Hc. Qed.

Lemma drop_space_tight l : no_space (head l) = true → drop_space l = l.
Proof. destruct l as [|c l]; [done|]. cbn. by destruct (isspace c). Qed.

Lemma trim_space_split l : ∃ pre post, l = pre ++ trim_space l ++ post.
Proof.
  destruct (drop_space_split l) as (pre & Hl & _), (drop_space_split (reverse (drop_space l))) as (post & Hp & _).
  exists pre, (reverse post). unfold trim_space.
  by rewrite <-reverse_app, <-Hp, reverse_involutive.
Qed.

Lemma trim_elem c l : c ∈ mp_cache_trim l → c ∈ l.
Proof.
  intros Hc. destruct (trim_space_split l) as (pre & post & ->). apply elem_of_app. right. apply elem_of_app. by left.
Qed.

Lemma trim_padded pre l post : all_space pre → all_space post → tight l → mp_cache_trim (pre ++ l ++ post) = l.
Proof.
  intros Hpre Hpost [Hh Ht]. unfold mp_cache_trim, trim_space. rewrite drop_space_all by done.
  destruct l as [|c l].
  { cbn [app]. assert (drop_space post = []) as ->; [|done].
    rewrite <-(app_nil_r post). by rewrite drop_space_all. }
  rewrite (drop_space_tight ((c :: l) ++ post)) by exact Hh.
  rewrite reverse_app, drop_space_all by (by apply Forall_reverse).
  rewrite drop_space_tight, reverse_involutive; [done|]. by rewrite head_reverse.
Qed.

Lemma trim_tight l : tight l → mp_cache_trim l = l.
Proof. intros Hl. rewrite <-(trim_padded [] l []) at 2 by (done || constructor). by rewrite app_nil_r. Qed.

Lemma unquote_elem c v : c ∈ mp_cache_unquote v → c ∈ v.
Proof.
  unfold mp_cache_unquote. case_decide; [|done]. intros Hc%(subseteq_take _ _)%(subseteq_drop _ _); done.
Qed.

(** ** Configurations that load are well formed *)

(** Every field holds a value of its C type: terminated text within its array,
    integers within their width, a flag that is 0 or 1. *)
Record config_wf (config : mp_cache_config_t) : Prop := {
  wf_text : ∀ f, (length (text config f) < text_cap f)%nat ∧ (0 ∉ text config f);
  wf_num : ∀ f, 0 ≤ num config f ≤ num_max f;
  wf_flag : num config logger_pretty_output ≤ 1;
}.

(** Three numbers separated by dots. *)
Definition version_shape (value : bytes) : Prop :=
  ∃ major minor hotfix, value = major ++ [46] ++ minor ++ [46] ++ hotfix ∧
    all_digits major ∧ all_digits minor ∧ all_digits hotfix ∧ major ≠ [] ∧ minor ≠ [] ∧ hotfix ≠ [].

(** The texts that may be empty: settings the service only hands to the logger. *)
Definition may_be_empty (f : text_field) : Prop :=
  match f with
  | logger_format | logger_file_name_prefix | logger_backup_file_name_prefix | logger_active_streams
  | logger_stdout_min_level | logger_stdout_max_level | logger_stderr_min_level | logger_stderr_max_level
  | logger_file_min_level | logger_file_max_level | logger_udp_min_level | logger_udp_max_level
  | logger_udp_host => True
  | _ => False
  end.

(** What the service relies on: every other text is there, the only numbers
    that may be 0 are the logger's output flag and its UDP port, the version has
    the shape of one, the port is a port and the time-to-live limits are ordered. *)
Record coherent (config : mp_cache_config_t) : Prop := {
  coh_texts f : text config f = [] → may_be_empty f;
  coh_version : version_shape (text config build_version);
  coh_nums f : num config f = 0 → f = logger_pretty_output ∨ f = logger_udp_port;
  coh_port : num config logger_udp_port ≤ 65535;
  coh_ttl : num config min_ttl_seconds ≤ num config default_ttl_seconds ≤ num config max_ttl_seconds;
}.

Lemma build_version_digits ds rest count saw :
  all_digits ds → build_version_loop (ds ++ rest) count saw = build_version_loop rest count (saw || bool_decide (ds ≠ [])).
Proof.
  intros Hd. revert saw. induction Hd as [|c ds Hc Hd IH]; intros saw; cbn.
  - by rewrite orb_false_r.
  - rewrite Hc, IH. cbn. by rewrite orb_true_r.
Qed.

(** The digits a text starts with. *)
Lemma digits_split l : ∃ rest, l = digits l ++ rest ∧ all_digits (digits l) ∧
  ∀ c rest', rest = c :: rest' → isdigit c = false.
Proof.
  induction l as [|c l (rest & Hl & Hd & Hr)]; [exists []; split; [done|by split; [constructor|]]|].
  cbn. destruct (isdigit c) eqn:Hc.
  - exists rest. split; [cbn; by f_equal|]. split; [by constructor|done].
  - exists (c :: l). split; [done|]. split; [constructor|]. by intros ? ? [= <- <-].
Qed.

(** One component of a version, and what follows it. *)
Lemma build_version_component l count :
  build_version_loop l count false = true →
  ∃ ds rest, l = ds ++ rest ∧ all_digits ds ∧ ds ≠ [] ∧
    (rest = [] ∧ count = 2 ∨ ∃ rest', rest = 46 :: rest' ∧ build_version_loop rest' (u32 (count + 1)) false = true).
Proof.
  destruct (digits_split l) as (rest & Hl & Hd & Hr). rewrite Hl at 1.
  rewrite build_version_digits by done. intros Hb. exists (digits l), rest. split; [done|]. split; [done|].
  destruct rest as [|c rest]; cbn in Hb.
  - apply andb_true_iff in Hb as [Hne%bool_decide_eq_true ->%bool_decide_eq_true]. auto.
  - rewrite (Hr c rest eq_refl) in Hb. case_decide as Hc; [|done]. subst c.
    destruct (bool_decide (digits l ≠ [])) eqn:Hne; [|done]. apply bool_decide_eq_true in Hne. eauto.
Qed.

(** The version check accepts exactly the texts MAJOR.MINOR.HOTFIX. *)
Lemma build_version_spec value : zlen value < 2 ^ 32 →
  mp_cache_is_build_version_valid value = true ↔ version_shape value.
Proof.
  intros Hlen. unfold mp_cache_is_build_version_valid. split.
  - case_decide; [done|]. intros Hb.
    destruct (build_version_component _ _ Hb) as (a & r1 & -> & Ha & Hane & [[_ ?]|(r1' & -> & H1)]); [done|].
    destruct (build_version_component _ _ H1) as (b & r2 & -> & Hb2 & Hbne & [[_ ?]|(r2' & -> & H2)]); [done|].
    destruct (build_version_component _ _ H2) as (c & r3 & -> & Hc & Hcne & [[-> _]|(r3' & -> & H3)]).
    { exists a, b, c. by rewrite app_nil_r. }
    exfalso. revert H3. change (u32 (u32 (u32 (0 + 1) + 1) + 1)) with 3.
    assert (∀ l n, 3 ≤ n → n + zlen l < 2 ^ 32 → build_version_loop l n false ≠ true) as Hmany.
    { intros l. induction l as [l IH] using (well_founded_ind (well_founded_ltof _ length)). intros n Hn Hl Hv.
      destruct (build_version_component _ _ Hv) as (ds & rest & -> & _ & Hds & [[_ ?]|(rest' & -> & Hrest)]); [lia|].
      rewrite !zlen_app, zlen_cons in Hl. pose proof (zlen_nonneg ds). pose proof (zlen_nonneg rest').
      rewrite u32_small in Hrest by lia. apply (IH rest') in Hrest; [done| |lia|lia].
      unfold ltof. rewrite length_app. cbn. lia. }
    apply Hmany; [done|]. rewrite !zlen_app, !zlen_cons, !zlen_app, !zlen_cons, !zlen_app, !zlen_cons in Hlen.
    pose proof (zlen_nonneg a). pose proof (zlen_nonneg b). pose proof (zlen_nonneg c). lia.
  - intros (a & b & c & -> & Ha & Hb & Hc & Hna & Hnb & Hnc). rewrite decide_False by (by destruct a).
    assert (∀ ds rest n, all_digits ds → ds ≠ [] →
      build_version_loop (ds ++ rest) n false = build_version_loop rest n true) as Hcomp.
    { intros ds rest n Hds Hne. rewrite build_version_digits by done. by rewrite bool_decide_eq_true_2. }
    rewrite Hcomp by done. cbn. rewrite Hcomp by done. cbn. by rewrite <-(app_nil_r c), Hcomp.
Qed.

(** The fields the validation lists are exactly those. *)
Lemma required_texts_spec config :
  Forall (fun f => text config f ≠ []) required_texts ↔ ∀ f, text config f = [] → may_be_empty f.
Proof.
  rewrite Forall_forall. split; intros H f.
  - intros Hf. destruct f; try exact I; (refine (H _ _ Hf); decide_now).
  - intros Hin Hf. specialize (H f Hf). destruct f; try done; revert Hin; decide_now.
Qed.

Lemma positive_nums_spec config :
  Forall (fun f => num config f ≠ 0) positive_nums ↔
  ∀ f, num config f = 0 → f = logger_pretty_output ∨ f = logger_udp_port.
Proof.
  rewrite Forall_forall. split; intros H f.
  - intros Hf. destruct f; try (by auto); (exfalso; refine (H _ _ Hf); decide_now).
  - intros Hin Hf. destruct (H f Hf) as [-> | ->]; revert Hin; decide_now.
Qed.

Lemma validate_spec config : config_wf config →
  mp_cache_validate config = MP_CACHE_CONFIG_STATUS_OK ↔ coherent config.
Proof.
  intros Hwf. assert (zlen (text config build_version) < 2 ^ 32) as Hlen.
  { destruct (wf_text _ Hwf build_version) as [Hl _]. unfold zlen. cbn in Hl. unfold MP_CACHE_TEXT_CAP in Hl. lia. }
  pose proof (build_version_spec _ Hlen) as Hv. unfold mp_cache_validate.
  destruct (decide (Exists _ required_texts)) as [He|He%not_Exists_Forall].
  { split; [done|]. intros [Ht%required_texts_spec _ _ _ _]. apply Exists_exists in He as (f & Hf & E).
    by destruct (proj1 (Forall_forall _ _) Ht f Hf). }
  2:{ apply _. }
  destruct (mp_cache_is_build_version_valid _) eqn:Eb; cbn [negb].
  2:{ split; [done|]. intros [_ Hshape _ _ _]. by apply Hv in Hshape. }
  destruct (decide (_ ∨ _)) as [Hn|Hn].
  { split; [done|]. intros [_ _ Hnum%positive_nums_spec Hport _]. destruct Hn as [He'|?]; [|lia].
    apply Exists_exists in He' as (f & Hf & E). by destruct (proj1 (Forall_forall _ _) Hnum f Hf). }
  destruct (decide (_ ∨ _)) as [Hr|Hr]; [split; [done|intros [_ _ _ _ ?]; lia]|].
  rewrite decide_False by lia. split; [intros _|done].
  split; [by apply required_texts_spec|by apply Hv| |lia|lia]. apply positive_nums_spec, not_Exists_Forall; [apply _|]. tauto.
Qed.

Lemma parse_unsigned_range limit value parsed : parse_unsigned limit value = Some parsed → 0 ≤ parsed ≤ limit.
Proof.
  unfold parse_unsigned. pose proof (strtoul_range value) as Hr. unfold strtoul_value in Hr.
  case_decide; [done|]. destruct (strtoul value) as [[[v [] ] rest]|]; [done| |done]. case_decide; [done|].
  intros [= <-]. lia.
Qed.

Lemma set_num_wf config f value : config_wf config → 0 ≤ value ≤ num_max f →
  (f = logger_pretty_output → value ≤ 1) → config_wf (set_num config f value).
Proof.
  intros [Ht Hn Hflag] Hv Hp. split; [exact Ht| |].
  - intros g. cbn. case_decide; [by subst|done].
  - cbn. case_decide; [subst; auto|done].
Qed.

Lemma store_text_wf config f value : config_wf config → 0 ∉ value → config_wf (store_text config f value).
Proof.
  intros [Ht Hn Hflag] Hv. split; [|exact Hn|exact Hflag]. intros g. cbn. case_decide as Hg; [subst g|done]. split.
  - apply length_snprintf. destruct f; unfold text_cap, MP_CACHE_TEXT_CAP, MP_CACHE_NAME_CAP, MP_CACHE_SECRET_REF_CAP; lia.
  - intros Hin%(subseteq_take _ _). done.
Qed.

(** Which fields the table reads as 32-bit numbers. *)
Definition target_ok (target : config_target) : bool :=
  match target with
  | ToU32 f => bool_decide (f ≠ logger_pretty_output ∧ f ≠ memory_limit_bytes)
  | ToU64 f => bool_decide (f = memory_limit_bytes)
  | ToBool f => bool_decide (f ≠ memory_limit_bytes)
  | _ => true
  end.
Lemma config_keys_ok : forallb (fun keys => forallb (target_ok ∘ snd) keys.2) config_keys = true.
Proof. vm_compute. reflexivity. Qed.

Lemma assoc_elem {A} key (pairs : list (bytes * A)) a : assoc key pairs = Some a → (key, a) ∈ pairs.
Proof.
  induction pairs as [|[k b] pairs IH]; cbn; [done|]. case_decide as Hk; [intros [= <-]; subst k; constructor|].
  intros Ha. constructor. by apply IH.
Qed.

Lemma assoc_target section key keys target :
  assoc section config_keys = Some keys → assoc key keys = Some target → target_ok target = true.
Proof.
  intros Hs%assoc_elem Ht%assoc_elem. pose proof config_keys_ok as Hk.
  rewrite forallb_forall in Hk. apply list_elem_of_In in Hs. specialize (Hk _ Hs). cbn in Hk.
  rewrite forallb_forall in Hk. apply list_elem_of_In in Ht. exact (Hk _ Ht).
Qed.

Lemma apply_value_wf config section key value config' :
  config_wf config → 0 ∉ value → mp_cache_apply_value config section key value = Some config' → config_wf config'.
Proof.
  intros Hwf Hv. unfold mp_cache_apply_value.
  destruct (assoc section config_keys) as [keys|] eqn:Hs; [|done]. cbn [mbind option_bind].
  destruct (assoc key keys) as [target|] eqn:Ht; [|done]. cbn [mbind option_bind].
  pose proof (assoc_target _ _ _ _ Hs Ht) as Hok. destruct target as [f| |f|f|f]; cbn [apply_target target_ok] in *.
  - intros [= <-]. by apply store_text_wf.
  - destruct (mp_cache_is_build_version_valid value); [|done]. intros [= <-]. by apply store_text_wf.
  - destruct (mp_cache_parse_u32 value) as [n|] eqn:Hp; [|done]. intros [= <-].
    apply parse_unsigned_range in Hp. apply bool_decide_eq_true in Hok as [? ?].
    apply set_num_wf; [done|by destruct f|done].
  - destruct (mp_cache_parse_u64 value) as [n|] eqn:Hp; [|done]. intros [= <-].
    apply parse_unsigned_range in Hp. apply bool_decide_eq_true in Hok as ->. by apply set_num_wf.
  - destruct (mp_cache_parse_bool_u32 value) as [n|] eqn:Hp; [|done]. intros [= <-].
    apply bool_decide_eq_true in Hok. assert (0 ≤ n ≤ 1) by (unfold mp_cache_parse_bool_u32 in Hp; case_decide; [by injection Hp as <-|case_decide; [by injection Hp as <-|done]]).
    apply set_num_wf; [done| |lia]. destruct f; cbn; lia.
Qed.

Lemma load_line_wf section config line_buffer section' config' :
  config_wf config → load_line section config line_buffer = Some (section', config') → config_wf config'.
Proof.
  intros Hwf. unfold load_line. set (line := mp_cache_trim (c_string line_buffer)).
  assert (0 ∉ line) as Hline by (by intros Hin%trim_elem%c_string_nul_free).
  destruct line as [|first line'] eqn:El; [by intros [= <- <-]|]. rewrite <-El in *.
  case_decide; [by intros [= <- <-]|]. case_decide; [case_decide; [done|by intros [= <- <-]]|].
  match goal with |- context [match ?x with Some _ => _ | None => _ end] =>
    assert (∀ s, x = Some s → 0 ∉ s) as Hsep; [|destruct x as [separator|] eqn:Ex] end.
  - intros s Hs. destruct (strchr line 61) as [s1|] eqn:E1.
    + injection Hs as <-. apply strchr_suffix in E1 as (pre & E & _). rewrite E in Hline. set_solver.
    + apply strchr_suffix in Hs as (pre & E & _). rewrite E in Hline. set_solver.
  - destruct (bool_decide _ && _); [by intros [= <- <-]|]. case_decide; [done|].
    destruct (mp_cache_apply_value _ _ _ _) as [c|] eqn:Ha; [|done]. intros [= <- <-].
    eapply apply_value_wf; [done| |exact Ha]. intros Hin%unquote_elem%trim_elem%(subseteq_drop _ _).
    by destruct (Hsep separator eq_refl).
  - case_decide; [by intros [= <- <-]|done].
Qed.

Lemma load_lines_wf section config lines : config_wf config → config_wf (load_lines section config lines).2.
Proof.
  revert section config. induction lines as [|l lines IH]; intros section config Hwf; [done|]. cbn.
  destruct (load_line section config l) as [[section' config']|] eqn:Hl; [|done].
  apply IH. by eapply load_line_wf.
Qed.

(** C15. Whatever bytes the file holds and whatever fails, loading leaves every field
    of the configuration a value of its C type and changes no file; and when it
    reports success the configuration is coherent: no required text is empty, the
    version has three numeric components, no limit is zero, the port fits 16 bits
    and the default lifetime lies between the minimum and the maximum. *)
Theorem loaded_config_valid config_path config d :
  config_wf config →
  let '((status, config'), d') := mp_cache_config_load_file config_path config d in
  config_wf config' ∧ disk_nodes d' = disk_nodes d ∧ (status = MP_CACHE_CONFIG_STATUS_OK → coherent config').
Proof.
  intros Hwf. unfold mp_cache_config_load_file. destruct config_path as [path|]; [|done].
  destruct (fopen_text path d) as [o d'] eqn:Hopen.
  assert (disk_nodes d' = disk_nodes d) as Hd.
  { unfold fopen_text, mbind, STE_bind, next_choice, get_nodes in Hopen.
    destruct (disk_plan d) as [|[] plan]; cbn in Hopen; destruct (disk_nodes d !! path) as [[]|];
      unfold mret, STE_ret, fail in Hopen; by simplify_eq. }
  destruct o as [[content ferror]|[]|]; try done. 
  pose proof (load_lines_wf [] config (fgets_all MP_CACHE_LINE_CAPACITY [] content) Hwf) as Hwf'.
  destruct (load_lines _ _ _) as [parsed config']. cbn in Hwf'. split; [done|]. split; [done|].
  destruct parsed, ferror; try done. by apply validate_spec.
Qed.

(** ** The template loads back *)

(** Text the line parser gives back as it is: not empty, no line end, no equal
    sign, no white space or matching quotes around it, and short enough for the
    line buffer. *)
Definition plain_value (v : bytes) : Prop :=
  v ≠ [] ∧ tight v ∧ (0 ∉ v) ∧ (10 ∉ v) ∧ (61 ∉ v) ∧ (length v ≤ 1900)%nat.
#[export] Instance plain_value_dec v : Decision (plain_value v).
Proof. unfold plain_value. apply _. Defined.
Definition plain (v : bytes) : Prop := plain_value v ∧ mp_cache_unquote v = v.

(** A section name or a key. *)
Definition word_ok (w : bytes) : Prop :=
  plain_value w ∧ (58 ∉ w) ∧ (length w < 128)%nat ∧ head w ≠ Some 35 ∧ head w ≠ Some 59 ∧ head w ≠ Some 91.
#[export] Instance word_ok_dec w : Decision (word_ok w).
Proof. unfold word_ok. apply _. Defined.

Lemma all_space_check l : forallb isspace l = true → all_space l.
Proof. intros Hl. apply Forall_forall. intros c Hc. rewrite forallb_forall in Hl. by apply Hl, list_elem_of_In. Qed.

Lemma tight_app a b c : a ≠ [] → c ≠ [] → no_space (head a) = true → no_space (last c) = true → tight (a ++ b ++ c).
Proof.
  intros Ha Hc H1 H2. split.
  - by destruct a.
  - destruct (exists_last Hc) as (c' & x & ->). by rewrite !app_assoc, last_snoc in *.
Qed.

(** A line is trimmed to what it says. *)
Lemma trim_line pre l : forallb isspace pre = true → 0 ∉ pre → 0 ∉ l → tight l →
  mp_cache_trim (c_string (pre ++ l ++ [10])) = l.
Proof.
  intros Hp Hn Hl Ht. rewrite c_string_id.
  - apply trim_padded; [by apply all_space_check|by apply all_space_check|done].
  - rewrite !not_elem_of_app, not_elem_of_cons. repeat split; [done|done|lia|apply not_elem_of_nil].
Qed.

Lemma load_line_comment section config line :
  head line = Some 35 → tight line → 0 ∉ line → load_line section config (line ++ [10]) = Some (section, config).
Proof.
  intros Hh Ht Hn. unfold load_line. change (line ++ [10]) with ([] ++ line ++ [10]).
  rewrite trim_line by (done || apply not_elem_of_nil).
  destruct line; [done|]. cbn in Hh. injection Hh as ->. by rewrite decide_True by auto.
Qed.

Lemma load_line_blank section config : load_line section config ([] ++ [10]) = Some (section, config).
Proof. done. Qed.

(** The part of [load_line] behind the tests of the first character. *)
Lemma load_line_word pre section config w rest :
  forallb isspace pre = true → 0 ∉ pre → word_ok w → tight (w ++ [58] ++ rest) → 0 ∉ rest → 61 ∉ rest →
  load_line section config (pre ++ (w ++ [58] ++ rest) ++ [10]) =
    let value := mp_cache_unquote (mp_cache_trim rest) in
    if bool_decide (value = []) && match rest with [] => true | c :: _ => negb (isspace c) end
    then Some (w, config)
    else if decide (section = []) then None else pair section <$> mp_cache_apply_value config section w value.
Proof.
  intros Hpre Hp0 ((Hne & Ht & H0 & H10 & H61 & _) & H58 & Hlen & Ha & Hb & Hc) Htr Hr0 Hr61. unfold load_line.
  assert (0 ∉ w ++ [58] ++ rest) by (rewrite !not_elem_of_app; split; [done|split; [set_solver|done]]).
  assert (61 ∉ w ++ [58] ++ rest) by (rewrite !not_elem_of_app; split; [done|split; [set_solver|done]]).
  rewrite trim_line by done.
  destruct w as [|c0 w]; [done|]. cbn [app]. cbn in Ha, Hb, Hc.
  rewrite (decide_False (P := c0 = 35 ∨ c0 = 59)) by (intros [-> | ->]; congruence).
  rewrite (decide_False (P := c0 = 91)) by congruence. change (c0 :: w ++ 58 :: rest) with ((c0 :: w) ++ [58] ++ rest).
  rewrite strchr_none by done. change ((c0 :: w) ++ [58] ++ rest) with ((c0 :: w) ++ 58 :: rest).
  rewrite strchr_first by done. cbn [drop].
  replace (length ((c0 :: w) ++ 58%Z :: rest) - length (58%Z :: rest))%nat with (length (c0 :: w)) by (rewrite length_app; lia).
  rewrite take_app_length. rewrite (trim_tight (c0 :: w)) by done. unfold mp_cache_copy_string, snprintf_s, MP_CACHE_TEXT_CAP.
  rewrite take_ge by lia. cbv zeta. rewrite drop_0. destruct (bool_decide _ && _); [done|].
  destruct (decide (section = [])); [by rewrite decide_True by auto|].
  by rewrite decide_False by (by intros [?|?]).
Qed.

Lemma load_line_section section config name :
  word_ok name → load_line section config ((name ++ [58]) ++ [10]) = Some (name, config).
Proof.
  intros Hw. apply (load_line_word [] section config name []); try done; try apply not_elem_of_nil.
  destruct Hw as ((Hne & [Hh _] & _) & _). split; [by destruct name|by rewrite app_nil_r, last_snoc].
Qed.

Lemma load_line_assign section config key v :
  section ≠ [] → word_ok (cstr key) → plain_value v →
  load_line section config (assignment key v ++ [10]) =
    pair section <$> mp_cache_apply_value config section (cstr key) (mp_cache_unquote v).
Proof.
  intros Hs Hw (Hne & Ht & H0 & H10 & H61 & _). unfold assignment.
  pose proof (load_line_word (cstr "  ") section config (cstr key) (32 :: v)) as E.
  change (cstr ": ") with [58; 32]. rewrite <-!app_assoc in E |- *. cbn [app] in E |- *. rewrite E; clear E.
  - assert (mp_cache_trim (32 :: v) = v) as ->.
    { pose proof (trim_padded [32] v []) as E. rewrite app_nil_r in E. apply E; [by apply all_space_check|constructor|done]. }
    change (isspace 32) with true. cbn [negb]. rewrite andb_false_r. by rewrite decide_False.
  - done.
  - decide_now.
  - done.
  - destruct Hw as ((Hk & [Hh _] & _) & _), Ht as [_ Hl].
    apply (tight_app (cstr key) [58; 32] v); done.
  - by apply not_elem_of_cons.
  - by apply not_elem_of_cons.
Qed.

#[export] Instance config_target_eq_dec : EqDecision config_target.
Proof. solve_decision. Defined.

Definition target_of (section key : bytes) : option config_target :=
  keys ← assoc section config_keys; assoc key keys.

(** The template assigns to the right keys. *)
Definition item_check (section : bytes) (item : template_item) : Prop :=
  match item with
  | TComment line => head (cstr line) = Some 35 ∧ plain_value (cstr line)
  | TBlank => True
  | TSection name => word_ok (cstr name)
  | TText key f => section ≠ [] ∧ word_ok (cstr key) ∧ target_of section (cstr key) = Some (ToText f)
  | TQuoted key f => section ≠ [] ∧ word_ok (cstr key) ∧ f = build_version ∧ target_of section (cstr key) = Some ToVersion
  | TNum key f => section ≠ [] ∧ word_ok (cstr key) ∧
      target_of section (cstr key) = Some (if decide (f = memory_limit_bytes) then ToU64 f else ToU32 f)
  | TBool key f => section ≠ [] ∧ word_ok (cstr key) ∧ f = logger_pretty_output ∧ target_of section (cstr key) = Some (ToBool f)
  end.
#[export] Instance item_check_dec section item : Decision (item_check section item).
Proof. destruct item; cbn; apply _. Defined.

Definition item_section (section : bytes) (item : template_item) : bytes :=
  match item with TSection name => cstr name | _ => section end.
Fixpoint template_check (section : bytes) (items : list template_item) : bool :=
  match items with
  | [] => true
  | item :: items' => bool_decide (item_check section item) && template_check (item_section section item) items'
  end.

(** The field an item carries. *)
Definition item_text (item : template_item) : option text_field :=
  match item with TText _ f | TQuoted _ f => Some f | _ => None end.
Definition item_num (item : template_item) : option num_field :=
  match item with TNum _ f | TBool _ f => Some f | _ => None end.

(** What loading an item's line does to a configuration. *)
Definition item_effect (source config : mp_cache_config_t) (item : template_item) : mp_cache_config_t :=
  match item with
  | TText _ f | TQuoted _ f => set_text config f (text source f)
  | TNum _ f | TBool _ f => set_num config f (num source f)
  | _ => config
  end.

Section Template.
Context (source : mp_cache_config_t) (Hwf : config_wf source) (Hcoh : coherent source) (Hplain : ∀ f, plain (text source f)).

Lemma copy_fits f : mp_cache_copy_string (text_cap f) (text source f) = text source f.
Proof.
  destruct (wf_text _ Hwf f) as [Hl _]. unfold mp_cache_copy_string, snprintf_s. apply take_ge. lia.
Qed.

Lemma digit_facts ds c : all_digits ds → c ∈ ds → 48 ≤ c ≤ 57.
Proof. intros Hd Hc. pose proof (proj1 (Forall_forall _ _) Hd c Hc) as Hi. by apply bool_decide_eq_true in Hi. Qed.

Lemma digits_tight ds : all_digits ds → tight ds.
Proof.
  intros Hd. assert (∀ o, (∀ c, o = Some c → c ∈ ds) → no_space o = true) as Hno.
  { intros [c|] Hc; [|done]. pose proof (digit_facts ds c Hd (Hc c eq_refl)). cbn. unfold isspace.
    by rewrite bool_decide_eq_false_2 by lia. }
  split; apply Hno.
  - intros c Hc. destruct ds; [done|]. injection Hc as ->. constructor.
  - intros c Hc. by eapply last_Some_elem_of.
Qed.

Lemma dec_plain n : 0 ≤ n < 2 ^ 64 → plain_value (dec n).
Proof.
  intros Hn. destruct (dec_digits n ltac:(lia)) as (Hd & _ & Hne).
  pose proof (length_dec n ltac:(lia)) as Hl. assert (∀ c, c ∈ dec n → 48 ≤ c ≤ 57) as Hin by (intros c; by apply digit_facts).
  repeat split; [done|apply (digits_tight _ Hd)|apply (digits_tight _ Hd)| | | |lia]; intros Hc; specialize (Hin _ Hc); lia.
Qed.

Lemma unquote_first v c : head v = Some c → c ≠ 34 → c ≠ 39 → mp_cache_unquote v = v.
Proof. intros Hc H1 H2. unfold mp_cache_unquote. rewrite decide_False; [done|]. intros [_ [[? _]|[? _]]]; congruence. Qed.

Lemma dec_unquote n : 0 ≤ n → mp_cache_unquote (dec n) = dec n.
Proof.
  intros Hn. destruct (dec_digits n Hn) as (Hd & _ & Hne). destruct (dec n) as [|c ds] eqn:E; [done|].
  assert (48 ≤ c ≤ 57) by (apply (digit_facts (c :: ds)); [done|constructor]). eapply unquote_first; [done|lia|lia].
Qed.

Lemma parse_dec limit n : 0 ≤ n ≤ limit → limit ≤ SIZE_MAX → parse_unsigned limit (dec n) = Some n.
Proof.
  intros Hn Hl. unfold parse_unsigned. destruct (dec_digits n ltac:(lia)) as (_ & _ & Hne). rewrite decide_False by done.
  pose proof (strtoul_dec n [] ltac:(lia) ltac:(done)) as E. rewrite app_nil_r in E. rewrite E.
  by rewrite decide_False by (intros [H|H]; [by destruct H|lia]).
Qed.

Lemma unquote_quoted v : mp_cache_unquote ([34] ++ v ++ [34]) = v.
Proof.
  unfold mp_cache_unquote. rewrite decide_True.
  - change (drop 1 ([34] ++ v ++ [34])) with (v ++ [34]).
    replace (length ([34%Z] ++ v ++ [34%Z]) - 2)%nat with (length v) by (rewrite !length_app; cbn; lia). apply take_app_length.
  - rewrite !length_app. cbn [length]. split; [lia|]. left. split; [done|]. by rewrite app_assoc, last_snoc.
Qed.

Lemma quoted_plain v : (0 ∉ v) → (10 ∉ v) → (61 ∉ v) → (length v ≤ 1800)%nat → plain_value ([34] ++ v ++ [34]).
Proof.
  intros H0 H10 H61 Hl. split; [done|]. split; [split; [done|by rewrite app_assoc, last_snoc]|].
  rewrite !not_elem_of_app, !not_elem_of_cons, !length_app. cbn [length].
  pose proof (not_elem_of_nil (A := Z)). repeat split; try done; lia.
Qed.

(** The values of the template's lines. *)
Lemma version_plain : plain_value ([34] ++ text source build_version ++ [34]).
Proof.
  destruct (wf_text _ Hwf build_version) as [Hl H0], (Hplain build_version) as [(_ & _ & _ & ? & ? & _) _].
  cbn in Hl. unfold MP_CACHE_TEXT_CAP in Hl. apply quoted_plain; (done || lia).
Qed.

Lemma num_small f : 0 ≤ num source f < 2 ^ 64.
Proof. pose proof (wf_num _ Hwf f). destruct f; cbn [num_max] in *; lia. Qed.

Definition flag_text (n : Z) : bytes := if decide (n = 0) then cstr "false" else cstr "true".
Lemma flag_plain n : plain (flag_text n).
Proof. unfold flag_text. case_decide; (split; [decide_now|reflexivity]). Qed.
Lemma flag_parses n : 0 ≤ n ≤ 1 → mp_cache_parse_bool_u32 (flag_text n) = Some n.
Proof. intros Hn. unfold flag_text. case_decide; [by subst|]. by assert (n = 1) as -> by lia. Qed.

Lemma apply_value_target config section key value target : target_of section key = Some target →
  mp_cache_apply_value config section key value = apply_target config target value.
Proof.
  unfold target_of, mp_cache_apply_value. destruct (assoc section config_keys) as [keys|]; [|done].
  cbn [mbind option_bind]. by intros ->.
Qed.

Lemma load_item section config item : item_check section item →
  load_line section config (item_line source item ++ [10]) = Some (item_section section item, item_effect source config item).
Proof.
  destruct item as [line| |name|key f|key f|key f|key f]; cbn [item_check item_line item_section item_effect].
  - intros (Hh & Hp & Ht & H0 & _). by apply load_line_comment.
  - intros _. apply load_line_blank.
  - intros Hw. by apply load_line_section.
  - intros (Hs & Hw & Ht). destruct (Hplain f) as [Hp Hq]. rewrite load_line_assign, Hq by done.
    rewrite (apply_value_target _ _ _ _ _ Ht). cbn. unfold store_text. by rewrite copy_fits.
  - intros (Hs & Hw & -> & Ht). rewrite load_line_assign, unquote_quoted by (done || apply version_plain).
    rewrite (apply_value_target _ _ _ _ _ Ht). cbn [apply_target].
    assert (zlen (text source build_version) < 2 ^ 32) as Hz.
    { destruct (wf_text _ Hwf build_version) as [Hl _]. cbn in Hl. unfold MP_CACHE_TEXT_CAP in Hl. unfold zlen. lia. }
    rewrite (proj2 (build_version_spec _ Hz) (coh_version _ Hcoh)).
    cbn. unfold store_text. by rewrite copy_fits.
  - intros (Hs & Hw & Ht). pose proof (num_small f) as Hn.
    rewrite load_line_assign, dec_unquote by (done || lia || by apply dec_plain).
    rewrite (apply_value_target _ _ _ _ _ Ht). pose proof (wf_num _ Hwf f) as Hmax. case_decide as Hf.
    + subst f. cbn [apply_target]. unfold mp_cache_parse_u64. by rewrite parse_dec.
    + cbn [apply_target]. unfold mp_cache_parse_u32. rewrite parse_dec; [done| |done]. by destruct f.
  - intros (Hs & Hw & -> & Ht). pose proof (wf_num _ Hwf logger_pretty_output). pose proof (wf_flag _ Hwf).
    destruct (flag_plain (num source logger_pretty_output)) as [Hp Hq]. fold (flag_text (num source logger_pretty_output)).
    rewrite load_line_assign, Hq by done. rewrite (apply_value_target _ _ _ _ _ Ht). cbn [apply_target].
    rewrite flag_parses by lia. done.
Qed.

Lemma load_items section config items : template_check section items = true →
  load_lines section config ((fun l => l ++ [10]) <$> (item_line source <$> items)) =
    (true, foldl (item_effect source) config items).
Proof.
  revert section config. induction items as [|item items IH]; intros section config Hc; [done|].
  cbn [template_check] in Hc. apply andb_true_iff in Hc as [Hi%bool_decide_eq_true Hc].
  rewrite !fmap_cons. cbn [load_lines foldl]. rewrite load_item by done. by apply IH.
Qed.

(** A field that some item carries ends up as in the source. *)
Lemma effects_text config items f :
  text (foldl (item_effect source) config items) f =
    if decide (f ∈ omap item_text items) then text source f else text config f.
Proof.
  revert config. induction items as [|item items IH]; intros config; [done|]. cbn [foldl]. rewrite IH. cbn [omap list_omap].
  destruct item; cbn [item_text item_effect]; try done;
    (destruct (decide (f ∈ omap item_text items)); [by rewrite decide_True by (by apply elem_of_cons; right)|]);
    cbn; (case_decide as Hf; [subst; by rewrite decide_True by constructor|]);
    by rewrite decide_False by (by intros [?|?]%elem_of_cons).
Qed.

Lemma effects_num config items f :
  num (foldl (item_effect source) config items) f =
    if decide (f ∈ omap item_num items) then num source f else num config f.
Proof.
  revert config. induction items as [|item items IH]; intros config; [done|]. cbn [foldl]. rewrite IH. cbn [omap list_omap].
  destruct item; cbn [item_num item_effect]; try done;
    (destruct (decide (f ∈ omap item_num items)); [by rewrite decide_True by (by apply elem_of_cons; right)|]);
    cbn; (case_decide as Hf; [subst; by rewrite decide_True by constructor|]);
    by rewrite decide_False by (by intros [?|?]%elem_of_cons).
Qed.

Lemma assignment_fits key v : word_ok (cstr key) → plain_value v →
  (10 ∉ assignment key v) ∧ (S (S (length (assignment key v))) ≤ MP_CACHE_LINE_CAPACITY)%nat.
Proof.
  intros ((_ & _ & _ & Hk & _) & _ & Hkl & _) (_ & _ & _ & Hv & _ & Hvl). unfold assignment, MP_CACHE_LINE_CAPACITY.
  change (cstr "  ") with [32; 32]. change (cstr ": ") with [58; 32].
  rewrite !not_elem_of_app, !length_app, !not_elem_of_cons. cbn [length].
  pose proof (not_elem_of_nil (A := Z)). repeat split; try done; lia.
Qed.

Lemma item_line_fits section item : item_check section item →
  (10 ∉ item_line source item) ∧ (S (S (length (item_line source item))) ≤ MP_CACHE_LINE_CAPACITY)%nat.
Proof.
  destruct item as [line| |name|key f|key f|key f|key f]; cbn [item_check item_line].
  - intros (_ & _ & _ & _ & H10 & _ & Hl). split; [done|]. unfold MP_CACHE_LINE_CAPACITY. lia.
  - intros _. split; [apply not_elem_of_nil|]. cbn. unfold MP_CACHE_LINE_CAPACITY. lia.
  - intros ((_ & _ & _ & H10 & _) & _ & Hl & _). unfold MP_CACHE_LINE_CAPACITY.
    rewrite not_elem_of_app, length_app, not_elem_of_cons. cbn [length].
    pose proof (not_elem_of_nil (A := Z)). repeat split; try done; lia.
  - intros (_ & Hw & _). apply assignment_fits; [done|apply Hplain].
  - intros (_ & Hw & -> & _). apply assignment_fits; [done|apply version_plain].
  - intros (_ & Hw & _). apply assignment_fits; [done|apply dec_plain, num_small].
  - intros (_ & Hw & _ & _). apply assignment_fits; [done|apply flag_plain].
Qed.

Lemma items_fit section items : template_check section items = true →
  Forall (fun l => (10 ∉ l) ∧ (S (S (length l)) ≤ MP_CACHE_LINE_CAPACITY)%nat) (item_line source <$> items).
Proof.
  revert section. induction items as [|item items IH]; intros section Hc; [constructor|].
  cbn [template_check] in Hc. apply andb_true_iff in Hc as [Hi%bool_decide_eq_true Hc].
  rewrite fmap_cons. constructor; [by eapply item_line_fits|by eapply IH].
Qed.

Lemma template_checked : template_check [] template = true.
Proof. vm_compute. reflexivity. Qed.

Lemma template_loads config :
  load_lines [] config (fgets_all MP_CACHE_LINE_CAPACITY [] (template_text source)) =
    (true, foldl (item_effect source) config template).
Proof.
  unfold template_text.
  assert (((fun item => item_line source item ++ [10]) <$> template) = (fun l => l ++ [10]) <$> (item_line source <$> template)) as ->.
  { by rewrite <-list_fmap_compose. }
  rewrite fgets_all_lines by (eapply items_fit, template_checked). apply load_items, template_checked.
Qed.
End Template.

(** Two configurations with the same fields. *)
#[export] Instance config_equiv : Equiv mp_cache_config_t := fun c1 c2 =>
  (∀ f, text c1 f = text c2 f) ∧ (∀ f, num c1 f = num c2 f).
#[export] Instance config_equiv_equivalence : Equivalence (≡@{mp_cache_config_t}).
Proof.
  split; [done|by intros c1 c2 [? ?]; split|]. intros c1 c2 c3 [H1 H2] [H3 H4].
  split; intros f; [by rewrite H1|by rewrite H2].
Qed.

#[export] Instance coherent_proper : Proper ((≡) ==> iff) coherent.
Proof.
  assert (∀ c1 c2 : mp_cache_config_t, c1 ≡ c2 → coherent c1 → coherent c2) as Hhalf.
  { intros c1 c2 [Ht Hn] [H1 H2 H3 H4 H5]. split; rewrite <-?Ht, <-?Hn; try done.
    - intros f. rewrite <-Ht. apply H1.
    - intros f. rewrite <-Hn. apply H3. }
  intros c1 c2 H. split; [by apply Hhalf|by apply Hhalf].
Qed.

Lemma template_carries source config : foldl (item_effect source) config template ≡ source.
Proof.
  split; intros f.
  - rewrite effects_text. rewrite decide_True; [done|]. destruct f; (decide_now).
  - rewrite effects_num. rewrite decide_True; [done|]. destruct f; (decide_now).
Qed.

Lemma write_template_file path source d d' :
  disk_plan d = [] → mp_cache_config_write_template (Some path) source d = (MP_CACHE_CONFIG_STATUS_OK, d') →
  disk_nodes d' !! path = Some (RegularFile (template_text source)).
Proof.
  intros Hd. unfold mp_cache_config_write_template. generalize (template_text source) as content. intros content.
  pose proof (write_steady path content d) as Hw.
  match goal with |- (let '(_, _) := ?run in _) = _ → _ => destruct run as [[[]|e|] d1]; intros [= <-] end.
  exact (Hw d1 Hd eq_refl).
Qed.

(** C16. Round trip: when nothing fails on disk, the template written from a coherent
    configuration, whose texts are plain and short enough for a line, is loaded
    with success over any configuration, and gives every field the value it was
    written from. *)
Theorem template_roundtrip path source config d d' :
  config_wf source → coherent source → (∀ f, plain (text source f)) → config_wf config → disk_plan d = [] →
  mp_cache_config_write_template (Some path) source d = (MP_CACHE_CONFIG_STATUS_OK, d') →
  ∃ config' d'', mp_cache_config_load_file (Some path) config (Disk (disk_nodes d') []) =
      ((MP_CACHE_CONFIG_STATUS_OK, config'), d'') ∧ config' ≡ source.
Proof.
  intros Hwf Hcoh Hplain Hcfg Hd Hwrite. pose proof (write_template_file _ _ _ _ Hd Hwrite) as Hfile.
  unfold mp_cache_config_load_file. rewrite (fopen_text_file _ _ _ Hfile), (template_loads source Hwf Hcoh Hplain config). pose proof (template_carries source config) as Heq.
  set (config' := foldl _ _ _) in *.
  assert (mp_cache_validate config' = MP_CACHE_CONFIG_STATUS_OK) as ->.
  { apply validate_spec.
    - destruct Heq as [Ht Hn], Hwf as [H1 H2 H3]. split; intros; rewrite ?Ht, ?Hn; auto.
    - by rewrite Heq. }
  by exists config', (Disk (disk_nodes d') []).
Qed.

(** *** Witnesses *)

Lemma defaults_wf : config_wf mp_cache_config_init_defaults.
Proof.
  split.
  - intros f. destruct f; (split; [vm_compute; lia|decide_now]).
  - intros f. destruct f; vm_compute; split; congruence.
  - vm_compute. congruence.
Qed.

Lemma defaults_coherent : coherent mp_cache_config_init_defaults.
Proof. apply validate_spec; [exact defaults_wf|]. vm_compute. reflexivity. Qed.

Lemma defaults_plain f : plain (text mp_cache_config_init_defaults f).
Proof. destruct f; (split; [decide_now|reflexivity]). Qed.

Definition sample_config_disk : disk := Disk {[ cstr "/d" := Directory ]} [].
Definition sample_template_disk : disk := Eval vm_compute in
  (mp_cache_config_write_template (Some (cstr "/d/c.yaml")) mp_cache_config_init_defaults sample_config_disk).2.

Lemma loaded_config_valid_witness :
  coherent (mp_cache_config_load_file (Some (cstr "/d/c.yaml")) mp_cache_config_init_defaults sample_template_disk).1.2.
Proof.
  pose proof (loaded_config_valid (Some (cstr "/d/c.yaml")) mp_cache_config_init_defaults sample_template_disk defaults_wf) as H.
  assert ((mp_cache_config_load_file (Some (cstr "/d/c.yaml")) mp_cache_config_init_defaults sample_template_disk).1.1 =
    MP_CACHE_CONFIG_STATUS_OK) as E by (vm_compute; reflexivity).
  destruct (mp_cache_config_load_file _ _ _) as [[status config'] d']. exact (proj2 (proj2 H) E).
Defined.

Lemma template_roundtrip_witness :
  ∃ config' d'', mp_cache_config_load_file (Some (cstr "/d/c.yaml")) mp_cache_config_init_defaults
      (Disk (disk_nodes sample_template_disk) []) = ((MP_CACHE_CONFIG_STATUS_OK, config'), d'') ∧
    config' ≡ mp_cache_config_init_defaults.
Proof.
  apply (template_roundtrip (cstr "/d/c.yaml") mp_cache_config_init_defaults mp_cache_config_init_defaults sample_config_disk);
    [exact defaults_wf|exact defaults_coherent|exact defaults_plain|exact defaults_wf|reflexivity|vm_compute; reflexivity].
Defined.

(** Negative numbers wrap around. *)
Example negative_limit : mp_cache_parse_u64 (cstr "-1") = Some (2 ^ 64 - 1).
Proof. vm_compute. reflexivity. Qed.

(** A value with an equal sign is split there, so the key is not known. *)
Example equal_sign_refused :
  load_line (cstr "security") mp_cache_config_init_defaults (cstr "storage_key_secret_ref: env:A=B") = None.
Proof. vm_compute. reflexivity. Qed.
