(* ===== verification/Log.v ===== *)
(** * Log: internal/observability/log.c

    Finding the newest log file and reading its tail. The log files are written
    by the external logger library, so the directory is the answer the
    operating system gives: the names in [readdir] order with the result of
    [stat] and of reading the file. Starting, writing to and stopping the logger
    forward to that library, which is a parameter: the class [Logger] lists the
    functions the code calls. *)

From stdpp Require Import base numbers strings option gmap list.
From S2P Require Import Prelude Config Fs CString.
Local Open Scope Z_scope.

(** A name with the modification time of the file behind it, when [stat] says
    it is a regular file, and what opening and reading it gives. *)
Record log_entry := LogEntry {
  le_name : bytes;
  le_mtime : option Z;
  le_content : outcome bytes;
}.

(** What [opendir] gives. *)
Abbreviation log_directory_t := (outcome (list log_entry)).

Definition MP_CACHE_LOG_TAIL_READ_CAPACITY : Z := 1024 * 1024.

(** ** The newest file *)

(** One round of the directory loop: a name that starts with a dot or is not a
    regular file is skipped, and a later file wins only when it is newer. *)
Definition newer (latest : option log_entry) (entry : log_entry) : option log_entry :=
  if decide (head (le_name entry) = Some 46) then latest else
  match le_mtime entry with
  | None => latest
  | Some mtime =>
    match latest with
    | None => Some entry
    | Some l => if decide (default 0 (le_mtime l) < mtime) then Some entry else latest
    end
  end.

Definition mp_cache_log_find_latest_file (directory : log_directory_t) : outcome log_entry :=
  entries ← directory;
  match foldl newer None entries with
  | Some entry => Ret entry
  | None => Fail ENOENT
  end.

(** ** The tail *)

(** The loop that walks back over the buffer, whose first bytes are the reverse
    of [before]; the result is the index where the tail starts. *)
Fixpoint tail_index (before : bytes) (seen_lines target_lines : Z) : nat :=
  match before with
  | [] => 0
  | c :: before' =>
    if decide (c = 10) then
      let seen_lines := u32 (seen_lines + 1) in
      if decide (target_lines < seen_lines) then length before
      else tail_index before' seen_lines target_lines
    else tail_index before' seen_lines target_lines
  end.

(** The number of lines asked for: at least one, at most the maximum. *)
Definition target_lines (max_lines requested_lines : Z) : Z :=
  let target := if decide (requested_lines = 0) then 1 else requested_lines in
  if decide (max_lines < target) then max_lines else target.

(** The file name and the text of the tail. *)
Definition mp_cache_log_read_latest_tail (directory : log_directory_t) (max_lines requested_lines : Z)
    : STE heap (bytes * bytes) :=
  entry ← lift (mp_cache_log_find_latest_file directory);
  content ← lift (le_content entry);
  let file_size := zlen content in
  let read_size := if decide (MP_CACHE_LOG_TAIL_READ_CAPACITY < file_size)
                   then MP_CACHE_LOG_TAIL_READ_CAPACITY else file_size in
  ok ← run alloc;
  if negb ok then fail ENOMEM else
  let buffer := drop (Z.to_nat (file_size - read_size)) content in
  let start := tail_index (reverse buffer) 0 (target_lines max_lines requested_lines) in
  mret (snprintf_s (Z.to_nat MP_CACHE_PATH_CAP) (le_name entry), c_string (drop start buffer)).

(** ** Starting and using the logger *)

(** The functions of native/mp_logger/mp_logger.h the facade calls; [None] is a
    status other than [MP_LOG_STATUS_OK]. *)
Class Logger := {
  mp_logger_config_t : Type;
  mp_logger_t : Type;
  mp_logger_bootstrap_load : bytes → option mp_logger_config_t;
  mp_logger_config_init_defaults : mp_logger_config_t;
  mp_logger_config_apply_override : mp_logger_config_t → bytes → bytes → bytes → option mp_logger_config_t;
  mp_logger_create : mp_logger_config_t → option mp_logger_t;
  mp_logger_start : mp_logger_t → option mp_logger_t;
  mp_logger_log : mp_logger_t → bytes → bytes → bytes → mp_logger_t;
  mp_logger_shutdown : mp_logger_t → Z → mp_logger_t;
}.

Section Facade.
Context {LG : Logger}.

Definition mp_cache_log_copy (destination_capacity : nat) (source : option bytes) : bytes :=
  snprintf_s destination_capacity (default [] source).

Definition mp_cache_log_apply_override (logger_config : mp_logger_config_t) (section key value : bytes)
    : option mp_logger_config_t := mp_logger_config_apply_override logger_config section key value.
Definition mp_cache_log_apply_u32 (logger_config : mp_logger_config_t) (section key : bytes) (value : Z)
    : option mp_logger_config_t := mp_cache_log_apply_override logger_config section key (snprintf_s 32 (dec value)).
Definition mp_cache_log_apply_bool (logger_config : mp_logger_config_t) (section key : bytes) (value : Z)
    : option mp_logger_config_t :=
  mp_cache_log_apply_override logger_config section key (if decide (value = 0) then cstr "false" else cstr "true").
Definition mp_cache_log_apply_level (logger_config : mp_logger_config_t) (section minimum maximum : bytes)
    : option mp_logger_config_t :=
  c ← mp_cache_log_apply_override logger_config section (cstr "minimum_level") minimum;
  mp_cache_log_apply_override c section (cstr "maximum_level") maximum.

(** The chain of overrides joined by [||]. *)
Definition log_overrides (config : mp_cache_config_t) (c : mp_logger_config_t) : option mp_logger_config_t :=
  c ← mp_cache_log_apply_override c [] (cstr "service_name") (text config service_name);
  c ← mp_cache_log_apply_override c [] (cstr "environment_name") (text config environment_name);
  c ← mp_cache_log_apply_override c [] (cstr "build_version") (text config build_version);
  c ← mp_cache_log_apply_u32 c (cstr "logger") (cstr "buffer_capacity") (num config logger_buffer_capacity);
  c ← mp_cache_log_apply_u32 c (cstr "logger") (cstr "message_capacity") (num config logger_message_capacity);
  c ← mp_cache_log_apply_u32 c (cstr "logger") (cstr "context_capacity") (num config logger_context_capacity);
  c ← mp_cache_log_apply_u32 c (cstr "logger") (cstr "field_capacity") (num config logger_field_capacity);
  c ← mp_cache_log_apply_u32 c (cstr "logger") (cstr "field_key_capacity") (num config logger_field_key_capacity);
  c ← mp_cache_log_apply_u32 c (cstr "logger") (cstr "field_value_capacity") (num config logger_field_value_capacity);
  c ← mp_cache_log_apply_override c (cstr "logger") (cstr "format") (text config logger_format);
  c ← mp_cache_log_apply_bool c (cstr "logger") (cstr "pretty_output") (num config logger_pretty_output);
  c ← mp_cache_log_apply_override c (cstr "logger") (cstr "log_directory") (text config log_directory);
  c ← mp_cache_log_apply_override c (cstr "logger") (cstr "file_name_prefix") (text config logger_file_name_prefix);
  c ← mp_cache_log_apply_override c (cstr "logger") (cstr "backup_file_name_prefix") (text config logger_backup_file_name_prefix);
  c ← mp_cache_log_apply_override c (cstr "logger") (cstr "active_streams") (text config logger_active_streams);
  c ← mp_cache_log_apply_level c (cstr "stdout") (text config logger_stdout_min_level) (text config logger_stdout_max_level);
  c ← mp_cache_log_apply_level c (cstr "stderr") (text config logger_stderr_min_level) (text config logger_stderr_max_level);
  c ← mp_cache_log_apply_level c (cstr "file") (text config logger_file_min_level) (text config logger_file_max_level);
  c ← mp_cache_log_apply_level c (cstr "udp") (text config logger_udp_min_level) (text config logger_udp_max_level);
  c ← mp_cache_log_apply_override c (cstr "udp") (cstr "host") (text config logger_udp_host);
  mp_cache_log_apply_u32 c (cstr "udp") (cstr "port") (num config logger_udp_port).

(** [raw_logger], or [None] for -1. *)
Definition mp_cache_log_init (config : mp_cache_config_t) : option mp_logger_t :=
  let base := default mp_logger_config_init_defaults (mp_logger_bootstrap_load (text config logger_bootstrap_path)) in
  logger_config ← log_overrides config base;
  raw ← mp_logger_create logger_config;
  mp_logger_start raw.

Definition MP_CACHE_LOG_MESSAGE_CAPACITY : nat := Z.to_nat 1024.
Definition MP_CACHE_LOG_CONTEXT_CAPACITY : nat := Z.to_nat 512.

(** [message] is the formatted text. *)
Definition mp_cache_log_writef (raw_logger : option mp_logger_t) (level : bytes) (context_text : option bytes)
    (message : bytes) : option mp_logger_t :=
  raw ← raw_logger;
  Some (mp_logger_log raw level (snprintf_s MP_CACHE_LOG_MESSAGE_CAPACITY message)
    (mp_cache_log_copy MP_CACHE_LOG_CONTEXT_CAPACITY (Some (default [] context_text)))).

(** The logger as the library leaves it before it is destroyed, and the pointer,
    which is cleared. *)
Definition mp_cache_log_shutdown (raw_logger : option mp_logger_t) (timeout_millis : Z)
    : option mp_logger_t * option mp_logger_t :=
  match raw_logger with
  | None => (None, None)
  | Some raw => (Some (mp_logger_shutdown raw timeout_millis), None)
  end.
End Facade.

(** ** Lemmas *)

Definition newlines (l : bytes) : Z := zlen (filter (fun c => c = 10) l).

Lemma newlines_app l k : newlines (l ++ k) = newlines l + newlines k.
Proof. unfold newlines. by rewrite filter_app, zlen_app. Qed.

Lemma newlines_cons c l : newlines (c :: l) = (if decide (c = 10) then 1 else 0) + newlines l.
Proof. unfold newlines. rewrite filter_cons. case_decide; [by rewrite zlen_cons|done]. Qed.

Lemma newlines_reverse l : newlines (reverse l) = newlines l.
Proof.
  induction l as [|c l IH]; [done|]. rewrite reverse_cons, newlines_app, newlines_cons, IH, newlines_cons.
  change (newlines []) with 0. lia.
Qed.

Lemma newlines_bound l : 0 ≤ newlines l ≤ zlen l.
Proof.
  unfold newlines. split; [apply zlen_nonneg|]. unfold zlen. apply inj_le. apply length_filter.
Qed.

(** The tail holds as many line ends as were still wanted, or everything, and
    starts behind a line end unless it is everything. *)
Lemma tail_index_spec before after seen target :
  0 ≤ seen ≤ target → target < 2 ^ 32 → seen + zlen before < 2 ^ 32 - 1 →
  let start := tail_index before seen target in
  (start ≤ length before)%nat ∧
  seen + newlines (drop start (reverse before)) = Z.min target (seen + newlines before) ∧
  (start = 0%nat ∨ (reverse before ++ after) !! (start - 1)%nat = Some 10).
Proof.
  revert seen after. induction before as [|c before IH]; intros seen after Hs Ht Hb; cbv zeta.
  { cbn. change (newlines []) with 0. split; [lia|]. split; [lia|by left]. }
  rewrite zlen_cons in Hb. pose proof (zlen_nonneg before). rewrite reverse_cons, newlines_cons.
  pose proof (newlines_bound before) as Hnb.
  cbn [tail_index]. case_decide as Hc.
  - subst c. rewrite u32_small by lia. case_decide as Hfull.
    + cbn [length]. split; [lia|]. rewrite drop_ge by (rewrite length_app, length_reverse; cbn; lia).
      change (newlines []) with 0. split; [lia|]. right. rewrite <-app_assoc.
      rewrite lookup_app_r by (rewrite length_reverse; lia). rewrite length_reverse.
      by replace (S (length before) - 1 - length before)%nat with 0%nat by lia.
    + destruct (IH (seen + 1) ([10] ++ after)) as (H1 & H2 & H3); [lia|lia|lia|].
      cbn [length]. split; [lia|]. split; [|by rewrite <-app_assoc].
      rewrite drop_app_le by by rewrite length_reverse. rewrite newlines_app.
      change (newlines [10]) with 1. lia.
  - destruct (IH seen ([c] ++ after)) as (H1 & H2 & H3); [lia|lia|lia|].
    cbn [length]. split; [lia|]. split; [|by rewrite <-app_assoc].
    rewrite drop_app_le by by rewrite length_reverse. rewrite newlines_app, newlines_cons, decide_False by done.
    change (newlines []) with 0. lia.
Qed.

(** A file the search considers, and the newest of a list of them. *)
Definition considered (e : log_entry) (t : Z) : Prop := le_mtime e = Some t ∧ head (le_name e) ≠ Some 46.
Definition newest (entries : list log_entry) (latest : option log_entry) : Prop :=
  match latest with
  | None => ∀ e t, e ∈ entries → ¬ considered e t
  | Some l => l ∈ entries ∧ ∃ t, considered l t ∧ ∀ e t', e ∈ entries → considered e t' → t' ≤ t
  end.

Lemma newer_spec entries latest x : newest entries latest → newest (entries ++ [x]) (newer latest x).
Proof.
  assert (∀ l, newest entries latest → (∀ t t', considered x t → le_mtime l = Some t' → t ≤ t') → latest = Some l →
    newest (entries ++ [x]) latest) as Hkeep.
  { intros l Hn Hx ->. destruct Hn as (Hl & t & Ht & Hmax). split; [rewrite elem_of_app; by left|].
    exists t. split; [done|]. intros e t' [He| ->%list_elem_of_singleton]%elem_of_app Hc; [by eapply Hmax|].
    by eapply Hx; [|apply Ht]. }
  assert (∀ t, considered x t → (∀ e t', e ∈ entries → considered e t' → t' ≤ t) →
    newest (entries ++ [x]) (Some x)) as Htake.
  { intros t Hx Hmax. split; [rewrite elem_of_app, list_elem_of_singleton; by right|]. exists t. split; [done|].
    intros e t' [He| ->%list_elem_of_singleton]%elem_of_app Hc; [by eapply Hmax|].
    destruct Hx as [Hx _], Hc as [Hc _]. rewrite Hx in Hc. by injection Hc as ->. }
  assert (newest entries None → (∀ t, ¬ considered x t) → newest (entries ++ [x]) None) as Hnone.
  { intros Hn Hx e t [He| ->%list_elem_of_singleton]%elem_of_app; [by apply Hn|apply Hx]. }
  intros Hn. unfold newer. case_decide as Hdot.
  { destruct latest as [l|]; [|by apply Hnone; [|intros t []]]. by apply (Hkeep l); [|intros t t' []|]. }
  destruct (le_mtime x) as [m|] eqn:Hm.
  - destruct latest as [l|].
    + destruct Hn as (Hl & t & [Ht Hd] & Hmax). rewrite Ht. cbn [default]. case_decide as Hnew; cbn in Hnew.
      * apply (Htake m); [done|]. intros e t' He Hc. specialize (Hmax e t' He Hc). lia.
      * apply (Hkeep l); [by split; [|exists t]| |done]. intros t1 t2 [H1 _] H2. rewrite Hm in H1. rewrite Ht in H2. simplify_eq. lia.
    + apply (Htake m); [done|]. intros e t' He Hc. by destruct (Hn e t' He).
  - destruct latest as [l|]; [|by apply Hnone; [|intros t [? _]; congruence]].
    apply (Hkeep l); [done| |done]. intros t t' [? _]. congruence.
Qed.

Lemma find_latest_outcome directory :
  (∃ entries e, directory = Ret entries ∧ newest entries (Some e) ∧ mp_cache_log_find_latest_file directory = Ret e) ∨
  (∃ entries, directory = Ret entries ∧ newest entries None ∧ mp_cache_log_find_latest_file directory = Fail ENOENT) ∨
  (∃ err, directory = Fail err ∧ mp_cache_log_find_latest_file directory = Fail err) ∨
  (directory = Stuck ∧ mp_cache_log_find_latest_file directory = Stuck).
Proof.
  unfold mp_cache_log_find_latest_file. destruct directory as [entries|err|]; cbn [mbind outcome_bind];
    [|by right; right; left; eauto|by do 3 right].
  assert (newest entries (foldl newer None entries)) as H.
  { clear. induction entries as [|x entries IH] using rev_ind; [intros e t []%not_elem_of_nil|].
    rewrite foldl_snoc. by apply newer_spec. }
  destruct (foldl newer None entries) as [e|]; [left; by eauto|right; left; by eauto].
Qed.

(** ** Properties *)

(** C36. The log tail is what it says. The name is that of the newest visible
    regular file of the directory; the text is the end (up to a NUL) of the
    last mebibyte of that file, or of the whole file when it is shorter; it
    starts at the beginning of a line or of that mebibyte, and it holds exactly
    as many line ends as were asked for and allowed, or all of them if there are
    fewer. With memory, the call fails only when the directory cannot be opened,
    holds no visible regular file, or its newest file cannot be read. *)
Theorem log_tail_correct directory max_lines requested_lines h :
  0 < max_lines < 2 ^ 32 → 0 ≤ requested_lines < 2 ^ 32 →
  match (mp_cache_log_read_latest_tail directory max_lines requested_lines h).1 with
  | Ret (name, text) =>
    ∃ entries e content skipped buffer start,
      directory = Ret entries ∧ newest entries (Some e) ∧ le_content e = Ret content ∧
      name = snprintf_s (Z.to_nat MP_CACHE_PATH_CAP) (le_name e) ∧
      content = skipped ++ buffer ∧ zlen buffer = Z.min (zlen content) MP_CACHE_LOG_TAIL_READ_CAPACITY ∧
      text = c_string (drop start buffer) ∧ (start = 0%nat ∨ buffer !! (start - 1)%nat = Some 10) ∧
      newlines (drop start buffer) = Z.min (Z.min max_lines (Z.max 1 requested_lines)) (newlines buffer)
  | Fail err => heap_ok h →
      directory = Fail err ∨
      ∃ entries, directory = Ret entries ∧
        ((err = ENOENT ∧ newest entries None) ∨ ∃ e, newest entries (Some e) ∧ le_content e = Fail err)
  | Stuck => directory = Stuck ∨ ∃ entries e, directory = Ret entries ∧ newest entries (Some e) ∧ le_content e = Stuck
  end.
Proof.
  intros Hmax Hreq. unfold mp_cache_log_read_latest_tail, mbind, STE_bind, lift.
  destruct (find_latest_outcome directory) as [(entries & e & -> & Hn & ->)|[(entries & -> & Hn & ->)|[(err & -> & ->)|[-> ->]]]];
    cbn [fst]; [|by eauto 6..].
  destruct (le_content e) as [content|err|] eqn:Hc; cbn [fst]; [|by eauto 8..].
  unfold run. destruct (alloc h) as [[] h1] eqn:Ha; cbn [negb].
  2:{ intros Hok. by destruct (alloc_heap_ok _ _ _ Ha Hok). }
  set (size := if decide (MP_CACHE_LOG_TAIL_READ_CAPACITY < zlen content) then _ else _).
  set (buffer := drop (Z.to_nat (zlen content - size)) content). set (target := target_lines max_lines requested_lines).
  assert (size = Z.min (zlen content) MP_CACHE_LOG_TAIL_READ_CAPACITY) as Hsize by (unfold size; case_decide; lia).
  assert (0 ≤ size ≤ zlen content) as Hs.
  { rewrite Hsize. pose proof (zlen_nonneg content). unfold MP_CACHE_LOG_TAIL_READ_CAPACITY in *. lia. }
  assert (zlen buffer = size) as Hbuf by (unfold buffer, zlen in *; rewrite length_drop; lia).
  assert (target = Z.min max_lines (Z.max 1 requested_lines)) as Htgt.
  { unfold target, target_lines. repeat case_decide; lia. }
  assert (zlen (reverse buffer) = size) as Hrev by (unfold zlen in *; by rewrite length_reverse).
  destruct (tail_index_spec (reverse buffer) [] 0 target) as (H1 & H2 & H3);
    [lia|lia|unfold MP_CACHE_LOG_TAIL_READ_CAPACITY in *; lia|].
  rewrite reverse_involutive, app_nil_r in *. rewrite newlines_reverse in H2.
  exists entries, e, content, (take (Z.to_nat (zlen content - size)) content), buffer,
    (tail_index (reverse buffer) 0 target).
  do 4 (split; [done|]). split; [symmetry; apply take_drop|]. split; [by rewrite Hbuf|].
  split; [done|]. split; [done|]. rewrite <-Htgt. lia.
Qed.

(** ** Witnesses *)

Definition sample_log_directory : log_directory_t := Ret
  [LogEntry (cstr ".hidden") (Some 9) (Ret []); LogEntry (cstr "a.log") (Some 5) (Ret [97; 10; 98; 10; 99; 10]);
   LogEntry (cstr "old.log") (Some 3) (Ret [])].

Lemma log_tail_correct_witness :
  mp_cache_log_read_latest_tail sample_log_directory 200 2 [] = (Ret (cstr "a.log", [98; 10; 99; 10]), []) ∧
  ∃ e content, le_content e = Ret content ∧ cstr "a.log" = snprintf_s (Z.to_nat MP_CACHE_PATH_CAP) (le_name e).
Proof.
  assert (mp_cache_log_read_latest_tail sample_log_directory 200 2 [] = (Ret (cstr "a.log", [98; 10; 99; 10]), [])) as Hr
    by (vm_compute; reflexivity).
  pose proof (log_tail_correct sample_log_directory 200 2 [] ltac:(lia) ltac:(lia)) as Ht.
  rewrite Hr in Ht. cbn [fst] in Ht. destruct Ht as (? & e & content & ? & ? & ? & _ & _ & Hc & Hname & _).
  exact (conj Hr (ex_intro _ e (ex_intro _ content (conj Hc Hname)))).
Defined.
