(* ===== verification/HttpText.v ===== *)
(** * HttpText: the text parsers of internal/httpserver/http_server.c

    Request heads, targets, query strings, percent-decoding and the small JSON
    reader. A C string is the list of its bytes before the NUL; a pointer into a
    string is the suffix it points at. *)

From stdpp Require Import base numbers strings option gmap list.
From S2P Require Import Prelude CString.
Local Open Scope Z_scope.

(** ** Escaping and percent-decoding *)

Definition hex_digit (v : Z) : Z := if decide (v < 10) then 48 + v else 87 + v.

Definition escape_char (character : Z) : bytes :=
  if decide (character = 92 ∨ character = 34) then [92; character]
  else if decide (character = 10) then [92; 110]
  else if decide (character = 13) then [92; 114]
  else if decide (character = 9) then [92; 116]
  else if decide (character < 32) then
    [92; 117; 48; 48; hex_digit (character ≫ 4); hex_digit (Z.land character 15)]
  else [character].

Definition MP_CACHE_JSON_ESCAPE_EXPANSION : Z := 6.

(** A write past the allocated capacity would be [Stuck]. *)
Definition mp_cache_http_escape_json (json_text : bytes) : STE heap bytes := fun h =>
  let capacity := u64 (zlen json_text * MP_CACHE_JSON_ESCAPE_EXPANSION + 1) in
  let '(ok, h') := alloc h in
  let escaped := mjoin (escape_char <$> json_text) in
  if (ok : bool) then
    if decide (capacity < zlen escaped + 1) then (Stuck, h') else (Ret escaped, h')
  else (Fail ENOMEM, h').

Definition mp_cache_http_hex_value (character : Z) : Z :=
  if decide (48 ≤ character ≤ 57) then character - 48
  else if decide (65 ≤ character ≤ 70) then character - 65 + 10
  else if decide (97 ≤ character ≤ 102) then character - 97 + 10
  else -1.

(** The decoding loop; [room] is [decoded_capacity - 1 - out_index]. *)
Fixpoint percent_loop (encoded : bytes) (room : nat) : outcome bytes :=
  match encoded with
  | [] => Ret []
  | c :: rest =>
    match room with
    | O => Fail ENOSPC
    | S room' =>
      if decide (c = 37) then
        match rest with
        | h :: l :: rest' =>
          let high := mp_cache_http_hex_value h in
          let low := mp_cache_http_hex_value l in
          if decide (high < 0 ∨ low < 0) then Fail EINVAL else
          tail ← percent_loop rest' room'; Ret (Z.lor (high ≪ 4) low :: tail)
        | _ => Fail EINVAL
        end
      else tail ← percent_loop rest room'; Ret (c :: tail)
    end
  end.

(** The bytes written before the final NUL; the caller reads them as a C string. *)
Definition mp_cache_http_percent_decode (encoded : bytes) (decoded_capacity : nat) : outcome bytes :=
  if decide (decoded_capacity = 0%nat) then Fail EINVAL else percent_loop encoded (decoded_capacity - 1).

(** ** The JSON reader *)

Definition mp_cache_http_find_json_field (json_body field_name : bytes) : option bytes :=
  strstr json_body (snprintf_s 128 ([34] ++ field_name ++ [34])).

(** What follows the colon after the field's label, white space skipped. *)
Definition json_field_value (json_body field_name : bytes) : outcome bytes :=
  match mp_cache_http_find_json_field json_body field_name with
  | None => Fail ENOENT
  | Some field =>
    match strchr field 58 with
    | None => Fail EINVAL
    | Some value => Ret (drop_space (tail value))
    end
  end.

(** The character an escape sequence stands for. *)
Definition json_escape (c : Z) : option Z :=
  if decide (c = 34 ∨ c = 92 ∨ c = 47) then Some c
  else if decide (c = 110) then Some 10
  else if decide (c = 114) then Some 13
  else if decide (c = 116) then Some 9
  else None.

(** One character of a quoted string and what follows it. *)
Definition json_next (value : bytes) : outcome (Z * bytes) :=
  match value with
  | [] => Fail EINVAL
  | c :: value' =>
    if decide (c = 92) then
      match value' with
      | [] => Fail EINVAL
      | e :: value' => match json_escape e with Some c => Ret (c, value') | None => Fail EINVAL end
      end
    else Ret (c, value')
  end.

(** The copy loop; [room] is [out_capacity - 1 - out_index]. Every round
    consumes a character, so the length of the text is enough fuel. *)
Fixpoint extract_string_loop (fuel : nat) (value : bytes) (room : nat) : outcome bytes :=
  match fuel with
  | O => Stuck
  | S fuel' =>
    match value with
    | [] => Fail EINVAL
    | q :: _ =>
      if decide (q = 34) then Ret [] else
      '(c, value') ← json_next value;
      match room with
      | O => Fail ENOSPC
      | S room' => tail ← extract_string_loop fuel' value' room'; Ret (c :: tail)
      end
    end
  end.

Definition mp_cache_http_extract_json_string (json_body field_name : bytes) (out_capacity : nat) : outcome bytes :=
  if decide (out_capacity = 0%nat) then Fail EINVAL else
  value ← json_field_value json_body field_name;
  match value with
  | [] => Fail EINVAL
  | q :: value' =>
    if decide (q = 34) then extract_string_loop (S (length value')) value' (out_capacity - 1) else Fail EINVAL
  end.

Definition MP_CACHE_HTTP_JSON_ARRAY_LIMIT : nat := 256.

(** One element of the array: the decoded text in a buffer that doubles when
    it is full, and the text from the closing quote on. Each character and the
    final NUL are written at [decoded_length], which is [Stuck] when it is not
    below [decoded_capacity]. *)
Fixpoint array_string_loop (fuel : nat) (cursor decoded : bytes) (decoded_capacity : Z) : STE heap (bytes * bytes) :=
  match fuel with
  | O => lift Stuck
  | S fuel' =>
    match cursor with
    | [] => fail EINVAL
    | q :: _ =>
      if decide (q = 34) then
        if decide (decoded_capacity ≤ zlen decoded) then lift Stuck else mret (decoded, cursor)
      else
      '(c, cursor') ← lift (json_next cursor);
      decoded_capacity ←
        (if decide (decoded_capacity ≤ zlen decoded + 1) then
           ok ← run alloc; if (ok : bool) then mret (u64 (decoded_capacity * 2)) else fail ENOMEM
         else mret decoded_capacity);
      if decide (decoded_capacity ≤ zlen decoded) then lift Stuck
      else array_string_loop fuel' cursor' (decoded ++ [c]) decoded_capacity
    end
  end.

(** The element loop: [value_capacity] pointers are allocated so far, and the
    write of [string_values\[value_count++\]] past them is [Stuck]. *)
Fixpoint array_loop (fuel : nat) (cursor : bytes) (values : list bytes) (value_capacity : Z)
    : STE heap (list bytes) :=
  match fuel with
  | O => lift Stuck
  | S fuel' =>
    match cursor with
    | [] => fail EINVAL
    | q :: cursor' =>
      if decide (q ≠ 34) then fail EINVAL else
      if decide (MP_CACHE_HTTP_JSON_ARRAY_LIMIT ≤ length values)%nat then fail E2BIG else
      ok ← run alloc;
      if negb ok then fail ENOMEM else
      '(decoded, cursor') ← array_string_loop (S (length cursor')) cursor' [] 16;
      value_capacity ←
        (if decide (zlen values = value_capacity) then
           ok ← run alloc;
           if (ok : bool) then mret (if decide (value_capacity = 0) then 4 else u64 (value_capacity * 2))
           else fail ENOMEM
         else mret value_capacity);
      if decide (value_capacity ≤ zlen values) then lift Stuck else
      let values := values ++ [decoded] in
      match drop_space (tail cursor') with
      | [] => fail EINVAL
      | d :: cursor' =>
        if decide (d = 44) then array_loop fuel' (drop_space cursor') values value_capacity
        else if decide (d = 93) then mret values
        else fail EINVAL
      end
    end
  end.

Definition mp_cache_http_extract_json_string_array (json_body field_name : bytes) : STE heap (list bytes) :=
  value ← lift (json_field_value json_body field_name);
  match value with
  | [] => fail EINVAL
  | b :: cursor =>
    if decide (b ≠ 91) then fail EINVAL else
    let cursor := drop_space cursor in
    if decide (head cursor = Some 93) then mret [] else array_loop (S (length cursor)) cursor [] 0
  end.

Definition mp_cache_http_extract_json_u32 (json_body field_name : bytes) : outcome Z :=
  value ← json_field_value json_body field_name;
  match value with
  | c :: _ =>
    if isdigit c then
      let parsed := strtoul_value value in
      if decide (UINT32_MAX < parsed) then Fail EINVAL else Ret parsed
    else Fail EINVAL
  | [] => Fail EINVAL
  end.

(** ** Targets and query strings *)

Definition MP_CACHE_HTTP_PATH_CAPACITY : nat := 512.

(** The path and the query string. *)
Definition mp_cache_http_split_target (request_target : bytes) : bytes * bytes :=
  match strchr request_target 63 with
  | None => (snprintf_s MP_CACHE_HTTP_PATH_CAPACITY request_target, [])
  | Some separator =>
    (snprintf_s MP_CACHE_HTTP_PATH_CAPACITY (take (length request_target - length separator) request_target),
     snprintf_s MP_CACHE_HTTP_PATH_CAPACITY (tail separator))
  end.

(** The parameter loop; every round moves past an ampersand. *)
Fixpoint query_loop (fuel : nat) (position field_name : bytes) : outcome Z :=
  match fuel with
  | O => Stuck
  | S fuel' =>
    if decide (position = []) then Fail ENOENT
    else if starts_with field_name position && bool_decide (position !! length field_name = Some 61) then
      let parsed := strtoul_value (drop (length field_name + 1) position) in
      if decide (UINT32_MAX < parsed) then Fail EINVAL else Ret parsed
    else
      match strchr position 38 with
      | None => Fail ENOENT
      | Some position' => query_loop fuel' (tail position') field_name
      end
  end.
Definition mp_cache_http_extract_query_u32 (query_string field_name : bytes) : outcome Z :=
  query_loop (S (length query_string)) query_string field_name.

(** ** Request heads *)

Definition MP_CACHE_HTTP_REQUEST_CAPACITY : Z := 65536.
Definition MP_CACHE_HTTP_AUTHORIZATION_CAPACITY : nat := 256.

Record mp_cache_http_request_t := Request {
  method : bytes;
  request_target : bytes;
  request_path : bytes;
  query_string : bytes;
  authorization_header : bytes;
  content_length : Z;
  request_body : bytes;
  request_body_length : Z;
}.

(** The two headers the server reads; a repeated header replaces the value. *)
Definition parse_header_line (acc : Z * bytes) (line : bytes) : Z * bytes :=
  if starts_with_nocase (cstr "Content-Length:") line then (strtoul_value (drop 15 line), acc.2)
  else if starts_with_nocase (cstr "Authorization:") line then
    (acc.1, snprintf_s MP_CACHE_HTTP_AUTHORIZATION_CAPACITY (drop_space (drop 14 line)))
  else acc.

Definition mp_cache_http_parse_headers (headers_text : bytes) : outcome mp_cache_http_request_t :=
  match strtok_all headers_text [13; 10] with
  | [] => Fail EINVAL
  | line :: lines =>
    match scan_s 15 line with
    | None => Fail EINVAL
    | Some (method, rest) =>
      match scan_s 511 rest with
      | None => Fail EINVAL
      | Some (target, _) =>
        let '(content_length, authorization) := foldl parse_header_line (0, []) lines in
        let '(path, query) := mp_cache_http_split_target target in
        Ret (Request method target path query authorization content_length [] 0)
      end
    end
  end.

(** The length of the request head, if the buffer holds its end. *)
Definition head_length (buffer : bytes) : option nat :=
  match strstr (c_string buffer) [13; 10; 13; 10] with
  | None => None
  | Some header_end => Some (length (c_string buffer) - length header_end + 4)%nat
  end.

(** The bytes of the buffer are [buffer], [total_bytes] of them, and a NUL. The
    sum of the lengths is taken in [size_t]; the NUL that ends the body is
    written at its true position, which is [Stuck] outside the buffer. *)
Definition mp_cache_http_parse_request_buffer (buffer : bytes) : STE heap mp_cache_http_request_t :=
  match head_length buffer with
  | None => fail EINVAL
  | Some header_length =>
    ok ← run alloc;
    if negb ok then fail ENOMEM else
    request ← lift (mp_cache_http_parse_headers (c_string (take header_length buffer)));
    if decide (zlen buffer < u64 (Z.of_nat header_length + content_length request)) then fail EINVAL
    else if decide (zlen buffer < Z.of_nat header_length + content_length request) then lift Stuck
    else mret (Request (method request) (request_target request) (request_path request) (query_string request)
                 (authorization_header request) (content_length request)
                 (c_string (take (Z.to_nat (content_length request)) (drop header_length buffer)))
                 (content_length request))
  end.

(** ** Reading from the socket *)

(** What one [recv] does: an error, data, or (at the end of the list) the end
    of the stream. *)
Inductive recv_result := RecvError (is_eintr : bool) | RecvBytes (l : bytes).

Definition HEAD_END : bytes := [13; 10; 13; 10].

(** [recv] is given the room left in front of the final NUL, computed in
    [size_t]; the NUL is then written at [total_bytes], which is [Stuck] outside
    the buffer. *)
Definition recv_into (capacity : Z) (buffer l : bytes) : bytes :=
  take (Z.to_nat (u64 (capacity - zlen buffer - 1))) l.

(** Until the end of the head is in the buffer. *)
Fixpoint recv_head (capacity : Z) (buffer : bytes) (events : list recv_result)
    : outcome (bytes * list recv_result) :=
  if decide (capacity ≤ zlen buffer + 1) then Fail EINVAL else
  match events with
  | [] => Fail EINVAL
  | RecvError true :: events' => recv_head capacity buffer events'
  | RecvError false :: _ => Fail EOTHER
  | RecvBytes l :: events' =>
    let got := recv_into capacity buffer l in
    if decide (got = []) then Fail EINVAL else
    let buffer := buffer ++ got in
    if decide (capacity ≤ zlen buffer) then Stuck else
    match head_length buffer with
    | Some _ => Ret (buffer, events')
    | None => recv_head capacity buffer events'
    end
  end.

(** Until [needed] bytes are in the buffer, or the stream ends. *)
Fixpoint recv_body (capacity needed : Z) (buffer : bytes) (events : list recv_result) : outcome bytes :=
  if decide (needed ≤ zlen buffer) then Ret buffer else
  match events with
  | [] => Ret buffer
  | RecvError true :: events' => recv_body capacity needed buffer events'
  | RecvError false :: _ => Fail EOTHER
  | RecvBytes l :: events' =>
    let got := recv_into capacity buffer l in
    if decide (got = []) then Ret buffer else
    let buffer := buffer ++ got in
    if decide (capacity ≤ zlen buffer) then Stuck else recv_body capacity needed buffer events'
  end.

Definition mp_cache_http_read_request (events : list recv_result) (buffer_capacity : Z)
    : STE heap mp_cache_http_request_t :=
  if decide (buffer_capacity = 0) then fail EINVAL else
  '(buffer, events) ← lift (recv_head buffer_capacity [] events);
  match head_length buffer with
  | None => fail EINVAL
  | Some header_length =>
    ok ← run alloc;
    if negb ok then fail ENOMEM else
    request ← lift (mp_cache_http_parse_headers (c_string (take header_length buffer)));
    if decide (u64 (buffer_capacity - Z.of_nat header_length - 1) < content_length request) then fail EOVERFLOW else
    let needed := u64 (Z.of_nat header_length + content_length request) in
    buffer ← lift (recv_body buffer_capacity needed buffer events);
    if decide (zlen buffer < needed) then fail EINVAL
    else mp_cache_http_parse_request_buffer buffer
  end.

Definition mp_cache_http_extract_bearer_token (authorization_header : bytes) : option bytes :=
  if starts_with_nocase (cstr "Bearer ") authorization_header then Some (drop 7 authorization_header) else None.

(** ** Reading a request is safe *)

Lemma head_length_bound buffer n : head_length buffer = Some n → (4 ≤ n ≤ length buffer)%nat.
Proof.
  unfold head_length. destruct (strstr _ _) as [r|] eqn:E; [|done]. intros [= <-].
  apply strstr_suffix in E as (pre & rest & Hs & ->). pose proof (length_c_string buffer) as Hl.
  rewrite Hs, length_app in Hl |- *. rewrite length_app in *. cbn [length] in *. lia.
Qed.

(** ** Reading a request is safe *)

(** What the buffers of a parsed request hold. *)
Record request_ok (capacity : Z) (r : mp_cache_http_request_t) : Prop := {
  ro_method : (0 < length (method r) < 16)%nat;
  ro_target : (0 < length (request_target r) < MP_CACHE_HTTP_PATH_CAPACITY)%nat;
  ro_path : (length (request_path r) < MP_CACHE_HTTP_PATH_CAPACITY)%nat;
  ro_query : (length (query_string r) < MP_CACHE_HTTP_PATH_CAPACITY)%nat;
  ro_auth : (length (authorization_header r) < MP_CACHE_HTTP_AUTHORIZATION_CAPACITY)%nat;
  ro_content : request_body_length r = content_length r;
  ro_body : zlen (request_body r) ≤ content_length r;
  ro_fits : content_length r + 5 ≤ capacity;
  ro_text : 0 ∉ request_body r;
}.

Lemma parse_header_lines lines acc :
  0 ≤ acc.1 ≤ SIZE_MAX → (length acc.2 < MP_CACHE_HTTP_AUTHORIZATION_CAPACITY)%nat →
  let r := foldl parse_header_line acc lines in
  0 ≤ r.1 ≤ SIZE_MAX ∧ (length r.2 < MP_CACHE_HTTP_AUTHORIZATION_CAPACITY)%nat.
Proof.
  revert acc. induction lines as [|line lines IH]; intros acc H1 H2; [done|]. cbn. apply IH;
    unfold parse_header_line; destruct (starts_with_nocase _ _); cbn [fst snd]; try done;
    [apply strtoul_range|destruct (starts_with_nocase _ _); done..|].
  destruct (starts_with_nocase _ _); cbn [fst snd]; [|done]. apply length_snprintf. unfold MP_CACHE_HTTP_AUTHORIZATION_CAPACITY. lia.
Qed.

Lemma parse_headers_ok text :
  match mp_cache_http_parse_headers text with
  | Ret r => (0 < length (method r) < 16)%nat ∧ (0 < length (request_target r) < MP_CACHE_HTTP_PATH_CAPACITY)%nat ∧
      (length (request_path r) < MP_CACHE_HTTP_PATH_CAPACITY)%nat ∧
      (length (query_string r) < MP_CACHE_HTTP_PATH_CAPACITY)%nat ∧
      (length (authorization_header r) < MP_CACHE_HTTP_AUTHORIZATION_CAPACITY)%nat ∧
      0 ≤ content_length r ≤ SIZE_MAX
  | Fail _ => True
  | Stuck => False
  end.
Proof.
  unfold mp_cache_http_parse_headers. destruct (strtok_all _ _) as [|line lines]; [done|].
  destruct (scan_s 15 line) as [[m rest]|] eqn:E1; [|done]. destruct (scan_s 511 rest) as [[t rest']|] eqn:E2; [|done].
  apply scan_s_length in E1, E2.
  pose proof (parse_header_lines lines (0, [])) as Hl. cbv zeta in Hl.
  destruct (foldl parse_header_line (0, []) lines) as [cl au]. destruct Hl as [H1 H2];
    [done|unfold MP_CACHE_HTTP_AUTHORIZATION_CAPACITY; cbn; lia|]. cbn [fst snd] in H1, H2.
  assert (length (mp_cache_http_split_target t).1 < MP_CACHE_HTTP_PATH_CAPACITY ∧
    length (mp_cache_http_split_target t).2 < MP_CACHE_HTTP_PATH_CAPACITY)%nat as [H3 H4].
  { unfold mp_cache_http_split_target, MP_CACHE_HTTP_PATH_CAPACITY.
    destruct (strchr t 63); cbn [fst snd]; split; try (apply length_snprintf; lia). cbn. lia. }
  destruct (mp_cache_http_split_target t) as [p q]. cbn in *. unfold MP_CACHE_HTTP_PATH_CAPACITY in *.
  split; [lia|]. split; [lia|]. done.
Qed.

Lemma head_length_app l t n : head_length l = Some n → head_length (l ++ t) = Some n.
Proof.
  unfold head_length. destruct (strstr (c_string l) _) as [r|] eqn:E; [|done]. intros [= <-].
  destruct (c_string_app l t) as [t' ->]. rewrite (strstr_app _ t' _ _ E).
  apply strstr_suffix in E as (pre & rest & -> & ->). f_equal. rewrite !length_app. lia.
Qed.

Lemma length_recv_into capacity buffer l :
  zlen buffer < capacity < 2 ^ 63 → zlen buffer + zlen (recv_into capacity buffer l) < capacity.
Proof.
  intros Hc. unfold recv_into. rewrite u64_small by (unfold zlen in *; lia).
  unfold zlen in *. rewrite length_take. lia.
Qed.

Lemma recv_head_spec capacity buffer events :
  zlen buffer < capacity < 2 ^ 63 →
  match recv_head capacity buffer events with
  | Ret (buffer', _) => zlen buffer' < capacity ∧ ∃ n, head_length buffer' = Some n
  | Fail _ => True
  | Stuck => False
  end.
Proof.
  revert buffer. induction events as [|[[]|l] events IH]; intros buffer Hb; cbn [recv_head]; case_decide; try done.
  - by apply IH.
  - case_decide; [done|]. pose proof (length_recv_into capacity buffer l Hb). set (b := buffer ++ _).
    assert (zlen b < capacity) by (unfold b; by rewrite zlen_app). rewrite decide_False by lia.
    destruct (head_length b) eqn:E; [by split; [|eexists]|by apply IH; lia].
Qed.

Lemma recv_body_spec capacity needed buffer events :
  zlen buffer < capacity < 2 ^ 63 →
  match recv_body capacity needed buffer events with
  | Ret buffer' => zlen buffer' < capacity ∧ ∃ more, buffer' = buffer ++ more
  | Fail _ => True
  | Stuck => False
  end.
Proof.
  revert buffer. induction events as [|[[]|l] events IH]; intros buffer Hb; cbn [recv_body]; case_decide; try done.
  - split; [lia|]. exists []. by rewrite app_nil_r.
  - split; [lia|]. exists []. by rewrite app_nil_r.
  - split; [lia|]. exists []. by rewrite app_nil_r.
  - by apply IH.
  - split; [lia|]. exists []. by rewrite app_nil_r.
  - split; [lia|]. exists []. by rewrite app_nil_r.
  - case_decide. { split; [lia|]. exists []. by rewrite app_nil_r. }
    pose proof (length_recv_into capacity buffer l Hb) as Hb'. set (got := recv_into _ _ _) in *.
    rewrite <-zlen_app in Hb'. rewrite decide_False by lia. specialize (IH (buffer ++ got) ltac:(lia)).
    destruct (recv_body _ _ _ _) as [b|e|]; [|done..].
    destruct IH as (? & more & ->). split; [done|]. exists (got ++ more). by rewrite app_assoc.
Qed.

(** C17. Reading a request from a socket is memory-safe. Whatever bytes arrive in
    whatever pieces, with read errors and allocation failures, reading returns a
    request or an error and never writes outside the buffer; the pieces of a
    request fit their arrays, the declared length is the length of the body
    and the body lies inside the request buffer. *)
Theorem read_request_safe events buffer_capacity h :
  0 ≤ buffer_capacity < 2 ^ 63 →
  match mp_cache_http_read_request events buffer_capacity h with
  | (Ret r, _) => request_ok buffer_capacity r
  | (Fail _, _) => True
  | (Stuck, _) => False
  end.
Proof.
  intros Hcap. unfold mp_cache_http_read_request. case_decide; [done|]. unfold mbind, STE_bind, lift.
  pose proof (recv_head_spec buffer_capacity [] events ltac:(change (zlen (@nil Z)) with 0; lia)) as Hh.
  destruct (recv_head _ _ _) as [[buffer events']|e|]; [|done..]. destruct Hh as (Hlen & n & Hn). rewrite Hn.
  pose proof (head_length_bound _ _ Hn) as Hnb.
  unfold run. destruct (alloc h) as [[] h1]; cbn [negb]; [|done].
  pose proof (parse_headers_ok (c_string (take n buffer))) as Hp.
  destruct (mp_cache_http_parse_headers (c_string (take n buffer))) as [r|e|] eqn:Epar; [|done..].
  destruct Hp as (Hm & Ht & Hpa & Hq & Hau & Hcl).
  assert (Z.of_nat n ≤ zlen buffer) as Hn' by (unfold zlen; lia). rewrite u64_small by lia.
  case_decide as Hbig; [done|]. rewrite (u64_small (Z.of_nat n + _)) by lia.
  pose proof (recv_body_spec buffer_capacity (Z.of_nat n + content_length r) buffer events' ltac:(lia)) as Hb.
  destruct (recv_body _ _ _ _) as [buffer'|e|]; [|done..]. destruct Hb as (Hlen' & more & ->). case_decide as Hshort; [done|].
  unfold mp_cache_http_parse_request_buffer. rewrite (head_length_app _ more _ Hn). unfold mbind, STE_bind, run, lift.
  destruct (alloc h1) as [[] h2]; cbn [negb]; [|done].
  rewrite take_app_le by lia. rewrite Epar. unfold fail, mret, STE_ret, lift.
  case_decide as Hw; [done|]. rewrite decide_False by lia.
  split; cbn [method request_target request_path query_string authorization_header content_length request_body request_body_length];
    try done.
  - pose proof (length_c_string (take (Z.to_nat (content_length r)) (drop n (buffer ++ more)))) as Hl.
    rewrite length_take in Hl. unfold zlen. lia.
  - lia.
  - apply c_string_nul_free.
Qed.

(** ** The JSON reader undoes the escaping *)

(** The text that has a two-character escape or none: no other control
    characters. *)
Definition json_plain (c : Z) : Prop := 32 ≤ c ∨ c = 10 ∨ c = 13 ∨ c = 9.
#[export] Instance json_plain_dec c : Decision (json_plain c).
Proof. unfold json_plain. apply _. Defined.
Definition escape_text (s : bytes) : bytes := mjoin (escape_char <$> s).

Lemma escape_text_cons c s : escape_text (c :: s) = escape_char c ++ escape_text s.
Proof. done. Qed.

Lemma json_next_escape c tl :
  json_plain c → head (escape_char c ++ tl) ≠ Some 34 ∧ json_next (escape_char c ++ tl) = Ret (c, tl).
Proof.
  intros Hc. unfold escape_char. case_decide as H1; [by destruct H1 as [->| ->]|].
  apply Decidable.not_or in H1 as [H1 H2].
  case_decide; [by subst|]. case_decide; [by subst|]. case_decide; [by subst|].
  destruct Hc as [Hc|[?|[?|?]]]; [|done..]. rewrite decide_False by lia. cbn. split; [congruence|]. by rewrite decide_False.
Qed.

(** The other control characters are written as an escape the reader refuses. *)
Lemma json_next_control c tl :
  ¬ json_plain c → head (escape_char c ++ tl) ≠ Some 34 ∧ json_next (escape_char c ++ tl) = Fail EINVAL.
Proof.
  unfold json_plain. intros Hc. unfold escape_char. rewrite !decide_False by lia. rewrite decide_True by lia.
  done.
Qed.

Lemma escape_char_nonempty c : (0 < length (escape_char c) ≤ 6)%nat.
Proof. unfold escape_char. repeat case_decide; cbn; lia. Qed.

(** The reader goes on until the buffer is full or a character is refused. *)
Definition read_escaped (s : bytes) (room : nat) : outcome bytes :=
  if decide (Forall json_plain (take (S room) s))
  then if decide (length s ≤ room)%nat then Ret s else Fail ENOSPC else Fail EINVAL.

Lemma extract_escaped fuel s rest room :
  (length (escape_text s ++ 34%Z :: rest) ≤ fuel)%nat →
  extract_string_loop fuel (escape_text s ++ 34 :: rest) room = read_escaped s room.
Proof.
  revert fuel room. induction s as [|c s IH]; intros fuel room Hf.
  { destruct fuel as [|fuel]; [cbn in Hf; lia|]. cbn. unfold read_escaped. by rewrite !decide_True by (cbn; constructor || lia). }
  rewrite escape_text_cons, <-app_assoc in Hf |- *.
  pose proof (escape_char_nonempty c) as Hlen. rewrite length_app in Hf.
  destruct fuel as [|fuel]; [lia|]. cbn [extract_string_loop]. unfold read_escaped. cbn [take].
  destruct (decide (json_plain c)) as [Hc|Hc].
  - destruct (json_next_escape c (escape_text s ++ 34 :: rest) Hc) as [Hh Hn].
    destruct (escape_char c ++ escape_text s ++ 34 :: rest) as [|q tl] eqn:E; [by destruct (escape_char c)|].
    rewrite decide_False by (cbn in Hh; congruence). rewrite Hn. cbn [mbind outcome_bind].
    destruct room as [|room].
    { rewrite take_0, decide_True by by apply Forall_singleton. by rewrite decide_False by (cbn; lia). }
    rewrite IH by lia. unfold read_escaped. cbn [length].
    destruct (decide (Forall json_plain (take (S room) s))) as [Hs|Hs];
      [rewrite (decide_True (P := Forall json_plain (c :: _))) by by constructor
      |rewrite (decide_False (P := Forall json_plain (c :: _))) by (by intros [_ ?]%Forall_cons); done].
    destruct (decide (length s ≤ room)%nat); [rewrite decide_True by lia|rewrite decide_False by lia]; done.
  - destruct (json_next_control c (escape_text s ++ 34 :: rest) Hc) as [Hh Hn].
    destruct (escape_char c ++ escape_text s ++ 34 :: rest) as [|q tl] eqn:E; [destruct (escape_char c); [cbn in Hlen; lia|done]|].
    rewrite decide_False by (cbn in Hh; congruence). rewrite Hn. cbn [mbind outcome_bind].
    by rewrite decide_False by (by intros [? _]%Forall_cons).
Qed.

(** A compact document with the field first. *)
Definition json_document (pre name value : bytes) : bytes := pre ++ ([34] ++ name ++ [34]) ++ [58] ++ value.

Lemma json_document_value pre name value :
  34 ∉ pre → 58 ∉ name → (length name < 126)%nat →
  json_field_value (json_document pre name value) name = Ret (drop_space value).
Proof.
  intros Hq Hc Hl. unfold json_field_value, mp_cache_http_find_json_field, json_document, snprintf_s.
  rewrite take_ge by (rewrite !length_app; cbn; lia).
  change ([34] ++ name ++ [34]) with (34 :: (name ++ [34])). rewrite strstr_skip by done.
  assert (strchr ((34 :: name ++ [34]) ++ [58] ++ value) 58 = Some (58 :: value)) as ->; [|done].
  apply (strchr_first (34 :: name ++ [34])). rewrite not_elem_of_cons, not_elem_of_app. split; [done|].
  split; [done|]. by intros Hin%list_elem_of_singleton.
Qed.

(** The reader of a string whose field has been found. *)
Lemma extract_string_escaped body name s rest capacity :
  json_field_value body name = Ret ([34] ++ escape_text s ++ [34] ++ rest) → (0 < capacity)%nat →
  mp_cache_http_extract_json_string body name capacity = read_escaped s (capacity - 1).
Proof.
  intros Hf Hcap. unfold mp_cache_http_extract_json_string. rewrite decide_False by lia.
  rewrite Hf. cbn [mbind outcome_bind app]. rewrite decide_True by done. apply extract_escaped. lia.
Qed.

Lemma extract_string_found body name s rest capacity :
  json_field_value body name = Ret ([34] ++ escape_text s ++ [34] ++ rest) → Forall json_plain s → (0 < capacity)%nat →
  mp_cache_http_extract_json_string body name capacity = if decide (length s < capacity)%nat then Ret s else Fail ENOSPC.
Proof.
  intros Hf Hs Hcap. rewrite (extract_string_escaped _ _ _ _ _ Hf Hcap). unfold read_escaped.
  rewrite decide_True by by apply Forall_take.
  destruct (decide (length s < capacity)%nat); [rewrite decide_True by lia|rewrite decide_False by lia]; done.
Qed.

(** The reader of a number whose field has been found. *)
Lemma extract_u32_found body name n rest :
  json_field_value body name = Ret (dec n ++ rest) → 0 ≤ n ≤ UINT32_MAX →
  (∀ c rest', rest = c :: rest' → isdigit c = false) → mp_cache_http_extract_json_u32 body name = Ret n.
Proof.
  intros Hf Hn Hr. unfold mp_cache_http_extract_json_u32. rewrite Hf. cbn [mbind outcome_bind].
  destruct (dec_digits n ltac:(lia)) as (Hd & _ & Hne).
  pose proof (strtoul_dec n rest ltac:(unfold SIZE_MAX, UINT32_MAX in *; lia) Hr) as Hs.
  destruct (dec n) as [|c ds]; [done|]. inversion_clear Hd as [|? ? Hc _]. cbn [app] in Hs |- *. rewrite Hc.
  unfold strtoul_value. rewrite Hs. by rewrite decide_False by lia.
Qed.

(** *** Documents with two fields *)

(** A label is looked for from one quote to the next. *)
Lemma strstr_quote a n r : 34 ∉ a → 34 ∉ n →
  strstr (34 :: a ++ 34 :: r) (34 :: n ++ [34]) =
    if decide (a = n) then Some (34 :: a ++ 34 :: r) else strstr (34 :: r) (34 :: n ++ [34]).
Proof.
  intros Ha Hn. case_decide as Heq.
  { subst. change (34 :: n ++ 34 :: r) with (34 :: n ++ [34] ++ r). rewrite app_assoc. apply (strstr_here r (34 :: n ++ [34])). }
  assert (starts_with (34 :: n ++ [34]) (34 :: a ++ 34 :: r) = false) as Hs.
  { unfold starts_with. apply bool_decide_eq_false. cbn [length take]. intros [= H]. apply Heq. clear Heq.
    revert n Hn H. induction a as [|c a IH]; intros [|d n] Hn H; [done|..].
    - cbn in H. assert (d = 34) by congruence. set_solver.
    - cbn in H. assert (c = 34) by congruence. set_solver.
    - cbn in H. injection H as -> H. apply not_elem_of_cons in Ha as [_ Ha], Hn as [_ Hn]. f_equal. by apply IH. }
  cbn [strstr]. rewrite Hs. clear Hs Heq. induction a as [|c a IH]; [done|].
  apply not_elem_of_cons in Ha as [Hc Ha]. cbn [app strstr].
  assert (starts_with (34 :: n ++ [34]) (c :: a ++ 34 :: r) = false) as ->; [|by apply IH].
  unfold starts_with. apply bool_decide_eq_false. intros Heq. cbn in Heq. congruence.
Qed.

(** The second of two fields, the first of which has the string [b]. *)
Definition json_pair (first b second value : bytes) : bytes :=
  [123; 34] ++ first ++ [34; 58; 34] ++ b ++ [34; 44; 34] ++ second ++ [34; 58] ++ value.

Lemma json_pair_second first b second value :
  34 ∉ first → 34 ∉ b → 34 ∉ second → 58 ∉ second → first ≠ second → second ≠ [44] → (length second < 126)%nat →
  json_field_value (json_pair first b second value) second = Ret (drop_space value).
Proof.
  intros Hf Hb Hs Hc Hne H44 Hl. unfold json_field_value, mp_cache_http_find_json_field, snprintf_s.
  rewrite take_ge by (rewrite !length_app; cbn; lia). change ([34] ++ second ++ [34]) with (34 :: second ++ [34]).
  unfold json_pair. cbn [app].
  assert (strstr (123 :: 34 :: first ++ 34 :: 58 :: 34 :: b ++ 34 :: 44 :: 34 :: second ++ 34 :: 58 :: value) (34 :: second ++ [34]) =
    strstr (34 :: b ++ 34 :: 44 :: 34 :: second ++ 34 :: 58 :: value) (34 :: second ++ [34])) as ->.
  { etrans; [refine (strstr_nin [123] _ _ 34 _); set_solver by lia|]. rewrite (strstr_quote first second) by done. rewrite decide_False by done.
    etrans; [refine (strstr_quote [58] second _ _ _); [set_solver by lia|done]|].
    rewrite decide_False; [done|]. intros <-. set_solver. }
  rewrite (strstr_quote b second) by done.
  assert (∀ b', 58 ∉ b' → strchr (34 :: b' ++ 34 :: 58 :: value) 58 = Some (58 :: value)) as Hcolon.
  { intros b' Hb'. change (34 :: b' ++ 34 :: 58 :: value) with (34 :: b' ++ [34] ++ 58 :: value).
    rewrite (app_assoc b'). apply (strchr_first (34 :: b' ++ [34])).
    rewrite not_elem_of_cons, not_elem_of_app, list_elem_of_singleton. done. }
  case_decide as Heq.
  - subst b. assert (34 :: second ++ 34 :: 44 :: 34 :: second ++ 34 :: 58 :: value =
      34 :: (second ++ [34; 44; 34] ++ second) ++ 34 :: 58 :: value) as -> by (by rewrite <-!app_assoc).
    rewrite Hcolon; [done|]. rewrite !not_elem_of_app. set_solver by lia.
  - assert (strstr (34 :: 44 :: 34 :: second ++ 34 :: 58 :: value) (34 :: second ++ [34]) =
      strstr (34 :: second ++ 34 :: 58 :: value) (34 :: second ++ [34])) as ->.
    { etrans; [refine (strstr_quote [44] second _ _ _); [set_solver by lia|done]|]. by rewrite decide_False by done. }
    rewrite (strstr_quote second second), decide_True by done. by rewrite Hcolon.
Qed.

(** A field that is not there. *)
Lemma json_single_absent first b name :
  34 ∉ first → 34 ∉ b → 34 ∉ name → 58 ∉ name → first ≠ name → b ≠ name → (length name < 126)%nat →
  json_field_value ([123; 34] ++ first ++ [34; 58; 34] ++ b ++ [34; 125]) name = Fail ENOENT.
Proof.
  intros Hf Hb Hs Hc Hne Hbn Hl. unfold json_field_value, mp_cache_http_find_json_field, snprintf_s.
  rewrite take_ge by (rewrite !length_app; cbn; lia). change ([34] ++ name ++ [34]) with (34 :: name ++ [34]).
  cbn [app]. assert (strstr (123 :: 34 :: first ++ 34 :: 58 :: 34 :: b ++ [34; 125]) (34 :: name ++ [34]) = None) as ->; [|done].
  etrans; [refine (strstr_nin [123] _ _ 34 _); set_solver by lia|]. rewrite (strstr_quote first name), decide_False by done.
  etrans; [refine (strstr_quote [58] name _ _ _); [set_solver by lia|done]|]. rewrite decide_False by (intros <-; set_solver).
  rewrite (strstr_quote b name), decide_False by done.
  assert (starts_with (34 :: name ++ [34]) [34; 125] = false) as Hno; [|cbn [strstr]; by rewrite Hno].
  unfold starts_with. apply bool_decide_eq_false. destruct name as [|c [|d name]]; cbn; congruence.
Qed.

(** C33. What the reader returns for a string written with the server's own
    escaping, for every text and every buffer. The text itself, when it fits
    the buffer with its NUL and has no control character other than tab, line
    feed and carriage return; ENOSPC when it has none but is too long; EINVAL
    when there is such a character among those the reader gets to before the
    buffer is full, because the [\u00XX] form the escaping writes for it is not
    one the reader accepts. What follows the closing quote does not matter. *)
Theorem json_string_roundtrip pre name s rest capacity :
  34 ∉ pre → 58 ∉ name → (length name < 126)%nat → (0 < capacity)%nat →
  mp_cache_http_extract_json_string (json_document pre name ([34] ++ escape_text s ++ [34] ++ rest)) name capacity =
    if decide (Forall json_plain (take capacity s))
    then if decide (length s < capacity)%nat then Ret s else Fail ENOSPC
    else Fail EINVAL.
Proof.
  intros Hq Hc Hl Hcap. rewrite (extract_string_escaped _ _ s rest) by (done || by rewrite json_document_value).
  unfold read_escaped. replace (S (capacity - 1)) with capacity by lia. case_decide; [|done].
  destruct (decide (length s < capacity)%nat); [rewrite decide_True by lia|rewrite decide_False by lia]; done.
Qed.

(** ** Arrays of strings *)

Lemma json_next_shorter value c value' :
  json_next value = Ret (c, value') → (length value' < length value)%nat.
Proof.
  unfold json_next. destruct value as [|d value]; [done|]. case_decide; [|intros [= <- <-]; cbn; lia].
  destruct value as [|e value]; [done|]. destruct (json_escape e); [|done]. intros [= <- <-]. cbn. lia.
Qed.

(** Decoding one element stays inside the growing buffer. *)
Lemma array_string_safe fuel cursor decoded capacity h :
  (length cursor < fuel)%nat → 16 ≤ capacity → zlen decoded < capacity →
  capacity ≤ 2 * zlen decoded + 16 → zlen decoded + zlen cursor < 2 ^ 60 →
  match array_string_loop fuel cursor decoded capacity h with
  | (Ret (_, cursor'), _) => head cursor' = Some 34 ∧ (length cursor' ≤ length cursor)%nat
  | (Fail _, _) => True
  | (Stuck, _) => False
  end.
Proof.
  revert cursor decoded capacity h. induction fuel as [|fuel IH]; intros cursor decoded capacity h Hf Hc Hd Hgrow Hs; [lia|].
  cbn [array_string_loop]. destruct cursor as [|q cursor]; [done|].
  case_decide as Hq; [subst q; by rewrite decide_False by lia|].
  unfold mbind, STE_bind, lift. destruct (json_next (q :: cursor)) as [[c cursor']|e|] eqn:En; [|done|].
  2:{ unfold json_next in En. repeat (case_decide || case_match); done. }
  pose proof (json_next_shorter _ _ _ En) as Hsh. cbn [length] in Hf, Hsh. rewrite zlen_cons in Hs.
  pose proof (zlen_nonneg decoded). pose proof (zlen_nonneg cursor).
  assert (∀ cap h', 16 ≤ cap → zlen decoded + 1 < cap → cap ≤ 2 * (zlen decoded + 1) + 16 →
    match (if decide (cap ≤ zlen decoded) then lift Stuck else array_string_loop fuel cursor' (decoded ++ [c]) cap) h' with
    | (Ret (_, cursor''), _) => head cursor'' = Some 34 ∧ (length cursor'' ≤ S (length cursor))%nat
    | (Fail _, _) => True | (Stuck, _) => False end) as Hnext.
  { intros cap h' H1 H2 H3. rewrite decide_False by lia.
    specialize (IH cursor' (decoded ++ [c]) cap h'). rewrite zlen_app, zlen_singleton in IH.
    assert (zlen cursor' ≤ zlen cursor) by (unfold zlen; lia).
    specialize (IH ltac:(lia) H1 ltac:(lia) ltac:(lia) ltac:(lia)).
    destruct (array_string_loop _ _ _ _ _) as [[[? ?]|?|] ?]; [|done..]. destruct IH. split; [done|lia]. }
  case_decide as Hfull.
  - unfold run. destruct (alloc h) as [[] h1]; [|done]. apply Hnext; rewrite u64_small by lia; lia.
  - apply Hnext; lia.
Qed.

(** [value_count] and [value_capacity] at the head of the element loop. *)
Definition slots_ok (values : list bytes) (capacity : Z) : Prop :=
  zlen values ≤ capacity ≤ 2 * Z.max 2 (zlen values).

Lemma slots_step values decoded capacity :
  slots_ok values capacity → (length values < MP_CACHE_HTTP_JSON_ARRAY_LIMIT)%nat →
  let capacity' := if decide (zlen values = capacity)
                   then if decide (capacity = 0) then 4 else u64 (capacity * 2) else capacity in
  zlen values < capacity' ∧ slots_ok (values ++ [decoded]) capacity'.
Proof.
  unfold slots_ok, MP_CACHE_HTTP_JSON_ARRAY_LIMIT. intros H Hl. cbv zeta. rewrite zlen_app, zlen_singleton.
  pose proof (zlen_nonneg values). assert (zlen values < 256) by (unfold zlen; lia).
  case_decide; [case_decide; [lia|]; rewrite u64_small by lia; lia|lia].
Qed.

(** The element loop returns at most the limit, within its fuel. *)
Lemma array_loop_safe fuel cursor values capacity h :
  (length cursor < fuel)%nat → zlen cursor < 2 ^ 60 → (length values ≤ MP_CACHE_HTTP_JSON_ARRAY_LIMIT)%nat →
  slots_ok values capacity →
  match array_loop fuel cursor values capacity h with
  | (Ret vs, _) => (length vs ≤ MP_CACHE_HTTP_JSON_ARRAY_LIMIT)%nat
  | (Fail _, _) => True
  | (Stuck, _) => False
  end.
Proof.
  revert cursor values capacity h. induction fuel as [|fuel IH]; intros cursor values capacity h Hf Hs Hv Hslots; [lia|].
  cbn [array_loop]. destruct cursor as [|q cursor]; [done|]. case_decide; [done|]. case_decide as Hlim; [done|].
  cbn [length] in Hf. rewrite zlen_cons in Hs. unfold mbind, STE_bind, run, lift.
  destruct (alloc h) as [[] h1]; cbn [negb]; [|done].
  pose proof (array_string_safe (S (length cursor)) cursor [] 16 h1 ltac:(lia) ltac:(lia)) as Hstr.
  change (zlen (@nil Z)) with 0 in Hstr. specialize (Hstr ltac:(lia) ltac:(lia) ltac:(lia)).
  destruct (array_string_loop _ _ _ _ _) as [[[decoded cursor']|e|] h2]; [|done..]. destruct Hstr as [Hh Hl].
  destruct (slots_step values decoded capacity Hslots ltac:(lia)) as [Hroom Hslots'].
  assert (∀ cap h3, zlen values < cap → slots_ok (values ++ [decoded]) cap →
    match ((if decide (cap ≤ zlen values) then lift Stuck else match drop_space (tail cursor') with
      | [] => fail EINVAL
      | d :: cursor' => if decide (d = 44) then array_loop fuel (drop_space cursor') (values ++ [decoded]) cap
          else if decide (d = 93) then mret (values ++ [decoded]) else fail EINVAL
      end) : STE heap _) h3 with
    | (Ret vs, _) => (length vs ≤ MP_CACHE_HTTP_JSON_ARRAY_LIMIT)%nat | (Fail _, _) => True | (Stuck, _) => False end) as Hnext.
  { clear Hroom Hslots'. intros cap h3 Hr Hsl. rewrite decide_False by lia. assert (length (values ++ [decoded]) ≤ MP_CACHE_HTTP_JSON_ARRAY_LIMIT)%nat as Hv'
      by (rewrite length_app; cbn; lia).
    pose proof (length_drop_space (tail cursor')) as Hd. destruct cursor' as [|? cursor']; [done|]. cbn [tail length] in *.
    destruct (drop_space cursor') as [|d tl]; [done|]. cbn [length] in Hd. pose proof (length_drop_space tl).
    case_decide; [apply IH; [lia|unfold zlen in *; lia|done|done]|]. case_decide; done. }
  destruct (decide (zlen values = capacity)); [destruct (alloc h2) as [[] h3]; [|done]|]; by apply Hnext.
Qed.

Lemma extract_string_safe fuel value room :
  (length value < fuel)%nat →
  match extract_string_loop fuel value room with
  | Ret s => (length s ≤ room)%nat | Fail _ => True | Stuck => False end.
Proof.
  revert value room. induction fuel as [|fuel IH]; intros value room Hf; [lia|]. cbn [extract_string_loop].
  destruct value as [|q value]; [done|]. case_decide; [cbn; lia|].
  destruct (json_next (q :: value)) as [[c value']|e|] eqn:En; cbn [mbind outcome_bind]; [|done|].
  2:{ unfold json_next in En. repeat (case_decide || case_match); done. }
  pose proof (json_next_shorter _ _ _ En). destruct room as [|room]; [done|].
  specialize (IH value' room ltac:(lia)). destruct (extract_string_loop _ _ _); cbn; [lia|done..].
Qed.

(** C34. The JSON readers are safe on any body: on a text of any shape, with any
    allocation failures, they return or fail within their fuel, and never write
    outside a buffer: neither a character or the NUL of an element past its
    growing buffer nor an element's pointer past the growing array. An extracted
    string fits the caller's buffer, an array has at most 256 elements and a
    number fits 32 bits. *)
Theorem json_readers_safe body name capacity h :
  zlen body < 2 ^ 60 →
  match mp_cache_http_extract_json_string body name capacity with
  | Ret s => (length s < capacity)%nat | Fail _ => True | Stuck => False end ∧
  match mp_cache_http_extract_json_string_array body name h with
  | (Ret vs, _) => (length vs ≤ MP_CACHE_HTTP_JSON_ARRAY_LIMIT)%nat | (Fail _, _) => True | (Stuck, _) => False end ∧
  match mp_cache_http_extract_json_u32 body name with
  | Ret v => 0 ≤ v ≤ UINT32_MAX | Fail _ => True | Stuck => False end.
Proof.
  intros Hlen.
  assert (match json_field_value body name with Ret v => zlen v ≤ zlen body | Fail _ => True | Stuck => False end) as Hv.
  { unfold json_field_value, mp_cache_http_find_json_field. destruct (strstr _ _) as [f|] eqn:E1; [|done].
    destruct (strchr f 58) as [v|] eqn:E2; [|done]. apply strstr_suffix in E1 as (pre & ? & -> & _).
    apply strchr_suffix in E2 as (pre' & -> & _ & v' & ->). pose proof (length_drop_space v') as Hd. cbn [tail].
    unfold zlen. rewrite !length_app. cbn [length]. lia. }
  unfold mp_cache_http_extract_json_string, mp_cache_http_extract_json_string_array, mp_cache_http_extract_json_u32.
  unfold mbind, STE_bind, outcome_bind, lift.
  destruct (json_field_value body name) as [v|e|]; [|split; [case_decide; done|done]|done].
  split; [|split].
  - case_decide; [done|]. destruct v as [|q v]; [done|]. case_decide; [|done].
    pose proof (extract_string_safe (S (length v)) v (capacity - 1) ltac:(lia)) as Hs.
    destruct (extract_string_loop _ _ _); [lia|done..].
  - destruct v as [|b v]; [done|]. case_decide; [done|]. cbv zeta. case_decide; [cbn; lia|].
    pose proof (length_drop_space v). apply array_loop_safe; [lia|unfold zlen in *; cbn [length] in *; lia|cbn; lia|unfold slots_ok; change (zlen (@nil bytes)) with 0; lia].
  - destruct v as [|c v]; [done|]. destruct (isdigit c); [|done]. case_decide; [done|].
    pose proof (strtoul_range (c :: v)). lia.
Qed.

(** *** An array of strings is read back *)

Definition quoted (s : bytes) : bytes := [34] ++ escape_text s ++ [34].
Fixpoint render_elements (ks : list bytes) (rest : bytes) : bytes :=
  match ks with
  | [] => [93] ++ rest
  | [k] => quoted k ++ [93] ++ rest
  | k :: ks' => quoted k ++ [44] ++ render_elements ks' rest
  end.

Lemma array_string_escaped s : Forall json_plain s → ∀ fuel rest decoded capacity h,
  (length (escape_text s ++ 34%Z :: rest) ≤ fuel)%nat → heap_ok h → 16 ≤ capacity → zlen decoded < capacity →
  capacity ≤ 2 * zlen decoded + 16 → zlen decoded + zlen s < 2 ^ 60 →
  ∃ h', array_string_loop fuel (escape_text s ++ 34 :: rest) decoded capacity h = (Ret (decoded ++ s, 34 :: rest), h') ∧ heap_ok h'.
Proof.
  induction 1 as [|c s Hc Hs IH]; intros fuel rest decoded capacity h Hf Hh Hcap Hd Hgrow Hsz.
  { destruct fuel as [|fuel]; [cbn in Hf; lia|]. exists h.
    cbn [escape_text fmap list_fmap mjoin list_join app array_string_loop]. rewrite decide_True, decide_False by (done || lia).
    by rewrite app_nil_r. }
  rewrite escape_text_cons, <-app_assoc in Hf |- *. rewrite zlen_cons in Hsz.
  destruct (json_next_escape c (escape_text s ++ 34 :: rest) Hc) as [Hhd Hn].
  pose proof (escape_char_nonempty c) as Hlen. rewrite length_app in Hf.
  pose proof (zlen_nonneg decoded). pose proof (zlen_nonneg s).
  destruct fuel as [|fuel]; [lia|]. cbn [array_string_loop].
  destruct (escape_char c ++ escape_text s ++ 34 :: rest) as [|q tl] eqn:E; [by destruct (escape_char c)|].
  rewrite decide_False by (cbn in Hhd; congruence). unfold mbind, STE_bind, lift. rewrite Hn.
  assert (∀ cap h', heap_ok h' → 16 ≤ cap → zlen decoded + 1 < cap → cap ≤ 2 * (zlen decoded + 1) + 16 →
    ∃ h'', (if decide (cap ≤ zlen decoded) then lift Stuck
     else array_string_loop fuel (escape_text s ++ 34 :: rest) (decoded ++ [c]) cap) h' =
    (Ret (decoded ++ c :: s, 34 :: rest), h'') ∧ heap_ok h'') as Hnext.
  { intros cap h' Hh' H1 H2 H3. rewrite decide_False by lia. replace (decoded ++ c :: s) with ((decoded ++ [c]) ++ s) by by rewrite <-app_assoc.
    apply IH; rewrite ?zlen_app, ?zlen_singleton; try done; lia. }
  case_decide.
  - unfold run. destruct (alloc h) as [b h1] eqn:Ha. destruct (alloc_heap_ok _ _ _ Ha Hh) as [-> Hh1].
    apply Hnext; rewrite ?u64_small by lia; try done; lia.
  - apply Hnext; try done; lia.
Qed.

Lemma array_loop_render ks : ks ≠ [] → Forall (fun k => Forall json_plain k ∧ zlen k < 2 ^ 59) ks →
  ∀ fuel rest values capacity h,
  (length (render_elements ks rest) ≤ fuel)%nat → heap_ok h →
  (length values + length ks ≤ MP_CACHE_HTTP_JSON_ARRAY_LIMIT)%nat → slots_ok values capacity →
  ∃ h', array_loop fuel (render_elements ks rest) values capacity h = (Ret (values ++ ks), h') ∧ heap_ok h'.
Proof.
  intros Hne Hks. induction Hks as [|k ks [Hk Hkl] Hks IH]; [done|]. clear Hne.
  intros fuel rest values capacity h Hf Hh Hlim Hslots.
  assert (∃ sep tail_text, render_elements (k :: ks) rest = 34 :: escape_text k ++ 34 :: sep :: tail_text ∧
    (if decide (ks = []) then sep = 93 else sep = 44 ∧ tail_text = render_elements ks rest)) as (sep & tl & Hren & Hsep).
  { destruct ks as [|k' ks].
    - exists 93, rest. split; [|by rewrite decide_True]. unfold render_elements, quoted. by rewrite <-!app_assoc.
    - exists 44, (render_elements (k' :: ks) rest). split; [|by rewrite decide_False].
      cbn [render_elements]. unfold quoted. by rewrite <-!app_assoc. }
  rewrite Hren in Hf |- *. cbn [length] in Hf, Hlim. rewrite length_app in Hf. cbn [length] in Hf.
  destruct fuel as [|fuel]; [lia|]. cbn [array_loop]. rewrite (decide_False (P := 34 ≠ 34)) by by intros [].
  rewrite decide_False by lia. unfold mbind, STE_bind, run, lift.
  destruct (alloc h) as [b h1] eqn:Ha. destruct (alloc_heap_ok _ _ _ Ha Hh) as [-> Hh1]. cbn [negb].
  destruct (array_string_escaped k Hk (S (length (escape_text k ++ 34 :: sep :: tl))) (sep :: tl) [] 16 h1) as (h2 & -> & Hh2);
    [lia|done|lia|done|done|change (zlen (@nil Z)) with 0; lia|]. cbn [app tail].
  destruct (slots_step values k capacity Hslots ltac:(lia)) as [Hroom Hslots'].
  assert (∀ cap h3, heap_ok h3 → zlen values < cap → slots_ok (values ++ [k]) cap →
    ∃ h', ((if decide (cap ≤ zlen values) then lift Stuck else match drop_space (sep :: tl) with
      | [] => fail EINVAL
      | d :: cursor' => if decide (d = 44) then array_loop fuel (drop_space cursor') (values ++ [k]) cap
          else if decide (d = 93) then mret (values ++ [k]) else fail EINVAL
      end) : STE heap _) h3 = (Ret (values ++ k :: ks), h') ∧ heap_ok h') as Hnext.
  { intros cap h3 Hh3 Hr Hsl. rewrite decide_False by lia. destruct (decide (ks = [])) as [->|Hks'].
    - subst sep. cbn. by exists h3.
    - destruct Hsep as [-> ->]. cbn [drop_space]. change (isspace 44) with false. cbn match.
      rewrite decide_True by done.
      assert (drop_space (render_elements ks rest) = render_elements ks rest) as ->.
      { destruct ks as [|k1 [|k2 ks]]; [done|done|done]. }
      destruct (IH Hks' fuel rest (values ++ [k]) cap h3) as (h' & Hr' & Hh'); [lia|done|rewrite length_app; cbn; lia|done|].
      exists h'. by rewrite Hr', <-app_assoc. }
  destruct (decide (zlen values = capacity)); [|exact (Hnext _ h2 Hh2 Hroom Hslots')].
  destruct (alloc h2) as [b h3] eqn:Ha2. destruct (alloc_heap_ok _ _ _ Ha2 Hh2) as [-> Hh3].
  exact (Hnext _ h3 Hh3 Hroom Hslots').
Qed.

(** A JSON array of at most 256 strings is read back as exactly those
    strings, in order, while memory lasts. *)
Theorem json_array_roundtrip pre name ks rest h :
  34 ∉ pre → 58 ∉ name → (length name < 126)%nat → heap_ok h →
  (length ks ≤ MP_CACHE_HTTP_JSON_ARRAY_LIMIT)%nat → Forall (fun k => Forall json_plain k ∧ zlen k < 2 ^ 59) ks →
  ∃ h', mp_cache_http_extract_json_string_array (json_document pre name ([91] ++ render_elements ks rest)) name h = (Ret ks, h').
Proof.
  intros Hq Hc Hl Hh Hlim Hks. unfold mp_cache_http_extract_json_string_array, mbind, STE_bind, lift.
  rewrite json_document_value by done. cbn [app drop_space]. change (isspace 91) with false. cbn match.
  rewrite decide_False by (by intros []). cbv zeta.
  assert (drop_space (render_elements ks rest) = render_elements ks rest) as ->.
  { destruct ks as [|k1 [|k2 ks]]; done. }
  destruct ks as [|k ks]; [by exists h|].
  rewrite decide_False by (destruct ks; done).
  destruct (array_loop_render (k :: ks) ltac:(done) Hks (S (length (render_elements (k :: ks) rest))) rest [] 0 h)
    as (h' & -> & _); [lia|done|cbn [length] in *; lia|unfold slots_ok; change (zlen (@nil bytes)) with 0; lia|]. by exists h'.
Qed.

(** ** Percent-decoding *)

(** A reference encoder: the bytes [keep] accepts stay, the others (and always
    the percent sign) become an escape. *)
Definition percent_encode_char (keep : Z → bool) (c : Z) : bytes :=
  if keep c && bool_decide (c ≠ 37) then [c] else [37; hex_digit (c ≫ 4); hex_digit (Z.land c 15)].
Definition percent_encode (keep : Z → bool) (s : bytes) : bytes := mjoin (percent_encode_char keep <$> s).

Lemma hex_value_digit v : 0 ≤ v < 16 → mp_cache_http_hex_value (hex_digit v) = v.
Proof.
  intros Hv. unfold hex_digit. destruct (decide (v < 10)); unfold mp_cache_http_hex_value; repeat case_decide; lia.
Qed.

Lemma byte_nibbles c : is_byte c → 0 ≤ c ≫ 4 < 16 ∧ 0 ≤ Z.land c 15 < 16 ∧ Z.lor ((c ≫ 4) ≪ 4) (Z.land c 15) = c.
Proof.
  intros [H0 H1]. change 15 with (Z.ones 4). rewrite Z.land_ones, Z.shiftr_div_pow2 by lia.
  rewrite lor_shiftl_add; [|lia|apply Z.mod_pos_bound; lia]. change (2 ^ 4) with 16. split; [zlia|]. split; zlia.
Qed.

Lemma percent_loop_encode keep s room :
  bytes_wf s → percent_loop (percent_encode keep s) room =
    if decide (length s ≤ room)%nat then Ret s else Fail ENOSPC.
Proof.
  intros Hs. revert room. induction Hs as [|c s Hc Hs IH]; intros room; [by destruct room|].
  change (percent_encode keep (c :: s)) with (percent_encode_char keep c ++ percent_encode keep s).
  assert (∀ room', (tl ← (if decide (length s ≤ room')%nat then Ret s else Fail ENOSPC); Ret (c :: tl)) =
    (if decide (length (c :: s) ≤ S room')%nat then Ret (c :: s) else Fail ENOSPC : outcome bytes)) as Hstep.
  { intros room'. cbn [length]. destruct (decide (length s ≤ room')%nat); [rewrite decide_True by lia|rewrite decide_False by lia]; done. }
  unfold percent_encode_char. destruct (keep c && bool_decide (c ≠ 37)) eqn:E; cbn [app percent_loop].
  - apply andb_true_iff in E as [_ E%bool_decide_eq_true].
    destruct room as [|room]; [by rewrite decide_False by (cbn; lia)|]. rewrite decide_False by done. rewrite IH. apply Hstep.
  - destruct room as [|room]; [by rewrite decide_False by (cbn; lia)|]. rewrite decide_True by done.
    destruct (byte_nibbles c Hc) as (H1 & H2 & H3). rewrite !hex_value_digit by done.
    rewrite decide_False by lia. rewrite H3, IH. apply Hstep.
Qed.

(** C35. Percent-decoding inverts percent-encoding, whichever bytes the encoder
    leaves as they are: the decoded text is returned when it fits the buffer
    with its NUL, otherwise the call fails with ENOSPC. *)
Theorem percent_decode_roundtrip keep s capacity :
  bytes_wf s → (0 < capacity)%nat →
  mp_cache_http_percent_decode (percent_encode keep s) capacity =
    if decide (length s < capacity)%nat then Ret s else Fail ENOSPC.
Proof.
  intros Hs Hc. unfold mp_cache_http_percent_decode. rewrite decide_False by lia. rewrite percent_loop_encode by done.
  destruct (decide (length s < capacity)%nat); [rewrite decide_True by lia|rewrite decide_False by lia]; done.
Qed.

(** Decoding never overruns its buffer. *)
Lemma percent_decode_fits encoded capacity :
  match mp_cache_http_percent_decode encoded capacity with
  | Ret s => (length s < capacity)%nat | Fail _ => True | Stuck => False end.
Proof.
  assert (∀ n encoded room, (length encoded ≤ n)%nat →
    match percent_loop encoded room with Ret s => (length s ≤ room)%nat | Fail _ => True | Stuck => False end) as H.
  { induction n as [|n IH]; intros [|c e] room Hn; cbn in *; try lia.
    destruct room as [|room]; [done|]. case_decide.
    - destruct e as [|h [|l e]]; [done|done|]. case_decide; [done|].
      specialize (IH e room ltac:(cbn in Hn; lia)). destruct (percent_loop e room); cbn; [lia|done..].
    - specialize (IH e room ltac:(lia)). destruct (percent_loop e room); cbn; [lia|done..]. }
  unfold mp_cache_http_percent_decode. case_decide; [done|]. specialize (H _ encoded (capacity - 1)%nat (le_n _)).
  destruct (percent_loop _ _); [lia|done..].
Qed.

(** ** Escaping *)

(** The escaped text fits the buffer that is allocated for it. *)
Lemma escape_json_spec s h :
  zlen s * 6 + 1 < 2 ^ 64 →
  ∃ h', mp_cache_http_escape_json s h = ((if (alloc h).1 then Ret (escape_text s) else Fail ENOMEM), h') ∧
    (heap_ok h → heap_ok h').
Proof.
  intros Hs. unfold mp_cache_http_escape_json. destruct (alloc h) as [b h'] eqn:Ha. exists h'.
  split; [|intros Hh; by eapply alloc_heap_ok]. cbn [fst]. destruct b; [|done]. fold (escape_text s).
  rewrite decide_False; [done|]. pose proof (zlen_nonneg s).
  unfold MP_CACHE_JSON_ESCAPE_EXPANSION. rewrite u64_small by lia.
  enough (zlen (escape_text s) ≤ zlen s * 6) by lia. clear. induction s as [|c s IH]; [done|].
  rewrite escape_text_cons, zlen_app, zlen_cons. pose proof (escape_char_nonempty c). unfold zlen in *. lia.
Qed.

(** ** Witnesses *)

(** A request that arrives in two pieces with an interrupted read between. *)
Definition sample_request_events : list recv_result :=
  [RecvBytes (cstr "PUT /v1/cache/k?x=1 HTTP/1.1" ++ [13; 10] ++ cstr "Content-Len"); RecvError true;
   RecvBytes (cstr "gth: 2" ++ [13; 10] ++ cstr "authorization:  Bearer t" ++ [13; 10; 13; 10] ++ cstr "{}")].

Lemma read_request_safe_witness :
  ∃ r, (mp_cache_http_read_request sample_request_events MP_CACHE_HTTP_REQUEST_CAPACITY []).1 = Ret r ∧
    request_ok MP_CACHE_HTTP_REQUEST_CAPACITY r.
Proof.
  pose proof (read_request_safe sample_request_events MP_CACHE_HTTP_REQUEST_CAPACITY []
    ltac:(unfold MP_CACHE_HTTP_REQUEST_CAPACITY; lia)) as Hr.
  destruct (mp_cache_http_read_request sample_request_events MP_CACHE_HTTP_REQUEST_CAPACITY []) as [[r|e|] h] eqn:E;
    [exists r; exact (conj eq_refl Hr)|vm_compute in E; discriminate E|destruct Hr].
Defined.

Lemma json_string_roundtrip_witness :
  mp_cache_http_extract_json_string
    (json_document (cstr "{") (cstr "path") ([34] ++ escape_text [97; 34; 10; 92] ++ [34] ++ cstr "}")) (cstr "path") 8 =
  Ret [97; 34; 10; 92] ∧
  mp_cache_http_extract_json_string
    (json_document (cstr "{") (cstr "path") ([34] ++ escape_text [97; 1] ++ [34] ++ cstr "}")) (cstr "path") 8 = Fail EINVAL.
Proof.
  split.
  - apply (json_string_roundtrip (cstr "{") (cstr "path") [97; 34; 10; 92] (cstr "}") 8); [decide_now..|cbn; lia|lia].
  - apply (json_string_roundtrip (cstr "{") (cstr "path") [97; 1] (cstr "}") 8); [decide_now..|cbn; lia|lia].
Defined.

Lemma json_array_roundtrip_witness :
  ∃ h', mp_cache_http_extract_json_string_array
    (json_document (cstr "{") (cstr "keys") ([91] ++ render_elements [cstr "a"; cstr "b"] (cstr "}"))) (cstr "keys") [] =
  (Ret [cstr "a"; cstr "b"], h').
Proof.
  apply (json_array_roundtrip (cstr "{") (cstr "keys") [cstr "a"; cstr "b"] (cstr "}") []);
    [decide_now..|cbn; lia|constructor|unfold MP_CACHE_HTTP_JSON_ARRAY_LIMIT; cbn; lia|].
  decide_now.
Defined.

Lemma json_readers_safe_witness :
  (mp_cache_http_extract_json_string_array (cstr "keys") (cstr "keys") [true]).1 ≠ Stuck.
Proof.
  destruct (json_readers_safe (cstr "keys") (cstr "keys") 4 [true] ltac:(vm_compute; reflexivity)) as (_ & H & _).
  intros E. destruct (mp_cache_http_extract_json_string_array (cstr "keys") (cstr "keys") [true]) as [[?|?|] ?];
    [discriminate E|discriminate E|exact H].
Defined.

Lemma percent_decode_roundtrip_witness :
  mp_cache_http_percent_decode (percent_encode isalnum (cstr "a/b%")) 16 = Ret (cstr "a/b%").
Proof.
  apply (percent_decode_roundtrip isalnum (cstr "a/b%") 16); [decide_now|lia].
Defined.
