(* ===== verification/StorageCodec.v ===== *)
(** * StorageCodec: the payload formats of internal/storage/storage.c

    The growable byte buffer, the big-endian readers, and the two payloads the
    storage layer writes and reads back: the full state (checkpoint and export)
    and one journal operation. Writers run in the state of the allocator and
    the buffer; readers thread the offset, and an access outside the payload is
    [Stuck]; the code that rebuilds the service's
    state runs in [image], the store, the registry and the allocator. *)

From stdpp Require Import base numbers strings option gmap list.
From S2P Require Import Prelude Config Crypto Cache Security.
Local Open Scope Z_scope.

(** ** The growable buffer *)

Definition MP_CACHE_STORAGE_BUFFER_INITIAL_CAPACITY : Z := 256.
Definition MP_CACHE_STORAGE_STATE_VERSION : Z := 2.
Definition MP_CACHE_STORAGE_JOURNAL_VERSION : Z := 2.

Record mp_cache_buffer_t := Buffer {
  buf_bytes : bytes;
  buf_capacity : Z;
}.
Definition empty_buffer : mp_cache_buffer_t := Buffer [] 0.

(** Code that allocates and appends to one buffer. *)
Abbreviation W := (STE (heap * mp_cache_buffer_t)).

(** The doubling loop. Each round doubles a capacity of at least 1, so 64
    rounds reach any [size_t]. *)
Fixpoint grow_loop (fuel : nat) (next_capacity needed : Z) : Z :=
  match fuel with
  | O => next_capacity
  | S fuel' =>
    if decide (next_capacity < needed) then
      if decide (SIZE_MAX / 2 < next_capacity) then needed
      else grow_loop fuel' (u64 (next_capacity * 2)) needed
    else next_capacity
  end.

Definition mp_cache_buffer_reserve (additional_length : Z) : W unit := fun hb =>
  let buffer := hb.2 in
  if decide (SIZE_MAX - zlen (buf_bytes buffer) < additional_length) then (Fail EOVERFLOW, hb)
  else if decide (zlen (buf_bytes buffer) + additional_length ≤ buf_capacity buffer) then (Ret tt, hb) else
  let next_capacity :=
    grow_loop 64 (if decide (buf_capacity buffer = 0) then MP_CACHE_STORAGE_BUFFER_INITIAL_CAPACITY
                  else buf_capacity buffer) (zlen (buf_bytes buffer) + additional_length) in
  let '(ok, h') := alloc hb.1 in
  if (ok : bool) then (Ret tt, (h', Buffer (buf_bytes buffer) next_capacity))
  else (Fail ENOMEM, (h', buffer)).

(** [memcpy] to the end of the buffer; past the capacity it would be [Stuck]. *)
Definition buffer_store (l : bytes) (length : Z) : W unit := fun hb =>
  if decide (buf_capacity hb.2 < zlen (buf_bytes hb.2) + length) then (Stuck, hb)
  else (Ret tt, (hb.1, Buffer (buf_bytes hb.2 ++ l) (buf_capacity hb.2))).

Definition mp_cache_buffer_append (data : option bytes) (length : Z) : W unit :=
  match data with
  | None => if decide (0 < length) then fail EINVAL else mp_cache_buffer_reserve length
  | Some l =>
    _ ← mp_cache_buffer_reserve length;
    buffer_store l length
  end.

(** Appending a whole list of bytes. *)
Definition buffer_append (l : bytes) : W unit := mp_cache_buffer_append (Some l) (zlen l).

Definition mp_cache_buffer_append_u32 (value : Z) : W unit :=
  buffer_append [u8 (value ≫ 24); u8 (value ≫ 16); u8 (value ≫ 8); u8 value].

(** The loop stores byte [index] of the value at position [7 - index]. *)
Definition mp_cache_buffer_append_u64 (value : Z) : W unit :=
  buffer_append
    (foldl (fun acc index => <[(8 - index - 1)%nat := u8 (value ≫ (Z.of_nat index * 8))]> acc)
       (zeros 8) (seq 0 8)).

(** ** The bounded readers *)

(** [bytes\[index\]] and the span [bytes + offset] of [n] bytes the callers
    copy from: an access outside the payload is [Stuck]. *)
Definition read_byte (payload : bytes) (index : nat) : outcome Z :=
  match payload !! index with Some b => Ret b | None => Stuck end.
Definition read_span (payload : bytes) (offset n : nat) : outcome bytes :=
  if decide (offset + n ≤ length payload)%nat then Ret (take n (drop offset payload)) else Stuck.

(** A reader returns the value and the new offset. *)
Definition mp_cache_consume_u32 (payload : bytes) (offset : nat) : outcome (Z * nat) :=
  if decide ((length payload < offset)%nat ∨ (length payload - offset < 4)%nat) then Fail EINVAL else
  b0 ← read_byte payload offset;
  b1 ← read_byte payload (offset + 1);
  b2 ← read_byte payload (offset + 2);
  b3 ← read_byte payload (offset + 3);
  mret (Z.lor (Z.lor (Z.lor (u32 (b0 ≪ 24)) (u32 (b1 ≪ 16))) (u32 (b2 ≪ 8))) b3, (offset + 4)%nat).

Definition mp_cache_consume_u64 (payload : bytes) (offset : nat) : outcome (Z * nat) :=
  if decide ((length payload < offset)%nat ∨ (length payload - offset < 8)%nat) then Fail EINVAL else
  value ← foldl (fun (acc : outcome Z) index =>
      value ← acc; b ← read_byte payload (offset + index)%nat; mret (Z.lor (u64 (value ≪ 8)) b))
    (Ret 0) (seq 0 8);
  mret (value, (offset + 8)%nat).

Definition mp_cache_consume_bytes (payload : bytes) (offset value_length : nat) : outcome (bytes * nat) :=
  if decide ((length payload < offset)%nat ∨ (length payload - offset < value_length)%nat) then Fail EINVAL else
  value ← read_span payload offset value_length;
  mret (value, (offset + value_length)%nat).

(** [memcpy] of [l] and a terminating NUL into an array of [cap] bytes, read
    back as a C string. *)
Definition copy_c_string (cap : nat) (l : bytes) : outcome bytes :=
  if decide (length l < cap)%nat then Ret (c_string l) else Stuck.

(** ** Writing the state *)

(** The visitor that counts the entries still alive. *)
Definition mp_cache_count_active_entry (now : Z) (e : mp_cache_entry) (count : Z) : Z * Z :=
  (0, if decide (now < expires_at_utc_seconds e) then u64 (count + 1) else count).

Definition serialize_entry (e : mp_cache_entry) : W unit :=
  _ ← mp_cache_buffer_append_u32 (u32 (zlen (entry_key e)));
  _ ← mp_cache_buffer_append_u32 (u32 (zlen (entry_value e)));
  _ ← mp_cache_buffer_append_u64 (u64 (expires_at_utc_seconds e));
  _ ← buffer_append (entry_key e);
  buffer_append (entry_value e).

(** A visitor whose context is the writer's state with the outcome so far. *)
Definition visit_writer {A} (f : A → W unit) (x : A)
    (c : outcome unit * (heap * mp_cache_buffer_t)) : Z * (outcome unit * (heap * mp_cache_buffer_t)) :=
  let '(o, hb) := f x c.2 in
  (match o with Ret _ => 0 | _ => -1 end, (o, hb)).

Definition mp_cache_serialize_active_entry (now : Z) (e : mp_cache_entry) : W unit :=
  if decide (expires_at_utc_seconds e ≤ now) then mret tt else serialize_entry e.

Definition mp_cache_serialize_client_record (r : mp_cache_client_record_t) : W unit :=
  _ ← mp_cache_buffer_append_u32 (u32 (zlen (client_id r)));
  _ ← mp_cache_buffer_append_u32 (u32 (role r));
  _ ← mp_cache_buffer_append_u32 (if token_active r then 1 else 0);
  _ ← buffer_append (token_hash r);
  buffer_append (client_id r).

(** The two walks; a visitor that fails stops the walk. *)
Definition walk_entries (store : mp_cache_store_t) (now : Z) : W unit := fun hb =>
  (mp_cache_store_for_each store (visit_writer (mp_cache_serialize_active_entry now)) (Ret tt, hb)).2.
Definition walk_clients (security : mp_cache_security_t) : W unit := fun hb =>
  (mp_cache_security_for_each_client security (visit_writer mp_cache_serialize_client_record)
     (Ret tt, hb)).2.

Definition mp_cache_storage_serialize_state (store : mp_cache_store_t) (security : mp_cache_security_t)
    (now : Z) : W unit :=
  let '(_, entry_count) := mp_cache_store_for_each store (mp_cache_count_active_entry now) 0 in
  let client_count := mp_cache_security_client_count security in
  _ ← mp_cache_buffer_append_u32 MP_CACHE_STORAGE_STATE_VERSION;
  _ ← mp_cache_buffer_append_u64 (u64 now);
  _ ← mp_cache_buffer_append_u32 (u32 entry_count);
  _ ← walk_entries store now;
  _ ← mp_cache_buffer_append_u32 (u32 client_count);
  walk_clients security.

(** ** Rebuilding the state *)

Record image := Image {
  img_store : mp_cache_store_t;
  img_security : mp_cache_security_t;
  img_heap : heap;
}.

Definition img_restore (key value : bytes) (exp : Z) : STE image mp_cache_store_status_t := fun l =>
  let '(status, store', h') :=
    mp_cache_store_restore_entry (img_store l) (Some key) (Some value) exp (img_heap l) in
  (Ret status, Image store' (img_security l) h').

Definition img_delete (key : bytes) : STE image unit := fun l =>
  let '(_, store') := mp_cache_store_delete (img_store l) (Some key) in
  (Ret tt, Image store' (img_security l) (img_heap l)).

Definition img_clear : STE image unit := fun l =>
  (Ret tt, Image (mp_cache_store_clear (img_store l)) (img_security l) (img_heap l)).

Definition img_import (id : bytes) (new_role : Z) (hash : bytes) (active : bool)
    : STE image mp_cache_security_status_t := fun l =>
  let '(status, security', h') :=
    mp_cache_security_import_client_hash (img_security l) (Some id) new_role (Some hash) active (img_heap l) in
  (Ret status, Image (img_store l) security' h').

(** Restoring an entry that is still alive; an expired one is skipped. *)
Definition restore_if_live (now : Z) (key value : bytes) (expires_at : Z) : STE image unit :=
  if decide (now < i64 expires_at) then
    status ← img_restore key value (i64 expires_at);
    if decide (status = MP_CACHE_STORE_STATUS_OK) then mret tt else fail EINVAL
  else mret tt.

(** Key length, value length, expiry, key and value of one entry. *)
Definition read_entry (payload : bytes) (offset : nat) : outcome (bytes * bytes * Z * nat) :=
  '(key_length, offset) ← mp_cache_consume_u32 payload offset;
  '(value_length, offset) ← mp_cache_consume_u32 payload offset;
  '(expires_at, offset) ← mp_cache_consume_u64 payload offset;
  '(key, offset) ← mp_cache_consume_bytes payload offset (Z.to_nat key_length);
  '(value, offset) ← mp_cache_consume_bytes payload offset (Z.to_nat value_length);
  mret (key, value, expires_at, offset).

(** Id length, role, activity flag (version 2 on), hash and id of one client.
    The id is copied into a 64-byte array and read back as a C string. *)
Definition read_client (version : Z) (payload : bytes) (offset : nat)
    : outcome (bytes * Z * bool * bytes * nat) :=
  '(id_length, offset) ← mp_cache_consume_u32 payload offset;
  '(role_value, offset) ← mp_cache_consume_u32 payload offset;
  '(active, offset) ← (if decide (2 ≤ version) then mp_cache_consume_u32 payload offset else Ret (1, offset));
  '(hash, offset) ← mp_cache_consume_bytes payload offset MP_CACHE_TOKEN_HASH_SIZE;
  if decide (id_length = 0 ∨ Z.of_nat MP_CACHE_CLIENT_ID_CAP ≤ id_length) then Fail EINVAL else
  '(id, offset) ← mp_cache_consume_bytes payload offset (Z.to_nat id_length);
  id ← copy_c_string MP_CACHE_CLIENT_ID_CAP id;
  mret (id, role_value, bool_decide (active ≠ 0), hash, offset).

Definition import_client (id : bytes) (role_value : Z) (active : bool) (hash : bytes) : STE image unit :=
  status ← img_import id role_value hash active;
  if decide (status = MP_CACHE_SECURITY_STATUS_OK) then mret tt else fail EINVAL.

(** The two loops. An iteration reads at least 16 bytes or fails, so one unit
    of fuel per payload byte is enough; running out is [Stuck]. *)
Fixpoint deserialize_entries (fuel : nat) (payload : bytes) (now count : Z) (offset : nat) : STE image nat :=
  if decide (count ≤ 0) then mret offset else
  match fuel with
  | O => lift Stuck
  | S fuel' =>
    '(key, value, expires_at, offset) ← lift (read_entry payload offset);
    _ ← restore_if_live now key value expires_at;
    deserialize_entries fuel' payload now (count - 1) offset
  end.

Fixpoint deserialize_clients (fuel : nat) (payload : bytes) (version count : Z) (offset : nat) : STE image nat :=
  if decide (count ≤ 0) then mret offset else
  match fuel with
  | O => lift Stuck
  | S fuel' =>
    '(id, role_value, active, hash, offset) ← lift (read_client version payload offset);
    _ ← import_client id role_value active hash;
    deserialize_clients fuel' payload version (count - 1) offset
  end.

Definition mp_cache_storage_deserialize_state (payload : bytes) (now : Z) : STE image unit :=
  '(version, offset) ← lift (mp_cache_consume_u32 payload 0);
  '(_, offset) ← lift (mp_cache_consume_u64 payload offset);
  if decide (version = 0 ∨ MP_CACHE_STORAGE_STATE_VERSION < version) then fail EINVAL else
  '(entry_count, offset) ← lift (mp_cache_consume_u32 payload offset);
  offset ← deserialize_entries (length payload) payload now entry_count offset;
  '(client_count, offset) ← lift (mp_cache_consume_u32 payload offset);
  offset ← deserialize_clients (length payload) payload version client_count offset;
  if decide (offset = length payload) then mret tt else fail EOTHER.

(** ** Journal operations *)

Inductive mp_cache_journal_op_t :=
| MP_CACHE_JOURNAL_OP_SET
| MP_CACHE_JOURNAL_OP_DELETE
| MP_CACHE_JOURNAL_OP_CLIENT_UPSERT
| MP_CACHE_JOURNAL_OP_PURGE_ALL.

Definition journal_op_value (op : mp_cache_journal_op_t) : Z :=
  match op with
  | MP_CACHE_JOURNAL_OP_SET => 1
  | MP_CACHE_JOURNAL_OP_DELETE => 2
  | MP_CACHE_JOURNAL_OP_CLIENT_UPSERT => 3
  | MP_CACHE_JOURNAL_OP_PURGE_ALL => 4
  end.

Definition mp_cache_storage_build_journal_payload (operation : mp_cache_journal_op_t) (now : Z)
    (subject value : bytes) (extra_value extra_flag : Z) : W unit :=
  _ ← mp_cache_buffer_append_u32 MP_CACHE_STORAGE_JOURNAL_VERSION;
  _ ← mp_cache_buffer_append_u32 (journal_op_value operation);
  _ ← mp_cache_buffer_append_u64 (u64 now);
  match operation with
  | MP_CACHE_JOURNAL_OP_SET =>
    _ ← mp_cache_buffer_append_u32 (u32 (zlen subject));
    _ ← mp_cache_buffer_append_u32 (u32 (zlen value));
    _ ← mp_cache_buffer_append_u64 extra_value;
    _ ← buffer_append subject;
    buffer_append value
  | MP_CACHE_JOURNAL_OP_DELETE =>
    _ ← mp_cache_buffer_append_u32 (u32 (zlen subject));
    buffer_append subject
  | MP_CACHE_JOURNAL_OP_CLIENT_UPSERT =>
    _ ← mp_cache_buffer_append_u32 (u32 (zlen subject));
    _ ← mp_cache_buffer_append_u32 (u32 extra_value);
    _ ← mp_cache_buffer_append_u32 (u32 extra_flag);
    _ ← buffer_append (take MP_CACHE_TOKEN_HASH_SIZE value);
    buffer_append subject
  | MP_CACHE_JOURNAL_OP_PURGE_ALL => mret tt
  end.

(** [return offset == payload_length ? 0 : -1] *)
Definition finish (payload : bytes) (offset : nat) : STE image unit :=
  if decide (offset = length payload) then mret tt else fail EOTHER.

Definition mp_cache_storage_apply_journal_payload (payload : bytes) (now : Z) : STE image unit :=
  '(version, offset) ← lift (mp_cache_consume_u32 payload 0);
  '(operation, offset) ← lift (mp_cache_consume_u32 payload offset);
  '(_, offset) ← lift (mp_cache_consume_u64 payload offset);
  if decide (version = 0 ∨ MP_CACHE_STORAGE_JOURNAL_VERSION < version) then fail EINVAL
  else if decide (operation = 1) then
    '(key, value, expires_at, offset) ← lift (read_entry payload offset);
    _ ← restore_if_live now key value expires_at;
    finish payload offset
  else if decide (operation = 2) then
    '(key_length, offset) ← lift (mp_cache_consume_u32 payload offset);
    '(key, offset) ← lift (mp_cache_consume_bytes payload offset (Z.to_nat key_length));
    _ ← img_delete key;
    finish payload offset
  else if decide (operation = 3) then
    '(id, role_value, active, hash, offset) ← lift (read_client version payload offset);
    _ ← import_client id role_value active hash;
    finish payload offset
  else if decide (operation = 4) then
    _ ← img_clear;
    finish payload offset
  else fail EINVAL.

(** ** The buffer never overruns *)

Definition buffer_ok (b : mp_cache_buffer_t) : Prop := zlen (buf_bytes b) ≤ buf_capacity b ≤ SIZE_MAX.

Lemma grow_loop_enough fuel c needed :
  1 ≤ c → needed ≤ c * 2 ^ Z.of_nat fuel → needed ≤ SIZE_MAX → c ≤ SIZE_MAX →
  needed ≤ grow_loop fuel c needed ≤ SIZE_MAX.
Proof.
  revert c. induction fuel as [|fuel IH]; intros c Hc Hn Hmax Hcmax; cbn [grow_loop].
  { rewrite Z.mul_1_r in Hn. lia. }
  case_decide; [|lia]. case_decide as Hhalf; [lia|].
  rewrite Nat2Z.inj_succ, Z.pow_succ_r in Hn by lia.
  assert (c * 2 ≤ SIZE_MAX) by (unfold SIZE_MAX in *; zlia).
  rewrite u64_small by (unfold SIZE_MAX in *; lia). apply IH; lia.
Qed.

Lemma reserve_spec n h b :
  buffer_ok b → 0 ≤ n →
  match mp_cache_buffer_reserve n (h, b) with
  | (Ret _, (h', b')) => buf_bytes b' = buf_bytes b ∧ buffer_ok b' ∧
      zlen (buf_bytes b) + n ≤ buf_capacity b' ∧ (heap_ok h → heap_ok h')
  | (Fail _, _) => heap_ok h → SIZE_MAX < zlen (buf_bytes b) + n
  | (Stuck, _) => False
  end.
Proof.
  intros [Hl Hc] Hn. unfold mp_cache_buffer_reserve. cbn [fst snd].
  pose proof (zlen_nonneg (buf_bytes b)).
  case_decide as Ho; [intros _; lia|]. case_decide as Hfit; [done|].
  set (start := if decide (buf_capacity b = 0) then MP_CACHE_STORAGE_BUFFER_INITIAL_CAPACITY else buf_capacity b).
  assert (1 ≤ start ≤ SIZE_MAX).
  { unfold start, MP_CACHE_STORAGE_BUFFER_INITIAL_CAPACITY, SIZE_MAX in *. case_decide; lia. }
  destruct (grow_loop_enough 64 start (zlen (buf_bytes b) + n)) as [Hg1 Hg2]; try lia.
  { change (Z.of_nat 64) with 64. unfold SIZE_MAX in *. nia. }
  destruct (alloc h) as [ok h'] eqn:Ha. destruct ok.
  - split; [done|]. split; [split; cbn [buf_bytes buf_capacity]; lia|].
    split; [cbn [buf_capacity]; lia|].
    intros Hh. by destruct (alloc_heap_ok _ _ _ Ha Hh).
  - intros Hh. by destruct (alloc_heap_ok _ _ _ Ha Hh).
Qed.

(** [m] appends exactly [l]: it never overruns the buffer, and it fails only
    when memory runs out or the length would pass [SIZE_MAX]. *)
Definition writes (m : W unit) (l : bytes) : Prop := ∀ h b, buffer_ok b →
  match m (h, b) with
  | (Ret _, (h', b')) => buf_bytes b' = buf_bytes b ++ l ∧ buffer_ok b' ∧ (heap_ok h → heap_ok h')
  | (Fail _, _) => heap_ok h → SIZE_MAX < zlen (buf_bytes b) + zlen l
  | (Stuck, _) => False
  end.

Lemma writes_ret : writes (mret tt) [].
Proof. intros h b Hb. cbn. by rewrite app_nil_r. Qed.

Lemma writes_append l : writes (buffer_append l) l.
Proof.
  intros h b Hb. unfold buffer_append, mp_cache_buffer_append, mbind, STE_bind.
  pose proof (reserve_spec (zlen l) h b Hb (zlen_nonneg l)) as Hr.
  destruct (mp_cache_buffer_reserve (zlen l) (h, b)) as [[u|e|] [h' b']]; [|done|done].
  destruct Hr as (Hbytes & [? ?] & Hroom & Hh). unfold buffer_store. cbn [fst snd].
  rewrite Hbytes. rewrite decide_False by lia. split; [done|]. split; [|done].
  split; cbn [buf_bytes buf_capacity]; len_simpl; lia.
Qed.

Lemma writes_bind m1 m2 l1 l2 : writes m1 l1 → writes m2 l2 → writes (_ ← m1; m2) (l1 ++ l2).
Proof.
  intros H1 H2 h b Hb. unfold mbind, STE_bind. specialize (H1 h b Hb).
  destruct (m1 (h, b)) as [[u|e|] [h1 b1]]; [|intros Hh; specialize (H1 Hh); len_simpl; pose proof (zlen_nonneg l2); lia|done].
  destruct H1 as (Hb1 & Hok1 & Hh1). specialize (H2 h1 b1 Hok1).
  destruct (m2 (h1, b1)) as [[u2|e|] [h2 b2]]; [|intros Hh; specialize (H2 (Hh1 Hh)); rewrite Hb1 in H2; len_simpl; lia|done].
  destruct H2 as (Hb2 & Hok2 & Hh2). rewrite Hb2, Hb1, app_assoc. auto.
Qed.
#[export] Hint Resolve writes_ret writes_append writes_bind : mpc.

Lemma writes_u32 v : writes (mp_cache_buffer_append_u32 v) (be_bytes 4 v).
Proof. apply (writes_append [u8 (v ≫ 24); u8 (v ≫ 16); u8 (v ≫ 8); u8 v]). Qed.

Lemma writes_u64 v : writes (mp_cache_buffer_append_u64 v) (be_bytes 8 v).
Proof. apply writes_append. Qed.
#[export] Hint Resolve writes_u32 writes_u64 : mpc.

(** Follows a straight-line writer. *)
Ltac write_step :=
  lazymatch goal with
  | |- writes (mp_cache_buffer_append_u32 _) _ => apply writes_u32
  | |- writes (mp_cache_buffer_append_u64 _) _ => apply writes_u64
  | |- writes (buffer_append _) _ => apply writes_append
  | |- writes (mret tt) _ => apply writes_ret
  end.
Ltac write_steps :=
  repeat lazymatch goal with |- writes (mbind _ _) _ => apply writes_bind; [write_step|] end;
  try write_step.

(** ** The encodings *)

Definition enc_entry (e : mp_cache_entry) : bytes :=
  be_bytes 4 (zlen (entry_key e)) ++ be_bytes 4 (zlen (entry_value e)) ++
  be_bytes 8 (expires_at_utc_seconds e) ++ entry_key e ++ entry_value e.

Definition enc_client (r : mp_cache_client_record_t) : bytes :=
  be_bytes 4 (zlen (client_id r)) ++ be_bytes 4 (role r) ++
  be_bytes 4 (if token_active r then 1 else 0) ++ token_hash r ++ client_id r.

Definition enc_state (es : list mp_cache_entry) (rs : list mp_cache_client_record_t) (now : Z) : bytes :=
  be_bytes 4 2 ++ be_bytes 8 now ++ be_bytes 4 (zlen es) ++ mjoin (enc_entry <$> es) ++
  be_bytes 4 (zlen rs) ++ mjoin (enc_client <$> rs).

Lemma be_bytes_mod n k v :
  8 * Z.of_nat n ≤ k → be_bytes n (v `mod` 2 ^ k) = be_bytes n v.
Proof.
  induction n as [|n IH]; intros Hk; [done|]. rewrite !be_bytes_S, IH by lia. f_equal.
  unfold u8. rewrite !Z.shiftr_div_pow2 by lia.
  apply Z.bits_inj'. intros i Hi. rewrite <-!Z.shiftr_div_pow2 by lia.
  destruct (decide (i < 8)).
  - rewrite !Z.mod_pow2_bits_low, !Z.shiftr_spec by lia. rewrite Z.mod_pow2_bits_low by lia. done.
  - by rewrite !Z.mod_pow2_bits_high by lia.
Qed.

Lemma be_bytes_u32 v : be_bytes 4 (u32 v) = be_bytes 4 v.
Proof. apply be_bytes_mod. lia. Qed.

Lemma writes_entry e : writes (serialize_entry e) (enc_entry e).
Proof.
  unfold serialize_entry, enc_entry.
  rewrite <-(be_bytes_u32 (zlen (entry_key e))), <-(be_bytes_u32 (zlen (entry_value e))),
    <-(be_bytes_u64 (expires_at_utc_seconds e)). write_steps.
Qed.

Lemma writes_client r : writes (mp_cache_serialize_client_record r) (enc_client r).
Proof.
  unfold mp_cache_serialize_client_record, enc_client.
  rewrite <-(be_bytes_u32 (zlen (client_id r))), <-(be_bytes_u32 (role r)). write_steps.
Qed.

Lemma writes_walk_entries (f : mp_cache_entry → W unit) (enc : mp_cache_entry → bytes) es o :
  (∀ e, writes (f e) (enc e)) →
  writes (fun hb => (for_each_entries (visit_writer f) es (Ret o, hb)).2) (mjoin (enc <$> es)).
Proof.
  intros Hf. revert o. induction es as [|e es IH]; intros o; [destruct o; apply writes_ret|].
  intros h b Hb. cbn [for_each_entries]. unfold visit_writer at 1. cbn [snd].
  pose proof (writes_bind (f e) _ (enc e) _ (Hf e) (IH tt) h b Hb) as Hw.
  unfold mbind, STE_bind in Hw. destruct (f e (h, b)) as [[[]|er|] hb'] eqn:Hfe; [|exact Hw|exact Hw].
  exact Hw.
Qed.

Lemma writes_walk_records (f : mp_cache_client_record_t → W unit) (enc : mp_cache_client_record_t → bytes) rs o :
  (∀ r, writes (f r) (enc r)) →
  writes (fun hb => (for_each_records (visit_writer f) rs (Ret o, hb)).2) (mjoin (enc <$> rs)).
Proof.
  intros Hf. revert o. induction rs as [|r rs IH]; intros o; [destruct o; apply writes_ret|].
  intros h b Hb. cbn [for_each_records]. unfold visit_writer at 1. cbn [snd].
  pose proof (writes_bind (f r) _ (enc r) _ (Hf r) (IH tt) h b Hb) as Hw.
  unfold mbind, STE_bind in Hw. destruct (f r (h, b)) as [[[]|er|] hb'] eqn:Hfe; [|exact Hw|exact Hw].
  exact Hw.
Qed.

Lemma mjoin_fmap_filter {A} (P : A → Prop) `{∀ x, Decision (P x)} (g : A → bytes) l :
  mjoin ((fun x => if decide (P x) then g x else []) <$> l) = mjoin (g <$> filter P l).
Proof.
  induction l as [|x l IH]; [done|]. rewrite filter_cons, fmap_cons, mjoin_cons, IH.
  case_decide; [|done]. by rewrite fmap_cons, mjoin_cons.
Qed.

Lemma count_active_spec now es c :
  0 ≤ c → c + zlen es < 2 ^ 64 →
  for_each_entries (mp_cache_count_active_entry now) es c = (0, c + zlen (filter (live now) es)).
Proof.
  revert c. induction es as [|e es IH]; intros c Hc Hlen; cbn [for_each_entries].
  { change (zlen (filter (live now) [])) with 0. by rewrite Z.add_0_r. }
  rewrite zlen_cons in Hlen. pose proof (zlen_nonneg es).
  unfold mp_cache_count_active_entry at 1. rewrite decide_True by done. rewrite filter_cons.
  change (now < expires_at_utc_seconds e) with (live now e).
  destruct (decide (live now e)).
  - rewrite u64_small, IH by lia. rewrite zlen_cons. tuple_eq.
  - apply IH; lia.
Qed.

(** What a checkpoint of the store and the registry holds. *)
Lemma writes_state store security now :
  store_wf store →
  writes (mp_cache_storage_serialize_state store security now)
    (enc_state (filter (live now) (entries store)) (records security) now).
Proof.
  intros Hwf. unfold mp_cache_storage_serialize_state, mp_cache_store_for_each. fold (entries store).
  pose proof (entry_count_bound _ Hwf) as Hc. rewrite (wf_count _ Hwf) in Hc.
  rewrite count_active_spec, Z.add_0_l by lia. cbv zeta.
  unfold enc_state. rewrite <-(be_bytes_u64 now).
  rewrite <-(be_bytes_u32 (zlen (filter (live now) (entries store)))), <-(be_bytes_u32 (zlen (records security))).
  do 3 (apply writes_bind; [auto with mpc|]).
  apply writes_bind; [|apply writes_bind; [apply writes_u32|]].
  - rewrite <-mjoin_fmap_filter. apply writes_walk_entries. intros e.
    unfold mp_cache_serialize_active_entry. fold (live now e).
    destruct (decide (live now e)) as [Hl|Hl]; unfold live in Hl.
    + rewrite decide_False by lia. apply writes_entry.
    + rewrite decide_True by lia. apply writes_ret.
  - apply writes_walk_records. intros r. apply writes_client.
Qed.

(** ** Reading back *)

Lemma lookup_total_middle (pre l post : bytes) i :
  (i < length l)%nat → (pre ++ l ++ post) !!! (length pre + i)%nat = l !!! i.
Proof.
  intros Hi. rewrite lookup_total_app_r by lia.
  rewrite lookup_total_app_l by lia. f_equal. lia.
Qed.

Lemma lor_bytes_be_value a b c d :
  is_byte a → is_byte b → is_byte c → is_byte d →
  Z.lor (Z.lor (Z.lor (u32 (a ≪ 24)) (u32 (b ≪ 16))) (u32 (c ≪ 8))) d = be_value [a; b; c; d].
Proof.
  intros Ha Hb Hc Hd. unfold is_byte in *.
  rewrite !Z.shiftl_mul_pow2 by lia. rewrite !u32_small by lia.
  rewrite <-!Z.shiftl_mul_pow2 by lia.
  replace (Z.lor (a ≪ 24) (b ≪ 16)) with (Z.lor (a ≪ 8) b ≪ 16).
  2:{ rewrite Z.shiftl_lor, Z.shiftl_shiftl by lia. done. }
  rewrite (lor_shiftl_add a b 8) by lia.
  replace (Z.lor ((a * 2 ^ 8 + b) ≪ 16) (c ≪ 8)) with (Z.lor ((a * 2 ^ 8 + b) ≪ 8) c ≪ 8).
  2:{ rewrite Z.shiftl_lor, Z.shiftl_shiftl by lia. done. }
  rewrite (lor_shiftl_add _ c 8) by lia. rewrite (lor_shiftl_add _ d 8) by lia.
  unfold be_value. cbn [foldl]. lia.
Qed.

(** The byte loop of the 64-bit reader is Horner's rule. *)
Lemma horner_u64 (l : bytes) acc :
  bytes_wf l → 0 ≤ acc → acc * 256 ^ zlen l + be_value l < 2 ^ 64 →
  foldl (fun value b => Z.lor (u64 (value ≪ 8)) b) acc l = acc * 256 ^ zlen l + be_value l.
Proof.
  intros Hl. revert acc. induction Hl as [|b l Hb Hl IH]; intros acc Hacc Hmax.
  { unfold be_value, zlen. cbn. lia. }
  pose proof (zlen_nonneg l). pose proof (be_value_bound l Hl) as Hv. unfold is_byte in Hb.
  assert (be_value (b :: l) = b * 256 ^ zlen l + be_value l) as Hbe.
  { change (b :: l) with ([b] ++ l). rewrite be_value_app. done. }
  rewrite Hbe, zlen_cons, Z.pow_add_r in * by lia. rewrite Z.pow_1_r in *.
  assert (1 ≤ 256 ^ zlen l) by (apply (Z.pow_le_mono_r 256 0); lia).
  assert (u64 (acc ≪ 8) = acc ≪ 8) as Hsh.
  { rewrite Z.shiftl_mul_pow2 by lia. apply u64_small. nia. }
  cbn [foldl]. rewrite Hsh, lor_shiftl_add by lia. change (2 ^ 8) with 256. rewrite IH; nia.
Qed.

Lemma foldl_lookup {A} (f : A → Z → A) (full l : bytes) off j a :
  (∀ i, (i < length l)%nat → full !!! (off + (j + i))%nat = l !!! i) →
  foldl (fun acc i => f acc (full !!! (off + i)%nat)) a (seq j (length l)) = foldl f a l.
Proof.
  revert j a. induction l as [|x l IH]; intros j a Hl; [done|]. cbn [length seq foldl].
  pose proof (Hl 0%nat ltac:(cbn; lia)) as H0. rewrite Nat.add_0_r in H0. rewrite H0.
  apply IH. intros i Hi. replace (S j + i)%nat with (j + S i)%nat by lia. apply Hl. cbn. lia.
Qed.

Lemma read_byte_in payload i : (i < length payload)%nat → read_byte payload i = Ret (payload !!! i).
Proof.
  intros Hi. unfold read_byte. destruct (lookup_lt_is_Some_2 payload i Hi) as [b Hb].
  by rewrite Hb, (list_lookup_total_correct _ _ _ Hb).
Qed.

Lemma read_span_in payload off n :
  (off + n ≤ length payload)%nat → read_span payload off n = Ret (take n (drop off payload)).
Proof. intros. unfold read_span. by rewrite decide_True. Qed.

(** Inside the payload the readers return the bytes; outside they refuse. *)
Lemma consume_u32_in payload off :
  (off + 4 ≤ length payload)%nat →
  mp_cache_consume_u32 payload off =
    Ret (Z.lor (Z.lor (Z.lor (u32 ((payload !!! (off + 0)%nat) ≪ 24)) (u32 ((payload !!! (off + 1)%nat) ≪ 16)))
           (u32 ((payload !!! (off + 2)%nat) ≪ 8))) (payload !!! (off + 3)%nat), (off + 4)%nat).
Proof.
  intros. unfold mp_cache_consume_u32. rewrite decide_False by lia.
  rewrite !read_byte_in by lia. by rewrite Nat.add_0_r.
Qed.

Lemma consume_u64_in payload off :
  (off + 8 ≤ length payload)%nat →
  mp_cache_consume_u64 payload off =
    Ret (foldl (fun value index => Z.lor (u64 (value ≪ 8)) (payload !!! (off + index)%nat)) 0 (seq 0 8),
         (off + 8)%nat).
Proof.
  intros. unfold mp_cache_consume_u64. rewrite decide_False by lia. cbn [seq foldl].
  rewrite !read_byte_in by lia. done.
Qed.

Lemma consume_bytes_in payload off n :
  (off + n ≤ length payload)%nat →
  mp_cache_consume_bytes payload off n = Ret (take n (drop off payload), (off + n)%nat).
Proof.
  intros. unfold mp_cache_consume_bytes. rewrite decide_False by lia. by rewrite read_span_in by lia.
Qed.

Section Readers.
Context (pre post : bytes).

Lemma consume_u32_app v :
  0 ≤ v < 2 ^ 32 →
  mp_cache_consume_u32 (pre ++ be_bytes 4 v ++ post) (length pre) = Ret (v, (length pre + 4)%nat).
Proof.
  intros Hv. rewrite consume_u32_in by (rewrite !length_app, length_be_bytes; lia). do 2 f_equal.
  rewrite !lookup_total_middle by (rewrite length_be_bytes; lia).
  assert (be_bytes 4 v = [be_bytes 4 v !!! 0%nat; be_bytes 4 v !!! 1%nat; be_bytes 4 v !!! 2%nat; be_bytes 4 v !!! 3%nat])
    as Heq by reflexivity.
  pose proof (be_bytes_wf 4 v) as Hwf. rewrite Heq in Hwf.
  unfold bytes_wf in Hwf. rewrite !Forall_cons in Hwf.
  rewrite lor_bytes_be_value by tauto. rewrite <-Heq, be_value_bytes.
  change (256 ^ Z.of_nat 4) with (2 ^ 32). by apply Z.mod_small.
Qed.

Lemma consume_u64_app v :
  mp_cache_consume_u64 (pre ++ be_bytes 8 v ++ post) (length pre) = Ret (u64 v, (length pre + 8)%nat).
Proof.
  rewrite consume_u64_in by (rewrite !length_app, length_be_bytes; lia). do 2 f_equal.
  pose proof (foldl_lookup (fun value b => Z.lor (u64 (value ≪ 8)) b) (pre ++ be_bytes 8 v ++ post)
    (be_bytes 8 v) (length pre) 0 0) as Hf.
  rewrite length_be_bytes in Hf. rewrite Hf by (intros; apply lookup_total_middle; by rewrite length_be_bytes).
  rewrite horner_u64; [rewrite be_value_bytes; done|auto with mpc|done|].
  rewrite be_value_bytes. apply u64_range.
Qed.

Lemma consume_bytes_app l :
  mp_cache_consume_bytes (pre ++ l ++ post) (length pre) (length l) = Ret (l, (length pre + length l)%nat).
Proof.
  rewrite consume_bytes_in by (rewrite !length_app; lia).
  by rewrite drop_app_length, take_app_length.
Qed.
End Readers.

(** The reader stands at [off] with [rest] still to come. *)
Definition at_off (payload : bytes) (off : nat) (rest : bytes) : Prop :=
  (off ≤ length payload)%nat ∧ drop off payload = rest.

Lemma at_off_split payload off rest :
  at_off payload off rest → ∃ pre, payload = pre ++ rest ∧ off = length pre.
Proof.
  intros [Hle <-]. exists (take off payload). rewrite take_drop, length_take. split; [done|lia].
Qed.

Lemma at_off_app pre rest : at_off (pre ++ rest) (length pre) rest.
Proof. split; [rewrite length_app; lia|by rewrite drop_app_length]. Qed.

Lemma at_off_step payload off l rest :
  at_off payload off (l ++ rest) → at_off payload (off + length l) rest.
Proof.
  intros (pre & -> & ->)%at_off_split. rewrite <-length_app, app_assoc. apply at_off_app.
Qed.

Lemma at_off_end payload off : at_off payload off [] → off = length payload.
Proof. intros (pre & -> & ->)%at_off_split. by rewrite app_nil_r. Qed.

Lemma consume_u32_at payload off v rest :
  0 ≤ v < 2 ^ 32 → at_off payload off (be_bytes 4 v ++ rest) →
  mp_cache_consume_u32 payload off = Ret (v, (off + 4)%nat) ∧ at_off payload (off + 4) rest.
Proof.
  intros Hv Hat. pose proof (at_off_step _ _ _ _ Hat) as Hat'. rewrite length_be_bytes in Hat'.
  split; [|done]. apply at_off_split in Hat as (pre & -> & ->). by apply consume_u32_app.
Qed.

Lemma consume_u64_at payload off v rest :
  at_off payload off (be_bytes 8 v ++ rest) →
  mp_cache_consume_u64 payload off = Ret (u64 v, (off + 8)%nat) ∧ at_off payload (off + 8) rest.
Proof.
  intros Hat. pose proof (at_off_step _ _ _ _ Hat) as Hat'. rewrite length_be_bytes in Hat'.
  split; [|done]. apply at_off_split in Hat as (pre & -> & ->). by apply consume_u64_app.
Qed.

Lemma consume_bytes_at payload off l rest n :
  n = length l → at_off payload off (l ++ rest) →
  mp_cache_consume_bytes payload off n = Ret (l, (off + n)%nat) ∧ at_off payload (off + n) rest.
Proof.
  intros -> Hat. pose proof (at_off_step _ _ _ _ Hat) as Hat'.
  split; [|done]. apply at_off_split in Hat as (pre & -> & ->). by apply consume_bytes_app.
Qed.

Definition entry_small (e : mp_cache_entry) : Prop :=
  zlen (entry_key e) < 2 ^ 32 ∧ zlen (entry_value e) < 2 ^ 32.

Lemma read_entry_at payload off e rest :
  entry_small e → at_off payload off (enc_entry e ++ rest) →
  read_entry payload off =
    Ret (entry_key e, entry_value e, u64 (expires_at_utc_seconds e), (off + length (enc_entry e))%nat) ∧
  at_off payload (off + length (enc_entry e)) rest.
Proof.
  intros [Hk Hv] Hat. pose proof (at_off_step _ _ _ _ Hat) as Hend. split; [|done].
  unfold enc_entry in Hat. rewrite <-!app_assoc in Hat. unfold read_entry.
  apply consume_u32_at in Hat as [-> Hat]; [|split; [apply zlen_nonneg|done]]. cbn [mbind outcome_bind].
  apply consume_u32_at in Hat as [-> Hat]; [|split; [apply zlen_nonneg|done]]. cbn [mbind outcome_bind].
  apply consume_u64_at in Hat as [-> Hat]. cbn [mbind outcome_bind].
  apply (consume_bytes_at _ _ _ _ (Z.to_nat (zlen (entry_key e)))) in Hat as [-> Hat]; [|unfold zlen; lia].
  cbn [mbind outcome_bind].
  apply (consume_bytes_at _ _ _ _ (Z.to_nat (zlen (entry_value e)))) in Hat as [-> Hat]; [|unfold zlen; lia].
  cbn [mbind outcome_bind]. unfold mret, outcome_ret. do 2 f_equal.
  unfold enc_entry. rewrite !length_app, !length_be_bytes. unfold zlen. lia.
Qed.

Lemma c_string_valid id : mp_cache_client_id_is_valid (Some id) = true → c_string id = id.
Proof.
  cbn. case_decide; [done|]. clear. induction id as [|c id IH]; [done|]. cbn.
  intros [Hc Hid]%andb_true_iff. case_decide; [by subst|]. by rewrite IH.
Qed.

Lemma read_client_at payload off r rest :
  record_ok r → at_off payload off (enc_client r ++ rest) →
  read_client 2 payload off =
    Ret (client_id r, role r, token_active r, token_hash r, (off + length (enc_client r))%nat) ∧
  at_off payload (off + length (enc_client r)) rest.
Proof.
  intros [Hid Hrole [Hlen _] _] Hat. pose proof (at_off_step _ _ _ _ Hat) as Hend. split; [|done].
  pose proof (valid_id_length _ Hid) as Hidl. unfold MP_CACHE_ROLE_NONE in Hrole.
  unfold enc_client in Hat. rewrite <-!app_assoc in Hat. unfold read_client.
  apply consume_u32_at in Hat as [-> Hat]; [|unfold zlen; lia]. cbn [mbind outcome_bind].
  apply consume_u32_at in Hat as [-> Hat]; [|lia]. cbn [mbind outcome_bind].
  rewrite decide_True by lia.
  apply consume_u32_at in Hat as [-> Hat]; [|destruct (token_active r); lia]. cbn [mbind outcome_bind].
  apply (consume_bytes_at _ _ _ _ MP_CACHE_TOKEN_HASH_SIZE) in Hat as [-> Hat]; [|done].
  cbn [mbind outcome_bind]. rewrite decide_False by (unfold MP_CACHE_CLIENT_ID_CAP, zlen; lia).
  apply (consume_bytes_at _ _ _ _ (Z.to_nat (zlen (client_id r)))) in Hat as [-> Hat]; [|unfold zlen; lia].
  cbn [mbind outcome_bind]. unfold copy_c_string. rewrite decide_True by (unfold MP_CACHE_CLIENT_ID_CAP; lia).
  cbn [mbind outcome_bind]. rewrite c_string_valid by done. unfold mret, outcome_ret.
  f_equal. tuple_eq.
  - by destruct (token_active r).
  - unfold enc_client. rewrite !length_app, !length_be_bytes, Hlen. unfold zlen, MP_CACHE_TOKEN_HASH_SIZE. lia.
Qed.

(** ** The loops are folds over the decoded lists *)

Fixpoint restore_all (now : Z) (es : list mp_cache_entry) : STE image unit :=
  match es with
  | [] => mret tt
  | e :: es' =>
    _ ← restore_if_live now (entry_key e) (entry_value e) (u64 (expires_at_utc_seconds e));
    restore_all now es'
  end.

Fixpoint import_all (rs : list mp_cache_client_record_t) : STE image unit :=
  match rs with
  | [] => mret tt
  | r :: rs' =>
    _ ← import_client (client_id r) (role r) (token_active r) (token_hash r);
    import_all rs'
  end.

Lemma deserialize_entries_at fuel payload now es off rest l :
  Forall entry_small es → (length es ≤ fuel)%nat →
  at_off payload off (mjoin (enc_entry <$> es) ++ rest) →
  deserialize_entries fuel payload now (zlen es) off l =
    (_ ← restore_all now es; mret (off + length (mjoin (enc_entry <$> es)))%nat) l ∧
  at_off payload (off + length (mjoin (enc_entry <$> es))) rest.
Proof.
  intros Hs Hfuel Hat. pose proof (at_off_step _ _ _ _ Hat) as Hend. split; [clear Hend|done].
  revert fuel off l Hfuel Hat. induction Hs as [|e es He Hs IH]; intros fuel off l Hfuel Hat.
  { destruct fuel; cbn; by rewrite Nat.add_0_r. }
  destruct fuel as [|fuel]; [cbn in Hfuel; lia|]. cbn [length] in Hfuel.
  rewrite fmap_cons, mjoin_cons in Hat |- *. rewrite <-app_assoc in Hat.
  apply read_entry_at in Hat as [Hr Hat]; [|done].
  cbn [deserialize_entries restore_all]. rewrite zlen_cons. pose proof (zlen_nonneg es).
  rewrite decide_False by lia. replace (1 + zlen es - 1) with (zlen es) by lia.
  unfold mbind, STE_bind, lift. rewrite Hr.
  destruct (restore_if_live _ _ _ _ l) as [[[]|er|] l'] eqn:Hl; [|done|done].
  rewrite IH by (done || lia). unfold mbind, STE_bind. rewrite length_app, Nat.add_assoc. done.
Qed.

Lemma deserialize_clients_at fuel payload rs off rest l :
  Forall record_ok rs → (length rs ≤ fuel)%nat →
  at_off payload off (mjoin (enc_client <$> rs) ++ rest) →
  deserialize_clients fuel payload 2 (zlen rs) off l =
    (_ ← import_all rs; mret (off + length (mjoin (enc_client <$> rs)))%nat) l ∧
  at_off payload (off + length (mjoin (enc_client <$> rs))) rest.
Proof.
  intros Hs Hfuel Hat. pose proof (at_off_step _ _ _ _ Hat) as Hend. split; [clear Hend|done].
  revert fuel off l Hfuel Hat. induction Hs as [|r rs Hr Hs IH]; intros fuel off l Hfuel Hat.
  { destruct fuel; cbn; by rewrite Nat.add_0_r. }
  destruct fuel as [|fuel]; [cbn in Hfuel; lia|]. cbn [length] in Hfuel.
  rewrite fmap_cons, mjoin_cons in Hat |- *. rewrite <-app_assoc in Hat.
  apply read_client_at in Hat as [Hrc Hat]; [|done].
  cbn [deserialize_clients import_all]. rewrite zlen_cons. pose proof (zlen_nonneg rs).
  rewrite decide_False by lia. replace (1 + zlen rs - 1) with (zlen rs) by lia.
  unfold mbind, STE_bind, lift. rewrite Hrc.
  destruct (import_client _ _ _ _ l) as [[[]|er|] l'] eqn:Hl; [|done|done].
  rewrite IH by (done || lia). unfold mbind, STE_bind. rewrite length_app, Nat.add_assoc. done.
Qed.

Lemma length_mjoin_ge {A} (g : A → bytes) l :
  (∀ x, 1 ≤ length (g x))%nat → (length l ≤ length (mjoin (g <$> l)))%nat.
Proof.
  intros Hg. induction l as [|x l IH]; [done|]. rewrite fmap_cons, mjoin_cons, length_app.
  specialize (Hg x). cbn. lia.
Qed.

Lemma deserialize_enc_state es rs stamp now l :
  Forall entry_small es → Forall record_ok rs → zlen es < 2 ^ 32 → zlen rs < 2 ^ 32 →
  mp_cache_storage_deserialize_state (enc_state es rs stamp) now l =
    (_ ← restore_all now es; import_all rs) l.
Proof.
  intros Hes Hrs Hne Hnr. unfold mp_cache_storage_deserialize_state.
  assert (at_off (enc_state es rs stamp) 0 (enc_state es rs stamp)) as Hat
    by (split; [lia|by rewrite drop_0]).
  set (payload := enc_state es rs stamp) in *.
  assert (length es ≤ length payload ∧ length rs ≤ length payload)%nat as [Hfe Hfr].
  { pose proof (length_mjoin_ge enc_entry es) as He. pose proof (length_mjoin_ge enc_client rs) as Hr.
    unfold payload, enc_state. rewrite !length_app.
    assert (∀ e, 1 ≤ length (enc_entry e))%nat as H1
      by (intros; unfold enc_entry; rewrite length_app, length_be_bytes; lia).
    assert (∀ r, 1 ≤ length (enc_client r))%nat as H2
      by (intros; unfold enc_client; rewrite length_app, length_be_bytes; lia).
    specialize (He H1). specialize (Hr H2). lia. }
  unfold payload at 2, enc_state in Hat. clearbody payload.
  unfold mbind, STE_bind, lift.
  apply consume_u32_at in Hat as [-> Hat]; [|lia].
  apply consume_u64_at in Hat as [-> Hat]. unfold MP_CACHE_STORAGE_STATE_VERSION.
  rewrite decide_False by lia.
  apply consume_u32_at in Hat as [-> Hat]; [|split; [apply zlen_nonneg|done]].
  apply (deserialize_entries_at (length payload) _ now _ _ _ l Hes Hfe) in Hat as [-> Hat].
  unfold mbind, STE_bind. destruct (restore_all now es l) as [[[]|er|] l']; [|done|done]. cbn [mret STE_ret].
  apply consume_u32_at in Hat as [-> Hat]; [|split; [apply zlen_nonneg|done]].
  rewrite <-(app_nil_r (mjoin (enc_client <$> rs))) in Hat.
  apply (deserialize_clients_at (length payload) _ _ _ _ l' Hrs Hfr) in Hat as [-> Hat].
  unfold mbind, STE_bind. destruct (import_all rs l') as [[[]|er|] l'']; [|done|done]. cbn [mret STE_ret].
  apply at_off_end in Hat. by rewrite decide_True.
Qed.

(** ** What rebuilding does to the store and the registry *)

Record image_wf (l : image) : Prop := {
  iw_store : store_wf (img_store l);
  iw_security : security_wf (img_security l);
}.

Lemma write_entry_heap_ok store key value exp h status store' h' :
  mp_cache_store_write_entry store key value exp h = (status, store', h') → heap_ok h → heap_ok h'.
Proof.
  unfold mp_cache_store_write_entry, mret, ST_ret. destruct key as [key|]; [|intros; by simplify_eq].
  destruct value as [value|]; [|intros; by simplify_eq].
  repeat (case_decide; [intros; by simplify_eq|]). unfold mbind, ST_bind.
  destruct (alloc h) as [b1 h1] eqn:Ha1, (alloc h1) as [b2 h2] eqn:Ha2.
  intros Hw Hh. destruct (alloc_heap_ok _ _ _ Ha1 Hh) as [_ Hh1].
  destruct (alloc_heap_ok _ _ _ Ha2 Hh1) as [_ Hh2]. case_decide; [by simplify_eq|].
  destruct (slot_read _ _); [by simplify_eq|].
  destruct (alloc h2) as [b3 h3] eqn:Ha3. destruct (alloc_heap_ok _ _ _ Ha3 Hh2) as [_ Hh3].
  destruct b3; by simplify_eq.
Qed.

Lemma map_cost_insert m key value exp :
  m !! key = None → map_cost (<[key := (value, exp)]> m) = binding_cost (key, (value, exp)) + map_cost m.
Proof. intros Hk. unfold map_cost. by rewrite map_to_list_insert, fmap_cons, sumZ_cons. Qed.

(** One restored entry, in terms of the map. *)
Lemma restore_if_live_spec now key value exp l :
  store_wf (img_store l) → - 2 ^ 63 ≤ exp < 2 ^ 63 → 0 ≤ now →
  match restore_if_live now key value (u64 exp) l with
  | (Ret _, l') => store_wf (img_store l') ∧ same_limits (img_store l) (img_store l') ∧
      img_security l' = img_security l ∧ (heap_ok (img_heap l) → heap_ok (img_heap l')) ∧
      (now < exp → write_fits (img_store l) key value) ∧
      store_map (img_store l') = if decide (now < exp) then <[key := (value, exp)]> (store_map (img_store l))
                                 else store_map (img_store l)
  | (Fail _, l') => store_wf (img_store l') ∧ img_security l' = img_security l ∧ now < exp ∧
      (heap_ok (img_heap l) → ¬ write_fits (img_store l) key value)
  | (Stuck, _) => False
  end.
Proof.
  intros Hwf Hexp Hnow. unfold restore_if_live. rewrite i64_u64 by done.
  case_decide as Hl; [|by repeat split; try apply Hwf].
  unfold mbind, STE_bind, img_restore, mp_cache_store_restore_entry. rewrite decide_False by lia.
  destruct (write_entry_outcome (img_store l) key value exp (img_heap l) Hwf)
    as (status & store' & h' & Hw & Hwf' & Hlim & Ho).
  pose proof (write_entry_heap_ok _ _ _ _ _ _ _ _ Hw) as Hh. rewrite Hw.
  case_decide as Hs; cbn; [subst; destruct Ho; auto 7|].
  split; [done|]. split; [done|]. split; [done|]. destruct status; try done; tauto.
Qed.

(** Restoring live entries with new keys that fit adds them all. *)
Lemma restore_all_spec now es l :
  store_wf (img_store l) → heap_ok (img_heap l) → 0 ≤ now →
  Forall (fun e => live now e ∧ expires_at_utc_seconds e < 2 ^ 63 ∧
                   entry_sizes_ok (img_store l) e) es →
  NoDup (entry_key <$> es) → (∀ e, e ∈ es → store_map (img_store l) !! entry_key e = None) →
  map_cost (store_map (img_store l)) + sumZ (binding_cost ∘ entry_binding <$> es)
    ≤ store_memory_limit (img_store l) →
  ∃ l', restore_all now es l = (Ret tt, l') ∧ store_wf (img_store l') ∧
    same_limits (img_store l) (img_store l') ∧ img_security l' = img_security l ∧ heap_ok (img_heap l') ∧
    store_map (img_store l') = list_to_map (entry_binding <$> es) ∪ store_map (img_store l).
Proof.
  revert l. induction es as [|e es IH]; intros l Hwf Hh Hnow Hes Hnd Hnew Hcost.
  { exists l. repeat (split; [done|]). cbn. by rewrite (left_id_L ∅ (∪)). }
  rewrite fmap_cons in Hnd. apply NoDup_cons in Hnd as [Hk Hnd].
  apply Forall_cons in Hes as [(Hlive & Hexp & Hsz) Hes]. unfold live in Hlive.
  rewrite fmap_cons, sumZ_cons in Hcost. unfold compose in Hcost at 1.
  assert (store_map (img_store l) !! entry_key e = None) as Hnone by (apply Hnew; constructor).
  assert (write_fits (img_store l) (entry_key e) (entry_value e)) as Hfits.
  { destruct Hsz as [? ?]. split; [done|]. split; [done|]. rewrite map_cost_insert by done.
    pose proof (sum_costs_nonneg es). unfold binding_cost, entry_binding in *. cbn in *. lia. }
  pose proof (restore_if_live_spec now (entry_key e) (entry_value e) (expires_at_utc_seconds e) l Hwf
    ltac:(lia) Hnow) as Hr.
  cbn [restore_all]. unfold mbind, STE_bind.
  destruct (restore_if_live now (entry_key e) (entry_value e) (u64 (expires_at_utc_seconds e)) l)
    as [[[]|er|] l1]; [|by destruct Hr as (_ & _ & _ & Hn), (Hn Hh)|done].
  destruct Hr as (Hwf1 & Hlim & Hsec & Hh1 & _ & Hm). rewrite decide_True in Hm by lia.
  destruct (IH l1) as (l2 & Hrun & Hwf2 & Hlim2 & Hsec2 & Hh2 & Hm2); auto.
  - eapply Forall_impl; [exact Hes|]. intros e' (? & ? & Hs'). split; [done|]. split; [done|].
    unfold entry_sizes_ok. by destruct Hlim as (_ & _ & <- & <-).
  - intros e' He'. rewrite Hm, lookup_insert_ne; [apply Hnew; by constructor|].
    intros Heq. apply Hk. rewrite Heq. by apply list_elem_of_fmap_2.
  - destruct Hlim as (_ & <- & _). rewrite Hm, map_cost_insert by done.
    unfold entry_binding at 1 in Hcost. lia.
  - exists l2. split; [done|]. split; [done|]. split; [by etrans|]. split; [congruence|]. split; [done|].
    rewrite Hm2, Hm, fmap_cons. cbn [list_to_map foldr]. unfold entry_binding at 2. cbn.
    rewrite <-insert_union_l, <-insert_union_r; [done|]. by apply map_absent.
Qed.

Lemma import_client_spec r l :
  security_wf (img_security l) → record_ok r →
  match import_client (client_id r) (role r) (token_active r) (token_hash r) l with
  | (Ret _, l') => security_wf (img_security l') ∧ img_store l' = img_store l ∧
      (heap_ok (img_heap l) → heap_ok (img_heap l')) ∧
      bootstrap_admin_hash (img_security l') = bootstrap_admin_hash (img_security l) ∧
      bootstrap_admin_loaded (img_security l') = bootstrap_admin_loaded (img_security l) ∧
      records (img_security l') = upsert_record r (records (img_security l))
  | (Fail _, l') => security_wf (img_security l') ∧ img_store l' = img_store l ∧
      (heap_ok (img_heap l) → zlen (records (img_security l)) = MP_CACHE_MAX_CLIENTS)
  | (Stuck, _) => False
  end.
Proof.
  intros Hwf Hr. unfold import_client, mbind, STE_bind, img_import.
  destruct (import_outcome (img_security l) r (img_heap l) Hwf Hr)
    as (status & s' & h' & -> & Hwf' & Hh & Hb1 & Hb2 & Ho).
  case_decide as Hs; cbn; [by subst|]. split; [done|]. split; [done|].
  destruct status; try done; [|tauto]. by destruct Ho as [_ Hno].
Qed.

Lemma import_all_spec rs l :
  security_wf (img_security l) → heap_ok (img_heap l) → Forall record_ok rs →
  NoDup (client_id <$> records (img_security l) ++ rs) →
  zlen (records (img_security l)) + zlen rs ≤ MP_CACHE_MAX_CLIENTS →
  ∃ l', import_all rs l = (Ret tt, l') ∧ security_wf (img_security l') ∧
    img_store l' = img_store l ∧ heap_ok (img_heap l') ∧
    bootstrap_admin_hash (img_security l') = bootstrap_admin_hash (img_security l) ∧
    bootstrap_admin_loaded (img_security l') = bootstrap_admin_loaded (img_security l) ∧
    records (img_security l') = records (img_security l) ++ rs.
Proof.
  revert l. induction rs as [|r rs IH]; intros l Hwf Hh Hrs Hnd Hcount.
  { exists l. rewrite app_nil_r. by repeat (split; [done|]). }
  apply Forall_cons in Hrs as [Hr Hrs]. rewrite zlen_cons in Hcount. pose proof (zlen_nonneg rs).
  pose proof (import_client_spec r l Hwf Hr) as Hs. cbn [import_all]. unfold mbind, STE_bind.
  destruct (import_client _ _ _ _ l) as [[[]|er|] l1]; [|destruct Hs as (_ & _ & Hf); specialize (Hf Hh); lia|done].
  destruct Hs as (Hwf1 & Hst1 & Hh1 & Hb1 & Hb2 & Hrec).
  rewrite upsert_record_new in Hrec.
  2:{ rewrite fmap_app, fmap_cons in Hnd. apply NoDup_app in Hnd as (_ & Hd & _).
      intros Hin. eapply Hd; [exact Hin|]. constructor. }
  destruct (IH l1) as (l2 & Hrun & Hwf2 & Hst2 & Hh2 & Hb1' & Hb2' & Hrec2); auto.
  - by rewrite Hrec, <-app_assoc.
  - rewrite Hrec. len_simpl. lia.
  - exists l2. rewrite Hrec2, Hrec, <-app_assoc. repeat (split; [done || congruence|]). done.
Qed.

(** ** Journal operations as data *)

(** The operations the service journals, with the expiry or record they carry. *)
Inductive journal_entry :=
| JSet (key value : bytes) (exp : Z)
| JDelete (key : bytes)
| JClient (r : mp_cache_client_record_t)
| JPurgeAll.

(** The call of [build_journal_payload] that each append function makes. *)
Definition build_entry (stamp : Z) (j : journal_entry) : W unit :=
  match j with
  | JSet key value exp =>
    mp_cache_storage_build_journal_payload MP_CACHE_JOURNAL_OP_SET stamp key value (u64 exp) 0
  | JDelete key => mp_cache_storage_build_journal_payload MP_CACHE_JOURNAL_OP_DELETE stamp key [] 0 0
  | JClient r =>
    mp_cache_storage_build_journal_payload MP_CACHE_JOURNAL_OP_CLIENT_UPSERT stamp (client_id r)
      (token_hash r) (role r) (if token_active r then 1 else 0)
  | JPurgeAll => mp_cache_storage_build_journal_payload MP_CACHE_JOURNAL_OP_PURGE_ALL stamp [] [] 0 0
  end.

Definition enc_journal (stamp : Z) (j : journal_entry) : bytes :=
  be_bytes 4 2 ++ be_bytes 4 (match j with JSet _ _ _ => 1 | JDelete _ => 2 | JClient _ => 3 | JPurgeAll => 4 end) ++
  be_bytes 8 stamp ++
  match j with
  | JSet key value exp => enc_entry (Entry key value exp)
  | JDelete key => be_bytes 4 (zlen key) ++ key
  | JClient r => enc_client r
  | JPurgeAll => []
  end.

(** What an entry must satisfy to fit its encoding. *)
Definition journal_ok (j : journal_entry) : Prop :=
  match j with
  | JSet key value exp => zlen key < 2 ^ 32 ∧ zlen value < 2 ^ 32 ∧ - 2 ^ 63 ≤ exp < 2 ^ 63
  | JDelete key => zlen key < 2 ^ 32
  | JClient r => record_ok r
  | JPurgeAll => True
  end.

Lemma writes_journal stamp j : journal_ok j → writes (build_entry stamp j) (enc_journal stamp j).
Proof.
  intros Hj. unfold enc_journal. rewrite <-(be_bytes_u64 stamp).
  destruct j as [key value exp|key|r|]; cbn [build_entry]; unfold mp_cache_storage_build_journal_payload;
    do 3 (apply writes_bind; [write_step|]).
  - unfold enc_entry; cbn [entry_key entry_value expires_at_utc_seconds].
    rewrite <-(be_bytes_u32 (zlen key)), <-(be_bytes_u32 (zlen value)), <-(be_bytes_u64 exp).
    write_steps.
  - rewrite <-(be_bytes_u32 (zlen key)). write_steps.
  - destruct Hj as [_ _ [Hlen _] _]. unfold enc_client.
    rewrite <-(be_bytes_u32 (zlen (client_id r))), <-(be_bytes_u32 (role r)), <-(be_bytes_u32 (if token_active r then 1 else 0)).
    rewrite take_ge by lia. write_steps.
  - apply writes_ret.
Qed.

(** Replaying one journal operation. *)
Definition replay_entry (now : Z) (j : journal_entry) : STE image unit :=
  match j with
  | JSet key value exp => restore_if_live now key value (u64 exp)
  | JDelete key => img_delete key
  | JClient r => import_client (client_id r) (role r) (token_active r) (token_hash r)
  | JPurgeAll => img_clear
  end.

(** Applying the payload of an operation replays that operation. *)
Lemma apply_enc_journal stamp now j l :
  journal_ok j →
  mp_cache_storage_apply_journal_payload (enc_journal stamp j) now l = replay_entry now j l.
Proof.
  intros Hj. unfold mp_cache_storage_apply_journal_payload.
  assert (at_off (enc_journal stamp j) 0 (enc_journal stamp j ++ [])) as Hat
    by (rewrite app_nil_r; split; [lia|by rewrite drop_0]).
  set (payload := enc_journal stamp j) in *. unfold payload at 2, enc_journal in Hat. clearbody payload.
  rewrite <-!app_assoc in Hat. unfold mbind, STE_bind, lift.
  apply consume_u32_at in Hat as [-> Hat]; [|lia].
  apply consume_u32_at in Hat as [-> Hat]; [|destruct j; lia].
  apply consume_u64_at in Hat as [-> Hat]. unfold MP_CACHE_STORAGE_JOURNAL_VERSION.
  rewrite decide_False by lia. unfold finish.
  destruct j as [key value exp|key|r|]; cbn [replay_entry];
    rewrite ?(decide_False (P := _ = 1)), ?(decide_False (P := _ = 2)), ?(decide_False (P := _ = 3)) by lia;
    rewrite decide_True by done.
  - destruct Hj as (? & ? & ?).
    apply read_entry_at in Hat as [-> Hat]; [|by split]. cbn [entry_key entry_value expires_at_utc_seconds].
    destruct (restore_if_live _ _ _ _ l) as [[[]|er|] l']; [|done|done].
    by rewrite decide_True by by apply at_off_end.
  - rewrite <-app_assoc in Hat. apply consume_u32_at in Hat as [-> Hat]; [|split; [apply zlen_nonneg|done]].
    apply (consume_bytes_at _ _ _ _ (Z.to_nat (zlen key))) in Hat as [-> Hat]; [|unfold zlen; lia].
    destruct (img_delete key l) as [[[]|er|] l']; [|done|done].
    by rewrite decide_True by by apply at_off_end.
  - apply read_client_at in Hat as [-> Hat]; [|done].
    destruct (import_client _ _ _ _ l) as [[[]|er|] l']; [|done|done].
    by rewrite decide_True by by apply at_off_end.
  - unfold img_clear. by rewrite decide_True by by apply at_off_end.
Qed.

(** ** Arbitrary payloads *)

Section Untrusted.
Context (payload : bytes) (Hwf : bytes_wf payload).

Lemma payload_byte i : is_byte (payload !!! i).
Proof.
  destruct (payload !! i) as [b|] eqn:Hi.
  - rewrite (list_lookup_total_correct _ _ _ Hi). by eapply Forall_lookup_1.
  - rewrite list_lookup_total_alt, Hi. done.
Qed.

Lemma consume_u32_safe off :
  match mp_cache_consume_u32 payload off with
  | Ret (v, off') => 0 ≤ v < 2 ^ 32 ∧ off' = (off + 4)%nat ∧ (off' ≤ length payload)%nat
  | Fail _ => True
  | Stuck => False
  end.
Proof.
  destruct (decide (off + 4 ≤ length payload)%nat).
  2:{ unfold mp_cache_consume_u32. by rewrite decide_True by lia. }
  rewrite consume_u32_in by done. split; [|lia].
  rewrite lor_bytes_be_value by apply payload_byte.
  match goal with |- 0 ≤ be_value ?l < _ => pose proof (be_value_bound l) as Hb end.
  apply Hb. repeat constructor; apply payload_byte.
Qed.

Lemma consume_u64_safe off :
  match mp_cache_consume_u64 payload off with
  | Ret (v, off') => off' = (off + 8)%nat ∧ (off' ≤ length payload)%nat
  | Fail _ => True
  | Stuck => False
  end.
Proof.
  destruct (decide (off + 8 ≤ length payload)%nat).
  - rewrite consume_u64_in by done. lia.
  - unfold mp_cache_consume_u64. by rewrite decide_True by lia.
Qed.

Lemma consume_bytes_safe off n :
  match mp_cache_consume_bytes payload off n with
  | Ret (l, off') => length l = n ∧ bytes_wf l ∧ off' = (off + n)%nat ∧ (off' ≤ length payload)%nat
  | Fail _ => True
  | Stuck => False
  end.
Proof.
  destruct (decide (off + n ≤ length payload)%nat).
  2:{ unfold mp_cache_consume_bytes. by rewrite decide_True by lia. }
  rewrite consume_bytes_in, length_take, length_drop by done.
  split; [lia|]. split; [|lia]. by apply Forall_take, Forall_drop.
Qed.

(** Every read entry moves the offset forward inside the payload. *)
Lemma read_entry_safe off :
  match read_entry payload off with
  | Ret (_, _, _, off') => (off < off' ≤ length payload)%nat
  | Fail _ => True
  | Stuck => False
  end.
Proof.
  unfold read_entry, mbind, outcome_bind.
  pose proof (consume_u32_safe off) as H1. destruct (mp_cache_consume_u32 payload off) as [[v1 o1]|?|]; [|done|done].
  pose proof (consume_u32_safe o1) as H2. destruct (mp_cache_consume_u32 payload o1) as [[v2 o2]|?|]; [|done|done].
  pose proof (consume_u64_safe o2) as H3. destruct (mp_cache_consume_u64 payload o2) as [[v3 o3]|?|]; [|done|done].
  pose proof (consume_bytes_safe o3 (Z.to_nat v1)) as H4.
  destruct (mp_cache_consume_bytes payload o3 (Z.to_nat v1)) as [[k o4]|?|]; [|done|done].
  pose proof (consume_bytes_safe o4 (Z.to_nat v2)) as H5.
  destruct (mp_cache_consume_bytes payload o4 (Z.to_nat v2)) as [[w o5]|?|]; [|done|done].
  cbn. lia.
Qed.

Lemma read_client_safe version off :
  match read_client version payload off with
  | Ret (_, role_value, _, hash, off') =>
      role_range role_value ∧ hash_ok hash ∧ (off < off' ≤ length payload)%nat
  | Fail _ => True
  | Stuck => False
  end.
Proof.
  unfold read_client, mbind, outcome_bind.
  pose proof (consume_u32_safe off) as H1. destruct (mp_cache_consume_u32 payload off) as [[v1 o1]|?|]; [|done|done].
  pose proof (consume_u32_safe o1) as H2. destruct (mp_cache_consume_u32 payload o1) as [[v2 o2]|?|]; [|done|done].
  set (flag := if decide (2 ≤ version) then mp_cache_consume_u32 payload o2 else Ret (1, o2)).
  assert (match flag with Ret (_, o3) => (o2 ≤ o3 ≤ length payload)%nat | Fail _ => True | Stuck => False end) as H3.
  { unfold flag. case_decide; [|lia]. pose proof (consume_u32_safe o2).
    destruct (mp_cache_consume_u32 payload o2) as [[? ?]|?|]; [lia|done|done]. }
  destruct flag as [[v3 o3]|?|]; [|done|done].
  pose proof (consume_bytes_safe o3 MP_CACHE_TOKEN_HASH_SIZE) as H4.
  destruct (mp_cache_consume_bytes payload o3 MP_CACHE_TOKEN_HASH_SIZE) as [[k o4]|?|]; [|done|done].
  case_decide; [done|]. pose proof (consume_bytes_safe o4 (Z.to_nat v1)) as H5.
  destruct (mp_cache_consume_bytes payload o4 (Z.to_nat v1)) as [[w o5]|?|]; [|done|done].
  unfold copy_c_string. rewrite decide_True by (unfold MP_CACHE_CLIENT_ID_CAP in *; lia).
  cbn. destruct H4 as (? & ? & ? & ?). split; [unfold role_range; lia|]. split; [by split|].
  unfold MP_CACHE_TOKEN_HASH_SIZE in *. lia.
Qed.

Lemma restore_if_live_keeps now key value exp : keeps image_wf (restore_if_live now key value exp) (fun _ => True).
Proof.
  unfold restore_if_live. case_decide; [|auto with mpc]. apply (keeps_bind _ _ _ (fun _ => True)).
  - intros l [Hst Hsec]. unfold img_restore.
    destruct (run_op_outcome (img_store l) (OpRestore key value (i64 exp)) (img_heap l) Hst)
      as (r & s' & h' & Hrun & Hst' & _). unfold run_op, mbind, ST_bind in Hrun.
    destruct (mp_cache_store_restore_entry _ _ _ _ _) as [[status s''] h'']. injection Hrun as <- <- <-.
    by split.
  - intros status _. case_decide; auto with mpc.
Qed.

Lemma import_client_keeps id role_value active hash :
  role_range role_value → hash_ok hash →
  keeps image_wf (import_client id role_value active hash) (fun _ => True).
Proof.
  intros Hr Hh. unfold import_client. apply (keeps_bind _ _ _ (fun _ => True)).
  - intros l [Hst Hsec]. unfold img_import.
    pose proof (import_wf (img_security l) Hsec (Some id) role_value (Some hash) active (img_heap l) Hr
      ltac:(by intros _ b [= <-])) as Hi.
    destruct (mp_cache_security_import_client_hash _ _ _ _ _ _) as [[status s'] h']. by split.
  - intros status _. case_decide; auto with mpc.
Qed.

(** What every restored entry and imported client keeps, the whole state does. *)
Section Walk.
Context (P : image → Prop).
Context (Hrestore : ∀ now key value exp, keeps P (restore_if_live now key value exp) (fun _ => True)).
Context (Himport : ∀ id role_value active hash, role_range role_value → hash_ok hash →
  keeps P (import_client id role_value active hash) (fun _ => True)).

(** The loops end within their fuel: the offset grows with every round. *)
Lemma deserialize_entries_keeps fuel now count off :
  (off ≤ length payload < fuel + off)%nat →
  keeps P (deserialize_entries fuel payload now count off) (fun off' => off ≤ off' ≤ length payload)%nat.
Proof.
  revert count off. induction fuel as [|fuel IH]; intros count off Hf; cbn [deserialize_entries];
    (case_decide; [apply keeps_ret; lia|]); [lia|].
  eapply keeps_bind; [apply keeps_lift, read_entry_safe|]. intros [[[key value] exp] off'] Hoff.
  apply (keeps_bind _ _ _ (fun _ => True)); [apply Hrestore|]. intros _ _.
  eapply keeps_weaken; [apply IH; lia|]. cbn. lia.
Qed.

Lemma deserialize_clients_keeps fuel version count off :
  (off ≤ length payload < fuel + off)%nat →
  keeps P (deserialize_clients fuel payload version count off) (fun off' => off ≤ off' ≤ length payload)%nat.
Proof.
  revert count off. induction fuel as [|fuel IH]; intros count off Hf; cbn [deserialize_clients];
    (case_decide; [apply keeps_ret; lia|]); [lia|].
  eapply keeps_bind; [apply keeps_lift, read_client_safe|].
  intros [[[[id role_value] active] hash] off'] (Hr & Hh & Hoff).
  apply (keeps_bind _ _ _ (fun _ => True)); [by apply Himport|]. intros _ _.
  eapply keeps_weaken; [apply IH; lia|]. cbn. lia.
Qed.

Lemma deserialize_state_walk now :
  keeps P (mp_cache_storage_deserialize_state payload now) (fun _ => True).
Proof.
  unfold mp_cache_storage_deserialize_state.
  eapply keeps_bind; [apply keeps_lift, consume_u32_safe|]. intros [version o1] (_ & -> & ?).
  eapply keeps_bind; [apply keeps_lift, consume_u64_safe|]. intros [stamp o2] (-> & ?).
  case_decide; [apply keeps_fail|].
  eapply keeps_bind; [apply keeps_lift, consume_u32_safe|]. intros [n o3] (_ & -> & ?).
  eapply keeps_bind; [apply deserialize_entries_keeps; lia|]. intros o4 Ho4. cbn in Ho4.
  eapply keeps_bind; [apply keeps_lift, consume_u32_safe|]. intros [m o5] (_ & -> & ?).
  eapply keeps_bind; [apply deserialize_clients_keeps; lia|]. intros o6 _.
  case_decide; auto with mpc.
Qed.
End Walk.

Lemma deserialize_state_keeps now :
  keeps image_wf (mp_cache_storage_deserialize_state payload now) (fun _ => True).
Proof. apply deserialize_state_walk; [apply restore_if_live_keeps|apply import_client_keeps]. Qed.

Lemma img_delete_keeps key : keeps image_wf (img_delete key) (fun _ => True).
Proof.
  intros l [Hst Hsec]. unfold img_delete. pose proof (delete_outcome (img_store l) key Hst) as Hd.
  destruct (mp_cache_store_delete _ _) as [status s']. destruct Hd as [Hst' _]. by split.
Qed.

Lemma img_clear_keeps : keeps image_wf img_clear (fun _ => True).
Proof. intros l [Hst Hsec]. split; [|done]. split; [by apply clear_outcome|done]. Qed.

Lemma apply_journal_payload_keeps now :
  keeps image_wf (mp_cache_storage_apply_journal_payload payload now) (fun _ => True).
Proof.
  assert (∀ off, keeps image_wf (finish payload off) (fun _ => True)) as Hfin.
  { intros off. unfold finish. case_decide; auto with mpc. }
  unfold mp_cache_storage_apply_journal_payload.
  eapply keeps_bind; [apply keeps_lift, consume_u32_safe|]. intros [version o1] _.
  eapply keeps_bind; [apply keeps_lift, consume_u32_safe|]. intros [op o2] _.
  eapply keeps_bind; [apply keeps_lift, consume_u64_safe|]. intros [stamp o3] _.
  repeat (case_decide; [|]); try apply keeps_fail.
  - eapply keeps_bind; [apply keeps_lift, read_entry_safe|]. intros [[[key value] exp] off'] _.
    by apply (keeps_bind _ _ _ (fun _ => True)); [apply restore_if_live_keeps|].
  - eapply keeps_bind; [apply keeps_lift, consume_u32_safe|]. intros [n o4] _.
    eapply keeps_bind; [apply keeps_lift, consume_bytes_safe|]. intros [key o5] _.
    by apply (keeps_bind _ _ _ (fun _ => True)); [apply img_delete_keeps|].
  - eapply keeps_bind; [apply keeps_lift, read_client_safe|].
    intros [[[[id role_value] active] hash] off'] (Hr & Hh & _).
    by apply (keeps_bind _ _ _ (fun _ => True)); [by apply import_client_keeps|].
  - by apply (keeps_bind _ _ _ (fun _ => True)); [apply img_clear_keeps|].
Qed.
End Untrusted.

(** ** Round trips *)

(** The expiry times fit [int64_t], as they do in the C struct. *)
Definition expiry_ok (store : mp_cache_store_t) : Prop :=
  Forall (fun e => - 2 ^ 63 ≤ expires_at_utc_seconds e < 2 ^ 63) (entries store).

(** Expired entries are skipped. *)
Lemma restore_all_filter now es l :
  Forall (fun e => - 2 ^ 63 ≤ expires_at_utc_seconds e < 2 ^ 63) es →
  restore_all now es l = restore_all now (filter (live now) es) l.
Proof.
  intros Hes. revert l. induction Hes as [|e es He Hes IH]; intros l; [done|].
  rewrite filter_cons. cbn [restore_all]. unfold mbind, STE_bind.
  destruct (decide (live now e)) as [Hl|Hl].
  - cbn [restore_all]. unfold mbind, STE_bind.
    destruct (restore_if_live _ _ _ _ l) as [[[]|er|] l']; [apply IH|done|done].
  - unfold restore_if_live at 1. rewrite i64_u64 by done. unfold live in Hl.
    rewrite decide_False by lia. apply IH.
Qed.

(** A target with nothing in it and the limits of [store]. *)
Record fresh_image (store : mp_cache_store_t) (l : image) : Prop := {
  fi_wf : image_wf l;
  fi_heap : heap_ok (img_heap l);
  fi_limits : same_limits store (img_store l);
  fi_map : store_map (img_store l) = ∅;
  fi_records : records (img_security l) = [];
}.

Lemma filter_live_twice now now' (es : list mp_cache_entry) :
  now ≤ now' → filter (live now') (filter (live now) es) = filter (live now') es.
Proof.
  intros Hle. induction es as [|e es IH]; [done|]. rewrite !filter_cons.
  destruct (decide (live now e)) as [H1|H1], (decide (live now' e)) as [H2|H2];
    rewrite ?filter_cons, ?decide_True, ?decide_False by done; rewrite ?IH; try done.
  unfold live in *. lia.
Qed.

(** Rebuilding a checkpoint of [store] in a fresh image. *)
Lemma deserialize_checkpoint store security now now' l :
  store_wf store → security_wf security → expiry_ok store → entry_count store < 2 ^ 32 →
  0 ≤ now' → now ≤ now' → fresh_image store l →
  ∃ l', mp_cache_storage_deserialize_state
          (enc_state (filter (live now) (entries store)) (records security) now) now' l = (Ret tt, l') ∧
    image_wf l' ∧ heap_ok (img_heap l') ∧ same_limits store (img_store l') ∧
    store_map (img_store l') = filter (fun kv => now' < kv.2.2) (store_map store) ∧
    records (img_security l') = records security ∧
    bootstrap_admin_hash (img_security l') = bootstrap_admin_hash (img_security l) ∧
    bootstrap_admin_loaded (img_security l') = bootstrap_admin_loaded (img_security l).
Proof.
  intros Hst Hsec Hexp Hcount Hnow Hle [[Hlst Hlsec] Hheap Hlim Hmap Hrec].
  pose proof (sum_costs_filter (live now) (entries store)) as [_ Hlen].
  rewrite <-(wf_count _ Hst) in Hlen. pose proof (wf_limits _ Hst) as Hlims.
  assert (Forall entry_small (entries store)) as Hsmall.
  { eapply Forall_impl; [apply (wf_sizes _ Hst)|]. intros e [? ?]. destruct Hlims. split; lia. }
  pose proof (sec_count _ Hsec). pose proof (sec_capacity _ Hsec). unfold MP_CACHE_MAX_CLIENTS in *.
  rewrite deserialize_enc_state; [|apply Forall_forall; intros e [_ ?]%list_elem_of_filter; by eapply Forall_forall|apply Hsec|lia|lia].
  unfold mbind, STE_bind. rewrite restore_all_filter.
  2:{ apply Forall_forall. intros e [_ He]%list_elem_of_filter. by eapply Forall_forall in He; [|exact Hexp]. }
  rewrite filter_live_twice by done.
  destruct (restore_all_spec now' (filter (live now') (entries store)) l)
    as (l1 & -> & Hwf1 & Hlim1 & Hsec1 & Hheap1 & Hmap1); try done.
  - apply Forall_forall. intros e [Hl He]%list_elem_of_filter. split; [done|].
    pose proof Hexp as He1. unfold expiry_ok in He1. rewrite Forall_forall in He1. specialize (He1 e He).
    pose proof (wf_sizes _ Hst) as Hs. rewrite Forall_forall in Hs. specialize (Hs e He).
    unfold entry_sizes_ok in *. destruct Hlim as (_ & _ & <- & <-). cbn in *. lia.
  - by apply nodup_filter_keys, Hst.
  - intros e _. by rewrite Hmap.
  - rewrite Hmap. change (map_cost ∅) with 0. destruct Hlim as (_ & <- & _).
    pose proof (sum_costs_filter (live now') (entries store)) as [? _].
    pose proof (wf_used _ Hst). pose proof (wf_limit _ Hst). lia.
  - destruct (import_all_spec (records security) l1) as (l2 & -> & Hwf2 & Hst2 & Hheap2 & Hb1 & Hb2 & Hrec2);
      rewrite ?Hsec1, ?Hrec; try done.
    + apply Hsec.
    + apply Hsec.
    + unfold MP_CACHE_MAX_CLIENTS. change (zlen []) with 0. lia.
    + exists l2. split; [done|]. rewrite Hst2, Hrec2, Hb1, Hb2, Hsec1, Hrec.
      split; [split; [by rewrite Hst2|done]|]. split; [done|]. split; [by etrans|]. split; [|done].
      rewrite Hmap1, Hmap, (right_id_L ∅ (∪)). unfold store_map. by apply map_filter_live, Hst.
Qed.

(** A checkpoint payload is far below the top of [size_t]. *)
Lemma length_enc_state es rs now :
  Forall record_ok rs → zlen rs ≤ MP_CACHE_MAX_CLIENTS →
  zlen (enc_state es rs now) ≤ sumZ (binding_cost ∘ entry_binding <$> es) + 200000.
Proof.
  intros Hrs Hn.
  assert (zlen (mjoin (enc_entry <$> es)) ≤ sumZ (binding_cost ∘ entry_binding <$> es)) as He.
  { clear. induction es as [|e es IH]; [done|]. rewrite !fmap_cons, mjoin_cons, zlen_app, sumZ_cons.
    unfold enc_entry at 1. len_simpl. unfold compose at 1. unfold binding_cost at 1. cbn [entry_binding fst snd].
    unfold sizeof_entry.
    lia. }
  assert (zlen (mjoin (enc_client <$> rs)) ≤ 107 * zlen rs) as Hc.
  { clear He Hn. induction Hrs as [|r rs [Hid _ [Hl _] _] _ IH]; [done|].
    rewrite fmap_cons, mjoin_cons, zlen_app, zlen_cons. apply valid_id_length in Hid.
    unfold enc_client at 1. unfold zlen in *. rewrite !length_app, !length_be_bytes, Hl.
    unfold MP_CACHE_TOKEN_HASH_SIZE. lia. }
  unfold enc_state. len_simpl. unfold MP_CACHE_MAX_CLIENTS in Hn. lia.
Qed.

(** Serialising a well-formed service succeeds when memory lasts. *)
Lemma serialize_state_ok store security now h :
  store_wf store → security_wf security → heap_ok h →
  ∃ h' b', mp_cache_storage_serialize_state store security now (h, empty_buffer) = (Ret tt, (h', b')) ∧
    heap_ok h' ∧
    buf_bytes b' = enc_state (filter (live now) (entries store)) (records security) now.
Proof.
  intros Hst Hsec Hh.
  pose proof (writes_state store security now Hst h empty_buffer ltac:(done)) as Hw.
  destruct (mp_cache_storage_serialize_state store security now (h, empty_buffer)) as [[[]|e|] [h' b']]; [|exfalso|done].
  - destruct Hw as (Hb & _ & Hh'). cbn in Hb. by exists h', b'; auto.
  - specialize (Hw Hh). cbn [empty_buffer buf_bytes] in Hw. change (zlen (@nil Z)) with 0 in Hw.
    pose proof (length_enc_state (filter (live now) (entries store)) (records security) now) as Hlen.
    pose proof (sec_count _ Hsec). pose proof (sec_capacity _ Hsec).
    specialize (Hlen ltac:(apply Hsec) ltac:(lia)).
    pose proof (sum_costs_filter (live now) (entries store)) as [? _]. destruct (wf_limits _ Hst).
    pose proof (wf_used _ Hst). pose proof (wf_limit _ Hst). unfold SIZE_MAX in Hw. lia.
Qed.

(** Building a journal payload succeeds when memory lasts. *)
Lemma build_entry_ok stamp j h :
  journal_ok j → heap_ok h →
  ∃ h' b', build_entry stamp j (h, empty_buffer) = (Ret tt, (h', b')) ∧ heap_ok h' ∧
    buf_bytes b' = enc_journal stamp j.
Proof.
  intros Hj Hh. pose proof (writes_journal stamp j Hj h empty_buffer ltac:(done)) as Hw.
  destruct (build_entry stamp j (h, empty_buffer)) as [[[]|e|] [h' b']]; [|exfalso|done].
  - destruct Hw as (Hb & _ & Hh'). cbn in Hb. by exists h', b'; auto.
  - specialize (Hw Hh). cbn [empty_buffer buf_bytes] in Hw. change (zlen (@nil Z)) with 0 in Hw.
    assert (zlen (enc_journal stamp j) < 2 ^ 34); [|unfold SIZE_MAX in Hw; lia].
    unfold enc_journal, enc_entry, enc_client. destruct j as [key value exp|key|r|]; cbn in Hj; len_simpl;
      cbn [entry_key entry_value]; try lia.
    destruct Hj as [Hid _ [Hl _] _]. apply valid_id_length in Hid.
    unfold zlen, MP_CACHE_TOKEN_HASH_SIZE in *. lia.
Qed.

(** A full registry refuses exactly the new ids. *)
Lemma import_full_fails r l l' :
  import_client (client_id r) (role r) (token_active r) (token_hash r) l = (Ret tt, l') →
  security_wf (img_security l) → record_ok r →
  zlen (records (img_security l)) = MP_CACHE_MAX_CLIENTS →
  client_id r ∉ (client_id <$> records (img_security l)) → False.
Proof.
  intros Hi Hsec Hr Hfull Hnew. pose proof (import_client_spec r l Hsec Hr) as Hs. rewrite Hi in Hs.
  destruct Hs as (Hsec' & _ & _ & _ & _ & Hrec). rewrite upsert_record_new in Hrec by done.
  pose proof (sec_count _ Hsec') as Hc. pose proof (sec_capacity _ Hsec'). rewrite Hrec in Hc. len_simpl. lia.
Qed.

Lemma import_fail_new r l e l' :
  import_client (client_id r) (role r) (token_active r) (token_hash r) l = (Fail e, l') →
  security_wf (img_security l) → record_ok r → heap_ok (img_heap l) →
  client_id r ∉ (client_id <$> records (img_security l)).
Proof.
  intros Hi Hsec Hr Hh. unfold import_client, mbind, STE_bind, img_import in Hi.
  destruct (import_outcome (img_security l) r (img_heap l) Hsec Hr)
    as (status & s' & h' & He & _ & _ & _ & _ & Ho). rewrite He in Hi.
  case_decide; [done|]. destruct status; try done; tauto.
Qed.

(** The effect of one journal operation on the map and the client records:
    [None] when replay refuses it. *)
Definition replay_effect (now : Z) (j : journal_entry) (store : mp_cache_store_t)
    (rs : list mp_cache_client_record_t) : option (gmap bytes (bytes * Z) * list mp_cache_client_record_t) :=
  let m := store_map store in
  match j with
  | JSet key value exp =>
    if decide (now < exp) then
      if decide (write_fits store key value) then Some (<[key := (value, exp)]> m, rs) else None
    else Some (m, rs)
  | JDelete key => Some (delete key m, rs)
  | JClient r =>
    if decide (zlen rs = MP_CACHE_MAX_CLIENTS ∧ client_id r ∉ (client_id <$> rs)) then None
    else Some (m, upsert_record r rs)
  | JPurgeAll => Some (∅, rs)
  end.

(** Replaying one operation on a well-formed service. *)
Lemma replay_entry_effect now j l :
  journal_ok j → image_wf l → heap_ok (img_heap l) → 0 ≤ now →
  match replay_effect now j (img_store l) (records (img_security l)) with
  | Some (m, rs) => ∃ l', replay_entry now j l = (Ret tt, l') ∧ image_wf l' ∧
      store_map (img_store l') = m ∧ records (img_security l') = rs ∧
      heap_ok (img_heap l') ∧ same_limits (img_store l) (img_store l')
  | None => ∃ e l', replay_entry now j l = (Fail e, l') ∧ image_wf l'
  end.
Proof.
  intros Hj [Hst Hsec] Hhl Hnow. destruct j as [key value exp|key|r|]; cbn [replay_effect replay_entry].
  - destruct Hj as (_ & _ & Hexp).
    pose proof (restore_if_live_spec now key value exp l Hst Hexp Hnow) as Hr.
    destruct (restore_if_live now key value (u64 exp) l) as [[[]|e|] l']; [| |done].
    + destruct Hr as (Hst' & Hlim & Hs & Hh' & Hf & Hm).
      assert (image_wf l') as Hwf' by (split; [done|by rewrite Hs]).
      destruct (decide (now < exp)) as [Hl|Hl]; [rewrite decide_True by by apply Hf|];
        exists l'; rewrite Hs; specialize (Hh' Hhl); by repeat (split; [done|]).
    + destruct Hr as (Hst' & Hs & Hl & Hf). rewrite decide_True by done. rewrite decide_False by by apply Hf.
      exists e, l'. split; [done|]. split; [done|by rewrite Hs].
  - unfold img_delete. pose proof (delete_outcome (img_store l) key Hst) as Hd.
    destruct (mp_cache_store_delete _ _) as [status s']. destruct Hd as (Hst' & Hlim & Hm & _).
    eexists. split; [reflexivity|]. split; [by split|done].
  - pose proof (import_client_spec r l Hsec Hj) as Hr.
    destruct (import_client _ _ _ _ l) as [[[]|e|] l'] eqn:Hi; [| |done].
    + destruct Hr as (Hsec' & Hs & Hh' & _ & _ & Hrec). rewrite decide_False.
      2:{ intros [Hfull Hnew]. by eapply import_full_fails in Hi. }
      exists l'. rewrite Hs. split; [done|]. split; [split; [by rewrite Hs|done]|].
      specialize (Hh' Hhl). by repeat (split; [done|]).
    + destruct Hr as (Hsec' & Hs & Hf). rewrite decide_True.
      2:{ split; [by apply Hf|]. by eapply import_fail_new. }
      exists e, l'. split; [done|]. split; [by rewrite Hs|done].
  - destruct (clear_outcome (img_store l) Hst) as (Hst' & Hlim & Hm).
    eexists. split; [reflexivity|]. split; [by split|done].
Qed.

(** ** Properties *)

(** C37. A checkpoint (or export) payload restores what it captured. With enough
    memory, serialising a well-formed service succeeds, and reading the bytes
    back into an empty service with the same limits, at any later time, succeeds
    and gives exactly the entries that have not expired by then and the client
    records in their order, with the invariants and the bootstrap credential
    kept. *)
Theorem state_roundtrip store security now now' h l :
  store_wf store → security_wf security → expiry_ok store → entry_count store < 2 ^ 32 →
  heap_ok h → 0 ≤ now' → now ≤ now' → fresh_image store l →
  ∃ h' b' l',
    mp_cache_storage_serialize_state store security now (h, empty_buffer) = (Ret tt, (h', b')) ∧
    mp_cache_storage_deserialize_state (buf_bytes b') now' l = (Ret tt, l') ∧
    image_wf l' ∧
    store_map (img_store l') = filter (fun kv => now' < kv.2.2) (store_map store) ∧
    records (img_security l') = records security ∧
    bootstrap_admin_hash (img_security l') = bootstrap_admin_hash (img_security l).
Proof.
  intros Hst Hsec Hexp Hcount Hh Hnow Hle Hfresh.
  destruct (serialize_state_ok store security now h Hst Hsec Hh) as (h' & b' & Hser & _ & Hb).
  destruct (deserialize_checkpoint store security now now' l) as (l' & Hdes & Hwf & _ & _ & Hm & Hr & Hb1 & _); try done.
  exists h', b', l'. rewrite Hb. auto 8.
Qed.

(** Journal replay does what was journalled. With enough memory, building
    the payload of an operation succeeds, and applying the payload to a
    well-formed service has the effect of the operation on the map and on the
    client records: it is refused exactly when a live SET does not fit the
    limits or a new client meets a full registry. *)
Theorem journal_replay_effect stamp now j l h :
  journal_ok j → image_wf l → heap_ok h → heap_ok (img_heap l) → 0 ≤ now →
  ∃ h' b', build_entry stamp j (h, empty_buffer) = (Ret tt, (h', b')) ∧
    match replay_effect now j (img_store l) (records (img_security l)) with
    | Some (m, rs) => ∃ l',
        mp_cache_storage_apply_journal_payload (buf_bytes b') now l = (Ret tt, l') ∧ image_wf l' ∧
        store_map (img_store l') = m ∧ records (img_security l') = rs
    | None => ∃ e l', mp_cache_storage_apply_journal_payload (buf_bytes b') now l = (Fail e, l') ∧ image_wf l'
    end.
Proof.
  intros Hj Hwf Hh Hhl Hnow. destruct (build_entry_ok stamp j h Hj Hh) as (h' & b' & Hrun & _ & Hb).
  exists h', b'. split; [done|]. rewrite Hb, apply_enc_journal by done.
  pose proof (replay_entry_effect now j l Hj Hwf Hhl Hnow) as Hr.
  destruct (replay_effect _ _ _ _) as [[m rs]|]; [|exact Hr].
  destruct Hr as (l' & ? & ? & ? & ? & _). by exists l'.
Qed.

(** Reading untrusted bytes is safe: whatever the payload holds, rebuilding
    the state and replaying a journal operation end, never run out of fuel, and
    leave the store and the registry well formed, also when they fail half-way. *)
Theorem untrusted_payload_safe payload now l :
  bytes_wf payload → image_wf l →
  (mp_cache_storage_deserialize_state payload now l).1 ≠ Stuck ∧
  image_wf (mp_cache_storage_deserialize_state payload now l).2 ∧
  (mp_cache_storage_apply_journal_payload payload now l).1 ≠ Stuck ∧
  image_wf (mp_cache_storage_apply_journal_payload payload now l).2.
Proof.
  intros Hwf Hl. destruct (deserialize_state_keeps payload Hwf now l Hl) as [H1 H2].
  destruct (apply_journal_payload_keeps payload Hwf now l Hl) as [H3 H4].
  split; [intros Heq; by rewrite Heq in H2|]. split; [done|].
  split; [intros Heq; by rewrite Heq in H4|done].
Qed.

(** ** Witnesses *)

Definition sample_target : image := Image sample_empty sample_empty_registry [].

Lemma sample_target_wf : image_wf sample_target.
Proof. split; [apply sample_empty_wf|apply sample_empty_registry_wf]. Qed.

Lemma sample_target_fresh : fresh_image sample_store sample_target.
Proof.
  split; [apply sample_target_wf|constructor| |apply (empty_store_wf [[]; []; []; []]); [done|done|by repeat constructor]|done].
  vm_compute. by repeat split.
Qed.

Lemma state_roundtrip_witness :
  ∃ h' b' l',
    mp_cache_storage_serialize_state sample_store sample_registry 110 ([], empty_buffer) = (Ret tt, (h', b')) ∧
    mp_cache_storage_deserialize_state (buf_bytes b') 120 sample_target = (Ret tt, l') ∧
    image_wf l' ∧
    store_map (img_store l') = filter (fun kv => 120 < kv.2.2) (store_map sample_store) ∧
    records (img_security l') = records sample_registry ∧
    bootstrap_admin_hash (img_security l') = bootstrap_admin_hash (img_security sample_target).
Proof.
  apply (state_roundtrip sample_store sample_registry 110 120 [] sample_target);
    [apply sample_store_wf|apply sample_registry_wf| | |constructor|lia|lia|apply sample_target_fresh].
  - unfold expiry_ok. decide_now.
  - vm_compute. reflexivity.
Defined.

Lemma journal_replay_effect_witness :
  ∃ h' b', build_entry 100 (JSet (cstr "k") (cstr "v") 200) ([], empty_buffer) = (Ret tt, (h', b')) ∧
    match replay_effect 150 (JSet (cstr "k") (cstr "v") 200) sample_empty [] with
    | Some (m, rs) => ∃ l',
        mp_cache_storage_apply_journal_payload (buf_bytes b') 150 sample_target = (Ret tt, l') ∧ image_wf l' ∧
        store_map (img_store l') = m ∧ records (img_security l') = rs
    | None => ∃ e l', mp_cache_storage_apply_journal_payload (buf_bytes b') 150 sample_target = (Fail e, l') ∧ image_wf l'
    end.
Proof.
  apply (journal_replay_effect 100 150 (JSet (cstr "k") (cstr "v") 200) sample_target []);
    [|apply sample_target_wf|constructor|constructor|lia].
  vm_compute. repeat split; congruence.
Defined.

Lemma untrusted_payload_safe_witness :
  (mp_cache_storage_deserialize_state [0; 0; 0; 2; 255] 5 sample_target).1 ≠ Stuck.
Proof.
  apply (untrusted_payload_safe [0; 0; 0; 2; 255] 5 sample_target); [|apply sample_target_wf].
  decide_now.
Defined.
