(* ===== verification/Storage.v ===== *)
(** * Storage: internal/storage/storage.h, internal/storage/storage.c

    Encrypted persistence: the authenticated packet envelope, the checkpoint
    file, the append-only journal, export and import. The code is written
    against [EnvelopeCrypto], the interface crypto.c provides. It runs in
    [world] (allocator, entropy, disk, process id, clock) or, where it rebuilds
    the service's state, in [server], the world with the store and the client
    registry. Log lines are not modelled. *)

From stdpp Require Import base numbers strings option gmap list.
From S2P Require Import Prelude Config Crypto Cache Security Fs StorageCodec.
Local Open Scope Z_scope.

(** ** State *)

Definition MP_CACHE_STORAGE_STATE_MAGIC : bytes := Eval vm_compute in cstr "MPCSTAT1".
Definition MP_CACHE_STORAGE_JOURNAL_MAGIC : bytes := Eval vm_compute in cstr "MPCJNL1" ++ [0].
Definition MP_CACHE_STORAGE_EXPORT_MAGIC : bytes := Eval vm_compute in cstr "MPCEXPT1".
Definition MP_CACHE_STORAGE_EXPORT_FILE_PREFIX : bytes := Eval vm_compute in cstr "mp-cache-export-".
Definition MP_CACHE_STORAGE_MAX_PACKET_OVERHEAD_BYTES : Z := 16 * 1024 * 1024.
Definition MP_CACHE_STORAGE_PACKET_HEADER_SIZE : nat := 64.
Definition MP_CACHE_STORAGE_HEADER_MAC_OFFSET : nat := 32.

Record mp_cache_storage_t := Storage {
  st_checkpoint_path : bytes;
  st_journal_path : bytes;
  st_export_directory : bytes;
  storage_key : bytes;
  max_packet_bytes : Z;
  st_max_export_files : Z;
}.

Record mp_cache_export_result_t := ExportResult {
  export_path : bytes;
  digest_hex : bytes;
  export_entry_count : Z;
  export_client_count : Z;
}.

Record world := World {
  w_heap : heap;
  w_entropy : entropy;
  w_disk : disk;
  w_pid : Z;
  w_time : Z;
}.

Record server := Server {
  sv_world : world;
  sv_store : mp_cache_store_t;
  sv_security : mp_cache_security_t;
}.

Definition set_heap (w : world) (h : heap) : world := World h (w_entropy w) (w_disk w) (w_pid w) (w_time w).
Definition set_entropy (w : world) (e : entropy) : world := World (w_heap w) e (w_disk w) (w_pid w) (w_time w).
Definition set_disk (w : world) (d : disk) : world := World (w_heap w) (w_entropy w) d (w_pid w) (w_time w).
Definition set_world (s : server) (w : world) : server := Server w (sv_store s) (sv_security s).

Definition in_heap {A} (m : STE heap A) : STE world A := zoom w_heap set_heap m.
Definition in_entropy {A} (m : STE entropy A) : STE world A := zoom w_entropy set_entropy m.
Definition in_disk {A} (m : STE disk A) : STE world A := zoom w_disk set_disk m.
Definition in_world {A} (m : STE world A) : STE server A := zoom sv_world set_world m.

(** Code that rebuilds the store and the registry, with the world's allocator. *)
Definition in_image {A} (m : STE image A) : STE server A := fun s =>
  let '(o, l) := m (Image (sv_store s) (sv_security s) (w_heap (sv_world s))) in
  (o, Server (set_heap (sv_world s) (img_heap l)) (img_store l) (img_security l)).

(** [malloc] that fails with [ENOMEM]. *)
Definition malloc : STE world unit := in_heap (fun h =>
  let '(ok, h') := alloc h in if (ok : bool) then (Ret tt, h') else (Fail ENOMEM, h')).

(** Running a writer on an empty buffer, which the caller frees: the bytes. *)
Definition with_buffer (m : W unit) : STE world bytes := in_heap (fun h =>
  match m (h, empty_buffer) with
  | (Ret _, (h', b)) => (Ret (buf_bytes b), h')
  | (Fail e, (h', _)) => (Fail e, h')
  | (Stuck, (h', _)) => (Stuck, h')
  end).

Definition getpid : STE world Z := fun w => (Ret (w_pid w), w).
Definition time_now : STE world Z := fun w => (Ret (w_time w), w).

(** The text fits the buffer, or the call fails closed. *)
Definition mp_cache_storage_format_path (formatted : bytes) (out_path_capacity : Z) : outcome bytes :=
  if decide (out_path_capacity = 0) then Fail EINVAL
  else if decide (out_path_capacity ≤ zlen formatted) then Fail ENAMETOOLONG
  else Ret formatted.

Section Envelope.
Context {EC : EnvelopeCrypto}.

(** ** The packet envelope *)

(** The first 32 bytes of the header: magic, version 1, length, nonce. *)
Definition packet_header (magic : bytes) (payload_length : Z) (nonce : bytes) : bytes :=
  magic ++ [0; 0; 0; 1] ++
  [u8 (payload_length ≫ 24); u8 (payload_length ≫ 16); u8 (payload_length ≫ 8); u8 payload_length] ++
  nonce.

(** The packet and its MAC. *)
Definition mp_cache_storage_build_packet (storage : mp_cache_storage_t) (magic payload : bytes)
    : STE world (bytes * bytes) :=
  if decide (max_packet_bytes storage < zlen payload) then fail EINVAL else
  nonce ← in_entropy (mp_cache_random_bytes MP_CACHE_NONCE_SIZE);
  _ ← malloc;
  let ciphertext := if decide (payload = []) then [] else ec_xor (storage_key storage) nonce payload in
  let header := packet_header magic (zlen payload) nonce in
  mac_input ← with_buffer (_ ← buffer_append header; buffer_append ciphertext);
  let mac := ec_mac (storage_key storage) mac_input in
  packet ← with_buffer (_ ← buffer_append (header ++ mac); buffer_append ciphertext);
  mret (packet, mac).

(** Writing the open temporary file and moving it into place. A failed
    [fclose] or [rename] reaches a second [fclose] of the same stream, which C
    gives no meaning to: [Stuck]. *)
Definition commit_temp (temp path packet mac old : bytes) : STE world bytes :=
  written ← attempt (in_disk (fwrite_flush temp old packet));
  match written with
  | Ret _ =>
    closed ← attempt (in_disk sys_fclose);
    match closed with
    | Ret _ =>
      renamed ← attempt (in_disk (sys_rename temp path));
      match renamed with Ret _ => mret mac | _ => lift Stuck end
    | _ => lift Stuck
    end
  | _ =>
    _ ← attempt (in_disk sys_fclose);
    _ ← attempt (in_disk (sys_unlink temp));
    fail EIO
  end.

Definition mp_cache_storage_write_packet_file (storage : mp_cache_storage_t) (file_path magic payload : bytes)
    : STE world bytes :=
  _ ← in_disk (mp_cache_fs_ensure_parent_directory (Some file_path));
  pid ← getpid;
  temp_path ← lift (mp_cache_storage_format_path (file_path ++ cstr ".tmp." ++ dec pid) MP_CACHE_PATH_CAP);
  '(packet, mac) ← mp_cache_storage_build_packet storage magic payload;
  old ← in_disk (fopen_write temp_path false);
  commit_temp temp_path file_path packet mac old.

Definition mp_cache_storage_append_packet (storage : mp_cache_storage_t) (file_path magic payload : bytes)
    : STE world unit :=
  _ ← in_disk (mp_cache_fs_ensure_parent_directory (Some file_path));
  '(packet, _) ← mp_cache_storage_build_packet storage magic payload;
  old ← in_disk (fopen_write file_path true);
  written ← attempt (in_disk (fwrite_flush file_path old packet));
  match written with
  | Ret _ =>
    closed ← attempt (in_disk sys_fclose);
    match closed with Ret _ => mret tt | _ => lift Stuck end
  | _ => _ ← attempt (in_disk sys_fclose); fail EIO
  end.

(** [None] at the end of the stream; otherwise the payload, the MAC and what
    is left of the stream. *)
Definition mp_cache_storage_read_packet_stream (storage : mp_cache_storage_t) (file expected_magic : bytes)
    : STE world (option (bytes * bytes * bytes)) :=
  if decide (file = []) then mret None else
  if decide (length file < MP_CACHE_STORAGE_PACKET_HEADER_SIZE)%nat then fail EINVAL else
  let header := take MP_CACHE_STORAGE_PACKET_HEADER_SIZE file in
  let file := drop MP_CACHE_STORAGE_PACKET_HEADER_SIZE file in
  if decide (take 8 header ≠ expected_magic ∨ header !!! 11%nat ≠ 1) then fail EINVAL else
  let payload_length := Z.lor (Z.lor (Z.lor (header !!! 12%nat ≪ 24) (header !!! 13%nat ≪ 16))
                                 (header !!! 14%nat ≪ 8)) (header !!! 15%nat) in
  if decide (max_packet_bytes storage < payload_length) then fail EOVERFLOW else
  _ ← malloc;
  if decide (zlen file < payload_length) then fail EINVAL else
  let ciphertext := take (Z.to_nat payload_length) file in
  let file := drop (Z.to_nat payload_length) file in
  mac_input ← with_buffer (_ ← buffer_append (take MP_CACHE_STORAGE_HEADER_MAC_OFFSET header);
                           buffer_append ciphertext);
  let computed_mac := ec_mac (storage_key storage) mac_input in
  let mac := drop MP_CACHE_STORAGE_HEADER_MAC_OFFSET header in
  if ec_equals computed_mac mac MP_CACHE_TOKEN_HASH_SIZE then
    mret (Some (ec_xor (storage_key storage) (take 16 (drop 16 header)) ciphertext, mac, file))
  else fail EACCES.

(** A missing file reads as [None]; trailing bytes are an error. *)
Definition mp_cache_storage_read_packet_file (storage : mp_cache_storage_t) (file_path expected_magic : bytes)
    : STE world (option (bytes * bytes)) :=
  opened ← attempt (in_disk (fopen_rb file_path));
  match opened with
  | Ret file =>
    r ← mp_cache_storage_read_packet_stream storage file expected_magic;
    match r with
    | None => mret None
    | Some (payload, mac, rest) => if decide (rest = []) then mret (Some (payload, mac)) else fail EINVAL
    end
  | Fail ENOENT => mret None
  | Fail e => fail e
  | Stuck => lift Stuck
  end.

(** ** Loading and checkpointing *)

Definition mp_cache_storage_init (host : secret_host) (config : mp_cache_config_t)
    : outcome mp_cache_storage_t :=
  checkpoint ← mp_cache_storage_format_path (text config checkpoint_path) MP_CACHE_PATH_CAP;
  journal ← mp_cache_storage_format_path (text config journal_path) MP_CACHE_PATH_CAP;
  export ← mp_cache_storage_format_path (text config export_directory) MP_CACHE_PATH_CAP;
  secret ← mp_cache_secret_resolve host (Some (text config storage_key_secret_ref)) MP_CACHE_SECRET_REF_CAP;
  mret (Storage checkpoint journal export (mp_cache_secret_derive_key (Some secret))
          (u64 (num config memory_limit_bytes + MP_CACHE_STORAGE_MAX_PACKET_OVERHEAD_BYTES))
          (num config max_export_files)).

Definition clear_service : STE server unit := fun s =>
  (Ret tt, Server (sv_world s) (mp_cache_store_clear (sv_store s))
             (mp_cache_security_clear_clients (sv_security s))).

(** The replay loop. A packet takes at least 64 bytes of the stream, so one
    unit of fuel per byte, plus one for the end, is enough. *)
Fixpoint replay_journal (fuel : nat) (storage : mp_cache_storage_t) (journal : bytes) (now : Z)
    : STE server unit :=
  match fuel with
  | O => lift Stuck
  | S fuel' =>
    r ← in_world (mp_cache_storage_read_packet_stream storage journal MP_CACHE_STORAGE_JOURNAL_MAGIC);
    match r with
    | None => mret tt
    | Some (payload, _, rest) =>
      _ ← in_image (mp_cache_storage_apply_journal_payload payload now);
      replay_journal fuel' storage rest now
    end
  end.

(** The journal file; a missing one is empty. *)
Definition load_journal (storage : mp_cache_storage_t) (now : Z) : STE server unit :=
  opened ← attempt (in_world (in_disk (fopen_rb (st_journal_path storage))));
  match opened with
  | Fail ENOENT => mret tt
  | Fail e => fail e
  | Stuck => lift Stuck
  | Ret journal => replay_journal (S (length journal)) storage journal now
  end.

Definition mp_cache_storage_load_state (storage : mp_cache_storage_t) (now : Z) : STE server unit :=
  _ ← clear_service;
  checkpoint ← in_world (mp_cache_storage_read_packet_file storage (st_checkpoint_path storage)
                           MP_CACHE_STORAGE_STATE_MAGIC);
  _ ← match checkpoint with
      | None => mret tt
      | Some (payload, _) => in_image (mp_cache_storage_deserialize_state payload now)
      end;
  load_journal storage now.

Definition mp_cache_storage_checkpoint (storage : mp_cache_storage_t) (store : mp_cache_store_t)
    (security : mp_cache_security_t) (now : Z) : STE world unit :=
  payload ← with_buffer (mp_cache_storage_serialize_state store security now);
  _ ← mp_cache_storage_write_packet_file storage (st_checkpoint_path storage)
        MP_CACHE_STORAGE_STATE_MAGIC payload;
  in_disk (mp_cache_fs_remove_path_if_exists (Some (st_journal_path storage))).

(** ** Appending to the journal *)

Definition append_entry (storage : mp_cache_storage_t) (j : journal_entry) : STE world unit :=
  stamp ← time_now;
  payload ← with_buffer (build_entry stamp j);
  mp_cache_storage_append_packet storage (st_journal_path storage) MP_CACHE_STORAGE_JOURNAL_MAGIC payload.

Definition mp_cache_storage_append_set (storage : mp_cache_storage_t) (key value : bytes) (exp : Z)
    : STE world unit := append_entry storage (JSet key value exp).
Definition mp_cache_storage_append_delete (storage : mp_cache_storage_t) (key : bytes)
    : STE world unit := append_entry storage (JDelete key).
Definition mp_cache_storage_append_client (storage : mp_cache_storage_t) (r : mp_cache_client_record_t)
    : STE world unit := append_entry storage (JClient r).
Definition mp_cache_storage_append_purge_all (storage : mp_cache_storage_t)
    : STE world unit := append_entry storage JPurgeAll.

(** ** Export and import *)

(** The names in a directory. *)
Definition dir_entries (nodes : gmap bytes node) (dir : bytes) : list bytes :=
  omap (fun kv : bytes * node =>
    let name := drop (length dir + 1) kv.1 in
    if decide (take (length dir + 1) kv.1 = dir ++ [47] ∧ name ≠ [] ∧ 47 ∉ name)
    then Some name else None) (map_to_list nodes).

(** [opendir] of a missing directory counts as empty. *)
Definition mp_cache_storage_export_count (storage : mp_cache_storage_t) : STE world Z := in_disk (
  c ← next_choice;
  nodes ← get_nodes;
  match c, (nodes !! st_export_directory storage : option node) with
  | IoFail e, _ => fail (io_error e)
  | _, None => mret 0
  | _, Some (RegularFile _) => fail ENOTDIR
  | _, Some Directory =>
    mret (zlen (filter (fun name => starts_with MP_CACHE_STORAGE_EXPORT_FILE_PREFIX name = true)
                  (dir_entries nodes (st_export_directory storage))))
  end).

Definition mp_cache_storage_export_state (storage : mp_cache_storage_t) (store : mp_cache_store_t)
    (security : mp_cache_security_t) (now : Z) : STE world mp_cache_export_result_t :=
  export_count ← mp_cache_storage_export_count storage;
  if decide (st_max_export_files storage ≤ export_count) then fail ENOSPC else
  _ ← mp_cache_storage_checkpoint storage store security now;
  payload ← with_buffer (mp_cache_storage_serialize_state store security now);
  pid ← getpid;
  path ← lift (mp_cache_storage_format_path
                 (st_export_directory storage ++ cstr "/mp-cache-export-" ++ dec now ++ cstr "-" ++
                    dec pid ++ cstr ".bin") MP_CACHE_PATH_CAP);
  let '(_, entry_count) := mp_cache_store_for_each store (mp_cache_count_active_entry now) 0 in
  export_mac ← mp_cache_storage_write_packet_file storage path MP_CACHE_STORAGE_EXPORT_MAGIC payload;
  digest ← lift (mp_cache_hex_encode export_mac 65);
  mret (ExportResult path digest entry_count (mp_cache_security_client_count security)).

(** [strstr (haystack, needle) != NULL] *)
Fixpoint contains (needle haystack : bytes) : bool :=
  starts_with needle haystack ||
  match haystack with [] => false | _ :: haystack' => contains needle haystack' end.

Definition mp_cache_storage_resolve_import_path (storage : mp_cache_storage_t) (requested : bytes)
    (out_capacity : Z) : STE world bytes :=
  if decide (out_capacity = 0) then fail EINVAL else
  if contains (cstr "../") requested || contains (cstr "/..") requested then fail EACCES else
  resolved ←
    (if decide (head requested = Some 47) then
       if starts_with (st_export_directory storage) requested
       then lift (mp_cache_storage_format_path requested out_capacity)
       else fail EACCES
     else if starts_with (st_export_directory storage) requested
     then lift (mp_cache_storage_format_path requested out_capacity)
     else lift (mp_cache_storage_format_path (st_export_directory storage ++ cstr "/" ++ requested) out_capacity));
  nodes ← in_disk get_nodes;
  match (nodes !! resolved : option node) with
  | Some (RegularFile _) => mret resolved
  | _ => fail ENOENT
  end.

(** The configuration of the scratch store the import is tried on. *)
Definition scratch_config (store : mp_cache_store_t) : mp_cache_config_t :=
  Config (fun _ => []) (fun f => match f with
    | bucket_count => u32 (store_bucket_count store)
    | memory_limit_bytes => store_memory_limit store
    | max_key_bytes => store_max_key store
    | max_value_bytes => store_max_value store
    | _ => 0
    end).

(** Rebuilding into scratch objects: only the allocator is shared. *)
Definition trial_deserialize (payload : bytes) (now : Z) : STE server unit := fun s =>
  let w := sv_world s in
  match mp_cache_store_init (scratch_config (sv_store s)) (w_heap w) with
  | (None, h) => (Fail EOTHER, set_world s (set_heap w h))
  | (Some imported_store, h) =>
    let imported_security := Security [] 0 (bootstrap_admin_hash (sv_security s))
                               (bootstrap_admin_loaded (sv_security s)) in
    let '(o, l) := mp_cache_storage_deserialize_state payload now
                     (Image imported_store imported_security h) in
    (o, set_world s (set_heap w (img_heap l)))
  end.

Definition checkpoint_service (storage : mp_cache_storage_t) (now : Z) : STE server unit := fun s =>
  in_world (mp_cache_storage_checkpoint storage (sv_store s) (sv_security s) now) s.

Definition mp_cache_storage_import_state (storage : mp_cache_storage_t) (import_path : bytes) (now : Z)
    : STE server unit :=
  resolved ← in_world (mp_cache_storage_resolve_import_path storage import_path MP_CACHE_PATH_CAP);
  packet ← in_world (mp_cache_storage_read_packet_file storage resolved MP_CACHE_STORAGE_EXPORT_MAGIC);
  match packet with
  | None => fail EOTHER
  | Some (payload, _) =>
    _ ← trial_deserialize payload now;
    _ ← clear_service;
    _ ← in_image (mp_cache_storage_deserialize_state payload now);
    checkpoint_service storage now
  end.

(** ** The envelope *)

(** What [build_packet] produces for a nonce. *)
Definition sealed_mac (storage : mp_cache_storage_t) (magic nonce payload : bytes) : bytes :=
  ec_mac (storage_key storage)
    (packet_header magic (zlen payload) nonce ++ ec_xor (storage_key storage) nonce payload).
Definition sealed (storage : mp_cache_storage_t) (magic nonce payload : bytes) : bytes :=
  packet_header magic (zlen payload) nonce ++ sealed_mac storage magic nonce payload ++
  ec_xor (storage_key storage) nonce payload.

(** Only the allocator and the entropy of the world differ. *)
Definition same_disk (w w' : world) : Prop :=
  w_disk w' = w_disk w ∧ w_pid w' = w_pid w ∧ w_time w' = w_time w.

#[export] Instance same_disk_preorder : PreOrder same_disk.
Proof. split; [done|]. intros w1 w2 w3 (?&?&?) (?&?&?). repeat split; congruence. Qed.

Lemma malloc_spec w : ∃ o h', malloc w = (o, set_heap w h') ∧
  match o with Ret _ => heap_ok (w_heap w) → heap_ok h' | Fail _ => ¬ heap_ok (w_heap w) | Stuck => False end.
Proof.
  unfold malloc, in_heap, zoom. destruct (alloc (w_heap w)) as [b h'] eqn:Ha.
  destruct b; eexists _, h'; (split; [reflexivity|]); cbn; intros Hh; by destruct (alloc_heap_ok _ _ _ Ha Hh).
Qed.

Lemma with_buffer_spec m l w :
  writes m l → ∃ o h', with_buffer m w = (o, set_heap w h') ∧
  match o with
  | Ret r => r = l ∧ (heap_ok (w_heap w) → heap_ok h')
  | Fail _ => heap_ok (w_heap w) → SIZE_MAX < zlen l
  | Stuck => False
  end.
Proof.
  intros Hm. unfold with_buffer, in_heap, zoom. specialize (Hm (w_heap w) empty_buffer ltac:(done)).
  destruct (m (w_heap w, empty_buffer)) as [[u|e|] [h' b]]; [| |done]; eexists _, h'; (split; [reflexivity|]).
  - destruct Hm as (Hb & _ & Hh). by rewrite Hb.
  - exact Hm.
Qed.

Lemma length_packet_header magic n nonce :
  length magic = 8%nat → length nonce = 16%nat → length (packet_header magic n nonce) = 32%nat.
Proof. intros H1 H2. unfold packet_header. rewrite !length_app, H1, H2. done. Qed.

Lemma writes_two a b : writes (_ ← buffer_append a; buffer_append b) (a ++ b).
Proof. write_steps. Qed.

Lemma build_packet_spec storage magic payload w :
  ∃ o w', mp_cache_storage_build_packet storage magic payload w = (o, w') ∧ same_disk w w' ∧
  match o with
  | Ret (packet, mac) => zlen payload ≤ max_packet_bytes storage ∧ ∃ nonce, length nonce = 16%nat ∧
      packet = sealed storage magic nonce payload ∧ mac = sealed_mac storage magic nonce payload ∧
      (heap_ok (w_heap w) → heap_ok (w_heap w'))
  | Fail _ => True
  | Stuck => False
  end.
Proof.
  unfold mp_cache_storage_build_packet. case_decide as Hmax; [by eexists _, _|].
  unfold mbind at 1, STE_bind at 1, in_entropy, zoom.
  pose proof (random_bytes_length MP_CACHE_NONCE_SIZE (w_entropy w)) as Hr.
  destruct (mp_cache_random_bytes MP_CACHE_NONCE_SIZE (w_entropy w)) as [[nonce|e|] ent']; [| |done].
  2:{ by eexists _, _. }
  set (w1 := set_entropy w ent'). unfold mbind at 1, STE_bind at 1.
  destruct (malloc_spec w1) as (o1 & h1 & -> & Ho1). destruct o1; [|by eexists _, _|done].
  replace (if decide (payload = []) then [] else ec_xor (storage_key storage) nonce payload)
    with (ec_xor (storage_key storage) nonce payload).
  2:{ case_decide; [|done]. subst. apply length_zero_iff_nil. by rewrite ec_xor_length. }
  cbv zeta. unfold mbind at 1, STE_bind at 1.
  destruct (with_buffer_spec _ _ (set_heap w1 h1) (writes_two (packet_header magic (zlen payload) nonce)
    (ec_xor (storage_key storage) nonce payload))) as (o2 & h2 & -> & Ho2).
  destruct o2 as [mi|e|]; [|by eexists _, _|done]. destruct Ho2 as [-> Hh2].
  unfold mbind at 1, STE_bind at 1.
  destruct (with_buffer_spec _ _ (set_heap (set_heap w1 h1) h2) (writes_two
    (packet_header magic (zlen payload) nonce ++ sealed_mac storage magic nonce payload)
    (ec_xor (storage_key storage) nonce payload))) as (o3 & h3 & Hw3 & Ho3).
  unfold sealed_mac in Hw3. rewrite Hw3.
  destruct o3 as [pk|e|]; [|by eexists _, _|done]. destruct Ho3 as [-> Hh3].
  eexists _, _. split; [reflexivity|]. split; [done|]. split; [lia|]. exists nonce.
  unfold sealed. rewrite <-app_assoc. split; [done|]. split; [done|]. split; [done|].
  cbn in *. auto.
Qed.

Lemma length_sealed_mac storage magic nonce payload : length (sealed_mac storage magic nonce payload) = 32%nat.
Proof. apply ec_mac_length. Qed.

Lemma length_sealed storage magic nonce payload :
  length magic = 8%nat → length nonce = 16%nat →
  length (sealed storage magic nonce payload) = (64 + length payload)%nat.
Proof.
  intros. unfold sealed.
  rewrite !length_app, length_packet_header, length_sealed_mac, ec_xor_length by done. lia.
Qed.

(** The length field of the header, read back. *)
Lemma header_length_field magic n nonce (rest : bytes) :
  length magic = 8%nat → 0 ≤ n →
  let header := packet_header magic n nonce ++ rest in
  take 8 header = magic ∧ header !!! 11%nat = 1 ∧
  Z.lor (Z.lor (Z.lor (header !!! 12%nat ≪ 24) (header !!! 13%nat ≪ 16)) (header !!! 14%nat ≪ 8))
    (header !!! 15%nat) = u32 n.
Proof.
  intros Hm Hn header.
  assert (∀ i, (i < 8)%nat → header !!! (8 + i)%nat = ([0; 0; 0; 1] ++ be_bytes 4 n) !!! i) as Hat.
  { intros i Hi. unfold header, packet_header. rewrite <-!app_assoc.
    change (([0; 0; 0; 1] ++ [u8 (n ≫ 24); u8 (n ≫ 16); u8 (n ≫ 8); u8 n] ++ nonce ++ rest))
      with (([0; 0; 0; 1] ++ be_bytes 4 n) ++ nonce ++ rest).
    rewrite <-Hm. by apply lookup_total_middle. }
  split; [unfold header, packet_header; rewrite <-app_assoc; by apply take_app_length'|].
  split; [exact (Hat 3%nat ltac:(lia))|].
  change (header !!! 12%nat) with (header !!! (8 + 4)%nat). rewrite (Hat 4%nat) by lia.
  change (header !!! 13%nat) with (header !!! (8 + 5)%nat). rewrite (Hat 5%nat) by lia.
  change (header !!! 14%nat) with (header !!! (8 + 6)%nat). rewrite (Hat 6%nat) by lia.
  change (header !!! 15%nat) with (header !!! (8 + 7)%nat). rewrite (Hat 7%nat) by lia.
  change (([0; 0; 0; 1] ++ be_bytes 4 n) !!! 4%nat) with (u8 (n ≫ 24)).
  change (([0; 0; 0; 1] ++ be_bytes 4 n) !!! 5%nat) with (u8 (n ≫ 16)).
  change (([0; 0; 0; 1] ++ be_bytes 4 n) !!! 6%nat) with (u8 (n ≫ 8)).
  change (([0; 0; 0; 1] ++ be_bytes 4 n) !!! 7%nat) with (u8 (n ≫ 0)).
  pose proof (lor_bytes_be_value (u8 (n ≫ 24)) (u8 (n ≫ 16)) (u8 (n ≫ 8)) (u8 (n ≫ 0))) as Hl.
  rewrite !u32_small in Hl by (rewrite Z.shiftl_mul_pow2 by lia; pose proof (u8_range (n ≫ 24));
    pose proof (u8_range (n ≫ 16)); pose proof (u8_range (n ≫ 8)); lia).
  rewrite Hl by apply is_byte_u8.
  change [u8 (n ≫ 24); u8 (n ≫ 16); u8 (n ≫ 8); u8 (n ≫ 0)] with (be_bytes 4 n).
  by rewrite be_value_bytes.
Qed.

(** Reading a sealed packet back. *)
Lemma read_sealed storage magic nonce payload rest w :
  length magic = 8%nat → length nonce = 16%nat → heap_ok (w_heap w) →
  zlen payload ≤ max_packet_bytes storage → zlen payload < 2 ^ 32 →
  ∃ h', heap_ok h' ∧
    mp_cache_storage_read_packet_stream storage (sealed storage magic nonce payload ++ rest) magic w =
      (Ret (Some (payload, sealed_mac storage magic nonce payload, rest)), set_heap w h').
Proof.
  intros Hm Hn Hh Hmax H32. unfold mp_cache_storage_read_packet_stream, MP_CACHE_STORAGE_PACKET_HEADER_SIZE.
  pose proof (length_sealed storage magic nonce payload Hm Hn) as Hlen.
  rewrite decide_False by (intros Heq; apply (f_equal length) in Heq; rewrite length_app in Heq; cbn in Heq; lia).
  rewrite decide_False by (rewrite length_app; lia).
  set (h32 := packet_header magic (zlen payload) nonce).
  set (mac := sealed_mac storage magic nonce payload).
  set (cipher := ec_xor (storage_key storage) nonce payload).
  assert (length h32 = 32%nat) as Hh32 by by apply length_packet_header.
  assert (length mac = 32%nat) as Hmac by apply length_sealed_mac.
  assert (length cipher = length payload) as Hc by apply ec_xor_length.
  replace (sealed storage magic nonce payload ++ rest) with ((h32 ++ mac) ++ cipher ++ rest)
    by (unfold sealed; by rewrite <-!app_assoc).
  rewrite take_app_length', drop_app_length' by (rewrite length_app; lia). cbv zeta.
  destruct (header_length_field magic (zlen payload) nonce mac Hm (zlen_nonneg payload)) as (E1 & E2 & E3).
  fold h32 in E1, E2, E3. rewrite E1, E2, E3.
  rewrite u32_small by (split; [apply zlen_nonneg|done]).
  rewrite decide_False by tauto. rewrite decide_False by lia.
  unfold mbind at 1, STE_bind at 1. destruct (malloc_spec w) as (o1 & h1 & -> & Ho1).
  destruct o1; [|done|done]. specialize (Ho1 Hh).
  rewrite decide_False by (rewrite zlen_app; unfold zlen; pose proof (zlen_nonneg rest); unfold zlen in *; lia).
  replace (Z.to_nat (zlen payload)) with (length cipher) by (unfold zlen; lia).
  rewrite take_app_length, drop_app_length.
  rewrite take_app_length', drop_app_length' by done.
  unfold mbind at 1, STE_bind at 1.
  destruct (with_buffer_spec _ _ (set_heap w h1) (writes_two h32 cipher)) as (o2 & h2 & -> & Ho2).
  destruct o2 as [mi|e|]; [| |done].
  2:{ specialize (Ho2 Ho1). rewrite zlen_app in Ho2. unfold SIZE_MAX, zlen in *. lia. }
  destruct Ho2 as [-> Hh2].
  rewrite ec_equals_spec; [|apply ec_mac_wf|apply ec_mac_wf|by rewrite ec_mac_length|by rewrite Hmac].
  rewrite bool_decide_true by done. exists h2. split; [by apply Hh2|].
  replace (take 16 (drop 16 (h32 ++ mac))) with nonce.
  - unfold cipher. by rewrite ec_xor_involutive.
  - unfold h32, packet_header. rewrite !app_assoc, <-(app_assoc _ nonce mac).
    rewrite drop_app_length' by (rewrite !length_app, Hm; done). by rewrite take_app_length'.
Qed.

(** Whatever is accepted carries the MAC of its header and ciphertext. *)
Lemma read_packet_authentic storage file magic w payload mac rest w' :
  bytes_wf file →
  mp_cache_storage_read_packet_stream storage file magic w = (Ret (Some (payload, mac, rest)), w') →
  ∃ h32 cipher, file = h32 ++ mac ++ cipher ++ rest ∧ length h32 = 32%nat ∧ length mac = 32%nat ∧
    take 8 h32 = magic ∧ mac = ec_mac (storage_key storage) (h32 ++ cipher) ∧
    payload = ec_xor (storage_key storage) (drop 16 h32) cipher ∧
    zlen payload ≤ max_packet_bytes storage.
Proof.
  intros Hwf. unfold mp_cache_storage_read_packet_stream, MP_CACHE_STORAGE_PACKET_HEADER_SIZE, MP_CACHE_STORAGE_HEADER_MAC_OFFSET.
  case_decide; [done|]. case_decide as Hlen; [done|].
  set (header := take 64 file). set (tl := drop 64 file). cbv zeta.
  assert (length header = 64%nat) as Hh by (unfold header; rewrite length_take; lia).
  case_decide as Hmagic; [done|]. apply Decidable.not_or in Hmagic as [Hmagic _].
  apply dec_stable in Hmagic.
  set (n := Z.lor _ (header !!! 15%nat)).
  assert (0 ≤ n) as Hn0.
  { assert (∀ i, 0 ≤ header !!! i) as Hb by (intros i; apply payload_byte, Forall_take, Hwf).
    unfold n. rewrite !Z.lor_nonneg, !Z.shiftl_nonneg. auto. }
  case_decide as Hmax; [done|].
  unfold mbind at 1, STE_bind at 1. destruct (malloc_spec w) as (o1 & h1 & -> & _).
  destruct o1; [|done|done]. case_decide as Hshort; [done|].
  unfold mbind at 1, STE_bind at 1.
  destruct (with_buffer_spec _ _ (set_heap w h1) (writes_two (take 32 header) (take (Z.to_nat n) tl)))
    as (o2 & h2 & -> & Ho2). destruct o2 as [mi|e|]; [|done|done]. destruct Ho2 as [-> _].
  assert (length (drop 32 header) = 32%nat) as Hmac by (rewrite length_drop; lia).
  rewrite ec_equals_spec; [|apply ec_mac_wf|by apply Forall_drop, Forall_take|by rewrite ec_mac_length|by rewrite Hmac].
  case_bool_decide as Heq; [|done]. intros [= <- <- <- _].
  rewrite (take_ge (ec_mac _ _)) in Heq by by rewrite ec_mac_length.
  rewrite (take_ge (drop 32 header)) in Heq by by rewrite Hmac.
  exists (take 32 header), (take (Z.to_nat n) tl).
  split. { rewrite (app_assoc (take 32 header)), take_drop. rewrite take_drop. unfold header, tl. by rewrite take_drop. }
  split; [rewrite length_take; lia|]. split; [done|].
  split; [rewrite take_take; by replace (8 `min` 32)%nat with 8%nat by lia|]. split; [done|].
  split; [|unfold zlen; rewrite ec_xor_length, length_take; unfold zlen in *; lia].
  f_equal. rewrite take_drop_commute. done.
Qed.

(** A torn packet is detected: no proper, non-empty prefix is accepted or
    taken for the end of the stream. *)
Lemma read_torn storage magic nonce payload k w :
  length magic = 8%nat → length nonce = 16%nat → zlen payload < 2 ^ 32 →
  (0 < k < length (sealed storage magic nonce payload))%nat →
  ∃ e w', mp_cache_storage_read_packet_stream storage (take k (sealed storage magic nonce payload)) magic w =
    (Fail e, w').
Proof.
  intros Hm Hn H32 Hk. pose proof (length_sealed storage magic nonce payload Hm Hn) as Hlen.
  unfold mp_cache_storage_read_packet_stream, MP_CACHE_STORAGE_PACKET_HEADER_SIZE.
  rewrite decide_False by (intros Heq; apply (f_equal length) in Heq; rewrite length_take in Heq; cbn in Heq; lia).
  case_decide as Hshort; [by eexists _, _|]. rewrite length_take in Hshort. cbv zeta.
  set (h32 := packet_header magic (zlen payload) nonce).
  set (mac := sealed_mac storage magic nonce payload).
  assert (take 64 (take k (sealed storage magic nonce payload)) = h32 ++ mac) as ->.
  { rewrite take_take. replace (64 `min` k)%nat with 64%nat by lia. unfold sealed. rewrite app_assoc.
    apply take_app_length'. unfold h32, mac.
    by rewrite length_app, length_packet_header, length_sealed_mac. }
  destruct (header_length_field magic (zlen payload) nonce mac Hm (zlen_nonneg payload)) as (E1 & E2 & E3).
  fold h32 in E1, E2, E3. rewrite E1, E2, E3. rewrite u32_small by (split; [apply zlen_nonneg|done]).
  rewrite decide_False by tauto. case_decide; [by eexists _, _|].
  unfold mbind at 1, STE_bind at 1. destruct (malloc_spec w) as (o1 & h1 & -> & Ho1).
  destruct o1; [|by eexists _, _|done]. rewrite decide_True; [by eexists _, _|].
  unfold zlen. rewrite length_drop, length_take. lia.
Qed.

(** ** Files *)

Lemma in_disk_eq {A} (m : STE disk A) w o d : m (w_disk w) = (o, d) → in_disk m w = (o, set_disk w d).
Proof. intros Hm. unfold in_disk, zoom. by rewrite Hm. Qed.

Lemma attempt_eq {S A} (m : STE S A) s o s' : m s = (o, s') → attempt m s = (Ret o, s').
Proof. intros Hm. unfold attempt. by rewrite Hm. Qed.

(** What an append leaves in the journal file: the old content with the whole
    packet after it, or, on failure, with some prefix of a packet. *)
Lemma append_packet_spec storage path magic payload w :
  ∃ o w', mp_cache_storage_append_packet storage path magic payload w = (o, w') ∧
  files_agree [path] (w_disk w) (w_disk w') ∧ w_pid w' = w_pid w ∧ w_time w' = w_time w ∧
  match o with
  | Ret _ => zlen payload ≤ max_packet_bytes storage ∧ ∃ nonce, length nonce = 16%nat ∧
      file_at (w_disk w') path =
        Some (default [] (file_at (w_disk w) path) ++ sealed storage magic nonce payload) ∧
      (heap_ok (w_heap w) → heap_ok (w_heap w'))
  | _ => file_at (w_disk w') path = file_at (w_disk w) path ∨
      ∃ nonce k, length nonce = 16%nat ∧ file_at (w_disk w') path =
        Some (default [] (file_at (w_disk w) path) ++ take k (sealed storage magic nonce payload))
  end.
Proof.
  unfold mp_cache_storage_append_packet. unfold mbind at 1, STE_bind at 1.
  destruct (ensure_parent_spec path (w_disk w)) as (o1 & d1 & He & Hns & Ha1).
  rewrite (in_disk_eq _ _ _ _ He). destruct o1 as [[]|e|]; [| |done].
  2:{ eexists _, _. split; [reflexivity|]. split; [by eapply files_agree_weaken; [|exact Ha1]; intros ? ?%not_elem_of_nil|].
      split; [done|]. split; [done|]. left. by apply Ha1; apply not_elem_of_nil. }
  unfold mbind at 1, STE_bind at 1.
  destruct (build_packet_spec storage magic payload (set_disk w d1)) as (o2 & w2 & -> & (Hd2 & Hp2 & Ht2) & Ho2).
  cbn in Hd2, Hp2, Ht2.
  assert (files_agree [] (w_disk w) (w_disk w2)) as Ha2 by by rewrite Hd2.
  assert (∀ p, file_at (w_disk w2) p = file_at (w_disk w) p) as Hfa by (intros p; apply Ha2, not_elem_of_nil).
  destruct o2 as [[packet mac]|e|]; [| |done].
  2:{ eexists _, _. split; [reflexivity|]. split; [intros p _; apply Hfa|]. auto. }
  destruct Ho2 as (Hmax & nonce & Hn & -> & -> & Hh2).
  unfold mbind at 1, STE_bind at 1.
  destruct (fopen_write_spec path true (w_disk w2)) as (o3 & d3 & Hf3 & Ho3).
  rewrite (in_disk_eq _ _ _ _ Hf3). destruct o3 as [old|e|]; [| |done].
  2:{ eexists _, _. split; [reflexivity|]. split; [intros p _; cbn; rewrite <-Hfa; unfold file_at; by rewrite Ho3|].
      split; [done|]. split; [done|]. left. cbn. rewrite <-Hfa. unfold file_at. by rewrite Ho3. }
  destruct Ho3 as (-> & Hold & Ha3). rewrite Hfa in *.
  unfold mbind at 1, STE_bind at 1.
  destruct (fwrite_flush_spec path _ (sealed storage magic nonce payload) d3 Hold) as (o4 & d4 & Hf4 & Ha4 & Ho4).
  rewrite (attempt_eq _ _ _ _ (in_disk_eq _ (set_disk w2 d3) _ _ Hf4)).
  assert (files_agree [path] (w_disk w) d4) as Hagree.
  { etrans; [|exact Ha4]. intros p Hp. rewrite Ha3 by done. apply Hfa. }
  destruct (fclose_spec d4) as (o5 & d5 & Hf5 & Hns5 & Hn5).
  assert (files_agree [path] (w_disk w) d5) as Hagree5.
  { etrans; [exact Hagree|]. by apply same_nodes_agree. }
  assert (∀ p, file_at d5 p = file_at d4 p) as Hfa5 by (intros p; unfold file_at; by rewrite Hn5).
  destruct o4 as [[]|e|]; [| |done]; unfold mbind at 1, STE_bind at 1;
    rewrite (attempt_eq _ _ _ _ (in_disk_eq _ (set_disk (set_disk w2 d3) d4) _ _ Hf5)).
  - destruct o5 as [[]|e|]; [| |done]; eexists _, _; (split; [reflexivity|]); cbn;
      (split; [done|split; [done|split; [done|]]]); rewrite Hfa5, Ho4.
    + split; [done|]. by exists nonce.
    + right. exists nonce, (length (sealed storage magic nonce payload)). by rewrite take_ge.
  - destruct Ho4 as [k Hk]. eexists _, _; (split; [reflexivity|]); cbn;
      (split; [done|split; [done|split; [done|]]]). right. exists nonce, k. by rewrite Hfa5.
Qed.

Definition temp_path_of (path : bytes) (pid : Z) : bytes := path ++ cstr ".tmp." ++ dec pid.

Lemma temp_path_ne path pid : temp_path_of path pid ≠ path.
Proof.
  intros Heq. apply (f_equal length) in Heq. unfold temp_path_of in Heq. rewrite !length_app in Heq.
  cbn in Heq. lia.
Qed.

Lemma fa_same_nodes d d' p : disk_nodes d' = disk_nodes d → file_at d' p = file_at d p.
Proof. intros Hn. unfold file_at. by rewrite Hn. Qed.

(** All of the new content or none of it: the target is replaced by one rename
    of a complete file. *)
Lemma commit_temp_spec temp path packet mac w :
  temp ≠ path → file_at (w_disk w) temp = Some [] →
  ∃ o w', commit_temp temp path packet mac [] w = (o, w') ∧
  files_agree [temp; path] (w_disk w) (w_disk w') ∧ w_heap w' = w_heap w ∧ w_pid w' = w_pid w ∧
  match o with
  | Ret m => m = mac ∧ file_at (w_disk w') path = Some packet
  | _ => file_at (w_disk w') path = file_at (w_disk w) path
  end.
Proof.
  intros Hne Hold. unfold commit_temp. unfold mbind at 1, STE_bind at 1.
  destruct (fwrite_flush_spec temp [] packet (w_disk w) Hold) as (o1 & d1 & H1 & Ha1 & Ho1).
  rewrite (attempt_eq _ _ _ _ (in_disk_eq _ w _ _ H1)).
  assert (file_at d1 path = file_at (w_disk w) path) as Hp1.
  { apply Ha1. by intros ->%list_elem_of_singleton. }
  assert (files_agree [temp; path] (w_disk w) d1) as Hag1.
  { eapply files_agree_weaken; [|exact Ha1]. intros p. rewrite list_elem_of_singleton. intros ->. constructor. }
  destruct (fclose_spec d1) as (o2 & d2 & H2 & Hns2 & Hn2).
  assert (files_agree [temp; path] (w_disk w) d2) as Hag2 by (etrans; [exact Hag1|by apply same_nodes_agree]).
  assert (file_at d2 path = file_at (w_disk w) path) as Hp2 by by rewrite (fa_same_nodes d1).
  destruct o1 as [[]|e|]; [| |done]; unfold mbind at 1, STE_bind at 1;
    rewrite (attempt_eq _ _ _ _ (in_disk_eq _ (set_disk w d1) _ _ H2)).
  - destruct o2 as [[]|e|]; [| |done].
    2:{ by eexists _, _. }
    unfold mbind at 1, STE_bind at 1.
    destruct (rename_spec temp path d2 packet) as (o3 & d3 & H3 & Ho3);
      [by rewrite (fa_same_nodes d1)|done|].
    rewrite (attempt_eq _ _ _ _ (in_disk_eq _ (set_disk (set_disk w d1) d2) _ _ H3)).
    destruct o3 as [[]|e|]; [| |done]; eexists _, _; (split; [reflexivity|]).
    + destruct Ho3 as (Ha3 & Hto & _). split; [by etrans|]. done.
    + split; [etrans; [exact Hag2|by apply same_nodes_agree]|]. cbn. by rewrite (fa_same_nodes d2).
  - unfold mbind at 1, STE_bind at 1.
    destruct (unlink_spec temp d2) as (o3 & d3 & H3 & Ha3 & _).
    rewrite (attempt_eq _ _ _ _ (in_disk_eq _ (set_disk (set_disk w d1) d2) _ _ H3)).
    eexists _, _; (split; [reflexivity|]). split; [etrans; [exact Hag2|]|].
    + eapply files_agree_weaken; [|exact Ha3]. intros p. rewrite list_elem_of_singleton. intros ->. constructor.
    + cbn. split; [done|]. split; [done|]. rewrite Ha3; [done|]. by intros ->%list_elem_of_singleton.
Qed.

Lemma write_packet_file_spec storage path magic payload w :
  ∃ o w', mp_cache_storage_write_packet_file storage path magic payload w = (o, w') ∧
  files_agree [temp_path_of path (w_pid w); path] (w_disk w) (w_disk w') ∧
  w_pid w' = w_pid w ∧
  match o with
  | Ret mac => zlen payload ≤ max_packet_bytes storage ∧ ∃ nonce, length nonce = 16%nat ∧
      mac = sealed_mac storage magic nonce payload ∧
      file_at (w_disk w') path = Some (sealed storage magic nonce payload) ∧
      (heap_ok (w_heap w) → heap_ok (w_heap w'))
  | _ => file_at (w_disk w') path = file_at (w_disk w) path
  end.
Proof.
  unfold mp_cache_storage_write_packet_file. unfold mbind at 1, STE_bind at 1.
  destruct (ensure_parent_spec path (w_disk w)) as (o1 & d1 & He & Hns & Ha1).
  rewrite (in_disk_eq _ _ _ _ He).
  assert (∀ p, file_at d1 p = file_at (w_disk w) p) as Hfa1 by (intros p; apply Ha1, not_elem_of_nil).
  destruct o1 as [[]|e|]; [| |done].
  2:{ eexists _, _. split; [reflexivity|]. split; [intros p _; apply Hfa1|]. split; [done|]. apply Hfa1. }
  unfold mbind at 1, STE_bind at 1, getpid at 1. cbn [w_pid set_disk]. unfold mbind at 1, STE_bind at 1, lift at 1.
  unfold mp_cache_storage_format_path. fold (temp_path_of path (w_pid w)).
  rewrite decide_False by done.
  case_decide as Hlong.
  { eexists _, _. split; [reflexivity|]. split; [intros p _; apply Hfa1|]. split; [done|]. apply Hfa1. }
  unfold mbind at 1, STE_bind at 1.
  destruct (build_packet_spec storage magic payload (set_disk w d1)) as (o2 & w2 & -> & (Hd2 & Hp2 & Ht2) & Ho2).
  cbn in Hd2, Hp2, Ht2.
  assert (∀ p, file_at (w_disk w2) p = file_at (w_disk w) p) as Hfa2 by (intros p; by rewrite Hd2).
  destruct o2 as [[packet mac]|e|]; [| |done].
  2:{ eexists _, _. split; [reflexivity|]. split; [intros p _; apply Hfa2|]. split; [done|]. apply Hfa2. }
  destruct Ho2 as (Hmax & nonce & Hn & -> & -> & Hh2).
  unfold mbind at 1, STE_bind at 1.
  destruct (fopen_write_spec (temp_path_of path (w_pid w)) false (w_disk w2)) as (o3 & d3 & Hf3 & Ho3).
  rewrite (in_disk_eq _ _ _ _ Hf3). destruct o3 as [old|e|]; [| |done].
  2:{ eexists _, _. split; [reflexivity|]. split; [intros p _; cbn; by rewrite (fa_same_nodes (w_disk w2))|].
      split; [done|]. cbn. by rewrite (fa_same_nodes (w_disk w2)). }
  destruct Ho3 as (-> & Hold & Ha3).
  pose proof (temp_path_ne path (w_pid w)) as Hne.
  destruct (commit_temp_spec (temp_path_of path (w_pid w)) path (sealed storage magic nonce payload)
    (sealed_mac storage magic nonce payload) (set_disk w2 d3) Hne Hold) as (o4 & w4 & Hc & Ha4 & Hh4 & Hp4 & Ho4).
  rewrite Hc. exists o4, w4. split; [done|]. split; [|split; [by rewrite Hp4|]].
  - etrans; [|exact Ha4]. intros p Hp. cbn. rewrite Ha3; [apply Hfa2|].
    rewrite !not_elem_of_cons in Hp. intros ->%list_elem_of_singleton. tauto.
  - assert (file_at d3 path = file_at (w_disk w) path) as Hp3.
    { rewrite Ha3; [apply Hfa2|]. intros Heq%list_elem_of_singleton. congruence. }
    cbn in Ho4. destruct o4 as [m|e|]; [|by rewrite Ho4|by rewrite Ho4].
    destruct Ho4 as [-> Hpath]. split; [done|]. exists nonce. split; [done|]. split; [done|]. split; [done|].
    rewrite Hh4. cbn in *. auto.
Qed.

(** ** Checkpoint, journal and what they persist *)

(** The two paths the service writes are distinct, and the temporary file of
    the checkpoint is not the journal. *)
Definition paths_ok (storage : mp_cache_storage_t) (pid : Z) : Prop :=
  st_checkpoint_path storage ≠ st_journal_path storage ∧
  temp_path_of (st_checkpoint_path storage) pid ≠ st_journal_path storage ∧
  st_journal_path storage ≠ [].

Lemma remove_if_exists_spec path d :
  path ≠ [] →
  ∃ o d', mp_cache_fs_remove_path_if_exists (Some path) d = (o, d') ∧ files_agree [path] d d' ∧
  match o with
  | Ret _ => disk_nodes d' !! path = None
  | Fail _ => disk_nodes d' = disk_nodes d
  | Stuck => False
  end.
Proof.
  intros Hne. unfold mp_cache_fs_remove_path_if_exists. destruct path as [|c path]; [done|].
  unfold mbind, STE_bind. destruct (unlink_spec (c :: path) d) as (o & d1 & Hu & Ha & Ho).
  rewrite (attempt_eq _ _ _ _ Hu). destruct o as [[]|e|]; [| |done].
  - by eexists _, _.
  - destruct Ho as [Hn Hex]. destruct e; eexists _, _; (split; [reflexivity|]); (split; [done|]); try done.
    rewrite Hn. by apply Hex.
Qed.

Lemma checkpoint_spec storage store security now w :
  store_wf store → paths_ok storage (w_pid w) →
  let payload := enc_state (filter (live now) (entries store)) (records security) now in
  ∃ o w', mp_cache_storage_checkpoint storage store security now w = (o, w') ∧ w_pid w' = w_pid w ∧
  (file_at (w_disk w') (st_checkpoint_path storage) = file_at (w_disk w) (st_checkpoint_path storage) ∧
   file_at (w_disk w') (st_journal_path storage) = file_at (w_disk w) (st_journal_path storage) ∧ o ≠ Ret tt ∨
   ∃ nonce, length nonce = 16%nat ∧ zlen payload ≤ max_packet_bytes storage ∧
     file_at (w_disk w') (st_checkpoint_path storage) =
       Some (sealed storage MP_CACHE_STORAGE_STATE_MAGIC nonce payload) ∧
     (o ≠ Ret tt → file_at (w_disk w') (st_journal_path storage) = file_at (w_disk w) (st_journal_path storage)) ∧
     (o = Ret tt → disk_nodes (w_disk w') !! st_journal_path storage = None) ∧
     (heap_ok (w_heap w) → heap_ok (w_heap w'))).
Proof.
  intros Hst (Hp1 & Hp2 & Hp3) payload. unfold mp_cache_storage_checkpoint.
  unfold mbind at 1, STE_bind at 1.
  destruct (with_buffer_spec _ _ w (writes_state store security now Hst)) as (o1 & h1 & -> & Ho1).
  destruct o1 as [pl|e|]; [| |done]; [|by eexists _, _; split; [reflexivity|]; split; [done|]; left].
  destruct Ho1 as [-> Hh1]. fold payload. unfold mbind at 1, STE_bind at 1.
  destruct (write_packet_file_spec storage (st_checkpoint_path storage) MP_CACHE_STORAGE_STATE_MAGIC payload
    (set_heap w h1)) as (o2 & w2 & -> & Ha2 & Hpid2 & Ho2). cbn in Ha2, Hpid2.
  assert (file_at (w_disk w2) (st_journal_path storage) = file_at (w_disk w) (st_journal_path storage)) as Hj2.
  { apply Ha2. rewrite !not_elem_of_cons. split; [congruence|]. split; [congruence|apply not_elem_of_nil]. }
  destruct o2 as [mac|e|]; [|by eexists _, _; split; [reflexivity|]; split; [done|]; left|
    by eexists _, _; split; [reflexivity|]; split; [done|]; left].
  destruct Ho2 as (Hmax & nonce & Hn & _ & Hck & Hh2).
  destruct (remove_if_exists_spec (st_journal_path storage) (w_disk w2) Hp3)
    as (o3 & d3 & Hr & Ha3 & Hcase).
  rewrite (in_disk_eq _ _ _ _ Hr). exists o3, (set_disk w2 d3). split; [done|]. split; [done|]. right.
  exists nonce. split; [done|]. split; [done|]. cbn. split.
  { rewrite Ha3; [done|]. by intros Heq%list_elem_of_singleton. }
  rewrite <-Hj2. split; [|split; [|cbn in *; auto]].
  - intros Hno. destruct o3 as [[]|e|]; [done|by apply fa_same_nodes|done].
  - by intros ->.
Qed.

(** The journal holds the sealed payloads of [js], with the nonces and time
    stamps they were written with. *)
Definition journal_bytes (storage : mp_cache_storage_t) (js : list (bytes * Z * journal_entry)) : bytes :=
  mjoin ((fun x => sealed storage MP_CACHE_STORAGE_JOURNAL_MAGIC x.1.1 (enc_journal x.1.2 x.2)) <$> js).

Definition js_ok (storage : mp_cache_storage_t) (js : list (bytes * Z * journal_entry)) : Prop :=
  Forall (fun x => length x.1.1 = 16%nat ∧ journal_ok x.2 ∧
    zlen (enc_journal x.1.2 x.2) ≤ max_packet_bytes storage ∧ zlen (enc_journal x.1.2 x.2) < 2 ^ 32) js.

(** The journal file holds the operations [js]. *)
Definition journal_holds (storage : mp_cache_storage_t) (js : list journal_entry) (d : disk) : Prop :=
  ∃ xs, js_ok storage xs ∧ xs.*2 = js ∧
    (file_at d (st_journal_path storage) = Some (journal_bytes storage xs) ∨
     disk_nodes d !! st_journal_path storage = None ∧ xs = []).

(** What is on disk: a checkpoint of [store] and [security] taken at [now],
    and a journal of the operations [js]. *)
Definition persisted (storage : mp_cache_storage_t) (store : mp_cache_store_t) (security : mp_cache_security_t)
    (now : Z) (js : list journal_entry) (d : disk) : Prop :=
  (∃ nonce, length nonce = 16%nat ∧
     let payload := enc_state (filter (live now) (entries store)) (records security) now in
     zlen payload ≤ max_packet_bytes storage ∧
     file_at d (st_checkpoint_path storage) = Some (sealed storage MP_CACHE_STORAGE_STATE_MAGIC nonce payload)) ∧
  journal_holds storage js d.

Lemma journal_bytes_app storage xs ys :
  journal_bytes storage (xs ++ ys) = journal_bytes storage xs ++ journal_bytes storage ys.
Proof. unfold journal_bytes. by rewrite fmap_app, join_app. Qed.

Lemma append_entry_spec storage j w :
  journal_ok j →
  ∃ o w', append_entry storage j w = (o, w') ∧ w_pid w' = w_pid w ∧
  files_agree [st_journal_path storage] (w_disk w) (w_disk w') ∧
  match o with
  | Ret _ => ∃ nonce, length nonce = 16%nat ∧
      zlen (enc_journal (w_time w) j) ≤ max_packet_bytes storage ∧
      file_at (w_disk w') (st_journal_path storage) =
        Some (default [] (file_at (w_disk w) (st_journal_path storage)) ++
              sealed storage MP_CACHE_STORAGE_JOURNAL_MAGIC nonce (enc_journal (w_time w) j)) ∧
      (heap_ok (w_heap w) → heap_ok (w_heap w'))
  | _ => file_at (w_disk w') (st_journal_path storage) = file_at (w_disk w) (st_journal_path storage) ∨
      ∃ nonce k, length nonce = 16%nat ∧ file_at (w_disk w') (st_journal_path storage) =
        Some (default [] (file_at (w_disk w) (st_journal_path storage)) ++
              take k (sealed storage MP_CACHE_STORAGE_JOURNAL_MAGIC nonce (enc_journal (w_time w) j)))
  end.
Proof.
  intros Hj. unfold append_entry. unfold mbind at 1, STE_bind at 1, time_now at 1.
  unfold mbind at 1, STE_bind at 1.
  destruct (with_buffer_spec _ _ w (writes_journal (w_time w) j Hj)) as (o1 & h1 & -> & Ho1).
  destruct o1 as [pl|e|]; [| |done]; [|by eexists _, _; split; [reflexivity|]; split; [done|]; split; [|left]].
  destruct Ho1 as [-> Hh1].
  destruct (append_packet_spec storage (st_journal_path storage) MP_CACHE_STORAGE_JOURNAL_MAGIC
    (enc_journal (w_time w) j) (set_heap w h1)) as (o2 & w2 & -> & Ha & Hp & _ & Ho). cbn in *.
  exists o2, w2. split; [done|]. split; [done|]. split; [done|]. destruct o2 as [[]|e|]; [|done|done].
  destruct Ho as (? & nonce & ? & ? & Hh). exists nonce. split; [done|]. split; [done|]. split; [done|]. auto.
Qed.

(** ** Loading *)

(** The abstract meaning of a journal: the operations in order, [None] when
    one of them is refused. *)
Section Replay.
Context (memory max_key max_value now : Z).

Definition replay_step (st : gmap bytes (bytes * Z) * list mp_cache_client_record_t) (j : journal_entry)
    : option (gmap bytes (bytes * Z) * list mp_cache_client_record_t) :=
  let '(m, rs) := st in
  match j with
  | JSet key value exp =>
    if decide (now < exp) then
      if decide (0 < zlen key ≤ max_key ∧ zlen value ≤ max_value ∧
                 map_cost (<[key := (value, 0)]> m) ≤ memory)
      then Some (<[key := (value, exp)]> m, rs) else None
    else Some (m, rs)
  | JDelete key => Some (delete key m, rs)
  | JClient r =>
    if decide (zlen rs = MP_CACHE_MAX_CLIENTS ∧ client_id r ∉ (client_id <$> rs)) then None
    else Some (m, upsert_record r rs)
  | JPurgeAll => Some (∅, rs)
  end.

Fixpoint replay_list (st : gmap bytes (bytes * Z) * list mp_cache_client_record_t) (js : list journal_entry)
    : option (gmap bytes (bytes * Z) * list mp_cache_client_record_t) :=
  match js with
  | [] => Some st
  | j :: js' => replay_step st j ≫= fun st' => replay_list st' js'
  end.
End Replay.

Lemma replay_effect_step now j store rs :
  replay_effect now j store rs =
  replay_step (store_memory_limit store) (store_max_key store) (store_max_value store) now (store_map store, rs) j.
Proof. by destruct j. Qed.

Definition server_image (s : server) : image := Image (sv_store s) (sv_security s) (w_heap (sv_world s)).

(** The well-formed servers on which no allocation fails. *)
Definition server_ok (s : server) : Prop := image_wf (server_image s) ∧ heap_ok (w_heap (sv_world s)).

Lemma in_image_eq {A} (m : STE image A) s o l :
  m (server_image s) = (o, l) →
  in_image m s = (o, Server (set_heap (sv_world s) (img_heap l)) (img_store l) (img_security l)).
Proof. intros Hm. unfold in_image. fold (server_image s). by rewrite Hm. Qed.

Lemma in_world_eq {A} (m : STE world A) s o w : m (sv_world s) = (o, w) → in_world m s = (o, set_world s w).
Proof. intros Hm. unfold in_world, zoom. by rewrite Hm. Qed.

(** Replaying the packets of [xs] leaves the rest of the stream to replay. *)
Lemma replay_journal_app fuel storage xs tail now s :
  js_ok storage xs → (length (journal_bytes storage xs ++ tail) < fuel)%nat → server_ok s → 0 ≤ now →
  match replay_list (store_memory_limit (sv_store s)) (store_max_key (sv_store s)) (store_max_value (sv_store s))
          now (store_map (sv_store s), records (sv_security s)) xs.*2 with
  | Some (m, rs) => ∃ fuel' s', (length tail < fuel')%nat ∧
      replay_journal fuel storage (journal_bytes storage xs ++ tail) now s =
        replay_journal fuel' storage tail now s' ∧
      server_ok s' ∧ store_map (sv_store s') = m ∧ records (sv_security s') = rs
  | None => ∃ e s', replay_journal fuel storage (journal_bytes storage xs ++ tail) now s = (Fail e, s')
  end.
Proof.
  intros Hxs. revert fuel s. induction Hxs as [|[[nonce stamp] j] xs (Hn & Hj & Hmax & H32) Hxs IH];
    intros fuel s Hfuel [Hwf Hh] Hnow.
  { by exists fuel, s. }
  destruct fuel as [|fuel]; [lia|]. cbn [fmap list_fmap snd fst] in *. cbn [replay_list].
  unfold journal_bytes in Hfuel |- *. rewrite fmap_cons, mjoin_cons, <-app_assoc in Hfuel |- *. cbn [fst snd] in *.
  fold (journal_bytes storage xs) in Hfuel |- *. rewrite length_app in Hfuel.
  pose proof (length_sealed storage MP_CACHE_STORAGE_JOURNAL_MAGIC nonce (enc_journal stamp j) eq_refl Hn) as Hls.
  destruct (read_sealed storage MP_CACHE_STORAGE_JOURNAL_MAGIC nonce (enc_journal stamp j)
    (journal_bytes storage xs ++ tail) (sv_world s) eq_refl Hn Hh Hmax H32) as (h1 & Hh1 & Hread).
  set (s1 := set_world s (set_heap (sv_world s) h1)).
  cbn [replay_journal]. rewrite (bind_ret _ _ _ _ _ (in_world_eq _ _ _ _ Hread)). fold s1.
  assert (image_wf (server_image s1)) as Hwf1 by (by destruct Hwf).
  pose proof (replay_entry_effect now j (server_image s1) Hj Hwf1 Hh1 Hnow) as Hr.
  rewrite replay_effect_step in Hr. cbn [server_image img_store img_security s1 sv_store sv_security set_world] in Hr.
  rewrite <-(apply_enc_journal stamp) in Hr by done.
  destruct (replay_step _ _ _ _ _ _) as [[m1 rs1]|]; cbn [mbind option_bind].
  - destruct Hr as (l' & Hrun & Hwf' & Hm & Hrs & Hh' & (Hl1 & Hl2 & Hl3 & Hl4)).
    rewrite (bind_ret _ _ _ _ _ (in_image_eq _ s1 _ _ Hrun)).
    specialize (IH fuel (Server (set_heap (sv_world s1) (img_heap l')) (img_store l') (img_security l'))).
    cbn [sv_store sv_security] in IH. rewrite Hm, Hrs, <-Hl2, <-Hl3, <-Hl4 in IH.
    apply IH; [lia| |done]. split; [|done]. by destruct Hwf'.
  - destruct Hr as (e & l' & Hrun & _).
    rewrite (bind_fail _ _ _ _ _ (in_image_eq _ s1 _ _ Hrun)). by eexists _, _.
Qed.

Lemma replay_journal_spec storage xs now s :
  js_ok storage xs → server_ok s → 0 ≤ now →
  match replay_list (store_memory_limit (sv_store s)) (store_max_key (sv_store s)) (store_max_value (sv_store s))
          now (store_map (sv_store s), records (sv_security s)) xs.*2 with
  | Some (m, rs) => ∃ s',
      replay_journal (S (length (journal_bytes storage xs))) storage (journal_bytes storage xs) now s = (Ret tt, s') ∧
      server_ok s' ∧ store_map (sv_store s') = m ∧ records (sv_security s') = rs
  | None => ∃ e s',
      replay_journal (S (length (journal_bytes storage xs))) storage (journal_bytes storage xs) now s = (Fail e, s')
  end.
Proof.
  intros Hxs Hs Hnow.
  pose proof (replay_journal_app (S (length (journal_bytes storage xs))) storage xs [] now s Hxs) as Hr.
  rewrite app_nil_r in Hr. specialize (Hr ltac:(lia) Hs Hnow).
  destruct (replay_list _ _ _ _ _ _) as [[m rs]|]; [|done].
  destruct Hr as (fuel & s' & Hf & -> & Hs' & ?). destruct fuel as [|fuel]; [cbn in Hf; lia|].
  cbn. unfold mbind, STE_bind. eexists. split; [reflexivity|]. by destruct s'.
Qed.

(** A successful checkpoint persists the service with an empty journal. *)
Lemma checkpoint_persists storage store security now w w' :
  store_wf store → paths_ok storage (w_pid w) →
  mp_cache_storage_checkpoint storage store security now w = (Ret tt, w') →
  persisted storage store security now [] (w_disk w') ∧ w_pid w' = w_pid w.
Proof.
  intros Hst Hpaths Hrun.
  destruct (checkpoint_spec storage store security now w Hst Hpaths) as (o & w1 & Hrun' & Hpid & Hcase).
  rewrite Hrun in Hrun'. injection Hrun' as <- <-. split; [|done].
  destruct Hcase as [(_ & _ & ?)|(nonce & Hn & Hmax & Hck & _ & Hj & _)]; [done|].
  split; [by exists nonce|]. exists []. split; [constructor|]. split; [done|]. auto.
Qed.

(** A successful append extends the journal. *)
Lemma append_journal storage js j w w' :
  journal_ok j → zlen (enc_journal (w_time w) j) < 2 ^ 32 → journal_holds storage js (w_disk w) →
  append_entry storage j w = (Ret tt, w') →
  journal_holds storage (js ++ [j]) (w_disk w') ∧ w_pid w' = w_pid w ∧
  files_agree [st_journal_path storage] (w_disk w) (w_disk w').
Proof.
  intros Hj H32 (xs & Hxs & <- & Hfile) Hrun.
  destruct (append_entry_spec storage j w Hj) as (o & w1 & Hrun' & Hpid & Ha & Ho).
  rewrite Hrun in Hrun'. injection Hrun' as <- <-. destruct Ho as (nonce & Hn & Hmax & Hj' & _).
  split; [|done]. exists (xs ++ [(nonce, w_time w, j)]).
  split; [apply Forall_app; split; [done|by repeat constructor]|].
  split; [by rewrite fmap_app|]. left. rewrite Hj', journal_bytes_app. f_equal. f_equal.
  - destruct Hfile as [->|[Hnone ->]]; [done|]. unfold file_at. by rewrite Hnone.
  - unfold journal_bytes. by rewrite fmap_cons, mjoin_one.
Qed.

Lemma append_persists storage store security now js j w w' :
  journal_ok j → paths_ok storage (w_pid w) → zlen (enc_journal (w_time w) j) < 2 ^ 32 →
  persisted storage store security now js (w_disk w) →
  append_entry storage j w = (Ret tt, w') →
  persisted storage store security now (js ++ [j]) (w_disk w') ∧ w_pid w' = w_pid w.
Proof.
  intros Hj (Hp1 & _ & _) H32 [(nonce0 & Hn0 & Hmax0 & Hck) Hjh] Hrun.
  destruct (append_journal storage js j w w' Hj H32 Hjh Hrun) as (Hjh' & Hpid & Ha).
  split; [|done]. split; [|done]. exists nonce0. split; [done|]. split; [done|]. rewrite Ha; [done|].
  by intros Heq%list_elem_of_singleton.
Qed.

Lemma fopen_rb_ok path d content :
  disk_plan d = [] → file_at d path = Some content → fopen_rb path d = (Ret content, d).
Proof.
  intros Hp Hf. unfold fopen_rb, mbind, STE_bind, next_choice. rewrite Hp. cbn. unfold file_at in Hf.
  destruct (disk_nodes d !! path) as [[c|]|]; [|done|done]. by injection Hf as ->.
Qed.

Lemma fopen_rb_missing path d :
  disk_plan d = [] → disk_nodes d !! path = None → fopen_rb path d = (Fail ENOENT, d).
Proof. intros Hp Hf. unfold fopen_rb, mbind, STE_bind, next_choice. rewrite Hp. cbn. by rewrite Hf. Qed.

Lemma set_disk_same w : set_disk w (w_disk w) = w.
Proof. by destruct w. Qed.

(** Reading the one packet of a file. *)
Lemma read_packet_file_ok storage path magic nonce payload w :
  length magic = 8%nat → length nonce = 16%nat → heap_ok (w_heap w) → disk_plan (w_disk w) = [] →
  zlen payload ≤ max_packet_bytes storage → zlen payload < 2 ^ 32 →
  file_at (w_disk w) path = Some (sealed storage magic nonce payload) →
  ∃ h', heap_ok h' ∧ mp_cache_storage_read_packet_file storage path magic w =
    (Ret (Some (payload, sealed_mac storage magic nonce payload)), set_heap w h').
Proof.
  intros Hm Hn Hh Hplan Hmax H32 Hf. unfold mp_cache_storage_read_packet_file.
  rewrite (bind_ret _ _ _ _ _ (attempt_eq _ _ _ _ (in_disk_eq _ w _ _ (fopen_rb_ok _ _ _ Hplan Hf)))).
  rewrite set_disk_same.
  destruct (read_sealed storage magic nonce payload [] w Hm Hn Hh Hmax H32) as (h' & Hh' & Hr).
  rewrite app_nil_r in Hr. rewrite (bind_ret _ _ _ _ _ Hr). by exists h'.
Qed.

(** Loading the journal: its operations in order. *)
Lemma load_journal_spec storage js now s :
  journal_holds storage js (w_disk (sv_world s)) → server_ok s → 0 ≤ now → disk_plan (w_disk (sv_world s)) = [] →
  match replay_list (store_memory_limit (sv_store s)) (store_max_key (sv_store s)) (store_max_value (sv_store s)) now
          (store_map (sv_store s), records (sv_security s)) js with
  | Some (m, rs) => ∃ s', load_journal storage now s = (Ret tt, s') ∧ server_ok s' ∧
      store_map (sv_store s') = m ∧ records (sv_security s') = rs
  | None => ∃ e s', load_journal storage now s = (Fail e, s')
  end.
Proof.
  intros (xs & Hxs & <- & Hj) Hs Hnow Hplan. unfold load_journal. destruct Hj as [Hj|[Hnone ->]].
  - assert (attempt (in_world (in_disk (fopen_rb (st_journal_path storage)))) s =
      (Ret (Ret (journal_bytes storage xs)), s)) as Hopen.
    { unfold attempt, in_world, in_disk, zoom. rewrite (fopen_rb_ok _ _ _ Hplan Hj). by destruct s as [[] ? ?]. }
    rewrite (bind_ret _ _ _ _ _ Hopen). by apply replay_journal_spec.
  - assert (attempt (in_world (in_disk (fopen_rb (st_journal_path storage)))) s = (Ret (Fail ENOENT), s)) as Hopen.
    { unfold attempt, in_world, in_disk, zoom. rewrite (fopen_rb_missing _ _ Hplan Hnone). by destruct s as [[] ? ?]. }
    rewrite (bind_ret _ _ _ _ _ Hopen). by exists s.
Qed.

(** Loading what is persisted: the checkpoint without its expired entries,
    then the journal in order. *)
Lemma load_persisted storage store security now js now' s :
  store_wf store → security_wf security → expiry_ok store → entry_count store < 2 ^ 32 →
  zlen (enc_state (filter (live now) (entries store)) (records security) now) < 2 ^ 32 →
  0 ≤ now' → now ≤ now' → server_ok s → same_limits store (sv_store s) →
  disk_plan (w_disk (sv_world s)) = [] →
  persisted storage store security now js (w_disk (sv_world s)) →
  match replay_list (store_memory_limit store) (store_max_key store) (store_max_value store) now'
          (filter (fun kv => now' < kv.2.2) (store_map store), records security) js with
  | Some (m, rs) => ∃ s', mp_cache_storage_load_state storage now' s = (Ret tt, s') ∧ server_ok s' ∧
      store_map (sv_store s') = m ∧ records (sv_security s') = rs
  | None => ∃ e s', mp_cache_storage_load_state storage now' s = (Fail e, s')
  end.
Proof.
  intros Hst Hsec Hexp Hcount H32 Hnow Hle [[Hist Hisec] Hh] Hlim Hplan [(nonce & Hn & Hmax & Hck) Hj].
  unfold mp_cache_storage_load_state. rewrite (bind_ret clear_service _ _ _ _ eq_refl).
  destruct (clear_outcome (sv_store s) Hist) as (Hcst & Hclim & Hcmap).
  set (s0 := Server (sv_world s) (mp_cache_store_clear (sv_store s)) (mp_cache_security_clear_clients (sv_security s))).
  destruct (read_packet_file_ok storage (st_checkpoint_path storage) MP_CACHE_STORAGE_STATE_MAGIC nonce _ (sv_world s)
    eq_refl Hn Hh Hplan Hmax H32 Hck) as (h1 & Hh1 & Hread).
  rewrite (bind_ret _ _ s0 _ _ (in_world_eq _ s0 _ _ Hread)).
  set (s1 := set_world s0 (set_heap (sv_world s0) h1)).
  destruct (deserialize_checkpoint store security now now' (server_image s1)) as
    (l & Hdes & Hwf & Hhl & Hlim' & Hm & Hr & _); try done.
  { split; [split; [done|by apply clear_clients_wf]|done|by etrans|done|done]. }
  rewrite (bind_ret _ _ _ _ _ (in_image_eq _ s1 _ _ Hdes)).
  set (s2 := Server (set_heap (sv_world s1) (img_heap l)) (img_store l) (img_security l)).
  assert (server_ok s2) as Hok2 by (split; [by destruct Hwf|done]).
  pose proof Hlim' as (_ & Hl2 & Hl3 & Hl4).
  pose proof (load_journal_spec storage js now' s2 Hj Hok2 Hnow Hplan) as Hrep.
  cbn [s2 sv_store sv_security] in Hrep. by rewrite <-Hl2, <-Hl3, <-Hl4, Hm, Hr in Hrep.
Qed.

(** ** What the running service does *)

(** Journalling a sequence of operations. *)
Fixpoint append_all (storage : mp_cache_storage_t) (js : list journal_entry) : STE world unit :=
  match js with
  | [] => mret tt
  | j :: js' => _ ← append_entry storage j; append_all storage js'
  end.

(** Every payload of the operation fits the 32-bit length field. *)
Definition journal_small (j : journal_entry) : Prop := ∀ stamp, zlen (enc_journal stamp j) < 2 ^ 32.

Lemma append_all_persists storage store security now js js0 w w' :
  Forall (fun j => journal_ok j ∧ journal_small j) js → paths_ok storage (w_pid w) →
  persisted storage store security now js0 (w_disk w) → append_all storage js w = (Ret tt, w') →
  persisted storage store security now (js0 ++ js) (w_disk w').
Proof.
  intros Hjs. revert js0 w. induction Hjs as [|j js [Hj Hsm] Hjs IH]; intros js0 w Hp Hper Hrun; cbn in Hrun.
  { rewrite app_nil_r. by injection Hrun as <-. }
  destruct (append_entry storage j w) as [[[]|e|] w1] eqn:Ha.
  2-3: unfold mbind, STE_bind in Hrun; by rewrite Ha in Hrun.
  rewrite (bind_ret _ _ _ _ _ Ha) in Hrun.
  destruct (append_persists storage store security now js0 j w w1 Hj Hp (Hsm _) Hper Ha) as [Hper1 Hpid].
  change (j :: js) with ([j] ++ js). rewrite app_assoc. eapply IH; [|done|done]. by rewrite Hpid.
Qed.

(** What the same operations did to the map and the records when they were
    carried out. *)
Definition live_step (st : gmap bytes (bytes * Z) * list mp_cache_client_record_t) (j : journal_entry)
    : gmap bytes (bytes * Z) * list mp_cache_client_record_t :=
  match j with
  | JSet key value exp => (<[key := (value, exp)]> st.1, st.2)
  | JDelete key => (delete key st.1, st.2)
  | JClient r => (st.1, upsert_record r st.2)
  | JPurgeAll => (∅, st.2)
  end.

Lemma replay_list_live memory max_key max_value now js m rs m' rs' :
  Forall (fun j => match j with JSet _ _ exp => now < exp | _ => True end) js →
  replay_list memory max_key max_value now (filter (fun kv => now < kv.2.2) m, rs) js = Some (m', rs') →
  m' = filter (fun kv => now < kv.2.2) (foldl live_step (m, rs) js).1 ∧ rs' = (foldl live_step (m, rs) js).2.
Proof.
  intros Hjs. revert m rs. induction Hjs as [|j js Hj Hjs IH]; intros m rs Hrun; [by simplify_eq/=|].
  cbn [replay_list foldl] in *. destruct j as [key value exp|key|r|]; cbn [replay_step mbind option_bind live_step fst snd] in *.
  - rewrite decide_True in Hrun by done. case_decide; [|done]. cbn [mbind option_bind] in Hrun.
    rewrite <-(map_filter_insert_True (M := gmap bytes)) in Hrun by done. by apply IH.
  - rewrite <-(map_filter_delete (M := gmap bytes)) in Hrun. by apply IH.
  - case_decide; [done|]. cbn [mbind option_bind] in Hrun. by apply IH.
  - rewrite <-(map_filter_empty (M := gmap bytes) (fun kv => now < kv.2.2)) in Hrun. by apply IH.
Qed.

(** ** Import *)

(** Two images that differ only in the registry's spare capacity and in the
    allocator behave alike while memory lasts. *)
Record alike (l1 l2 : image) : Prop := {
  al_wf1 : image_wf l1;
  al_wf2 : image_wf l2;
  al_heap1 : heap_ok (img_heap l1);
  al_heap2 : heap_ok (img_heap l2);
  al_store : img_store l1 = img_store l2;
  al_records : records (img_security l1) = records (img_security l2);
  al_hash : bootstrap_admin_hash (img_security l1) = bootstrap_admin_hash (img_security l2);
  al_loaded : bootstrap_admin_loaded (img_security l1) = bootstrap_admin_loaded (img_security l2);
}.

Definition uniform {A} (m : STE image A) : Prop := ∀ l1 l2, alike l1 l2 →
  (m l1).1 = (m l2).1 ∧ alike (m l1).2 (m l2).2.

Lemma uniform_ret {A} (a : A) : uniform (mret a).
Proof. by intros l1 l2 Hl. Qed.
Lemma uniform_fail {A} e : uniform (fail (A := A) e).
Proof. by intros l1 l2 Hl. Qed.
Lemma uniform_lift {A} (o : outcome A) : uniform (lift o).
Proof. by intros l1 l2 Hl. Qed.
Lemma uniform_bind {A B} (m : STE image A) (f : A → STE image B) :
  uniform m → (∀ l a l', m l = (Ret a, l') → uniform (f a)) → uniform (m ≫= f).
Proof.
  intros Hm Hf l1 l2 Hl. destruct (Hm l1 l2 Hl) as [Ho Hl']. unfold mbind, STE_bind.
  destruct (m l1) as [o1 l1'] eqn:E1, (m l2) as [o2 l2'] eqn:E2. cbn in Ho, Hl'. subst o2.
  destruct o1 as [a|e|]; [|done|done]. by eapply Hf.
Qed.

(** While memory lasts, the outcome of a write does not depend on the allocator. *)
Lemma write_entry_heap_free store key value exp h1 h2 :
  heap_ok h1 → heap_ok h2 →
  (mp_cache_store_write_entry store (Some key) (Some value) exp h1).1 =
  (mp_cache_store_write_entry store (Some key) (Some value) exp h2).1.
Proof.
  assert (∀ h, heap_ok h → ∃ h', alloc h = (true, h') ∧ heap_ok h') as Ha.
  { intros h Hh. destruct (alloc h) as [b h'] eqn:E. destruct (alloc_heap_ok _ _ _ E Hh) as [-> ?]. eauto. }
  intros H1 H2. unfold mp_cache_store_write_entry. case_decide; [done|]. cbv zeta. case_decide; [done|].
  unfold mbind, ST_bind.
  destruct (Ha h1 H1) as (a1 & -> & Ha1), (Ha h2 H2) as (b1 & -> & Hb1).
  destruct (Ha a1 Ha1) as (a2 & -> & Ha2), (Ha b1 Hb1) as (b2 & -> & Hb2).
  case_decide; [done|]. destruct (slot_read _ _); [done|].
  by destruct (Ha a2 Ha2) as (a3 & -> & _), (Ha b2 Hb2) as (b3 & -> & _).
Qed.

Lemma uniform_restore now key value exp : uniform (restore_if_live now key value exp).
Proof.
  unfold restore_if_live. case_decide; [|apply uniform_ret]. apply uniform_bind.
  2:{ intros ??? _. case_decide; [apply uniform_ret|apply uniform_fail]. }
  intros l1 l2 Hl. pose proof (restore_if_live_keeps now key value exp) as Hk.
  pose proof Hl as [Hwf1 Hwf2 Hh1 Hh2 Hst Hr Hb Hlo].
  unfold img_restore, mp_cache_store_restore_entry. rewrite <-Hst. case_decide.
  { split; [done|]. split; try done; cbn; [by destruct Hwf1|destruct Hwf2; split; [by rewrite Hst|done]]. }
  pose proof (write_entry_heap_free (img_store l1) key value (i64 exp) _ _ Hh1 Hh2) as Hsame.
  destruct (write_entry_outcome (img_store l1) key value (i64 exp) (img_heap l1) ltac:(apply Hwf1))
    as (st1 & s1 & h1 & Hw1 & Hwf1' & _).
  destruct (mp_cache_store_write_entry (img_store l1) (Some key) (Some value) (i64 exp) (img_heap l2))
    as [[st2 s2] h2] eqn:Hw2. rewrite Hw1 in *. cbn in Hsame. injection Hsame as <- <-.
  split; [done|]. split; try done; cbn.
  - by destruct Hwf1.
  - by destruct Hwf2.
  - by eapply write_entry_heap_ok.
  - by eapply write_entry_heap_ok.
Qed.

(** An imported client is a well-formed record, or is refused. *)
Lemma img_import_record id new_role hash active :
  role_range new_role → hash_ok hash →
  (∀ l, (img_import id new_role hash active l) = (Ret MP_CACHE_SECURITY_STATUS_INVALID_ARGUMENT, l)) ∨
  ∃ r, record_ok r ∧ ∀ l, img_import id new_role hash active l =
    img_import (client_id r) (role r) (token_hash r) (token_active r) l.
Proof.
  intros Hr Hh. destruct (decide (new_role = MP_CACHE_ROLE_NONE ∨ mp_cache_client_id_is_valid (Some id) = false)) as [Hd|Hd].
  - left. intros [st sec h]. unfold img_import, mp_cache_security_import_client_hash. by rewrite decide_True.
  - right. exists (ClientRecord id new_role active (if active then hash else zeros MP_CACHE_TOKEN_HASH_SIZE)).
    split.
    + apply Decidable.not_or in Hd as [Hd1 Hd2]. unfold role_range, MP_CACHE_ROLE_NONE in *. split; cbn [client_id role token_hash token_active].
      * by apply not_false_is_true.
      * unfold MP_CACHE_ROLE_NONE. lia.
      * destruct active; [done|apply hash_ok_zeros].
      * by intros ->.
    + intros l'. unfold img_import, mp_cache_security_import_client_hash. cbn [client_id role token_hash token_active].
      by destruct active.
Qed.

Lemma uniform_import_client id role_value active hash :
  role_range role_value → hash_ok hash → uniform (import_client id role_value active hash).
Proof.
  intros Hr Hh. unfold import_client. apply uniform_bind.
  2:{ intros ??? _. case_decide; [apply uniform_ret|apply uniform_fail]. }
  intros l1 l2 Hl. destruct (img_import_record id role_value hash active Hr Hh) as [Hi|(r & Hok & Hi)];
    [by rewrite !Hi|]. rewrite !Hi. clear Hi. pose proof Hl as [[Hst1 Hsec1] [Hst2 Hsec2] Hh1 Hh2 Hst Hrec Hb Hlo].
  unfold img_import.
  destruct (import_outcome (img_security l1) r (img_heap l1) Hsec1 Hok) as (st1 & s1 & h1 & -> & Hwf1 & Hk1 & Hb1 & Hlo1 & Ho1).
  destruct (import_outcome (img_security l2) r (img_heap l2) Hsec2 Hok) as (st2 & s2 & h2 & -> & Hwf2 & Hk2 & Hb2 & Hlo2 & Ho2).
  assert (∀ s rs, security_wf s → zlen rs = MP_CACHE_MAX_CLIENTS → client_id r ∉ (client_id <$> rs) →
    records s = upsert_record r rs → False) as Hfull.
  { intros s rs Hs Hn Hin Hup. rewrite upsert_record_new in Hup by done.
    pose proof (sec_count _ Hs) as Hc. pose proof (sec_capacity _ Hs). rewrite Hup in Hc. len_simpl. lia. }
  destruct st1, st2; try tauto; cbn [fst snd].
  - split; [done|]. split; cbn [img_store img_security img_heap]; [by split|by split|by auto|by auto|done|congruence..].
  - exfalso. rewrite Hrec in Ho1. destruct Ho2 as (_ & ? & ?). by eapply (Hfull s1).
  - exfalso. rewrite <-Hrec in Ho2. destruct Ho1 as (_ & ? & ?). by eapply (Hfull s2).
  - destruct Ho1 as [-> _], Ho2 as [-> _]. split; [done|].
    split; cbn [img_store img_security img_heap]; [by split|by split|by auto|by auto|done..].
Qed.

Section UniformPayload.
Context (payload : bytes) (Hwf : bytes_wf payload).

Lemma uniform_entries fuel now count off : uniform (deserialize_entries fuel payload now count off).
Proof.
  revert count off. induction fuel as [|fuel IH]; intros count off; cbn [deserialize_entries];
    (case_decide; [apply uniform_ret|]); [apply uniform_lift|].
  apply uniform_bind; [apply uniform_lift|]. intros _ [[[key value] exp] off'] _ _.
  apply uniform_bind; [apply uniform_restore|]. intros _ _ _ _. apply IH.
Qed.

Lemma uniform_clients fuel version count off : uniform (deserialize_clients fuel payload version count off).
Proof.
  revert count off. induction fuel as [|fuel IH]; intros count off; cbn [deserialize_clients];
    (case_decide; [apply uniform_ret|]); [apply uniform_lift|].
  apply uniform_bind; [apply uniform_lift|]. intros l [[[[id role_value] active] hash] off'] l' [= Hrd _].
  pose proof (read_client_safe payload Hwf version off) as Hs. rewrite Hrd in Hs. destruct Hs as (Hr & Hh & _).
  apply uniform_bind; [by apply uniform_import_client|]. intros _ _ _ _. apply IH.
Qed.

Lemma uniform_deserialize now : uniform (mp_cache_storage_deserialize_state payload now).
Proof.
  unfold mp_cache_storage_deserialize_state.
  apply uniform_bind; [apply uniform_lift|]. intros _ [version o1] _ _.
  apply uniform_bind; [apply uniform_lift|]. intros _ [stamp o2] _ _.
  case_decide; [apply uniform_fail|].
  apply uniform_bind; [apply uniform_lift|]. intros _ [n o3] _ _.
  apply uniform_bind; [apply uniform_entries|]. intros _ o4 _ _.
  apply uniform_bind; [apply uniform_lift|]. intros _ [m o5] _ _.
  apply uniform_bind; [apply uniform_clients|]. intros _ o6 _ _.
  case_decide; [apply uniform_ret|apply uniform_fail].
Qed.
End UniformPayload.

(** Reading a packet only allocates. *)
Lemma read_stream_frame storage file magic w :
  ∃ o h', mp_cache_storage_read_packet_stream storage file magic w = (o, set_heap w h') ∧
  match o with Ret _ => heap_ok (w_heap w) → heap_ok h' | Fail _ => True | Stuck => False end.
Proof.
  assert (set_heap w (w_heap w) = w) as Hw by by destruct w.
  unfold mp_cache_storage_read_packet_stream.
  case_decide. { exists (Ret None), (w_heap w). by rewrite Hw. }
  case_decide. { exists (Fail EINVAL), (w_heap w). by rewrite Hw. } cbv zeta.
  case_decide. { exists (Fail EINVAL), (w_heap w). by rewrite Hw. }
  case_decide. { exists (Fail EOVERFLOW), (w_heap w). by rewrite Hw. }
  unfold mbind at 1, STE_bind at 1. destruct (malloc_spec w) as (o1 & h1 & -> & Ho1).
  destruct o1; [|by eexists _, _|done]. case_decide; [by eexists _, _|].
  unfold mbind at 1, STE_bind at 1.
  match goal with |- context [with_buffer (_ ← buffer_append ?a; buffer_append ?b)] =>
    destruct (with_buffer_spec _ _ (set_heap w h1) (writes_two a b)) as (o2 & h2 & -> & Ho2) end.
  destruct o2 as [mi|e|]; [|by eexists _, _|done]. destruct Ho2 as [_ Ho2].
  destruct (ec_equals _ _ _); eexists _, h2; (split; [reflexivity|]); cbn in *; auto.
Qed.

(** What [fopen_rb] returns is a prefix of a file. *)
Lemma fopen_rb_spec path d :
  ∃ o plan, fopen_rb path d = (o, Disk (disk_nodes d) plan) ∧
  match o with
  | Ret l => l ≠ [] → ∃ content n, file_at d path = Some content ∧ l = take n content
  | Fail _ => True
  | Stuck => False
  end.
Proof.
  unfold fopen_rb, mbind, STE_bind, next_choice, get_nodes, file_at.
  destruct d as [nodes [|c plan]]; cbn; [|destruct c as [|e|n]];
    destruct (nodes !! path) as [[content|]|] eqn:Hn; eexists _, _; (split; [reflexivity|]); cbn; try done; intros Hne; try done;
    [exists content, (length content); by rewrite firstn_all..|by exists content, n].
Qed.

(** The packet a successful [read_packet_file] returns is in the file. *)
Lemma read_packet_file_frame storage path magic w :
  (∀ content, file_at (w_disk w) path = Some content → bytes_wf content) →
  ∃ o w', mp_cache_storage_read_packet_file storage path magic w = (o, w') ∧
    w_pid w' = w_pid w ∧ disk_nodes (w_disk w') = disk_nodes (w_disk w) ∧
  match o with
  | Ret (Some (payload, mac)) => (heap_ok (w_heap w) → heap_ok (w_heap w')) ∧ bytes_wf payload ∧
      ∃ content n h32 cipher, file_at (w_disk w) path = Some content ∧
        take n content = h32 ++ mac ++ cipher ∧ length h32 = 32%nat ∧ take 8 h32 = magic ∧
        mac = ec_mac (storage_key storage) (h32 ++ cipher) ∧
        payload = ec_xor (storage_key storage) (drop 16 h32) cipher
  | Ret None => heap_ok (w_heap w) → heap_ok (w_heap w')
  | Fail _ => True
  | Stuck => False
  end.
Proof.
  intros Hfile. unfold mp_cache_storage_read_packet_file.
  destruct (fopen_rb_spec path (w_disk w)) as (o1 & plan & Hopen & Ho1).
  rewrite (bind_ret _ _ _ _ _ (attempt_eq _ _ _ _ (in_disk_eq _ w _ _ Hopen))).
  destruct o1 as [file|e|]; [|destruct e; by eexists _, _|done].
  destruct (read_stream_frame storage file magic (set_disk w (Disk (disk_nodes (w_disk w)) plan))) as (o2 & h2 & Hrd & Ho2).
  unfold mbind, STE_bind. rewrite Hrd. destruct o2 as [[[[payload mac] rest]|]|e|]; [|by eexists _, _..|done].
  case_decide as Hrest; [subst rest|by eexists _, _].
  eexists _, _. split; [reflexivity|]. split; [done|]. split; [done|]. split; [done|].
  destruct (decide (file = [])) as [->|Hne]; [by unfold mp_cache_storage_read_packet_stream in Hrd|].
  destruct (Ho1 Hne) as (content & n & Hc & ->).
  assert (bytes_wf (take n content)) as Hwf by (by apply Forall_take, Hfile).
  destruct (read_packet_authentic _ _ _ _ _ _ _ _ Hwf Hrd) as (h32 & cipher & Heq & Hl & _ & Hm & Hmac & Hp & _).
  rewrite app_nil_r in Heq. split.
  - rewrite Hp. apply ec_xor_wf. rewrite Heq in Hwf. by apply bytes_wf_app in Hwf as [_ [_ ?]%bytes_wf_app].
  - by exists content, n, h32, cipher.
Qed.

(** The path an import reads: a regular file whose name starts with the
    export directory and has no parent component. *)
Lemma resolve_import_spec storage requested cap w :
  ∃ o, mp_cache_storage_resolve_import_path storage requested cap w = (o, w) ∧
  match o with
  | Ret p => starts_with (st_export_directory storage) p = true ∧ zlen p < cap ∧
      contains (cstr "../") requested = false ∧ contains (cstr "/..") requested = false ∧
      (∃ content, file_at (w_disk w) p = Some content) ∧
      (p = requested ∨ head requested ≠ Some 47 ∧ p = st_export_directory storage ++ cstr "/" ++ requested)
  | Fail _ => True
  | Stuck => False
  end.
Proof.
  assert (∀ l, starts_with (st_export_directory storage) (st_export_directory storage ++ l) = true) as Hpre.
  { intros l. unfold starts_with. by rewrite bool_decide_eq_true, take_app_length. }
  assert (∀ l, zlen l < cap → starts_with (st_export_directory storage) l = true →
    (l = requested ∨ head requested ≠ Some 47 ∧ l = st_export_directory storage ++ cstr "/" ++ requested) →
    contains (cstr "../") requested = false → contains (cstr "/..") requested = false →
    ∃ o, (nodes ← in_disk get_nodes;
          match (nodes !! l : option node) with Some (RegularFile _) => mret l | _ => fail ENOENT end) w = (o, w) ∧
    match o with
    | Ret p => starts_with (st_export_directory storage) p = true ∧ zlen p < cap ∧
        contains (cstr "../") requested = false ∧ contains (cstr "/..") requested = false ∧
        (∃ content, file_at (w_disk w) p = Some content) ∧
        (p = requested ∨ head requested ≠ Some 47 ∧ p = st_export_directory storage ++ cstr "/" ++ requested)
    | Fail _ => True | Stuck => False end) as Hend.
  { intros l H1 H2 H3 H4 H5. unfold mbind, STE_bind, in_disk, zoom, get_nodes. rewrite set_disk_same.
    destruct (disk_nodes (w_disk w) !! l) as [[content|]|] eqn:Hn; [|by exists (Fail ENOENT)..].
    exists (Ret l). repeat (split; [done|]). split; [|done]. exists content. unfold file_at. by rewrite Hn. }
  unfold mp_cache_storage_resolve_import_path. case_decide as Hcap; [by exists (Fail EINVAL)|].
  destruct (contains (cstr "../") requested) eqn:C1; [by exists (Fail EACCES)|].
  destruct (contains (cstr "/..") requested) eqn:C2; [by exists (Fail EACCES)|]. cbn [orb].
  unfold mp_cache_storage_format_path. rewrite !(decide_False (P := cap = 0)) by done.
  case_decide as Hroot; (destruct (starts_with (st_export_directory storage) requested) eqn:Hsw;
    [case_decide; [by exists (Fail ENAMETOOLONG)|]; rewrite (bind_ret (lift (Ret _)) _ w _ _ eq_refl); apply Hend; auto; lia|]);
    [by exists (Fail EACCES)|].
  case_decide; [by exists (Fail ENAMETOOLONG)|]. rewrite (bind_ret (lift (Ret _)) _ w _ _ eq_refl). apply Hend; auto. lia.
Qed.

(** The scratch store of an import is the service's store, emptied. *)
Lemma scratch_store_init store h :
  store_wf store → store_bucket_count store < 2 ^ 32 → heap_ok h →
  ∃ h', mp_cache_store_init (scratch_config store) h = (Some (mp_cache_store_clear store), h') ∧ heap_ok h'.
Proof.
  intros Hst Hb Hh. pose proof (lim_buckets _ (wf_limits _ Hst)) as Hpos. unfold mp_cache_store_init.
  cbn [num scratch_config]. rewrite u32_small by lia. rewrite decide_False by lia.
  unfold mbind, ST_bind. destruct (alloc h) as [b h'] eqn:Ha. destruct (alloc_heap_ok _ _ _ Ha Hh) as [-> Hh'].
  exists h'. split; [|done]. unfold mp_cache_store_clear. rewrite <-(wf_length _ Hst).
  enough (replicate (length (buckets store)) [] = (fun _ => []) <$> buckets store) as -> by done.
  clear. by induction (buckets store) as [|c cs IH]; [|cbn; rewrite IH].
Qed.

(** The trial run decides the outcome of the real one, and changes nothing. *)
Lemma trial_predicts payload now s :
  bytes_wf payload → server_ok s → store_bucket_count (sv_store s) < 2 ^ 32 →
  ∃ o h', trial_deserialize payload now s = (o, set_world s (set_heap (sv_world s) h')) ∧ heap_ok h' ∧
  ∀ h, heap_ok h → ∃ l', mp_cache_storage_deserialize_state payload now
    (Image (mp_cache_store_clear (sv_store s)) (mp_cache_security_clear_clients (sv_security s)) h) = (o, l') ∧
    heap_ok (img_heap l') ∧ image_wf l'.
Proof.
  intros Hp [[Hst Hsec] Hh] Hb. cbn in Hst, Hsec. unfold trial_deserialize.
  destruct (scratch_store_init _ _ Hst Hb Hh) as (h1 & -> & Hh1).
  destruct (clear_outcome _ Hst) as (Hcst & _ & _).
  set (l1 := Image (mp_cache_store_clear (sv_store s)) _ h1).
  assert (∀ h, heap_ok h → alike l1 (Image (mp_cache_store_clear (sv_store s))
    (mp_cache_security_clear_clients (sv_security s)) h)) as Hal.
  { intros h Hh'. split; cbn [l1 img_store img_security img_heap]; [split|split| |..]; try done; cbn [img_store img_security].
    - pose proof (sec_bootstrap _ Hsec). split; try done; cbn; constructor.
    - by apply clear_clients_wf. }
  destruct (mp_cache_storage_deserialize_state payload now l1) as [o l1'] eqn:Hd.
  exists o, (img_heap l1'). split; [done|].
  assert (∀ h, heap_ok h → _) as Hall by (intros h Hh'; exact (uniform_deserialize payload Hp now _ _ (Hal h Hh'))).
  rewrite Hd in Hall. cbn [fst snd] in Hall.
  split; [by destruct (Hall h1 Hh1) as [_ [? ? ? ? _ _ _ _]]|].
  intros h Hh'. destruct (Hall h Hh') as [Ho [? ? ? ? _ _ _ _]].
  destruct (mp_cache_storage_deserialize_state payload now (Image _ _ h)) as [o' l']. cbn in Ho. subst o'. by exists l'.
Qed.

(** The steps of an import after the file was read. *)
Definition install_payload (storage : mp_cache_storage_t) (payload : bytes) (now : Z) : STE server unit :=
  _ ← trial_deserialize payload now;
  _ ← clear_service;
  _ ← in_image (mp_cache_storage_deserialize_state payload now);
  checkpoint_service storage now.

Lemma install_payload_spec storage payload now s :
  bytes_wf payload → server_ok s → store_bucket_count (sv_store s) < 2 ^ 32 →
  (∃ e s', install_payload storage payload now s = (Fail e, s') ∧
     sv_store s' = sv_store s ∧ sv_security s' = sv_security s ∧
     ∀ h, heap_ok h → ∃ l, mp_cache_storage_deserialize_state payload now
       (Image (mp_cache_store_clear (sv_store s)) (mp_cache_security_clear_clients (sv_security s)) h) = (Fail e, l)) ∨
  ∃ h l, mp_cache_storage_deserialize_state payload now
           (Image (mp_cache_store_clear (sv_store s)) (mp_cache_security_clear_clients (sv_security s)) h) = (Ret tt, l) ∧
    heap_ok h ∧
    install_payload storage payload now s =
      checkpoint_service storage now (Server (set_heap (sv_world s) (img_heap l)) (img_store l) (img_security l)) ∧
    image_wf l ∧ heap_ok (img_heap l).
Proof.
  intros Hp Hs Hb. destruct (trial_predicts payload now s Hp Hs Hb) as (o & h1 & Htrial & Hh1 & Hreal).
  unfold install_payload. destruct o as [[]|e|].
  - right. destruct (Hreal h1 Hh1) as (l & Hd & Hhl & Hwf). exists h1, l. split; [done|]. split; [done|].
    rewrite (bind_ret _ _ _ _ _ Htrial), (bind_ret clear_service _ _ _ _ eq_refl).
    split; [|done]. set (s1 := Server (set_heap (sv_world s) h1) (mp_cache_store_clear (sv_store s))
      (mp_cache_security_clear_clients (sv_security s))).
    exact (bind_ret _ _ s1 _ _ (in_image_eq _ s1 _ _ Hd)).
  - left. rewrite (bind_fail _ _ _ _ _ Htrial). eexists _, _. split; [reflexivity|]. split; [done|]. split; [done|].
    intros h Hh. destruct (Hreal h Hh) as (l & Hd & _). by exists l.
  - exfalso. destruct (Hreal h1 Hh1) as (l & Hd & _).
    destruct Hs as [[Hst Hsec] _]. cbn in Hst, Hsec. destruct (clear_outcome _ Hst) as (Hcst & _ & _).
    destruct (deserialize_state_keeps payload Hp now (Image (mp_cache_store_clear (sv_store s))
      (mp_cache_security_clear_clients (sv_security s)) h1)) as [_ Hk]; [split; [done|by apply clear_clients_wf]|].
    by rewrite Hd in Hk.
Qed.

(** ** Arbitrary files *)

Definition files_wf (d : disk) : Prop := ∀ p content, file_at d p = Some content → bytes_wf content.

(** The replay loop ends within its fuel on any bytes. *)
Lemma replay_total fuel storage journal now s :
  bytes_wf journal → image_wf (server_image s) → (length journal < fuel)%nat →
  (replay_journal fuel storage journal now s).1 ≠ Stuck ∧
  image_wf (server_image (replay_journal fuel storage journal now s).2).
Proof.
  revert journal s. induction fuel as [|fuel IH]; intros journal s Hj Hs Hfuel; [lia|]. cbn [replay_journal].
  destruct (read_stream_frame storage journal MP_CACHE_STORAGE_JOURNAL_MAGIC (sv_world s)) as (o & h1 & Hrd & Ho).
  set (s1 := set_world s (set_heap (sv_world s) h1)). assert (image_wf (server_image s1)) as Hs1 by (by destruct Hs).
  unfold mbind, STE_bind. rewrite (in_world_eq _ _ _ _ Hrd). fold s1.
  destruct o as [[[[payload mac] rest]|]|e|]; [|done..].
  destruct (read_packet_authentic _ _ _ _ _ _ _ _ Hj Hrd) as (h32 & cipher & Heq & Hl & _ & _ & _ & Hp & _).
  rewrite Heq in Hj. apply bytes_wf_app in Hj as [_ [_ [Hc Hr]%bytes_wf_app]%bytes_wf_app].
  assert (bytes_wf payload) as Hpw by (rewrite Hp; by apply ec_xor_wf).
  destruct (apply_journal_payload_keeps payload Hpw now (server_image s1) Hs1) as [Hs2 Ho2].
  destruct (mp_cache_storage_apply_journal_payload payload now (server_image s1)) as [o2 l2] eqn:Ha.
  rewrite (in_image_eq _ s1 _ _ Ha). cbn in Hs2, Ho2. destruct o2 as [[]|e|]; [|by destruct Hs2|done].
  apply IH; [done|by destruct Hs2|]. rewrite Heq, !length_app, Hl in Hfuel. lia.
Qed.

(** The checkpoint part of a load, on any file. *)
Lemma load_checkpoint_total storage now s :
  files_wf (w_disk (sv_world s)) → image_wf (server_image s) →
  let m := checkpoint ← in_world (mp_cache_storage_read_packet_file storage (st_checkpoint_path storage)
                                    MP_CACHE_STORAGE_STATE_MAGIC);
           match checkpoint with
           | None => mret tt
           | Some (payload, _) => in_image (mp_cache_storage_deserialize_state payload now)
           end in
  (m s).1 ≠ Stuck ∧ image_wf (server_image (m s).2) ∧ files_wf (w_disk (sv_world (m s).2)).
Proof.
  intros Hf Hs. cbv zeta. destruct (read_packet_file_frame storage (st_checkpoint_path storage)
    MP_CACHE_STORAGE_STATE_MAGIC (sv_world s) (Hf _)) as (o & w1 & Hrd & _ & Hn & Ho).
  assert (files_wf (w_disk w1)) as Hf1.
  { intros p content. rewrite (fa_same_nodes _ _ p Hn). apply Hf. }
  set (s1 := set_world s w1). assert (image_wf (server_image s1)) as Hs1 by (by destruct Hs).
  unfold mbind, STE_bind. rewrite (in_world_eq _ _ _ _ Hrd). fold s1.
  destruct o as [[[payload mac]|]|e|]; [|done..]. destruct Ho as (_ & Hpw & _).
  destruct (deserialize_state_keeps payload Hpw now (server_image s1) Hs1) as [Hs2 Ho2].
  destruct (mp_cache_storage_deserialize_state payload now (server_image s1)) as [o2 l2] eqn:Ha.
  rewrite (in_image_eq _ s1 _ _ Ha). cbn in Hs2, Ho2. cbn [fst snd].
  split; [by destruct o2|]. split; [by destruct Hs2|done].
Qed.

Lemma fopen_rb_wf path s :
  files_wf (w_disk (sv_world s)) → image_wf (server_image s) →
  ∃ o s', attempt (in_world (in_disk (fopen_rb path))) s = (Ret o, s') ∧ image_wf (server_image s') ∧
  match o with Ret l => bytes_wf l | Fail _ => True | Stuck => False end.
Proof.
  intros Hf Hs. destruct (fopen_rb_spec path (w_disk (sv_world s))) as (o & plan & Ho & Hc).
  exists o, (set_world s (set_disk (sv_world s) (Disk (disk_nodes (w_disk (sv_world s))) plan))).
  split; [by apply attempt_eq, in_world_eq, in_disk_eq|]. split; [by destruct Hs|].
  destruct o as [l|e|]; [|done..]. destruct (decide (l = [])) as [->|Hne]; [constructor|].
  destruct (Hc Hne) as (content & n & Hcon & ->). by eapply Forall_take, Hf.
Qed.

(** ** Export *)

Definition export_file_path (storage : mp_cache_storage_t) (now pid : Z) : bytes :=
  st_export_directory storage ++ cstr "/mp-cache-export-" ++ dec now ++ cstr "-" ++ dec pid ++ cstr ".bin".

(** A successful export has written the whole state to its file. *)
Lemma export_spec storage store security now w r w' :
  store_wf store →
  mp_cache_storage_export_state storage store security now w = (Ret r, w') →
  let payload := enc_state (filter (live now) (entries store)) (records security) now in
  ∃ nonce pid, length nonce = 16%nat ∧ zlen payload ≤ max_packet_bytes storage ∧
    export_path r = export_file_path storage now pid ∧ zlen (export_path r) < MP_CACHE_PATH_CAP ∧
    file_at (w_disk w') (export_path r) = Some (sealed storage MP_CACHE_STORAGE_EXPORT_MAGIC nonce payload) ∧
    mp_cache_hex_encode (sealed_mac storage MP_CACHE_STORAGE_EXPORT_MAGIC nonce payload) 65 = Ret (digest_hex r) ∧
    export_entry_count r = zlen (filter (live now) (entries store)) ∧
    export_client_count r = zlen (records security).
Proof.
  intros Hst Hrun. cbv zeta. unfold mp_cache_storage_export_state, mbind, STE_bind in Hrun.
  destruct (mp_cache_storage_export_count storage w) as [[n|e|] w1]; [|done..]. case_decide; [done|].
  destruct (mp_cache_storage_checkpoint storage store security now w1) as [[[]|e|] w2]; [|done..].
  destruct (with_buffer_spec _ _ w2 (writes_state store security now Hst)) as (o3 & h3 & Hb & Ho3). rewrite Hb in Hrun.
  destruct o3 as [pl|e|]; [|done..]. destruct Ho3 as [-> _]. unfold getpid, lift in Hrun. cbn [w_pid set_heap] in Hrun.
  unfold mp_cache_storage_format_path in Hrun. rewrite decide_False in Hrun by done.
  case_decide as Hlen; [done|]. fold (export_file_path storage now (w_pid w2)) in Hrun, Hlen.
  destruct (mp_cache_store_for_each store (mp_cache_count_active_entry now) 0) as [z count] eqn:Hcount.
  destruct (write_packet_file_spec storage (export_file_path storage now (w_pid w2)) MP_CACHE_STORAGE_EXPORT_MAGIC
    (enc_state (filter (live now) (entries store)) (records security) now) (set_heap w2 h3))
    as (o4 & w4 & Hw4 & _ & _ & Ho4). rewrite Hw4 in Hrun. destruct o4 as [mac|e|]; [|done..].
  destruct Ho4 as (Hmax & nonce & Hn & -> & Hfile & _).
  destruct (mp_cache_hex_encode _ 65) as [digest|e|] eqn:Hhex; [|done..]. injection Hrun as <- <-.
  exists nonce, (w_pid w2). cbn [export_path digest_hex export_entry_count export_client_count].
  split; [done|]. split; [done|]. split; [done|]. split; [lia|]. split; [done|]. split; [done|]. split; [|done].
  unfold mp_cache_store_for_each in Hcount. fold (entries store) in Hcount.
  pose proof (entry_count_bound _ Hst) as Hc. rewrite (wf_count _ Hst) in Hc.
  rewrite count_active_spec, Z.add_0_l in Hcount by lia. by injection Hcount as _ <-.
Qed.

(** An existing file below the export directory can be named by its full path. *)
Lemma resolve_under_export storage p cap content w :
  (∃ rest, p = st_export_directory storage ++ rest) →
  contains (cstr "../") p = false → contains (cstr "/..") p = false → zlen p < cap →
  file_at (w_disk w) p = Some content →
  mp_cache_storage_resolve_import_path storage p cap w = (Ret p, w).
Proof.
  intros [rest Hp] H1 H2 Hlen Hf. pose proof (zlen_nonneg p).
  unfold mp_cache_storage_resolve_import_path. rewrite H1, H2. cbn [orb].
  rewrite (decide_False (P := cap = 0)) by lia.
  assert (starts_with (st_export_directory storage) p = true) as ->.
  { unfold starts_with. rewrite bool_decide_eq_true, Hp. by rewrite take_app_length. }
  unfold mp_cache_storage_format_path. rewrite (decide_False (P := cap = 0)), (decide_False (P := cap ≤ zlen p)) by lia.
  rewrite (match decide (head p = Some 47) as d return
    (if d then lift (Ret p) else lift (Ret p)) = lift (S := world) (Ret p) with left _ | right _ => eq_refl end).
  rewrite (bind_ret (lift (Ret p)) _ w _ _ eq_refl). unfold mbind, STE_bind, in_disk, zoom, get_nodes.
  rewrite set_disk_same. unfold file_at in Hf. by destruct (disk_nodes (w_disk w) !! p) as [[]|].
Qed.

End Envelope.
