(* ===== verification/Persistence.v ===== *)
(** * Persistence: what the storage layer guarantees

    The theorems about internal/storage/storage.c as modelled in [Storage]:
    the envelope is authentic and round-trips, a checkpoint is atomic, recovery
    restores what was persisted and survives arbitrary files, a torn journal is
    refused, an import is confined to the export directory and is all or
    nothing, an export can be imported back, and the places where the code does
    less than it means to. *)

From stdpp Require Import base numbers strings option gmap list.
From S2P Require Import Prelude Config Crypto Cache Security Fs StorageCodec Storage.
Local Open Scope Z_scope.

Section Guarantees.
Context {EC : EnvelopeCrypto}.

(** The envelope round-trips. A packet the builder returns, followed by any
    bytes, is read back as exactly the payload that was sealed, with its MAC and
    with the bytes that follow left in the stream, for every nonce, key and
    magic, as long as the payload length fits the 32-bit length field. *)
Theorem packet_roundtrip storage magic payload w w' packet mac rest w2 :
  length magic = 8%nat → zlen payload < 2 ^ 32 → heap_ok (w_heap w2) →
  mp_cache_storage_build_packet storage magic payload w = (Ret (packet, mac), w') →
  ∃ h', mp_cache_storage_read_packet_stream storage (packet ++ rest) magic w2 =
    (Ret (Some (payload, mac, rest)), set_heap w2 h').
Proof.
  intros Hm H32 Hh Hb.
  destruct (build_packet_spec storage magic payload w) as (o & w1 & Hb' & _ & Ho).
  rewrite Hb in Hb'. injection Hb' as <- <-. destruct Ho as (Hmax & nonce & Hn & -> & -> & _).
  destruct (read_sealed storage magic nonce payload rest w2 Hm Hn Hh Hmax H32) as (h' & _ & Hr). by exists h'.
Qed.

(** C20. Nothing is accepted without its MAC. Whatever bytes a stream holds, a
    packet that is accepted carries the expected magic and, in its MAC field,
    the keyed MAC of its own 32 header bytes and ciphertext; the payload is the
    decryption of that ciphertext under the header's nonce and is not longer
    than the configured maximum. *)
Theorem packet_authentic storage file magic w payload mac rest w' :
  bytes_wf file →
  mp_cache_storage_read_packet_stream storage file magic w = (Ret (Some (payload, mac, rest)), w') →
  ∃ h32 cipher, file = h32 ++ mac ++ cipher ++ rest ∧ length h32 = 32%nat ∧ length mac = 32%nat ∧
    take 8 h32 = magic ∧ mac = ec_mac (storage_key storage) (h32 ++ cipher) ∧
    payload = ec_xor (storage_key storage) (drop 16 h32) cipher ∧
    zlen payload ≤ max_packet_bytes storage.
Proof. apply read_packet_authentic. Qed.

(** C9. A checkpoint is all or nothing. Whatever allocation, entropy or disk
    operation fails, afterwards either the checkpoint file and the journal are
    what they were, or the checkpoint file is the complete sealed new state; the
    journal is removed only in the second case, and a success means that the
    new state is in place and the journal is gone. *)
Theorem checkpoint_atomic storage store security now w :
  store_wf store → paths_ok storage (w_pid w) →
  let payload := enc_state (filter (live now) (entries store)) (records security) now in
  ∃ o w', mp_cache_storage_checkpoint storage store security now w = (o, w') ∧
  (o ≠ Ret tt ∧
   file_at (w_disk w') (st_checkpoint_path storage) = file_at (w_disk w) (st_checkpoint_path storage) ∧
   file_at (w_disk w') (st_journal_path storage) = file_at (w_disk w) (st_journal_path storage) ∨
   ∃ nonce,
     file_at (w_disk w') (st_checkpoint_path storage) =
       Some (sealed storage MP_CACHE_STORAGE_STATE_MAGIC nonce payload) ∧
     (o ≠ Ret tt → file_at (w_disk w') (st_journal_path storage) = file_at (w_disk w) (st_journal_path storage)) ∧
     (o = Ret tt → file_at (w_disk w') (st_journal_path storage) = None)).
Proof.
  intros Hst Hp payload. destruct (checkpoint_spec storage store security now w Hst Hp) as (o & w' & Hrun & _ & Hc).
  exists o, w'. split; [done|]. destruct Hc as [(? & ? & ?)|(nonce & _ & _ & Hck & Hno & Hok & _)]; [by left|right].
  exists nonce. split; [done|]. split; [done|]. intros Ho. unfold file_at. by rewrite (Hok Ho).
Qed.

(** C5. Recovery restores what was persisted. After a successful checkpoint and
    successful journal appends, loading on a server with the same limits gives
    the unexpired part of the checkpoint followed by the journalled operations
    in order, and fails exactly when one of them no longer fits the limits. *)
Theorem recovery_restores storage store security now js w w1 w2 now' s :
  store_wf store → security_wf security → expiry_ok store → entry_count store < 2 ^ 32 →
  zlen (enc_state (filter (live now) (entries store)) (records security) now) < 2 ^ 32 →
  paths_ok storage (w_pid w) → Forall (fun j => journal_ok j ∧ journal_small j) js →
  mp_cache_storage_checkpoint storage store security now w = (Ret tt, w1) →
  append_all storage js w1 = (Ret tt, w2) →
  0 ≤ now' → now ≤ now' → server_ok s → same_limits store (sv_store s) →
  w_disk (sv_world s) = Disk (disk_nodes (w_disk w2)) [] →
  match replay_list (store_memory_limit store) (store_max_key store) (store_max_value store) now'
          (filter (fun kv => now' < kv.2.2) (store_map store), records security) js with
  | Some (m, rs) => ∃ s', mp_cache_storage_load_state storage now' s = (Ret tt, s') ∧ server_ok s' ∧
      store_map (sv_store s') = m ∧ records (sv_security s') = rs
  | None => ∃ e s', mp_cache_storage_load_state storage now' s = (Fail e, s')
  end.
Proof.
  intros Hst Hsec Hexp Hcount H32 Hpaths Hjs Hck Happ Hnow Hle Hs Hlim Hd.
  destruct (checkpoint_persists _ _ _ _ _ _ Hst Hpaths Hck) as [Hper Hpid].
  pose proof (append_all_persists storage store security now js [] w1 w2 Hjs ltac:(by rewrite Hpid) Hper Happ) as Hper2.
  eapply load_persisted; try done; rewrite Hd; [done|]. exact Hper2.
Qed.

(** If no journalled SET has expired by the time of the load, a successful
    load gives exactly the unexpired part of the map the running service had
    after the checkpoint and the operations, and the same client records. *)
Theorem recovery_matches_service storage store security now js now' s s' :
  store_wf store → security_wf security → expiry_ok store → entry_count store < 2 ^ 32 →
  zlen (enc_state (filter (live now) (entries store)) (records security) now) < 2 ^ 32 →
  Forall (fun j => match j with JSet _ _ exp => now' < exp | _ => True end) js →
  0 ≤ now' → now ≤ now' → server_ok s → same_limits store (sv_store s) →
  disk_plan (w_disk (sv_world s)) = [] →
  persisted storage store security now js (w_disk (sv_world s)) →
  mp_cache_storage_load_state storage now' s = (Ret tt, s') →
  store_map (sv_store s') =
    filter (fun kv => now' < kv.2.2) (foldl live_step (store_map store, records security) js).1 ∧
  records (sv_security s') = (foldl live_step (store_map store, records security) js).2.
Proof.
  intros Hst Hsec Hexp Hcount H32 Hlive Hnow Hle Hs Hlim Hplan Hper Hrun.
  pose proof (load_persisted storage store security now js now' s Hst Hsec Hexp Hcount H32 Hnow Hle Hs Hlim Hplan Hper) as Hl.
  destruct (replay_list _ _ _ _ _ _) as [[m rs]|] eqn:Hrep.
  - destruct Hl as (s1 & Hrun1 & _ & <- & <-). rewrite Hrun in Hrun1. injection Hrun1 as <-.
    by eapply replay_list_live.
  - destruct Hl as (e & s1 & Hrun1). by rewrite Hrun in Hrun1.
Qed.

(** C38. A value that was overwritten can come back: when the checkpoint holds a
    long-lived value for a key and the only journalled operation is a SET of
    the same key that has expired by the time of the load, the load brings the
    old value back, although the running service would have no entry left. *)
Theorem expired_overwrite_resurrects storage store security now key old_value old_exp value exp now' s :
  store_wf store → security_wf security → expiry_ok store → entry_count store < 2 ^ 32 →
  zlen (enc_state (filter (live now) (entries store)) (records security) now) < 2 ^ 32 →
  0 ≤ now' → now ≤ now' → server_ok s → same_limits store (sv_store s) →
  disk_plan (w_disk (sv_world s)) = [] →
  persisted storage store security now [JSet key value exp] (w_disk (sv_world s)) →
  store_map store !! key = Some (old_value, old_exp) → now' < old_exp → exp ≤ now' →
  (foldl live_step (store_map store, records security) [JSet key value exp]).1 !! key = Some (value, exp) ∧
  ∃ s', mp_cache_storage_load_state storage now' s = (Ret tt, s') ∧
    store_map (sv_store s') !! key = Some (old_value, old_exp).
Proof.
  intros Hst Hsec Hexp Hcount H32 Hnow Hle Hs Hlim Hplan Hper Hk Hold Hnew.
  split; [cbn; by rewrite lookup_insert_eq|].
  pose proof (load_persisted _ _ _ _ _ _ s Hst Hsec Hexp Hcount H32 Hnow Hle Hs Hlim Hplan Hper) as Hl.
  cbn [replay_list replay_step] in Hl. rewrite decide_False in Hl by lia. cbn [mbind option_bind replay_list] in Hl.
  destruct Hl as (s' & Hrun & _ & Hm & _). exists s'. split; [done|]. rewrite Hm.
  by apply (map_lookup_filter_Some (M := gmap bytes)).
Qed.

(** C29. A torn journal is refused. If the journal ends in a proper, non-empty
    prefix of a packet (a crash in the middle of an append), replay applies the
    complete packets, all of them and in order, and then fails: the table and
    the clients are those after the complete packets, so the tail is neither
    applied nor taken for the end of the journal. (When one of the complete
    packets is itself refused by the limits, replay fails there already.) *)
Theorem torn_journal_refused storage xs nonce stamp j k now s :
  js_ok storage xs → server_ok s → 0 ≤ now → length nonce = 16%nat → zlen (enc_journal stamp j) < 2 ^ 32 →
  let packet := sealed storage MP_CACHE_STORAGE_JOURNAL_MAGIC nonce (enc_journal stamp j) in
  let journal := journal_bytes storage xs ++ take k packet in
  (0 < k < length packet)%nat →
  ∃ e s', replay_journal (S (length journal)) storage journal now s = (Fail e, s') ∧
    match replay_list (store_memory_limit (sv_store s)) (store_max_key (sv_store s)) (store_max_value (sv_store s))
            now (store_map (sv_store s), records (sv_security s)) xs.*2 with
    | Some (m, rs) => store_map (sv_store s') = m ∧ records (sv_security s') = rs
    | None => True
    end.
Proof.
  intros Hxs Hs Hnow Hn H32 packet journal Hk.
  pose proof (replay_journal_app (S (length journal)) storage xs (take k packet) now s Hxs (Nat.lt_succ_diag_r _) Hs Hnow) as Hr.
  change (journal_bytes storage xs ++ take k packet) with journal in Hr.
  destruct (replay_list _ _ _ _ _ _) as [[m rs]|]; [|destruct Hr as (e & s' & Hrun); by exists e, s'].
  destruct Hr as (fuel & s' & Hf & Hrun & _ & Hm & Hrs). rewrite length_take in Hf. destruct fuel as [|fuel]; [lia|].
  destruct (read_torn storage MP_CACHE_STORAGE_JOURNAL_MAGIC nonce (enc_journal stamp j) k (sv_world s') eq_refl Hn H32 Hk)
    as (e & w' & Hrd).
  exists e, (set_world s' w'). split; [|by destruct s']. rewrite Hrun. cbn [replay_journal]. apply bind_fail, in_world_eq, Hrd.
Qed.

(** C11. Loading is safe on any files. Whatever bytes the checkpoint and journal
    files hold and whatever allocation or disk operation fails, loading returns
    (with success or an error, within its fuel, without an out-of-bounds access),
    and the store and the registry it leaves are well formed. *)
Theorem load_survives_any_files storage now s :
  image_wf (server_image s) → files_wf (w_disk (sv_world s)) →
  (mp_cache_storage_load_state storage now s).1 ≠ Stuck ∧
  image_wf (server_image (mp_cache_storage_load_state storage now s).2).
Proof.
  intros [Hst Hsec] Hf. unfold mp_cache_storage_load_state. rewrite (bind_ret clear_service _ _ _ _ eq_refl).
  set (s0 := Server (sv_world s) (mp_cache_store_clear (sv_store s)) (mp_cache_security_clear_clients (sv_security s))).
  assert (image_wf (server_image s0)) as Hs0.
  { destruct (clear_outcome _ Hst) as (? & _). split; [done|by apply clear_clients_wf]. }
  pose proof (load_checkpoint_total storage now s0 Hf Hs0) as Hc. cbv zeta in Hc. unfold mbind, STE_bind in Hc |- *.
  destruct (in_world (mp_cache_storage_read_packet_file _ _ _) s0) as [[c|e|] s1]; [|cbn in *; tauto..].
  assert (∀ s2, image_wf (server_image s2) → files_wf (w_disk (sv_world s2)) →
    let r := (opened ← attempt (in_world (in_disk (fopen_rb (st_journal_path storage))));
      match opened with
      | Fail ENOENT => mret tt
      | Fail e => fail e
      | Stuck => lift Stuck
      | Ret journal => replay_journal (S (length journal)) storage journal now
      end) s2 in r.1 ≠ Stuck ∧ image_wf (server_image r.2)) as Htail.
  { intros s2 Hs2 Hf2. cbv zeta. destruct (fopen_rb_wf (st_journal_path storage) s2 Hf2 Hs2) as (o & s3 & Hop & Hs3 & Ho).
    rewrite (bind_ret _ _ _ _ _ Hop). destruct o as [journal|e|]; [|by destruct e|done]. by apply replay_total; [| |lia]. }
  destruct c as [[payload mac]|]; [|apply Htail; apply Hc].
  destruct (in_image _ s1) as [[[]|e|] s2]; [|cbn in *; tauto..]. apply Htail; apply Hc.
Qed.

(** C32. An import only reads a regular file whose path starts with the export
    directory, fits the path buffer and has no parent-directory component in
    the part the caller gave; the file is not changed by resolving it. *)
Theorem import_path_confined storage requested cap w p w' :
  mp_cache_storage_resolve_import_path storage requested cap w = (Ret p, w') →
  w' = w ∧ (∃ rest, p = st_export_directory storage ++ rest) ∧ zlen p < cap ∧
  contains (cstr "../") requested = false ∧ contains (cstr "/..") requested = false ∧
  (∃ content, file_at (w_disk w) p = Some content).
Proof.
  intros Hrun. destruct (resolve_import_spec storage requested cap w) as (o & Hrun' & Ho).
  rewrite Hrun in Hrun'. injection Hrun' as <- <-. destruct Ho as (Hsw & Hlen & H1 & H2 & Hfile & _).
  split; [done|]. split; [|done]. unfold starts_with in Hsw. apply bool_decide_eq_true in Hsw.
  exists (drop (length (st_export_directory storage)) p). by rewrite <-Hsw at 1; rewrite take_drop.
Qed.

(** The confinement is by name prefix only: a file in a sibling directory
    whose name extends the export directory's name is accepted. *)
Theorem import_accepts_sibling storage rest content w :
  let p := st_export_directory storage ++ cstr "-evil/" ++ rest in
  contains (cstr "../") p = false → contains (cstr "/..") p = false → zlen p < MP_CACHE_PATH_CAP →
  file_at (w_disk w) p = Some content →
  mp_cache_storage_resolve_import_path storage p MP_CACHE_PATH_CAP w = (Ret p, w).
Proof.
  intros p H1 H2 Hlen Hf. eapply resolve_under_export; try done. by eexists.
Qed.

(** C7. An import is all or nothing while memory lasts. Whatever the file holds
    and whatever disk operation fails, either the call fails and the store and
    the registry are the ones before the call, or both are the complete state
    rebuilt from the payload of an authentic packet of the export format, found
    in a file of the export directory, and the call's result is that of the
    checkpoint written last. *)
Theorem import_all_or_nothing storage path now s :
  server_ok s → store_bucket_count (sv_store s) < 2 ^ 32 → files_wf (w_disk (sv_world s)) →
  ∃ o s', mp_cache_storage_import_state storage path now s = (o, s') ∧
  (o ≠ Ret tt ∧ sv_store s' = sv_store s ∧ sv_security s' = sv_security s ∨
   ∃ resolved content n h32 mac cipher h l w w',
     starts_with (st_export_directory storage) resolved = true ∧
     file_at (w_disk (sv_world s)) resolved = Some content ∧
     take n content = h32 ++ mac ++ cipher ∧ take 8 h32 = MP_CACHE_STORAGE_EXPORT_MAGIC ∧
     mac = ec_mac (storage_key storage) (h32 ++ cipher) ∧
     mp_cache_storage_deserialize_state (ec_xor (storage_key storage) (drop 16 h32) cipher) now
       (Image (mp_cache_store_clear (sv_store s)) (mp_cache_security_clear_clients (sv_security s)) h) = (Ret tt, l) ∧
     sv_store s' = img_store l ∧ sv_security s' = img_security l ∧ image_wf l ∧
     mp_cache_storage_checkpoint storage (img_store l) (img_security l) now w = (o, w')).
Proof.
  intros Hs Hb Hf. unfold mp_cache_storage_import_state.
  destruct (resolve_import_spec storage path MP_CACHE_PATH_CAP (sv_world s)) as (o1 & Hres & Ho1).
  unfold mbind at 1, STE_bind at 1. rewrite (in_world_eq _ s _ _ Hres).
  destruct o1 as [resolved|e|]; [|by eexists _, _; split; [reflexivity|]; left|done].
  destruct Ho1 as (Hsw & _ & _ & _ & _ & _).
  unfold mbind at 1, STE_bind at 1.
  destruct (read_packet_file_frame storage resolved MP_CACHE_STORAGE_EXPORT_MAGIC (sv_world s) (Hf _))
    as (o2 & w2 & Hrd & _ & Hn & Ho2).
  change (sv_world s) with (sv_world (set_world s (sv_world s))) in Hrd. rewrite (in_world_eq _ _ _ _ Hrd).
  destruct o2 as [[[payload mac]|]|e|]; [|by eexists _, _; split; [reflexivity|]; left..|done].
  destruct Ho2 as (Hh & Hpw & content & n & h32 & cipher & Hc & Ht & _ & Hm & Hmac & Hp).
  set (s2 := set_world _ w2). fold (install_payload storage payload now).
  destruct (install_payload_spec storage payload now s2 Hpw) as [(e & s' & -> & H1 & H2 & _)|(h & l & Hd & _ & -> & Hwf & _)];
    [destruct Hs as [[? ?] ?]; split; [by split|by apply Hh]|done|by eexists _, _; split; [reflexivity|]; left|].
  unfold checkpoint_service, in_world, zoom. cbn [sv_world sv_store sv_security].
  destruct (mp_cache_storage_checkpoint _ _ _ _ _) as [o w'] eqn:Hck. eexists _, _. split; [reflexivity|]. right.
  rewrite Hp in Hd. eexists resolved, content, n, h32, mac, cipher, h, l, _, w'. by repeat (split; [done|]).
Qed.

(** C23. An export can be imported. If an export succeeded and its file is still
    there, importing it into any well-formed service with the same limits and
    the same storage key, at any later time, replaces that service's state by
    the exported entries that have not expired and the exported client records,
    whatever becomes of the checkpoint written at the end; the reported counts
    are those of the exported state. *)
Theorem export_import_roundtrip storage store security now w r w1 now' s :
  store_wf store → security_wf security → expiry_ok store → entry_count store < 2 ^ 32 →
  zlen (enc_state (filter (live now) (entries store)) (records security) now) < 2 ^ 32 →
  mp_cache_storage_export_state storage store security now w = (Ret r, w1) →
  contains (cstr "../") (export_path r) = false → contains (cstr "/..") (export_path r) = false →
  0 ≤ now' → now ≤ now' → server_ok s → same_limits store (sv_store s) →
  store_bucket_count (sv_store s) < 2 ^ 32 → files_wf (w_disk (sv_world s)) →
  w_disk (sv_world s) = Disk (disk_nodes (w_disk w1)) [] →
  export_entry_count r = zlen (filter (live now) (entries store)) ∧
  export_client_count r = zlen (records security) ∧
  ∃ o s', mp_cache_storage_import_state storage (export_path r) now' s = (o, s') ∧
    store_map (sv_store s') = filter (fun kv => now' < kv.2.2) (store_map store) ∧
    records (sv_security s') = records security.
Proof.
  intros Hst Hsec Hexp Hcount H32 Hrun Hc1 Hc2 Hnow Hle Hs Hlim Hb Hf Hd.
  destruct (export_spec _ _ _ _ _ _ _ Hst Hrun) as (nonce & pid & Hn & Hmax & Hpath & Hlen & Hfile & _ & Hec & Hcc).
  split; [done|]. split; [done|]. set (p := export_path r) in *.
  assert (file_at (w_disk (sv_world s)) p = file_at (w_disk w1) p) as Hfs by (by rewrite Hd).
  rewrite <-Hfs in Hfile. unfold mp_cache_storage_import_state.
  assert (mp_cache_storage_resolve_import_path storage p MP_CACHE_PATH_CAP (sv_world s) = (Ret p, sv_world s)) as Hres.
  { eapply resolve_under_export; try done. exists (drop (length (st_export_directory storage)) p).
    rewrite Hpath. unfold export_file_path. by rewrite drop_app_length. }
  rewrite (bind_ret _ _ _ _ _ (in_world_eq _ s _ _ Hres)).
  pose proof Hs as [[Hist Hisec] Hh].
  destruct (read_packet_file_ok storage p MP_CACHE_STORAGE_EXPORT_MAGIC nonce _ (sv_world s) eq_refl Hn Hh
    ltac:(by rewrite Hd) Hmax H32 Hfile) as (h1 & Hh1 & Hread).
  assert (bytes_wf (enc_state (filter (live now) (entries store)) (records security) now)) as Hpw.
  { destruct (read_packet_file_frame storage p MP_CACHE_STORAGE_EXPORT_MAGIC (sv_world s) (Hf _))
      as (o & w' & Hread' & _ & _ & Ho). rewrite Hread in Hread'. injection Hread' as <- _. tauto. }
  change (sv_world s) with (sv_world (set_world s (sv_world s))) in Hread at 1.
  rewrite (bind_ret _ _ _ _ _ (in_world_eq _ _ _ _ Hread)).
  set (payload := enc_state _ _ now) in *. set (s2 := set_world _ _). fold (install_payload storage payload now').
  assert (server_ok s2) as Hs2 by (split; [by split|done]).
  destruct (clear_outcome _ Hist) as (Hcst & Hclim & Hcmap).
  assert (∀ h, heap_ok h → ∃ l, mp_cache_storage_deserialize_state payload now'
    (Image (mp_cache_store_clear (sv_store s2)) (mp_cache_security_clear_clients (sv_security s2)) h) = (Ret tt, l) ∧
    store_map (img_store l) = filter (fun kv => now' < kv.2.2) (store_map store) ∧
    records (img_security l) = records security) as Hdes.
  { intros h Hhh. destruct (deserialize_checkpoint store security now now' (Image (mp_cache_store_clear (sv_store s2))
      (mp_cache_security_clear_clients (sv_security s2)) h)) as (l & Hl & _ & _ & _ & Hm & Hr & _); try done; [|by exists l].
    split; [split; [done|by apply clear_clients_wf]|done|by etrans|done|done]. }
  destruct (install_payload_spec storage payload now' s2 Hpw Hs2 Hb)
    as [(e & s' & _ & _ & _ & Hno)|(h & l & Hl & Hhh & -> & _ & _)].
  { exfalso. destruct (Hno h1 Hh1) as (l & Hl), (Hdes h1 Hh1) as (l' & Hl' & _). by rewrite Hl in Hl'. }
  destruct (Hdes h Hhh) as (l' & Hl' & Hm & Hr). rewrite Hl in Hl'. injection Hl' as <-.
  unfold checkpoint_service, in_world, zoom. cbn [sv_world sv_store sv_security].
  destruct (mp_cache_storage_checkpoint _ _ _ _ _) as [o w']. by eexists _, _.
Qed.

(** The retention limit is enforced before anything is written: when the
    export directory already holds the maximum number of export files, an
    export fails with ENOSPC and no file changes. *)
Theorem export_limit_enforced storage store security now w n w1 :
  mp_cache_storage_export_count storage w = (Ret n, w1) → st_max_export_files storage ≤ n →
  mp_cache_storage_export_state storage store security now w = (Fail ENOSPC, w1) ∧
  disk_nodes (w_disk w1) = disk_nodes (w_disk w).
Proof.
  intros Hc Hn. split.
  - unfold mp_cache_storage_export_state. rewrite (bind_ret _ _ _ _ _ Hc). by rewrite decide_True.
  - unfold mp_cache_storage_export_count, in_disk, zoom, mbind, STE_bind, next_choice, get_nodes in Hc.
    destruct (disk_plan (w_disk w)) as [|c plan]; cbn in Hc;
      [|destruct c]; destruct (disk_nodes (w_disk w) !! st_export_directory storage) as [[]|];
      injection Hc as ? <-; done.
Qed.

(** A failed rename of the finished temporary file reaches a second
    [fclose] of a stream that is already closed, which is undefined behaviour. *)
Theorem rename_failure_closes_twice temp path packet mac old w e plan :
  disk_plan (w_disk w) = IoOk :: IoOk :: IoFail e :: plan →
  (commit_temp temp path packet mac old w).1 = Stuck.
Proof.
  intros Hp. unfold commit_temp, attempt, in_disk, zoom, mbind, STE_bind, fwrite_flush, sys_fclose, sys_rename,
    next_choice, put_node. destruct w as [h ent [nodes pl] pid tm]. cbn in Hp. by rewrite Hp.
Qed.

End Guarantees.

(** ** Witnesses *)

Definition sample_storage : mp_cache_storage_t := Eval vm_compute in
  Storage (cstr "/d/cp") (cstr "/d/j") (cstr "/d/x") (mp_cache_sha256 (cstr "k")) 4096 2.
Definition sample_world : world :=
  World [] (Entropy [] (replicate 8 (ReadBytes (zeros 16))))
    (Disk {[ cstr "/d" := Directory; cstr "/d/x" := Directory ]} []) 7 110.
Definition sample_js : list journal_entry := [JSet (cstr "k") (cstr "v") 200; JDelete (cstr "z")].

(** A checkpoint, then two journalled operations, then a restart. *)
Definition sample_saved : world := Eval vm_compute in
  (mp_cache_storage_checkpoint sample_storage sample_store sample_registry 110 sample_world).2.
Definition sample_journalled : world := Eval vm_compute in (append_all sample_storage sample_js sample_saved).2.
Lemma sample_checkpoint :
  mp_cache_storage_checkpoint sample_storage sample_store sample_registry 110 sample_world = (Ret tt, sample_saved).
Proof. vm_compute. reflexivity. Qed.

Lemma sample_append : append_all sample_storage sample_js sample_saved = (Ret tt, sample_journalled).
Proof. vm_compute. reflexivity. Qed.

Definition restart (w : world) : server := Server w sample_empty sample_empty_registry.

Lemma restart_ok w : w_heap w = [] → server_ok (restart w).
Proof.
  intros Hw. destruct sample_target_wf as [? ?]. split; [by split|]. cbn. rewrite Hw. constructor.
Qed.

Lemma sample_paths_ok : paths_ok sample_storage (w_pid sample_world).
Proof. decide_now. Qed.

Lemma sample_limits w : same_limits sample_store (sv_store (restart w)).
Proof. apply sample_target_fresh. Qed.

Lemma sample_expiry : expiry_ok sample_store.
Proof. unfold expiry_ok. decide_now. Qed.

Lemma sample_journal_ok j : j ∈ sample_js → journal_ok j ∧ journal_small j.
Proof.
  intros [->|[->|[]%not_elem_of_nil]%elem_of_cons]%elem_of_cons;
    (split; [vm_compute; repeat split; congruence|intros stamp; vm_compute; reflexivity]).
Qed.

Definition node_wf (n : node) : Prop := match n with RegularFile c => bytes_wf c | Directory => True end.
#[local] Instance node_wf_dec n : Decision (node_wf n).
Proof. destruct n; apply _. Defined.

Lemma files_wf_check d : bool_decide (map_Forall (fun _ n => node_wf n) (disk_nodes d)) = true → files_wf d.
Proof.
  intros Hd%bool_decide_eq_true p content Hf. unfold file_at in Hf.
  destruct (disk_nodes d !! p) as [[c|]|] eqn:Hn; [|done..]. injection Hf as <-. exact (Hd _ _ Hn).
Qed.

(** The packet of a five-byte payload. *)
Definition sample_sealing :=
  mp_cache_storage_build_packet sample_storage MP_CACHE_STORAGE_EXPORT_MAGIC (cstr "hello") sample_world.
Definition sample_packet : bytes * bytes := Eval vm_compute in
  match sample_sealing.1 with Ret pm => pm | _ => ([], []) end.

Lemma packet_roundtrip_witness :
  ∃ h', mp_cache_storage_read_packet_stream sample_storage (sample_packet.1 ++ [9]) MP_CACHE_STORAGE_EXPORT_MAGIC sample_world =
    (Ret (Some (cstr "hello", sample_packet.2, [9])), set_heap sample_world h').
Proof.
  apply (packet_roundtrip sample_storage MP_CACHE_STORAGE_EXPORT_MAGIC (cstr "hello") sample_world sample_sealing.2
    sample_packet.1 sample_packet.2 [9] sample_world); [done|done|constructor|vm_compute; reflexivity].
Defined.

Lemma packet_authentic_witness :
  ∃ h32 cipher, sample_packet.1 ++ [9] = h32 ++ sample_packet.2 ++ cipher ++ [9] ∧ length h32 = 32%nat.
Proof.
  destruct (packet_authentic sample_storage (sample_packet.1 ++ [9]) MP_CACHE_STORAGE_EXPORT_MAGIC sample_world
    (cstr "hello") sample_packet.2 [9] sample_world) as (h32 & cipher & H1 & H2 & _).
  - decide_now.
  - vm_compute. reflexivity.
  - exists h32, cipher. exact (conj H1 H2).
Defined.

Lemma checkpoint_atomic_witness :
  ∃ o w', mp_cache_storage_checkpoint sample_storage sample_store sample_registry 110 sample_world = (o, w').
Proof.
  destruct (checkpoint_atomic sample_storage sample_store sample_registry 110 sample_world sample_store_wf sample_paths_ok)
    as (o & w' & Hrun & _). exists o, w'. exact Hrun.
Defined.

Definition sample_recovered := replay_list 200 16 64 120
  (filter (fun kv => 120 < kv.2.2) (store_map sample_store), records sample_registry) sample_js.

Lemma recovery_restores_witness :
  ∃ m s', sample_recovered = Some (m, records sample_registry) ∧
    mp_cache_storage_load_state sample_storage 120 (restart sample_journalled) = (Ret tt, s') ∧
    store_map (sv_store s') = m.
Proof.
  assert (sample_recovered = match sample_recovered with Some (m, _) => Some (m, records sample_registry) | None => None end)
    as Hrec by (vm_compute; reflexivity).
  assert (store_memory_limit sample_store = 200 ∧ store_max_key sample_store = 16 ∧ store_max_value sample_store = 64)
    as (E1 & E2 & E3) by (vm_compute; split; [reflexivity|split; reflexivity]).
  pose proof (recovery_restores sample_storage sample_store sample_registry 110 sample_js sample_world sample_saved
    sample_journalled 120 (restart sample_journalled) sample_store_wf sample_registry_wf sample_expiry) as Hr.
  rewrite E1, E2, E3 in Hr. fold sample_recovered in Hr.
  assert (is_Some sample_recovered) as [[m rs] Hm] by (decide_now).
  rewrite Hm in Hr, Hrec. injection Hrec as ->.
  destruct Hr as (s' & Hrun & _ & Hmap & _); [vm_compute; reflexivity|vm_compute; reflexivity|exact sample_paths_ok| | | |lia|lia| |
    exact (sample_limits _)|vm_compute; reflexivity|].
  - exact (proj2 (Forall_forall _ _) sample_journal_ok).
  - exact sample_checkpoint.
  - exact sample_append.
  - apply restart_ok. vm_compute. reflexivity.
  - exists m, s'. exact (conj Hm (conj Hrun Hmap)).
Defined.

(** What a checkpoint and a list of journalled operations leave on disk. *)
Lemma saved_persisted js w :
  Forall (fun j => journal_ok j ∧ journal_small j) js → append_all sample_storage js sample_saved = (Ret tt, w) →
  persisted sample_storage sample_store sample_registry 110 js (w_disk w).
Proof.
  intros Hjs Happ.
  destruct (checkpoint_persists _ _ _ _ _ _ sample_store_wf sample_paths_ok sample_checkpoint) as [Hper Hpid].
  refine (append_all_persists sample_storage sample_store sample_registry 110 js [] _ _ Hjs _ Hper Happ).
  rewrite Hpid. exact sample_paths_ok.
Qed.

Lemma sample_persisted :
  persisted sample_storage sample_store sample_registry 110 sample_js (w_disk sample_journalled).
Proof.
  apply saved_persisted; [exact (proj2 (Forall_forall _ _) sample_journal_ok)|exact sample_append].
Qed.

Definition sample_overwrite : world := Eval vm_compute in
  (append_all sample_storage [JSet (cstr "user") (cstr "bob") 115] sample_saved).2.

Lemma expired_overwrite_resurrects_witness :
  ∃ s', mp_cache_storage_load_state sample_storage 120 (restart sample_overwrite) = (Ret tt, s') ∧
    store_map (sv_store s') !! cstr "user" = Some (cstr "ada", 130).
Proof.
  destruct (expired_overwrite_resurrects sample_storage sample_store sample_registry 110 (cstr "user") (cstr "ada") 130
    (cstr "bob") 115 120 (restart sample_overwrite) sample_store_wf sample_registry_wf sample_expiry) as [_ Hr];
    [vm_compute; reflexivity|vm_compute; reflexivity|lia|lia| |exact (sample_limits _)|vm_compute; reflexivity| |
     vm_compute; reflexivity|lia|lia|exact Hr].
  - apply restart_ok. vm_compute. reflexivity.
  - apply saved_persisted; [|vm_compute; reflexivity].
    apply Forall_singleton. split; [vm_compute; repeat split; congruence|intros stamp; vm_compute; reflexivity].
Defined.

(** A complete SET and the first 30 bytes of a purge. *)
Definition sample_torn_head : list (bytes * Z * journal_entry) := [(zeros 16, 100, JSet (cstr "t") [7] 300)].

Lemma torn_journal_refused_witness :
  let journal := journal_bytes sample_storage sample_torn_head ++
    take 30 (sealed sample_storage MP_CACHE_STORAGE_JOURNAL_MAGIC (zeros 16) (enc_journal 100 JPurgeAll)) in
  ∃ e s', replay_journal (S (length journal)) sample_storage journal 120 (restart sample_world) = (Fail e, s') ∧
    store_map (sv_store s') !! cstr "t" = Some ([7], 300).
Proof.
  destruct (torn_journal_refused sample_storage sample_torn_head (zeros 16) 100 JPurgeAll 30 120 (restart sample_world))
    as (e & s' & Hrun & Hm);
    [|apply restart_ok; reflexivity|lia|reflexivity|vm_compute; reflexivity|vm_compute; lia|].
  - constructor; [|constructor]. vm_compute. repeat split; try done; try lia; repeat constructor; try done; lia.
  - exists e, s'. split; [exact Hrun|].
    assert (replay_list (store_memory_limit (sv_store (restart sample_world))) (store_max_key (sv_store (restart sample_world)))
      (store_max_value (sv_store (restart sample_world))) 120
      (store_map (sv_store (restart sample_world)), records (sv_security (restart sample_world))) sample_torn_head.*2
      = Some (<[cstr "t" := ([7], 300)]> (store_map (sv_store (restart sample_world))), records (sv_security (restart sample_world))))
      as Hrep by (vm_compute; reflexivity).
    rewrite Hrep in Hm. destruct Hm as [-> _]. by rewrite lookup_insert_eq.
Defined.

(** A disk whose checkpoint file is garbage. *)
Definition sample_garbage : world :=
  set_disk sample_world (Disk (<[cstr "/d/cp" := RegularFile [1; 2; 3]]> (disk_nodes (w_disk sample_world))) []).

Lemma load_survives_any_files_witness :
  (mp_cache_storage_load_state sample_storage 120 (restart sample_garbage)).1 ≠ Stuck.
Proof.
  apply (load_survives_any_files sample_storage 120 (restart sample_garbage)).
  - apply restart_ok. reflexivity.
  - apply files_wf_check. vm_compute. reflexivity.
Defined.

(** An export of the sample service, and a restart that finds its file. *)
Definition sample_export := Eval vm_compute in
  mp_cache_storage_export_state sample_storage sample_store sample_registry 110 sample_world.
Definition sample_result : mp_cache_export_result_t :=
  match sample_export.1 with Ret r => r | _ => ExportResult [] [] 0 0 end.

Lemma sample_export_run :
  mp_cache_storage_export_state sample_storage sample_store sample_registry 110 sample_world = (Ret sample_result, sample_export.2).
Proof. vm_compute. reflexivity. Qed.

Lemma import_path_confined_witness :
  ∃ rest, export_path sample_result = cstr "/d/x" ++ rest.
Proof.
  destruct (import_path_confined sample_storage (export_path sample_result) MP_CACHE_PATH_CAP sample_export.2
    (export_path sample_result) sample_export.2) as (_ & Hr & _); [vm_compute; reflexivity|exact Hr].
Defined.

Lemma import_accepts_sibling_witness :
  mp_cache_storage_resolve_import_path sample_storage (cstr "/d/x-evil/a") MP_CACHE_PATH_CAP
    (set_disk sample_world (Disk {[ cstr "/d/x-evil/a" := RegularFile [1] ]} [])) =
  (Ret (cstr "/d/x-evil/a"), set_disk sample_world (Disk {[ cstr "/d/x-evil/a" := RegularFile [1] ]} [])).
Proof.
  apply (import_accepts_sibling sample_storage (cstr "a") [1]
    (set_disk sample_world (Disk {[ cstr "/d/x-evil/a" := RegularFile [1] ]} []))); vm_compute; reflexivity.
Defined.

Lemma import_all_or_nothing_witness :
  ∃ o s', mp_cache_storage_import_state sample_storage (export_path sample_result) 120 (restart sample_export.2) = (o, s').
Proof.
  destruct (import_all_or_nothing sample_storage (export_path sample_result) 120 (restart sample_export.2))
    as (o & s' & Hrun & _).
  - apply restart_ok. reflexivity.
  - vm_compute. reflexivity.
  - apply files_wf_check. vm_compute. reflexivity.
  - exists o, s'. exact Hrun.
Defined.

Lemma export_import_roundtrip_witness :
  ∃ o s', mp_cache_storage_import_state sample_storage (export_path sample_result) 120 (restart sample_export.2) = (o, s') ∧
    store_map (sv_store s') = filter (fun kv => 120 < kv.2.2) (store_map sample_store) ∧
    records (sv_security s') = records sample_registry.
Proof.
  destruct (export_import_roundtrip sample_storage sample_store sample_registry 110 sample_world sample_result
    sample_export.2 120 (restart sample_export.2) sample_store_wf sample_registry_wf sample_expiry) as (_ & _ & Hr);
    [vm_compute; reflexivity|vm_compute; reflexivity|exact sample_export_run|vm_compute; reflexivity|
     vm_compute; reflexivity|lia|lia| |exact (sample_limits _)|vm_compute; reflexivity| |vm_compute; reflexivity|exact Hr].
  - apply restart_ok. reflexivity.
  - apply files_wf_check. vm_compute. reflexivity.
Defined.

(** An export directory that is full. *)
Definition sample_full : world := set_disk sample_world (Disk {[ cstr "/d/x" := Directory;
  cstr "/d/x/mp-cache-export-1-2.bin" := RegularFile []; cstr "/d/x/mp-cache-export-3-4.bin" := RegularFile [] ]} []).

Lemma export_limit_enforced_witness :
  mp_cache_storage_export_state sample_storage sample_store sample_registry 110 sample_full = (Fail ENOSPC, sample_full).
Proof.
  apply (export_limit_enforced sample_storage sample_store sample_registry 110 sample_full 2 sample_full);
    [vm_compute; reflexivity|vm_compute; congruence].
Defined.

Lemma rename_failure_closes_twice_witness :
  (commit_temp (cstr "/d/cp.tmp.7") (cstr "/d/cp") [1] [] []
     (set_disk sample_world (Disk ∅ [IoOk; IoOk; IoFail EIO]))).1 = Stuck.
Proof. apply (rename_failure_closes_twice _ _ _ _ _ _ EIO []). reflexivity. Defined.
