(* ===== verification/HttpServer.v ===== *)
(** * HttpServer: the request handling of internal/httpserver/http_server.{h,c}

    The server's own state (counters, rate limiter, sweep time), authentication
    and rate limiting, one definition per endpoint handler, the dispatcher and
    the connection loop. Handlers run in [STE http_server]: the outcome [Ret] is
    the response, an allocation failure of a response body leaves the body NULL
    as in the code, and [Stuck] comes only from the storage layer. *)

From stdpp Require Import base numbers strings option gmap list.
From S2P Require Import Prelude Config Crypto Cache Security Fs CString Log HttpText StorageCodec Storage.
Local Open Scope Z_scope.

(** ** State *)

(** The counters of [mp_cache_http_metrics_t], by name. *)
Inductive metric :=
| total_requests | unauthorized_requests | forbidden_requests | rate_limited_requests
| cache_hits | cache_misses | cache_sets | cache_deletes | client_registrations
| token_rotations | token_invalidations | exports | imports | log_reads.

#[export] Instance metric_eq_dec : EqDecision metric.
Proof. solve_decision. Defined.

Definition mp_cache_http_metrics_t : Type := metric → Z.

Record mp_cache_rate_limit_entry_t := RateEntry {
  subject : bytes;
  window_started_at : Z;
  request_count : Z;
}.

Record mp_cache_rate_limiter_t := RateLimiter {
  rl_entries : list mp_cache_rate_limit_entry_t;
  rl_capacity : Z;
}.

(** The server struct with the objects it points to. *)
Record mp_cache_http_server_t := HttpServer {
  started_at_utc : Z;
  last_sweep_at_utc : Z;
  hs_config : mp_cache_config_t;
  hs_storage : mp_cache_storage_t;
  rate_limiter : mp_cache_rate_limiter_t;
  metrics : mp_cache_http_metrics_t;
  service : server;
}.

Record mp_cache_http_response_t := Response {
  status_code : Z;
  status_text : bytes;
  response_body : option bytes;
  allow_header_value : option bytes;
  extra_headers : option bytes;
}.

Abbreviation HTTP := (STE mp_cache_http_server_t).

Definition set_service (s : mp_cache_http_server_t) (v : server) : mp_cache_http_server_t :=
  HttpServer (started_at_utc s) (last_sweep_at_utc s) (hs_config s) (hs_storage s) (rate_limiter s) (metrics s) v.
Definition set_limiter (s : mp_cache_http_server_t) (l : mp_cache_rate_limiter_t) : mp_cache_http_server_t :=
  HttpServer (started_at_utc s) (last_sweep_at_utc s) (hs_config s) (hs_storage s) l (metrics s) (service s).
Definition set_metrics (s : mp_cache_http_server_t) (m : mp_cache_http_metrics_t) : mp_cache_http_server_t :=
  HttpServer (started_at_utc s) (last_sweep_at_utc s) (hs_config s) (hs_storage s) (rate_limiter s) m (service s).
Definition set_swept (s : mp_cache_http_server_t) (now : Z) (v : server) : mp_cache_http_server_t :=
  HttpServer (started_at_utc s) now (hs_config s) (hs_storage s) (rate_limiter s) (metrics s) v.
Definition set_store (v : server) (store : mp_cache_store_t) : server := Server (sv_world v) store (sv_security v).
Definition set_security (v : server) (security : mp_cache_security_t) : server :=
  Server (sv_world v) (sv_store v) security.

Definition get_server : HTTP mp_cache_http_server_t := fun s => (Ret s, s).
Definition put_limiter (l : mp_cache_rate_limiter_t) : HTTP unit := fun s => (Ret tt, set_limiter s l).
Definition in_service {A} (m : STE server A) : HTTP A := zoom service set_service m.
Definition on_heap {A} (m : ST heap A) : HTTP A := in_service (in_world (in_heap (run m))).

(** [server->metrics.x += n] *)
Definition add_metric (k : metric) (n : Z) : HTTP unit := fun s =>
  (Ret tt, set_metrics s (fun x => if decide (x = k) then u64 (metrics s x + n) else metrics s x)).
Definition count (k : metric) : HTTP unit := add_metric k 1.

(** [if (m != 0)]: whether the call succeeded; what is undefined stays so. *)
Definition succeeds {S A} (m : STE S A) : STE S bool := fun s =>
  match m s with
  | (Ret _, s') => (Ret true, s')
  | (Fail _, s') => (Ret false, s')
  | (Stuck, s') => (Stuck, s')
  end.

(** Source-text literals with apostrophes for the double quotes of the C text. *)
Definition json (text : string) : bytes := (fun c => if decide (c = 39) then 34 else c) <$> cstr text.

(** ** Responses *)

(** [strdup_printf] of a rendered text: NULL when there is no memory. *)
Definition mp_cache_http_strdup_printf (rendered : bytes) : HTTP (option bytes) :=
  ok ← on_heap alloc;
  mret (if (ok : bool) then Some rendered else None).

Definition mp_cache_http_error_code_is_defined (error_code : option bytes) : bool :=
  match error_code with
  | None => false
  | Some code => bool_decide (code ∈ [cstr "conflict"; cstr "forbidden"; cstr "internal_error";
                                     cstr "invalid_argument"; cstr "limit_exceeded"; cstr "not_found";
                                     cstr "unauthorized"])
  end.

Definition mp_cache_http_make_error (status : Z) (text : bytes) (error_code message : option bytes)
    (allow_header extra_headers : option bytes) : HTTP mp_cache_http_response_t :=
  let code := if mp_cache_http_error_code_is_defined error_code then default [] error_code
              else cstr "internal_error" in
  let message := default (cstr "request failed") message in
  body ← mp_cache_http_strdup_printf
    (json "{'error_code':'" ++ code ++ json "','error_description':'" ++ message ++
     json "','error':'" ++ code ++ json "','message':'" ++ message ++ json "'}");
  mret (Response status text body allow_header extra_headers).

(** The error responses the handlers build. *)
Definition error (status : Z) (text code message : string) : HTTP mp_cache_http_response_t :=
  mp_cache_http_make_error status (cstr text) (Some (cstr code)) (Some (cstr message)) None None.
Definition bad_request (message : string) : HTTP mp_cache_http_response_t :=
  error 400 "Bad Request" "invalid_argument" message.
Definition not_found (message : string) : HTTP mp_cache_http_response_t := error 404 "Not Found" "not_found" message.
Definition internal_error (message : string) : HTTP mp_cache_http_response_t :=
  error 500 "Internal Server Error" "internal_error" message.
Definition method_not_allowed (allow : string) : HTTP mp_cache_http_response_t :=
  mp_cache_http_make_error 405 (cstr "Method Not Allowed") (Some (cstr "invalid_argument"))
    (Some (cstr "method not allowed")) (Some (cstr allow)) None.
Definition unauthorized (message : string) : HTTP mp_cache_http_response_t :=
  mp_cache_http_make_error 401 (cstr "Unauthorized") (Some (cstr "unauthorized")) (Some (cstr message)) None
    (Some (json "WWW-Authenticate: Bearer realm='mp-cache'" ++ [13; 10])).

Definition ok_response (rendered : bytes) : HTTP mp_cache_http_response_t :=
  body ← mp_cache_http_strdup_printf rendered;
  mret (Response 200 (cstr "OK") body None None).

Definition mp_cache_http_path_is_health (path : bytes) : bool :=
  bool_decide (path = cstr "/health" ∨ path = cstr "/v1/health").

(** ** Sweeping, rate limiting, authentication *)

Definition mp_cache_http_maybe_sweep (now : Z) : HTTP unit := fun s =>
  if decide (last_sweep_at_utc s = 0 ∨ num (hs_config s) sweep_interval_seconds ≤ now - last_sweep_at_utc s) then
    (Ret tt, set_swept s now (set_store (service s) (mp_cache_store_purge_expired (sv_store (service s)) now).2))
  else (Ret tt, s).

(** The first bucket of the subject, with its index. *)
Fixpoint find_rate_entry (i : nat) (es : list mp_cache_rate_limit_entry_t) (who : bytes)
    : option (nat * mp_cache_rate_limit_entry_t) :=
  match es with
  | [] => None
  | e :: es' => if decide (subject e = who) then Some (i, e) else find_rate_entry (S i) es' who
  end.

(** The bucket of the subject, made when there is none; [None] when the array
    cannot grow. *)
Definition rate_limit_bucket (limiter : mp_cache_rate_limiter_t) (who : bytes) (now : Z)
    : ST heap (option (nat * mp_cache_rate_limit_entry_t * mp_cache_rate_limiter_t)) :=
  match find_rate_entry 0 (rl_entries limiter) who with
  | Some (i, e) => mret (Some (i, e, limiter))
  | None =>
    let entry := RateEntry (snprintf_s MP_CACHE_CLIENT_ID_CAP who) now 0 in
    let appended (capacity : Z) := RateLimiter (rl_entries limiter ++ [entry]) capacity in
    if decide (zlen (rl_entries limiter) = rl_capacity limiter) then
      ok ← alloc;
      mret (if (ok : bool) then
              Some (length (rl_entries limiter), entry,
                    appended (if decide (rl_capacity limiter = 0) then 8 else u64 (rl_capacity limiter * 2)))
            else None)
    else mret (Some (length (rl_entries limiter), entry, appended (rl_capacity limiter)))
  end.

(** The window of the bucket at time [now], then the check and the count. *)
Definition rate_limit_charge (requests window now : Z) (e : mp_cache_rate_limit_entry_t)
    : bool * mp_cache_rate_limit_entry_t :=
  let e := if decide (window ≤ now - window_started_at e) then RateEntry (subject e) now 0 else e in
  if decide (requests ≤ request_count e) then (false, e)
  else (true, RateEntry (subject e) (window_started_at e) (u32 (request_count e + 1))).

Definition mp_cache_http_rate_limit_allow (who : bytes) (now : Z) : HTTP bool :=
  s ← get_server;
  r ← on_heap (rate_limit_bucket (rate_limiter s) who now);
  match r with
  | None => mret false
  | Some (i, e, limiter) =>
    let '(allowed, e) := rate_limit_charge (num (hs_config s) rate_limit_requests)
                           (num (hs_config s) rate_limit_window_seconds) now e in
    _ ← put_limiter (RateLimiter (<[i := e]> (rl_entries limiter)) (rl_capacity limiter));
    mret allowed
  end.

(** The caller's principal, or the response that refuses the request. *)
Definition mp_cache_http_authenticate (request : mp_cache_http_request_t) (required_role now : Z)
    : HTTP (mp_cache_principal_t + mp_cache_http_response_t) :=
  match mp_cache_http_extract_bearer_token (authorization_header request) with
  | None | Some [] =>
    _ ← count unauthorized_requests;
    r ← unauthorized "missing bearer token"; mret (inr r)
  | Some token =>
    s ← get_server;
    match mp_cache_security_authenticate (sv_security (service s)) (Some token) with
    | (MP_CACHE_SECURITY_STATUS_OK, Some principal) =>
      if mp_cache_role_allows (principal_role principal) required_role then
        allowed ← mp_cache_http_rate_limit_allow (principal_client_id principal) now;
        if (allowed : bool) then mret (inl principal) else
        _ ← count rate_limited_requests;
        r ← mp_cache_http_make_error 429 (cstr "Too Many Requests") (Some (cstr "limit_exceeded"))
              (Some (cstr "rate limit exceeded")) None (Some (cstr "Retry-After: 60" ++ [13; 10]));
        mret (inr r)
      else
        _ ← count forbidden_requests;
        r ← error 403 "Forbidden" "forbidden" "insufficient role"; mret (inr r)
    | _ =>
      _ ← count unauthorized_requests;
      r ← unauthorized "invalid bearer token"; mret (inr r)
    end
  end.

Section Handlers.
Context {EC : EnvelopeCrypto}.

(** ** Calls of the store, the registry and the storage *)

Definition svc_get (key : bytes) (now : Z) : HTTP (mp_cache_store_status_t * option (bytes * Z)) := in_service (fun v =>
  let '(status, found, store, h) := mp_cache_store_get_copy (sv_store v) (Some key) now (w_heap (sv_world v)) in
  (Ret (status, found), Server (set_heap (sv_world v) h) store (sv_security v))).

Definition svc_set (key value : bytes) (ttl now : Z) : HTTP mp_cache_store_status_t := in_service (fun v =>
  let '(status, store, h) := mp_cache_store_set (sv_store v) (Some key) (Some value) ttl now (w_heap (sv_world v)) in
  (Ret status, Server (set_heap (sv_world v) h) store (sv_security v))).

Definition svc_delete (key : bytes) : HTTP mp_cache_store_status_t := in_service (fun v =>
  let '(status, store) := mp_cache_store_delete (sv_store v) (Some key) in (Ret status, set_store v store)).

Definition svc_clear : HTTP unit := in_service (fun v => (Ret tt, set_store v (mp_cache_store_clear (sv_store v)))).

Definition svc_register (id : bytes) (new_role : Z) : HTTP (mp_cache_security_status_t * bytes) := in_service (fun v =>
  let w := sv_world v in
  let '(status, token, security, (h, e)) :=
    mp_cache_security_register_client (sv_security v) (Some id) new_role MP_CACHE_TOKEN_TEXT_CAP (w_heap w, w_entropy w) in
  (Ret (status, token), Server (set_entropy (set_heap w h) e) (sv_store v) security)).

Definition svc_rotate (id : bytes) : HTTP (mp_cache_security_status_t * bytes) := in_service (fun v =>
  let w := sv_world v in
  let '(status, token, security, e) :=
    mp_cache_security_rotate_client_token (sv_security v) (Some id) MP_CACHE_TOKEN_TEXT_CAP (w_entropy w) in
  (Ret (status, token), Server (set_entropy w e) (sv_store v) security)).

Definition svc_invalidate (id : bytes) : HTTP mp_cache_security_status_t := in_service (fun v =>
  let '(status, security) := mp_cache_security_invalidate_client_token (sv_security v) (Some id) in
  (Ret status, set_security v security)).

Definition mp_cache_http_resilient_checkpoint (now : Z) : HTTP bool :=
  s ← get_server;
  succeeds (in_service (checkpoint_service (hs_storage s) now)).

(** [append (...) != 0 && resilient_checkpoint (...) != 0], negated: is the
    change on disk? *)
Definition persist (append : mp_cache_storage_t → STE world unit) (now : Z) : HTTP bool :=
  s ← get_server;
  appended ← succeeds (in_service (in_world (append (hs_storage s))));
  if (appended : bool) then mret true else mp_cache_http_resilient_checkpoint now.

(** The client's record, as it now is, on disk; false when it is not found. *)
Definition persist_client (id : bytes) (now : Z) : HTTP bool :=
  s ← get_server;
  match mp_cache_security_find_client (sv_security (service s)) (Some id) with
  | None => mret false
  | Some record => persist (fun storage => mp_cache_storage_append_client storage record) now
  end.

(** ** Response documents *)

Definition health_body (s : mp_cache_http_server_t) (now : Z) : bytes :=
  let stats := mp_cache_store_get_stats (sv_store (service s)) in
  json "{'status':'ok','service':'" ++ text (hs_config s) service_name ++
  json "','environment':'" ++ text (hs_config s) environment_name ++
  json "','socket_path':'" ++ text (hs_config s) socket_path ++
  json "','uptime_seconds':" ++ dec (now - started_at_utc s) ++
  json ",'default_ttl_seconds':" ++ dec (num (hs_config s) default_ttl_seconds) ++
  json ",'memory_limit_bytes':" ++ dec (stats_memory_limit stats) ++
  json ",'entry_count':" ++ dec (stats_entry_count stats) ++
  json ",'bytes_used':" ++ dec (stats_bytes_used stats) ++ json "}".
Definition mp_cache_http_build_health_body (now : Z) : HTTP (option bytes) :=
  s ← get_server; mp_cache_http_strdup_printf (health_body s now).

Definition stats_body (s : mp_cache_http_server_t) (now : Z) : bytes :=
  let stats := mp_cache_store_get_stats (sv_store (service s)) in
  let m := metrics s in
  json "{'uptime_seconds':" ++ dec (now - started_at_utc s) ++
  json ",'entry_count':" ++ dec (stats_entry_count stats) ++
  json ",'bytes_used':" ++ dec (stats_bytes_used stats) ++
  json ",'memory_limit_bytes':" ++ dec (stats_memory_limit stats) ++
  json ",'total_requests':" ++ dec (m total_requests) ++
  json ",'unauthorized_requests':" ++ dec (m unauthorized_requests) ++
  json ",'forbidden_requests':" ++ dec (m forbidden_requests) ++
  json ",'rate_limited_requests':" ++ dec (m rate_limited_requests) ++
  json ",'cache_hits':" ++ dec (m cache_hits) ++ json ",'cache_misses':" ++ dec (m cache_misses) ++
  json ",'cache_sets':" ++ dec (m cache_sets) ++ json ",'cache_deletes':" ++ dec (m cache_deletes) ++
  json ",'client_registrations':" ++ dec (m client_registrations) ++
  json ",'token_rotations':" ++ dec (m token_rotations) ++
  json ",'token_invalidations':" ++ dec (m token_invalidations) ++
  json ",'exports':" ++ dec (m exports) ++ json ",'imports':" ++ dec (m imports) ++
  json ",'log_reads':" ++ dec (m log_reads) ++ json "}".
Definition mp_cache_http_build_stats_body (now : Z) : HTTP (option bytes) :=
  s ← get_server; mp_cache_http_strdup_printf (stats_body s now).

Definition memory_body (s : mp_cache_http_server_t) : bytes :=
  let stats := mp_cache_store_get_stats (sv_store (service s)) in
  json "{'entry_count':" ++ dec (stats_entry_count stats) ++
  json ",'bytes_used':" ++ dec (stats_bytes_used stats) ++
  json ",'memory_limit_bytes':" ++ dec (stats_memory_limit stats) ++ json "}".
Definition mp_cache_http_build_memory_body : HTTP (option bytes) :=
  s ← get_server; mp_cache_http_strdup_printf (memory_body s).

(** A 200 response with a body built by the action. *)
Definition ok_with (build : HTTP (option bytes)) : HTTP mp_cache_http_response_t :=
  body ← build; mret (Response 200 (cstr "OK") body None None).

(** ** The cache endpoints *)

Definition get_body (key value_base64 value : bytes) (expires : Z) : bytes :=
  json "{'key':'" ++ key ++ json "','value_base64':'" ++ value_base64 ++
  json "','value_bytes':" ++ dec (zlen value) ++
  json ",'expires_at_utc_seconds':" ++ dec expires ++ json "}".

Definition mp_cache_http_handle_cache_get (key : bytes) (now : Z) : HTTP mp_cache_http_response_t :=
  '(status, found) ← svc_get key now;
  if decide (status = MP_CACHE_STORE_STATUS_NOT_FOUND ∨ status = MP_CACHE_STORE_STATUS_EXPIRED) then
    _ ← count cache_misses; not_found "cache key not found"
  else
    match status, found with
    | MP_CACHE_STORE_STATUS_OK, Some (value, expires) =>
      ok ← on_heap alloc;
      let encoded := if (ok : bool) then mp_cache_base64_encode value (u64 (u64 (zlen value + 2) `div` 3 * 4 + 1))
                     else Fail ENOMEM in
      match encoded with
      | Ret value_base64 => _ ← count cache_hits; ok_response (get_body key value_base64 value expires)
      | Fail _ => internal_error "value encoding failed"
      | Stuck => lift Stuck
      end
    | _, _ => internal_error "cache read failed"
    end.

Definition MP_CACHE_HTTP_BODY_CAPACITY : nat := Z.to_nat 32768.

(** The decoded value: the buffer has room for every group and three more bytes. *)
Definition decode_value (value_base64 : bytes) : HTTP (outcome bytes) :=
  ok ← on_heap alloc;
  mret (if (ok : bool) then mp_cache_base64_decode value_base64 (zlen value_base64 `div` 4 * 3 + 3) else Fail ENOMEM).

Definition mp_cache_http_handle_cache_put (key : bytes) (request : mp_cache_http_request_t) (now : Z)
    : HTTP mp_cache_http_response_t :=
  s ← get_server;
  match (if decide (request_body_length request = 0) then Fail EINVAL
         else mp_cache_http_extract_json_string (request_body request) (cstr "value_base64") MP_CACHE_HTTP_BODY_CAPACITY) with
  | Stuck => lift Stuck
  | Fail _ => bad_request "value_base64 is required"
  | Ret value_base64 =>
    match (match mp_cache_http_extract_json_u32 (request_body request) (cstr "ttl_seconds") with
           | Fail ENOENT => Ret (num (hs_config s) default_ttl_seconds)
           | r => r
           end) with
    | Stuck => lift Stuck
    | Fail _ => bad_request "ttl_seconds must be an integer"
    | Ret ttl =>
      if decide (ttl < num (hs_config s) min_ttl_seconds ∨ num (hs_config s) max_ttl_seconds < ttl)
      then bad_request "ttl_seconds is outside the configured bounds" else
      decoded ← decode_value value_base64;
      match decoded with
      | Stuck => lift Stuck
      | Fail _ => bad_request "value_base64 is invalid"
      | Ret value =>
        status ← svc_set key value ttl now;
        if decide (status = MP_CACHE_STORE_STATUS_LIMIT_EXCEEDED)
        then error 413 "Payload Too Large" "limit_exceeded" "cache size limit exceeded"
        else if decide (status ≠ MP_CACHE_STORE_STATUS_OK) then internal_error "cache write failed" else
        saved ← persist (fun storage => mp_cache_storage_append_set storage key value (now + ttl)) now;
        if negb saved then internal_error "cache was updated but persistence failed" else
        _ ← count cache_sets;
        ok_response (json "{'key':'" ++ key ++ json "','ttl_seconds':" ++ dec ttl ++
                     json ",'expires_at_utc_seconds':" ++ dec (now + ttl) ++ json "}")
      end
    end
  end.

Definition mp_cache_http_handle_cache_delete (key : bytes) (now : Z) : HTTP mp_cache_http_response_t :=
  status ← svc_delete key;
  if decide (status = MP_CACHE_STORE_STATUS_NOT_FOUND) then not_found "cache key not found"
  else if decide (status ≠ MP_CACHE_STORE_STATUS_OK) then internal_error "cache delete failed" else
  saved ← persist (fun storage => mp_cache_storage_append_delete storage key) now;
  if negb saved then internal_error "cache was deleted but persistence failed" else
  _ ← count cache_deletes;
  ok_response (json "{'key':'" ++ key ++ json "','deleted':true}").

(** ** Logs *)

Definition mp_cache_http_handle_logs (logs : log_directory_t) (request : mp_cache_http_request_t)
    : HTTP mp_cache_http_response_t :=
  s ← get_server;
  match (match mp_cache_http_extract_query_u32 (query_string request) (cstr "tail") with
         | Fail ENOENT => Ret 50
         | r => r
         end) with
  | Stuck => lift Stuck
  | Fail _ => bad_request "tail must be a positive integer"
  | Ret tail_lines =>
    read ← attempt (in_service (in_world (in_heap
             (mp_cache_log_read_latest_tail logs (num (hs_config s) max_log_lines) tail_lines))));
    match read with
    | Stuck => lift Stuck
    | Fail ENOENT => ok_response (json "{'file':null,'tail_lines':0,'text':''}")
    | Fail _ => internal_error "failed to read logs"
    | Ret (log_file_name, log_text) =>
      escaped ← attempt (in_service (in_world (in_heap (mp_cache_http_escape_json log_text))));
      match escaped with
      | Stuck => lift Stuck
      | Fail _ => internal_error "failed to encode logs"
      | Ret escaped =>
        _ ← count log_reads;
        ok_response (json "{'file':'" ++ log_file_name ++ json "','tail_lines':" ++ dec tail_lines ++
                     json ",'text':'" ++ escaped ++ json "'}")
      end
    end
  end.

(** ** Clients *)

Definition mp_cache_http_handle_register_client (request : mp_cache_http_request_t) (now : Z)
    : HTTP mp_cache_http_response_t :=
  match mp_cache_http_extract_json_string (request_body request) (cstr "client_id") MP_CACHE_CLIENT_ID_CAP,
        mp_cache_http_extract_json_string (request_body request) (cstr "role") 16 with
  | Stuck, _ => lift Stuck
  | Ret _, Stuck => lift Stuck
  | Fail _, _ | Ret _, Fail _ => bad_request "client_id and role are required"
  | Ret id, Ret role_text =>
    let new_role := mp_cache_role_from_string (Some role_text) in
    if decide (new_role = MP_CACHE_ROLE_NONE) then bad_request "role must be client, operator, or admin" else
    '(status, token) ← svc_register id new_role;
    if decide (status = MP_CACHE_SECURITY_STATUS_CONFLICT)
    then error 409 "Conflict" "conflict" "client_id already exists"
    else if decide (status ≠ MP_CACHE_SECURITY_STATUS_OK) then bad_request "failed to register client" else
    saved ← persist_client id now;
    if negb saved then internal_error "client was created but persistence failed" else
    _ ← count client_registrations;
    ok_response (json "{'client_id':'" ++ id ++ json "','role':'" ++ mp_cache_role_name new_role ++
                 json "','token':'" ++ token ++ json "'}")
  end.

Definition mp_cache_http_handle_rotate_client (id : bytes) (now : Z) : HTTP mp_cache_http_response_t :=
  '(status, token) ← svc_rotate id;
  if decide (status = MP_CACHE_SECURITY_STATUS_NOT_FOUND) then not_found "client_id not found"
  else if decide (status ≠ MP_CACHE_SECURITY_STATUS_OK) then bad_request "failed to rotate token" else
  saved ← persist_client id now;
  if negb saved then internal_error "token was rotated but persistence failed" else
  _ ← count token_rotations;
  ok_response (json "{'client_id':'" ++ id ++ json "','token':'" ++ token ++ json "'}").

Definition mp_cache_http_handle_invalidate_client (id : bytes) (now : Z) : HTTP mp_cache_http_response_t :=
  status ← svc_invalidate id;
  if decide (status = MP_CACHE_SECURITY_STATUS_NOT_FOUND) then not_found "client_id not found"
  else if decide (status ≠ MP_CACHE_SECURITY_STATUS_OK) then bad_request "failed to invalidate token" else
  saved ← persist_client id now;
  if negb saved then internal_error "token was invalidated but persistence failed" else
  _ ← count token_invalidations;
  ok_response (json "{'client_id':'" ++ id ++ json "','token_active':false}").

(** ** Export, import, purge *)

Definition mp_cache_http_handle_export (now : Z) : HTTP mp_cache_http_response_t :=
  s ← get_server;
  exported ← attempt (in_service (in_world
    (mp_cache_storage_export_state (hs_storage s) (sv_store (service s)) (sv_security (service s)) now)));
  match exported with
  | Stuck => lift Stuck
  | Fail _ => internal_error "state export failed"
  | Ret result =>
    _ ← count exports;
    ok_response (json "{'path':'" ++ export_path result ++ json "','digest_sha256':'" ++ digest_hex result ++
                 json "','entry_count':" ++ dec (export_entry_count result) ++
                 json ",'client_count':" ++ dec (export_client_count result) ++ json "}")
  end.

Definition mp_cache_http_handle_import (request : mp_cache_http_request_t) (now : Z) : HTTP mp_cache_http_response_t :=
  match mp_cache_http_extract_json_string (request_body request) (cstr "path") (Z.to_nat MP_CACHE_PATH_CAP) with
  | Stuck => lift Stuck
  | Fail _ => bad_request "path is required"
  | Ret import_path =>
    s ← get_server;
    imported ← succeeds (in_service (mp_cache_storage_import_state (hs_storage s) import_path now));
    if negb imported then bad_request "state import failed integrity or bounds checks" else
    _ ← count imports;
    ok_response (json "{'path':'" ++ import_path ++ json "','imported':true}")
  end.

(** The deletion loop: the keys purged, the keys missing and whether an append
    failed, after which the remaining deletions are left to the checkpoint;
    [None] when a deletion fails. *)
Fixpoint purge_keys (keys : list bytes) (purged missing : Z) (needs_checkpoint : bool) : HTTP (option (Z * Z * bool)) :=
  match keys with
  | [] => mret (Some (purged, missing, needs_checkpoint))
  | key :: keys' =>
    status ← svc_delete key;
    if decide (status = MP_CACHE_STORE_STATUS_NOT_FOUND) then purge_keys keys' purged (u64 (missing + 1)) needs_checkpoint
    else if decide (status ≠ MP_CACHE_STORE_STATUS_OK) then mret None else
    s ← get_server;
    appended ← (if needs_checkpoint then mret true
                else succeeds (in_service (in_world (mp_cache_storage_append_delete (hs_storage s) key))));
    purge_keys keys' (u64 (purged + 1)) missing (needs_checkpoint || negb appended)
  end.

Definition mp_cache_http_handle_purge_selected (request : mp_cache_http_request_t) (now : Z)
    : HTTP mp_cache_http_response_t :=
  s ← get_server;
  keys ← (if decide (request_body_length request = 0) then mret (Fail EINVAL)
          else attempt (in_service (in_world (in_heap
                 (mp_cache_http_extract_json_string_array (request_body request) (cstr "keys"))))));
  match keys with
  | Stuck => lift Stuck
  | Fail _ | Ret [] => bad_request "keys must be a non-empty string array"
  | Ret keys =>
    if decide (Exists (fun key => key = [] ∨ num (hs_config s) max_key_bytes < zlen key) keys)
    then bad_request "keys must contain only valid cache keys" else
    r ← purge_keys keys 0 0 false;
    match r with
    | None => internal_error "selected key purge failed"
    | Some (purged, missing, needs_checkpoint) =>
      saved ← (if (needs_checkpoint : bool) then mp_cache_http_resilient_checkpoint now else mret true);
      if negb saved then internal_error "selected keys were purged but persistence failed" else
      _ ← add_metric cache_deletes purged;
      ok_response (json "{'requested_keys':" ++ dec (zlen keys) ++ json ",'purged_keys':" ++ dec purged ++
                   json ",'missing_keys':" ++ dec missing ++ json "}")
    end
  end.

Definition mp_cache_http_handle_purge_all (now : Z) : HTTP mp_cache_http_response_t :=
  _ ← svc_clear;
  saved ← persist mp_cache_storage_append_purge_all now;
  if negb saved then internal_error "cache was purged but persistence failed" else
  ok_response (json "{'purged':true}").

Definition mp_cache_http_handle_root (request : mp_cache_http_request_t) : HTTP mp_cache_http_response_t :=
  if decide (method request ≠ cstr "GET") then method_not_allowed "GET" else
  ok_response (json "{'service':'mp-cache','message':'use /health or /v1/* endpoints'}").

Definition mp_cache_http_handle_uptime (now : Z) : HTTP mp_cache_http_response_t :=
  s ← get_server;
  ok_response (json "{'uptime_seconds':" ++ dec (now - started_at_utc s) ++
               json ",'started_at_utc_seconds':" ++ dec (started_at_utc s) ++ json "}").

(** ** The dispatcher *)

(** [if (authenticate (...) != 0) return 0;] then the endpoint. *)
Definition authorized (request : mp_cache_http_request_t) (required_role now : Z)
    (endpoint : HTTP mp_cache_http_response_t) : HTTP mp_cache_http_response_t :=
  a ← mp_cache_http_authenticate request required_role now;
  match a with
  | inr refused => mret refused
  | inl _ => endpoint
  end.

(** The method check of the endpoints with one method. *)
Definition only (allowed : string) (request : mp_cache_http_request_t) (next : HTTP mp_cache_http_response_t)
    : HTTP mp_cache_http_response_t :=
  if decide (method request ≠ cstr allowed) then method_not_allowed allowed else next.

Definition route_cache (request : mp_cache_http_request_t) (now : Z) : HTTP mp_cache_http_response_t :=
  match mp_cache_http_percent_decode (drop 10 (request_path request)) 256 with
  | Stuck => lift Stuck
  | Fail _ => bad_request "cache key is invalid"
  | Ret decoded =>
    let key := c_string decoded in
    if decide (key = []) then bad_request "cache key is invalid" else
    authorized request MP_CACHE_ROLE_CLIENT now (
      if decide (method request = cstr "GET") then mp_cache_http_handle_cache_get key now
      else if decide (method request = cstr "PUT") then mp_cache_http_handle_cache_put key request now
      else if decide (method request = cstr "DELETE") then mp_cache_http_handle_cache_delete key now
      else method_not_allowed "GET, PUT, DELETE")
  end.

(** The client id between the prefix and the suffix of a path, when the path
    ends in the first occurrence of the suffix. *)
Definition client_path (rest : bytes) (suffix : string) : option bytes :=
  match strstr rest (cstr suffix) with
  | None => None
  | Some found => if decide (found = cstr suffix) then Some (take (length rest - length found) rest) else None
  end.

Definition route_client (request : mp_cache_http_request_t) (id : bytes) (now : Z)
    (handler : bytes → Z → HTTP mp_cache_http_response_t) : HTTP mp_cache_http_response_t :=
  only "POST" request (authorized request MP_CACHE_ROLE_ADMIN now (
    if decide (id = [] ∨ (MP_CACHE_CLIENT_ID_CAP ≤ length id)%nat) then bad_request "client_id is invalid"
    else handler id now)).

(** The fixed paths after the client paths. *)
Definition route_admin (request : mp_cache_http_request_t) (now : Z) : HTTP mp_cache_http_response_t :=
  let admin endpoint := only "POST" request (authorized request MP_CACHE_ROLE_ADMIN now endpoint) in
  if decide (request_path request = cstr "/v1/export") then admin (mp_cache_http_handle_export now)
  else if decide (request_path request = cstr "/v1/import") then admin (mp_cache_http_handle_import request now)
  else if decide (request_path request = cstr "/v1/purge/all") then admin (mp_cache_http_handle_purge_all now)
  else if decide (request_path request = cstr "/v1/purge/keys") then
    admin (mp_cache_http_handle_purge_selected request now)
  else not_found "route not found".

Definition route_at (logs : log_directory_t) (request : mp_cache_http_request_t) (now : Z)
    : HTTP mp_cache_http_response_t :=
  let path := request_path request in
  let operator endpoint := only "GET" request (authorized request MP_CACHE_ROLE_OPERATOR now endpoint) in
  if mp_cache_http_path_is_health path then only "GET" request (ok_with (mp_cache_http_build_health_body now))
  else if decide (path = cstr "/") then mp_cache_http_handle_root request
  else if starts_with (cstr "/v1/cache/") path then route_cache request now
  else if decide (path = cstr "/v1/stats") then operator (ok_with (mp_cache_http_build_stats_body now))
  else if decide (path = cstr "/v1/metrics/memory") then operator (ok_with mp_cache_http_build_memory_body)
  else if decide (path = cstr "/v1/uptime") then operator (mp_cache_http_handle_uptime now)
  else if decide (path = cstr "/v1/logs") then operator (mp_cache_http_handle_logs logs request)
  else if decide (path = cstr "/v1/clients") then
    only "POST" request (authorized request MP_CACHE_ROLE_ADMIN now (mp_cache_http_handle_register_client request now))
  else if starts_with (cstr "/v1/clients/") path && bool_decide (12 < length path)%nat then
    match client_path (drop 12 path) "/rotate-token" with
    | Some id => route_client request id now mp_cache_http_handle_rotate_client
    | None =>
      match client_path (drop 12 path) "/invalidate-token" with
      | Some id => route_client request id now mp_cache_http_handle_invalidate_client
      | None => route_admin request now
      end
    end
  else route_admin request now.

Definition mp_cache_http_now : HTTP Z := in_service (in_world time_now).

Definition mp_cache_http_route_request (logs : log_directory_t) (request : mp_cache_http_request_t)
    : HTTP mp_cache_http_response_t :=
  now ← mp_cache_http_now;
  _ ← count total_requests;
  _ ← mp_cache_http_maybe_sweep now;
  route_at logs request now.

(** ** Connections *)

(** What one [send] does. *)
Inductive send_result := SendError (is_eintr : bool) | SentBytes (n : nat).

(** Whether everything was sent, what was, and the results not yet used; a
    used-up list sends everything. *)
Fixpoint mp_cache_http_send_all (events : list send_result) (buffer : bytes) : bool * bytes * list send_result :=
  if decide (buffer = []) then (true, [], events) else
  match events with
  | [] => (true, buffer, [])
  | SendError true :: events' => mp_cache_http_send_all events' buffer
  | SendError false :: events' => (false, [], events')
  | SentBytes 0 :: events' => (false, [], events')
  | SentBytes n :: events' =>
    let '(ok, sent, events'') := mp_cache_http_send_all events' (drop n buffer) in
    (ok, take n buffer ++ sent, events'')
  end.

Definition CRLF : bytes := [13; 10].
Definition MP_CACHE_HTTP_HEADER_CAPACITY : Z := 2048.

Definition response_header (r : mp_cache_http_response_t) : bytes :=
  cstr "HTTP/1.1 " ++ dec (status_code r) ++ cstr " " ++ status_text r ++ CRLF ++
  cstr "Content-Type: application/json" ++ CRLF ++
  cstr "Content-Length: " ++ dec (zlen (default [] (response_body r))) ++ CRLF ++
  cstr "Cache-Control: no-store" ++ CRLF ++
  cstr "Connection: close" ++ CRLF ++
  cstr "X-Content-Type-Options: nosniff" ++ CRLF ++
  match allow_header_value r with None => [] | Some allow => cstr "Allow: " ++ allow ++ CRLF end ++
  default [] (extra_headers r) ++ CRLF.

(** Whether the whole response was sent, and the bytes the peer received. *)
Definition mp_cache_http_write_response (r : mp_cache_http_response_t) (events : list send_result) : bool * bytes :=
  if decide (MP_CACHE_HTTP_HEADER_CAPACITY ≤ zlen (response_header r)) then (false, []) else
  let '(ok, sent, events) := mp_cache_http_send_all events (response_header r) in
  if negb ok then (false, sent) else
  let '(ok, sent', _) := mp_cache_http_send_all events (default [] (response_body r)) in
  (ok, sent ++ sent').

(** The response to one connection: a request that cannot be read is answered
    without touching the counters. *)
Definition mp_cache_http_handle_client (logs : log_directory_t) (received : list recv_result) (sends : list send_result)
    : HTTP bytes :=
  r ← attempt (in_service (in_world (in_heap
        (mp_cache_http_read_request received MP_CACHE_HTTP_REQUEST_CAPACITY))));
  match r with
  | Stuck => lift Stuck
  | Fail _ => response ← bad_request "malformed request"; mret (mp_cache_http_write_response response sends).2
  | Ret request =>
    response ← mp_cache_http_route_request logs request;
    mret (mp_cache_http_write_response response sends).2
  end.

(** One round of the serving loop, as [poll] and [accept] decide. *)
Inductive serve_event :=
| PollError (is_eintr : bool)
| PollQuiet
| AcceptError (is_eintr : bool)
| Accepted (at_time : Z) (logs : log_directory_t) (received : list recv_result) (sends : list send_result).

(** The clock at the time of a request. *)
Definition set_time (at_time : Z) : HTTP unit := in_service (in_world (fun w =>
  (Ret tt, World (w_heap w) (w_entropy w) (w_disk w) (w_pid w) at_time))).

(** The loop runs until the stop flag is set, at the end of the list, or a hard
    error; the bytes sent to each peer are collected. *)
Fixpoint mp_cache_http_server_serve (events : list serve_event) : HTTP (list bytes) :=
  match events with
  | [] => mret []
  | (PollError true | PollQuiet | AcceptError true) :: events' => mp_cache_http_server_serve events'
  | (PollError false | AcceptError false) :: _ => fail EOTHER
  | Accepted at_time logs received sends :: events' =>
    _ ← set_time at_time;
    sent ← mp_cache_http_handle_client logs received sends;
    rest ← mp_cache_http_server_serve events';
    mret (sent :: rest)
  end.

(** ** Start and stop *)

Definition SUN_PATH_SIZE : Z := 108.

(** [socket], [bind] and [listen] succeed or fail as the arguments say. *)
Definition mp_cache_http_server_start (config : mp_cache_config_t) (storage : mp_cache_storage_t) (started : Z)
    (socket_ok bind_ok listen_ok : bool) : STE server mp_cache_http_server_t :=
  _ ← in_world (in_disk (mp_cache_fs_ensure_parent_directory (Some (text config socket_path))));
  _ ← in_world (in_disk (mp_cache_fs_remove_path_if_exists (Some (text config socket_path))));
  if negb socket_ok then fail EOTHER
  else if decide (SUN_PATH_SIZE ≤ zlen (text config socket_path)) then fail ENAMETOOLONG
  else if negb bind_ok then fail EOTHER
  else if negb listen_ok then fail EOTHER
  else fun v => (Ret (HttpServer started started config storage (RateLimiter [] 0) (fun _ => 0) v), v).

Definition mp_cache_http_server_stop : HTTP unit :=
  _ ← put_limiter (RateLimiter [] 0);
  s ← get_server;
  if decide (text (hs_config s) socket_path = []) then mret tt else
  _ ← attempt (in_service (in_world (in_disk
        (mp_cache_fs_remove_path_if_exists (Some (text (hs_config s) socket_path))))));
  mret tt.

(** ** The client side and the in-process harness *)

(** The request text, which must fit the request buffer with its NUL. *)
Definition client_request_text (method path : bytes) (auth_token content_type request_body : option bytes) : bytes :=
  method ++ cstr " " ++ path ++ cstr " HTTP/1.1" ++ CRLF ++
  cstr "Host: localhost" ++ CRLF ++ cstr "Connection: close" ++ CRLF ++
  match auth_token with None => [] | Some token => cstr "Authorization: Bearer " ++ token ++ CRLF end ++
  match content_type with None => [] | Some kind => cstr "Content-Type: " ++ kind ++ CRLF end ++
  cstr "Content-Length: " ++ dec (zlen (default [] request_body)) ++ CRLF ++ CRLF ++ default [] request_body.

(** What the client prints of a response: the text after the head. *)
Definition client_output (response : bytes) : bytes :=
  match strstr (c_string response) HEAD_END with
  | Some found => drop 4 found
  | None => c_string response
  end ++ [10].

(** [exchange] is the connection: the bytes one [recv] returns for the bytes
    sent, or an error of [connect], [send] or [recv]. *)
Definition mp_cache_http_client_request (exchange : bytes → outcome bytes) (socket_path method path : bytes)
    (auth_token content_type request_body : option bytes) : outcome bytes :=
  let request := client_request_text method path auth_token content_type request_body in
  if decide (MP_CACHE_HTTP_REQUEST_CAPACITY ≤ zlen request) then Fail EOVERFLOW
  else if decide (SUN_PATH_SIZE ≤ zlen socket_path) then Fail ENAMETOOLONG else
  response ← exchange request;
  Ret (client_output (take (Z.to_nat (MP_CACHE_HTTP_REQUEST_CAPACITY - 1)) response)).

Definition mp_cache_http_client_health (exchange : bytes → outcome bytes) (socket_path : bytes) : outcome bytes :=
  mp_cache_http_client_request exchange socket_path (cstr "GET") (cstr "/v1/health") None
    (Some (cstr "application/json")) (Some []).

(** The status and the body for a raw request text. *)
Definition mp_cache_http_server_test_request (logs : log_directory_t) (raw_request : bytes) : HTTP (Z * option bytes) :=
  ok ← on_heap alloc;
  if negb ok then fail ENOMEM else
  request ← in_service (in_world (in_heap (mp_cache_http_parse_request_buffer raw_request)));
  response ← mp_cache_http_route_request logs request;
  mret (status_code response, HttpServer.response_body response).
End Handlers.
