(* ===== verification/ServiceAuth.v ===== *)
(** * ServiceAuth: who may do what, and how often

    Theorems about authentication, authorization and rate limiting in
    internal/httpserver/http_server.c as modelled in [HttpServer]: a request
    without the role its path requires is refused and changes nothing, and the
    per-client budget bounds the requests served in any interval. *)

From Stdlib Require Import Sorted.
From stdpp Require Import base numbers strings option gmap list.
From S2P Require Import Prelude Config Crypto Cache Security Fs CString Log HttpText StorageCodec Storage Persistence HttpServer.
Local Open Scope Z_scope.

(** ** Code that always returns *)

(** [m] always returns; [R] relates the states before and after, and [Q] holds
    of the result. *)
Definition returns {S A} (R : S → S → Prop) (m : STE S A) (Q : A → Prop) : Prop :=
  ∀ s, ∃ a s', m s = (Ret a, s') ∧ R s s' ∧ Q a.

Section Returns.
Context {S : Type} (R : S → S → Prop) `{!PreOrder R}.

Lemma returns_ret {A} (a : A) (Q : A → Prop) : Q a → returns R (mret a) Q.
Proof. intros Ha s. exists a, s. split; [done|]. by split; [reflexivity|]. Qed.

Lemma returns_bind {A B} (m : STE S A) (f : A → STE S B) (P : A → Prop) (Q : B → Prop) :
  returns R m P → (∀ a, P a → returns R (f a) Q) → returns R (m ≫= f) Q.
Proof.
  intros Hm Hf s. destruct (Hm s) as (a & s1 & H1 & HR1 & Ha), (Hf a Ha s1) as (b & s2 & H2 & HR2 & Hb).
  exists b, s2. rewrite (bind_ret _ _ _ _ _ H1). split; [done|]. split; [by etrans|done].
Qed.
End Returns.

(** ** What a refused request leaves alone *)

(** Only the allocator, the entropy source, the counters and the rate limiter
    may differ. *)
Record untouched (s s' : mp_cache_http_server_t) : Prop := {
  same_config : hs_config s' = hs_config s;
  same_storage : hs_storage s' = hs_storage s;
  same_started : started_at_utc s' = started_at_utc s;
  same_swept : last_sweep_at_utc s' = last_sweep_at_utc s;
  same_store : sv_store (service s') = sv_store (service s);
  same_security : sv_security (service s') = sv_security (service s);
  same_files : w_disk (sv_world (service s')) = w_disk (sv_world (service s));
  same_time : w_time (sv_world (service s')) = w_time (sv_world (service s));
  same_pid : w_pid (sv_world (service s')) = w_pid (sv_world (service s));
}.

#[export] Instance untouched_preorder : PreOrder untouched.
Proof. split; [by split|]. intros s1 s2 s3 [] []. split; congruence. Qed.

Lemma alloc_returns : returns untouched (on_heap alloc) (fun _ => True).
Proof.
  intros s. unfold on_heap, in_service, in_world, in_heap, run, zoom.
  destruct (alloc _) as [b h]. by eexists _, _.
Qed.

Lemma printf_returns rendered : returns untouched (mp_cache_http_strdup_printf rendered) (fun _ => True).
Proof.
  eapply returns_bind; [apply _|apply alloc_returns|]. intros b _. by apply (returns_ret _).
Qed.

Lemma make_error_returns status text code message allow extra :
  returns untouched (mp_cache_http_make_error status text code message allow extra)
    (fun r => status_code r = status).
Proof.
  eapply returns_bind; [apply _|apply printf_returns|]. intros b _. by apply (returns_ret _).
Qed.

Lemma add_metric_returns k n : returns untouched (add_metric k n) (fun _ => True).
Proof. intros s. by eexists _, _. Qed.

Lemma put_limiter_returns l : returns untouched (put_limiter l) (fun _ => True).
Proof. intros s. by eexists _, _. Qed.

(** ** Authentication *)

(** The caller holds a token of a principal with at least the role. *)
Definition entitled (security : mp_cache_security_t) (request : mp_cache_http_request_t) (required : Z) : Prop :=
  ∃ token p, mp_cache_http_extract_bearer_token (authorization_header request) = Some token ∧ token ≠ [] ∧
    mp_cache_security_authenticate security (Some token) = (MP_CACHE_SECURITY_STATUS_OK, Some p) ∧
    required ≤ principal_role p.

Lemma rate_limit_allow_returns who now : returns untouched (mp_cache_http_rate_limit_allow who now) (fun _ => True).
Proof.
  intros s. unfold mp_cache_http_rate_limit_allow. rewrite (bind_ret get_server _ s s s eq_refl).
  unfold mbind, STE_bind, on_heap, in_service, in_world, in_heap, run, zoom.
  destruct (rate_limit_bucket _ _ _ _) as [[[[i e] l]|] h]; [|by eexists _, _].
  by destruct (rate_limit_charge _ _ _ _) as [allowed e']; eexists _, _.
Qed.

(** What [authenticate] returns: the caller, or a refusal. *)
Definition verdict (security : mp_cache_security_t) (request : mp_cache_http_request_t) (required : Z)
    (a : mp_cache_principal_t + mp_cache_http_response_t) : Prop :=
  match a with
  | inl _ => entitled security request required
  | inr r => status_code r = 401 ∨ status_code r = 403 ∨
      status_code r = 429 ∧ entitled security request required
  end.

Lemma refuse_returns k status text code message extra security request required :
  verdict security request required (inr (Response status text None None None)) →
  returns untouched (_ ← count k; r ← mp_cache_http_make_error status text code message None extra; mret (inr r))
    (verdict security request required).
Proof.
  intros Hv. eapply returns_bind; [apply _|apply add_metric_returns|]. intros _ _.
  eapply returns_bind; [apply _|apply make_error_returns|]. intros r Hr.
  apply (returns_ret _). unfold verdict. by rewrite Hr.
Qed.

Lemma authenticate_returns request required now s :
  ∃ a s', mp_cache_http_authenticate request required now s = (Ret a, s') ∧ untouched s s' ∧
    verdict (sv_security (service s)) request required a.
Proof.
  unfold mp_cache_http_authenticate, unauthorized, error.
  destruct (mp_cache_http_extract_bearer_token _) as [[|c token]|] eqn:Hb; [by apply refuse_returns; left| |by apply refuse_returns; left].
  rewrite (bind_ret get_server _ s s s eq_refl).
  destruct (mp_cache_security_authenticate _ _) as [status p] eqn:Ha.
  destruct status; cbv beta iota; [|clear Ha; apply refuse_returns; by left..].
  destruct p as [p|]; [|clear Ha; apply refuse_returns; by left].
  destruct (mp_cache_role_allows _ _) eqn:Hrole; [|clear Ha; apply refuse_returns; by right; left].
  assert (entitled (sv_security (service s)) request required) as Hent.
  { exists (c :: token), p. unfold mp_cache_role_allows in Hrole.
    repeat (split; [done|]). by apply bool_decide_eq_true in Hrole. }
  destruct (rate_limit_allow_returns (principal_client_id p) now s) as (allowed & s1 & H1 & HR1 & _).
  rewrite (bind_ret _ _ _ _ _ H1). destruct allowed; [by eexists _, _; split; [reflexivity|]|].
  destruct (refuse_returns rate_limited_requests 429 (cstr "Too Many Requests") (Some (cstr "limit_exceeded"))
    (Some (cstr "rate limit exceeded")) (Some (cstr "Retry-After: 60" ++ [13; 10])) _ request required
    (or_intror (or_intror (conj eq_refl Hent))) s1) as (a & s2 & H2 & HR2 & Hv).
  exists a, s2. split; [done|]. split; [by etrans|done].
Qed.

(** ** Authorization *)

(** The role a path requires; [None] for the public and the unknown paths. *)
Definition required_role (path : bytes) : option Z :=
  if decide (path ∈ [cstr "/health"; cstr "/v1/health"; cstr "/"]) then None
  else if starts_with (cstr "/v1/cache/") path then Some MP_CACHE_ROLE_CLIENT
  else if decide (path ∈ [cstr "/v1/stats"; cstr "/v1/metrics/memory"; cstr "/v1/uptime"; cstr "/v1/logs"])
  then Some MP_CACHE_ROLE_OPERATOR
  else if decide (path ∈ [cstr "/v1/clients"; cstr "/v1/export"; cstr "/v1/import"; cstr "/v1/purge/all";
                          cstr "/v1/purge/keys"])
  then Some MP_CACHE_ROLE_ADMIN
  else if starts_with (cstr "/v1/clients/") path then Some MP_CACHE_ROLE_ADMIN
  else None.

Section Authorization.
Context {EC : EnvelopeCrypto} (logs : log_directory_t) (request : mp_cache_http_request_t) (now : Z).

(** [m] answers with one of the codes and changes nothing. *)
Definition harmless (codes : list Z) (s : mp_cache_http_server_t) (m : HTTP mp_cache_http_response_t) : Prop :=
  ∃ r s', m s = (Ret r, s') ∧ untouched s s' ∧ status_code r ∈ codes.

Definition refusals : list Z := [400; 401; 403; 404; 405].
Definition public_codes : list Z := [200; 404; 405].

Lemma harmless_error codes s status text code message allow extra :
  status ∈ codes → harmless codes s (mp_cache_http_make_error status text code message allow extra).
Proof.
  intros Hin. destruct (make_error_returns status text code message allow extra s) as (r & s' & Hr & Hu & Hc).
  exists r, s'. by rewrite Hc.
Qed.

Lemma harmless_only codes s allowed m : 405 ∈ codes → harmless codes s m → harmless codes s (only allowed request m).
Proof. intros Hin Hm. unfold only. destruct (decide _); [by apply harmless_error|done]. Qed.

Lemma harmless_authorized s required endpoint :
  ¬ entitled (sv_security (service s)) request required →
  harmless refusals s (authorized request required now endpoint).
Proof.
  intros Hno. destruct (authenticate_returns request required now s) as (a & s' & Ha & Hu & Hv).
  unfold authorized. unfold harmless. rewrite (bind_ret _ _ _ _ _ Ha). destruct a as [p|r]; [done|].
  exists r, s'. split; [done|]. split; [done|]. unfold refusals.
  destruct Hv as [->|[->|[_ ?]]]; [set_solver..|done].
Qed.

Lemma harmless_ok_response s rendered : harmless public_codes s (ok_response rendered).
Proof.
  destruct (printf_returns rendered s) as (b & s' & Hb & Hu & _). unfold harmless, ok_response.
  rewrite (bind_ret _ _ _ _ _ Hb). by eexists _, _; split; [reflexivity|]; split; [done|constructor].
Qed.

Lemma harmless_health s : harmless public_codes s (ok_with (mp_cache_http_build_health_body now)).
Proof.
  unfold harmless, ok_with, mp_cache_http_build_health_body.
  destruct (printf_returns (health_body s now) s) as (b & s' & Hb & Hu & _).
  assert ((s ← get_server; mp_cache_http_strdup_printf (health_body s now)) s = (Ret b, s')) as Hrun
    by (by rewrite (bind_ret get_server _ s s s eq_refl)).
  rewrite (bind_ret _ _ _ _ _ Hrun). by eexists _, _; split; [reflexivity|]; split; [done|constructor].
Qed.

Ltac refuse := unfold not_found, bad_request, method_not_allowed, error; lazymatch goal with
  | |- harmless _ _ (authorized _ _ _ _) => apply harmless_authorized; assumption
  | |- harmless _ _ (only _ _ _) => apply harmless_only; [decide_now|refuse]
  | |- harmless _ _ (ok_response _) => apply harmless_ok_response
  | |- harmless _ _ (ok_with _) => apply harmless_health
  | |- harmless _ _ (mp_cache_http_make_error _ _ _ _ _ _) => apply harmless_error; decide_now
  end.

Lemma harmless_cache s :
  ¬ entitled (sv_security (service s)) request MP_CACHE_ROLE_CLIENT → harmless refusals s (route_cache request now).
Proof.
  intros Hno. unfold route_cache. pose proof (percent_decode_fits (drop 10 (request_path request)) 256) as Hf.
  destruct (mp_cache_http_percent_decode _ _) as [decoded|e|]; [|refuse|done].
  destruct (decide _); refuse.
Qed.

Lemma harmless_admin s :
  ¬ entitled (sv_security (service s)) request MP_CACHE_ROLE_ADMIN → harmless refusals s (route_admin request now).
Proof. intros Hno. unfold route_admin. repeat (destruct (decide _); [refuse|]). refuse. Qed.

Lemma harmless_route_at s :
  match required_role (request_path request) with
  | Some required => ¬ entitled (sv_security (service s)) request required → harmless refusals s (route_at logs request now)
  | None => harmless public_codes s (route_at logs request now)
  end.
Proof.
  unfold required_role, route_at, mp_cache_http_path_is_health.
  destruct (decide (request_path request ∈ _)) as [Hp|Hp].
  { destruct (bool_decide _) eqn:Hh; [refuse|]. apply bool_decide_eq_false in Hh.
    destruct (decide (request_path request = cstr "/")); [unfold mp_cache_http_handle_root; destruct (decide _); refuse|].
    exfalso. set_solver. }
  rewrite bool_decide_false by set_solver. rewrite (decide_False (P := request_path request = cstr "/")) by set_solver.
  destruct (starts_with (cstr "/v1/cache/") _); [apply harmless_cache|].
  destruct (decide (request_path request ∈ _)) as [Ho|Ho].
  { intros Hno. repeat (destruct (decide (request_path request = _)); [refuse|]). exfalso. set_solver. }
  do 4 (rewrite (decide_False (P := request_path request = _)) by set_solver).
  destruct (decide (request_path request ∈ _)) as [Ha|Ha].
  { intros Hno. destruct (decide (request_path request = cstr "/v1/clients")); [refuse|].
    destruct (starts_with (cstr "/v1/clients/") _ && _); [|by apply harmless_admin].
    unfold route_client. destruct (client_path _ _); [refuse|]. destruct (client_path _ _); [refuse|]. by apply harmless_admin. }
  rewrite (decide_False (P := request_path request = _)) by set_solver.
  destruct (starts_with (cstr "/v1/clients/") _) eqn:Hc.
  { intros Hno. destruct (bool_decide _); cbn [andb]; [|by apply harmless_admin].
    unfold route_client. destruct (client_path _ _); [refuse|]. destruct (client_path _ _); [refuse|]. by apply harmless_admin. }
  cbn [andb]. unfold route_admin. do 4 (rewrite (decide_False (P := request_path request = _)) by set_solver). refuse.
Qed.

End Authorization.

Lemma maybe_sweep_ret now s : mp_cache_http_maybe_sweep now s = (Ret tt, (mp_cache_http_maybe_sweep now s).2).
Proof. unfold mp_cache_http_maybe_sweep. by destruct (decide _). Qed.

Lemma maybe_sweep_security now s :
  sv_security (service (mp_cache_http_maybe_sweep now s).2) = sv_security (service s).
Proof. unfold mp_cache_http_maybe_sweep. by destruct (decide _). Qed.

Section Requests.
Context {EC : EnvelopeCrypto} (logs : log_directory_t) (request : mp_cache_http_request_t).

(** Counting and sweeping come first, whoever asks. *)
Lemma route_request_from s : let t := w_time (sv_world (service s)) in
  ∃ s1, mp_cache_http_route_request logs request s = route_at logs request t s1 ∧
    untouched (mp_cache_http_maybe_sweep t s).2 s1 ∧ w_heap (sv_world (service s1)) = w_heap (sv_world (service s)).
Proof.
  intros t. unfold mp_cache_http_route_request.
  rewrite (bind_ret mp_cache_http_now _ s t s) by (destruct s as [? ? ? ? ? ? [[] ? ?]]; reflexivity).
  destruct (add_metric_returns total_requests 1 s) as ([] & s0 & H0 & _ & _). unfold count.
  rewrite (bind_ret _ _ _ _ _ H0), (bind_ret _ _ _ _ _ (maybe_sweep_ret t s0)).
  eexists. split; [reflexivity|]. injection H0 as <-. unfold mp_cache_http_maybe_sweep.
  cbn [last_sweep_at_utc hs_config set_metrics]. by destruct (decide _).
Qed.

Lemma route_request_at s : let t := w_time (sv_world (service s)) in
  ∃ s1, mp_cache_http_route_request logs request s = route_at logs request t s1 ∧
    untouched (mp_cache_http_maybe_sweep t s).2 s1.
Proof. intros t. destruct (route_request_from s) as (s1 & ? & ? & _). by exists s1. Qed.

(** C3. Only an entitled caller can change anything. Whoever sends the request and
    whatever its path, method, headers and body are: if the path requires a role
    and the bearer token does not belong to an active principal with at least
    that role, the answer is an error and the cache, the client registry, the
    files and the configuration are exactly what they were after the periodic
    sweep; the same holds for every caller of a path that requires no role. *)
Theorem only_entitled_callers_change_state s :
  match required_role (request_path request) with
  | Some required => ¬ entitled (sv_security (service s)) request required
  | None => True
  end →
  ∃ r s', mp_cache_http_route_request logs request s = (Ret r, s') ∧
    untouched (mp_cache_http_maybe_sweep (w_time (sv_world (service s))) s).2 s' ∧
    status_code r ∈ match required_role (request_path request) with Some _ => refusals | None => public_codes end.
Proof.
  intros Hno. destruct (route_request_at s) as (s1 & Hroute & Hu1).
  pose proof (harmless_route_at logs request (w_time (sv_world (service s))) s1) as Hh.
  rewrite (same_security _ _ Hu1), maybe_sweep_security in Hh. rewrite Hroute.
  destruct (required_role _) as [required|]; [specialize (Hh Hno)|];
    destruct Hh as (r & s' & Hr & Hu & Hc); (exists r, s'; split; [done|]; split; [by etrans|done]).
Qed.
End Requests.

(** ** The budget of one client *)

Section Budget.
Context (limit window : Z) (Hlimit : 0 < limit < 2 ^ 32) (Hwindow : 0 < window).

(** The calls of one subject, with their times and answers, from the bucket
    [e]; a call that finds no bucket and no memory is refused. *)
Fixpoint charged (who : bytes) (e : option mp_cache_rate_limit_entry_t) (calls : list (Z * bool)) : Prop :=
  match calls with
  | [] => True
  | (t, allowed) :: calls' =>
    e = None ∧ allowed = false ∧ charged who None calls' ∨
    let '(b, e') := rate_limit_charge limit window t (default (RateEntry who t 0) e) in
    allowed = b ∧ charged who (Some e') calls'
  end.

(** How many calls were allowed in the interval of one window from [a] on. *)
Definition allowed_from (a : Z) (calls : list (Z * bool)) : Z :=
  zlen (filter (fun c => c.2 = true ∧ a ≤ c.1 < a + window) calls).

(** The times do not go back, from [t] on. *)
Fixpoint times_from (t : Z) (calls : list (Z * bool)) : Prop :=
  match calls with
  | [] => True
  | c :: calls' => t ≤ c.1 ∧ times_from c.1 calls'
  end.

Lemma allowed_from_cons a t b calls :
  allowed_from a ((t, b) :: calls) =
    (if decide (b = true ∧ a ≤ t < a + window) then 1 else 0) + allowed_from a calls.
Proof.
  unfold allowed_from. rewrite filter_cons. cbn [fst snd].
  destruct (decide (b = true ∧ a ≤ t < a + window)); [apply zlen_cons|lia].
Qed.

Lemma allowed_from_late a t calls : a + window ≤ t → times_from t calls → allowed_from a calls = 0.
Proof.
  revert t. induction calls as [|[t' b] calls IH]; intros t Ht Hts; [done|].
  destruct Hts as [Hle Hts]; cbn [fst] in *. rewrite allowed_from_cons, decide_False by lia. rewrite (IH t'); lia || done.
Qed.

(** What is left of the budget for the interval: the current window's rest when
    it started inside the interval, and one more window when it did not. *)
Definition budget (a t : Z) (e : option mp_cache_rate_limit_entry_t) : Z :=
  match e with
  | None => if decide (a ≤ t) then limit else 2 * limit - 1
  | Some e => if decide (a ≤ window_started_at e) then limit - request_count e
              else if decide (a ≤ t) then 2 * limit - request_count e else 2 * limit - 1
  end.

Definition bucket_ok (t : Z) (e : option mp_cache_rate_limit_entry_t) : Prop :=
  match e with None => True | Some e => window_started_at e ≤ t ∧ 0 < request_count e ≤ limit end.

Lemma charge_spec t e : 0 ≤ request_count e ≤ limit → window_started_at e ≤ t →
  let '(b, e') := rate_limit_charge limit window t e in
  0 < request_count e' ≤ limit ∧ subject e' = subject e ∧
  (window_started_at e' = t ∧ window_started_at e + window ≤ t ∧ request_count e' = (if b then 1 else 0) ∨
   window_started_at e' = window_started_at e ∧ t < window_started_at e + window ∧
   request_count e' = request_count e + (if b then 1 else 0)).
Proof.
  intros Hc Ht. unfold rate_limit_charge. destruct (decide (window ≤ _)); cbn [request_count subject window_started_at].
  all: destruct (decide (limit ≤ _)); cbn [request_count subject window_started_at].
  all: rewrite ?u32_small by lia; split; [lia|]; split; [done|]; lia.
Qed.

Lemma budget_bounds who a t e calls :
  charged who e calls → times_from t calls → bucket_ok t e → allowed_from a calls ≤ budget a t e.
Proof.
  revert t e. induction calls as [|[t' b] calls IH]; intros t e Hch Hts Hb.
  { change (allowed_from a []) with 0. unfold budget. destruct e as [e|]; cbn in Hb; repeat destruct (decide _); lia. }
  destruct Hts as [Hle Hts]; cbn [fst] in *. rewrite allowed_from_cons. cbn [charged] in Hch.
  destruct Hch as [(-> & -> & Hch)|Hch].
  { specialize (IH t' None Hch Hts I). rewrite decide_False by (by intros [? _]). cbn [budget] in *.
    repeat destruct (decide _); lia. }
  set (e0 := default (RateEntry who t' 0) e) in *.
  assert (0 ≤ request_count e0 ≤ limit ∧ window_started_at e0 ≤ t') as [Hc Hst].
  { subst e0. destruct e as [e|]; cbn in *; lia. }
  pose proof (charge_spec t' e0 Hc Hst) as Hs.
  destruct (rate_limit_charge limit window t' e0) as [b' e']. destruct Hs as (Hc' & _ & Hw). destruct Hch as [-> Hch].
  assert (bucket_ok t' (Some e')) as Hb' by (cbn; lia). specialize (IH t' (Some e') Hch Hts Hb').
  assert (a + window ≤ t' → allowed_from a calls = 0) as Hlate by (intros; by apply (allowed_from_late a t')).
  cbn [budget] in IH. subst e0.
  destruct e as [e|]; cbn [budget bucket_ok default id window_started_at request_count] in *; destruct b';
    repeat destruct (decide _); try lia.
Qed.
End Budget.

(** ** The buckets of the limiter *)

Definition bucket_of (l : mp_cache_rate_limiter_t) (who : bytes) : option mp_cache_rate_limit_entry_t :=
  snd <$> find_rate_entry 0 (rl_entries l) who.

Lemma find_rate_entry_shift k es who :
  find_rate_entry k es who = (fun x => ((x.1 + k)%nat, x.2)) <$> find_rate_entry 0 es who.
Proof.
  revert k. induction es as [|e es IH]; intros k; [done|]. cbn [find_rate_entry].
  destruct (decide (subject e = who)); [done|]. rewrite (IH (S k)), (IH 1%nat).
  destruct (find_rate_entry 0 es who) as [[]|]; [|done]. cbn. do 2 f_equal. lia.
Qed.

Lemma find_rate_entry_app es es' who :
  snd <$> find_rate_entry 0 (es ++ es') who =
    match find_rate_entry 0 es who with
    | Some x => Some x.2
    | None => snd <$> find_rate_entry 0 es' who
    end.
Proof.
  induction es as [|e es IH]; [done|]. cbn [app find_rate_entry]. destruct (decide (subject e = who)); [done|].
  rewrite (find_rate_entry_shift 1 (es ++ es')), (find_rate_entry_shift 1 es).
  rewrite <-option_fmap_compose. change (snd ∘ _) with (@snd nat mp_cache_rate_limit_entry_t). rewrite IH.
  by destruct (find_rate_entry 0 es who).
Qed.

(** The found entry with what is before it. *)
Lemma find_rate_entry_split es who i e :
  find_rate_entry 0 es who = Some (i, e) →
  ∃ l1 l2, es = l1 ++ e :: l2 ∧ length l1 = i ∧ subject e = who ∧ find_rate_entry 0 l1 who = None.
Proof.
  revert i. induction es as [|e' es IH]; intros i Hf; [done|]. cbn [find_rate_entry] in Hf.
  destruct (decide (subject e' = who)) as [He|He]; [injection Hf as <- <-; by exists [], es|].
  rewrite find_rate_entry_shift in Hf. destruct (find_rate_entry 0 es who) as [[j e2]|]; [|done].
  injection Hf as <- <-. destruct (IH j eq_refl) as (l1 & l2 & -> & <- & Hs & Hn). exists (e' :: l1), l2.
  split; [done|]. split; [cbn; lia|]. split; [done|]. cbn. rewrite decide_False by done.
  by rewrite find_rate_entry_shift, Hn.
Qed.

(** Writing the bucket of one subject. *)
Lemma bucket_of_update es cap who i e e' :
  find_rate_entry 0 es who = Some (i, e) → subject e' = who →
  bucket_of (RateLimiter (<[i := e']> es) cap) who = Some e' ∧
  ∀ who', who' ≠ who → bucket_of (RateLimiter (<[i := e']> es) cap) who' = bucket_of (RateLimiter es cap) who'.
Proof.
  intros Hf Hs. destruct (find_rate_entry_split _ _ _ _ Hf) as (l1 & l2 & -> & <- & He & Hn).
  rewrite insert_app_r_alt, Nat.sub_diag by lia. unfold bucket_of. cbn [rl_entries]. split.
  - rewrite find_rate_entry_app, Hn. cbn. by rewrite decide_True.
  - intros who' Hne. rewrite !find_rate_entry_app. destruct (find_rate_entry 0 l1 who'); [done|].
    cbn. rewrite !decide_False by congruence. done.
Qed.

Lemma rate_limit_bucket_spec l who now h : (length who < MP_CACHE_CLIENT_ID_CAP)%nat →
  match rate_limit_bucket l who now h with
  | (None, _) => bucket_of l who = None ∧ ¬ heap_ok h
  | (Some (i, e, l'), _) => e = default (RateEntry who now 0) (bucket_of l who) ∧
      find_rate_entry 0 (rl_entries l') who = Some (i, e) ∧
      ∀ who', who' ≠ who → bucket_of l' who' = bucket_of l who'
  end.
Proof.
  intros Hlen. unfold rate_limit_bucket, bucket_of.
  assert (snprintf_s MP_CACHE_CLIENT_ID_CAP who = who) as -> by (apply take_ge; lia).
  destruct (find_rate_entry 0 (rl_entries l) who) as [[i e]|] eqn:Hf; [done|].
  assert (∀ cap, find_rate_entry 0 (rl_entries (RateLimiter (rl_entries l ++ [RateEntry who now 0]) cap)) who =
      Some (length (rl_entries l), RateEntry who now 0) ∧
    ∀ who', who' ≠ who → snd <$> find_rate_entry 0 (rl_entries l ++ [RateEntry who now 0]) who' =
      snd <$> find_rate_entry 0 (rl_entries l) who') as Happ.
  { intros cap. cbn [rl_entries]. split.
    - clear cap. induction (rl_entries l) as [|e es IH]; [cbn; by rewrite decide_True|]. cbn [find_rate_entry app] in *.
      destruct (decide (subject e = who)); [done|]. rewrite find_rate_entry_shift in Hf |- *.
      rewrite IH; [cbn; do 2 f_equal; lia|]. by destruct (find_rate_entry 0 es who).
    - intros who' Hne. rewrite find_rate_entry_app. destruct (find_rate_entry 0 (rl_entries l) who'); [done|].
      cbn. by rewrite decide_False by congruence. }
  unfold mbind, ST_bind. destruct (decide _); [|exact (conj eq_refl (Happ _))].
  destruct (alloc h) as [[] h'] eqn:Ha; [exact (conj eq_refl (Happ _))|split; [done|solve_oom]].
Qed.

Lemma bucket_of_subject l who e : bucket_of l who = Some e → subject e = who.
Proof.
  unfold bucket_of. destruct (find_rate_entry 0 (rl_entries l) who) as [[i e']|] eqn:Hf; [|done].
  intros [= <-]. by destruct (find_rate_entry_split _ _ _ _ Hf) as (? & ? & _ & _ & ? & _).
Qed.

(** One call: other buckets stay, the subject's own is charged. *)
Lemma rate_limit_allow_spec who now s : (length who < MP_CACHE_CLIENT_ID_CAP)%nat →
  ∃ b s', mp_cache_http_rate_limit_allow who now s = (Ret b, s') ∧ untouched s s' ∧
    (∀ who', who' ≠ who → bucket_of (rate_limiter s') who' = bucket_of (rate_limiter s) who') ∧
    (bucket_of (rate_limiter s) who = None ∧ b = false ∧ bucket_of (rate_limiter s') who = None ∧
       ¬ heap_ok (w_heap (sv_world (service s))) ∨
     let '(b', e') := rate_limit_charge (num (hs_config s) rate_limit_requests)
       (num (hs_config s) rate_limit_window_seconds) now (default (RateEntry who now 0) (bucket_of (rate_limiter s) who)) in
     b = b' ∧ bucket_of (rate_limiter s') who = Some e').
Proof.
  intros Hlen.
  assert (subject (default (RateEntry who now 0) (bucket_of (rate_limiter s) who)) = who) as Hsub.
  { destruct (bucket_of (rate_limiter s) who) eqn:Hb; [by apply bucket_of_subject in Hb|done]. }
  pose proof (rate_limit_bucket_spec (rate_limiter s) who now (w_heap (sv_world (service s))) Hlen) as Hb.
  unfold mp_cache_http_rate_limit_allow. rewrite (bind_ret get_server _ s s s eq_refl).
  unfold mbind, STE_bind, on_heap, in_service, in_world, in_heap, run, zoom.
  destruct (rate_limit_bucket _ _ _ _) as [[[[i e] l]|] h]; [|by eexists _, _; split; [reflexivity|]; split; [done|]; split; [done|]; left; destruct Hb].
  destruct Hb as (-> & Hf & Ho).
  destruct (rate_limit_charge _ _ _ _) as [b e'] eqn:Hc. eexists _, _. split; [reflexivity|]. split; [done|].
  assert (subject e' = who) as He'.
  { rewrite <-Hsub. unfold rate_limit_charge in Hc. by repeat destruct (decide _); injection Hc as <- <-. }
  cbn [rate_limiter set_limiter]. destruct (bucket_of_update _ (rl_capacity l) _ _ _ _ Hf He') as [H1 H2]. split.
  - intros who' Hne. rewrite H2, <-Ho by done. by destruct l.
  - by right.
Qed.

(** ** Runs of the limiter *)

(** The calls of the limiter over the life of a server, with whatever else
    happens between them that leaves limiter and configuration alone. *)
Inductive limiter_run : mp_cache_http_server_t → list (bytes * Z * bool) → Prop :=
| run_none s : limiter_run s []
| run_call s who now b s1 s2 calls :
    mp_cache_http_rate_limit_allow who now s = (Ret b, s1) →
    rate_limiter s2 = rate_limiter s1 → hs_config s2 = hs_config s1 →
    limiter_run s2 calls → limiter_run s ((who, now, b) :: calls).

Definition calls_of (who : bytes) (calls : list (bytes * Z * bool)) : list (Z * bool) :=
  (fun c => (c.1.2, c.2)) <$> filter (fun c => c.1.1 = who) calls.

Lemma run_charged s calls who :
  limiter_run s calls → Forall (fun c => length c.1.1 < MP_CACHE_CLIENT_ID_CAP)%nat calls →
  charged (num (hs_config s) rate_limit_requests) (num (hs_config s) rate_limit_window_seconds) who
    (bucket_of (rate_limiter s) who) (calls_of who calls).
Proof.
  induction 1 as [s|s who' now b s1 s2 calls Hcall Hl Hc Hrun IH]; intros Hshort; [done|].
  apply Forall_cons in Hshort as [Hlen Hshort]; cbn [fst] in Hlen. specialize (IH Hshort).
  destruct (rate_limit_allow_spec who' now s Hlen) as (b' & s1' & Hcall' & Hu & Hother & Hown).
  rewrite Hcall in Hcall'. injection Hcall' as <- <-. rewrite Hc, Hl, (same_config _ _ Hu) in IH.
  unfold calls_of. rewrite filter_cons. cbn [fst]. destruct (decide (who' = who)) as [->|Hne].
  - rewrite fmap_cons. cbn [fst snd charged].
    destruct Hown as [(Hn & -> & Hn' & _)|Hown]; [left; by rewrite Hn' in IH|right].
    destruct (rate_limit_charge _ _ _ _) as [b'' e']. destruct Hown as [-> He']. by rewrite He' in IH.
  - rewrite <-Hother by done. exact IH.
Qed.

(** The times of the calls do not go back. *)
Definition clock_forward (calls : list (bytes * Z * bool)) : Prop := StronglySorted (fun c d => c.1.2 ≤ d.1.2) calls.

Lemma calls_of_times who calls : clock_forward calls → ∃ t, times_from t (calls_of who calls).
Proof.
  assert (∀ t, clock_forward calls → Forall (fun c => t ≤ c.1.2) calls → times_from t (calls_of who calls)) as Hgo.
  { intros t Hs. revert t. induction Hs as [|[[who' t'] b] calls Hs IH Hall]; intros t Ht; [done|].
    apply Forall_cons in Ht as [Ht Hts]. unfold calls_of. rewrite filter_cons.
    destruct (decide (_ = who)); [|by apply IH]. rewrite fmap_cons. split; [done|]. by apply IH. }
  intros Hs. exists (foldr Z.min 0 ((fun c => c.1.2) <$> calls)). apply Hgo; [done|]. clear.
  induction calls as [|c calls IH]; [constructor|]. rewrite fmap_cons. cbn [foldr].
  constructor; [lia|]. eapply Forall_impl; [done|]. cbn. intros. lia.
Qed.

(** C12. The rate limit. Over the life of a server, whatever calls the limiter gets
    from whichever clients and whatever memory it finds, as long as the clock
    does not go back: in every interval as long as the configured window, fewer
    than twice the configured number of requests of one client is allowed. *)
Theorem rate_limit_bounds_every_interval s calls who a :
  limiter_run s calls → rl_entries (rate_limiter s) = [] → clock_forward calls →
  Forall (fun c => length c.1.1 < MP_CACHE_CLIENT_ID_CAP)%nat calls →
  0 < num (hs_config s) rate_limit_requests < 2 ^ 32 → 0 < num (hs_config s) rate_limit_window_seconds →
  allowed_from (num (hs_config s) rate_limit_window_seconds) a (calls_of who calls) ≤
    2 * num (hs_config s) rate_limit_requests - 1.
Proof.
  intros Hrun Hempty Hclock Hshort Hlimit Hwindow. destruct (calls_of_times who calls Hclock) as [t Ht].
  pose proof (run_charged s calls who Hrun Hshort) as Hch. unfold bucket_of in Hch. rewrite Hempty in Hch.
  pose proof (budget_bounds _ _ Hlimit Hwindow who a t None _ Hch Ht I) as Hb. cbn [budget] in Hb.
  destruct (decide _); lia.
Qed.

(** C13. No client is locked out for longer than a window: once a full window has
    passed since its current one started, the next request is allowed, whatever
    the other clients do, if the limit is not zero and memory lasts. *)
Theorem rate_limited_client_recovers s who now :
  (length who < MP_CACHE_CLIENT_ID_CAP)%nat → heap_ok (w_heap (sv_world (service s))) →
  0 < num (hs_config s) rate_limit_requests →
  match bucket_of (rate_limiter s) who with
  | None => True
  | Some e => window_started_at e + num (hs_config s) rate_limit_window_seconds ≤ now
  end →
  ∃ s', mp_cache_http_rate_limit_allow who now s = (Ret true, s').
Proof.
  intros Hlen Hheap Hlimit Hlate.
  destruct (rate_limit_allow_spec who now s Hlen) as (b & s' & Hrun & _ & _ & [(_ & _ & _ & ?)|Hown]); [done|].
  exists s'. rewrite Hrun. unfold rate_limit_charge in Hown.
  destruct (bucket_of (rate_limiter s) who) as [e|]; cbn [default id window_started_at request_count] in Hown.
  - rewrite (decide_True (P := _ ≤ now - window_started_at e)) in Hown by lia.
    cbn [request_count] in Hown. rewrite decide_False in Hown by lia. by destruct Hown as [-> _].
  - destruct (decide (_ ≤ now - now)); cbn [request_count] in Hown; rewrite decide_False in Hown by lia;
      by destruct Hown as [-> _].
Qed.

(** ** Concrete runs *)

(** A server with two requests per ten seconds and the sample service. *)
Definition sample_server_config : mp_cache_config_t :=
  Config (fun f => if decide (f = socket_path) then cstr "/d/s" else cstr "x")
    (fun f => if decide (f = rate_limit_requests) then 2 else if decide (f = rate_limit_window_seconds) then 10
              else if decide (f = default_ttl_seconds) then 20 else if decide (f = min_ttl_seconds) then 1
              else if decide (f = max_ttl_seconds) then 1000 else if decide (f = max_key_bytes) then 16
              else if decide (f = max_value_bytes) then 64 else 5).
Definition sample_server : mp_cache_http_server_t :=
  HttpServer 100 100 sample_server_config sample_storage (RateLimiter [] 0) (fun _ => 0)
    (Server sample_world sample_store sample_registry).
Definition no_logs : log_directory_t := Fail ENOENT.
Definition sample_anonymous : mp_cache_http_request_t :=
  Request (cstr "DELETE") (cstr "/v1/cache/user") (cstr "/v1/cache/user") [] [] 0 [] 0.

Lemma only_entitled_callers_change_state_witness :
  ∃ r s', mp_cache_http_route_request no_logs sample_anonymous sample_server = (Ret r, s') ∧
    status_code r ∈ refusals ∧
    sv_store (service s') = sv_store (service (mp_cache_http_maybe_sweep (w_time sample_world) sample_server).2).
Proof.
  destruct (only_entitled_callers_change_state no_logs sample_anonymous sample_server) as (r & s' & Hrun & Hu & Hc).
  - intros (token & p & Ht & _). discriminate Ht.
  - exists r, s'. exact (conj Hrun (conj Hc (same_store _ _ Hu))).
Defined.

(** The server after the calls, and their answers. *)
Fixpoint run_limiter (s : mp_cache_http_server_t) (calls : list (bytes * Z)) : list (bytes * Z * bool) :=
  match calls with
  | [] => []
  | (who, now) :: calls' =>
    match mp_cache_http_rate_limit_allow who now s with
    | (Ret b, s') => (who, now, b) :: run_limiter s' calls'
    | _ => []
    end
  end.

Lemma run_limiter_run s calls : limiter_run s (run_limiter s calls).
Proof.
  revert s. induction calls as [|[who now] calls IH]; intros s; [constructor|]. cbn.
  destruct (mp_cache_http_rate_limit_allow who now s) as [[b|e|] s'] eqn:Hrun; [|constructor..].
  by eapply run_call.
Qed.

(** The bound is reached at the border of two windows: three requests within
    two seconds, with a limit of two in ten. *)
Definition burst : list (bytes * Z * bool) :=
  run_limiter sample_server [(cstr "web-1", 100); (cstr "web-1", 109); (cstr "web-1", 109); (cstr "web-1", 110);
                             (cstr "web-2", 110); (cstr "web-1", 111); (cstr "web-1", 112)].

Example rate_limit_double_burst :
  calls_of (cstr "web-1") burst =
    [(100, true); (109, true); (109, false); (110, true); (111, true); (112, false)] ∧
  allowed_from 10 102 (calls_of (cstr "web-1") burst) = 3.
Proof. vm_compute. split; reflexivity. Qed.

Lemma rate_limit_bounds_every_interval_witness : allowed_from 10 102 (calls_of (cstr "web-1") burst) ≤ 3.
Proof.
  apply (rate_limit_bounds_every_interval sample_server burst (cstr "web-1") 102).
  - exact (run_limiter_run _ _).
  - reflexivity.
  - unfold clock_forward. vm_compute. repeat constructor; congruence.
  - decide_now.
  - vm_compute. split; congruence.
  - reflexivity.
Defined.

Lemma rate_limited_client_recovers_witness :
  ∃ s', mp_cache_http_rate_limit_allow (cstr "web-1") 110
    (set_limiter sample_server (RateLimiter [RateEntry (cstr "web-1") 100 2] 8)) = (Ret true, s').
Proof.
  apply (rate_limited_client_recovers (set_limiter sample_server (RateLimiter [RateEntry (cstr "web-1") 100 2] 8))
    (cstr "web-1") 110).
  - decide_now.
  - constructor.
  - reflexivity.
  - vm_compute. congruence.
Defined.
