(* ===== verification/ServiceWire.v ===== *)
(** * ServiceWire: client and server understand each other

    The request text that [mp_cache_http_client_request] sends is read by the
    server as the request it stands for, however the stream is cut into pieces,
    and what the client prints of a response is its body. *)

From stdpp Require Import base numbers strings option gmap list.
From S2P Require Import Prelude Config Crypto Cache Security Fs CString Log HttpText StorageCodec Storage HttpServer.
Local Open Scope Z_scope.

(** ** Lines *)

(** Text that fits in a line of a message head. *)
Definition line_char (c : Z) : Prop := c ≠ 0 ∧ c ≠ 13 ∧ c ≠ 10.
Definition line_text (l : bytes) : Prop := Forall line_char l.
(** A word of the request line. *)
Definition word (w : bytes) : Prop := w ≠ [] ∧ Forall (fun c => isspace c = false ∧ c ≠ 0) w.

#[export] Instance line_text_dec l : Decision (line_text l).
Proof. unfold line_text, line_char. apply _. Defined.
#[export] Instance word_dec w : Decision (word w).
Proof. unfold word. apply _. Defined.

Definition lines_text (lines : list bytes) : bytes := mjoin ((fun l => l ++ CRLF) <$> lines).

Lemma lines_text_cons l lines : lines_text (l :: lines) = l ++ CRLF ++ lines_text lines.
Proof. unfold lines_text. rewrite fmap_cons, mjoin_cons. by rewrite <-app_assoc. Qed.

Lemma line_text_nin l c : line_text l → c = 0 ∨ c = 13 ∨ c = 10 → c ∉ l.
Proof. intros Hl Hc Hin. eapply Forall_forall in Hl; [|done]. destruct Hl as (? & ? & ?). lia. Qed.

Lemma word_line w : word w → line_text w.
Proof.
  intros [_ Hw]. eapply Forall_impl; [done|]. intros c [Hs H0]. unfold isspace in Hs. apply bool_decide_eq_false in Hs.
  split; [done|lia].
Qed.

(** The empty line after the last line is the first end of a head. *)
Lemma head_end_lines lines rest :
  lines ≠ [] → Forall (fun l => l ≠ [] ∧ line_text l) lines →
  strstr (lines_text lines ++ CRLF ++ rest) HEAD_END = Some (HEAD_END ++ rest).
Proof.
  intros Hne Hl. induction Hl as [|l lines [Hl0 Hl] Hls IH]; [done|].
  rewrite lines_text_cons, <-!app_assoc. unfold HEAD_END at 1. rewrite strstr_nin by (by apply line_text_nin; auto).
  destruct lines as [|l' lines]; [by apply (strstr_here rest HEAD_END)|].
  specialize (IH ltac:(done)). apply Forall_cons in Hls as [[Hl'0 Hl'] _].
  rewrite lines_text_cons in IH |- *. destruct l' as [|c l']; [done|]. apply Forall_cons in Hl' as [(? & ? & ?) _].
  unfold CRLF at 1. cbn [app strstr].
  assert (∀ s, starts_with [13; 10; 13; 10] (13 :: 10 :: c :: s) = false) as ->.
  { intros s. unfold starts_with. apply bool_decide_eq_false. intros Heq. cbn in Heq. congruence. }
  assert (∀ s, starts_with [13; 10; 13; 10] (10 :: s) = false) as ->.
  { intros s. by unfold starts_with. }
  exact IH.
Qed.

Lemma strtok_loop_line l rest token :
  line_text l → strtok_loop [13; 10] token (l ++ 13 :: rest) =
    (if decide (token ++ l = []) then [] else [token ++ l]) ++ strtok_loop [13; 10] [] rest.
Proof.
  intros Hl. revert token. induction Hl as [|c l (? & ? & ?) Hl IH]; intros token; cbn [app strtok_loop].
  - rewrite app_nil_r. by rewrite (decide_True (P := 13 ∈ _)) by set_solver.
  - rewrite (decide_False (P := c ∈ _)) by set_solver. rewrite IH. by rewrite <-app_assoc.
Qed.

Lemma strtok_lines lines tail :
  Forall (fun l => l ≠ [] ∧ line_text l) lines → tail = [] ∨ tail = CRLF →
  strtok_all (lines_text lines ++ tail) [13; 10] = lines.
Proof.
  intros Hl Ht. unfold strtok_all. induction Hl as [|l lines [Hl0 Hl] Hls IH]; [by destruct Ht as [->| ->]|].
  rewrite lines_text_cons, <-!app_assoc. unfold CRLF at 1. cbn [app]. rewrite strtok_loop_line by done.
  cbn [app]. rewrite decide_False by done. cbn [strtok_loop app].
  rewrite (decide_True (P := 10 ∈ _)) by set_solver. rewrite decide_True by done. cbn [app]. f_equal. exact IH.
Qed.

(** ** Words *)

Lemma drop_space_word w rest : word w → drop_space (w ++ rest) = w ++ rest.
Proof. intros [Hne Hw]. destruct Hw as [|c w [Hc _] Hw]; [done|]. cbn. by rewrite Hc. Qed.

Lemma scan_word_app n w rest : Forall (fun c => isspace c = false ∧ c ≠ 0) w → (length w ≤ n)%nat →
  scan_word n (w ++ 32 :: rest) = (w, 32 :: rest).
Proof.
  intros Hw. revert n. induction Hw as [|c w [Hc _] Hw IH]; intros n Hn; cbn in Hn.
  - by destruct n.
  - destruct n as [|n]; [lia|]. cbn [app scan_word]. rewrite Hc, IH by lia. done.
Qed.

Lemma scan_s_word n w rest : word w → (length w ≤ n)%nat →
  scan_s n (w ++ 32 :: rest) = Some (w, 32 :: rest) ∧ scan_s n (32 :: w ++ 32 :: rest) = Some (w, 32 :: rest).
Proof.
  intros Hw Hn. unfold scan_s. assert (drop_space (32 :: w ++ 32 :: rest) = drop_space (w ++ 32 :: rest)) as -> by done.
  rewrite drop_space_word, scan_word_app by (done || apply Hw). by rewrite decide_False by apply Hw.
Qed.

(** ** The client's request *)

Definition header_line (name : string) (value : option bytes) : list bytes :=
  match value with None => [] | Some v => [cstr name ++ v] end.

Definition client_lines (method path : bytes) (token kind : option bytes) (length : Z) : list bytes :=
  [method ++ cstr " " ++ path ++ cstr " HTTP/1.1"; cstr "Host: localhost"; cstr "Connection: close"] ++
  header_line "Authorization: Bearer " token ++ header_line "Content-Type: " kind ++
  [cstr "Content-Length: " ++ dec length].

Lemma client_request_lines method path token kind body :
  client_request_text method path token kind body =
    lines_text (client_lines method path token kind (zlen (default [] body))) ++ CRLF ++ default [] body.
Proof.
  unfold client_request_text, client_lines, header_line, lines_text.
  destruct token, kind; cbn [app]; rewrite !fmap_cons, !mjoin_cons; rewrite <-!app_assoc; reflexivity.
Qed.

(** What the client may be given. *)
Record sendable (method path : bytes) (token kind body : option bytes) : Prop := {
  send_method : word method ∧ (length method ≤ 15)%nat;
  send_path : word path ∧ (length path ≤ 511)%nat;
  send_token : match token with None => True | Some t => line_text t ∧ (length t ≤ 248)%nat end;
  send_kind : match kind with None => True | Some k => line_text k end;
  send_body : 0 ∉ default [] body;
  send_fits : zlen (client_request_text method path token kind body) < MP_CACHE_HTTP_REQUEST_CAPACITY;
}.

Lemma line_text_app l k : line_text (l ++ k) ↔ line_text l ∧ line_text k.
Proof. apply Forall_app. Qed.

Lemma line_text_dec_num n : 0 ≤ n → line_text (dec n).
Proof.
  intros Hn. destruct (dec_digits n Hn) as (Hd & _). eapply Forall_impl; [exact Hd|].
  intros c Hc. unfold isdigit in Hc. apply bool_decide_eq_true in Hc. unfold line_char. lia.
Qed.

Lemma client_lines_ok method path token kind body :
  sendable method path token kind body →
  Forall (fun l => l ≠ [] ∧ line_text l) (client_lines method path token kind (zlen (default [] body))).
Proof.
  intros [[Hm _] [Hp _] Ht Hk _ _]. unfold client_lines. repeat apply Forall_app_2.
  - repeat apply Forall_cons_2; [|split; [done|decide_now]..|constructor].
    split; [by destruct method; [destruct Hm|]|]. rewrite !line_text_app.
    split; [by apply word_line|]. split; [decide_now|]. split; [by apply word_line|decide_now].
  - destruct token; [|constructor]. apply Forall_singleton. split; [done|]. apply line_text_app.
    split; [decide_now|apply Ht].
  - destruct kind; [|constructor]. apply Forall_singleton. split; [done|]. apply line_text_app. split; [decide_now|done].
  - apply Forall_singleton. split; [done|]. apply line_text_app. split; [decide_now|apply line_text_dec_num, zlen_nonneg].
Qed.

(** The request a text stands for. *)
Definition meant_request (method path : bytes) (token body : option bytes) : mp_cache_http_request_t :=
  let '(path', query) := mp_cache_http_split_target path in
  Request method path path' query
    match token with None => [] | Some t => cstr "Bearer " ++ t end
    (zlen (default [] body)) (default [] body) (zlen (default [] body)).

(** A header line whose name differs at position [i] is not taken for [name]. *)
Lemma nocase_differs name line i c d :
  (i < length name)%nat → tolower <$> line !! i = Some c → tolower <$> name !! i = Some d → c ≠ d →
  starts_with_nocase name line = false.
Proof.
  intros Hi Hc Hd Hne. unfold starts_with_nocase. apply bool_decide_eq_false. intros Heq.
  apply (f_equal (fun l => l !! i)) in Heq. rewrite !list_lookup_fmap, lookup_take_lt, Hc, Hd in Heq by done. congruence.
Qed.

Lemma nocase_same name rest : starts_with_nocase name (name ++ rest) = true.
Proof. unfold starts_with_nocase. by rewrite bool_decide_eq_true, take_app_length. Qed.

Lemma parse_client_headers token kind n :
  match token with None => True | Some t => line_text t ∧ (length t ≤ 248)%nat end → 0 ≤ n ≤ SIZE_MAX →
  foldl parse_header_line (0, [])
    ([cstr "Host: localhost"; cstr "Connection: close"] ++ header_line "Authorization: Bearer " token ++
     header_line "Content-Type: " kind ++ [cstr "Content-Length: " ++ dec n]) =
  (n, match token with None => [] | Some t => cstr "Bearer " ++ t end).
Proof.
  intros Ht Hn. rewrite !foldl_app.
  change (foldl parse_header_line (0, []) [cstr "Host: localhost"; cstr "Connection: close"]) with (0, @nil Z).
  set (auth := match token with None => [] | Some t => cstr "Bearer " ++ t end).
  assert (foldl parse_header_line (0, []) (header_line "Authorization: Bearer " token) = (0, auth)) as ->.
  { subst auth. destruct token as [t|]; [|done]. destruct Ht as [_ Hlen]. cbn [header_line foldl]. unfold parse_header_line.
    rewrite (nocase_differs _ _ 0 97 99) by (vm_compute; (reflexivity || lia || done)).
    change (cstr "Authorization: Bearer " ++ t) with (cstr "Authorization:" ++ 32 :: cstr "Bearer " ++ t).
    rewrite nocase_same. cbn [fst]. f_equal.
    change (drop 14 (cstr "Authorization:" ++ 32 :: cstr "Bearer " ++ t)) with (32 :: cstr "Bearer " ++ t).
    change (drop_space (32 :: cstr "Bearer " ++ t)) with (cstr "Bearer " ++ t).
    apply take_ge. rewrite length_app. change (length (cstr "Bearer ")) with 7%nat.
    unfold MP_CACHE_HTTP_AUTHORIZATION_CAPACITY. lia. }
  assert (foldl parse_header_line (0, auth) (header_line "Content-Type: " kind) = (0, auth)) as ->.
  { destruct kind as [k|]; [|done]. cbn [header_line foldl]. unfold parse_header_line.
    rewrite (nocase_differs _ _ 8 116 108) by (vm_compute; (reflexivity || lia || done)).
    by rewrite (nocase_differs _ _ 0 99 97) by (vm_compute; (reflexivity || lia || done)). }
  cbn [foldl]. unfold parse_header_line.
  change (cstr "Content-Length: " ++ dec n) with (cstr "Content-Length:" ++ 32 :: dec n). rewrite nocase_same.
  change (drop 15 (cstr "Content-Length:" ++ 32 :: dec n)) with (32 :: dec n). cbn [snd]. f_equal.
  unfold strtoul_value. assert (strtoul (32 :: dec n) = strtoul (dec n ++ [])) as -> by (by rewrite app_nil_r).
  by rewrite strtoul_dec by (done || lia).
Qed.

Lemma parse_client_head method path token kind body :
  sendable method path token kind body →
  mp_cache_http_parse_headers (lines_text (client_lines method path token kind (zlen (default [] body))) ++ CRLF) =
    Ret (let r := meant_request method path token body in
         Request (HttpText.method r) (request_target r) (request_path r) (query_string r) (authorization_header r)
           (content_length r) [] 0).
Proof.
  intros Hs. pose proof (client_lines_ok _ _ _ _ _ Hs) as Hl. destruct Hs as [[Hm Hml] [Hp Hpl] Ht _ _ Hfit].
  unfold mp_cache_http_parse_headers. rewrite strtok_lines by auto. unfold client_lines. cbn [app].
  destruct (scan_s_word 15 method (path ++ cstr " HTTP/1.1") Hm Hml) as [Hscan _].
  change (cstr " ") with [32]. cbn [app]. rewrite Hscan.
  destruct (scan_s_word 511 path (cstr "HTTP/1.1") Hp Hpl) as [_ Hscan2].
  change (cstr " HTTP/1.1") with (32 :: cstr "HTTP/1.1"). rewrite Hscan2.
  pose proof (parse_client_headers token kind (zlen (default [] body)) Ht) as Hh. cbn [app] in Hh. rewrite Hh.
  - unfold meant_request. by destruct (mp_cache_http_split_target path).
  - rewrite client_request_lines in Hfit. len_simpl. unfold MP_CACHE_HTTP_REQUEST_CAPACITY in Hfit.
    pose proof (zlen_nonneg (lines_text (client_lines method path token kind (zlen (default [] body))))).
    pose proof (zlen_nonneg (default [] body)). change (zlen CRLF) with 2 in Hfit. unfold SIZE_MAX. lia.
Qed.

(** ** Reading it in pieces *)

(** The bytes a list of [recv] results delivers. *)
Definition received (events : list recv_result) : bytes :=
  mjoin ((fun e => match e with RecvBytes l => l | RecvError _ => [] end) <$> events).
(** An interruption, or at least one byte. *)
Definition delivers (e : recv_result) : Prop :=
  match e with RecvBytes l => l ≠ [] | RecvError is_eintr => is_eintr = true end.

Lemma received_cons e events :
  received (e :: events) = match e with RecvBytes l => l | RecvError _ => [] end ++ received events.
Proof. unfold received. by rewrite fmap_cons, mjoin_cons. Qed.

Lemma recv_into_all capacity buffer l :
  zlen buffer + zlen l < capacity < 2 ^ 63 → recv_into capacity buffer l = l.
Proof.
  intros Hc. unfold recv_into. pose proof (zlen_nonneg buffer). pose proof (zlen_nonneg l).
  rewrite u64_small by lia. apply take_ge. unfold zlen in *. lia.
Qed.

Lemma recv_head_all capacity buffer events n :
  Forall delivers events → head_length buffer = None → head_length (buffer ++ received events) = Some n →
  zlen (buffer ++ received events) < capacity < 2 ^ 63 →
  ∃ buffer' events', recv_head capacity buffer events = Ret (buffer', events') ∧ Forall delivers events' ∧
    buffer' ++ received events' = buffer ++ received events ∧ head_length buffer' = Some n.
Proof.
  intros Hd. revert buffer. induction Hd as [|e events He Hd IH]; intros buffer Hnone Hsome Hcap.
  { unfold received in Hsome. rewrite app_nil_r in Hsome. congruence. }
  rewrite received_cons in Hsome, Hcap |- *. cbn [recv_head].
  destruct e as [b|l]; cbn [delivers] in He.
  - subst b. cbn [app] in *. rewrite decide_False; [by apply IH|].
    destruct (decide (received events = [])) as [Hr|Hr]; [rewrite Hr, app_nil_r in Hsome; congruence|].
    rewrite zlen_app in Hcap. destruct (received events) as [|x r]; [done|]. rewrite zlen_cons in Hcap.
    pose proof (zlen_nonneg r). lia.
  - rewrite !zlen_app in Hcap. pose proof (zlen_nonneg (received events)).
    assert (0 < zlen l) by (destruct l; [done|]; rewrite zlen_cons; pose proof (zlen_nonneg l); lia).
    rewrite decide_False by lia. rewrite recv_into_all by lia. rewrite decide_False by done.
    rewrite decide_False by (rewrite zlen_app; lia).
    destruct (head_length (buffer ++ l)) as [m|] eqn:Hh.
    + eexists _, _. split; [reflexivity|]. split; [done|]. split; [by rewrite app_assoc|].
      rewrite app_assoc, (head_length_app _ _ _ Hh) in Hsome. by injection Hsome as <-.
    + rewrite app_assoc in Hsome |- *. apply IH; [done|done|]. rewrite !zlen_app. lia.
Qed.

Lemma recv_body_all capacity needed buffer events :
  Forall delivers events → zlen (buffer ++ received events) = needed → needed < capacity < 2 ^ 63 →
  recv_body capacity needed buffer events = Ret (buffer ++ received events).
Proof.
  intros Hd Hn Hcap. revert buffer Hn. induction Hd as [|e events He Hd IH]; intros buffer Hn.
  { unfold received in *. cbn [fmap list_fmap mjoin list_join] in *. rewrite app_nil_r in *. cbn [recv_body].
    by rewrite decide_True by lia. }
  rewrite received_cons in Hn |- *. cbn [recv_body]. pose proof (zlen_nonneg (received events)).
  destruct e as [b|l]; cbn [delivers] in He.
  - subst b. cbn [app] in *. rewrite zlen_app in Hn. destruct (decide _); [|apply IH; by rewrite zlen_app].
    assert (received events = []) as -> by (apply length_zero_iff_nil; unfold zlen in *; lia). by rewrite app_nil_r.
  - rewrite !zlen_app in Hn.
    assert (0 < zlen l) by (destruct l; [done|]; rewrite zlen_cons; pose proof (zlen_nonneg l); lia).
    rewrite decide_False by lia. rewrite recv_into_all by lia. rewrite decide_False by done.
    rewrite decide_False by (rewrite zlen_app; lia).
    rewrite app_assoc. apply IH. rewrite !zlen_app. lia.
Qed.

Lemma nul_free_lines lines : Forall (fun l => l ≠ [] ∧ line_text l) lines → 0 ∉ lines_text lines.
Proof.
  intros Hl. induction Hl as [|l lines [_ Hl] Hls IH]; [apply not_elem_of_nil|].
  rewrite lines_text_cons, !not_elem_of_app. split; [by apply line_text_nin; auto|]. split; [|done].
  unfold CRLF. set_solver by lia.
Qed.

Section ClientRequest.
Context (method path : bytes) (token kind body : option bytes) (Hsend : sendable method path token kind body).

Local Definition sent : bytes := client_request_text method path token kind body.
Local Definition head_text : bytes :=
  lines_text (client_lines method path token kind (zlen (default [] body))) ++ CRLF.

Lemma sent_split : sent = head_text ++ default [] body.
Proof. unfold sent, head_text. by rewrite client_request_lines, <-app_assoc. Qed.

Lemma head_text_nul_free : 0 ∉ head_text.
Proof.
  unfold head_text. rewrite not_elem_of_app. split; [apply nul_free_lines; by eapply client_lines_ok|].
  unfold CRLF. set_solver by lia.
Qed.

Lemma sent_nul_free : 0 ∉ sent.
Proof. rewrite sent_split, not_elem_of_app. split; [apply head_text_nul_free|apply Hsend]. Qed.

Lemma sent_head : head_length sent = Some (length head_text).
Proof.
  unfold head_length. rewrite c_string_id by apply sent_nul_free. unfold sent. rewrite client_request_lines.
  pose proof (head_end_lines (client_lines method path token kind (zlen (default [] body))) (default [] body)
    ltac:(done) (client_lines_ok _ _ _ _ _ Hsend)) as Hhe.
  assert (2 ≤ length (lines_text (client_lines method path token kind (zlen (default [] body)))))%nat as Hlen.
  { unfold client_lines. cbn [app]. rewrite lines_text_cons, !length_app. cbn [length CRLF]. lia. }
  unfold HEAD_END in Hhe. rewrite Hhe. f_equal. unfold head_text, CRLF. rewrite !length_app. cbn [length app]. lia.
Qed.

Lemma parse_head_text : mp_cache_http_parse_headers head_text =
  Ret (let r := meant_request method path token body in
       Request (HttpText.method r) (request_target r) (request_path r) (query_string r) (authorization_header r)
         (content_length r) [] 0).
Proof. exact (parse_client_head _ _ _ _ _ Hsend). Qed.

Lemma parse_sent h : heap_ok h → ∃ h',
  mp_cache_http_parse_request_buffer sent h = (Ret (meant_request method path token body), h') ∧ heap_ok h'.
Proof.
  intros Hh. unfold mp_cache_http_parse_request_buffer. rewrite sent_head.
  destruct (alloc h) as [ok h'] eqn:Ha. destruct (alloc_heap_ok _ _ _ Ha Hh) as [-> Hh'].
  exists h'. split; [|done]. unfold mbind at 1, STE_bind at 1, run. rewrite Ha. cbn [negb].
  rewrite sent_split, take_app_length, c_string_id by apply head_text_nul_free.
  rewrite parse_head_text.
  set (r := meant_request method path token body).
  assert (content_length r = zlen (default [] body)) as Hcl
    by (unfold r, meant_request; by destruct (mp_cache_http_split_target path)).
  rewrite (bind_ret (lift (Ret _)) _ h' _ _ eq_refl). cbn [content_length].
  pose proof (send_fits _ _ _ _ _ Hsend) as Hfit. fold sent in Hfit. rewrite sent_split in Hfit.
  rewrite zlen_app in Hfit. unfold MP_CACHE_HTTP_REQUEST_CAPACITY in Hfit. fold (zlen head_text).
  pose proof (zlen_nonneg head_text). pose proof (zlen_nonneg (default [] body)).
  rewrite Hcl, u64_small by lia. rewrite zlen_app, !decide_False by lia.
  unfold mret, STE_ret. f_equal. f_equal. rewrite drop_app_length.
  rewrite (take_ge (default [] body)) by (unfold zlen; lia).
  rewrite c_string_id by apply Hsend. unfold r, meant_request. by destruct (mp_cache_http_split_target path).
Qed.
End ClientRequest.

Lemma read_request_sent method path token kind body events h :
  sendable method path token kind body → heap_ok h → Forall delivers events →
  received events = client_request_text method path token kind body →
  ∃ h', mp_cache_http_read_request events MP_CACHE_HTTP_REQUEST_CAPACITY h =
    (Ret (meant_request method path token body), h').
Proof.
  intros Hs Hh Hd Hrec. pose proof (sent_head _ _ _ _ _ Hs) as Hhead. pose proof (send_fits _ _ _ _ _ Hs) as Hfit.
  unfold mp_cache_http_read_request. rewrite decide_False by done.
  destruct (recv_head_all MP_CACHE_HTTP_REQUEST_CAPACITY [] events _ Hd eq_refl ltac:(by rewrite app_nil_l, Hrec)
    ltac:(rewrite app_nil_l, Hrec; split; [done|reflexivity])) as (buffer & events' & Hrh & Hd' & Hall & Hbh).
  rewrite Hrh, (bind_ret (lift (Ret _)) _ h _ _ eq_refl), Hbh. rewrite app_nil_l, Hrec in Hall.
  destruct (alloc h) as [ok h'] eqn:Ha. destruct (alloc_heap_ok _ _ _ Ha Hh) as [-> Hh'].
  rewrite (bind_ret (run alloc) _ h true h') by (unfold run; by rewrite Ha). cbn [negb].
  set (head := head_text method path token kind body) in *.
  assert (take (length head) buffer = head) as Htake.
  { pose proof (head_length_bound _ _ Hbh). assert (take (length head) (buffer ++ received events') = head) as Ht.
    { rewrite Hall. fold (sent method path token kind body). rewrite sent_split. apply take_app_length. }
    rewrite <-Ht at 2. rewrite take_app_le by lia. done. }
  rewrite Htake, c_string_id by (by apply head_text_nul_free).
  pose proof (parse_head_text _ _ _ _ _ Hs) as Hpar. fold head in Hpar. rewrite Hpar, (bind_ret (lift (Ret _)) _ h' _ _ eq_refl). cbn [content_length].
  assert (content_length (meant_request method path token body) = zlen (default [] body)) as ->
    by (unfold meant_request; by destruct (mp_cache_http_split_target path)).
  assert (zlen head + zlen (default [] body) = zlen (client_request_text method path token kind body)) as Hneed.
  { fold (sent method path token kind body). by rewrite sent_split, zlen_app. }
  fold (zlen head). pose proof (zlen_nonneg head). pose proof (zlen_nonneg (default [] body)).
  unfold MP_CACHE_HTTP_REQUEST_CAPACITY in Hfit |- *.
  rewrite (u64_small (65536 - _ - 1)), decide_False, (u64_small (zlen head + _)), Hneed by lia.
  rewrite (bind_ret (lift _) _ h' (client_request_text method path token kind body) h').
  - rewrite decide_False by lia. destruct (parse_sent _ _ _ _ _ Hs h' Hh') as (h'' & Hp & _). by exists h''.
  - rewrite recv_body_all; [by rewrite Hall|done|by rewrite Hall|lia].
Qed.

(** C18. A request arrives as it was meant. What [mp_cache_http_client_request]
    writes on the socket, cut into any pieces and with any interruptions of
    [recv], is read by the server as a request with the client's method, path,
    query, bearer token and body. *)
Theorem client_request_understood method path token kind body events h :
  sendable method path token kind body → heap_ok h → Forall delivers events →
  received events = client_request_text method path token kind body →
  ∃ h', mp_cache_http_read_request events MP_CACHE_HTTP_REQUEST_CAPACITY h =
    (Ret (meant_request method path token body), h').
Proof. apply read_request_sent. Qed.

(** ** The server's response *)

Lemma send_all_spec events buffer :
  let '(ok, sent, _) := mp_cache_http_send_all events buffer in
  sent `prefix_of` buffer ∧ (ok = true → sent = buffer).
Proof.
  revert buffer. induction events as [|e events IH]; intros buffer; cbn [mp_cache_http_send_all];
    (destruct (decide (buffer = [])) as [->|Hne]; [done|]); [done|].
  destruct e as [[]|[|n]]; [apply IH|by split; [apply prefix_nil|]|by split; [apply prefix_nil|]|].
  specialize (IH (drop (S n) buffer)). destruct (mp_cache_http_send_all events (drop (S n) buffer)) as [[ok sent] rest].
  destruct IH as [[k Hk] Hall]. rewrite <-(take_drop (S n) buffer) at 2 4. split.
  - rewrite Hk, app_assoc. by eexists.
  - intros Hok. by rewrite (Hall Hok).
Qed.

(** A response that can be framed: its texts fit in lines, its body is a C
    string. *)
Record printable (r : mp_cache_http_response_t) : Prop := {
  print_status : 0 ≤ status_code r ∧ line_text (status_text r);
  print_allow : match allow_header_value r with None => True | Some allow => line_text allow end;
  print_extra : match extra_headers r with
                | None => True | Some extra => ∃ l, l ≠ [] ∧ line_text l ∧ extra = l ++ CRLF end;
  print_body : 0 ∉ default [] (response_body r);
  print_fits : zlen (response_header r) < MP_CACHE_HTTP_HEADER_CAPACITY;
}.

Definition response_lines (r : mp_cache_http_response_t) (extra : list bytes) : list bytes :=
  [cstr "HTTP/1.1 " ++ dec (status_code r) ++ cstr " " ++ status_text r; cstr "Content-Type: application/json";
   cstr "Content-Length: " ++ dec (zlen (default [] (response_body r))); cstr "Cache-Control: no-store";
   cstr "Connection: close"; cstr "X-Content-Type-Options: nosniff"] ++
  header_line "Allow: " (allow_header_value r) ++ extra.

Lemma response_header_lines r : printable r →
  ∃ extra, response_header r = lines_text (response_lines r extra) ++ CRLF ∧
    Forall (fun l => l ≠ [] ∧ line_text l) (response_lines r extra).
Proof.
  intros [[Hc Hst] Ha He _ _]. unfold response_header.
  assert (∃ extra, default [] (extra_headers r) = lines_text extra ∧ Forall (fun l => l ≠ [] ∧ line_text l) extra)
    as (extra & -> & Hextra).
  { destruct (extra_headers r) as [x|]; [|by exists []; split; [|constructor]].
    destruct He as (l & Hne & Hl & ->). exists [l]. split; [|by apply Forall_singleton].
    symmetry. apply (mjoin_one (l ++ CRLF)). }
  exists extra. split.
  - unfold response_lines, header_line, lines_text.
    destruct (allow_header_value r); cbn [app]; rewrite !fmap_cons, !mjoin_cons; rewrite <-!app_assoc; reflexivity.
  - unfold response_lines. repeat apply Forall_app_2; [|destruct (allow_header_value r); [|constructor]|done].
    + repeat apply Forall_cons_2; [|split; [done|decide_now]| |split; [done|decide_now]..|constructor].
      * split; [done|]. rewrite !line_text_app. split; [decide_now|]. split; [by apply line_text_dec_num|].
        by split; [decide_now|].
      * split; [done|]. apply line_text_app. split; [decide_now|apply line_text_dec_num, zlen_nonneg].
    + apply Forall_singleton. split; [done|]. apply line_text_app. by split; [decide_now|].
Qed.

Definition response_whole (r : mp_cache_http_response_t) : bytes :=
  response_header r ++ default [] (response_body r).

(** What the client prints of the first bytes of a response: the part of the
    body among them, or all of them when they end inside the header. *)
Definition printed (r : mp_cache_http_response_t) (got : bytes) : bytes :=
  (if decide (length (response_header r) ≤ length got)%nat then drop (length (response_header r)) got else got) ++ [10].

Lemma response_header_end r tl : printable r → strstr (response_header r ++ tl) HEAD_END = Some (HEAD_END ++ tl).
Proof.
  intros Hp. destruct (response_header_lines r Hp) as (extra & -> & Hl). rewrite <-app_assoc.
  by apply (head_end_lines (response_lines r extra)).
Qed.

Lemma response_nul_free r : printable r → 0 ∉ response_whole r.
Proof.
  intros Hp. unfold response_whole. destruct (response_header_lines r Hp) as (extra & -> & Hl).
  rewrite !not_elem_of_app. split; [split; [by apply nul_free_lines|unfold CRLF; set_solver by lia]|apply Hp].
Qed.

Lemma client_output_prefix r got : printable r → got `prefix_of` response_whole r → client_output got = printed r got.
Proof.
  intros Hp [rest Hrest]. pose proof (response_nul_free r Hp) as H0. rewrite Hrest, not_elem_of_app in H0.
  unfold client_output, printed. rewrite c_string_id by apply H0. f_equal. unfold response_whole in Hrest.
  case_decide as Hlen.
  - assert (got = response_header r ++ drop (length (response_header r)) got) as Hgot.
    { rewrite <-(take_drop (length (response_header r)) got) at 1. f_equal.
      rewrite <-(take_app_le got rest), <-Hrest by done. by apply take_app_length. }
    rewrite Hgot at 1. by rewrite response_header_end.
  - destruct (strstr got HEAD_END) as [found|] eqn:Hf; [|done]. exfalso.
    assert (response_header r = got ++ drop (length got) (response_header r)) as Hh.
    { rewrite <-(take_drop (length got) (response_header r)) at 1. f_equal.
      rewrite <-(take_app_le _ (default [] (response_body r))), Hrest by lia. by apply take_app_length. }
    pose proof (strstr_app _ (drop (length got) (response_header r)) _ _ Hf) as Hs. rewrite <-Hh in Hs.
    pose proof (response_header_end r [] Hp) as He. rewrite app_nil_r in He. rewrite He in Hs.
    apply strstr_suffix in Hf as (pre & tl & _ & ->). injection Hs as Hs.
    apply (f_equal length) in Hs. rewrite !length_app, length_drop in Hs. cbn [length] in Hs. lia.
Qed.

Lemma write_response_spec r events : printable r →
  let '(ok, sent) := mp_cache_http_write_response r events in
  sent `prefix_of` response_whole r ∧ (ok = true → sent = response_whole r).
Proof.
  intros Hp. unfold mp_cache_http_write_response, response_whole. pose proof (print_fits _ Hp) as Hfit.
  rewrite decide_False by lia. pose proof (send_all_spec events (response_header r)) as Hs1.
  destruct (mp_cache_http_send_all events (response_header r)) as [[ok1 sent1] events1]. destruct Hs1 as [Hpre1 Hall1].
  destruct ok1; cbn [negb]; [|split; [|done]].
  - rewrite (Hall1 eq_refl). pose proof (send_all_spec events1 (default [] (response_body r))) as Hs2.
    destruct (mp_cache_http_send_all events1 (default [] (response_body r))) as [[ok2 sent2] events2].
    destruct Hs2 as [Hpre2 Hall2]. split; [by apply prefix_app|]. intros Hok. by rewrite (Hall2 Hok).
  - destruct Hpre1 as [k ->]. rewrite <-app_assoc. by eexists.
Qed.

(** C19. A response arrives whole or the send fails, and what the client prints of
    it. Whatever short writes and interruptions the socket has, the peer gets a
    prefix of the framed response, all of it when [write_response] succeeds. The
    client makes one [recv] of at most 65535 bytes, which returns the first [n]
    bytes of what was sent, for some [n]: it then prints, with a newline, the
    part of the body among the bytes it took, or those bytes themselves when
    they end inside the header; so it prints exactly the body when the response
    was sent whole, fits the buffer and arrived at once. *)
Theorem response_delivered r events exchange socket_path method path token kind body n :
  printable r →
  let request := client_request_text method path token kind body in
  zlen request < MP_CACHE_HTTP_REQUEST_CAPACITY → zlen socket_path < SUN_PATH_SIZE →
  let '(ok, sent) := mp_cache_http_write_response r events in
  sent `prefix_of` response_whole r ∧ (ok = true → sent = response_whole r) ∧
  (exchange request = Ret (take n sent) →
     mp_cache_http_client_request exchange socket_path method path token kind body =
       Ret (printed r (take (Z.to_nat (MP_CACHE_HTTP_REQUEST_CAPACITY - 1)) (take n sent))) ∧
     (ok = true → (length (response_whole r) ≤ n)%nat → zlen (response_whole r) < MP_CACHE_HTTP_REQUEST_CAPACITY →
      mp_cache_http_client_request exchange socket_path method path token kind body =
        Ret (default [] (response_body r) ++ [10]))).
Proof.
  intros Hp request Hreq Hsock. pose proof (write_response_spec r events Hp) as Hw.
  destruct (mp_cache_http_write_response r events) as [ok sent]. destruct Hw as [Hpre Hall].
  split; [done|]. split; [done|]. intros Hex. unfold mp_cache_http_client_request. fold request.
  rewrite !decide_False by lia. rewrite Hex. cbn [mbind outcome_bind].
  rewrite (client_output_prefix r); [|done|].
  - split; [done|]. intros Hok Hn Hlen. rewrite (Hall Hok), (take_ge _ n) by done. rewrite take_ge by (unfold zlen in Hlen; lia).
    unfold printed, response_whole. rewrite decide_True by (rewrite length_app; lia). by rewrite drop_app_length.
  - etrans; [apply prefix_take|]. etrans; [apply prefix_take|exact Hpre].
Qed.

(** ** Concrete exchanges *)

Definition sample_put_text : bytes := Eval vm_compute in
  client_request_text (cstr "PUT") (cstr "/v1/cache/user?x=1") (Some (cstr "s3cret")) (Some (cstr "application/json"))
    (Some (cstr "{}")).
Definition sample_put_events : list recv_result :=
  [RecvBytes (take 20 sample_put_text); RecvError true; RecvBytes (take 90 (drop 20 sample_put_text));
   RecvBytes (drop 110 sample_put_text)].

Lemma sample_sendable :
  sendable (cstr "PUT") (cstr "/v1/cache/user?x=1") (Some (cstr "s3cret")) (Some (cstr "application/json")) (Some (cstr "{}")).
Proof. split; decide_now. Qed.

Lemma client_request_understood_witness :
  ∃ h', mp_cache_http_read_request sample_put_events MP_CACHE_HTTP_REQUEST_CAPACITY [] =
    (Ret (Request (cstr "PUT") (cstr "/v1/cache/user?x=1") (cstr "/v1/cache/user") (cstr "x=1") (cstr "Bearer s3cret")
      2 (cstr "{}") 2), h').
Proof.
  apply (client_request_understood (cstr "PUT") (cstr "/v1/cache/user?x=1") (Some (cstr "s3cret"))
    (Some (cstr "application/json")) (Some (cstr "{}")) sample_put_events []).
  - exact sample_sendable.
  - constructor.
  - repeat constructor; discriminate.
  - vm_compute. reflexivity.
Defined.

Definition sample_response : mp_cache_http_response_t :=
  Response 405 (cstr "Method Not Allowed") (Some (cstr "{}")) (Some (cstr "GET")) (Some (cstr "Retry-After: 60" ++ CRLF)).

Lemma sample_printable : printable sample_response.
Proof.
  split; try (decide_now).
  exists (cstr "Retry-After: 60"). split; [done|]. split; [decide_now|reflexivity].
Qed.

Lemma response_delivered_witness :
  mp_cache_http_client_request (fun _ => Ret (response_whole sample_response)) (cstr "/run/s") (cstr "GET") (cstr "/v1/health")
    None None None = Ret (cstr "{}" ++ [10]).
Proof.
  pose proof (response_delivered sample_response (SentBytes 7 :: SendError true :: replicate 4 (SentBytes 100))
    (fun _ => Ret (response_whole sample_response)) (cstr "/run/s") (cstr "GET") (cstr "/v1/health") None None None
    (length (response_whole sample_response)) sample_printable ltac:(vm_compute; reflexivity) ltac:(vm_compute; reflexivity)) as Hr.
  destruct (mp_cache_http_write_response sample_response _) as [ok sent] eqn:Hw.
  assert (ok = true) as Hok by (apply (f_equal fst) in Hw; vm_compute in Hw; by symmetry).
  destruct Hr as (_ & Hall & Hcl). rewrite (Hall Hok) in Hcl. refine (proj2 (Hcl _) Hok _ _).
  - by rewrite firstn_all.
  - lia.
  - vm_compute. reflexivity.
Defined.
