(* ===== verification/ServiceState.v ===== *)
(** * ServiceState: what every request keeps

    The invariant of the running service (well-formed store and registry, the
    configured limits, the bootstrap credential) is kept by every request, over
    any sequence of requests and changes of the environment; and what the
    service has acknowledged is on disk. *)

From stdpp Require Import base numbers strings option gmap list.
From S2P Require Import Prelude Config Crypto Cache Security Fs CString Log HttpText StorageCodec Storage Persistence HttpServer ServiceAuth.
Local Open Scope Z_scope.

(** ** Predicates that code preserves *)

(** [P] holds afterwards whatever the outcome. *)
Definition preserves {S A} (P : S → Prop) (m : STE S A) : Prop := ∀ s, P s → P (m s).2.

Section Preserves.
Context {S : Type} (P : S → Prop).

Lemma preserves_pure {A} (o : outcome A) : preserves P (lift o).
Proof. by intros s Hs. Qed.

Lemma preserves_ret {A} (a : A) : preserves P (mret a).
Proof. by intros s Hs. Qed.

Lemma preserves_fail {A} e : preserves P (fail (A := A) e).
Proof. by intros s Hs. Qed.

Lemma preserves_bind {A B} (m : STE S A) (f : A → STE S B) :
  preserves P m → (∀ a, preserves P (f a)) → preserves P (m ≫= f).
Proof.
  intros Hm Hf s Hs. specialize (Hm s Hs). unfold mbind, STE_bind.
  destruct (m s) as [[a|e|] s']; [|done..]. by apply Hf.
Qed.

Lemma preserves_attempt {A} (m : STE S A) : preserves P m → preserves P (attempt m).
Proof. intros Hm s Hs. specialize (Hm s Hs). unfold attempt. by destruct (m s). Qed.

Lemma preserves_succeeds {A} (m : STE S A) : preserves P m → preserves P (succeeds m).
Proof. intros Hm s Hs. specialize (Hm s Hs). unfold succeeds. by destruct (m s) as [[]]. Qed.
End Preserves.
#[export] Hint Resolve preserves_pure preserves_ret preserves_fail preserves_bind preserves_attempt preserves_succeeds : mpc.

(** Splits sequences, branches and pairs of a preservation goal. *)
Ltac preserve := repeat lazymatch goal with
  | |- preserves _ (lift _) => apply preserves_pure
  | |- preserves _ (mret _) => apply preserves_ret
  | |- preserves _ (fail _) => apply preserves_fail
  | |- preserves _ (attempt _) => apply preserves_attempt
  | |- preserves _ (succeeds _) => apply preserves_succeeds
  | |- preserves _ (_ ≫= _) => apply preserves_bind; [|intros ?]
  | |- preserves _ (if ?x then _ else _) => destruct x
  | |- preserves _ (match ?x with _ => _ end) => destruct x
  end; try assumption.

(** ** The clock and the process id *)

Section Clock.
Context {EC : EnvelopeCrypto} (t pid : Z).

Definition clock (w : world) : Prop := w_time w = t ∧ w_pid w = pid.

Lemma clock_heap {A} (m : STE heap A) : preserves clock (in_heap m).
Proof. intros w Hw. unfold in_heap, zoom. by destruct (m (w_heap w)). Qed.
Lemma clock_disk {A} (m : STE disk A) : preserves clock (in_disk m).
Proof. intros w Hw. unfold in_disk, zoom. by destruct (m (w_disk w)). Qed.
Lemma clock_entropy {A} (m : STE entropy A) : preserves clock (in_entropy m).
Proof. intros w Hw. unfold in_entropy, zoom. by destruct (m (w_entropy w)). Qed.

Lemma clock_time : preserves clock time_now.
Proof. by intros w Hw. Qed.
Lemma clock_pid : preserves clock getpid.
Proof. by intros w Hw. Qed.

Ltac tick := repeat (progress preserve || lazymatch goal with
  | |- preserves _ (in_heap _) => apply clock_heap
  | |- preserves _ (in_disk _) => apply clock_disk
  | |- preserves _ (in_entropy _) => apply clock_entropy
  | |- preserves _ time_now => apply clock_time
  | |- preserves _ getpid => apply clock_pid
  end).

Lemma clock_build_packet storage magic payload : preserves clock (mp_cache_storage_build_packet storage magic payload).
Proof. unfold mp_cache_storage_build_packet, malloc, with_buffer. tick. Qed.

Lemma clock_write_packet storage path magic payload :
  preserves clock (mp_cache_storage_write_packet_file storage path magic payload).
Proof.
  unfold mp_cache_storage_write_packet_file, commit_temp. tick; apply clock_build_packet.
Qed.

Lemma clock_append storage j : preserves clock (append_entry storage j).
Proof.
  unfold append_entry, mp_cache_storage_append_packet, with_buffer. tick; apply clock_build_packet.
Qed.

Lemma clock_checkpoint storage store security now : preserves clock (mp_cache_storage_checkpoint storage store security now).
Proof. unfold mp_cache_storage_checkpoint, with_buffer. tick; apply clock_write_packet. Qed.

Lemma clock_read_packet storage path magic : preserves clock (mp_cache_storage_read_packet_file storage path magic).
Proof. unfold mp_cache_storage_read_packet_file, mp_cache_storage_read_packet_stream, malloc, with_buffer. tick. Qed.

Lemma clock_export storage store security now : preserves clock (mp_cache_storage_export_state storage store security now).
Proof.
  unfold mp_cache_storage_export_state, mp_cache_storage_export_count, with_buffer.
  tick; [apply clock_checkpoint|apply clock_write_packet].
Qed.
End Clock.

(** ** Expiry times *)

Definition expiry_map (m : gmap bytes (bytes * Z)) : Prop := map_Forall (fun _ v => - 2 ^ 63 ≤ v.2 < 2 ^ 63) m.

Lemma expiry_ok_map store : store_wf store → expiry_ok store ↔ expiry_map (store_map store).
Proof.
  intros Hst. unfold expiry_ok, expiry_map. rewrite map_Forall_to_list, <-(entries_map_to_list store Hst).
  rewrite Forall_fmap. done.
Qed.

Lemma expiry_map_filter (P : bytes * (bytes * Z) → Prop) `{∀ x, Decision (P x)} m : expiry_map m → expiry_map (filter P m).
Proof. intros Hm k v Hk. apply map_lookup_filter_Some in Hk as [Hk _]. by eapply Hm. Qed.

Lemma expiry_map_delete k m : expiry_map m → expiry_map (delete k m).
Proof. apply map_Forall_delete. Qed.

Lemma expiry_map_insert k v exp m : - 2 ^ 63 ≤ exp < 2 ^ 63 → expiry_map m → expiry_map (<[k := (v, exp)]> m).
Proof. intros He Hm. by apply map_Forall_insert_2. Qed.

(** ** The invariant *)

Section Invariant.
Context (config : mp_cache_config_t) (storage : mp_cache_storage_t) (store0 : mp_cache_store_t)
  (security0 : mp_cache_security_t).

(** The store and the registry, wherever they come from. *)
Record data_inv (store : mp_cache_store_t) (security : mp_cache_security_t) : Prop := {
  inv_store : store_wf store;
  inv_limits : same_limits store0 store;
  inv_expiry : expiry_ok store;
  inv_security : security_wf security;
  inv_hash : bootstrap_admin_hash security = bootstrap_admin_hash security0;
  inv_loaded : bootstrap_admin_loaded security = bootstrap_admin_loaded security0;
}.

(** The running server at time [t]. *)
Record service_inv (t pid : Z) (s : mp_cache_http_server_t) : Prop := {
  inv_config : hs_config s = config;
  inv_storage : hs_storage s = storage;
  inv_clock : clock t pid (sv_world (service s));
  inv_data : data_inv (sv_store (service s)) (sv_security (service s));
}.

Lemma untouched_inv t pid s s' : untouched s s' → service_inv t pid s → service_inv t pid s'.
Proof. intros [? ? ? ? ? ? ? ? ?] [? ? [? ?] ?]. split; [congruence|congruence|split; congruence|congruence]. Qed.

(** *** The operations of store and registry *)

Lemma data_store store store' security :
  data_inv store security → store_wf store' → same_limits store store' → expiry_map (store_map store') →
  data_inv store' security.
Proof. intros [? ? ? ? ? ?] ? ? ?. split; try done; [by etrans|by apply expiry_ok_map]. Qed.

Lemma data_security store security security' :
  data_inv store security → security_wf security' →
  bootstrap_admin_hash security' = bootstrap_admin_hash security →
  bootstrap_admin_loaded security' = bootstrap_admin_loaded security → data_inv store security'.
Proof. intros [? ? ? ? ? ?] ? ? ?. split; try done; congruence. Qed.

Lemma data_expiry store security : data_inv store security → expiry_map (store_map store).
Proof. intros [? ? ? ? ? ?]. by apply expiry_ok_map. Qed.

(** A step of the abstract cache keeps the expiry times in range. *)
Lemma abs_step_expiry memory max_key max_value oom m op reply m' :
  abs_step memory max_key max_value oom m op reply m' → expiry_map m →
  match op with
  | OpSet _ _ ttl now => - 2 ^ 63 ≤ now + ttl < 2 ^ 63
  | OpRestore _ _ exp => - 2 ^ 63 ≤ exp < 2 ^ 63
  | _ => True
  end → expiry_map m'.
Proof.
  assert (∀ key value exp status m2, abs_write memory max_key max_value oom m key value exp status m2 →
    expiry_map m → - 2 ^ 63 ≤ exp < 2 ^ 63 → expiry_map m2) as Hw.
  { intros key value exp status m2 Hw Hm He. destruct Hw; [by apply expiry_map_insert|done..]. }
  intros Hs Hm Hop. destruct Hs; try done; eauto using expiry_map_delete, expiry_map_filter, map_Forall_empty.
Qed.

Lemma set_outcome store key value ttl now h :
  store_wf store → ∃ status store' h',
    mp_cache_store_set store (Some key) (Some value) ttl now h = (status, store', h') ∧
    store_wf store' ∧ same_limits store store' ∧
    abs_step (store_memory_limit store) (store_max_key store) (store_max_value store) (¬ heap_ok h)
      (store_map store) (OpSet key value ttl now) (RStatus status) (store_map store').
Proof.
  intros Hst. destruct (run_op_outcome store (OpSet key value ttl now) h Hst) as (r & s' & h' & Hrun & H1 & H2 & H3).
  unfold run_op, mbind, ST_bind in Hrun.
  destruct (mp_cache_store_set store (Some key) (Some value) ttl now h) as [[status s1] h1].
  injection Hrun as <- <- <-. by eexists _, _, _.
Qed.

Context (t pid : Z).
Local Abbreviation inv := (service_inv t pid).

(** A new store and registry in an otherwise unchanged service. *)
Lemma inv_set_service s w store security :
  inv s → clock t pid w → data_inv store security → inv (set_service s (Server w store security)).
Proof. intros [? ? ? ?] ? ?. by split. Qed.

Lemma svc_get_spec key now s : inv s →
  ∃ status found store h, svc_get key now s =
    (Ret (status, found), set_service s (Server (set_heap (sv_world (service s)) h) store (sv_security (service s)))) ∧
  data_inv store (sv_security (service s)) ∧
  abs_step (store_memory_limit store) (store_max_key store) (store_max_value store)
    (¬ heap_ok (w_heap (sv_world (service s)))) (store_map (sv_store (service s)))
    (OpGet key now) (RValue status found) (store_map store).
Proof.
  intros [_ _ _ Hd].
  destruct (get_copy_outcome (sv_store (service s)) key now (w_heap (sv_world (service s))) (inv_store _ _ Hd))
    as (status & found & store & h & Hg & Hst & Hl & Hs).
  exists status, found, store, h. unfold svc_get, in_service, zoom. rewrite Hg. split; [done|]. split.
  - eapply data_store; [done..|]. eapply abs_step_expiry; [exact Hs|by eapply data_expiry|done].
  - pose proof Hl as (_ & <- & <- & <-). done.
Qed.

Lemma svc_set_spec key value ttl now s : inv s → - 2 ^ 63 ≤ now + ttl < 2 ^ 63 →
  ∃ status store h, svc_set key value ttl now s =
    (Ret status, set_service s (Server (set_heap (sv_world (service s)) h) store (sv_security (service s)))) ∧
  data_inv store (sv_security (service s)) ∧
  abs_step (store_memory_limit store) (store_max_key store) (store_max_value store)
    (¬ heap_ok (w_heap (sv_world (service s)))) (store_map (sv_store (service s)))
    (OpSet key value ttl now) (RStatus status) (store_map store).
Proof.
  intros [_ _ _ Hd] He.
  destruct (set_outcome (sv_store (service s)) key value ttl now (w_heap (sv_world (service s))) (inv_store _ _ Hd))
    as (status & store & h & Hg & Hst & Hl & Hs).
  exists status, store, h. unfold svc_set, in_service, zoom. rewrite Hg. split; [done|]. split.
  - eapply data_store; [done..|]. eapply abs_step_expiry; [exact Hs|by eapply data_expiry|done].
  - pose proof Hl as (_ & <- & <- & <-). done.
Qed.

Lemma svc_delete_spec key s : inv s →
  ∃ status store, svc_delete key s = (Ret status, set_service s (set_store (service s) store)) ∧
  data_inv store (sv_security (service s)) ∧ store_map store = delete key (store_map (sv_store (service s))) ∧
  (status = MP_CACHE_STORE_STATUS_OK ∧ is_Some (store_map (sv_store (service s)) !! key) ∨
   status = MP_CACHE_STORE_STATUS_NOT_FOUND ∧ store_map (sv_store (service s)) !! key = None).
Proof.
  intros [_ _ _ Hd]. pose proof (delete_outcome (sv_store (service s)) key (inv_store _ _ Hd)) as Ho.
  destruct (mp_cache_store_delete (sv_store (service s)) (Some key)) as [status store] eqn:Hdel.
  destruct Ho as (Hst & Hl & Hm & Hcase). exists status, store. unfold svc_delete, in_service, zoom. rewrite Hdel.
  split; [done|]. split; [|done]. eapply data_store; [done..|]. rewrite Hm.
  by eapply expiry_map_delete, data_expiry.
Qed.

Lemma svc_clear_spec s : inv s →
  ∃ store, svc_clear s = (Ret tt, set_service s (set_store (service s) store)) ∧
  data_inv store (sv_security (service s)) ∧ store_map store = ∅.
Proof.
  intros [_ _ _ Hd]. destruct (clear_outcome (sv_store (service s)) (inv_store _ _ Hd)) as (Hst & Hl & Hm).
  exists (mp_cache_store_clear (sv_store (service s))). split; [done|]. split; [|done].
  eapply data_store; [done..|]. rewrite Hm. apply map_Forall_empty.
Qed.

Lemma maybe_sweep_inv now s : inv s → inv (mp_cache_http_maybe_sweep now s).2.
Proof.
  intros Hinv. pose proof Hinv as [? ? ? Hd]. unfold mp_cache_http_maybe_sweep. destruct (decide _); [|done].
  split; try done. cbn. pose proof (purge_expired_outcome (sv_store (service s)) now (inv_store _ _ Hd)) as Ho.
  destruct (mp_cache_store_purge_expired _ _) as [n store]. destruct Ho as (Hst & Hl & Hm & _). cbn.
  eapply data_store; [done..|]. rewrite Hm. by eapply expiry_map_filter, data_expiry.
Qed.
End Invariant.

(** ** The registry's operations *)

(** What a registration, rotation or revocation of [id] does: it writes one
    record, in place or at the end. *)
Definition client_step (security security' : mp_cache_security_t) (id : bytes) : Prop :=
  ∃ r, client_id r = id ∧ mp_cache_security_find_client security' (Some id) = Some r ∧
    records security' = upsert_record r (records security) ∧
    (zlen (records security) < MP_CACHE_MAX_CLIENTS ∨ id ∈ (client_id <$> records security)).

(** What one of these operations keeps, and what it does when it succeeds. *)
Definition registry_step (security security' : mp_cache_security_t) (status : mp_cache_security_status_t) (id : bytes)
    : Prop :=
  security_wf security' ∧ bootstrap_admin_hash security' = bootstrap_admin_hash security ∧
  bootstrap_admin_loaded security' = bootstrap_admin_loaded security ∧
  (status ≠ MP_CACHE_SECURITY_STATUS_OK → records security' = records security) ∧
  (status = MP_CACHE_SECURITY_STATUS_OK → client_step security security' id).

Lemma find_record_update n rs id i r r' :
  find_record_from n rs id = Some (i, r) → client_id r' = id →
  (n ≤ i)%nat ∧ find_record_from n (<[(i - n)%nat := r']> rs) id = Some (i, r').
Proof.
  revert n. induction rs as [|r0 rs IH]; intros n Hf Hid; [done|]. cbn [find_record_from] in Hf.
  destruct (decide (client_id r0 = id)) as [H0|H0].
  - injection Hf as <- <-. split; [lia|]. rewrite Nat.sub_diag. cbn. by rewrite decide_True.
  - destruct (IH (S n) Hf Hid) as [Hle Hf']. split; [lia|].
    replace (i - n)%nat with (S (i - S n)) by lia. cbn [insert list_insert find_record_from].
    rewrite decide_False by done. exact Hf'.
Qed.

Lemma find_record_append n rs id r :
  id ∉ (client_id <$> rs) → client_id r = id → find_record_from n (rs ++ [r]) id = Some ((n + length rs)%nat, r).
Proof.
  revert n. induction rs as [|r0 rs IH]; intros n Hn Hid; cbn [app find_record_from].
  - rewrite decide_True by done. by rewrite Nat.add_0_r.
  - rewrite fmap_cons, not_elem_of_cons in Hn. destruct Hn as [? ?]. rewrite decide_False by congruence.
    rewrite IH by done. cbn [length]. do 2 f_equal. lia.
Qed.

Lemma replace_step security id i r r' :
  mp_cache_security_find_record security (Some id) = Some (i, r) → client_id r' = id →
  client_step security (set_records security (<[i := r']> (records security))) id.
Proof.
  intros Hf Hid. pose proof (find_record_split _ _ _ _ Hf) as (Hr & l1 & l2 & Heq & _).
  destruct (find_record_update 0 _ id i r r' Hf Hid) as [_ Hup]. rewrite Nat.sub_0_r in Hup.
  exists r'. split; [done|]. split; [|split].
  - unfold mp_cache_security_find_client. cbn [mp_cache_security_find_record set_records records]. by rewrite Hup.
  - unfold upsert_record. rewrite Hid. cbn [mp_cache_security_find_record] in Hf. by rewrite Hf.
  - right. rewrite Heq, fmap_app, fmap_cons, Hr. set_solver.
Qed.

Section Registry.
Context (security : mp_cache_security_t) (Hwf : security_wf security).

Lemma register_step id new_role cap hs : role_range new_role →
  let '(status, _, security', _) := mp_cache_security_register_client security (Some id) new_role cap hs in
  registry_step security security' status id.
Proof.
  intros Hrole. pose proof (register_wf security Hwf (Some id) new_role cap hs Hrole) as Hwf'.
  destruct (register_spec security id new_role cap hs Hwf) as (status & token & security' & hs' & Hrun & H1 & H2 & H3 & Ho).
  rewrite Hrun in Hwf' |- *. cbn in Hwf'. repeat (split; [done|]). intros ->.
  destruct Ho as (_ & _ & Hn & _ & _ & Hrec).
  exists (ClientRecord id new_role true (sha256_oneshot token)). split; [done|]. split; [|split].
  - unfold mp_cache_security_find_client. cbn [mp_cache_security_find_record]. by rewrite Hrec, find_record_append.
  - by rewrite upsert_record_new.
  - left. destruct Hwf' as [_ _ Hc Hcap _]. rewrite Hrec in Hc. len_simpl. lia.
Qed.

Lemma rotate_step id cap e :
  let '(status, _, security', _) := mp_cache_security_rotate_client_token security (Some id) cap e in
  registry_step security security' status id.
Proof.
  pose proof (rotate_wf security Hwf (Some id) cap e) as Hwf'. unfold mp_cache_security_rotate_client_token in *.
  destruct (decide _); [done|].
  destruct (mp_cache_security_find_record security (Some id)) as [[i r]|] eqn:Hf; [|done].
  unfold mbind, ST_bind in *. destruct (mp_cache_security_issue_token cap e) as [[st token] e'].
  destruct (decide _) as [Hs|Hs]; [done|]. repeat (split; [done|]). intros _.
  eapply replace_step; [done|]. by destruct (find_record_split _ _ _ _ Hf).
Qed.

Lemma invalidate_step id :
  let '(status, security') := mp_cache_security_invalidate_client_token security (Some id) in
  registry_step security security' status id.
Proof.
  pose proof (invalidate_wf security Hwf (Some id)) as Hwf'. unfold mp_cache_security_invalidate_client_token in *.
  destruct (decide _); [done|].
  destruct (mp_cache_security_find_record security (Some id)) as [[i r]|] eqn:Hf; [|done].
  repeat (split; [done|]). intros _.
  eapply replace_step; [done|]. by destruct (find_record_split _ _ _ _ Hf).
Qed.
End Registry.

(** ** What the disk holds *)

Lemma map_cost_nonneg m : 0 ≤ map_cost m.
Proof.
  apply sumZ_nonneg, Forall_fmap, Forall_forall. intros kv _. pose proof (binding_cost_pos kv). cbn.
  unfold sizeof_entry in *. lia.
Qed.

(** A part of a map costs no more than the map. *)
Lemma map_cost_filter (P : bytes * (bytes * Z) → Prop) `{∀ x, Decision (P x)} m : map_cost (filter P m) ≤ map_cost m.
Proof.
  induction m as [|k [v exp] m Hk IH] using map_ind; [by rewrite map_filter_empty|].
  rewrite (map_cost_insert m k v exp Hk). pose proof (binding_cost_pos (k, (v, exp))). unfold sizeof_entry in *.
  destruct (decide (P (k, (v, exp)))) as [HP|HP].
  - rewrite map_filter_insert_True by done. rewrite map_cost_insert by (by apply map_lookup_filter_None; left). lia.
  - rewrite map_filter_insert_not' by (done || intros y Hy; congruence). lia.
Qed.

(** An append makes no new file but the journal, and directories only above it. *)
Section Missing.
Context {EC : EnvelopeCrypto} (storage : mp_cache_storage_t) (p : bytes).
Context (Hp : ¬ p `prefix_of` st_journal_path storage).

Local Abbreviation missing := (fun d => disk_nodes d !! p = None).

Lemma missing_world {A} (m : STE disk A) : preserves missing m → preserves (fun w => missing (w_disk w)) (in_disk m).
Proof. intros Hm w Hw. specialize (Hm _ Hw). unfold in_disk, zoom. by destruct (m (w_disk w)). Qed.
Lemma missing_heap {A} (m : STE heap A) : preserves (fun w => missing (w_disk w)) (in_heap m).
Proof. intros w Hw. unfold in_heap, zoom. by destruct (m (w_heap w)). Qed.
Lemma missing_entropy {A} (m : STE entropy A) : preserves (fun w => missing (w_disk w)) (in_entropy m).
Proof. intros w Hw. unfold in_entropy, zoom. by destruct (m (w_entropy w)). Qed.

Lemma missing_parent : preserves missing (mp_cache_fs_ensure_parent_directory (Some (st_journal_path storage))).
Proof.
  intros d Hd. destruct (ensure_parent_added (st_journal_path storage) d) as [Ha _].
  by rewrite (dirs_added_other _ _ _ p Ha Hp).
Qed.

Lemma missing_put content : preserves missing (put_node (st_journal_path storage) content).
Proof.
  intros d Hd. cbn. rewrite lookup_insert_ne; [done|]. intros Heq. apply Hp. by rewrite Heq.
Qed.

Lemma missing_choice : preserves missing next_choice.
Proof. intros d Hd. destruct (next_choice_spec d) as (c & plan & ->). done. Qed.
Lemma missing_nodes : preserves missing get_nodes.
Proof. by intros d Hd. Qed.

Lemma missing_append j : preserves (fun w => missing (w_disk w)) (append_entry storage j).
Proof.
  unfold append_entry, mp_cache_storage_append_packet, mp_cache_storage_build_packet, with_buffer, malloc.
  repeat (progress preserve || lazymatch goal with
    | |- preserves _ (in_heap _) => apply missing_heap
    | |- preserves _ (in_entropy _) => apply missing_entropy
    | |- preserves _ (in_disk _) => apply missing_world
    | |- preserves _ time_now => by intros w Hw
    | |- preserves _ next_choice => apply missing_choice
    | |- preserves _ get_nodes => apply missing_nodes
    | |- preserves _ (put_node _ _) => apply missing_put
    | |- preserves _ (mp_cache_fs_ensure_parent_directory _) => apply missing_parent
    | |- preserves _ (fopen_write _ _) => unfold fopen_write
    | |- preserves _ (fwrite_flush _ _ _) => unfold fwrite_flush
    | |- preserves _ sys_fclose => unfold sys_fclose
    end).
Qed.
End Missing.

Section Durable.
Context {EC : EnvelopeCrypto} (storage : mp_cache_storage_t) (store0 : mp_cache_store_t).
Context (Hmemory : store_memory_limit store0 ≤ 2 ^ 31).
Context (Hckpt : ¬ st_checkpoint_path storage `prefix_of` st_journal_path storage).

(** A checkpoint of [base] and [security], or no checkpoint at all and empty
    data; then the journal [js]. *)
Definition on_disk (base : mp_cache_store_t) (security : mp_cache_security_t) (t0 : Z) (js : list journal_entry)
    (d : disk) : Prop :=
  persisted storage base security t0 js d ∨
  disk_nodes d !! st_checkpoint_path storage = None ∧ store_map base = ∅ ∧ records security = [] ∧
    journal_holds storage js d.

Local Abbreviation replay t := (replay_list (store_memory_limit store0) (store_max_key store0) (store_max_value store0) t).
Local Abbreviation alive t m := (filter (fun kv => t < kv.2.2) (m : gmap bytes (bytes * Z))).

Definition unexpired (t : Z) (j : journal_entry) : Prop := match j with JSet _ _ exp => t < exp | _ => True end.

(** The checkpoint and the journal [js] on [d] hold the entries of [m] that are
    alive, and the records [rs]: a replay at any time from [t] on gives them, as
    long as no journalled SET has expired. *)
Definition covers (t : Z) (js : list journal_entry) (m : gmap bytes (bytes * Z)) (rs : list mp_cache_client_record_t)
    (d : disk) : Prop :=
  ∃ base security t0, store_wf base ∧ same_limits store0 base ∧ expiry_ok base ∧ security_wf security ∧ t0 ≤ t ∧
    on_disk base security t0 js d ∧
    ∀ t', t ≤ t' → Forall (unexpired t') js → replay t' (alive t' (store_map base), records security) js = Some (alive t' m, rs).

(** One more operation. *)
Definition journals (t : Z) (j : journal_entry) (m : gmap bytes (bytes * Z)) (rs : list mp_cache_client_record_t)
    (m' : gmap bytes (bytes * Z)) (rs' : list mp_cache_client_record_t) : Prop :=
  ∀ t', t ≤ t' → unexpired t' j →
    replay_step (store_memory_limit store0) (store_max_key store0) (store_max_value store0) t' (alive t' m, rs) j =
      Some (alive t' m', rs').

Lemma covers_later t t1 js m rs d : t ≤ t1 → covers t js m rs d → covers t1 js m rs d.
Proof.
  intros Hle (base & security & t0 & ? & ? & ? & ? & ? & ? & Hr). exists base, security, t0.
  repeat (split; [done || lia|]). intros t' Ht'. apply Hr. lia.
Qed.

Lemma covers_alive t js m m' rs d : (∀ t', t ≤ t' → alive t' m = alive t' m') → covers t js m rs d → covers t js m' rs d.
Proof.
  intros Heq (base & security & t0 & ? & ? & ? & ? & ? & ? & Hr). exists base, security, t0.
  repeat (split; [done|]). intros t' Ht' Hjs. rewrite <-Heq by done. by apply Hr.
Qed.

Lemma replay_snoc t st js j : replay t st (js ++ [j]) = replay t st js ≫= fun st' =>
  replay_step (store_memory_limit store0) (store_max_key store0) (store_max_value store0) t st' j.
Proof.
  revert st. induction js as [|j' js IH]; intros st; cbn [app replay_list].
  - cbn [mbind option_bind]. destruct (replay_step _ _ _ _ st j); done.
  - destruct (replay_step _ _ _ _ st j') as [st'|]; cbn [mbind option_bind]; [apply IH|done].
Qed.

Lemma covers_append t js j m rs m' rs' w w' :
  journal_ok j → journal_small j → paths_ok storage (w_pid w) →
  covers t js m rs (w_disk w) → journals t j m rs m' rs' →
  append_entry storage j w = (Ret tt, w') → covers t (js ++ [j]) m' rs' (w_disk w').
Proof.
  intros Hj Hsm Hp (base & security & t0 & ? & ? & ? & ? & ? & Hper & Hr) Hstep Hrun. exists base, security, t0.
  repeat (split; [done|]).
  split.
  { destruct Hper as [Hper|(Hnone & Hm & Hrs & Hjh)].
    - left. exact (proj1 (append_persists storage base security t0 js j w w' Hj Hp (Hsm _) Hper Hrun)).
    - right. destruct (append_journal storage js j w w' Hj (Hsm _) Hjh Hrun) as [Hjh' _].
      split; [|done]. pose proof (missing_append storage _ Hckpt j w Hnone) as Hmiss. by rewrite Hrun in Hmiss. }
  intros t' Ht' [Hjs [Hl _]%Forall_cons]%Forall_app. rewrite replay_snoc, Hr by done. exact (Hstep t' Ht' Hl).
Qed.

Lemma covers_checkpoint t store security w w' :
  store_wf store → same_limits store0 store → expiry_ok store → security_wf security → paths_ok storage (w_pid w) →
  mp_cache_storage_checkpoint storage store security t w = (Ret tt, w') →
  covers t [] (store_map store) (records security) (w_disk w').
Proof.
  intros Hst Hl He Hsec Hp Hrun. exists store, security, t. repeat (split; [done|]).
  split; [left; exact (proj1 (checkpoint_persists storage store security t w w' Hst Hp Hrun))|]. by intros t' _ _.
Qed.

(** *** The operations of the service *)

Lemma journals_set t key value exp m rs :
  abs_fits (store_memory_limit store0) (store_max_key store0) (store_max_value store0) m key value →
  journals t (JSet key value exp) m rs (<[key := (value, exp)]> m) rs.
Proof.
  intros (Hk & Hv & Hc) t' _ Hexp. cbn in Hexp. cbn [replay_step]. rewrite decide_True by done.
  assert (<[key := (value, exp)]> (alive t' m) = alive t' (<[key := (value, exp)]> m)) as Hins
    by (by rewrite map_filter_insert_True).
  rewrite decide_True; [by rewrite Hins|]. split; [done|]. split; [done|].
  rewrite (map_cost_expiry _ _ _ 0 exp), Hins. rewrite (map_cost_expiry _ _ _ 0 exp) in Hc.
  etrans; [apply map_cost_filter|done].
Qed.

Lemma journals_delete t key m rs : journals t (JDelete key) m rs (delete key m) rs.
Proof. intros t' _ _. cbn [replay_step]. by rewrite map_filter_delete. Qed.

Lemma journals_purge t m rs : journals t JPurgeAll m rs ∅ rs.
Proof. intros t' _ _. cbn [replay_step]. by rewrite map_filter_empty. Qed.

Lemma journals_client t m r rs :
  zlen rs < MP_CACHE_MAX_CLIENTS ∨ client_id r ∈ (client_id <$> rs) →
  journals t (JClient r) m rs m (upsert_record r rs).
Proof.
  intros Hr t' _ _. cbn [replay_step]. rewrite decide_False; [done|]. intros [? ?]. destruct Hr; [lia|done].
Qed.

(** *** Recovery *)

Lemma covers_load t js m rs t' v :
  covers t js m rs (w_disk (sv_world v)) → 0 ≤ t → t ≤ t' → Forall (unexpired t') js →
  server_ok v → same_limits store0 (sv_store v) → disk_plan (w_disk (sv_world v)) = [] →
  ∃ v', mp_cache_storage_load_state storage t' v = (Ret tt, v') ∧ server_ok v' ∧
    store_map (sv_store v') = alive t' m ∧ records (sv_security v') = rs.
Proof.
  intros (base & security & t0 & Hst & Hl & He & Hsec & Ht0 & Hper & Hr) H0 Ht Hjs Hv Hlv Hplan.
  specialize (Hr t' Ht Hjs). pose proof Hl as (_ & Hm & Hk & Hval). destruct Hper as [Hper|(Hnone & Hmap & Hrs & Hjh)].
  - pose proof (entry_count_bound base Hst) as Hcount. pose proof (wf_limit _ Hst) as Hlim.
    pose proof (wf_used _ Hst) as Hused. pose proof (sum_costs_length (entries base)) as Hsum.
    pose proof (wf_count _ Hst) as Hc.
    assert (entry_count base < 2 ^ 32) as Hc32 by (unfold sizeof_entry in Hsum; lia).
    assert (zlen (enc_state (filter (live t0) (entries base)) (records security) t0) < 2 ^ 32) as H32.
    { pose proof (length_enc_state (filter (live t0) (entries base)) (records security) t0 (sec_records _ Hsec)) as Hlen.
      pose proof (sec_count _ Hsec). pose proof (sec_capacity _ Hsec).
      destruct (sum_costs_filter (live t0) (entries base)) as [[_ Hf] _]. specialize (Hlen ltac:(lia)). lia. }
    pose proof (load_persisted storage base security t0 js t' v Hst Hsec He Hc32 H32 ltac:(lia) ltac:(lia) Hv
      ltac:(by etrans; [symmetry|]) Hplan Hper) as Hload.
    rewrite <-Hm, <-Hk, <-Hval, Hr in Hload. done.
  - unfold mp_cache_storage_load_state. rewrite (bind_ret clear_service _ _ _ _ eq_refl). destruct Hv as [[Hvst Hvsec] Hh].
    destruct (clear_outcome (sv_store v) Hvst) as (Hcst & Hclim & Hcmap). set (v0 := Server _ _ _).
    assert (in_world (mp_cache_storage_read_packet_file storage (st_checkpoint_path storage) MP_CACHE_STORAGE_STATE_MAGIC) v0 =
      (Ret None, v0)) as Hread.
    { unfold in_world, zoom, mp_cache_storage_read_packet_file, attempt, in_disk, zoom, mbind, STE_bind. cbn [v0 sv_world].
      rewrite (fopen_rb_missing _ _ Hplan Hnone). by rewrite set_disk_same. }
    rewrite (bind_ret _ _ _ _ _ Hread), (bind_ret (mret tt) _ v0 tt v0 eq_refl).
    assert (server_ok v0) as Hv0 by (split; [split; [done|by apply clear_clients_wf]|done]).
    pose proof (load_journal_spec storage js t' v0 Hjh Hv0 ltac:(lia) Hplan) as Hload.
    cbn [v0 sv_store sv_security] in Hload. destruct (transitivity Hlv Hclim) as (_ & Hvm & Hvk & Hvv).
    rewrite Hcmap, <-Hvm, <-Hvk, <-Hvv in Hload. rewrite Hmap, map_filter_empty, Hrs in Hr.
    change (records (mp_cache_security_clear_clients (sv_security v))) with (@nil mp_cache_client_record_t) in Hload.
    rewrite Hr in Hload. done.
Qed.
End Durable.
