(* ===== verification/ServiceHandlers.v ===== *)
(** * ServiceHandlers: every handler keeps the invariant and the disk

    One lemma per endpoint of internal/httpserver/http_server.c: the handler
    keeps the service invariant, and unless it answers with an internal error
    the disk still holds what the service holds. *)

From stdpp Require Import base numbers strings option gmap list.
From S2P Require Import Prelude Config Crypto Cache Security Fs CString Log HttpText StorageCodec Storage Persistence HttpServer ServiceAuth ServiceState.
Local Open Scope Z_scope.

(** ** Code that changes neither data nor files *)

Definition quiet {A} (m : HTTP A) : Prop := ∀ s, untouched s (m s).2.

Lemma quiet_preserves {A} (m : HTTP A) : (∀ s0, preserves (untouched s0) m) → quiet m.
Proof. intros Hm s. apply Hm. reflexivity. Qed.

Lemma preserves_quiet {A} (m : HTTP A) s0 : quiet m → preserves (untouched s0) m.
Proof. intros Hm s Hs. etrans; [exact Hs|apply Hm]. Qed.

Lemma quiet_bind {A B} (m : HTTP A) (f : A → HTTP B) : quiet m → (∀ a, quiet (f a)) → quiet (m ≫= f).
Proof.
  intros Hm Hf. apply quiet_preserves. intros s0. apply preserves_bind; [by apply preserves_quiet|].
  intros a. by apply preserves_quiet.
Qed.

Lemma quiet_pure {A} (o : outcome A) : quiet (lift o).
Proof. intros s. reflexivity. Qed.
Lemma quiet_ret {A} (a : A) : quiet (mret a : HTTP A).
Proof. intros s. reflexivity. Qed.

Lemma quiet_returns {A} (m : HTTP A) Q : returns untouched m Q → quiet m.
Proof. intros Hm s. by destruct (Hm s) as (a & s' & -> & Hs & _). Qed.

Lemma quiet_heap {A} (m : STE heap A) : quiet (in_service (in_world (in_heap m))).
Proof. intros s. unfold in_service, in_world, in_heap, zoom. by destruct (m _). Qed.

Lemma quiet_attempt {A} (m : HTTP A) : quiet m → quiet (attempt m).
Proof. intros Hm. apply quiet_preserves. intros s0. by apply preserves_attempt, preserves_quiet. Qed.

Lemma quiet_on_heap {A} (m : ST heap A) : quiet (on_heap m).
Proof. apply quiet_heap. Qed.
Lemma quiet_get : quiet get_server.
Proof. intros s. reflexivity. Qed.
Lemma quiet_metric k n : quiet (add_metric k n).
Proof. eapply quiet_returns, add_metric_returns. Qed.
Lemma quiet_printf rendered : quiet (mp_cache_http_strdup_printf rendered).
Proof. eapply quiet_returns, printf_returns. Qed.
Lemma quiet_error status text code message allow extra : quiet (mp_cache_http_make_error status text code message allow extra).
Proof. eapply quiet_returns, make_error_returns. Qed.

(** Decides quietness by the shape of the code. *)
Ltac hush := unfold internal_error, not_found, bad_request, method_not_allowed, error, ok_response, ok_with, count in *;
  repeat lazymatch goal with
  | |- quiet (_ ≫= _) => apply quiet_bind; [|intros ?]
  | |- quiet (lift _) => apply quiet_pure
  | |- quiet (mret _) => apply quiet_ret
  | |- quiet (attempt _) => apply quiet_attempt
  | |- quiet (in_service (in_world (in_heap _))) => apply quiet_heap
  | |- quiet (on_heap _) => apply quiet_on_heap
  | |- quiet get_server => apply quiet_get
  | |- quiet (add_metric _ _) => apply quiet_metric
  | |- quiet (mp_cache_http_strdup_printf _) => apply quiet_printf
  | |- quiet (mp_cache_http_make_error _ _ _ _ _ _) => apply quiet_error
  | |- quiet (if ?x then _ else _) => destruct x
  | |- quiet (match ?x with _ => _ end) => destruct x
  end.

Lemma quiet_logs logs request : quiet (mp_cache_http_handle_logs logs request).
Proof. unfold mp_cache_http_handle_logs. hush. Qed.
Lemma quiet_root request : quiet (mp_cache_http_handle_root request).
Proof. unfold mp_cache_http_handle_root. hush. Qed.
Lemma quiet_uptime now : quiet (mp_cache_http_handle_uptime now).
Proof. unfold mp_cache_http_handle_uptime. hush. Qed.
Lemma quiet_decode value : quiet (decode_value value).
Proof. unfold decode_value. hush. Qed.
Lemma quiet_health now : quiet (ok_with (mp_cache_http_build_health_body now)).
Proof. unfold mp_cache_http_build_health_body. hush. Qed.
Lemma quiet_stats now : quiet (ok_with (mp_cache_http_build_stats_body now)).
Proof. unfold mp_cache_http_build_stats_body. hush. Qed.
Lemma quiet_memory : quiet (ok_with mp_cache_http_build_memory_body).
Proof. unfold mp_cache_http_build_memory_body. hush. Qed.

(** ** Endpoints *)

Section Endpoints.
Context {EC : EnvelopeCrypto} (config : mp_cache_config_t) (storage : mp_cache_storage_t)
  (store0 : mp_cache_store_t) (security0 : mp_cache_security_t) (t pid : Z).
Context (Htime : 0 ≤ t < 2 ^ 62) (Httl : 0 ≤ num config min_ttl_seconds ∧ num config max_ttl_seconds < 2 ^ 32).
Context (Hpaths : paths_ok storage pid) (Hmemory : store_memory_limit store0 ≤ 2 ^ 31).
Context (Hckpt : ¬ st_checkpoint_path storage `prefix_of` st_journal_path storage).

Local Abbreviation inv := (service_inv config storage store0 security0 t pid).
Local Abbreviation map_of s := (store_map (sv_store (service s))).
Local Abbreviation records_of s := (records (sv_security (service s))).
Local Abbreviation disk_of s := (w_disk (sv_world (service s))).

(** The disk holds what the service holds. *)
Definition durable (s : mp_cache_http_server_t) : Prop :=
  ∃ js, covers storage store0 t js (map_of s) (records_of s) (disk_of s).

Lemma untouched_durable s s' : untouched s s' → durable s → durable s'.
Proof. intros [_ _ _ _ H1 H2 H3 _ _] [js Hc]. exists js. by rewrite H1, H2, H3. Qed.

(** [m] run at [s] keeps the invariant, and the disk holds the state afterwards
    if the answer is no internal error and [D] holds. *)
Definition keeps_at (D : Prop) (m : HTTP mp_cache_http_response_t) (s : mp_cache_http_server_t) : Prop :=
  inv (m s).2 ∧ ∀ r, (m s).1 = Ret r → status_code r ≠ 500 → D → durable (m s).2.
Definition endpoint_ok (m : HTTP mp_cache_http_response_t) : Prop := ∀ s, inv s → keeps_at (durable s) m s.

Lemma quiet_keeps D m s : quiet m → inv s → (D → durable s) → keeps_at D m s.
Proof.
  intros Hm Hs Hd. split; [by eapply untouched_inv; [apply Hm|]|]. intros r _ _ HD.
  eapply untouched_durable; [apply Hm|auto].
Qed.

Lemma endpoint_quiet m : quiet m → endpoint_ok m.
Proof. intros Hm s Hs. by apply quiet_keeps. Qed.

Lemma endpoint_bind {A} (m : HTTP A) f : quiet m → (∀ a, endpoint_ok (f a)) → endpoint_ok (m ≫= f).
Proof.
  intros Hm Hf s Hs. specialize (Hm s). unfold keeps_at, mbind, STE_bind.
  destruct (m s) as [[a|e|] s1]; cbn in Hm; pose proof (untouched_inv _ _ _ _ _ _ _ _ Hm Hs) as Hs1;
    [|by split..]. destruct (Hf a s1 Hs1) as [H1 H2]. split; [done|]. intros r Hr Hc Hd.
  eapply H2; [done..|]. by eapply untouched_durable.
Qed.

Lemma endpoint_get f : (∀ s, hs_config s = config → endpoint_ok (f s)) → endpoint_ok (s ← get_server; f s).
Proof.
  intros Hf s Hs. unfold keeps_at. rewrite (bind_ret get_server _ s s s eq_refl). apply Hf; [apply Hs|done].
Qed.

Lemma internal_error_status message s r : (internal_error message s).1 = Ret r → status_code r = 500.
Proof.
  destruct (make_error_returns 500 (cstr "Internal Server Error") (Some (cstr "internal_error")) (Some (cstr message))
    None None s) as (r' & s' & Hr & _ & Hc). unfold internal_error, error. rewrite Hr. by intros [= <-].
Qed.

Lemma internal_error_keeps D message s : inv s → keeps_at D (internal_error message) s.
Proof.
  intros Hs. assert (quiet (internal_error message)) as Hq by hush.
  split; [eapply untouched_inv; [apply Hq|exact Hs]|].
  intros r Hr%internal_error_status Hc. done.
Qed.

Lemma inv_world {A} (m : STE world A) : preserves (clock t pid) m → preserves inv (in_service (in_world m)).
Proof.
  intros Hm s [? ? Hc ?]. specialize (Hm _ Hc). unfold in_service, in_world, zoom.
  destruct (m (sv_world (service s))) as [o w]. by split.
Qed.

(** *** Persisting a change *)

Lemma checkpoint_keeps s b s' : inv s →
  mp_cache_http_resilient_checkpoint t s = (Ret b, s') →
  inv s' ∧ map_of s' = map_of s ∧ records_of s' = records_of s ∧ (b = true → durable s').
Proof.
  intros Hs Hrun. pose proof Hs as [Hcfg Hsto [Htm Hpid] [Hst Hlim Hexp Hsec _ _]].
  unfold mp_cache_http_resilient_checkpoint in Hrun. rewrite (bind_ret get_server _ s s s eq_refl), Hsto in Hrun.
  unfold succeeds, in_service, checkpoint_service, in_world, zoom in Hrun.
  pose proof (clock_checkpoint t pid storage (sv_store (service s)) (sv_security (service s)) t
    (sv_world (service s)) (conj Htm Hpid)) as Hclk.
  destruct (mp_cache_storage_checkpoint storage (sv_store (service s)) (sv_security (service s)) t (sv_world (service s)))
    as [o w] eqn:Hck. cbn in Hclk.
  assert (s' = set_service s (set_world (service s) w) ∧ (b = true → o = Ret tt)) as [-> Hb]
    by (destruct o as [[]|e|]; [by injection Hrun as <- <-|by injection Hrun as <- <-|discriminate Hrun]).
  split; [apply inv_set_service; [done|done|by destruct Hs]|]. split; [done|]. split; [done|].
  intros Htrue. rewrite (Hb Htrue) in Hck. exists []. cbn.
  eapply covers_checkpoint; try done. by rewrite Hpid.
Qed.

Lemma persist_keeps j s b s' : inv s → journal_ok j → journal_small j →
  persist (fun storage => append_entry storage j) t s = (Ret b, s') →
  inv s' ∧ map_of s' = map_of s ∧ records_of s' = records_of s ∧
  (b = true →
   (∃ js m rs, covers storage store0 t js m rs (disk_of s) ∧ journals store0 t j m rs (map_of s) (records_of s)) →
   durable s').
Proof.
  intros Hs Hj Hsm Hrun. pose proof Hs as [_ Hsto [Htm Hpid] Hdata].
  unfold persist in Hrun. rewrite (bind_ret get_server _ s s s eq_refl), Hsto in Hrun.
  unfold mbind, STE_bind, succeeds, in_service, in_world, zoom in Hrun.
  pose proof (clock_append t pid storage j (sv_world (service s)) (conj Htm Hpid)) as Hclk.
  destruct (append_entry storage j (sv_world (service s))) as [o w] eqn:Happ. cbn in Hclk.
  assert (inv (set_service s (set_world (service s) w))) as Hs1 by (by apply inv_set_service).
  destruct o as [[]|e|]; [| |done].
  - injection Hrun as <- <-. split; [done|]. split; [done|]. split; [done|].
    intros _ (js & m & rs & Hc & Hstep). exists (js ++ [j]). cbn.
    eapply covers_append; try done. by rewrite Hpid.
  - destruct (checkpoint_keeps _ _ _ Hs1 Hrun) as (? & ? & ? & ?). repeat (split; [done|]). auto.
Qed.

(** Persisting never fails with an error code. *)
Lemma persist_returns append s : ∀ e s', persist append t s ≠ (Fail e, s').
Proof.
  intros e s'. unfold persist, mp_cache_http_resilient_checkpoint. unfold mbind, STE_bind, succeeds, get_server.
  destruct (in_service (in_world (append (hs_storage s))) s) as [[]]; [done| |done].
  by destruct (in_service (checkpoint_service _ t) _) as [[]].
Qed.

Lemma checkpoint_inv : preserves inv (mp_cache_http_resilient_checkpoint t).
Proof.
  intros s1 Hs1. unfold mp_cache_http_resilient_checkpoint. rewrite (bind_ret get_server _ s1 s1 s1 eq_refl).
  apply preserves_succeeds; [|done]. intros s2 Hs2.
  apply (inv_world (mp_cache_storage_checkpoint (hs_storage s1) (sv_store (service s2)) (sv_security (service s2)) t));
    [apply clock_checkpoint|done].
Qed.

Lemma persist_inv j : preserves inv (persist (fun storage => append_entry storage j) t).
Proof.
  intros s Hs. unfold persist. rewrite (bind_ret get_server _ s s s eq_refl).
  revert s Hs. intros s Hs. generalize (hs_storage s). intros st. revert s Hs.
  change (preserves inv (appended ← succeeds (in_service (in_world (append_entry st j)));
    if (appended : bool) then mret true else mp_cache_http_resilient_checkpoint t)).
  apply preserves_bind; [apply preserves_succeeds, inv_world, clock_append|]. intros []; [apply preserves_ret|apply checkpoint_inv].
Qed.

(** The end of the writing handlers. *)
Lemma finish_persist D j message rest s : inv s → journal_ok j → journal_small j → quiet rest →
  (D → ∃ js m rs, covers storage store0 t js m rs (disk_of s) ∧ journals store0 t j m rs (map_of s) (records_of s)) →
  keeps_at D (saved ← persist (fun storage => append_entry storage j) t;
              if negb saved then internal_error message else rest) s.
Proof.
  intros Hs Hj Hsm Hrest HD. pose proof (persist_inv j s Hs) as Hinv. unfold keeps_at, mbind, STE_bind.
  destruct (persist _ t s) as [[b|e|] s1] eqn:Hp; cbn in Hinv; [|by split..].
  destruct (persist_keeps j s b s1 Hs Hj Hsm Hp) as (Hs1 & _ & _ & Hdur).
  destruct b; [|by apply internal_error_keeps]. apply quiet_keeps; [done|done|]. auto.
Qed.

(** *** The cache endpoints *)

(** The entries the abstract cache drops are the dead ones. *)
Lemma get_alive memory max_key max_value oom m key status found m' t' :
  abs_step memory max_key max_value oom m (OpGet key t) (RValue status found) m' → t ≤ t' →
  filter (fun kv : bytes * (bytes * Z) => t' < kv.2.2) m = filter (fun kv => t' < kv.2.2) m'.
Proof.
  inversion 1 as [| | |? ? value exp Hk Hexp| | | | | | | |]; subst; try done. intros Ht.
  rewrite map_filter_delete, delete_id; [done|]. apply map_lookup_filter_None. right.
  intros y Hy Hlive. cbn in Hlive. rewrite Hk in Hy. injection Hy as <-. cbn in Hlive. lia.
Qed.

Lemma cache_get_ok key : endpoint_ok (mp_cache_http_handle_cache_get key t).
Proof.
  intros s Hs. unfold keeps_at, mp_cache_http_handle_cache_get.
  destruct (svc_get_spec _ _ _ _ _ _ key t s Hs) as (status & found & store & h & Hrun & Hd & Hstep).
  rewrite (bind_ret _ _ _ _ _ Hrun). cbv beta iota.
  apply (quiet_keeps (durable s)); [hush|apply inv_set_service; [done|by destruct Hs|done]|].
  intros [js Hc]. exists js. cbn. eapply covers_alive; [|exact Hc]. intros t' Ht'. by eapply get_alive.
Qed.

(** A write of the abstract cache stores the binding or changes nothing. *)
Lemma abs_set_inv memory max_key max_value oom m key value ttl now status m' :
  abs_step memory max_key max_value oom m (OpSet key value ttl now) (RStatus status) m' →
  status = MP_CACHE_STORE_STATUS_OK ∧ abs_fits memory max_key max_value m key value ∧
    m' = <[key := (value, now + ttl)]> m ∨
  status ≠ MP_CACHE_STORE_STATUS_OK ∧ m' = m.
Proof.
  intros Hs. inversion Hs as [|? ? ? ? ? ? _ Hw| | | | | | | | | |]; subst; [by right|].
  destruct Hw; [by left|by right|by right].
Qed.

(** A binding that is in a store, or fits it, is small. *)
Lemma binding_small m key value exp : map_cost (<[key := (value, exp)]> m) ≤ store_memory_limit store0 →
  zlen key + zlen value < 2 ^ 31.
Proof.
  intros Hc. rewrite <-insert_delete_eq, map_cost_insert in Hc by apply lookup_delete_eq.
  pose proof (map_cost_nonneg (delete key m)). unfold binding_cost, sizeof_entry in Hc. cbn in Hc. lia.
Qed.

Lemma journal_set_small key value exp : zlen key + zlen value < 2 ^ 31 → journal_small (JSet key value exp).
Proof.
  intros Hs stamp. unfold enc_journal, enc_entry. cbn [entry_key entry_value expires_at_utc_seconds]. len_simpl. lia.
Qed.

Lemma stored_key_small s key : inv s → is_Some (map_of s !! key) → journal_ok (JDelete key) ∧ journal_small (JDelete key).
Proof.
  intros [_ _ _ [Hst (_ & Hlim & _) _ _ _ _]] [[value exp] Hk].
  assert (zlen key + zlen value < 2 ^ 31).
  { apply (binding_small (map_of s) _ _ exp). rewrite (insert_id _ _ _ Hk), <-(bytes_used_map _ Hst), Hlim. apply Hst. }
  pose proof (zlen_nonneg value). split; [cbn; lia|]. intros stamp. unfold enc_journal. len_simpl. lia.
Qed.

Lemma cache_put_ok key request : endpoint_ok (mp_cache_http_handle_cache_put key request t).
Proof.
  unfold mp_cache_http_handle_cache_put. apply endpoint_get. intros s0 Hcfg.
  match goal with |- endpoint_ok (match ?x with _ => _ end) => destruct x as [value_base64|e|] end;
    [|apply endpoint_quiet; hush..].
  match goal with |- endpoint_ok (match ?x with _ => _ end) => destruct x as [ttl|e|] end;
    [|apply endpoint_quiet; hush..].
  rewrite Hcfg. destruct (decide (_ ∨ _)) as [|Hr]; [apply endpoint_quiet; hush|].
  apply endpoint_bind; [apply quiet_decode|]. intros [value|e|]; [|apply endpoint_quiet; hush..].
  intros s Hs. unfold keeps_at.
  destruct (svc_set_spec _ _ _ _ _ _ key value ttl t s Hs ltac:(lia)) as (status & store & h & Hrun & Hd & Hstep).
  rewrite (bind_ret _ _ _ _ _ Hrun). set (s1 := set_service s _).
  assert (inv s1) as Hs1 by (apply inv_set_service; [done|by destruct Hs|done]).
  apply abs_set_inv in Hstep as [(-> & Hfit & Hm)|[Hne Hm]].
  - rewrite !decide_False by done. pose proof Hd as [_ (_ & El & Ek & Ev) _ _ _ _]. rewrite <-El, <-Ek, <-Ev in Hfit.
    destruct Hfit as (Hk & Hv & Hcost). pose proof (binding_small _ _ _ _ Hcost) as Hsmall.
    pose proof (zlen_nonneg key). pose proof (zlen_nonneg value).
    apply (finish_persist (durable s) (JSet key value (t + ttl))); [done|cbn; lia|by apply journal_set_small|hush|].
    intros [js Hc]. exists js, (map_of s), (records_of s). split; [exact Hc|]. cbn. rewrite Hm. by apply journals_set.
  - apply (quiet_keeps (durable s)); [|done|].
    + destruct (decide (status = _)); [hush|]. rewrite decide_True by done. hush.
    + intros [js Hc]. exists js. cbn. by rewrite Hm.
Qed.

Lemma cache_delete_ok key : endpoint_ok (mp_cache_http_handle_cache_delete key t).
Proof.
  intros s Hs. unfold keeps_at, mp_cache_http_handle_cache_delete.
  destruct (svc_delete_spec _ _ _ _ _ _ key s Hs) as (status & store & Hrun & Hd & Hm & Hcase).
  rewrite (bind_ret _ _ _ _ _ Hrun). set (s1 := set_service s _).
  assert (inv s1) as Hs1 by (apply inv_set_service; [done|by destruct Hs|done]).
  destruct Hcase as [[-> Hk]|[-> Hk]].
  - rewrite !decide_False by done. destruct (stored_key_small s key Hs Hk) as [Hj Hsm].
    apply (finish_persist (durable s) (JDelete key)); [done|done|done|hush|].
    intros [js Hc]. exists js, (map_of s), (records_of s). split; [exact Hc|]. cbn. rewrite Hm. apply journals_delete.
  - rewrite decide_True by done. apply (quiet_keeps (durable s)); [hush|done|].
    intros [js Hc]. exists js. cbn. rewrite Hm, delete_id by done. exact Hc.
Qed.

Lemma purge_all_ok : endpoint_ok (mp_cache_http_handle_purge_all t).
Proof.
  intros s Hs. unfold keeps_at, mp_cache_http_handle_purge_all.
  destruct (svc_clear_spec _ _ _ _ _ _ s Hs) as (store & Hrun & Hd & Hm).
  rewrite (bind_ret _ _ _ _ _ Hrun). set (s1 := set_service s _).
  assert (inv s1) as Hs1 by (apply inv_set_service; [done|by destruct Hs|done]).
  apply (finish_persist (durable s) JPurgeAll); [done|done| |hush|].
  - intros stamp. unfold enc_journal. len_simpl. lia.
  - intros [js Hc]. exists js, (map_of s), (records_of s). split; [exact Hc|]. cbn. rewrite Hm. apply journals_purge.
Qed.

(** *** The client endpoints *)

Lemma journal_client_small r : record_ok r → journal_small (JClient r).
Proof.
  intros [Hid _ [Hl _] _] stamp. apply valid_id_length in Hid. unfold enc_journal, enc_client, zlen.
  rewrite !length_app, !length_be_bytes, Hl. unfold MP_CACHE_TOKEN_HASH_SIZE. lia.
Qed.

Lemma finish_client D id message rest s : inv s → quiet rest →
  (D → ∃ js m rs, covers storage store0 t js m rs (disk_of s) ∧
    ∀ r, mp_cache_security_find_client (sv_security (service s)) (Some id) = Some r →
      journals store0 t (JClient r) m rs (map_of s) (records_of s)) →
  keeps_at D (saved ← persist_client id t; if negb saved then internal_error message else rest) s.
Proof.
  intros Hs Hrest HD.
  destruct (mp_cache_security_find_client (sv_security (service s)) (Some id)) as [r|] eqn:Hf.
  - assert (record_ok r) as Hr.
    { unfold mp_cache_security_find_client in Hf.
      destruct (mp_cache_security_find_record (sv_security (service s)) (Some id)) as [[i r']|] eqn:Hfr; [|done].
      injection Hf as <-. pose proof Hs as [_ _ _ [_ _ _ Hsec _ _]].
      by destruct (find_record_ok _ Hsec _ _ _ Hfr). }
    assert (persist_client id t s = persist (fun storage => append_entry storage (JClient r)) t s) as Hpc.
    { unfold persist_client. rewrite (bind_ret get_server _ s s s eq_refl), Hf. done. }
    unfold keeps_at, mbind, STE_bind. rewrite Hpc.
    apply (finish_persist D (JClient r)); [done|exact Hr|by apply journal_client_small|done|].
    intros Hd. destruct (HD Hd) as (js & m & rs & Hc & Hstep). exists js, m, rs. auto.
  - assert (persist_client id t s = (Ret false, s)) as Hpc.
    { unfold persist_client. by rewrite (bind_ret get_server _ s s s eq_refl), Hf. }
    unfold keeps_at. rewrite (bind_ret _ _ _ _ _ Hpc). by apply internal_error_keeps.
Qed.

(** A registry operation that succeeded, then persisted. *)
Lemma finish_registry s w security' id message rest :
  inv s → clock t pid w → w_disk w = disk_of s → quiet rest →
  registry_step (sv_security (service s)) security' MP_CACHE_SECURITY_STATUS_OK id →
  keeps_at (durable s) (saved ← persist_client id t; if negb saved then internal_error message else rest)
    (set_service s (Server w (sv_store (service s)) security')).
Proof.
  intros Hs Hw Hdisk Hrest (Hwf & Hb1 & Hb2 & _ & Hok).
  assert (inv (set_service s (Server w (sv_store (service s)) security'))) as Hs1.
  { apply inv_set_service; [done|done|]. pose proof Hs as [_ _ _ Hd]. by eapply data_security. }
  apply finish_client; [done|done|]. intros [js Hc].
  destruct (Hok eq_refl) as (r & Hid & Hf & Hrec & Hcap). exists js, (map_of s), (records_of s).
  cbn [set_service service sv_store sv_security sv_world]. split; [by rewrite Hdisk|]. intros r' Hf'. rewrite Hf in Hf'. injection Hf' as <-. rewrite Hrec.
  apply journals_client. by rewrite Hid.
Qed.

(** A registry operation that failed. *)
Lemma failed_registry s w security' status id m :
  inv s → clock t pid w → w_disk w = disk_of s → quiet m → status ≠ MP_CACHE_SECURITY_STATUS_OK →
  registry_step (sv_security (service s)) security' status id →
  keeps_at (durable s) m (set_service s (Server w (sv_store (service s)) security')).
Proof.
  intros Hs Hw Hdisk Hm Hne (Hwf & Hb1 & Hb2 & Hrec & _). apply quiet_keeps; [done| |].
  - apply inv_set_service; [done|done|]. pose proof Hs as [_ _ _ Hd]. by eapply data_security.
  - intros [js Hc]. exists js. cbn. by rewrite Hdisk, Hrec.
Qed.

Lemma invalidate_ok id : endpoint_ok (mp_cache_http_handle_invalidate_client id t).
Proof.
  intros s Hs. unfold keeps_at, mp_cache_http_handle_invalidate_client.
  pose proof Hs as [_ _ Hclk [_ _ _ Hsec _ _]].
  pose proof (invalidate_step (sv_security (service s)) Hsec id) as Hstep.
  destruct (mp_cache_security_invalidate_client_token (sv_security (service s)) (Some id)) as [status security'] eqn:Hop.
  rewrite (bind_ret (svc_invalidate id) _ s status (set_service s (Server (sv_world (service s)) (sv_store (service s)) security')))
    by (unfold svc_invalidate, in_service, zoom; by rewrite Hop).
  destruct (decide (status = MP_CACHE_SECURITY_STATUS_NOT_FOUND)) as [->|H1];
    [by apply (failed_registry s _ _ MP_CACHE_SECURITY_STATUS_NOT_FOUND id); [| | |hush| |]|].
  destruct (decide (status ≠ MP_CACHE_SECURITY_STATUS_OK)) as [H2|H2%dec_stable];
    [by apply (failed_registry s _ _ status id); [| | |hush| |]|].
  subst status. by apply (finish_registry s); [| | |hush|].
Qed.

Lemma rotate_ok id : endpoint_ok (mp_cache_http_handle_rotate_client id t).
Proof.
  intros s Hs. unfold keeps_at, mp_cache_http_handle_rotate_client.
  pose proof Hs as [_ _ Hclk [_ _ _ Hsec _ _]]. set (w := sv_world (service s)) in *.
  pose proof (rotate_step (sv_security (service s)) Hsec id MP_CACHE_TOKEN_TEXT_CAP (w_entropy w)) as Hstep.
  destruct (mp_cache_security_rotate_client_token (sv_security (service s)) (Some id) MP_CACHE_TOKEN_TEXT_CAP (w_entropy w))
    as [[[status token] security'] e] eqn:Hop.
  rewrite (bind_ret (svc_rotate id) _ s (status, token) (set_service s (Server (set_entropy w e) (sv_store (service s)) security')))
    by (unfold svc_rotate, in_service, zoom; fold w; by rewrite Hop).
  cbv beta iota. destruct (decide (status = MP_CACHE_SECURITY_STATUS_NOT_FOUND)) as [->|H1];
    [by apply (failed_registry s _ _ MP_CACHE_SECURITY_STATUS_NOT_FOUND id); [| | |hush| |]|].
  destruct (decide (status ≠ MP_CACHE_SECURITY_STATUS_OK)) as [H2|H2%dec_stable];
    [by apply (failed_registry s _ _ status id); [| | |hush| |]|].
  subst status. by apply (finish_registry s); [| | |hush|].
Qed.

Lemma role_from_string_range text : role_range (mp_cache_role_from_string (Some text)).
Proof. unfold mp_cache_role_from_string. repeat (destruct (decide _); [done|]). done. Qed.

Lemma register_ok request : endpoint_ok (mp_cache_http_handle_register_client request t).
Proof.
  unfold mp_cache_http_handle_register_client.
  destruct (mp_cache_http_extract_json_string (request_body request) (cstr "client_id") _) as [id|e|];
    [|apply endpoint_quiet; hush..].
  destruct (mp_cache_http_extract_json_string (request_body request) (cstr "role") _) as [role_text|e|];
    [|apply endpoint_quiet; hush..].
  destruct (decide _); [apply endpoint_quiet; hush|]. set (new_role := mp_cache_role_from_string (Some role_text)).
  intros s Hs. unfold keeps_at. pose proof Hs as [_ _ Hclk [_ _ _ Hsec _ _]]. set (w := sv_world (service s)) in *.
  pose proof (register_step (sv_security (service s)) Hsec id new_role MP_CACHE_TOKEN_TEXT_CAP (w_heap w, w_entropy w)
    (role_from_string_range role_text)) as Hstep.
  destruct (mp_cache_security_register_client (sv_security (service s)) (Some id) new_role MP_CACHE_TOKEN_TEXT_CAP
    (w_heap w, w_entropy w)) as [[[status token] security'] [h e]] eqn:Hop.
  rewrite (bind_ret (svc_register id new_role) _ s (status, token)
    (set_service s (Server (set_entropy (set_heap w h) e) (sv_store (service s)) security')))
    by (unfold svc_register, in_service, zoom; fold w; by rewrite Hop).
  cbv beta iota. destruct (decide (status = MP_CACHE_SECURITY_STATUS_CONFLICT)) as [->|H1];
    [by apply (failed_registry s _ _ MP_CACHE_SECURITY_STATUS_CONFLICT id); [| | |hush| |]|].
  destruct (decide (status ≠ MP_CACHE_SECURITY_STATUS_OK)) as [H2|H2%dec_stable];
    [by apply (failed_registry s _ _ status id); [| | |hush| |]|].
  subst status. by apply (finish_registry s); [| | |hush|].
Qed.

(** *** Purging selected keys *)

(** While no append has failed, the disk keeps up. *)
Lemma purge_keys_keeps keys purged missing needs s : inv s →
  inv (purge_keys keys purged missing needs s).2 ∧
  ∀ purged' missing' needs', (purge_keys keys purged missing needs s).1 = Ret (Some (purged', missing', needs')) →
    needs' = false → needs = false ∧ (durable s → durable (purge_keys keys purged missing needs s).2).
Proof.
  revert purged missing needs s. induction keys as [|key keys IH]; intros purged missing needs s Hs.
  { split; [done|]. intros ? ? ? [= <- <- <-]. done. }
  cbn [purge_keys]. destruct (svc_delete_spec _ _ _ _ _ _ key s Hs) as (status & store & Hrun & Hd & Hm & Hcase).
  rewrite (bind_ret _ _ _ _ _ Hrun). set (s1 := set_service s _).
  assert (inv s1) as Hs1 by (apply inv_set_service; [done|by destruct Hs|done]).
  destruct Hcase as [[-> Hk]|[-> Hk]].
  - rewrite !decide_False by (done || tauto). rewrite (bind_ret get_server _ s1 s1 s1 eq_refl).
    destruct needs.
    + rewrite (bind_ret (mret true) _ s1 true s1 eq_refl). destruct (IH (u64 (purged + 1)) missing true s1 Hs1) as [H1 H2].
      split; [done|]. intros ? ? ? Hr Hn. by destruct (H2 _ _ _ Hr Hn).
    + destruct (stored_key_small s key Hs Hk) as [Hj Hsm].
      pose proof Hs1 as [_ Hsto [Htm Hpid] _]. rewrite Hsto.
      assert (paths_ok storage (w_pid (sv_world (service s1)))) as Hp1 by (by rewrite Hpid).
      pose proof (clock_append t pid storage (JDelete key) (sv_world (service s1)) (conj Htm Hpid)) as Hclk.
      destruct (append_entry storage (JDelete key) (sv_world (service s1))) as [o w] eqn:Happ. cbn in Hclk.
      set (s2 := set_service s1 (set_world (service s1) w)).
      assert (inv s2) as Hs2 by (apply inv_set_service; [done|done|by destruct Hs1]).
      assert (succeeds (in_service (in_world (mp_cache_storage_append_delete storage key))) s1 =
        (match o with Ret _ => Ret true | Fail _ => Ret false | Stuck => Stuck end, s2)) as Hsucc.
      { unfold succeeds, in_service, in_world, zoom, mp_cache_storage_append_delete. rewrite Happ. by destruct o. }
      destruct o as [[]|e|]; [rewrite (bind_ret _ _ _ _ _ Hsucc); cbn [negb orb]..|].
      * destruct (IH (u64 (purged + 1)) missing false s2 Hs2) as [H1 H2]. split; [done|]. intros ? ? ? Hr Hn.
        destruct (H2 _ _ _ Hr Hn) as [_ H3]. split; [done|]. intros [js Hc]. apply H3. exists (js ++ [JDelete key]). cbn.
        eapply covers_append; [exact Hckpt|done|done|exact Hp1|exact Hc| |exact Happ]. rewrite Hm. apply journals_delete.
      * destruct (IH (u64 (purged + 1)) missing true s2 Hs2) as [H1 H2]. split; [done|]. intros ? ? ? Hr Hn.
        by destruct (H2 _ _ _ Hr Hn).
      * rewrite (bind_stuck _ _ _ _ Hsucc). by split.
  - rewrite decide_True by done. destruct (IH purged (u64 (missing + 1)) needs s1 Hs1) as [H1 H2]. split; [done|].
    intros ? ? ? Hr Hn. destruct (H2 _ _ _ Hr Hn) as [? H3]. split; [done|]. intros [js Hc]. apply H3. exists js. cbn.
    by rewrite Hm, delete_id.
Qed.

Lemma purge_selected_ok request : endpoint_ok (mp_cache_http_handle_purge_selected request t).
Proof.
  unfold mp_cache_http_handle_purge_selected. apply endpoint_get. intros s0 _.
  apply endpoint_bind; [hush|]. intros [[|key keys]|e|]; [apply endpoint_quiet; hush| |apply endpoint_quiet; hush..].
  destruct (decide _); [apply endpoint_quiet; hush|]. intros s Hs. unfold keeps_at.
  destruct (purge_keys_keeps (key :: keys) 0 0 false s Hs) as [H1 H2].
  destruct (purge_keys (key :: keys) 0 0 false s) as [[[[[purged missing] needs]|]|e|] s1] eqn:Hrun; cbn [fst snd] in H1, H2.
  - rewrite (bind_ret _ _ _ _ _ Hrun). destruct needs.
    + assert (inv (mp_cache_http_resilient_checkpoint t s1).2) as Hck by (by apply checkpoint_inv).
      destruct (mp_cache_http_resilient_checkpoint t s1) as [[b|e|] s2] eqn:Hrun2.
      * rewrite (bind_ret _ _ _ _ _ Hrun2). destruct (checkpoint_keeps _ _ _ H1 Hrun2) as (Hs2 & _ & _ & Hd2).
        destruct b; [|by apply internal_error_keeps]. apply (quiet_keeps (durable s)); [hush|done|auto].
      * rewrite (bind_fail _ _ _ _ _ Hrun2). by split.
      * rewrite (bind_stuck _ _ _ _ Hrun2). by split.
    + rewrite (bind_ret (mret true) _ s1 true s1 eq_refl). destruct (H2 _ _ _ eq_refl eq_refl) as [_ Hd].
      apply (quiet_keeps (durable s)); [hush|done|done].
  - rewrite (bind_ret _ _ _ _ _ Hrun). by apply internal_error_keeps.
  - rewrite (bind_fail _ _ _ _ _ Hrun). by split.
  - rewrite (bind_stuck _ _ _ _ Hrun). by split.
Qed.

(** *** Export and import *)

Definition keeps_inv (m : HTTP mp_cache_http_response_t) : Prop := ∀ s, inv s → files_wf (disk_of s) → inv (m s).2.

Lemma endpoint_inv m : endpoint_ok m → keeps_inv m.
Proof. intros Hm s Hs _. by apply Hm. Qed.

Lemma keeps_inv_bind {A} (m : HTTP A) f : quiet m → (∀ a, keeps_inv (f a)) → keeps_inv (m ≫= f).
Proof.
  intros Hm Hf s Hs Hfiles. specialize (Hm s). unfold mbind, STE_bind.
  destruct (m s) as [[a|e|] s1]; cbn in Hm; pose proof (untouched_inv _ _ _ _ _ _ _ _ Hm Hs) as Hs1; [|done..].
  apply Hf; [done|]. by rewrite (same_files _ _ Hm).
Qed.

Lemma quiet_inv {A} (m : HTTP A) : quiet m → preserves inv m.
Proof. intros Hm s Hs. eapply untouched_inv; [apply Hm|done]. Qed.

Lemma export_keeps : keeps_inv (mp_cache_http_handle_export t).
Proof.
  intros s Hs _. unfold mp_cache_http_handle_export. rewrite (bind_ret get_server _ s s s eq_refl). revert s Hs.
  intros s Hs. generalize (hs_storage s) (sv_store (service s)) (sv_security (service s)). intros st store security. revert s Hs.
  match goal with |- ∀ s, inv s → inv (?m s).2 => change (preserves inv m) end.
  apply preserves_bind; [apply preserves_attempt, inv_world, clock_export|].
  intros a. apply quiet_inv. hush.
Qed.

(** What an import rebuilds. *)
Definition image_inv (l : image) : Prop := data_inv store0 security0 (img_store l) (img_security l).

Lemma i64_range z : - 2 ^ 63 ≤ i64 z < 2 ^ 63.
Proof. unfold i64. pose proof (u64_range z). destruct (decide _); lia. Qed.

Lemma restore_image_inv now key value exp : keeps image_inv (restore_if_live now key value exp) (fun _ => True).
Proof.
  unfold restore_if_live. destruct (decide _); [|auto with mpc]. apply (keeps_bind _ _ _ (fun _ => True)).
  - intros img Hl. unfold img_restore.
    destruct (run_op_outcome (img_store img) (OpRestore key value (i64 exp)) (img_heap img) (inv_store _ _ _ _ Hl))
      as (r & s' & h' & Hrun & Hst' & Hlim & Hstep). unfold run_op, mbind, ST_bind in Hrun.
    destruct (mp_cache_store_restore_entry _ _ _ _ _) as [[status s''] h'']. injection Hrun as <- <- <-.
    split; [|done]. eapply data_store; [exact Hl|done|done|].
    eapply abs_step_expiry; [exact Hstep|by eapply data_expiry|apply i64_range].
  - intros status _. destruct (decide _); auto with mpc.
Qed.

Lemma import_boot security id new_role hash active h : security_wf security →
  let security' := (mp_cache_security_import_client_hash security id new_role hash active h).1.2 in
  bootstrap_admin_hash security' = bootstrap_admin_hash security ∧
  bootstrap_admin_loaded security' = bootstrap_admin_loaded security.
Proof.
  intros Hwf. unfold mp_cache_security_import_client_hash. destruct (decide _); [done|]. destruct (decide _); [done|].
  destruct (mp_cache_security_find_record security id) as [[]|]; [done|]. unfold mbind, ST_bind.
  destruct (ensure_capacity_spec security h Hwf) as (st & s' & h' & -> & _ & _ & H1 & H2 & _).
  by destruct (decide _).
Qed.

Lemma import_image_inv id role_value active hash : role_range role_value → hash_ok hash →
  keeps image_inv (import_client id role_value active hash) (fun _ => True).
Proof.
  intros Hr Hh. unfold import_client. apply (keeps_bind _ _ _ (fun _ => True)).
  - intros l Hl. unfold img_import. pose proof Hl as [_ _ _ Hsec _ _].
    pose proof (import_wf (img_security l) Hsec (Some id) role_value (Some hash) active (img_heap l) Hr
      ltac:(by intros _ b [= <-])) as Hi.
    pose proof (import_boot (img_security l) (Some id) role_value (Some hash) active (img_heap l) Hsec) as [Hb1 Hb2].
    destruct (mp_cache_security_import_client_hash _ _ _ _ _ _) as [[status s'] h']. cbn in *.
    split; [|done]. by eapply data_security.
  - intros status _. destruct (decide _); auto with mpc.
Qed.

Lemma import_state_inv path v : files_wf (w_disk (sv_world v)) → data_inv store0 security0 (sv_store v) (sv_security v) →
  clock t pid (sv_world v) →
  let v' := (mp_cache_storage_import_state storage path t v).2 in
  data_inv store0 security0 (sv_store v') (sv_security v') ∧ clock t pid (sv_world v').
Proof.
  intros Hf Hd Hc. cbv zeta. unfold mp_cache_storage_import_state.
  destruct (resolve_import_spec storage path MP_CACHE_PATH_CAP (sv_world v)) as (o1 & Hres & _).
  pose proof (in_world_eq _ v _ _ Hres) as Hw1. destruct o1 as [resolved|e|];
    [rewrite (bind_ret _ _ _ _ _ Hw1)|by rewrite (bind_fail _ _ _ _ _ Hw1)|by rewrite (bind_stuck _ _ _ _ Hw1)].
  destruct (read_packet_file_frame storage resolved MP_CACHE_STORAGE_EXPORT_MAGIC (sv_world v) (Hf _))
    as (o2 & w2 & Hrd & Hsame & _ & Ho2).
  pose proof (clock_read_packet t pid storage resolved MP_CACHE_STORAGE_EXPORT_MAGIC (sv_world v) Hc) as Hc2.
  rewrite Hrd in Hc2. cbn in Hc2.
  pose proof (in_world_eq _ (set_world v (sv_world v)) _ _ Hrd) as Hw2. destruct o2 as [[[payload mac]|]|e|];
    [rewrite (bind_ret _ _ _ _ _ Hw2)|by rewrite (bind_ret _ _ _ _ _ Hw2)|by rewrite (bind_fail _ _ _ _ _ Hw2)|done].
  destruct Ho2 as (_ & Hpw & _). set (v2 := set_world _ w2).
  assert (∃ o h, trial_deserialize payload t v2 = (o, set_world v2 (set_heap w2 h))) as (o & h & Htrial).
  { unfold trial_deserialize. destruct (mp_cache_store_init _ _) as [[store|] h']; [|by eexists _, _].
    destruct (mp_cache_storage_deserialize_state _ _ _) as [o l]. by eexists _, _. }
  destruct o as [[]|e|];
    [rewrite (bind_ret _ _ _ _ _ Htrial)|by rewrite (bind_fail _ _ _ _ _ Htrial)|by rewrite (bind_stuck _ _ _ _ Htrial)].
  rewrite (bind_ret clear_service _ _ _ _ eq_refl). set (v3 := Server _ _ _).
  assert (image_inv (Image (sv_store v3) (sv_security v3) (w_heap (sv_world v3)))) as Hd3.
  { destruct (clear_outcome (sv_store v) (inv_store _ _ _ _ Hd)) as (Hst & Hl & Hm).
    pose proof (inv_security _ _ _ _ Hd) as Hsec.
    apply (data_security _ _ _ (sv_security v)); [|by apply clear_clients_wf|done|done].
    eapply data_store; [exact Hd|done|done|]. change (expiry_map (store_map (mp_cache_store_clear (sv_store v)))).
    rewrite Hm. apply map_Forall_empty. }
  destruct (deserialize_state_walk payload Hpw image_inv restore_image_inv import_image_inv t _ Hd3) as [Hd4 _].
  assert (clock t pid (sv_world v3)) as Hc3 by done.
  unfold mbind, STE_bind, in_image.
  destruct (mp_cache_storage_deserialize_state payload t _) as [[[]|e|] l]; [|by split..].
  unfold checkpoint_service, in_world, zoom. set (v4 := Server _ _ _).
  pose proof (clock_checkpoint t pid storage (sv_store v4) (sv_security v4) t (sv_world v4) Hc3) as Hc5.
  by destruct (mp_cache_storage_checkpoint _ _ _ _ _) as [o w5].
Qed.

Lemma import_keeps request : keeps_inv (mp_cache_http_handle_import request t).
Proof.
  unfold mp_cache_http_handle_import.
  destruct (mp_cache_http_extract_json_string _ _ _) as [path|e|]; [|apply endpoint_inv, endpoint_quiet; hush..].
  intros s Hs Hf. rewrite (bind_ret get_server _ s s s eq_refl).
  pose proof Hs as [Hcfg Hsto Hclk Hd]. rewrite Hsto. destruct (import_state_inv path (service s) Hf Hd Hclk) as [Hd1 Hc1].
  assert (inv (succeeds (in_service (mp_cache_storage_import_state storage path t)) s).2) as Hs1.
  { unfold succeeds, in_service, zoom. destruct (mp_cache_storage_import_state storage path t (service s)) as [o v].
    by destruct o; split. }
  unfold mbind at 1, STE_bind at 1. destruct (succeeds _ s) as [[b|e|] s1]; [|done..]. cbn in Hs1.
  refine (quiet_inv _ _ _ Hs1). hush.
Qed.

(** *** The dispatcher *)

Lemma quiet_authenticate request required : quiet (mp_cache_http_authenticate request required t).
Proof. intros s. by destruct (authenticate_returns request required t s) as (a & s' & -> & Hs & _). Qed.

Lemma authorized_ok request required m : endpoint_ok m → endpoint_ok (authorized request required t m).
Proof.
  intros Hm. apply endpoint_bind; [apply quiet_authenticate|]. intros [p|r]; [done|apply endpoint_quiet; hush].
Qed.

Lemma authorized_keeps request required m : keeps_inv m → keeps_inv (authorized request required t m).
Proof.
  intros Hm. apply keeps_inv_bind; [apply quiet_authenticate|]. intros [p|r]; [done|apply endpoint_inv, endpoint_quiet; hush].
Qed.

Lemma only_ok allowed request m : endpoint_ok m → endpoint_ok (only allowed request m).
Proof. intros Hm. unfold only. destruct (decide _); [apply endpoint_quiet; hush|done]. Qed.

Lemma only_keeps allowed request m : keeps_inv m → keeps_inv (only allowed request m).
Proof. intros Hm. unfold only. destruct (decide _); [apply endpoint_inv, endpoint_quiet; hush|done]. Qed.

Lemma route_cache_ok request : endpoint_ok (route_cache request t).
Proof.
  unfold route_cache. destruct (mp_cache_http_percent_decode _ _) as [decoded|e|]; [|apply endpoint_quiet; hush..].
  destruct (decide _); [apply endpoint_quiet; hush|]. apply authorized_ok.
  destruct (decide _); [apply cache_get_ok|]. destruct (decide _); [apply cache_put_ok|].
  destruct (decide _); [apply cache_delete_ok|]. apply endpoint_quiet. hush.
Qed.

Lemma route_client_ok request id handler : (∀ id, endpoint_ok (handler id t)) → endpoint_ok (route_client request id t handler).
Proof.
  intros Hh. apply only_ok, authorized_ok. destruct (decide _); [apply endpoint_quiet; hush|apply Hh].
Qed.

Definition moves_state (request : mp_cache_http_request_t) : Prop :=
  request_path request = cstr "/v1/export" ∨ request_path request = cstr "/v1/import".

Lemma route_admin_ok request : ¬ moves_state request → endpoint_ok (route_admin request t).
Proof.
  intros Hno. unfold route_admin. 
  do 2 (rewrite (decide_False (P := request_path request = _)) by (intros ?; apply Hno; unfold moves_state; auto)).
  destruct (decide _); [apply only_ok, authorized_ok, purge_all_ok|].
  destruct (decide _); [apply only_ok, authorized_ok, purge_selected_ok|]. apply endpoint_quiet. hush.
Qed.

Lemma route_admin_keeps request : keeps_inv (route_admin request t).
Proof.
  unfold route_admin. destruct (decide _); [apply only_keeps, authorized_keeps, export_keeps|].
  destruct (decide _); [apply only_keeps, authorized_keeps, import_keeps|].
  destruct (decide _); [apply endpoint_inv, only_ok, authorized_ok, purge_all_ok|].
  destruct (decide _); [apply endpoint_inv, only_ok, authorized_ok, purge_selected_ok|].
  apply endpoint_inv, endpoint_quiet. hush.
Qed.

(** Every route but the last ones. *)
Lemma route_at_cases (K : HTTP mp_cache_http_response_t → Prop) logs request :
  (∀ m, endpoint_ok m → K m) → K (route_admin request t) → K (route_at logs request t).
Proof.
  intros HK Hadmin. unfold route_at.
  destruct (mp_cache_http_path_is_health _); [apply HK, only_ok, endpoint_quiet, quiet_health|].
  destruct (decide _); [apply HK, endpoint_quiet, quiet_root|].
  destruct (starts_with (cstr "/v1/cache/") _); [apply HK, route_cache_ok|].
  destruct (decide _); [apply HK, only_ok, authorized_ok, endpoint_quiet, quiet_stats|].
  destruct (decide _); [apply HK, only_ok, authorized_ok, endpoint_quiet, quiet_memory|].
  destruct (decide _); [apply HK, only_ok, authorized_ok, endpoint_quiet, quiet_uptime|].
  destruct (decide _); [apply HK, only_ok, authorized_ok, endpoint_quiet, quiet_logs|].
  destruct (decide _); [apply HK, only_ok, authorized_ok, register_ok|].
  destruct (starts_with (cstr "/v1/clients/") _ && _); [|done].
  destruct (client_path _ _); [apply HK, route_client_ok; intros; apply rotate_ok|].
  destruct (client_path _ _); [apply HK, route_client_ok; intros; apply invalidate_ok|done].
Qed.

Lemma route_at_ok logs request : ¬ moves_state request → endpoint_ok (route_at logs request t).
Proof. intros Hno. apply route_at_cases; [done|by apply route_admin_ok]. Qed.

Lemma route_at_keeps logs request : keeps_inv (route_at logs request t).
Proof. apply route_at_cases; [apply endpoint_inv|apply route_admin_keeps]. Qed.
End Endpoints.
