(* ===== verification/ServiceBindings.v ===== *)
(** * ServiceBindings: what requests do to one binding of the table

    A binding of the cache stays until it expires: no request of
    internal/httpserver/http_server.c touches it unless the request is a PUT or
    DELETE of its key, a purge that covers it, or an import. What may happen
    once it has expired is that the sweep or a GET removes it. One lemma per
    endpoint, then the dispatcher. *)

From stdpp Require Import base numbers strings option gmap list.
From S2P Require Import Prelude Config Crypto Cache Security Fs CString Log HttpText StorageCodec Storage Persistence HttpServer ServiceAuth ServiceState ServiceHandlers.
Local Open Scope Z_scope.

(** ** Which requests may write a key *)

(** The path of the request is the cache path of [key]. *)
Definition names_key (key : bytes) (request : mp_cache_http_request_t) : Prop :=
  starts_with (cstr "/v1/cache/") (request_path request) = true ∧
  ∃ decoded, mp_cache_http_percent_decode (drop 10 (request_path request)) 256 = Ret decoded ∧ c_string decoded = key.

Definition may_write (key : bytes) (request : mp_cache_http_request_t) : Prop :=
  (names_key key request ∧ method request ≠ cstr "GET") ∨
  request_path request = cstr "/v1/import" ∨ request_path request = cstr "/v1/purge/all" ∨
  (request_path request = cstr "/v1/purge/keys" ∧
   ∃ h keys h', mp_cache_http_extract_json_string_array (request_body request) (cstr "keys") h = (Ret keys, h') ∧ key ∈ keys).

(** ** Code that leaves the table alone *)

Definition storeless {A} (m : HTTP A) : Prop := ∀ s, sv_store (service (m s).2) = sv_store (service s).

Lemma storeless_quiet {A} (m : HTTP A) : quiet m → storeless m.
Proof. intros Hm s. apply (same_store _ _ (Hm s)). Qed.

Lemma storeless_world {A} (m : STE world A) : storeless (in_service (in_world m)).
Proof. intros s. unfold in_service, in_world, zoom. by destruct (m _). Qed.

Section Bindings.
Context {EC : EnvelopeCrypto}.

Lemma storeless_checkpoint storage now : storeless (in_service (checkpoint_service storage now)).
Proof.
  intros s. unfold in_service, checkpoint_service, in_world, zoom. by destruct (mp_cache_storage_checkpoint _ _ _ _ _).
Qed.
Lemma storeless_register id new_role : storeless (svc_register id new_role).
Proof.
  intros s. unfold svc_register, in_service, zoom.
  by destruct (mp_cache_security_register_client _ _ _ _ _) as [[[]] []].
Qed.
Lemma storeless_rotate id : storeless (svc_rotate id).
Proof.
  intros s. unfold svc_rotate, in_service, zoom. by destruct (mp_cache_security_rotate_client_token _ _ _ _) as [[[]]].
Qed.
Lemma storeless_invalidate id : storeless (svc_invalidate id).
Proof.
  intros s. unfold svc_invalidate, in_service, zoom. by destruct (mp_cache_security_invalidate_client_token _ _).
Qed.

(** ** The binding *)

Context (key value : bytes) (expires t : Z).

(** The table holds the binding, or has dropped it after its expiry. *)
Definition binding_at (store : mp_cache_store_t) : Prop :=
  store_map store !! key = Some (value, expires) ∨ store_map store !! key = None ∧ expires ≤ t.
Definition holds_binding (s : mp_cache_http_server_t) : Prop :=
  store_wf (sv_store (service s)) ∧ binding_at (sv_store (service s)).

Lemma binding_storeless {A} (m : HTTP A) : storeless m → preserves holds_binding m.
Proof. intros Hm s [Hst Hb]. unfold holds_binding. by rewrite Hm. Qed.

Lemma binding_quiet {A} (m : HTTP A) : quiet m → preserves holds_binding m.
Proof. intros Hm. by apply binding_storeless, storeless_quiet. Qed.

Lemma binding_other store store' other :
  other ≠ key → (store_map store' = store_map store ∨ store_map store' = delete other (store_map store) ∨
    ∃ v, store_map store' = <[other := v]> (store_map store)) → binding_at store → binding_at store'.
Proof.
  intros Hne Hm. unfold binding_at.
  destruct Hm as [-> |[-> |[v ->]]]; rewrite ?lookup_delete_ne, ?lookup_insert_ne by done; done.
Qed.

Lemma binding_get k : preserves holds_binding (svc_get k t).
Proof.
  intros s [Hst Hb]. unfold svc_get, in_service, zoom.
  destruct (get_copy_outcome (sv_store (service s)) k t (w_heap (sv_world (service s))) Hst)
    as (status & found & store & h & -> & Hst' & _ & Hstep). split; [done|]. cbn.
  destruct (decide (k = key)) as [->|Hne].
  - inversion Hstep as [| |? ? Hn|? ? v exp Hk Hexp| | | | | | | |]; subst; try done;
      match goal with H : _ = store_map store |- _ => unfold binding_at; rewrite <-H end; [done| |done|done].
    right. split; [apply lookup_delete_eq|]. destruct Hb as [Hb|[Hb _]]; rewrite Hk in Hb; [|done]. by injection Hb as _ <-.
  - eapply (binding_other (sv_store (service s))); [exact Hne| |exact Hb].
    inversion Hstep; subst; eauto.
Qed.

Lemma binding_set k v ttl now : k ≠ key → preserves holds_binding (svc_set k v ttl now).
Proof.
  intros Hne s [Hst Hb]. unfold svc_set, in_service, zoom.
  destruct (set_outcome (sv_store (service s)) k v ttl now (w_heap (sv_world (service s))) Hst)
    as (status & store & h & -> & Hst' & _ & Hstep). split; [done|]. cbn.
  eapply (binding_other (sv_store (service s))); [exact Hne| |exact Hb].
  apply abs_set_inv in Hstep as [(_ & _ & ->)|[_ ->]]; eauto.
Qed.

Lemma binding_delete k : k ≠ key → preserves holds_binding (svc_delete k).
Proof.
  intros Hne s [Hst Hb]. unfold svc_delete, in_service, zoom.
  pose proof (delete_outcome (sv_store (service s)) k Hst) as Hd.
  destruct (mp_cache_store_delete _ _) as [status store]. destruct Hd as (Hst' & _ & Hm & _). split; [done|]. cbn.
  eapply (binding_other (sv_store (service s))); [exact Hne| |exact Hb]. auto.
Qed.

Lemma binding_sweep : preserves holds_binding (mp_cache_http_maybe_sweep t).
Proof.
  intros s [Hst Hb]. unfold mp_cache_http_maybe_sweep. destruct (decide _); [|done]. unfold holds_binding. cbn.
  pose proof (purge_expired_outcome (sv_store (service s)) t Hst) as Ho.
  destruct (mp_cache_store_purge_expired _ _) as [n store]. destruct Ho as (Hst' & _ & Hm & _). split; [done|].
  unfold binding_at in *. cbn. rewrite Hm. destruct Hb as [Hb|[Hb He]].
  - destruct (decide (t < expires)) as [Hl|Hl].
    + left. by apply (map_lookup_filter_Some (M := gmap bytes)).
    + right. split; [|lia]. apply map_lookup_filter_None. right. intros x Hx. rewrite Hb in Hx. injection Hx as <-. done.
  - right. split; [|done]. apply map_lookup_filter_None. by left.
Qed.

(** ** The endpoints *)

Lemma binding_persist append now : preserves holds_binding (persist append now).
Proof.
  unfold persist, mp_cache_http_resilient_checkpoint. preserve; try (apply binding_quiet; solve [hush]).
  - apply binding_storeless, storeless_world.
  - apply binding_storeless, storeless_checkpoint.
Qed.

Lemma binding_persist_client id now : preserves holds_binding (persist_client id now).
Proof. unfold persist_client. preserve; [apply binding_quiet; hush|apply binding_persist]. Qed.

(** Splits a handler and closes the parts that leave the table alone. *)
Ltac keep_binding := preserve; try (apply binding_quiet; solve [hush]); try apply binding_persist; try apply binding_persist_client.

Lemma binding_cache_get k : preserves holds_binding (mp_cache_http_handle_cache_get k t).
Proof. unfold mp_cache_http_handle_cache_get. apply preserves_bind; [apply binding_get|]. intros a. apply binding_quiet. hush. Qed.

Lemma binding_cache_put k request : k ≠ key → preserves holds_binding (mp_cache_http_handle_cache_put k request t).
Proof.
  intros Hne. unfold mp_cache_http_handle_cache_put. keep_binding; try (apply binding_quiet; apply quiet_decode).
  by apply binding_set.
Qed.

Lemma binding_cache_delete k : k ≠ key → preserves holds_binding (mp_cache_http_handle_cache_delete k t).
Proof. intros Hne. unfold mp_cache_http_handle_cache_delete. keep_binding. by apply binding_delete. Qed.

Lemma binding_purge_keys keys purged missing needs : key ∉ keys → preserves holds_binding (purge_keys keys purged missing needs).
Proof.
  revert purged missing needs. induction keys as [|k keys IH]; intros purged missing needs Hin; cbn [purge_keys]; [apply preserves_ret|].
  apply not_elem_of_cons in Hin as [Hne Hin]. apply preserves_bind; [by apply binding_delete|]. intros status.
  destruct (decide _); [by apply IH|]. destruct (decide _); [apply preserves_ret|].
  apply preserves_bind; [apply binding_quiet; hush|]. intros s1. apply preserves_bind; [|intros b; by apply IH].
  destruct needs; [apply preserves_ret|]. apply preserves_succeeds, binding_storeless, storeless_world.
Qed.

Lemma binding_purge_selected request :
  (∀ h keys h', mp_cache_http_extract_json_string_array (request_body request) (cstr "keys") h = (Ret keys, h') → key ∉ keys) →
  preserves holds_binding (mp_cache_http_handle_purge_selected request t).
Proof.
  intros Hno s Hs. unfold mp_cache_http_handle_purge_selected. rewrite (bind_ret get_server _ s s s eq_refl).
  set (m := if decide _ then _ else _ : HTTP (outcome (list bytes))).
  assert (quiet m) as Hq by (unfold m; hush).
  pose proof (binding_quiet m Hq s Hs) as Hs1. unfold mbind at 1, STE_bind at 1.
  destruct (m s) as [[o|e|] s1] eqn:Hm; cbn in Hs1; [|done..].
  assert (∀ keys, o = Ret keys → key ∉ keys) as Hkeys.
  { intros keys ->. unfold m in Hm. destruct (decide _); [done|].
    unfold attempt, in_service, in_world, in_heap, zoom in Hm.
    destruct (mp_cache_http_extract_json_string_array _ _ _) as [o h'] eqn:He. injection Hm as Ho _. subst o. by eapply Hno. }
  clear Hm Hq. clearbody m. revert s1 Hs1.
  match goal with |- ∀ s, holds_binding s → holds_binding (?m s).2 => change (preserves holds_binding m) end.
  destruct o as [[|k keys]|e|]; [apply binding_quiet; hush| |apply binding_quiet; hush..].
  specialize (Hkeys _ eq_refl). destruct (decide _); [apply binding_quiet; hush|].
  apply preserves_bind; [by apply binding_purge_keys|]. unfold mp_cache_http_resilient_checkpoint.
  intros [[[purged missing] needs]|]; keep_binding. apply binding_storeless, storeless_checkpoint.
Qed.

Lemma binding_register request : preserves holds_binding (mp_cache_http_handle_register_client request t).
Proof. unfold mp_cache_http_handle_register_client. keep_binding. apply binding_storeless, storeless_register. Qed.
Lemma binding_rotate id : preserves holds_binding (mp_cache_http_handle_rotate_client id t).
Proof. unfold mp_cache_http_handle_rotate_client. keep_binding. apply binding_storeless, storeless_rotate. Qed.
Lemma binding_invalidate id : preserves holds_binding (mp_cache_http_handle_invalidate_client id t).
Proof. unfold mp_cache_http_handle_invalidate_client. keep_binding. apply binding_storeless, storeless_invalidate. Qed.
Lemma binding_export : preserves holds_binding (mp_cache_http_handle_export t).
Proof. unfold mp_cache_http_handle_export. keep_binding. apply binding_storeless, storeless_world. Qed.

(** ** The dispatcher *)

Lemma binding_authorized request required m : preserves holds_binding m → preserves holds_binding (authorized request required t m).
Proof.
  intros Hm. apply preserves_bind; [apply binding_quiet, quiet_authenticate|].
  intros [p|r]; [done|apply preserves_ret].
Qed.

Lemma binding_only allowed request m : preserves holds_binding m → preserves holds_binding (only allowed request m).
Proof. intros Hm. unfold only. destruct (decide _); [apply binding_quiet; hush|done]. Qed.

Section Request.
Context (request : mp_cache_http_request_t) (Hno : ¬ may_write key request).

Lemma binding_route_cache :
  starts_with (cstr "/v1/cache/") (request_path request) = true → preserves holds_binding (route_cache request t).
Proof.
  intros Hpath. unfold route_cache. destruct (mp_cache_http_percent_decode _ _) as [decoded|e|] eqn:Hd; [|apply binding_quiet; hush..].
  destruct (decide _); [apply binding_quiet; hush|]. apply binding_authorized.
  destruct (decide _); [apply binding_cache_get|].
  assert (c_string decoded ≠ key) as Hne.
  { intros Heq. apply Hno. left. split; [|done]. split; [done|]. by exists decoded. }
  destruct (decide _); [by apply binding_cache_put|]. destruct (decide _); [by apply binding_cache_delete|]. apply binding_quiet. hush.
Qed.

Lemma binding_route_client id handler :
  (∀ id, preserves holds_binding (handler id t)) → preserves holds_binding (route_client request id t handler).
Proof. intros Hh. apply binding_only, binding_authorized. destruct (decide _); [apply binding_quiet; hush|apply Hh]. Qed.

Lemma binding_route_admin : preserves holds_binding (route_admin request t).
Proof.
  unfold route_admin. destruct (decide _); [apply binding_only, binding_authorized, binding_export|].
  destruct (decide _); [by destruct Hno; right; left|]. destruct (decide _); [by destruct Hno; right; right; left|].
  destruct (decide _); [|apply binding_quiet; hush]. apply binding_only, binding_authorized, binding_purge_selected.
  intros h keys h' He Hin. destruct Hno. right; right; right. split; [done|]. by exists h, keys, h'.
Qed.

Lemma binding_route_at logs : preserves holds_binding (route_at logs request t).
Proof.
  unfold route_at.
  destruct (mp_cache_http_path_is_health _); [apply binding_only, binding_quiet, quiet_health|].
  destruct (decide _); [apply binding_quiet, quiet_root|].
  destruct (starts_with (cstr "/v1/cache/") _) eqn:Hpath; [by apply binding_route_cache|].
  destruct (decide _); [apply binding_only, binding_authorized, binding_quiet, quiet_stats|].
  destruct (decide _); [apply binding_only, binding_authorized, binding_quiet, quiet_memory|].
  destruct (decide _); [apply binding_only, binding_authorized, binding_quiet, quiet_uptime|].
  destruct (decide _); [apply binding_only, binding_authorized, binding_quiet, quiet_logs|].
  destruct (decide _); [apply binding_only, binding_authorized, binding_register|].
  destruct (starts_with (cstr "/v1/clients/") _ && _); [|apply binding_route_admin].
  destruct (client_path _ _); [apply binding_route_client; intros; apply binding_rotate|].
  destruct (client_path _ _); [apply binding_route_client; intros; apply binding_invalidate|apply binding_route_admin].
Qed.
End Request.

(** A request that does not write the key keeps the binding. *)
Lemma binding_route_request logs request s :
  ¬ may_write key request → w_time (sv_world (service s)) = t → holds_binding s →
  holds_binding (mp_cache_http_route_request logs request s).2.
Proof.
  intros Hno Ht Hs. destruct (route_request_at logs request s) as (s1 & -> & Hu). rewrite Ht in Hu |- *.
  apply binding_route_at; [done|]. pose proof (binding_sweep s Hs) as Hsw. unfold holds_binding. by rewrite (same_store _ _ Hu).
Qed.

(** So does a whole connection whose request, if one can be read, does not. *)
Lemma binding_handle_client logs received sends s :
  (∀ request s', in_service (in_world (in_heap (mp_cache_http_read_request received MP_CACHE_HTTP_REQUEST_CAPACITY))) s =
     (Ret request, s') → ¬ may_write key request) →
  w_time (sv_world (service s)) = t → holds_binding s →
  holds_binding (mp_cache_http_handle_client logs received sends s).2.
Proof.
  intros Hno Ht Hs. unfold mp_cache_http_handle_client, attempt, mbind, STE_bind.
  pose proof (quiet_heap (mp_cache_http_read_request received MP_CACHE_HTTP_REQUEST_CAPACITY) s) as Hq.
  destruct (in_service _ s) as [o s1] eqn:Hread; cbn in Hq.
  assert (holds_binding s1) as Hs1 by (unfold holds_binding; by rewrite (same_store _ _ Hq)).
  destruct o as [request|e|]; [| |done].
  - pose proof (binding_route_request logs request s1 (Hno _ _ eq_refl) ltac:(by rewrite (same_time _ _ Hq)) Hs1) as Hr.
    by destruct (mp_cache_http_route_request logs request s1) as [[]].
  - refine (binding_quiet (response ← bad_request "malformed request"; mret (mp_cache_http_write_response response sends).2) _ s1 Hs1). hush.
Qed.
End Bindings.
