(* ===== verification/Service.v ===== *)
(** * Service: what the running service guarantees

    The theorems about a whole server of internal/httpserver/http_server.c over
    sequences of connections: the invariant, the administrator's access, what a
    client reads back, and that acknowledged changes survive a restart. *)

From stdpp Require Import base numbers strings option gmap list.
From S2P Require Import Prelude Config Crypto Cache Security Fs CString Log HttpText StorageCodec Storage Persistence HttpServer ServiceAuth ServiceState ServiceHandlers ServiceBindings.
Local Open Scope Z_scope.

Local Abbreviation map_of s := (store_map (sv_store (service s))).
Local Abbreviation records_of s := (records (sv_security (service s))).
Local Abbreviation disk_of s := (w_disk (sv_world (service s))).
Local Abbreviation time_of s := (w_time (sv_world (service s))).
Local Abbreviation heap_of s := (w_heap (sv_world (service s))).

(** How a server is set up: limits and paths that the configuration allows, and
    well-formed data. *)
Record deployed (s : mp_cache_http_server_t) : Prop := {
  dep_ttl : 0 ≤ num (hs_config s) min_ttl_seconds ∧ num (hs_config s) max_ttl_seconds < 2 ^ 32;
  dep_paths : paths_ok (hs_storage s) (w_pid (sv_world (service s)));
  dep_apart : ¬ st_checkpoint_path (hs_storage s) `prefix_of` st_journal_path (hs_storage s);
  dep_memory : store_memory_limit (sv_store (service s)) ≤ 2 ^ 31;
  dep_data : data_inv (sv_store (service s)) (sv_security (service s)) (sv_store (service s)) (sv_security (service s));
}.

(** A time the clock can show. *)
Definition clock_sane (t : Z) : Prop := 0 ≤ t < 2 ^ 62.

Section Runs.
Context {EC : EnvelopeCrypto}.

(** A server over time: connections are served one after the other; between
    them the clock moves and other processes use files, memory and entropy. *)
Inductive serving (s0 : mp_cache_http_server_t) : mp_cache_http_server_t → Prop :=
| serving_start : serving s0 s0
| serving_connection s logs received sends :
    serving s0 s → files_wf (disk_of s) → clock_sane (time_of s) →
    serving s0 (mp_cache_http_handle_client logs received sends s).2
| serving_environment s w :
    serving s0 s → w_pid w = w_pid (sv_world (service s)) →
    serving s0 (set_service s (set_world (service s) w)).

Section Deployed.
Context (s0 : mp_cache_http_server_t) (Hdep : deployed s0).

Local Abbreviation inv := (service_inv (hs_config s0) (hs_storage s0) (sv_store (service s0)) (sv_security (service s0))).
Local Abbreviation pid := (w_pid (sv_world (service s0))).

Lemma route_request_keeps t logs request s :
  clock_sane t → inv t pid s → files_wf (disk_of s) → inv t pid (mp_cache_http_route_request logs request s).2.
Proof.
  intros Ht Hs Hf. pose proof Hdep as [Httl Hpaths Hapart Hmem _]. destruct (route_request_at logs request s) as (s1 & -> & Hu).
  pose proof Hs as [_ _ [Htime _] _]. rewrite Htime in Hu |- *.
  pose proof (maybe_sweep_inv _ _ _ _ _ _ t s Hs) as Hsw. pose proof (untouched_inv _ _ _ _ _ _ _ _ Hu Hsw) as Hs1.
  apply (route_at_keeps _ _ _ _ t pid Ht Httl Hpaths Hmem Hapart logs request s1 Hs1).
  rewrite (same_files _ _ Hu). unfold mp_cache_http_maybe_sweep. by destruct (decide _).
Qed.

Lemma handle_client_keeps t logs received sends s :
  clock_sane t → inv t pid s → files_wf (disk_of s) →
  inv t pid (mp_cache_http_handle_client logs received sends s).2.
Proof.
  intros Ht Hs Hf. unfold mp_cache_http_handle_client.
  assert (quiet (attempt (in_service (in_world (in_heap
    (mp_cache_http_read_request received MP_CACHE_HTTP_REQUEST_CAPACITY)))))) as Hq by hush.
  specialize (Hq s). unfold mbind at 1, STE_bind at 1.
  destruct (attempt _ s) as [[o|e|] s1]; cbn in Hq; pose proof (untouched_inv _ _ _ _ _ _ _ _ Hq Hs) as Hs1; [|done..].
  assert (files_wf (disk_of s1)) as Hf1 by (by rewrite (same_files _ _ Hq)).
  destruct o as [request|e|]; [| |done].
  - pose proof (route_request_keeps t logs request s1 Ht Hs1 Hf1) as Hr. unfold mbind, STE_bind.
    by destruct (mp_cache_http_route_request logs request s1) as [[]].
  - refine (quiet_inv _ _ _ _ _ _ _ _ s1 Hs1). hush.
Qed.

Lemma serving_inv s : serving s0 s → inv (time_of s) pid s.
Proof.
  pose proof Hdep as [_ _ _ _ Hdata].
  induction 1 as [|s logs received sends Hrun IH Hf Ht|s w Hrun IH Hpid].
  - by split.
  - pose proof (handle_client_keeps _ logs received sends s Ht IH Hf) as [? ? [Htime ?] ?]. by rewrite Htime.
  - pose proof IH as [? ? [? Hp] ?]. split; try done. split; [done|]. cbn. by rewrite Hpid.
Qed.
End Deployed.

(** C2. The service invariant. Whatever connections a deployed server handles,
    whatever bytes they carry, and whatever happens to clock, files, memory and
    entropy between them: configuration and limits stay, the hash table is well
    formed with exact counters within the memory limit, the expiry times fit
    their type, the registry is well formed, and the bootstrap credential is the
    one it started with. *)
Theorem service_invariant s0 s :
  deployed s0 → serving s0 s →
  hs_config s = hs_config s0 ∧ hs_storage s = hs_storage s0 ∧
  data_inv (sv_store (service s0)) (sv_security (service s0)) (sv_store (service s)) (sv_security (service s)).
Proof. intros Hdep Hrun. by destruct (serving_inv s0 Hdep s Hrun) as [? ? _ ?]. Qed.

(** C28. The administrator is never locked out: after any such run the bootstrap
    token is still accepted, for every path and with the role that every
    administrative endpoint requires. *)
Theorem bootstrap_admin_keeps_access s0 s request token :
  deployed s0 → serving s0 s →
  bootstrap_admin_loaded (sv_security (service s0)) = true →
  bootstrap_admin_hash (sv_security (service s0)) = sha256_oneshot token →
  mp_cache_http_extract_bearer_token (authorization_header request) = Some token → token ≠ [] →
  entitled (sv_security (service s)) request MP_CACHE_ROLE_ADMIN.
Proof.
  intros Hdep Hrun Hl Hh Ht Hne. destruct (serving_inv s0 Hdep s Hrun) as [_ _ _ [_ _ _ Hsec Hh' Hl']].
  exists token, (Principal MP_CACHE_ROLE_ADMIN MP_CACHE_BOOTSTRAP_ADMIN_ID). split; [done|]. split; [done|].
  split; [|done]. rewrite authenticate_spec by done. unfold authenticate_hash.
  by rewrite decide_True by (split; congruence).
Qed.

(** ** Reading back what was written *)

Lemma make_error_code status text code message allow extra s r s' :
  mp_cache_http_make_error status text code message allow extra s = (Ret r, s') → status_code r = status.
Proof.
  intros Hrun. destruct (make_error_returns status text code message allow extra s) as (r' & s1 & H1 & _ & H2).
  by rewrite H1 in Hrun; simplify_eq.
Qed.

(** Refutes a refusal that answers 200. *)
Ltac refused := unfold bad_request, internal_error, not_found, error in *;
  match goal with H : mp_cache_http_make_error _ _ _ _ _ _ _ = (Ret _, _) |- _ => apply make_error_code in H; congruence end.

Section Handlers.
Context (s0 : mp_cache_http_server_t) (Hdep : deployed s0) (t : Z) (Ht : clock_sane t).
Local Abbreviation inv := (service_inv (hs_config s0) (hs_storage s0) (sv_store (service s0)) (sv_security (service s0))
  t (w_pid (sv_world (service s0)))).

(** The document a PUT carries: the value, and the lifetime asked for or the
    configured default. *)
Definition put_document (request : mp_cache_http_request_t) (value : bytes) (ttl : Z) : Prop :=
  ∃ value_base64, mp_cache_http_extract_json_string (request_body request) (cstr "value_base64") MP_CACHE_HTTP_BODY_CAPACITY =
      Ret value_base64 ∧
    mp_cache_base64_decode value_base64 (zlen value_base64 `div` 4 * 3 + 3) = Ret value ∧
    match mp_cache_http_extract_json_u32 (request_body request) (cstr "ttl_seconds") with
    | Fail ENOENT => ttl = num (hs_config s0) default_ttl_seconds
    | o => o = Ret ttl
    end ∧
    num (hs_config s0) min_ttl_seconds ≤ ttl ≤ num (hs_config s0) max_ttl_seconds.

(** Persisting a change and answering leave the map alone. *)
Lemma store_in_world {A} M (m : STE world A) : preserves (fun s => sv_store (service s) = M) (in_service (in_world m)).
Proof. intros s Hs. unfold in_service, in_world, zoom. by destruct (m _). Qed.

Lemma persist_store M append now : preserves (fun s => sv_store (service s) = M) (persist append now).
Proof.
  unfold persist, mp_cache_http_resilient_checkpoint.
  preserve; try by (intros s Hs). apply store_in_world. intros s Hs.
  unfold in_service, checkpoint_service, in_world, zoom. by destruct (mp_cache_storage_checkpoint _ _ _ _ _).
Qed.

Lemma persist_answer_store append message rest s r s' :
  (saved ← persist append t; if negb saved then internal_error message else rest) s = (Ret r, s') → quiet rest →
  status_code r = 200 → sv_store (service s') = sv_store (service s).
Proof.
  intros Hrun Hq Hok. pose proof (persist_store (sv_store (service s)) append t s eq_refl) as Hp.
  unfold mbind, STE_bind in Hrun. destruct (persist append t s) as [[[] | |] s1]; cbn in Hrun, Hp; [|refused|done..].
  specialize (Hq s1). rewrite Hrun in Hq. cbn in Hq. rewrite (same_store _ _ Hq). exact Hp.
Qed.

Lemma put_stores key request s r s' :
  inv s → mp_cache_http_handle_cache_put key request t s = (Ret r, s') → status_code r = 200 →
  ∃ value ttl, put_document request value ttl ∧ zlen value < 2 ^ 31 ∧ map_of s' = <[key := (value, t + ttl)]> (map_of s).
Proof.
  intros Hs Hrun Hok. pose proof Hdep as [Httl Hpaths Hapart Hmem _]. pose proof Hs as [Hcfg _ _ _].
  unfold mp_cache_http_handle_cache_put in Hrun. rewrite (bind_ret get_server _ s s s eq_refl) in Hrun.
  destruct (decide (request_body_length request = 0)); [refused|].
  destruct (mp_cache_http_extract_json_string _ _ _) as [b64|e|] eqn:Hb; [|refused|done].
  match type of Hrun with match ?x with _ => _ end _ = _ => destruct x as [ttl|e|] eqn:Hwant end; [|refused|done].
  rewrite Hcfg in Hrun, Hwant. destruct (decide (_ ∨ _)) as [|Hr]; [refused|].
  unfold mbind at 1, STE_bind at 1 in Hrun. pose proof (quiet_decode b64 s) as Hq.
  unfold decode_value in Hrun, Hq. destruct (alloc_returns s) as (ok & s1 & Ha & Hu & _).
  rewrite (bind_ret _ _ _ _ _ Ha) in Hrun. cbn [mret STE_ret] in Hrun. clear Hq.
  assert (inv s1) as Hs1 by (by eapply untouched_inv). destruct ok; [|refused].
  destruct (mp_cache_base64_decode b64 _) as [value|e|] eqn:Hdec; [|refused|done].
  destruct (svc_set_spec _ _ _ _ _ _ key value ttl t s1 Hs1 ltac:(unfold clock_sane in Ht; lia)) as (status & store & h & Hset & Hd & Hstep).
  rewrite (bind_ret _ _ _ _ _ Hset) in Hrun. set (s2 := set_service s1 _) in Hrun.
  apply abs_set_inv in Hstep as [(-> & Hfit & Hm)|[Hne Hm]].
  2:{ destruct (decide (status = _)); [refused|]. rewrite decide_True in Hrun by done. refused. }
  rewrite !decide_False in Hrun by done. exists value, ttl. split.
  { exists b64. split; [done|]. split; [done|]. split; [|lia].
    destruct (mp_cache_http_extract_json_u32 _ _) as [|[]|]; (done || congruence). }
  split.
  { pose proof Hd as [_ (_ & El & _) _ _ _ _]. destruct Hfit as (Hk & _ & Hcost).
    rewrite <-El in Hcost. pose proof (binding_small _ Hmem _ _ _ _ Hcost). lia. }
  rewrite (persist_answer_store _ _ _ _ _ _ Hrun ltac:(hush) Hok). cbn. by rewrite Hm, (same_store _ _ Hu).
Qed.

(** A copy of a live binding, when memory lasts. *)
Lemma svc_get_live key value expires s : inv s → map_of s !! key = Some (value, expires) → t < expires → heap_ok (heap_of s) →
  ∃ s', svc_get key t s = (Ret (MP_CACHE_STORE_STATUS_OK, Some (value, expires)), s') ∧ heap_ok (heap_of s').
Proof.
  intros [_ _ _ Hd] Hk Hlive Hh. pose proof (slot_read_map (sv_store (service s)) key (inv_store _ _ _ _ Hd)) as Hm.
  unfold svc_get, in_service, zoom, mp_cache_store_get_copy. destruct (slot_read _ _) as [e|] eqn:Hread; cbn in Hm; [|congruence].
  rewrite Hk in Hm. injection Hm as -> ->. rewrite decide_False by lia. unfold mbind, ST_bind.
  destruct (alloc _) as [b h] eqn:Ha. destruct (alloc_heap_ok _ _ _ Ha Hh) as [-> Hh']. eexists. by split.
Qed.

Lemma heap_alloc_ok s : heap_ok (heap_of s) → ∃ s', on_heap alloc s = (Ret true, s') ∧ heap_ok (heap_of s').
Proof.
  intros Hh. unfold on_heap, in_service, in_world, in_heap, run, zoom.
  destruct (alloc _) as [b h] eqn:Ha. destruct (alloc_heap_ok _ _ _ Ha Hh) as [-> Hh']. eexists. by split.
Qed.

Lemma cache_get_missing key status found store h s :
  svc_get key t s = (Ret (status, found), set_service s (Server (set_heap (sv_world (service s)) h) store (sv_security (service s)))) →
  status = MP_CACHE_STORE_STATUS_NOT_FOUND ∨ status = MP_CACHE_STORE_STATUS_EXPIRED →
  ∃ r s', mp_cache_http_handle_cache_get key t s = (Ret r, s') ∧ status_code r = 404.
Proof.
  intros Hrun Hst. unfold mp_cache_http_handle_cache_get. rewrite (bind_ret _ _ _ _ _ Hrun). cbv beta iota.
  rewrite decide_True by done. set (s1 := set_service s _). clearbody s1.
  rewrite (bind_ret (count cache_misses) _ _ _ _ eq_refl). unfold not_found, error.
  match goal with |- context [mp_cache_http_make_error ?a ?b ?c ?d ?e ?f ?st] =>
    destruct (make_error_returns a b c d e f st) as (r & s2 & -> & _ & Hr) end. eauto.
Qed.

(** The response to a GET of a live binding. *)
Definition value_response (key value : bytes) (expires : Z) : mp_cache_http_response_t :=
  Response 200 (cstr "OK") (Some (get_body key (base64_encode_loop value) value expires)) None None.

Lemma get_returns key value expires s :
  inv s → binding_at key value expires t (sv_store (service s)) → zlen value < 2 ^ 31 → heap_ok (heap_of s) →
  if decide (expires ≤ t)
  then ∃ r s', mp_cache_http_handle_cache_get key t s = (Ret r, s') ∧ status_code r = 404
  else ∃ s', mp_cache_http_handle_cache_get key t s = (Ret (value_response key value expires), s').
Proof.
  intros Hs Hb Hlen Hh. pose proof (zlen_nonneg value). case_decide as Hexp.
  - destruct (svc_get_spec _ _ _ _ _ _ key t s Hs) as (status & found & store & h & Hrun & _ & Hstep).
    eapply cache_get_missing; [exact Hrun|].
    inversion Hstep; simplify_eq; auto; exfalso; destruct Hb as [Hb|[Hb _]]; simplify_eq; lia.
  - destruct Hb as [Hk|[_ ?]]; [|lia]. unfold mp_cache_http_handle_cache_get, value_response.
    destruct (svc_get_live key value expires s Hs Hk ltac:(lia) Hh) as (s1 & Hrun & Hh1).
    rewrite (bind_ret _ _ _ _ _ Hrun). cbv beta iota. rewrite decide_False by (by intros []).
    destruct (heap_alloc_ok s1 Hh1) as (s2 & Ha & Hh2). rewrite (bind_ret _ _ _ _ _ Ha). cbv beta iota zeta.
    rewrite !(u64_small (zlen value + 2)), !u64_small, base64_encode_fits by zlia.
    destruct (heap_alloc_ok (add_metric cache_hits 1 s2).2 Hh2) as (s3 & Ha3 & _). exists s3.
    rewrite (bind_ret (count cache_hits) _ _ _ (add_metric cache_hits 1 s2).2 eq_refl).
    unfold ok_response, mp_cache_http_strdup_printf.
    by rewrite (bind_ret _ _ _ (Some (get_body key (base64_encode_loop value) value expires)) s3) by (by rewrite (bind_ret _ _ _ _ _ Ha3)).
Qed.
End Handlers.

(** *** Routing a request to its handler *)

(** A request with method [verb] for the cache path of [key]. *)
Definition requests (verb : string) (key : bytes) (request : mp_cache_http_request_t) : Prop :=
  names_key key request ∧ method request = cstr verb ∧ key ≠ [].

Lemma route_cache_at logs request key t s : names_key key request → key ≠ [] →
  route_at logs request t s =
  authorized request MP_CACHE_ROLE_CLIENT t (
    if decide (method request = cstr "GET") then mp_cache_http_handle_cache_get key t
    else if decide (method request = cstr "PUT") then mp_cache_http_handle_cache_put key request t
    else if decide (method request = cstr "DELETE") then mp_cache_http_handle_cache_delete key t
    else method_not_allowed "GET, PUT, DELETE") s.
Proof.
  intros (Hp & decoded & Hd & Hk) Hne. unfold route_at.
  assert (mp_cache_http_path_is_health (request_path request) = false) as ->.
  { apply bool_decide_eq_false. intros [E|E]; rewrite E in Hp; discriminate Hp. }
  rewrite decide_False by (intros E; rewrite E in Hp; discriminate Hp).
  rewrite Hp. unfold route_cache. rewrite Hd, Hk. by rewrite decide_False.
Qed.

(** Refused before the handler: not entitled, or over the rate limit. *)
Definition refusal (r : mp_cache_http_response_t) : Prop := status_code r = 401 ∨ status_code r = 403 ∨ status_code r = 429.

(** The check of the caller keeps the allocator good. *)
Lemma heap_kept_on {A} (m : ST heap A) : (∀ h, heap_ok h → heap_ok (m h).2) → preserves (fun s => heap_ok (heap_of s)) (on_heap m).
Proof.
  intros Hm s Hs. specialize (Hm _ Hs). unfold on_heap, in_service, in_world, in_heap, run, zoom.
  by destruct (m (heap_of s)) as [a h].
Qed.

Lemma heap_kept_alloc : preserves (fun s => heap_ok (heap_of s)) (on_heap alloc).
Proof.
  apply heap_kept_on. intros h Hh. destruct (alloc h) as [b h'] eqn:Ha. by destruct (alloc_heap_ok _ _ _ Ha Hh).
Qed.

Lemma heap_kept_bucket limiter who now : preserves (fun s => heap_ok (heap_of s)) (on_heap (rate_limit_bucket limiter who now)).
Proof.
  apply heap_kept_on. intros h Hh. unfold rate_limit_bucket. destruct (find_rate_entry _ _ _) as [[]|]; [done|].
  destruct (decide _); [|done]. unfold mbind, ST_bind. destruct (alloc h) as [b h'] eqn:Ha.
  by destruct (alloc_heap_ok _ _ _ Ha Hh).
Qed.

Lemma heap_kept_authenticate request required now :
  preserves (fun s => heap_ok (heap_of s)) (mp_cache_http_authenticate request required now).
Proof.
  unfold mp_cache_http_authenticate, unauthorized, error, mp_cache_http_rate_limit_allow, mp_cache_http_make_error,
    mp_cache_http_strdup_printf, count.
  preserve; try apply heap_kept_alloc; try apply heap_kept_bucket; by intros s Hs.
Qed.

(** An authorized endpoint: a refusal, or the endpoint on an untouched server. *)
Lemma authorized_runs request now endpoint s : heap_ok (heap_of s) →
  ∃ s1, untouched s s1 ∧ heap_ok (heap_of s1) ∧
    ((∃ r, authorized request MP_CACHE_ROLE_CLIENT now endpoint s = (Ret r, s1) ∧ refusal r) ∨
     authorized request MP_CACHE_ROLE_CLIENT now endpoint s = endpoint s1).
Proof.
  intros Hh. destruct (authenticate_returns request MP_CACHE_ROLE_CLIENT now s) as (a & s1 & Ha & Hu & Hv).
  pose proof (heap_kept_authenticate request MP_CACHE_ROLE_CLIENT now s Hh) as Hh1. rewrite Ha in Hh1.
  exists s1. split; [done|]. split; [done|]. unfold authorized. rewrite (bind_ret _ _ _ _ _ Ha). destruct a as [p|r]; [by right|].
  left. exists r. split; [done|]. unfold refusal. destruct Hv as [?|[?|[? _]]]; auto.
Qed.

(** *** Runs in which a key is not written *)

(** Connections whose request, if one can be read, does not write the key; and
    changes of the environment between them, in which the clock does not go back. *)
Inductive unwritten (key : bytes) (s1 : mp_cache_http_server_t) : mp_cache_http_server_t → Prop :=
| unwritten_start : unwritten key s1 s1
| unwritten_connection s logs received sends :
    unwritten key s1 s → files_wf (disk_of s) → clock_sane (time_of s) →
    (∀ request s', in_service (in_world (in_heap (mp_cache_http_read_request received MP_CACHE_HTTP_REQUEST_CAPACITY))) s =
       (Ret request, s') → ¬ may_write key request) →
    unwritten key s1 (mp_cache_http_handle_client logs received sends s).2
| unwritten_environment s w :
    unwritten key s1 s → w_pid w = w_pid (sv_world (service s)) → time_of s ≤ w_time w →
    unwritten key s1 (set_service s (set_world (service s) w)).

Section Kept.
Context (s0 : mp_cache_http_server_t) (Hdep : deployed s0).
Local Abbreviation inv := (service_inv (hs_config s0) (hs_storage s0) (sv_store (service s0)) (sv_security (service s0))).
Local Abbreviation pid := (w_pid (sv_world (service s0))).

(** The binding is there until it expires. *)
Lemma unwritten_binding key value expires s1 s2 :
  inv (time_of s1) pid s1 → map_of s1 !! key = Some (value, expires) → unwritten key s1 s2 →
  inv (time_of s2) pid s2 ∧ binding_at key value expires (time_of s2) (sv_store (service s2)).
Proof.
  intros Hs1 Hk. induction 1 as [|s logs received sends _ [Hs Hb] Hf Ht Hno|s w _ [Hs Hb] Hpid Hle].
  - split; [done|by left].
  - pose proof (handle_client_keeps s0 Hdep _ logs received sends s Ht Hs Hf) as Hinv. pose proof Hinv as [_ _ [Htime _] _].
    rewrite Htime. split; [done|]. apply (binding_handle_client key value expires (time_of s) logs received sends s Hno eq_refl).
    split; [apply Hs|done].
  - split.
    + pose proof Hs as [? ? [? Hp] ?]. split; try done. split; [done|]. cbn. by rewrite Hpid.
    + destruct Hb as [Hb|[Hb He]]; [by left|right]. split; [done|]. cbn. lia.
Qed.

(** A PUT that is answered 200 stores its document. *)
Lemma put_request_binding logs request key s r s1 :
  serving s0 s → clock_sane (time_of s) → requests "PUT" key request →
  mp_cache_http_route_request logs request s = (Ret r, s1) → status_code r = 200 →
  ∃ value ttl, put_document s0 request value ttl ∧ zlen value < 2 ^ 31 ∧ inv (time_of s1) pid s1 ∧ time_of s1 = time_of s ∧
    map_of s1 = <[key := (value, time_of s + ttl)]> (map_of (mp_cache_http_maybe_sweep (time_of s) s).2).
Proof.
  intros Hrun Ht (Hn & Hm & Hne) Hroute Hok. pose proof (serving_inv s0 Hdep s Hrun) as Hs.
  destruct (route_request_at logs request s) as (s2 & Hat & Hu). rewrite Hat, (route_cache_at _ _ _ _ _ Hn Hne) in Hroute.
  rewrite Hm, decide_False, decide_True in Hroute by done. unfold authorized in Hroute.
  destruct (authenticate_returns request MP_CACHE_ROLE_CLIENT (time_of s) s2) as (a & s3 & Ha & Hu2 & Hv).
  rewrite (bind_ret _ _ _ _ _ Ha) in Hroute. destruct a as [p|refused].
  2:{ injection Hroute as -> _. destruct Hv as [?|[?|[? _]]]; congruence. }
  pose proof (maybe_sweep_inv _ _ _ _ _ _ (time_of s) s Hs) as Hsw.
  pose proof (untouched_inv _ _ _ _ _ _ _ _ Hu2 (untouched_inv _ _ _ _ _ _ _ _ Hu Hsw)) as Hs3.
  destruct (put_stores s0 Hdep _ Ht key request s3 r s1 Hs3 Hroute Hok) as (value & ttl & Hdoc & Hsz & Hmap).
  exists value, ttl. split; [done|]. split; [done|]. pose proof Hdep as [Httl Hpaths Hapart Hmem _].
  destruct (cache_put_ok _ _ _ _ (time_of s) _ Ht Httl Hpaths Hmem Hapart key request s3 Hs3) as [Hinv _].
  rewrite Hroute in Hinv. cbn in Hinv. pose proof Hinv as [_ _ [Htime _] _]. rewrite Htime.
  split; [done|]. split; [done|]. by rewrite Hmap, (same_store _ _ Hu2), (same_store _ _ Hu).
Qed.
End Kept.

(** C6. A client reads back what it wrote. If a PUT of a key is answered 200, its
    document carried a value and a lifetime within the configured bounds. After
    it, let any connections be served whose requests do not write the key (no
    PUT or DELETE of it, no purge that covers it, no import), with sweeps, other
    GETs, failures of files and memory and the clock moving forward between
    them. Then, while memory lasts, the handler of a GET gives exactly that value as
    Base64 with its expiry time before the expiry, and 404 from the expiry on,
    whether or not the entry has been removed by then; and so does a whole GET
    request, unless its caller is refused (401, 403 or 429). *)
Theorem put_then_get s0 s logs request key r s1 :
  deployed s0 → serving s0 s → clock_sane (time_of s) → requests "PUT" key request →
  mp_cache_http_route_request logs request s = (Ret r, s1) → status_code r = 200 →
  ∃ value ttl, put_document s0 request value ttl ∧
    mp_cache_base64_decode (base64_encode_loop value) (zlen value) = Ret value ∧
  ∀ s2, unwritten key s1 s2 → heap_ok (heap_of s2) →
    let answer r2 := if decide (time_of s + ttl ≤ time_of s2) then status_code r2 = 404
                     else r2 = value_response key value (time_of s + ttl) in
    (∃ r2 s3, mp_cache_http_handle_cache_get key (time_of s2) s2 = (Ret r2, s3) ∧ answer r2) ∧
    ∀ logs2 get, requests "GET" key get →
      ∃ r2 s3, mp_cache_http_route_request logs2 get s2 = (Ret r2, s3) ∧ (refusal r2 ∨ answer r2).
Proof.
  intros Hdep Hrun Ht Hput Hroute Hok.
  destruct (put_request_binding s0 Hdep logs request key s r s1 Hrun Ht Hput Hroute Hok)
    as (value & ttl & Hdoc & Hsz & Hs1 & _ & Hm).
  exists value, ttl. split; [done|]. split.
  { pose proof (zlen_nonneg value). apply base64_decode_encoded; [|lia].
    destruct Hdoc as (b64 & _ & Hdec & _). by eapply base64_decode_wf. }
  intros s2 Hun Hh answer.
  destruct (unwritten_binding s0 Hdep key value (time_of s + ttl) s1 s2 Hs1) as [Hs2 Hb]; [|done|].
  { by rewrite Hm, lookup_insert_eq. }
  assert (∀ s', service_inv (hs_config s0) (hs_storage s0) (sv_store (service s0)) (sv_security (service s0)) (time_of s2)
      (w_pid (sv_world (service s0))) s' → binding_at key value (time_of s + ttl) (time_of s2) (sv_store (service s')) →
    heap_ok (heap_of s') → ∃ r2 s3, mp_cache_http_handle_cache_get key (time_of s2) s' = (Ret r2, s3) ∧ answer r2) as Hget.
  { intros s' Hinv' Hb' Hh'. pose proof (get_returns s0 _ key value _ s' Hinv' Hb' Hsz Hh') as Hg. unfold answer.
    case_decide; [exact Hg|]. destruct Hg as [s3 Hg]. eauto. }
  split; [by apply Hget|]. intros logs2 get (Hn & Hmeth & Hne).
  destruct (route_request_from logs2 get s2) as (s2' & -> & Hu & Hheap).
  rewrite (route_cache_at _ _ _ _ _ Hn Hne), Hmeth, decide_True by done.
  destruct (authorized_runs get (time_of s2) (mp_cache_http_handle_cache_get key (time_of s2)) s2') as (s4 & Hu4 & Hh4 & Hcase);
    [by rewrite Hheap|].
  destruct Hcase as [(r2 & -> & Hr)| ->]; [by eauto|].
  destruct (Hget s4) as (r2 & s3 & -> & Hr2); [| |done|by eauto].
  - refine (untouched_inv _ _ _ _ _ _ _ _ Hu4 (untouched_inv _ _ _ _ _ _ _ _ Hu _)). by apply maybe_sweep_inv.
  - rewrite (same_store _ _ Hu4), (same_store _ _ Hu). apply (binding_sweep key value _ (time_of s2) s2). split; [apply Hs2|done].
Qed.

(** ** What is acknowledged is on disk *)

(** Requests that are all answered without an internal error, with pauses in
    which only the clock, the allocator and the entropy source move. *)
Inductive acknowledged (s0 : mp_cache_http_server_t) : mp_cache_http_server_t → Prop :=
| acked_start : acknowledged s0 s0
| acked_request s logs request r s' :
    acknowledged s0 s → ¬ moves_state request → clock_sane (time_of s) →
    mp_cache_http_route_request logs request s = (Ret r, s') → status_code r ≠ 500 → acknowledged s0 s'
| acked_pause s w :
    acknowledged s0 s → w_disk w = disk_of s → w_pid w = w_pid (sv_world (service s)) → time_of s ≤ w_time w →
    acknowledged s0 (set_service s (set_world (service s) w)).

(** The disk holds what the service holds. *)
Definition saved (s0 s : mp_cache_http_server_t) : Prop :=
  durable (hs_storage s0) (sv_store (service s0)) (time_of s) s.

Lemma acknowledged_saved s0 s : deployed s0 → saved s0 s0 → acknowledged s0 s →
  service_inv (hs_config s0) (hs_storage s0) (sv_store (service s0)) (sv_security (service s0)) (time_of s)
    (w_pid (sv_world (service s0))) s ∧ saved s0 s.
Proof.
  intros Hdep Hsaved. pose proof Hdep as [Httl Hpaths Hapart Hmem Hdata].
  induction 1 as [|s logs request r s' Hrun [Hs Hd] Hno Ht Hroute Hok|s w Hrun [Hs Hd] Hdisk Hpid Hle].
  - split; [by split|done].
  - destruct (route_request_at logs request s) as (s1 & Heq & Hu). rewrite Hroute in Heq.
    pose proof (maybe_sweep_inv _ _ _ _ _ _ (time_of s) s Hs) as Hsw.
    pose proof (untouched_inv _ _ _ _ _ _ _ _ Hu Hsw) as Hs1.
    destruct (route_at_ok _ _ _ _ (time_of s) _ Ht Httl Hpaths Hmem Hapart logs request Hno s1 Hs1) as [Hinv Hdur].
    rewrite <-Heq in Hinv, Hdur. cbn in Hinv, Hdur. pose proof Hinv as [_ _ [Htime _] _].
    unfold saved. rewrite Htime. split; [done|]. apply (Hdur r); [done|done|].
    eapply untouched_durable; [exact Hu|]. unfold mp_cache_http_maybe_sweep. destruct (decide _); [|exact Hd].
    destruct Hd as [js Hc]. exists js. cbn. eapply covers_alive; [|exact Hc]. intros t' Ht'.
    pose proof Hs as [_ _ _ [Hst _ _ _ _ _]]. pose proof (purge_expired_outcome (sv_store (service s)) (time_of s) Hst) as Ho.
    destruct (mp_cache_store_purge_expired _ _) as [n store]. destruct Ho as (_ & _ & Hm & _). cbn. rewrite Hm.
    rewrite map_filter_filter. apply map_filter_ext. intros k v _. cbn. lia.
  - pose proof Hs as [? ? [? Hp] ?]. split.
    + split; try done. split; [done|]. cbn. by rewrite Hpid.
    + destruct Hd as [js Hc]. exists js. cbn. rewrite Hdisk. by eapply covers_later.
Qed.

(** C1. Acknowledged changes survive a restart. If a deployed server starts with a
    disk that holds its state and answers every request but export and import
    without an internal error, then after a crash at any moment the disk alone
    is enough: a new process with the same limits that loads it, before any of
    the journalled SETs since the last checkpoint has expired, gets exactly the
    unexpired entries and the client records the service had. *)
Theorem acknowledged_changes_survive s0 s :
  deployed s0 → saved s0 s0 → acknowledged s0 s → 0 ≤ time_of s →
  ∃ js, journal_holds (hs_storage s0) js (disk_of s) ∧
  ∀ t' v, time_of s ≤ t' → Forall (unexpired t') js →
    server_ok v → same_limits (sv_store (service s0)) (sv_store v) → w_disk (sv_world v) = Disk (disk_nodes (disk_of s)) [] →
    ∃ v', mp_cache_storage_load_state (hs_storage s0) t' v = (Ret tt, v') ∧
      store_map (sv_store v') = filter (fun kv => t' < kv.2.2) (map_of s) ∧
      records (sv_security v') = records_of s.
Proof.
  intros Hdep Hsaved Hack H0. destruct (acknowledged_saved s0 s Hdep Hsaved Hack) as [Hs [js Hc]].
  exists js. split.
  { destruct Hc as (? & ? & ? & _ & _ & _ & _ & _ & [[_ Hj]|(_ & _ & _ & Hj)] & _); exact Hj. }
  intros t' v Ht' Hjs Hv Hl Hd.
  assert (covers (hs_storage s0) (sv_store (service s0)) (time_of s) js (map_of s) (records_of s) (w_disk (sv_world v))) as Hcv.
  { rewrite Hd. exact Hc. }
  destruct (covers_load _ _ (dep_memory _ Hdep) _ _ _ _ t' v Hcv H0 Ht' Hjs Hv Hl ltac:(by rewrite Hd)) as (v' & H1 & _ & H2 & H3).
  by exists v'.
Qed.
End Runs.

(** ** Concrete runs *)

(** The sample service right after a checkpoint, and a PUT by the administrator. *)
Definition sample_at (w : world) : mp_cache_http_server_t :=
  set_service sample_server (Server w sample_store sample_registry).
Definition sample_running : mp_cache_http_server_t := sample_at sample_saved.
Definition sample_body : bytes := json "{'value_base64':'djI=','ttl_seconds':30}".
Definition sample_put : mp_cache_http_request_t :=
  Request (cstr "PUT") (cstr "/v1/cache/k") (cstr "/v1/cache/k") [] (cstr "Bearer s3cret") (zlen sample_body)
    sample_body (zlen sample_body).
Definition sample_reply : outcome mp_cache_http_response_t := Eval vm_compute in (mp_cache_http_route_request no_logs sample_put sample_running).1.
Definition sample_answer : mp_cache_http_response_t := Eval vm_compute in
  match sample_reply with Ret r => r | _ => Response 0 [] None None None end.

Lemma sample_at_deployed w : w_pid w = w_pid sample_world → deployed (sample_at w).
Proof.
  intros Hpid. split.
  - split; vm_compute; congruence.
  - cbn. rewrite Hpid. exact sample_paths_ok.
  - decide_now.
  - vm_compute. congruence.
  - split; [exact sample_store_wf|reflexivity|exact sample_expiry|exact sample_registry_wf|reflexivity..].
Qed.

Lemma sample_deployed : deployed sample_running.
Proof. exact (sample_at_deployed sample_saved eq_refl). Qed.

Lemma sample_at_saved plan (w := set_disk sample_saved (Disk (disk_nodes (w_disk sample_saved)) plan)) :
  saved (sample_at w) (sample_at w).
Proof.
  exists []. exact (covers_checkpoint sample_storage sample_store 110 sample_store sample_registry sample_world _
    sample_store_wf (reflexivity _) sample_expiry sample_registry_wf sample_paths_ok sample_checkpoint).
Qed.

Lemma sample_files : files_wf (disk_of sample_running).
Proof. apply files_wf_check. vm_compute. reflexivity. Qed.

Lemma sample_clock : clock_sane 110.
Proof. split; vm_compute; congruence. Qed.

(** The server after a connection that sends the same request in two pieces. *)
Definition sample_wire : bytes :=
  cstr "PUT /v1/cache/k HTTP/1.1" ++ [13; 10] ++ cstr "Authorization: Bearer s3cret" ++ [13; 10] ++
  cstr "Content-Length: 40" ++ [13; 10; 13; 10] ++ sample_body.
Definition sample_served : mp_cache_http_server_t :=
  (mp_cache_http_handle_client no_logs [RecvBytes (take 30 sample_wire); RecvBytes (drop 30 sample_wire)] [] sample_running).2.

Lemma service_invariant_witness :
  data_inv sample_store sample_registry (sv_store (service sample_served)) (sv_security (service sample_served)).
Proof.
  refine (proj2 (proj2 (service_invariant sample_running sample_served sample_deployed _))).
  exact (serving_connection _ _ _ _ _ (serving_start _) sample_files sample_clock).
Defined.

Lemma bootstrap_admin_keeps_access_witness :
  entitled (sv_security (service sample_served)) sample_put MP_CACHE_ROLE_ADMIN.
Proof.
  apply (bootstrap_admin_keeps_access sample_running sample_served sample_put (cstr "s3cret") sample_deployed).
  - exact (serving_connection _ _ _ _ _ (serving_start _) sample_files sample_clock).
  - vm_compute. reflexivity.
  - vm_compute. reflexivity.
  - vm_compute. reflexivity.
  - discriminate.
Defined.

(** The server after the PUT, after a connection that reads the key, and a while
    later, when the entry has expired. *)
Definition sample_stored : mp_cache_http_server_t := (mp_cache_http_route_request no_logs sample_put sample_running).2.
Definition sample_get_events : list recv_result :=
  [RecvBytes (cstr "GET /v1/cache/k HTTP/1.1" ++ [13; 10] ++ cstr "Authorization: Bearer s3cret" ++ [13; 10; 13; 10])].
Definition sample_get : mp_cache_http_request_t :=
  Request (cstr "GET") (cstr "/v1/cache/k") (cstr "/v1/cache/k") [] (cstr "Bearer s3cret") 0 [] 0.
Definition sample_read : mp_cache_http_server_t := (mp_cache_http_handle_client no_logs sample_get_events [] sample_stored).2.
Definition later (s : mp_cache_http_server_t) (t : Z) : mp_cache_http_server_t :=
  let w := sv_world (service s) in
  set_service s (set_world (service s) (World (w_heap w) (w_entropy w) (w_disk w) (w_pid w) t)).
Definition sample_later : mp_cache_http_server_t := later sample_read 200.

Lemma sample_put_requests : requests "PUT" (cstr "k") sample_put.
Proof. split; [|split; [reflexivity|discriminate]]. split; [reflexivity|]. by exists (cstr "k"). Qed.
Lemma sample_get_requests : requests "GET" (cstr "k") sample_get.
Proof. split; [|split; [reflexivity|discriminate]]. split; [reflexivity|]. by exists (cstr "k"). Qed.

Lemma sample_stored_world : time_of sample_stored = 110 ∧ heap_of sample_stored = [] ∧ files_wf (disk_of sample_stored).
Proof.
  split; [vm_compute; reflexivity|]. split; [vm_compute; reflexivity|]. apply files_wf_check. vm_compute. reflexivity.
Qed.
Lemma sample_read_world : time_of sample_read = 110 ∧ heap_of sample_read = [].
Proof. split; vm_compute; reflexivity. Qed.

Lemma sample_get_arrives : (mp_cache_http_read_request sample_get_events MP_CACHE_HTTP_REQUEST_CAPACITY []).1 = Ret sample_get.
Proof. vm_compute. reflexivity. Qed.

Lemma sample_get_writes_nothing : ¬ may_write (cstr "k") sample_get.
Proof. intros [[_ H]|[H|[H|[H _]]]]; [by apply H|discriminate H..]. Qed.

Lemma heap_outcome {A} (m : STE heap A) s o s' : in_service (in_world (in_heap m)) s = (o, s') → (m (heap_of s)).1 = o.
Proof. unfold in_service, in_world, in_heap, zoom. destruct (m (heap_of s)) as [o1 h]. by intros [= <- _]. Qed.

Lemma later_unwritten key s1 s t : unwritten key s1 s → time_of s ≤ t → unwritten key s1 (later s t).
Proof. intros Hs Ht. by apply unwritten_environment. Qed.
Lemma later_world s t : time_of (later s t) = t ∧ heap_of (later s t) = heap_of s.
Proof. done. Qed.

Lemma sample_later_unwritten : unwritten (cstr "k") sample_stored sample_later.
Proof.
  destruct sample_stored_world as (Ht & Hh & Hf). destruct sample_read_world as [Htr _].
  refine (later_unwritten _ _ sample_read 200 _ _); [|rewrite Htr; lia]. clear Htr.
  refine (unwritten_connection _ _ sample_stored no_logs sample_get_events [] (unwritten_start _ _) Hf _ _);
    [rewrite Ht; exact sample_clock|].
  intros request s' Hr%heap_outcome. rewrite Hh, sample_get_arrives in Hr. injection Hr as <-. exact sample_get_writes_nothing.
Qed.

Lemma sample_put_answered : (mp_cache_http_route_request no_logs sample_put sample_running).1 = Ret sample_answer.
Proof. vm_compute. reflexivity. Qed.

Lemma put_then_get_witness :
  ∃ value, (∃ r2 s3, mp_cache_http_handle_cache_get (cstr "k") 110 sample_stored = (Ret r2, s3) ∧
      r2 = value_response (cstr "k") value 140) ∧
    ∃ r2 s3, mp_cache_http_route_request no_logs sample_get sample_later = (Ret r2, s3) ∧ (refusal r2 ∨ status_code r2 = 404).
Proof.
  destruct (put_then_get sample_running sample_running no_logs sample_put (cstr "k") sample_answer sample_stored sample_deployed
    (serving_start _) sample_clock sample_put_requests) as (value & ttl & Hdoc & _ & Hget).
  - rewrite <-sample_put_answered. apply surjective_pairing.
  - reflexivity.
  - assert (ttl = 30) as ->.
    { destruct Hdoc as (b64 & _ & _ & Httl & _).
      assert (mp_cache_http_extract_json_u32 (request_body sample_put) (cstr "ttl_seconds") = Ret 30) as E by (vm_compute; reflexivity).
      rewrite E in Httl. injection Httl as <-. reflexivity. }
    destruct sample_stored_world as (Ht & Hh & _). destruct sample_read_world as [_ Hhr].
    change (time_of sample_running + 30) with 140 in Hget. exists value. split.
    + destruct (Hget sample_stored (unwritten_start _ _)) as [(r2 & s3 & Hrun & Hr2) _]; [rewrite Hh; constructor|].
      rewrite Ht in Hrun, Hr2. rewrite decide_False in Hr2 by lia. exists r2, s3. exact (conj Hrun Hr2).
    + destruct (Hget sample_later sample_later_unwritten) as [_ Hroute].
      { unfold sample_later. rewrite (proj2 (later_world sample_read 200)), Hhr. constructor. }
      destruct (Hroute no_logs sample_get sample_get_requests) as (r2 & s3 & Hrun & Hr2).
      unfold sample_later in Hr2. rewrite (proj1 (later_world sample_read 200)), decide_True in Hr2 by lia. exists r2, s3. exact (conj Hrun Hr2).
Defined.

(** The same server, on a disk whose next operation fails: the journal cannot be
    written and a checkpoint takes its place. *)
Definition sample_failing : mp_cache_http_server_t :=
  sample_at (set_disk sample_saved (Disk (disk_nodes (w_disk sample_saved)) [IoFail EIO])).
Definition sample_failed : mp_cache_http_server_t := (mp_cache_http_route_request no_logs sample_put sample_failing).2.
Definition sample_failed_world : world := Eval vm_compute in sv_world (service sample_failed).
Definition sample_recovered_world : world :=
  set_disk sample_failed_world (Disk (disk_nodes (w_disk sample_failed_world)) []).

Lemma sample_failed_leaves : sv_world (service sample_failed) = sample_failed_world.
Proof. vm_compute. reflexivity. Qed.

Lemma sample_failed_map : map_of sample_failed !! cstr "k" = Some (cstr "v2", 140).
Proof. vm_compute. reflexivity. Qed.

Lemma sample_failing_deployed : deployed sample_failing.
Proof. by apply sample_at_deployed. Qed.

Lemma sample_failing_reply : (mp_cache_http_route_request no_logs sample_put sample_failing).1 = Ret sample_answer.
Proof. vm_compute. reflexivity. Qed.

Lemma sample_failed_journal : file_at (w_disk sample_failed_world) (st_journal_path sample_storage) = None.
Proof. vm_compute. reflexivity. Qed.

Lemma acknowledged_changes_survive_witness :
  ∃ v', mp_cache_storage_load_state sample_storage 120 (restart sample_recovered_world) = (Ret tt, v') ∧
    store_map (sv_store v') !! cstr "k" = Some (cstr "v2", 140).
Proof.
  destruct (acknowledged_changes_survive sample_failing sample_failed sample_failing_deployed
    (sample_at_saved [IoFail EIO])) as (js & Hj & Hload).
  - refine (acked_request _ sample_failing no_logs sample_put sample_answer _ (acked_start _) _ sample_clock _ _).
    + intros [Hp|Hp]; revert Hp; vm_compute; discriminate.
    + rewrite <-sample_failing_reply. apply surjective_pairing.
    + discriminate.
  - rewrite sample_failed_leaves. vm_compute. congruence.
  - rewrite sample_failed_leaves in Hj, Hload. assert (js = []) as ->.
    { destruct Hj as (xs & _ & <- & [Hf|[_ ->]]); [|reflexivity].
      pose proof (eq_trans (eq_sym Hf) sample_failed_journal) as Hno. discriminate Hno. }
    destruct (Hload 120 (restart sample_recovered_world)) as (v' & Hrun & Hm & _).
    + vm_compute. congruence.
    + constructor.
    + apply restart_ok. reflexivity.
    + exact (sample_limits _).
    + reflexivity.
    + exists v'. split; [exact Hrun|]. rewrite Hm. apply map_lookup_filter_Some. split; [exact sample_failed_map|reflexivity].
Defined.
