(* ===== verification/Runtime.v ===== *)
(** * Runtime: internal/runtime/runtime.c, cmd/mp-cache-server/main.c

    The life of the server process: configuration, directories, logger, store,
    registry, storage, loading, serving until a signal, and the cleanup that
    every exit after the logger's start goes through. What the operating system
    decides is an argument. Log lines are left out. *)

From stdpp Require Import base numbers strings option gmap list.
From S2P Require Import Prelude Config Crypto Cache Security Fs CString ConfigFile Log HttpText StorageCodec Storage Persistence HttpServer ServiceAuth ServiceState ServiceHandlers Service.
Local Open Scope Z_scope.

(** ** The process *)

(** Secrets, the results of [signal], [socket], [bind] and [listen], the
    connections until a signal sets the stop flag, and the time of [time (NULL)]
    in the cleanup. *)
Record runtime_env := RuntimeEnv {
  env_host : secret_host;
  env_sigint_ok : bool;
  env_sigterm_ok : bool;
  env_socket_ok : bool;
  env_bind_ok : bool;
  env_listen_ok : bool;
  env_events : list serve_event;
  env_stopped_at : Z;
}.

Section Process.
Context {EC : EnvelopeCrypto} {LG : Logger} (env : runtime_env).

Definition mp_cache_runtime_register_signals : bool := env_sigint_ok env && env_sigterm_ok env.

(** The loop from the pid file to the stop flag, and closing the socket. *)
Definition runtime_serve (config : mp_cache_config_t) : HTTP Z :=
  pid ← in_service (in_world getpid);
  written ← succeeds (in_service (in_world (in_disk (mp_cache_fs_write_pid_file (Some (text config pid_file_path)) pid))));
  code ← (if negb written then mret 1 else
          served ← succeeds (mp_cache_http_server_serve (env_events env));
          mret (if (served : bool) then 0 else 1));
  _ ← mp_cache_http_server_stop;
  mret code.

(** The part of the cleanup that can be observed: the exit code and whether the
    final checkpoint was written. *)
Definition runtime_cleanup (config : mp_cache_config_t) (storage : option mp_cache_storage_t) : STE server bool :=
  _ ← succeeds (in_world (in_disk (mp_cache_fs_remove_path_if_exists (Some (text config pid_file_path)))));
  match storage with
  | None => mret false
  | Some storage => succeeds (checkpoint_service storage (env_stopped_at env))
  end.

(** The server object lives until the cleanup. *)
Definition run_http {A} (http : mp_cache_http_server_t) (m : HTTP A) : STE server A := fun v =>
  let '(o, s) := m (set_service http v) in (o, service s).

(** From loading the state to the exit, with everything but the server started. *)
Definition runtime_service (config : mp_cache_config_t) (storage : mp_cache_storage_t) (started_at_utc : Z)
    : STE server (Z * bool) :=
  loaded ← succeeds (mp_cache_storage_load_state storage started_at_utc);
  code ← (if negb loaded then mret 1
          else if negb mp_cache_runtime_register_signals then mret 1 else
          (started ← attempt (mp_cache_http_server_start config storage started_at_utc
                               (env_socket_ok env) (env_bind_ok env) (env_listen_ok env));
          match started with
          | Ret http => run_http http (runtime_serve config)
          | Fail _ => mret 1
          | Stuck => lift Stuck
          end));
  saved ← runtime_cleanup config (Some storage);
  mret (code, saved).

(** The five directories, in the order of the [||]. *)
Definition prepare_directories (config : mp_cache_config_t) : STE disk unit :=
  _ ← mp_cache_fs_ensure_directory (Some (text config log_directory));
  _ ← mp_cache_fs_ensure_directory (Some (text config data_directory));
  _ ← mp_cache_fs_ensure_directory (Some (text config export_directory));
  _ ← mp_cache_fs_ensure_parent_directory (Some (text config socket_path));
  mp_cache_fs_ensure_parent_directory (Some (text config pid_file_path)).

(** A [goto cleanup] before the storage is started. *)
Definition runtime_abandon (config : mp_cache_config_t) : STE world Z :=
  _ ← succeeds (in_disk (mp_cache_fs_remove_path_if_exists (Some (text config pid_file_path))));
  mret 1.

(** Code that works on the store and the registry of the process, which are
    destroyed at its end. *)
Definition with_objects {A} (store : mp_cache_store_t) (security : mp_cache_security_t) (m : STE server A) : STE world A :=
  fun w => let '(o, v) := m (Server w store security) in (o, sv_world v).

(** The components in the order of the code. *)
Definition runtime_components (config : mp_cache_config_t) (started_at_utc : Z) : STE world Z :=
  store ← in_heap (run (mp_cache_store_init config));
  match store with
  | None => runtime_abandon config
  | Some store =>
    match mp_cache_security_init (env_host env) config with
    | Ret security =>
      match mp_cache_storage_init (env_host env) config with
      | Ret storage => with_objects store security (r ← runtime_service config storage started_at_utc; mret r.1)
      | Fail _ => runtime_abandon config
      | Stuck => lift Stuck
      end
    | Fail _ => runtime_abandon config
    | Stuck => lift Stuck
    end
  end.

(** The exit code and what is written to the standard output. *)
Definition mp_cache_runtime_run (config_path : option bytes) (print_config_only : bool) : STE world (Z * bytes) :=
  started_at_utc ← time_now;
  match config_path with
  | None | Some [] => mret (1, [])
  | Some path =>
    '(status, config) ← in_disk (run (mp_cache_config_load_file (Some path) mp_cache_config_init_defaults));
    if decide (status ≠ MP_CACHE_CONFIG_STATUS_OK ∧ status ≠ MP_CACHE_CONFIG_STATUS_NOT_FOUND) then mret (1, []) else
    _ ← (if decide (status = MP_CACHE_CONFIG_STATUS_NOT_FOUND)
         then in_disk (run (mp_cache_config_write_template (Some path) config))
         else mret MP_CACHE_CONFIG_STATUS_OK);
    if print_config_only then mret (0, mp_cache_config_print config (Some path)) else
    ready ← succeeds (in_disk (prepare_directories config));
    if negb ready then mret (1, []) else
    match mp_cache_log_init config with
    | None => mret (1, [])
    | Some _ => code ← runtime_components config started_at_utc; mret (code, [])
    end
  end.
End Process.

(** *** The command line *)

(** What the arguments of mp-cache-server ask for. *)
Inductive server_command :=
| ServerUsage (code : Z)
| ServerRun (config_path : bytes) (print_config_only : bool).

Fixpoint server_arguments (args : list bytes) (config_path : bytes) (print_config_only : bool) : server_command :=
  match args with
  | [] => ServerRun config_path print_config_only
  | arg :: args' =>
    if decide (arg = cstr "--config") then
      match args' with
      | [] => ServerUsage 1
      | path :: args'' => server_arguments args'' path print_config_only
      end
    else if decide (arg = cstr "--print-config") then server_arguments args' config_path true
    else if decide (arg = cstr "--help" ∨ arg = cstr "-h") then ServerUsage 0
    else ServerUsage 1
  end.

Definition server_usage : bytes :=
  cstr "usage: mp-cache-server [--config <path>] [--print-config]" ++ [10] ++
  cstr "default config path: configs/bootstrap.yaml" ++ [10].

Definition server_main {EC : EnvelopeCrypto} {LG : Logger} (env : runtime_env) (args : list bytes) : STE world (Z * bytes) :=
  match server_arguments args (cstr "configs/bootstrap.yaml") false with
  | ServerUsage code => mret (code, if decide (code = 0) then server_usage else [])
  | ServerRun config_path print_config_only => mp_cache_runtime_run env (Some config_path) print_config_only
  end.

(** ** The final checkpoint *)

Section Shutdown.
Context {EC : EnvelopeCrypto} {LG : Logger} (env : runtime_env) (config : mp_cache_config_t) (storage : mp_cache_storage_t).

(** What the next process finds on the disk: [v2] loads the entries [m] that
    have not expired and the records [rs]. *)
Definition next_load (store0 : mp_cache_store_t) (d : disk) (m : gmap bytes (bytes * Z))
    (rs : list mp_cache_client_record_t) : Prop :=
  ∀ t' v2, env_stopped_at env ≤ t' → server_ok v2 → same_limits store0 (sv_store v2) →
    w_disk (sv_world v2) = Disk (disk_nodes d) [] →
    ∃ v3, mp_cache_storage_load_state storage t' v2 = (Ret tt, v3) ∧
      store_map (sv_store v3) = filter (fun kv => t' < kv.2.2) m ∧ records (sv_security v3) = rs.

Lemma cleanup_saves store0 v v' :
  store_memory_limit store0 ≤ 2 ^ 31 → same_limits store0 (sv_store v) → 0 ≤ env_stopped_at env →
  store_wf (sv_store v) → expiry_ok (sv_store v) → security_wf (sv_security v) →
  paths_ok storage (w_pid (sv_world v)) →
  runtime_cleanup env config (Some storage) v = (Ret true, v') →
  next_load store0 (w_disk (sv_world v')) (store_map (sv_store v)) (records (sv_security v)).
Proof.
  intros Hmem Hl H0 Hst He Hsec Hp Hrun t' v2 Ht Hv2 Hl2 Hd.
  unfold runtime_cleanup, mbind, STE_bind in Hrun.
  set (rm := in_disk (mp_cache_fs_remove_path_if_exists (Some (text config pid_file_path)))) in Hrun.
  pose proof (clock_disk (w_time (sv_world v)) (w_pid (sv_world v))
    (mp_cache_fs_remove_path_if_exists (Some (text config pid_file_path))) (sv_world v) (conj eq_refl eq_refl)) as [_ Hpid].
  fold rm in Hpid. unfold succeeds at 1, in_world at 1, zoom at 1 in Hrun. destruct (rm (sv_world v)) as [o w1]. cbn in Hpid.
  assert (succeeds (checkpoint_service storage (env_stopped_at env)) (set_world v w1) = (Ret true, v')) as Hck
    by (by destruct o; [| |done]). clear Hrun.
  unfold succeeds, checkpoint_service, in_world, zoom in Hck. cbn in Hck.
  destruct (mp_cache_storage_checkpoint storage (sv_store v) (sv_security v) (env_stopped_at env) w1) as [[[]|e|] w2] eqn:Hc; [|done..].
  injection Hck as <-. rewrite <-Hpid in Hp.
  pose proof (covers_checkpoint storage store0 _ _ _ _ _ Hst Hl He Hsec Hp Hc) as Hcov.
  assert (covers storage store0 (env_stopped_at env) [] (store_map (sv_store v)) (records (sv_security v)) (w_disk (sv_world v2))) as Hcv.
  { rewrite Hd. exact Hcov. }
  destruct (covers_load storage store0 Hmem _ _ _ _ t' v2 Hcv H0 Ht ltac:(constructor) Hv2 Hl2 ltac:(by rewrite Hd))
    as (v3 & Hload & _ & Hm & Hr). by exists v3.
Qed.

(** C14. A start that cannot read the checkpoint erases the state. When the file is
    there but is not accepted (another storage key, a damaged file, a read
    error), the process exits with code 1; but its cleanup still writes a
    checkpoint, and when that succeeds what the disk held is gone: the next
    process loads an empty cache and no clients. *)
Theorem failed_load_erases_state started_at_utc v e w1 code saved v' :
  server_ok v → store_memory_limit (sv_store v) ≤ 2 ^ 31 → 0 ≤ env_stopped_at env →
  paths_ok storage (w_pid (sv_world v)) →
  mp_cache_storage_read_packet_file storage (st_checkpoint_path storage) MP_CACHE_STORAGE_STATE_MAGIC (sv_world v) =
    (Fail e, w1) →
  runtime_service env config storage started_at_utc v = (Ret (code, saved), v') →
  code = 1 ∧ (saved = true → next_load (sv_store v) (w_disk (sv_world v')) ∅ []).
Proof.
  intros [[Hst Hsec] _] Hmem H0 Hp Hread Hrun.
  destruct (clear_outcome (sv_store v) Hst) as (Hst1 & Hl1 & Hm1).
  set (v1 := Server (sv_world v) (mp_cache_store_clear (sv_store v)) (mp_cache_security_clear_clients (sv_security v))).
  assert (succeeds (mp_cache_storage_load_state storage started_at_utc) v = (Ret false, set_world v1 w1)) as Hload.
  { unfold succeeds, mp_cache_storage_load_state. rewrite (bind_ret clear_service _ v tt v1 eq_refl).
    rewrite (bind_fail _ _ _ _ _ (in_world_eq _ v1 _ _ Hread)). done. }
  unfold runtime_service in Hrun. rewrite (bind_ret _ _ _ _ _ Hload) in Hrun. cbv beta iota in Hrun. cbn [negb] in Hrun.
  rewrite (bind_ret (mret 1) _ (set_world v1 w1) 1 (set_world v1 w1) eq_refl) in Hrun.
  unfold mbind, STE_bind in Hrun.
  destruct (runtime_cleanup env config (Some storage) (set_world v1 w1)) as [[b|e'|] v2] eqn:Hc; [|done..].
  injection Hrun as <- <- <-. split; [done|]. intros ->.
  pose proof (clock_read_packet (w_time (sv_world v)) (w_pid (sv_world v)) storage (st_checkpoint_path storage)
    MP_CACHE_STORAGE_STATE_MAGIC (sv_world v) (conj eq_refl eq_refl)) as [_ Hpid]. rewrite Hread in Hpid. cbn in Hpid.
  rewrite <-Hm1. change [] with (records (sv_security (set_world v1 w1))).
  apply (cleanup_saves (sv_store v) (set_world v1 w1)); try done.
  - apply expiry_ok_map; [done|].
    change (expiry_map (store_map (mp_cache_store_clear (sv_store v)))). rewrite Hm1. apply map_Forall_empty.
  - by apply clear_clients_wf.
  - cbn. by rewrite Hpid.
Qed.

(** *** Serving to the end *)

(** Files hold bytes and the clock is sane whenever a connection is served. *)
Fixpoint environment_sane (events : list serve_event) (s : mp_cache_http_server_t) : Prop :=
  match events with
  | Accepted at_time logs received sends :: events' =>
    let s1 := (set_time at_time s).2 in
    clock_sane at_time ∧ files_wf (w_disk (sv_world (service s1))) ∧
    environment_sane events' (mp_cache_http_handle_client logs received sends s1).2
  | _ :: events' => environment_sane events' s
  | [] => True
  end.

Lemma serve_serving s0 events s sent s' :
  serving s0 s → environment_sane events s → mp_cache_http_server_serve events s = (Ret sent, s') → serving s0 s'.
Proof.
  revert s sent. induction events as [|event events IH]; intros s sent Hrun Hsane Hserve; [by injection Hserve as _ <-|].
  destruct event as [[]| |[]|at_time logs received sends]; cbn [mp_cache_http_server_serve environment_sane] in *;
    try discriminate Hserve; try (by eapply IH).
  destruct Hsane as (Ht & Hf & Hsane). set (s1 := (set_time at_time s).2) in *.
  rewrite (bind_ret (set_time at_time) _ s tt s1 eq_refl) in Hserve. unfold mbind at 1, STE_bind at 1 in Hserve.
  assert (serving s0 s1) as Hrun1 by (exact (serving_environment s0 s (sv_world (service s1)) Hrun eq_refl)).
  pose proof (serving_connection s0 s1 logs received sends Hrun1 Hf Ht) as Hrun2.
  destruct (mp_cache_http_handle_client logs received sends s1) as [[x|e|] s2]; [|done..]. cbn in Hrun2, Hsane.
  unfold mbind, STE_bind in Hserve.
  destruct (mp_cache_http_server_serve events s2) as [[rest|e|] s3] eqn:Hrest; [|done..].
  injection Hserve as _ <-. by eapply IH.
Qed.

(** [s'] differs from [s] in the disk, the allocator and the like at most. *)
Record same_objects (s s' : mp_cache_http_server_t) : Prop := {
  obj_config : hs_config s' = hs_config s;
  obj_storage : hs_storage s' = hs_storage s;
  obj_store : sv_store (service s') = sv_store (service s);
  obj_security : sv_security (service s') = sv_security (service s);
  obj_pid : w_pid (sv_world (service s')) = w_pid (sv_world (service s));
}.

#[local] Instance same_objects_preorder : PreOrder same_objects.
Proof. split; [by split|]. intros s1 s2 s3 [] []. split; congruence. Qed.

Lemma disk_same_objects {A} (m : STE disk A) s : same_objects s (in_service (in_world (in_disk m)) s).2.
Proof. unfold in_service, in_world, in_disk, zoom. by destruct (m _). Qed.

Lemma succeeds_state {S A} (m : STE S A) s : (succeeds m s).2 = (m s).2.
Proof. unfold succeeds. by destruct (m s) as [[]]. Qed.

Lemma stop_same_objects s o s' : mp_cache_http_server_stop s = (o, s') → same_objects s s'.
Proof.
  unfold mp_cache_http_server_stop. rewrite (bind_ret (put_limiter _) _ s tt (set_limiter s (RateLimiter [] 0)) eq_refl).
  set (s1 := set_limiter s _). rewrite (bind_ret get_server _ s1 s1 s1 eq_refl).
  assert (same_objects s s1) as H1 by done. destruct (decide _); [by intros [= _ <-]|].
  unfold mbind, STE_bind, attempt.
  pose proof (disk_same_objects (mp_cache_fs_remove_path_if_exists (Some (text (hs_config s1) socket_path))) s1) as H2.
  destruct (in_service _ s1) as [o' s2]. intros [= _ <-]. by etrans.
Qed.

(** The server when the serving loop starts: the pid file is written. *)
Definition ready (s : mp_cache_http_server_t) : mp_cache_http_server_t :=
  (in_service (in_world (in_disk (mp_cache_fs_write_pid_file (Some (text config pid_file_path))
    (w_pid (sv_world (service s)))))) s).2.

Lemma ready_same_objects s : same_objects s (ready s).
Proof. apply disk_same_objects. Qed.

Lemma serve_to_end s s' : runtime_serve env config s = (Ret 0, s') →
  ∃ sent s2, mp_cache_http_server_serve (env_events env) (ready s) = (Ret sent, s2) ∧ same_objects s2 s'.
Proof.
  unfold runtime_serve. set (pid := w_pid (sv_world (service s))).
  assert (in_service (in_world getpid) s = (Ret pid, s)) as Hpid by (by destruct s as [? ? ? ? ? ? []]).
  rewrite (bind_ret _ _ _ _ _ Hpid). unfold mbind at 1, STE_bind at 1.
  set (m := in_service (in_world (in_disk (mp_cache_fs_write_pid_file _ pid)))).
  pose proof (succeeds_state m s) as Hs1. change (m s).2 with (ready s) in Hs1.
  destruct (succeeds m s) as [[written|e|] s1]; [|done..]. cbn in Hs1. subst s1. intros Hrun.
  destruct written; cbn [negb] in Hrun.
  2:{ rewrite (bind_ret (mret 1) _ (ready s) 1 (ready s) eq_refl) in Hrun. unfold mbind, STE_bind in Hrun.
      destruct (mp_cache_http_server_stop (ready s)) as [[]]; done. }
  unfold mbind, STE_bind, succeeds in Hrun.
  destruct (mp_cache_http_server_serve (env_events env) (ready s)) as [[sent|e|] s2] eqn:Hserve; cbn in Hrun; [| |done].
  - destruct (mp_cache_http_server_stop s2) as [[[]|e|] s3] eqn:Hstop; [|done..]. injection Hrun as <-.
    exists sent, s2. split; [done|]. by eapply stop_same_objects.
  - destruct (mp_cache_http_server_stop s2) as [[]]; done.
Qed.

(** The server a start hands over. *)
Lemma start_hands_over started_at_utc v http v1 :
  mp_cache_http_server_start config storage started_at_utc (env_socket_ok env) (env_bind_ok env) (env_listen_ok env) v =
    (Ret http, v1) →
  hs_config http = config ∧ hs_storage http = storage ∧ sv_store v1 = sv_store v ∧ sv_security v1 = sv_security v ∧
  w_pid (sv_world v1) = w_pid (sv_world v).
Proof.
  unfold mp_cache_http_server_start, mbind, STE_bind, in_world, in_disk, zoom.
  destruct (mp_cache_fs_ensure_parent_directory _ _) as [[[]|e|] d1]; [|done..].
  destruct (mp_cache_fs_remove_path_if_exists _ _) as [[[]|e|] d2]; [|done..].
  destruct (env_socket_ok env); [|done]. cbn [negb]. case_decide; [done|].
  destruct (env_bind_ok env), (env_listen_ok env); cbn [negb]; try done. by intros [= <- <-].
Qed.

(** C10. A clean shutdown saves everything. When the process ends with exit code 0 it
    has loaded the disk, started the server and served until the stop flag was
    set; and if the final checkpoint was written, whatever the connections did,
    the next process with the same limits and key loads exactly the unexpired
    entries and the client records the service had at the end. *)
Theorem clean_shutdown_saves started_at_utc v saved v' :
  runtime_service env config storage started_at_utc v = (Ret (0, saved), v') →
  ∃ v1 http v2 sent s2, mp_cache_storage_load_state storage started_at_utc v = (Ret tt, v1) ∧
    mp_cache_http_server_start config storage started_at_utc (env_socket_ok env) (env_bind_ok env) (env_listen_ok env) v1 =
      (Ret http, v2) ∧
    let s1 := ready (set_service http v2) in
    mp_cache_http_server_serve (env_events env) s1 = (Ret sent, s2) ∧
    (saved = true → deployed s1 → environment_sane (env_events env) s1 → 0 ≤ env_stopped_at env →
     next_load (sv_store v1) (w_disk (sv_world v')) (store_map (sv_store (service s2)))
       (records (sv_security (service s2)))).
Proof.
  unfold runtime_service, mbind, STE_bind. intros Hrun. unfold succeeds at 1 in Hrun.
  destruct (mp_cache_storage_load_state storage started_at_utc v) as [[[]|e|] v1] eqn:Hload; cbn [negb] in Hrun; [| |done].
  2:{ cbn [mret STE_ret] in Hrun. by destruct (runtime_cleanup _ _ _ _) as [[]]. }
  destruct (mp_cache_runtime_register_signals env); cbn [negb] in Hrun.
  2:{ cbn [mret STE_ret] in Hrun. by destruct (runtime_cleanup _ _ _ _) as [[]]. }
  unfold attempt in Hrun.
  destruct (mp_cache_http_server_start config storage started_at_utc _ _ _ v1) as [[http|e|] v2] eqn:Hstart; [| |done].
  2:{ cbn [mret STE_ret] in Hrun. by destruct (runtime_cleanup _ _ _ _) as [[]]. }
  destruct (start_hands_over _ _ _ _ Hstart) as (Hcfg & Hsto & Hst & Hsec & Hpid). unfold run_http in Hrun.
  destruct (runtime_serve env config (set_service http v2)) as [[code|e|] s3] eqn:Hserve; [|done..].
  destruct (runtime_cleanup env config (Some storage) (service s3)) as [[b|e|] v4] eqn:Hclean; [|done..].
  cbn in Hrun. injection Hrun as -> <- <-.
  destruct (serve_to_end _ _ Hserve) as (sent & s2 & Hrun & H2). set (s1 := ready (set_service http v2)) in *.
  exists v1, http, v2, sent, s2. split; [done|]. split; [done|]. split; [done|].
  intros -> Hdep Hsane H0. pose proof (serve_serving s1 _ s1 sent s2 (serving_start s1) Hsane Hrun) as Hserving.
  pose proof (serving_inv s1 Hdep s2 Hserving) as [_ _ [_ Hp2] Hinv].
  destruct (ready_same_objects (set_service http v2)) as [E1 E2 E3 E4 E5]. fold s1 in E1, E2, E3, E4, E5. cbn in E1, E2, E3, E4, E5.
  destruct H2 as [F1 F2 F3 F4 F5]. rewrite <-F3, <-F4, <-Hst, <-E3.
  eapply cleanup_saves; [apply (dep_memory _ Hdep)| |done| | | | |exact Hclean]; rewrite ?F3, ?F4, ?F5.
  - apply (inv_limits _ _ _ _ Hinv).
  - apply (inv_store _ _ _ _ Hinv).
  - apply (inv_expiry _ _ _ _ Hinv).
  - apply (inv_security _ _ _ _ Hinv).
  - rewrite Hp2. pose proof (dep_paths _ Hdep) as Hpaths. replace storage with (hs_storage s1) by (etrans; [exact E2|done]).
    exact Hpaths.
Qed.
End Shutdown.

(** ** Concrete runs *)

(** One PUT, then a signal. *)
Definition sample_env : runtime_env :=
  RuntimeEnv sample_host true true true true true
    [PollQuiet; Accepted 116 no_logs [RecvBytes sample_wire] []; PollError true] 118.

(** The storage of a process that was given another key. *)
Definition sample_other_storage : mp_cache_storage_t := Eval vm_compute in
  Storage (cstr "/d/cp") (cstr "/d/j") (cstr "/d/x") (mp_cache_sha256 (cstr "other")) 4096 2.
Definition sample_refused : server := restart sample_saved.
Definition sample_erased : server := Eval vm_compute in
  (runtime_service sample_env sample_server_config sample_other_storage 115 sample_refused).2.
Definition sample_refused_disk : disk := w_disk (sv_world sample_erased).

Lemma sample_refused_run :
  runtime_service sample_env sample_server_config sample_other_storage 115 sample_refused = (Ret (1, true), sample_erased).
Proof. vm_compute. reflexivity. Qed.

Lemma failed_load_erases_state_witness :
  ∃ v3, mp_cache_storage_load_state sample_other_storage 120
      (restart (set_disk sample_saved (Disk (disk_nodes sample_refused_disk) []))) = (Ret tt, v3) ∧
    store_map (sv_store v3) = ∅.
Proof.
  destruct (failed_load_erases_state sample_env sample_server_config sample_other_storage 115 sample_refused EACCES
    (mp_cache_storage_read_packet_file sample_other_storage (cstr "/d/cp") MP_CACHE_STORAGE_STATE_MAGIC sample_saved).2
    1 true sample_erased) as [_ Hload].
  - apply restart_ok. reflexivity.
  - vm_compute. congruence.
  - vm_compute. congruence.
  - decide_now.
  - vm_compute. reflexivity.
  - exact sample_refused_run.
  - destruct (Hload eq_refl 120 (restart (set_disk sample_saved (Disk (disk_nodes sample_refused_disk) [])))) as (v3 & Hrun & Hm & _).
    + vm_compute. congruence.
    + apply restart_ok. reflexivity.
    + exact (sample_limits _).
    + reflexivity.
    + exists v3. split; [exact Hrun|exact Hm].
Defined.

(** The right key does not help afterwards. *)
Example wrong_key_is_fatal :
  store_map sample_store !! cstr "user" = Some (cstr "ada", 130) ∧
  (mp_cache_storage_load_state sample_storage 116 (restart sample_saved)).1 = Ret tt ∧
  (mp_cache_storage_load_state sample_storage 120
     (restart (set_disk sample_saved (Disk (disk_nodes sample_refused_disk) [])))).1 = Fail EACCES.
Proof. vm_compute. auto. Qed.

Lemma ret_eq {S A} (a a' : A) (s s' : S) : (Ret a, s) = (Ret a', s') → a' = a ∧ s' = s.
Proof. by intros [= -> ->]. Qed.

(** A run that ends cleanly. *)
Definition sample_clean : server := Eval vm_compute in
  (runtime_service sample_env sample_server_config sample_storage 115 (restart sample_saved)).2.
Definition sample_clean_disk : disk := w_disk (sv_world sample_clean).
Lemma sample_clean_run :
  runtime_service sample_env sample_server_config sample_storage 115 (restart sample_saved) = (Ret (0, true), sample_clean).
Proof. vm_compute. reflexivity. Qed.
Definition sample_loaded_server : server := Eval vm_compute in
  (mp_cache_storage_load_state sample_storage 115 (restart sample_saved)).2.
Lemma sample_load : mp_cache_storage_load_state sample_storage 115 (restart sample_saved) = (Ret tt, sample_loaded_server).
Proof. vm_compute. reflexivity. Qed.
Definition sample_start :=
  mp_cache_http_server_start sample_server_config sample_storage 115 true true true sample_loaded_server.
Definition sample_http : mp_cache_http_server_t :=
  HttpServer 115 115 sample_server_config sample_storage (RateLimiter [] 0) (fun _ => 0) sample_start.2.
Definition sample_ready : mp_cache_http_server_t := ready sample_server_config sample_http.
Definition sample_ended : mp_cache_http_server_t := (mp_cache_http_server_serve (env_events sample_env) sample_ready).2.

Lemma sample_ended_map : store_map (sv_store (service sample_ended)) !! cstr "k" = Some (cstr "v2", 146).
Proof. vm_compute. reflexivity. Qed.

Lemma sample_start_ok : sample_start = (Ret sample_http, sample_start.2).
Proof. vm_compute. reflexivity. Qed.

Lemma sample_http_same : set_service sample_http sample_start.2 = sample_http.
Proof. unfold sample_http. reflexivity. Qed.

Lemma sample_loaded_ok : server_ok sample_loaded_server.
Proof.
  destruct (covers_load sample_storage sample_store ltac:(vm_compute; congruence) 110 [] (store_map sample_store)
    (records sample_registry) 115 (restart sample_saved)) as (v' & Hload & Hok & _).
  - exact (covers_checkpoint sample_storage sample_store 110 sample_store sample_registry sample_world _ sample_store_wf
      (reflexivity _) sample_expiry sample_registry_wf sample_paths_ok sample_checkpoint).
  - lia.
  - lia.
  - constructor.
  - apply restart_ok. reflexivity.
  - exact (sample_limits _).
  - reflexivity.
  - rewrite sample_load in Hload. apply ret_eq in Hload as [_ ->]. exact Hok.
Qed.

Lemma sample_ready_deployed : deployed sample_ready.
Proof.
  destruct (ready_same_objects sample_server_config sample_http) as [E1 E2 E3 E4 E5].
  fold sample_ready in E1, E2, E3, E4, E5. destruct sample_loaded_ok as [[Hst Hsec] _]. split.
  - rewrite E1. split; vm_compute; congruence.
  - rewrite E2, E5. exact sample_paths_ok.
  - rewrite E2. decide_now.
  - rewrite E3. vm_compute. congruence.
  - rewrite E3, E4. split; [exact Hst|reflexivity| |exact Hsec|reflexivity..].
    unfold expiry_ok. decide_now.
Qed.

Lemma sample_sane : environment_sane (env_events sample_env) sample_ready.
Proof.
  assert (clock_sane 116) as Ht by (split; vm_compute; congruence).
  assert (files_wf (w_disk (sv_world (service (set_time 116 sample_ready).2)))) as Hf
    by (apply files_wf_check; vm_compute; reflexivity).
  exact (conj Ht (conj Hf I)).
Qed.

Lemma clean_shutdown_saves_witness :
  ∃ v3, mp_cache_storage_load_state sample_storage 120
      (restart (set_disk sample_saved (Disk (disk_nodes sample_clean_disk) []))) = (Ret tt, v3) ∧
    store_map (sv_store v3) !! cstr "k" = Some (cstr "v2", 146).
Proof.
  destruct (clean_shutdown_saves sample_env sample_server_config sample_storage 115 (restart sample_saved) true
    sample_clean)
    as (v1 & http & v2 & sent & s2 & Hload & Hstart & Hserve & Hnext).
  - exact sample_clean_run.
  - rewrite sample_load in Hload. apply ret_eq in Hload as [_ ->].
    change (sample_start = (Ret http, v2)) in Hstart. rewrite sample_start_ok in Hstart. apply ret_eq in Hstart as [-> ->].
    rewrite sample_http_same in Hserve, Hnext.
    assert (s2 = sample_ended) as -> by (unfold sample_ended, sample_ready; by rewrite Hserve).
    destruct (Hnext eq_refl sample_ready_deployed sample_sane ltac:(vm_compute; congruence) 120
      (restart (set_disk sample_saved (Disk (disk_nodes sample_clean_disk) [])))) as (v3 & Hrun & Hm & _).
    + vm_compute. congruence.
    + apply restart_ok. reflexivity.
    + vm_compute. repeat split.
    + reflexivity.
    + exists v3. split; [exact Hrun|]. rewrite Hm. apply map_lookup_filter_Some. split; [exact sample_ended_map|reflexivity].
Defined.
