(* ===== verification/Ctl.v ===== *)
(** * Ctl: the control program, cmd/mp-cachectl/main.c

    The options and commands of mp-cachectl, the HTTP request each command
    sends, and the exit code. Every document the program builds is shown to be
    read by the server's handlers as the arguments of the command, and a [set]
    is followed from the command line into the hash table of the server. *)

From stdpp Require Import base numbers strings option gmap list.
From S2P Require Import Prelude Config Crypto Cache Security Fs CString Log HttpText StorageCodec Storage Persistence HttpServer ServiceAuth ServiceWire ServiceState ServiceHandlers ServiceBindings Service.
Local Open Scope Z_scope.

(** ** Request documents *)

(** The same escaping as in the server, on a buffer of six bytes per character
    and one for the NUL; a write past it would be [Stuck]. *)
Definition mp_cachectl_escape_json (json_text : bytes) : STE heap bytes := fun h =>
  let capacity := u64 (zlen json_text * MP_CACHE_JSON_ESCAPE_EXPANSION + 1) in
  let '(ok, h') := alloc h in
  let escaped := mjoin (escape_char <$> json_text) in
  if (ok : bool) then
    if decide (capacity < zlen escaped + 1) then (Stuck, h') else (Ret escaped, h')
  else (Fail ENOMEM, h').

(** What the program does with its arguments: print the usage, report that the
    request could not be built, or send a request. *)
Inductive ctl_action :=
| CtlUsage
| CtlError (message : bytes)
| CtlHealth
| CtlSend (method path : bytes) (body : option bytes).

Definition build_failed : ctl_action := CtlError (cstr "error: failed to build request body" ++ [10]).
Definition encode_failed : ctl_action := CtlError (cstr "error: failed to encode value" ++ [10]).

Definition INT_MAX : Z := 2 ^ 31 - 1.

(** [snprintf (NULL, 0, ...)], [malloc] of the length and one, [snprintf]. A text
    longer than an [int] would leave the allocated block unwritten. *)
Definition print_allocated (text : bytes) : STE heap (option bytes) :=
  ok ← run alloc;
  if negb ok then mret None
  else if decide (INT_MAX < zlen text) then lift Stuck
  else mret (Some text).

(** The body, if it could be built, in a POST request. *)
Definition post_built (path : bytes) (body : option bytes) : ctl_action :=
  match body with
  | None => build_failed
  | Some body => CtlSend (cstr "POST") path (Some body)
  end.

(** *** set *)

Definition MP_CACHE_CONTROL_CLI_REQUEST_BODY_CAPACITY : nat := Z.to_nat 4096.

(** The options after the value: the lifetime given last, if any; [None] is a
    usage error. *)
Fixpoint set_options (args : list bytes) (ttl_seconds : option Z) : option (option Z) :=
  match args with
  | [] => Some ttl_seconds
  | flag :: number :: args' =>
    if decide (flag = cstr "--ttl") then set_options args' (Some (u32 (strtoul_value number))) else None
  | [_] => None
  end.

Definition set_document (value_base64 : bytes) (ttl_seconds : option Z) : bytes :=
  match ttl_seconds with
  | Some ttl => json "{'value_base64':'" ++ value_base64 ++ json "','ttl_seconds':" ++ dec ttl ++ json "}"
  | None => json "{'value_base64':'" ++ value_base64 ++ json "'}"
  end.

Definition cache_path (key : bytes) : bytes := snprintf_s MP_CACHE_HTTP_PATH_CAPACITY (cstr "/v1/cache/" ++ key).

Definition ctl_set (args : list bytes) : STE heap ctl_action :=
  match args with
  | key :: value :: options =>
    match set_options options None with
    | None => mret CtlUsage
    | Some ttl =>
      let required := u64 (u64 (zlen value + 2) `div` 3 * 4 + 1) in
      ok ← run alloc;
      match (if (ok : bool) then mp_cache_base64_encode value required else Fail ENOMEM) with
      | Stuck => lift Stuck
      | Fail _ => mret encode_failed
      | Ret value_base64 =>
        mret (CtlSend (cstr "PUT") (cache_path key)
          (Some (snprintf_s MP_CACHE_CONTROL_CLI_REQUEST_BODY_CAPACITY (set_document value_base64 ttl))))
      end
    end
  | _ => mret CtlUsage
  end.

(** *** register-client and import *)

Definition register_document (client_id_json role_json : bytes) : bytes :=
  json "{'client_id':'" ++ client_id_json ++ json "','role':'" ++ role_json ++ json "'}".

Definition ctl_register (args : list bytes) : STE heap ctl_action :=
  match args with
  | client_id :: role :: _ =>
    client_id_json ← attempt (mp_cachectl_escape_json client_id);
    role_json ← attempt (mp_cachectl_escape_json role);
    match client_id_json, role_json with
    | Stuck, _ | _, Stuck => lift Stuck
    | Ret client_id_json, Ret role_json =>
      body ← print_allocated (register_document client_id_json role_json);
      mret (post_built (cstr "/v1/clients") body)
    | _, _ => mret build_failed
    end
  | _ => mret CtlUsage
  end.

Definition import_document (import_path_json : bytes) : bytes := json "{'path':'" ++ import_path_json ++ json "'}".

Definition ctl_import (args : list bytes) : STE heap ctl_action :=
  match args with
  | path :: _ =>
    path_json ← attempt (mp_cachectl_escape_json path);
    match path_json with
    | Stuck => lift Stuck
    | Fail _ => mret build_failed
    | Ret path_json =>
      body ← print_allocated (import_document path_json);
      mret (post_built (cstr "/v1/import") body)
    end
  | [] => mret CtlUsage
  end.

(** *** purge-keys *)

(** The size of the request body, in [size_t]. *)
Definition purge_capacity (keys : list bytes) : Z :=
  foldl (fun capacity key => u64 (capacity + (zlen key * MP_CACHE_JSON_ESCAPE_EXPANSION + 4))) 16 keys.

(** The loop over the keys; [None] is a body that could not be built. *)
Fixpoint purge_body (keys : list bytes) (is_first_key : bool) (capacity : Z) (body : bytes) : STE heap (option bytes) :=
  match keys with
  | [] =>
    if decide (capacity ≤ zlen body + 2) then mret None else mret (Some (body ++ json "]}"))
  | key :: keys' =>
    escaped_key ← attempt (mp_cachectl_escape_json key);
    match escaped_key with
    | Stuck => lift Stuck
    | Fail _ => mret None
    | Ret escaped_key =>
      let piece := (if is_first_key then [] else [44]) ++ [34] ++ escaped_key ++ [34] in
      if decide (INT_MAX < zlen piece ∨ capacity - zlen body ≤ zlen piece) then mret None
      else purge_body keys' false capacity (body ++ piece)
    end
  end.

Definition ctl_purge_keys (keys : list bytes) : STE heap ctl_action :=
  match keys with
  | [] => mret CtlUsage
  | _ =>
    let capacity := purge_capacity keys in
    ok ← run alloc;
    if negb ok then mret build_failed else
    body ← purge_body keys true capacity (snprintf_s (Z.to_nat capacity) (json "{'keys':["));
    mret (post_built (cstr "/v1/purge/keys") body)
  end.

(** ** Commands *)

(** The commands with one argument that only goes into the path. *)
Definition with_argument (args : list bytes) (send : bytes → ctl_action) : STE heap ctl_action :=
  match args with
  | [] => mret CtlUsage
  | arg :: _ => mret (send arg)
  end.

Definition client_action_path (client_id : bytes) (suffix : string) : bytes :=
  snprintf_s MP_CACHE_HTTP_PATH_CAPACITY (cstr "/v1/clients/" ++ client_id ++ cstr suffix).

Definition logs_path (args : list bytes) : bytes :=
  match args with
  | flag :: lines :: _ =>
    if decide (flag = cstr "--tail")
    then snprintf_s MP_CACHE_HTTP_PATH_CAPACITY (cstr "/v1/logs?tail=" ++ lines) else cstr "/v1/logs"
  | _ => cstr "/v1/logs"
  end.

Definition ctl_command (cli_command : bytes) (args : list bytes) : STE heap ctl_action :=
  let empty_object := Some (cstr "{}") in
  if decide (cli_command = cstr "health") then mret CtlHealth
  else if decide (cli_command = cstr "get") then
    with_argument args (fun key => CtlSend (cstr "GET") (cache_path key) None)
  else if decide (cli_command = cstr "set") then ctl_set args
  else if decide (cli_command = cstr "delete") then
    with_argument args (fun key => CtlSend (cstr "DELETE") (cache_path key) None)
  else if decide (cli_command = cstr "stats") then mret (CtlSend (cstr "GET") (cstr "/v1/stats") None)
  else if decide (cli_command = cstr "uptime") then mret (CtlSend (cstr "GET") (cstr "/v1/uptime") None)
  else if decide (cli_command = cstr "logs") then mret (CtlSend (cstr "GET") (logs_path args) None)
  else if decide (cli_command = cstr "register-client") then ctl_register args
  else if decide (cli_command = cstr "rotate-client") then
    with_argument args (fun id => CtlSend (cstr "POST") (client_action_path id "/rotate-token") empty_object)
  else if decide (cli_command = cstr "invalidate-client") then
    with_argument args (fun id => CtlSend (cstr "POST") (client_action_path id "/invalidate-token") empty_object)
  else if decide (cli_command = cstr "export") then mret (CtlSend (cstr "POST") (cstr "/v1/export") empty_object)
  else if decide (cli_command = cstr "import") then ctl_import args
  else if decide (cli_command = cstr "purge-keys") then ctl_purge_keys args
  else if decide (cli_command = cstr "purge-all") then mret (CtlSend (cstr "POST") (cstr "/v1/purge/all") empty_object)
  else mret CtlUsage.

(** ** The program *)

(** The options before the command: socket path, token, command and the rest;
    [None] is a usage error. *)
Fixpoint ctl_options (args : list bytes) (socket_path : bytes) (auth_token : option bytes)
    : option (bytes * option bytes * bytes * list bytes) :=
  match args with
  | [] => None
  | arg :: args' =>
    if decide (arg = cstr "--socket") then
      match args' with
      | [] => None
      | value :: args'' => ctl_options args'' value auth_token
      end
    else if decide (arg = cstr "--token") then
      match args' with
      | [] => None
      | value :: args'' => ctl_options args'' socket_path (Some value)
      end
    else Some (socket_path, auth_token, arg, args')
  end.

(** What the program reads from its environment. *)
Record ctl_env := CtlEnv {
  env_socket_path : option bytes;
  env_token : option bytes;
}.

Definition default_socket (env : ctl_env) : bytes :=
  match env_socket_path env with
  | None | Some [] => cstr ".tmp/run/mp-cache.sock"
  | Some path => path
  end.

Definition mp_cachectl_send_http_request (exchange : bytes → outcome bytes)
    (socket_path method request_path : bytes) (auth_token request_body : option bytes) : outcome bytes :=
  mp_cache_http_client_request exchange socket_path method request_path auth_token
    (Some (cstr "application/json")) (Some (default [] request_body)).

Definition mp_cachectl_print_usage : bytes :=
  mjoin ((fun line => cstr line ++ [10]) <$>
    ["usage: mp-cachectl [--socket <path>] [--token <token>] <command> [args]";
     "default socket path: $MP_SOCKET_PATH or .tmp/run/mp-cache.sock";
     "commands:";
     "  health";
     "  get <key>";
     "  set <key> <value> [--ttl <seconds>]";
     "  delete <key>";
     "  stats";
     "  uptime";
     "  logs [--tail <lines>]";
     "  register-client <client_id> <role>";
     "  rotate-client <client_id>";
     "  invalidate-client <client_id>";
     "  export";
     "  import <path>";
     "  purge-keys <key> [<key> ...]";
     "  purge-all"]%string).

(** The exit code and the text on the standard output and the standard error. *)
Record ctl_result := CtlResult {
  exit_code : Z;
  standard_output : bytes;
  standard_error : bytes;
}.

(** [exchange] is the connection to the server. *)
Definition ctl_perform (exchange : bytes → outcome bytes) (socket_path : bytes) (auth_token : option bytes)
    (action : ctl_action) : STE heap ctl_result :=
  let answered o := match o with
    | Ret output => mret (CtlResult 0 output [])
    | Fail _ => mret (CtlResult 1 [] [])
    | Stuck => lift Stuck
    end in
  match action with
  | CtlUsage => mret (CtlResult 1 [] mp_cachectl_print_usage)
  | CtlError message => mret (CtlResult 1 [] message)
  | CtlHealth => answered (mp_cache_http_client_health exchange socket_path)
  | CtlSend method path body =>
    answered (mp_cachectl_send_http_request exchange socket_path method path auth_token body)
  end.

Definition ctl_main (exchange : bytes → outcome bytes) (env : ctl_env) (args : list bytes) : STE heap ctl_result :=
  match ctl_options args (default_socket env) (env_token env) with
  | None => ctl_perform exchange [] None CtlUsage
  | Some (socket, auth_token, cli_command, args') =>
    action ← ctl_command cli_command args';
    ctl_perform exchange socket auth_token action
  end.

(** ** The documents are understood *)

Lemma bind_alloc {A} (f : bool → STE heap A) h : heap_ok h → ∃ h', (run alloc ≫= f) h = f true h' ∧ heap_ok h'.
Proof.
  intros Hh. unfold mbind, STE_bind, run. destruct (alloc h) as [b h'] eqn:Ha.
  destruct (alloc_heap_ok _ _ _ Ha Hh) as [-> Hh']. by exists h'.
Qed.

Lemma length_escape_text s : (length (escape_text s) ≤ 6 * length s)%nat.
Proof.
  induction s as [|c s IH]; [done|]. rewrite escape_text_cons, length_app. cbn [length].
  pose proof (escape_char_nonempty c). lia.
Qed.

Lemma escape_text_quote s : Forall json_plain s → 34 ∉ s → 34 ∉ escape_text s.
Proof.
  induction 1 as [|c s Hp Hs IH]; intros Hq; [done|]. apply not_elem_of_cons in Hq as [Hc Hq].
  rewrite escape_text_cons, not_elem_of_app. split; [|by apply IH]. clear -Hc Hp. unfold json_plain in Hp.
  unfold escape_char. repeat case_decide; rewrite ?not_elem_of_cons; try lia; (split; [lia|]);
    rewrite ?not_elem_of_cons; try (split; [lia|]); apply not_elem_of_nil.
Qed.

(** A text that fits an argument and survives the escaping. *)
Definition plain_text (s : bytes) : Prop := Forall json_plain s ∧ zlen s < 2 ^ 24.
#[export] Instance plain_text_dec s : Decision (plain_text s).
Proof. unfold plain_text. apply _. Defined.

Lemma escape_bind {A} s (f : outcome bytes → STE heap A) h : zlen s < 2 ^ 24 → heap_ok h →
  ∃ h', (attempt (mp_cachectl_escape_json s) ≫= f) h = f (Ret (escape_text s)) h' ∧ heap_ok h'.
Proof.
  intros Hs Hh. unfold mbind, STE_bind, attempt, mp_cachectl_escape_json. destruct (alloc h) as [b h'] eqn:Ha.
  destruct (alloc_heap_ok _ _ _ Ha Hh) as [-> Hh']. exists h'. pose proof (length_escape_text s).
  rewrite decide_False; [done|]. unfold escape_text, MP_CACHE_JSON_ESCAPE_EXPANSION, zlen in *. rewrite u64_small; lia.
Qed.

Lemma print_bind {A} text (f : option bytes → STE heap A) h : zlen text ≤ INT_MAX → heap_ok h →
  ∃ h', (print_allocated text ≫= f) h = f (Some text) h' ∧ heap_ok h'.
Proof.
  intros Ht Hh. unfold print_allocated. destruct (bind_alloc (fun ok => if negb ok then mret None
    else if decide (INT_MAX < zlen text) then lift Stuck else mret (Some text)) h Hh) as (h' & Hb & Hh').
  exists h'. unfold mbind at 1, STE_bind at 1. rewrite Hb. cbn [negb]. by rewrite decide_False by lia.
Qed.

(** *** purge-keys: the body is the array of the keys and fits its buffer *)

Fixpoint keys_size (keys : list bytes) : Z :=
  match keys with
  | [] => 0
  | key :: keys' => zlen key * 6 + 4 + keys_size keys'
  end.

Lemma keys_size_nonneg keys : 0 ≤ keys_size keys.
Proof. induction keys as [|key keys IH]; cbn [keys_size]; [done|]. pose proof (zlen_nonneg key). lia. Qed.

Lemma keys_size_small keys : Forall plain_text keys → keys_size keys ≤ 2 ^ 27 * zlen keys.
Proof.
  induction 1 as [|key keys [_ Hk] Hks IH]; [done|]. cbn [keys_size]. rewrite zlen_cons. lia.
Qed.

Lemma purge_capacity_size keys : 16 + keys_size keys < 2 ^ 64 → purge_capacity keys = 16 + keys_size keys.
Proof.
  unfold purge_capacity, MP_CACHE_JSON_ESCAPE_EXPANSION. assert (0 ≤ 16) as H0 by lia. revert H0. generalize 16 as c.
  induction keys as [|key keys IH]; intros c H0 Hc; cbn [foldl keys_size] in *; [lia|].
  pose proof (zlen_nonneg key). pose proof (keys_size_nonneg keys). rewrite u64_small by lia. rewrite IH; lia.
Qed.

(** The elements after the first, and the end of the document. *)
Fixpoint more_elements (keys : list bytes) : bytes :=
  match keys with
  | [] => [93; 125]
  | key :: keys' => [44] ++ quoted key ++ more_elements keys'
  end.

Lemma render_more key keys : render_elements (key :: keys) [125] = quoted key ++ more_elements keys.
Proof.
  revert key. induction keys as [|key' keys IH]; intros key; [done|].
  change (render_elements (key :: key' :: keys) [125]) with (quoted key ++ [44] ++ render_elements (key' :: keys) [125]).
  by rewrite IH.
Qed.

Lemma purge_body_more keys first capacity body h :
  Forall plain_text keys → heap_ok h → zlen body + keys_size keys + 2 < capacity →
  ∃ h', purge_body keys first capacity body h =
    (Ret (Some (body ++ match keys with
                        | [] => more_elements []
                        | key :: keys' => (if first then [] else [44]) ++ quoted key ++ more_elements keys'
                        end)), h') ∧ heap_ok h'.
Proof.
  intros Hks. revert first body h. induction Hks as [|key keys [Hp Hk] Hks IH]; intros first body h Hh Hc; cbn [purge_body].
  { exists h. rewrite decide_False; [done|]. cbn in Hc. lia. }
  cbn [keys_size] in Hc.
  match goal with |- context [(attempt _ ≫= ?f) h] => destruct (escape_bind key f h Hk Hh) as (h1 & -> & Hh1) end.
  cbv beta iota. fold (quoted key). pose proof (length_escape_text key) as Hl. pose proof (keys_size_nonneg keys).
  set (piece := (if first then [] else [44]) ++ quoted key). pose proof (zlen_nonneg body).
  assert (zlen piece ≤ zlen key * 6 + 3) as Hpl.
  { unfold piece, quoted. rewrite !zlen_app. destruct first; unfold zlen in *; cbn [length]; lia. }
  rewrite decide_False by (unfold INT_MAX; lia).
  destruct (IH false (body ++ piece) h1 Hh1) as (h' & -> & Hh'); [rewrite zlen_app; lia|].
  exists h'. split; [|done]. unfold piece. rewrite <-!app_assoc. destruct keys; done.
Qed.

(** *** What each command sends *)

(** The command, with memory, sends a request with a body that satisfies [P]. *)
Definition sends (h : heap) (command : string) (args : list bytes) (method path : bytes) (P : bytes → Prop) : Prop :=
  ∃ body h', ctl_command (cstr command) args h = (Ret (CtlSend method path (Some body)), h') ∧ heap_ok h' ∧ P body.

(** The server's reader gets the text, or ENOSPC when it does not fit. *)
Definition reads (body : bytes) (name : string) (capacity : nat) (s : bytes) : Prop :=
  mp_cache_http_extract_json_string body (cstr name) capacity = if decide (length s < capacity)%nat then Ret s else Fail ENOSPC.

Lemma register_sends h id role args :
  heap_ok h → plain_text id → 34 ∉ id → plain_text role →
  sends h "register-client" (id :: role :: args) (cstr "POST") (cstr "/v1/clients") (fun body =>
    reads body "client_id" MP_CACHE_CLIENT_ID_CAP id ∧ reads body "role" 16 role).
Proof.
  intros Hh [Hip Hil] Hq [Hrp Hrl]. unfold sends.
  change (ctl_command (cstr "register-client") (id :: role :: args)) with (ctl_register (id :: role :: args)). unfold ctl_register.
  match goal with |- context [(attempt _ ≫= ?f) h] => destruct (escape_bind id f h Hil Hh) as (h1 & -> & Hh1) end.
  match goal with |- context [(attempt _ ≫= ?f) h1] => destruct (escape_bind role f h1 Hrl Hh1) as (h2 & -> & Hh2) end.
  cbv iota. set (body := register_document (escape_text id) (escape_text role)).
  assert (zlen body ≤ INT_MAX) as Hl.
  { unfold body, register_document. pose proof (length_escape_text id). pose proof (length_escape_text role).
    rewrite !zlen_app. unfold INT_MAX, zlen in *.
    change (length (json "{'client_id':'")) with 14%nat. change (length (json "','role':'")) with 10%nat.
    change (length (json "'}")) with 2%nat. lia. }
  match goal with |- context [(print_allocated _ ≫= ?f) h2] => destruct (print_bind body f h2 Hl Hh2) as (h3 & -> & Hh3) end.
  exists body, h3. split; [done|]. split; [done|]. split.
  - apply (extract_string_found _ _ _ (json ",'role':'" ++ escape_text role ++ json "'}")); [|done|unfold MP_CACHE_CLIENT_ID_CAP; lia].
    refine (json_document_value [123] (cstr "client_id") ([34] ++ escape_text id ++ [34] ++ _) _ _ _); decide_now.
  - apply (extract_string_found _ _ _ [125]); [|done|lia].
    refine (json_pair_second (cstr "client_id") (escape_text id) (cstr "role") ([34] ++ escape_text role ++ [34; 125]) _ _ _ _ _ _ _);
      first [by apply escape_text_quote|decide_now].
Qed.

Lemma import_sends h path args :
  heap_ok h → plain_text path →
  sends h "import" (path :: args) (cstr "POST") (cstr "/v1/import") (fun body =>
    reads body "path" (Z.to_nat MP_CACHE_PATH_CAP) path).
Proof.
  intros Hh [Hp Hl]. unfold sends.
  change (ctl_command (cstr "import") (path :: args)) with (ctl_import (path :: args)). unfold ctl_import.
  match goal with |- context [(attempt _ ≫= ?f) h] => destruct (escape_bind path f h Hl Hh) as (h1 & -> & Hh1) end.
  cbv iota. set (body := import_document (escape_text path)).
  assert (zlen body ≤ INT_MAX) as Hb.
  { unfold body, import_document. pose proof (length_escape_text path). rewrite !zlen_app. unfold INT_MAX, zlen in *.
    change (length (json "{'path':'")) with 9%nat. change (length (json "'}")) with 2%nat. lia. }
  match goal with |- context [(print_allocated _ ≫= ?f) h1] => destruct (print_bind body f h1 Hb Hh1) as (h2 & -> & Hh2) end.
  exists body, h2. split; [done|]. split; [done|].
  apply (extract_string_found _ _ _ [125]); [|done|unfold MP_CACHE_PATH_CAP; lia].
  refine (json_document_value [123] (cstr "path") ([34] ++ escape_text path ++ [34; 125]) _ _ _); decide_now.
Qed.

Lemma purge_keys_sends h keys :
  heap_ok h → keys ≠ [] → (length keys ≤ MP_CACHE_HTTP_JSON_ARRAY_LIMIT)%nat → Forall plain_text keys →
  sends h "purge-keys" keys (cstr "POST") (cstr "/v1/purge/keys") (fun body =>
    ∀ h1, heap_ok h1 → ∃ h2, mp_cache_http_extract_json_string_array body (cstr "keys") h1 = (Ret keys, h2)).
Proof.
  intros Hh Hne Hlim Hks. unfold sends. change (ctl_command (cstr "purge-keys") keys) with (ctl_purge_keys keys).
  pose proof (keys_size_small keys Hks) as Hsize. pose proof (keys_size_nonneg keys).
  assert (purge_capacity keys = 16 + keys_size keys) as Hcap.
  { apply purge_capacity_size. unfold zlen, MP_CACHE_HTTP_JSON_ARRAY_LIMIT in *. lia. }
  destruct keys as [|key keys]; [done|]. unfold ctl_purge_keys. rewrite Hcap.
  match goal with |- context [(run alloc ≫= ?f) h] => destruct (bind_alloc f h Hh) as (h1 & -> & Hh1) end. cbn [negb].
  assert (snprintf_s (Z.to_nat (16 + keys_size (key :: keys))) (json "{'keys':[") = json "{'keys':[") as ->.
  { unfold snprintf_s. apply take_ge. change (length (json "{'keys':[")) with 9%nat. lia. }
  destruct (purge_body_more (key :: keys) true (16 + keys_size (key :: keys)) (json "{'keys':[") h1 Hks Hh1) as (h2 & Hb & Hh2).
  { change (zlen (json "{'keys':[")) with 9. lia. }
  rewrite (bind_ret _ _ _ _ _ Hb). cbn [app]. rewrite <-render_more.
  eexists _, h2. split; [done|]. split; [done|]. intros h3 Hh3.
  apply (json_array_roundtrip [123] (cstr "keys") (key :: keys) [125] h3); [decide_now..|done|done|].
  eapply Forall_impl; [exact Hks|]. intros k [Hp Hl]. split; [done|lia].
Qed.

(** *** set: the value and its lifetime *)

Definition ttl_option (ttl : option Z) : list bytes :=
  match ttl with Some t => [cstr "--ttl"; dec t] | None => [] end.
Definition ttl_ok (ttl : option Z) : Prop := match ttl with Some t => 0 ≤ t ≤ UINT32_MAX | None => True end.

Lemma set_options_ttl ttl : ttl_ok ttl → set_options (ttl_option ttl) None = Some ttl.
Proof.
  destruct ttl as [t|]; intros Ht; [|done]. cbn in Ht. unfold ttl_option, set_options. rewrite decide_True by done.
  pose proof (strtoul_dec t [] ltac:(unfold SIZE_MAX, UINT32_MAX in *; lia) ltac:(done)) as Hs. rewrite app_nil_r in Hs.
  unfold strtoul_value. rewrite Hs. unfold u32. rewrite Z.mod_small; [done|unfold UINT32_MAX in *; lia].
Qed.

Lemma base64_char_plain c : base64_char c → json_plain c ∧ escape_char c = [c] ∧ c ≠ 34 ∧ c ≠ 95 ∧ c ≠ 0.
Proof.
  unfold base64_char, isalnum, json_plain, escape_char. rewrite bool_decide_eq_true. intros Hc. rewrite !decide_False by lia.
  repeat split; lia.
Qed.

Lemma base64_text_plain l : Forall base64_char l → Forall json_plain l ∧ escape_text l = l ∧ (34 ∉ l) ∧ (95 ∉ l) ∧ 0 ∉ l.
Proof.
  induction 1 as [|c l Hc Hl (IH1 & IH2 & IH3 & IH4 & IH5)]; [by repeat split; try apply not_elem_of_nil|].
  destruct (base64_char_plain c Hc) as (? & He & ? & ? & ?). rewrite escape_text_cons, He, IH2, !not_elem_of_cons.
  repeat split; auto.
Qed.

Lemma dec_nul_free n : 0 ≤ n → 0 ∉ dec n.
Proof.
  intros Hn Hin. destruct (dec_digits n Hn) as (Hd & _). eapply Forall_forall in Hd; [|done]. done.
Qed.

(** The document of a [set], and that it is not cut. *)
Lemma set_document_size b64 ttl : Forall base64_char b64 → ttl_ok ttl → zlen b64 ≤ 4040 →
  zlen (set_document b64 ttl) < 4096 ∧ 0 ∉ set_document b64 ttl.
Proof.
  intros Hb Ht Hl. destruct (base64_text_plain _ Hb) as (_ & _ & _ & _ & H0).
  destruct ttl as [t|]; unfold set_document; rewrite !zlen_app, !not_elem_of_app.
  - cbn in Ht. pose proof (length_dec t ltac:(unfold UINT32_MAX in *; lia)) as Hd.
    change (zlen (json "{'value_base64':'")) with 17. change (zlen (json "','ttl_seconds':")) with 16.
    change (zlen (json "}")) with 1. unfold zlen in *.
    split; [lia|]. repeat split; [decide_now|done|decide_now|apply dec_nul_free; lia|decide_now].
  - change (zlen (json "{'value_base64':'")) with 17. change (zlen (json "'}")) with 2. repeat split; [lia|decide_now|done|decide_now].
Qed.

Lemma set_document_read b64 ttl : Forall base64_char b64 → ttl_ok ttl → zlen b64 ≤ 4040 →
  mp_cache_http_extract_json_string (set_document b64 ttl) (cstr "value_base64") MP_CACHE_HTTP_BODY_CAPACITY = Ret b64 ∧
  mp_cache_http_extract_json_u32 (set_document b64 ttl) (cstr "ttl_seconds") =
    match ttl with Some t => Ret t | None => Fail ENOENT end.
Proof.
  intros Hb Ht Hl. destruct (base64_text_plain _ Hb) as (Hp & He & Hq & Hu & _). split.
  - set (rest := match ttl with Some t => json ",'ttl_seconds':" ++ dec t ++ json "}" | None => json "}" end).
    assert (set_document b64 ttl = json_document [123] (cstr "value_base64") ([34] ++ b64 ++ [34] ++ rest)) as -> by (by destruct ttl).
    erewrite (extract_string_found _ _ b64 rest), decide_True; [done| |rewrite He|done|].
    + unfold MP_CACHE_HTTP_BODY_CAPACITY, zlen in *. lia.
    + refine (json_document_value [123] (cstr "value_base64") ([34] ++ b64 ++ [34] ++ rest) _ _ _); decide_now.
    + unfold MP_CACHE_HTTP_BODY_CAPACITY. lia.
  - destruct ttl as [t|].
    + apply (extract_u32_found _ _ t [125]); [|exact Ht|by intros c ? [= <- _]].
      assert (drop_space (dec t ++ [125]) = dec t ++ [125]) as Hd.
      { cbn in Ht. destruct (dec_digits t ltac:(lia)) as (Hd & _ & Hne). destruct (dec t) as [|c ds]; [done|].
        inversion_clear Hd as [|? ? Hc _]. cbn. unfold isdigit in Hc. apply bool_decide_eq_true in Hc.
        unfold isspace. by rewrite bool_decide_eq_false_2 by lia. }
      rewrite <-Hd. refine (json_pair_second (cstr "value_base64") b64 (cstr "ttl_seconds") (dec t ++ [125]) _ _ _ _ _ _ _);
        first [done|decide_now].
    + unfold mp_cache_http_extract_json_u32.
      assert (json_field_value (set_document b64 None) (cstr "ttl_seconds") = Fail ENOENT) as ->; [|done].
      refine (json_single_absent (cstr "value_base64") b64 (cstr "ttl_seconds") _ _ _ _ _ _ _); try decide_now; [done|].
      intros ->. apply Hu. decide_now.
Qed.

Lemma set_sends h key value ttl :
  heap_ok h → bytes_wf value → zlen value ≤ 3030 → ttl_ok ttl →
  sends h "set" (key :: value :: ttl_option ttl) (cstr "PUT") (cache_path key) (fun body =>
    zlen body < 4096 ∧ (0 ∉ body) ∧ ∃ value_base64,
    mp_cache_http_extract_json_string body (cstr "value_base64") MP_CACHE_HTTP_BODY_CAPACITY = Ret value_base64 ∧
    mp_cache_base64_decode value_base64 (zlen value_base64 `div` 4 * 3 + 3) = Ret value ∧
    mp_cache_http_extract_json_u32 body (cstr "ttl_seconds") = match ttl with Some t => Ret t | None => Fail ENOENT end).
Proof.
  intros Hh Hwf Hl Ht. pose proof (zlen_nonneg value). unfold sends.
  change (ctl_command (cstr "set") (key :: value :: ttl_option ttl)) with (ctl_set (key :: value :: ttl_option ttl)).
  unfold ctl_set. rewrite set_options_ttl by done. cbv zeta.
  match goal with |- context [(run alloc ≫= ?f) h] => destruct (bind_alloc f h Hh) as (h1 & -> & Hh1) end.
  rewrite (u64_small (zlen value + 2)), (u64_small (_ + 1)), base64_encode_fits by zlia.
  set (b64 := base64_encode_loop value). pose proof (base64_encode_chars value) as Hb. fold b64 in Hb.
  assert (zlen b64 = (zlen value + 2) `div` 3 * 4) as Hbl by apply length_base64_encode_loop.
  assert (zlen b64 ≤ 4040) as Hb64 by zlia.
  destruct (set_document_size b64 ttl Hb Ht Hb64) as [Hs H0].
  assert (snprintf_s MP_CACHE_CONTROL_CLI_REQUEST_BODY_CAPACITY (set_document b64 ttl) = set_document b64 ttl) as ->.
  { apply take_ge. unfold MP_CACHE_CONTROL_CLI_REQUEST_BODY_CAPACITY, zlen in *. lia. }
  exists (set_document b64 ttl), h1. split; [done|]. split; [done|]. split; [done|]. split; [done|].
  exists b64. destruct (set_document_read b64 ttl Hb Ht Hb64) as [-> ->]. split; [done|]. split; [|done].
  apply base64_decode_encoded; [done|zlia].
Qed.

(** ** A [set] from the command line into the table *)

(** A key that stands for itself in a path. *)
Definition key_ok (key : bytes) : Prop :=
  key ≠ [] ∧ (length key ≤ 255)%nat ∧ Forall (fun c => isspace c = false ∧ c ≠ 0 ∧ c ≠ 37 ∧ c ≠ 63) key.
#[export] Instance key_ok_dec key : Decision (key_ok key).
Proof. unfold key_ok. apply _. Defined.

Lemma percent_plain key room : Forall (fun c => c ≠ 37) key → (length key ≤ room)%nat → percent_loop key room = Ret key.
Proof.
  intros Hk. revert room. induction Hk as [|c key Hc Hk IH]; intros room Hl; [done|]. cbn [length] in Hl.
  destruct room as [|room]; [lia|]. cbn [percent_loop]. rewrite decide_False by done. by rewrite IH by lia.
Qed.

Lemma key_ok_nin key c : key_ok key → c = 0 ∨ c = 37 ∨ c = 63 → c ∉ key.
Proof. intros (_ & _ & Hk) Hc Hin. eapply Forall_forall in Hk as (_ & ? & ? & ?); [|done]. lia. Qed.

Local Abbreviation map_of s := (store_map (sv_store (service s))).
Local Abbreviation time_of s := (w_time (sv_world (service s))).
Local Abbreviation heap_of s := (w_heap (sv_world (service s))).

Section Served.
Context {EC : EnvelopeCrypto}.

Lemma put_path_requests key request :
  key_ok key → request_path request = cstr "/v1/cache/" ++ key → HttpText.method request = cstr "PUT" → requests "PUT" key request.
Proof.
  intros Hk Hp Hm. split; [|split; [done|apply Hk]]. unfold names_key. rewrite Hp. split; [apply starts_with_app|].
  exists key. split; [|apply c_string_id, key_ok_nin; auto]. change (drop 10 (cstr "/v1/cache/" ++ key)) with key.
  apply percent_plain; [|apply Hk]. apply Forall_forall. intros c Hc ->. by apply (key_ok_nin key 37 Hk); auto.
Qed.

Lemma put_request_stores s0 s logs request key value ttl r s2 :
  deployed s0 → serving s0 s → clock_sane (time_of s) → key_ok key →
  request_path request = cstr "/v1/cache/" ++ key → HttpText.method request = cstr "PUT" →
  (∃ b64, mp_cache_http_extract_json_string (request_body request) (cstr "value_base64") MP_CACHE_HTTP_BODY_CAPACITY = Ret b64 ∧
    mp_cache_base64_decode b64 (zlen b64 `div` 4 * 3 + 3) = Ret value ∧
    mp_cache_http_extract_json_u32 (request_body request) (cstr "ttl_seconds") =
      match ttl with Some t => Ret t | None => Fail ENOENT end) →
  mp_cache_http_route_request logs request s = (Ret r, s2) → status_code r = 200 →
  map_of s2 = <[key := (value, time_of s + default (num (hs_config s0) default_ttl_seconds) ttl)]>
    (map_of (mp_cache_http_maybe_sweep (time_of s) s).2).
Proof.
  intros Hdep Hrun Hclock Hk Hp Hm (b64 & Hb & Hd & Ht) Hroute Hok.
  destruct (put_request_binding s0 Hdep logs request key s r s2 Hrun Hclock (put_path_requests key request Hk Hp Hm) Hroute Hok)
    as (value' & ttl' & (b64' & Hb' & Hd' & Ht' & _) & _ & _ & _ & ->).
  rewrite Hb in Hb'. injection Hb' as <-. rewrite Hd in Hd'. injection Hd' as <-. rewrite Ht in Ht'. destruct ttl as [t|]; cbn [default].
  - by injection Ht' as <-.
  - by rewrite Ht'.
Qed.

(** The lengths of constant texts. *)
Ltac sizes := repeat match goal with |- context [zlen (cstr ?s)] =>
  let n := eval vm_compute in (zlen (cstr s)) in change (zlen (cstr s)) with n end;
  change (zlen CRLF) with 2.

Lemma put_sendable key token body :
  key_ok key → line_text token → (length token ≤ 248)%nat → zlen body < 4096 → 0 ∉ body →
  sendable (cstr "PUT") (cstr "/v1/cache/" ++ key) (Some token) (Some (cstr "application/json")) (Some body).
Proof.
  intros (Hne & Hl & Hk) Ht Htl Hb H0. split.
  - split; [decide_now|cbn; lia].
  - split; [|rewrite length_app; cbn; lia]. split; [done|]. apply Forall_app_2; [decide_now|].
    eapply Forall_impl; [exact Hk|]. by intros c (? & ? & _).
  - done.
  - decide_now.
  - done.
  - unfold client_request_text. change (default [] (Some body)) with body. rewrite !zlen_app. sizes.
    pose proof (length_dec (zlen body) ltac:(unfold zlen in *; lia)). unfold MP_CACHE_HTTP_REQUEST_CAPACITY, zlen in *. lia.
Qed.

Lemma meant_put key token body : key_ok key →
  meant_request (cstr "PUT") (cstr "/v1/cache/" ++ key) (Some token) (Some body) =
    Request (cstr "PUT") (cstr "/v1/cache/" ++ key) (cstr "/v1/cache/" ++ key) [] (cstr "Bearer " ++ token) (zlen body) body (zlen body).
Proof.
  intros Hk. unfold meant_request, mp_cache_http_split_target. rewrite strchr_none.
  - unfold snprintf_s. rewrite take_ge; [done|]. rewrite length_app. destruct Hk as (_ & Hl & _).
    unfold MP_CACHE_HTTP_PATH_CAPACITY. cbn. lia.
  - rewrite not_elem_of_app. split; [decide_now|apply key_ok_nin; auto].
Qed.

(** What the program prints and returns for what the server sends. *)
Definition shows (answer : outcome bytes) : outcome ctl_result :=
  match answer with
  | Ret response =>
    Ret (CtlResult 0 (client_output (take (Z.to_nat (MP_CACHE_HTTP_REQUEST_CAPACITY - 1)) response)) [])
  | Fail _ => Ret (CtlResult 1 [] [])
  | Stuck => Stuck
  end.

(** C26. A value set on the command line arrives in the server. With memory, a key
    that needs no escaping in a path, a value of at most 3030 bytes and a token
    that fits a header line, [mp-cachectl --token T set KEY VALUE [--ttl N]]
    sends one request and exits 0 with the server's answer on its output, or 1
    when the connection fails. Whenever a deployed server reads what was sent,
    in whatever pieces, and answers 200, its table is the swept one with exactly
    this value under this key, to expire after the lifetime given or the
    configured default. *)
Theorem set_command_stores env h token key value ttl s0 s logs events :
  heap_ok h → key_ok key → line_text token → (length token ≤ 248)%nat →
  bytes_wf value → zlen value ≤ 3030 → ttl_ok ttl → zlen (default_socket env) < SUN_PATH_SIZE →
  deployed s0 → serving s0 s → clock_sane (time_of s) → heap_ok (heap_of s) → Forall delivers events →
  ∃ sent h', (∀ exchange,
      ctl_main exchange env ([cstr "--token"; token; cstr "set"; key; value] ++ ttl_option ttl) h = (shows (exchange sent), h')) ∧
    (received events = sent →
     ∃ request s1, in_service (in_world (in_heap (mp_cache_http_read_request events MP_CACHE_HTTP_REQUEST_CAPACITY))) s =
         (Ret request, s1) ∧
       ∀ r s2, mp_cache_http_route_request logs request s1 = (Ret r, s2) → status_code r = 200 →
       map_of s2 = <[key := (value, time_of s + default (num (hs_config s0) default_ttl_seconds) ttl)]>
         (map_of (mp_cache_http_maybe_sweep (time_of s) s).2)).
Proof.
  intros Hh Hk Ht Htl Hwf Hv Httl Hsock Hdep Hrun Hclock Hhs Hev.
  destruct (set_sends h key value ttl Hh Hwf Hv Httl) as (body & h' & Hcmd & Hh' & Hbl & H0 & Hdoc).
  assert (cache_path key = cstr "/v1/cache/" ++ key) as Hpath.
  { unfold cache_path, snprintf_s. apply take_ge. rewrite length_app. destruct Hk as (_ & ? & _).
    unfold MP_CACHE_HTTP_PATH_CAPACITY. cbn. lia. }
  rewrite Hpath in Hcmd. pose proof (put_sendable key token body Hk Ht Htl Hbl H0) as Hsend.
  eexists (client_request_text (cstr "PUT") (cstr "/v1/cache/" ++ key) (Some token) (Some (cstr "application/json")) (Some body)), h'.
  split.
  - intros exchange. unfold ctl_main.
    assert (ctl_options ([cstr "--token"; token; cstr "set"; key; value] ++ ttl_option ttl) (default_socket env) (env_token env) =
      Some (default_socket env, Some token, cstr "set", key :: value :: ttl_option ttl)) as -> by reflexivity.
    rewrite (bind_ret _ _ _ _ _ Hcmd). unfold ctl_perform, mp_cachectl_send_http_request, mp_cache_http_client_request.
    change (default [] (Some body)) with body. pose proof (send_fits _ _ _ _ _ Hsend).
    rewrite !decide_False by lia. unfold mbind, outcome_bind.
    by destruct (exchange _).
  - intros Hrec. destruct (read_request_sent _ _ _ _ _ events _ Hsend Hhs Hev Hrec) as (h2 & Hread).
    rewrite meant_put in Hread by done. eexists _, (set_service s _). split.
    { unfold in_service, in_world, in_heap, zoom. rewrite Hread. reflexivity. }
    intros r s2 Hroute Hok.
    eapply (put_request_stores s0 _ logs _ key value ttl r s2 Hdep) in Hroute; [|by apply serving_environment|done..|exact Hdoc|done].
    rewrite Hroute. unfold mp_cache_http_maybe_sweep. by destruct (decide _).
Qed.
End Served.

(** C27. The server understands the documents of the control program. With memory,
    the commands register-client (an id without a quote, and a role), import (a
    path), purge-keys (at most 256 keys) and set (a value of at most 3030 bytes)
    send a body in which the readers of the handlers find exactly the arguments,
    or report that they are too long for their buffers; ids, roles, paths and keys
    are plain text, without control characters other than tab, line feed and
    carriage return. No buffer overflows on the way and none of these commands
    gives up. (A longer value of set is cut: [long_value_is_cut].) *)
Theorem ctl_documents_understood h :
  heap_ok h →
  (∀ id role args, plain_text id → 34 ∉ id → plain_text role →
     sends h "register-client" (id :: role :: args) (cstr "POST") (cstr "/v1/clients") (fun body =>
       reads body "client_id" MP_CACHE_CLIENT_ID_CAP id ∧ reads body "role" 16 role)) ∧
  (∀ path args, plain_text path →
     sends h "import" (path :: args) (cstr "POST") (cstr "/v1/import") (fun body =>
       reads body "path" (Z.to_nat MP_CACHE_PATH_CAP) path)) ∧
  (∀ keys, keys ≠ [] → (length keys ≤ MP_CACHE_HTTP_JSON_ARRAY_LIMIT)%nat → Forall plain_text keys →
     sends h "purge-keys" keys (cstr "POST") (cstr "/v1/purge/keys") (fun body =>
       ∀ h1, heap_ok h1 → ∃ h2, mp_cache_http_extract_json_string_array body (cstr "keys") h1 = (Ret keys, h2))) ∧
  (∀ key value ttl, bytes_wf value → zlen value ≤ 3030 → ttl_ok ttl →
     sends h "set" (key :: value :: ttl_option ttl) (cstr "PUT") (cache_path key) (fun body =>
       ∃ value_base64,
         mp_cache_http_extract_json_string body (cstr "value_base64") MP_CACHE_HTTP_BODY_CAPACITY = Ret value_base64 ∧
         mp_cache_base64_decode value_base64 (zlen value_base64 `div` 4 * 3 + 3) = Ret value ∧
         mp_cache_http_extract_json_u32 body (cstr "ttl_seconds") = match ttl with Some t => Ret t | None => Fail ENOENT end)).
Proof.
  intros Hh. split; [|split; [|split]].
  - intros. by apply register_sends.
  - intros. by apply import_sends.
  - intros. by apply purge_keys_sends.
  - intros key value ttl Hwf Hl Ht. destruct (set_sends h key value ttl Hh Hwf Hl Ht) as (body & h' & ? & ? & _ & _ & ?).
    by exists body, h'.
Qed.

Lemma ctl_documents_understood_witness :
  sends [] "purge-keys" [cstr "a/b"; [34; 92; 10]] (cstr "POST") (cstr "/v1/purge/keys") (fun body =>
    ∀ h1, heap_ok h1 → ∃ h2, mp_cache_http_extract_json_string_array body (cstr "keys") h1 = (Ret [cstr "a/b"; [34; 92; 10]], h2)).
Proof.
  apply (ctl_documents_understood []); [constructor|done|decide_now|decide_now].
Defined.

(** A value that makes the body longer than its buffer is cut: the document the
    server gets has no end of the string and is refused. *)
Definition long_value : bytes := repeat 97 4000.

Example long_value_is_cut :
  match (ctl_set [cstr "k"; long_value] []).1 with
  | Ret (CtlSend _ _ (Some body)) =>
    zlen body = 4095 ∧
    mp_cache_http_extract_json_string body (cstr "value_base64") MP_CACHE_HTTP_BODY_CAPACITY = Fail EINVAL
  | _ => False
  end.
Proof. vm_compute. split; reflexivity. Qed.

(** The administrator sets the key of the sample service. *)
Definition sample_ctl_env : ctl_env := CtlEnv None None.
Definition sample_ctl_text : bytes := Eval vm_compute in
  client_request_text (cstr "PUT") (cstr "/v1/cache/k") (Some (cstr "s3cret")) (Some (cstr "application/json"))
    (Some sample_body).
Definition sample_ctl_events : list recv_result := [RecvBytes (take 50 sample_ctl_text); RecvBytes (drop 50 sample_ctl_text)].

Lemma sample_ctl_events_deliver : Forall delivers sample_ctl_events.
Proof. repeat constructor; vm_compute; congruence. Qed.

Definition sample_ctl_args : list bytes :=
  [cstr "--token"; cstr "s3cret"; cstr "set"; cstr "k"; cstr "v2"; cstr "--ttl"; cstr "30"].
(** A connection that answers only the expected text. *)
Definition sample_exchange (text : bytes) : outcome bytes :=
  if decide (text = sample_ctl_text) then Ret [] else Fail EOTHER.

Lemma sample_ctl_run : (ctl_main sample_exchange sample_ctl_env sample_ctl_args []).1 = Ret (CtlResult 0 [10] []).
Proof. vm_compute. reflexivity. Qed.

Lemma set_command_stores_witness :
  ∃ request s1, in_service (in_world (in_heap (mp_cache_http_read_request sample_ctl_events MP_CACHE_HTTP_REQUEST_CAPACITY)))
      sample_running = (Ret request, s1) ∧
    ∀ r s2, mp_cache_http_route_request no_logs request s1 = (Ret r, s2) → status_code r = 200 →
      map_of s2 = <[cstr "k" := (cstr "v2", 140)]> (map_of (mp_cache_http_maybe_sweep 110 sample_running).2).
Proof.
  destruct (set_command_stores sample_ctl_env [] (cstr "s3cret") (cstr "k") (cstr "v2") (Some 30) sample_running sample_running
    no_logs sample_ctl_events) as (sent & h' & Hmain & Hserver).
  - constructor.
  - decide_now.
  - decide_now.
  - decide_now.
  - decide_now.
  - decide_now.
  - split; vm_compute; congruence.
  - decide_now.
  - exact sample_deployed.
  - apply serving_start.
  - exact sample_clock.
  - constructor.
  - exact sample_ctl_events_deliver.
  - apply Hserver. pose proof sample_ctl_run as Hrun.
    assert (sample_ctl_args = [cstr "--token"; cstr "s3cret"; cstr "set"; cstr "k"; cstr "v2"] ++ ttl_option (Some 30)) as Ha
      by (vm_compute; reflexivity).
    rewrite Ha, Hmain in Hrun. unfold sample_exchange in Hrun. destruct (decide (sent = sample_ctl_text)) as [->|]; [|done].
    vm_compute. reflexivity.
Defined.
